(* ===== verification/_CoqProject ===== *)
-Q . S2P
Prelude.v
PyHash.v
PySet.v
Probe.v
PySetFacts.v
PySetSpec.v
PySetAlgebra.v
PySetThms.v
Values.v
Text.v
Errors.v
F64.v
FloatText.v
Keys.v
Arith.v
ArithThms.v
Classes.v
ClassesThms.v
Heapq.v
HeapqThms.v
Slices.v
SlicesThms.v
ValueEq.v
Compare.v
CompareThms.v
Operators.v
State.v
StateThms.v
Exceptions.v
ExceptionsThms.v
Op.v
Methods.v
MapMethods.v
SetMethods.v
Containers.v
Places.v
Syntax.v
Names.v
Unparse.v
Mangle.v
Params.v
Host.v
Displays.v
Eval.v
Definitions.v
Match.v
Stmts.v
Functions.v
Generators.v
Struct.v
StrMethods.v
BytesMethods.v
Repr.v
Format.v
Percent.v
Attributes.v
Targets.v
Render.v
Dataclasses.v
Objects.v
Samples.v
MethodsThms.v
MapMethodsThms.v
MatchThms.v
EvalThms.v
StmtsThms.v
Lines.v
Frame.v
ParamsThms.v
CallsThms.v
ClassDef.v
GeneratorsThms.v
ClosureThms.v
ScopeThms.v
DisplaysThms.v
Serialize.v
SerializeThms.v
StructThms.v
StrThms.v
PlacesThms.v
