(* ===== verification/Prelude.v ===== *)
(** * interpretthis: a verification development

    The program (crates/interpretthis/src) is a sandboxed interpreter of a Python
    subset: a tree walk over the syntax trees of the rustpython parser, with its own
    values, limits on every resource, host tools, and checkpoints of its state. This
    library models its deterministic core and proves what makes each part correct.

    ** Parts of the program and files of the library

    - [Prelude]: machine integers (a [u64]/[usize] is a [Z] with [wrap64], an [i64]
      one with [swrap64]; arithmetic the source leaves unchecked wraps, as in a
      release build), list lemmas, the tactic [reflect] and the database [machine].
    - [PyHash] (pyhash.rs): Python hashes of integers, tuples, frozensets, bytes and
      time differences.
    - [PySet] (pyset.rs): the open-addressing set table in CPython's layout - probe
      sequence, insertion, tombstones, resizing, the set operators - and the store a
      set value holds (table, or list when an element has no hash). [Probe],
      [PySetFacts], [PySetSpec], [PySetAlgebra] and [PySetThms] carry the table
      invariant, the refinement of the table by a finite set of elements, and the
      refinement of each operator by the operation on sets.
    - [Values] (value.rs): values, dictionary keys and exceptions as one mutual
      inductive type. A shared container ([Arc<Mutex<_>>]) is a location in a [Heap],
      so that aliases are aliases. The class [External] holds the types and functions
      of crates (chrono, bigdecimal, num-rational) and the standard hasher.
    - [Errors] (error.rs): error values, control-flow signals and [Outcome], the
      result of a fallible call: [Ok], [Err], or [Panic] (a Rust panic, or a loop out
      of fuel).
    - [F64]: the IEEE binary64 operations the source uses, on the Standard Library's
      [SpecFloat].
    - [Keys] (value.rs, eval/literals.rs, types.rs): key equality and hashing, the
      insertion-ordered map, and [Counter] arithmetic. [KeyLaws] is the interface of
      the map's clients; text keys implement it.
    - [Arith] and [ArithThms] (eval/operations.rs): the operator kernels on integers
      of every width, floats, sequences, dictionaries and sets.
    - [Classes] and [ClassesThms] (eval/classes.rs, eval/exceptions.rs): class
      records, C3 linearization, lookups along it, the tree of builtin exceptions and
      the test of an [except] clause against it.
    - [Heapq] and [HeapqThms] (modules/heapq.rs): the interface of a fallible strict
      order, and the heap; bisection (modules/bisect.rs), at the end of [Heapq], is proved
      against the same interface.
    - [Slices] and [SlicesThms] (types.rs, eval/names.rs, eval/place.rs,
      eval/delete.rs): index normalization, [range], and reading, assigning and
      deleting slices.
    - [ValueEq] (value.rs): structural equality of stored values.
    - [Compare] and [CompareThms] (types.rs, eval/operations.rs, cycle.rs): equality
      and order of builtin values with their recursion limit, identity, and the
      comparison operators; text and tuples order as sequences.
    - [Operators] (types.rs, eval/operations.rs, eval/statements.rs): the
      iteration, arithmetic and membership slots of the type objects and their
      dispatchers. [Platform] holds the transcendental functions and complex numbers
      of the platform, [Formats] the slots of decimals, fractions and dates.
    - [State] and [StateThms] (state.rs, config.rs, security/): configuration, the
      deny lists, the interpreter state with its depth, memory, output and operation
      limits, variables with the cells inner functions share, builtin iterators.
    - [Exceptions] and [ExceptionsThms] (eval/exceptions.rs): [try], [except],
      [except*] and [finally] over an interface [Evaluator] for statements and
      expressions, which the tree walk implements.
    - [Op] (eval/op.rs; [Lines] is about it): the operator protocol, which tries the dunder
      methods of user classes before the builtin slots: truth, arithmetic, comparison
      (with [dataclass] orders and [total_ordering]), hashes and keys, subscripts,
      iteration, membership, in-place operators. [Calls] is the interface of method
      calls and generators.
    - [Methods], [MapMethods] and [SetMethods] (eval/functions/methods/,
      eval/functions/method_dispatch.rs): the method tables of lists, tuples, ranges,
      dictionaries, default and ordered dictionaries, chain maps, counters, sets and
      deques. A method returns the change of the receiver's size it reports; a second
      lock of a receiver that is held is [Panic]. [MethodsThms] and [MapMethodsThms]
      are about them. [Estimates] holds the byte estimates and the rendering of values.
    - [Text]: searching, splitting, replacing and trimming sequences of characters or
      bytes, classes of characters, UTF-8, UTF-16 and UTF-32. [StrMethods]
      (eval/functions/methods/str.rs) and [BytesMethods]
      (eval/functions/methods/bytes.rs): the method tables of texts, byte strings,
      byte arrays and memory views, with the codecs; the class [Unicode] holds the
      tables of the standard library. [StrThms] is about both.
    - [FloatText] (value.rs, eval/strings.rs): the shortest decimal of a
      float and its exact decimals. [Repr] (value.rs): [str] and [repr] of values outside
      the state. [Format] and [Percent] (eval/strings.rs): format specifications, percent
      formatting, templates. [Render] (eval/render.rs, eval/strings.rs): [str] and [repr]
      in the state, f-strings, [str.format]. [Shown] and [DecimalFormats] hold the texts of
      chrono and bigdecimal.
    - [Containers] (types.rs): length and the reading, writing and deleting of items for
      every builtin container. [Places] and [PlacesThms] (eval/place.rs): the steps of an
      assignment target, and the walk to its slot, which holds the lock of each container
      it passes: coming to a container again is [Panic]. [Attributes] (types.rs): the
      attributes of builtin values. [Targets] (eval/statements.rs, eval/place.rs,
      eval/delete.rs): assignment to attributes and items, augmented assignment
      and [del], which implement what [Host] asks for.
    - [Dataclasses] (eval/modules/dataclasses.rs): what [@dataclass] records in a class,
      the marker [field] makes, and the functions on instances. [Objects]
      (eval/classes.rs, eval/names.rs): calls of methods with their frames, the attribute
      protocol, [super()], and the construction of instances. [ClassDef]
      (eval/classes.rs): class statements with their decorators and hooks,
      [type(name, bases, dict)], and the theorems about the three: the constructor of a
      dataclass, and that each of their operations keeps the frame of the state. [Library]
      and [Builders] hold the calls of values, library modules and wrappers they use.
    - [Struct] and [StructThms] (eval/modules/struct_mod.rs): formats, layout, and the
      packing of values into bytes.
    - [Syntax]: the syntax trees of the parser crate, the evaluator's input.
    - [Names] (eval/functions/definitions.rs, eval/comprehensions.rs,
      eval/functions/generators.rs): the names a body binds, declares, reads and
      captures; yields; which generator bodies can be suspended, and the frame a call of
      one creates. [Unparse] (the same file): default
      arguments as source text. [Mangle] (mangle.rs, parser.rs): private names of
      classes. [ScopeThms] is about the three.
    - [Params] and [ParamsThms] (eval/functions/params.rs): defaults, and the binding of
      arguments to parameters.
    - [Host]: the class of components the walk hands nodes to, and the guards around
      every node (eval/mod.rs).
    - [Displays] and [DisplaysThms] (eval/comprehensions.rs, eval/literals.rs): set and
      dictionary displays, comprehensions, generator expressions.
    - [Definitions] (eval/functions/definitions.rs): the record of a function or lambda,
      its snapshot of the names in scope and its capture cells. [Functions]
      (eval/functions/dispatch.rs): calls - the scope of a frame, the fast path for
      bodies of one statement, the general path, coroutines, lambdas. [ClosureThms] and
      [CallsThms] are about them.
    - [Generators] and [GeneratorsThms] (eval/functions/generators.rs, the yield
      expressions of eval/mod.rs): the steppers of [for], [while], [if], [try] and
      [with], which run a statement to its next yield and record where it stopped, the
      iterator protocol over frames, delegation, and the close of unfinished
      generators at the end of a run.
    - [Eval] and [EvalThms] (eval/mod.rs, eval/operations.rs, eval/names.rs,
      eval/literals.rs): expressions, on the synchronous numeric fast path and on the
      general path. [Environment] holds the clock, the tool registry and the parser.
    - [Match] and [MatchThms] (eval/match_stmt.rs): patterns, captures and the choice
      of a case.
    - [Stmts] and [StmtsThms] (eval/mod.rs, eval/control_flow.rs, eval/statements.rs,
      eval/exceptions.rs): statements and their dispatcher. [Lines] is about the line
      numbers stamped on errors and about the operator protocol, [Frame] about what every
      evaluation restores, and [Samples] holds the concrete surroundings of the
      witnesses.
    - [Serialize] and [SerializeThms] (serialize.rs): checkpoints and the gate an
      imported blob has to pass.

    ** What the theorems show

    - Sets: every table operation keeps the table invariant and terminates; [|], [&],
      [-] and [^] compute the boolean combinations of memberships.
    - Keys: equal keys hash alike; counters and merged dictionaries answer lookups as
      specified. Key equality is not transitive at signed zeros and at 2^63.
    - Arithmetic: integer operators are exact at any width or refused with the
      documented error; floor division, shifts, powers and bit operations agree with
      the mathematical ones.
    - Classes: [build_mro] returns a consistent linearization exactly when one exists;
      handlers match exactly the ancestors of an exception.
    - Heaps and bisection: heap order, multiset and minimality; the partition point.
    - Slices: reading, assigning and deleting touch the same positions; ranges agree
      with their closed forms.
    - State: the limits are an invariant of every reachable state; depths are restored
      around calls; the operation budget is exact; variables and their cells.
    - Evaluation: every statement restores the frame of the state; the fuel of its
      nesting is enough, in that more changes nothing; an endless loop is stopped by a
      limit; the numeric fast path agrees with the general path; numbers stay canonical;
      a loop over a range visits its members; a line is stamped once and never seen by a
      handler; the four comparisons of a [total_ordering] class are those of its order.
    - Comparison: builtin values that fit a shape are totally ordered, and their
      comparisons do not fail while the overflow flag is down and the nesting is at most
      1000; a flag left up by an earlier comparison fails the next one (a lemma).
    - Classes and instances: the constructor of a dataclass binds each field to its
      argument or default, or raises a TypeError exactly when the arguments do not fit.
    - Containers: what [update], [move_to_end], [popitem], [most_common], [insert],
      [pop] and the operations of bounded deques and counters do to their receiver, and
      that the sizes they report are exact.
    - Texts: what a codec encodes it decodes; [split], [join], [replace] and [count] fit
      together; searches find the outermost occurrences; what [pack] writes [unpack]
      reads back.
    - Numbers as text: what is shown of a float, read back by an independent reader of
      float literals, is the shortest decimal that rounds to it, or the exact value of a
      whole float, in the form its size asks for.
    - Places: what is written through a place is read through it, and one shared
      container or the variable alone changes; a walk through a container inside itself
      never returns.
    - Scopes: each name of a frame resolves to its argument, cell, closure entry or
      live value, in that order; the cell of a captured name stays current through the
      steps of its frame (two steps that break it are lemmas); a call and a comprehension
      leave the caller's names; mangling is idempotent.
    - Calls: a call is accepted exactly when its arguments fit; each parameter gets its
      argument; the fast path agrees with the general one, up to the count of operations
      for a body it does not run; the frame of the state is kept. A list comprehension
      returns exactly what its nested loops, conditions and element produce, with all
      their effects.
    - Generators: no statement the evaluator could not resume reaches it from a body the
      gate admits, as far as the scan for yields sees them (a lemma shows what it misses);
      an ended generator stays ended; one that has not started runs
      nothing when it is closed. The lemmas about sample runs show what the records of
      loops get wrong.
    - Matching: the first case selected runs; sequence patterns divide their subject.
    - Exceptions: the first matching handler runs; [except*] re-raises what nobody
      matched; [finally] runs except in two cases, which are stated.
    - Checkpoints: what an accepted blob satisfies, what a refused one leaves behind,
      and the round trip.

    ** Bounds and fuel

    Loops that are not structural take fuel: set probing runs over the whole probe
    cycle (proved long enough while the table has a free slot), C3 merging as many
    rounds as there are names, sifting the length of the heap, bisection the length
    of the interval, slice walks the length of the sequence plus one. Each is proved
    enough for a result in the theorem about it. [value_eqb] takes fuel because
    comparing self-referential values does not return in the source.

    Expressions are evaluated by structural recursion. The fuel of a statement is its
    nesting of blocks ([stmt_height]); [while] counts down [max_while_iterations]; a
    loop over an iterator has one more round than [max_operations], since each round
    counts a statement; [drain_bound] bounds what is drawn from a generator at once
    and [nesting] the depth of compared values and keys: beyond them the model says
    [Panic], which the theorems about results exclude. The steppers of generators
    recurse to the nesting of the statement, which is proved enough; their loops take
    a bound on the passes, since the source sets none, and the protocol one on the
    depth of delegation.

    ** Not modelled

    Call expressions and the dispatch of callables other than functions and methods,
    imports and the async statements, which the walk hands to interfaces (as it does
    class statements and attributes, which [ClassDef] and [Objects] model); the builtin
    functions and the methods of numbers, library modules other than heapq, bisect,
    struct and dataclasses, tools and the session interface. The JSON codec and the parser are parameters where they are used.
    The byte estimate of a value is a parameter too: it depends on size caches in the
    containers, and no theorem depends on its value. Text is a sequence of code
    points; names and messages are byte strings. *)
From Stdlib Require Import ZArith Lia.
From stdpp Require Import base tactics list numbers option.

#[global] Open Scope Z_scope.
Set Default Proof Using "Type".

(** * Machine integers *)

(** The wrap-around of a [u64]/[usize] operation, and the reinterpretation
    of a bit pattern as a signed [i64]. *)
Definition wrap64 (z : Z) : Z := z mod 2 ^ 64.
Definition i64_min : Z := - 2 ^ 63.
Definition i64_max : Z := 2 ^ 63 - 1.
Definition swrap64 (z : Z) : Z := (z + 2 ^ 63) mod 2 ^ 64 - 2 ^ 63.
Definition in_i64 (z : Z) : bool := (i64_min <=? z) && (z <=? i64_max).

Lemma wrap64_bound z : 0 <= wrap64 z < 2 ^ 64.
Proof. apply Z.mod_pos_bound. lia. Qed.

Lemma wrap64_small z : 0 <= z < 2 ^ 64 -> wrap64 z = z.
Proof. apply Z.mod_small. Qed.

Lemma swrap64_bound z : i64_min <= swrap64 z <= i64_max.
Proof.
  unfold swrap64, i64_min, i64_max.
  pose proof (Z.mod_pos_bound (z + 2 ^ 63) (2 ^ 64)). lia.
Qed.

Lemma swrap64_id z : i64_min <= z <= i64_max -> swrap64 z = z.
Proof.
  unfold swrap64, i64_min, i64_max. intros H. rewrite Z.mod_small; lia.
Qed.

Lemma in_i64_spec z : in_i64 z = true <-> i64_min <= z <= i64_max.
Proof. unfold in_i64. rewrite andb_true_iff, !Z.leb_le. lia. Qed.

(** * Lists *)

Lemma FOP_perm {A} (R : A -> A -> Prop) (l l' : list A) :
  (forall x y, R x y -> R y x) -> l ≡ₚ l' -> ForallOrdPairs R l -> ForallOrdPairs R l'.
Proof.
  intros Hsym. induction 1 as [|x l l' Hp IH|x y l|l l' l'' ? IH1 ? IH2]; intros Hl.
  - done.
  - inversion_clear Hl. constructor; [|by apply IH]. by rewrite <- Hp.
  - inversion_clear Hl as [|? ? Hy Hl']. inversion_clear Hl' as [|? ? Hx Hl].
    apply Forall_cons_1 in Hy as [Hyx Hy].
    constructor; [constructor; auto|]. by constructor.
  - auto.
Qed.

Lemma existsb_perm {A} (f : A -> bool) (l l' : list A) :
  l ≡ₚ l' -> existsb f l = existsb f l'.
Proof.
  induction 1 as [|x l l' _ IH|x y l|l l' l'' _ IH1 _ IH2]; simpl.
  - done.
  - by rewrite IH.
  - by destruct (f x), (f y).
  - congruence.
Qed.

Lemma fold_left_pointwise {A B} (f g : A -> B -> A) (l : list B) (a : A) :
  (forall a b, f a b = g a b) -> fold_left f l a = fold_left g l a.
Proof. intros E. revert a. induction l as [|b l IH]; intros a; simpl; [done|]. by rewrite E, IH. Qed.

(** * Automation *)

(** Turn the boolean comparisons in a hypothesis into propositions. *)
Ltac reflect H :=
  repeat first
    [ rewrite Z.gtb_ltb in H | rewrite Z.geb_leb in H
    | rewrite negb_true_iff in H | rewrite negb_false_iff in H
    | rewrite Z.ltb_lt in H | rewrite Z.ltb_ge in H | rewrite Z.leb_le in H | rewrite Z.leb_gt in H
    | rewrite Z.eqb_eq in H | rewrite Z.eqb_neq in H
    | rewrite Nat.ltb_lt in H | rewrite Nat.ltb_ge in H | rewrite Nat.leb_le in H | rewrite Nat.leb_gt in H ].

Create HintDb machine.
Create Rewrite HintDb machine_rewrite.
#[export] Hint Resolve wrap64_bound swrap64_bound : machine.
#[export] Hint Rewrite wrap64_small swrap64_id using lia : machine_rewrite.
