(* ===== verification/PyHash.v ===== *)
(** CPython-compatible hashing (pyhash.rs): the integer, rational, bytes, tuple
    and frozenset algorithms on machine words. *)
From Stdlib Require Import ZArith Lia Permutation List.
From stdpp Require Import base tactics list numbers option.
From S2P Require Import Prelude.

Definition MODULUS : Z := 2 ^ 61 - 1.
Definition HASH_BITS : Z := 61.
Definition HASH_INF : Z := 314159.
Definition NONE_HASH : Z := 4238894112.

Definition XXPRIME_1 : Z := 11400714785074694791.
Definition XXPRIME_2 : Z := 14029467366897019727.
Definition XXPRIME_5 : Z := 2870177450012600261.

(** [if h == -1 { -2 } else { h }]. *)
Definition fold_minus_one (h : Z) : Z := if h =? -1 then -2 else h.

(** [x.rotate_left(31)] on a [u64]. *)
Definition xxrotate (x : Z) : Z :=
  Z.lor (wrap64 (Z.shiftl x 31)) (Z.shiftr x 33).

(** [abs % MODULUS] with the sign carried back, [-1] folded to [-2]. *)
Definition hash_i64 (n : Z) : Z :=
  let x := Z.abs n mod MODULUS in
  fold_minus_one (if n <? 0 then - x else x).

(** The same on arbitrary-precision integers: [magnitude % MODULUS], first digit. *)
Definition hash_bigint (n : Z) : Z :=
  let rem := Z.abs n mod MODULUS in
  let x := swrap64 (wrap64 rem) in
  fold_minus_one (if n <? 0 then - x else x).

Section Bytes.
(** SipHash-1-3 with a zero key over a byte buffer (crate [siphasher]). *)
Variable siphash13 : list Z -> Z.

Definition hash_bytes (buf : list Z) : Z :=
  match buf with
  | [] => 0
  | _ => fold_minus_one (swrap64 (siphash13 buf))
  end.
End Bytes.

(** The code points of a string; [c as u8], [to_le_bytes] of [u16] and [u32]. *)
Definition le_bytes (n : nat) (c : Z) : list Z :=
  (fun i => Z.land (Z.shiftr c (8 * Z.of_nat i)) 255) <$> seq 0 n.

Definition max_code_point (s : list Z) : Z := fold_right Z.max 0 s.

Definition str_hash_buffer (s : list Z) : list Z :=
  let max := max_code_point s in
  if max <? 256 then s
  else if max <? 65536 then concat (le_bytes 2 <$> s)
  else concat (le_bytes 4 <$> s).

Fixpoint hash_tuple_acc (acc : Z) (lanes : list Z) : Z :=
  match lanes with
  | [] => acc
  | lane :: lanes' =>
      let acc := wrap64 (acc + wrap64 (wrap64 lane * XXPRIME_2)) in
      let acc := xxrotate acc in
      hash_tuple_acc (wrap64 (acc * XXPRIME_1)) lanes'
  end.

Definition hash_tuple (element_hashes : list Z) : Z :=
  let acc := hash_tuple_acc XXPRIME_5 element_hashes in
  let acc := wrap64 (acc + Z.lxor (Z.of_nat (length element_hashes))
                                  (Z.lxor XXPRIME_5 3527539)) in
  let h := swrap64 acc in
  if h =? -1 then 1546275796 else h.

Definition shuffle_bits (h : Z) : Z :=
  wrap64 (Z.lxor (Z.lxor h 89869747) (wrap64 (Z.shiftl h 16)) * 3644798167).

Definition frozenset_fold (element_hashes : list Z) : Z :=
  fold_left (fun hash h => Z.lxor hash (shuffle_bits (wrap64 h))) element_hashes 0.

Definition hash_frozenset (element_hashes : list Z) : Z :=
  let hash := frozenset_fold element_hashes in
  let hash := Z.lxor hash
    (wrap64 (wrap64 (Z.of_nat (length element_hashes) + 1) * 1927868237)) in
  let hash := Z.lxor hash (Z.lxor (Z.shiftr hash 11) (Z.shiftr hash 25)) in
  let hash := wrap64 (wrap64 (hash * 69069) + 907133923) in
  if hash =? 2 ^ 64 - 1 then 590923713 else swrap64 hash.

(** [hash(timedelta)]: the tuple hash of the normalised components. *)
Definition timedelta_hash (micros : Z) : Z :=
  let secs_total := micros / 1000000 in
  let us := micros mod 1000000 in
  let days := secs_total / 86400 in
  let seconds := secs_total mod 86400 in
  hash_tuple [hash_i64 days; hash_i64 seconds; hash_i64 us].

(** ** Facts *)

Lemma hash_i64_bound n : - 2 ^ 61 < hash_i64 n < 2 ^ 61 - 1.
Proof.
  unfold hash_i64, fold_minus_one.
  pose proof (Z.mod_pos_bound (Z.abs n) MODULUS ltac:(by cbv)) as Hb.
  unfold MODULUS in *. destruct (n <? 0); case_match; lia.
Qed.

Lemma hash_i64_not_minus_one n : hash_i64 n <> -1.
Proof. unfold hash_i64, fold_minus_one. case_match; lia. Qed.

Lemma hash_bigint_i64 n : hash_bigint n = hash_i64 n.
Proof.
  unfold hash_bigint, hash_i64.
  pose proof (Z.mod_pos_bound (Z.abs n) MODULUS ltac:(by cbv)) as Hb.
  unfold MODULUS in *.
  by rewrite wrap64_small, swrap64_id by (unfold i64_min, i64_max; lia).
Qed.

Lemma frozenset_fold_perm hs hs' : hs ≡ₚ hs' -> frozenset_fold hs = frozenset_fold hs'.
Proof.
  intros Hp. unfold frozenset_fold. generalize 0 as acc.
  induction Hp as [|x l l' _ IH|x y l|l l' l'' _ IH1 _ IH2]; intros acc; simpl.
  - done.
  - apply IH.
  - f_equal. rewrite !Z.lxor_assoc. f_equal. apply Z.lxor_comm.
  - by rewrite IH1.
Qed.

Lemma hash_frozenset_perm hs hs' : hs ≡ₚ hs' -> hash_frozenset hs = hash_frozenset hs'.
Proof.
  intros Hp. unfold hash_frozenset.
  by rewrite (frozenset_fold_perm _ _ Hp), (Permutation_length Hp).
Qed.
