(* ===== verification/PySet.v ===== *)
(** CPython's open-addressing set table (pyset.rs). *)
From Stdlib Require Import ZArith Lia.
From stdpp Require Import base tactics list numbers option.
From S2P Require Import Prelude.

Definition MINSIZE : Z := 8.
Definition LINEAR_PROBES : nat := 9.
Definition PERTURB_SHIFT : Z := 5.

(** One cell of the table. *)
Inductive Slot (V : Type) : Type :=
| Empty
| Dummy
| Active (value : V) (hash : Z).
Arguments Empty {V}.
Arguments Dummy {V}.
Arguments Active {V} value hash.

Definition is_empty_slot {V} (s : Slot V) : bool :=
  match s with Empty => true | _ => false end.

(** The table: [slots], [mask = len - 1], [fill = active + dummy], [used = active]. *)
Record SetTable (V : Type) : Type := mkTable {
  slots : list (Slot V);
  mask : Z;
  fill : Z;
  used : Z
}.
Arguments mkTable {V} slots mask fill used.
Arguments slots {V} s.
Arguments mask {V} s.
Arguments fill {V} s.
Arguments used {V} s.

(** What the set code needs of its elements: the structural equality and the
    hash, [None] for an element whose hash is not reproducible. *)
Class SetElem (V : Type) := {
  elem_eq : V -> V -> bool;
  elem_hash : V -> option Z
}.

(** ** Probe sequence arithmetic *)

(** [(hash as u64 as usize) & mask] and the perturbed step
    [i.wrapping_mul(5).wrapping_add(1).wrapping_add(perturb) & mask]. *)
Definition first_index (hash mask : Z) : Z := Z.land (wrap64 hash) mask.
Definition next_index (i perturb mask : Z) : Z :=
  Z.land (wrap64 (wrap64 (wrap64 (i * 5) + 1) + perturb)) mask.
Definition line_probes (i mask : Z) : nat :=
  if i + Z.of_nat LINEAR_PROBES <=? mask then LINEAR_PROBES else 0%nat.

Section Table.
Context {V : Type} `{SetElem V}.

Definition with_capacity (size : Z) : SetTable V :=
  mkTable (replicate (Z.to_nat size) Empty) (size - 1) 0 0.

Definition len (t : SetTable V) : Z := used t.
Definition is_empty (t : SetTable V) : bool := used t =? 0.

Definition slot_active (s : Slot V) : option (V * Z) :=
  match s with Active v h => Some (v, h) | _ => None end.

Definition actives_of (sl : list (Slot V)) : list (V * Z) := omap slot_active sl.

(** [actives]: the active [(value, hash)] pairs in slot order. *)
Definition actives (t : SetTable V) : list (V * Z) := actives_of (slots t).

Definition iter_ordered (t : SetTable V) : list V := (actives t).*1.

(** The inner [for] of [insert_clean]: the next [n] cells after [entry]. *)
Fixpoint clean_line (n : nat) (sl : list (Slot V)) (entry : nat) : option (option nat) :=
  match n with
  | O => Some None
  | S n' =>
      let entry := S entry in
      s ← sl !! entry;
      if is_empty_slot s then Some (Some entry) else clean_line n' sl entry
  end.

(** The [loop] of [insert_clean]; [None] is an out-of-range index or the
    fuel running out. *)
Fixpoint clean_loop (fuel : nat) (sl : list (Slot V)) (mask perturb i : Z) : option nat :=
  match fuel with
  | O => None
  | S fuel' =>
      s ← sl !! Z.to_nat i;
      if is_empty_slot s then Some (Z.to_nat i) else
      r ← (if i + Z.of_nat LINEAR_PROBES <=? mask
           then clean_line LINEAR_PROBES sl (Z.to_nat i) else Some None);
      match r with
      | Some entry => Some entry
      | None =>
          let perturb := Z.shiftr perturb PERTURB_SHIFT in
          clean_loop fuel' sl mask perturb (next_index i perturb mask)
      end
  end.

(** Enough fuel for any probe loop: thirteen shifts exhaust [perturb], and
    the remaining walk has the period of the table. *)
Definition probe_fuel (mask : Z) : nat := 13 + Z.to_nat (mask + 1).

Definition insert_clean_slots (mask : Z) (sl : list (Slot V)) (v : V) (hash : Z) :
    option (list (Slot V)) :=
  j ← clean_loop (probe_fuel mask) sl mask (wrap64 hash) (first_index hash mask);
  Some (<[j := Active v hash]> sl).

Definition insert_clean (t : SetTable V) (v : V) (hash : Z) : option (SetTable V) :=
  sl ← insert_clean_slots (mask t) (slots t) v hash;
  Some (mkTable sl (mask t) (fill t) (used t)).

(** How a probe chain ends: at an empty cell (with the last dummy seen), at
    an equal element, or nowhere yet. *)
Inductive chain_end : Type :=
| HitEmpty (entry : nat) (freeslot : option nat)
| HitEqual (entry : nat)
| NoHit (freeslot : option nat).

(** The inner loop shared by [add], [contains] and [discard]: it looks at
    [entry] and at the [p] cells after it. *)
Fixpoint probe_line (p : nat) (sl : list (Slot V)) (v : V) (hash : Z)
    (entry : nat) (freeslot : option nat) : option chain_end :=
  s ← sl !! entry;
  match s with
  | Empty => Some (HitEmpty entry freeslot)
  | Active ev eh =>
      if (eh =? hash) && elem_eq ev v then Some (HitEqual entry)
      else match p with
           | O => Some (NoHit freeslot)
           | S p' => probe_line p' sl v hash (S entry) freeslot
           end
  | Dummy =>
      match p with
      | O => Some (NoHit (Some entry))
      | S p' => probe_line p' sl v hash (S entry) (Some entry)
      end
  end.

Fixpoint probe_loop (fuel : nat) (sl : list (Slot V)) (mask : Z) (v : V) (hash : Z)
    (perturb i : Z) (freeslot : option nat) : option chain_end :=
  match fuel with
  | O => None
  | S fuel' =>
      r ← probe_line (line_probes i mask) sl v hash (Z.to_nat i) freeslot;
      match r with
      | NoHit freeslot =>
          let perturb := Z.shiftr perturb PERTURB_SHIFT in
          probe_loop fuel' sl mask v hash perturb (next_index i perturb mask) freeslot
      | r => Some r
      end
  end.

Definition probe (t : SetTable V) (v : V) (hash : Z) : option chain_end :=
  probe_loop (probe_fuel (mask t)) (slots t) (mask t) v hash
    (wrap64 hash) (first_index hash (mask t)) None.

Definition contains (t : SetTable V) (v : V) (hash : Z) : option bool :=
  r ← probe t v hash;
  match r with
  | HitEmpty _ _ => Some false
  | HitEqual _ => Some true
  | NoHit _ => None
  end.

Definition discard (t : SetTable V) (v : V) (hash : Z) : option (bool * SetTable V) :=
  r ← probe t v hash;
  match r with
  | HitEmpty _ _ => Some (false, t)
  | HitEqual entry =>
      Some (true, mkTable (<[entry := Dummy]> (slots t)) (mask t) (fill t) (used t - 1))
  | NoHit _ => None
  end.

(** [newsize = MINSIZE; while newsize <= minused { newsize <<= 1 }]. *)
Fixpoint grow (fuel : nat) (newsize minused : Z) : option Z :=
  match fuel with
  | O => None
  | S fuel' =>
      if newsize <=? minused then grow fuel' (Z.shiftl newsize 1) minused else Some newsize
  end.

Definition grow_fuel (minused : Z) : nat := S (Z.to_nat (Z.log2 (minused + 1))).

Fixpoint insert_clean_all (mask : Z) (sl : list (Slot V)) (xs : list (V * Z)) :
    option (list (Slot V)) :=
  match xs with
  | [] => Some sl
  | (v, h) :: xs' => sl' ← insert_clean_slots mask sl v h; insert_clean_all mask sl' xs'
  end.

Definition resize (t : SetTable V) (minused : Z) : option (SetTable V) :=
  newsize ← grow (grow_fuel minused) MINSIZE minused;
  let acts := actives t in
  let n := Z.of_nat (length acts) in
  sl ← insert_clean_all (newsize - 1) (replicate (Z.to_nat newsize) Empty) acts;
  Some (mkTable sl (newsize - 1) n n).

Definition minused_of (used : Z) : Z := if used >? 50000 then used * 2 else used * 4.

Definition maybe_resize (t : SetTable V) : option (SetTable V) :=
  if fill t * 5 <? mask t * 3 then Some t else resize t (minused_of (used t)).

Definition add (t : SetTable V) (v : V) (hash : Z) : option (SetTable V) :=
  r ← probe t v hash;
  match r with
  | HitEmpty entry (Some fs) =>
      Some (mkTable (<[fs := Active v hash]> (slots t)) (mask t) (fill t) (used t + 1))
  | HitEmpty entry None =>
      maybe_resize
        (mkTable (<[entry := Active v hash]> (slots t)) (mask t) (fill t + 1) (used t + 1))
  | HitEqual _ => Some t
  | NoHit _ => None
  end.

Fixpoint add_all (t : SetTable V) (xs : list (V * Z)) : option (SetTable V) :=
  match xs with
  | [] => Some t
  | (v, h) :: xs' => t' ← add t v h; add_all t' xs'
  end.

(** The fast path of [merge]: copy the active cells to the same indices. *)
Fixpoint copy_active_slots (i : nat) (src dst : list (Slot V)) : list (Slot V) :=
  match src with
  | [] => dst
  | s :: src' =>
      copy_active_slots (S i) src'
        (match s with Active v h => <[i := Active v h]> dst | _ => dst end)
  end.

Definition merge (t other : SetTable V) : option (SetTable V) :=
  t ← (if mask t * 3 <=? (fill t + used other) * 5
       then resize t ((used t + used other) * 2) else Some t);
  if (fill t =? 0) && (mask t =? mask other) && (fill other =? used other) then
    Some (mkTable (copy_active_slots 0 (slots other) (slots t))
                  (mask t) (fill other) (used other))
  else if fill t =? 0 then
    sl ← insert_clean_all (mask t) (slots t) (actives other);
    Some (mkTable sl (mask t) (used other) (used other))
  else add_all t (actives other).

Definition compact_if_sparse (t : SetTable V) : option (SetTable V) :=
  if fill t - used t >? mask t / 4 then resize t (minused_of (used t)) else Some t.

(** [pop_first]: the first active cell becomes a dummy. *)
Fixpoint pop_slot (sl : list (Slot V)) : option (V * list (Slot V)) :=
  match sl with
  | [] => None
  | Active v _ :: sl' => Some (v, Dummy :: sl')
  | s :: sl' => '(v, sl'') ← pop_slot sl'; Some (v, s :: sl'')
  end.

Definition table_pop_first (t : SetTable V) : option V * SetTable V :=
  match pop_slot (slots t) with
  | Some (v, sl) => (Some v, mkTable sl (mask t) (fill t) (used t - 1))
  | None => (None, t)
  end.

(** ** Free functions over tables *)

(** [None]: some element has no reproducible hash. *)
Fixpoint hash_all (items : list V) : option (list (V * Z)) :=
  match items with
  | [] => Some []
  | v :: items' => h ← elem_hash v; r ← hash_all items'; Some ((v, h) :: r)
  end.

Definition table_of_pairs (xs : list (V * Z)) : option (SetTable V) :=
  add_all (with_capacity MINSIZE) xs.

(** [Some None] is the caller's fallback; the outer option is the fuel. *)
Definition table_from_incremental (items : list V) : option (option (SetTable V)) :=
  match hash_all items with
  | None => Some None
  | Some xs => t ← table_of_pairs xs; Some (Some t)
  end.

Definition copy (a : SetTable V) : option (SetTable V) := merge (with_capacity MINSIZE) a.

Definition union (a b : SetTable V) : option (SetTable V) := r ← copy a; merge r b.

(** [for (value, hash) in src { if b.contains(value) == keep { r.add(value) } }]. *)
Fixpoint filter_into (keep : bool) (b r : SetTable V) (xs : list (V * Z)) :
    option (SetTable V) :=
  match xs with
  | [] => Some r
  | (v, h) :: xs' =>
      c ← contains b v h;
      if eqb c keep then r' ← add r v h; filter_into keep b r' xs'
      else filter_into keep b r xs'
  end.

Definition intersection (a b : SetTable V) : option (SetTable V) :=
  let '(small, large) := if used b <=? used a then (b, a) else (a, b) in
  filter_into true large (with_capacity MINSIZE) (actives small).

Fixpoint discard_all (t : SetTable V) (xs : list (V * Z)) : option (SetTable V) :=
  match xs with
  | [] => Some t
  | (v, h) :: xs' => '(_, t') ← discard t v h; discard_all t' xs'
  end.

Definition difference_update (a b : SetTable V) : option (SetTable V) :=
  a' ← discard_all a (actives b); compact_if_sparse a'.

Definition difference (a b : SetTable V) : option (SetTable V) :=
  if used b <? Z.shiftr (used a) 2 then r ← copy a; difference_update r b
  else filter_into false b (with_capacity MINSIZE) (actives a).

Fixpoint toggle_all (r : SetTable V) (xs : list (V * Z)) : option (SetTable V) :=
  match xs with
  | [] => Some r
  | (v, h) :: xs' =>
      '(removed, r') ← discard r v h;
      r'' ← (if removed : bool then Some r' else add r' v h);
      toggle_all r'' xs'
  end.

Definition symmetric_difference (a b : SetTable V) : option (SetTable V) :=
  r ← copy b; toggle_all r (actives a).

Definition constant_literal_table (items : list V) : option (option (SetTable V)) :=
  fs1 ← table_from_incremental items;
  match fs1 with
  | None => Some None
  | Some fs1 =>
      konst ← table_from_incremental (iter_ordered fs1);
      match konst with
      | None => Some None
      | Some konst => t ← copy konst; Some (Some t)
      end
  end.
End Table.

(** ** The element store of a set value *)

Inductive SetBody (V : Type) : Type :=
| Table (t : SetTable V)
| Fallback (items : list V).
Arguments Table {V} t.
Arguments Fallback {V} items.

Section Body.
Context {V : Type} `{SetElem V}.

Definition body_empty : SetBody V := Table (with_capacity MINSIZE).

Definition from_items (items : list V) : option (SetBody V) :=
  r ← table_from_incremental items;
  Some (match r with Some t => Table t | None => Fallback items end).

Definition from_constant_literal (items : list V) : option (SetBody V) :=
  r ← constant_literal_table items;
  Some (match r with Some t => Table t | None => Fallback items end).

Definition any_eq (items : list V) (v : V) : bool := existsb (fun x => elem_eq x v) items.

Definition body_contains (b : SetBody V) (v : V) : option bool :=
  match b with
  | Table t => match elem_hash v with Some h => contains t v h | None => Some false end
  | Fallback items => Some (any_eq items v)
  end.

Definition body_iter_ordered (b : SetBody V) : list V :=
  match b with Table t => iter_ordered t | Fallback items => items end.

Definition body_len (b : SetBody V) : Z :=
  match b with Table t => len t | Fallback items => Z.of_nat (length items) end.

Definition add_value (b : SetBody V) (v : V) : option (bool * SetBody V) :=
  match b with
  | Table t =>
      match elem_hash v with
      | Some h => t' ← add t v h; Some (used t <? used t', Table t')
      | None =>
          let items := iter_ordered t in
          if any_eq items v then Some (false, b)
          else Some (true, Fallback (items ++ [v]))
      end
  | Fallback items =>
      if any_eq items v then Some (false, b) else Some (true, Fallback (items ++ [v]))
  end.

(** [if let Some(i) = position(..) { v.remove(i) }]. *)
Fixpoint remove_first (items : list V) (v : V) : option (list V) :=
  match items with
  | [] => None
  | x :: items' => if elem_eq x v then Some items' else cons x <$> remove_first items' v
  end.

Definition discard_value (b : SetBody V) (v : V) : option (bool * SetBody V) :=
  match b with
  | Table t =>
      match elem_hash v with
      | Some h => '(r, t') ← discard t v h; Some (r, Table t')
      | None => Some (false, b)
      end
  | Fallback items =>
      match remove_first items v with
      | Some items' => Some (true, Fallback items')
      | None => Some (false, b)
      end
  end.

Definition body_pop_first (b : SetBody V) : option V * SetBody V :=
  match b with
  | Table t => let '(v, t') := table_pop_first t in (v, Table t')
  | Fallback [] => (None, b)
  | Fallback (v :: items) => (Some v, Fallback items)
  end.

Definition body_clear (b : SetBody V) : SetBody V := body_empty.

Definition copied (b : SetBody V) : option (SetBody V) :=
  match b with
  | Table t => t' ← copy t; Some (Table t')
  | Fallback items => Some (Fallback items)
  end.

Definition body_compact_if_sparse (b : SetBody V) : option (SetBody V) :=
  match b with
  | Table t => t' ← compact_if_sparse t; Some (Table t')
  | Fallback items => Some b
  end.

Fixpoint add_values (b : SetBody V) (xs : list V) : option (SetBody V) :=
  match xs with
  | [] => Some b
  | v :: xs' => '(_, b') ← add_value b v; add_values b' xs'
  end.

Fixpoint discard_values (b : SetBody V) (xs : list V) : option (SetBody V) :=
  match xs with
  | [] => Some b
  | v :: xs' => '(_, b') ← discard_value b v; discard_values b' xs'
  end.

Definition merge_from (b other : SetBody V) : option (SetBody V) :=
  match b, other with
  | Table a, Table o => t ← merge a o; Some (Table t)
  | _, _ => add_values b (body_iter_ordered other)
  end.

Definition difference_from (b other : SetBody V) : option (SetBody V) :=
  match b, other with
  | Table a, Table o => t ← difference_update a o; Some (Table t)
  | _, _ => b' ← discard_values b (body_iter_ordered other); body_compact_if_sparse b'
  end.

Definition union_with (b other : SetBody V) : option (SetBody V) :=
  match b, other with
  | Table a, Table o => t ← union a o; Some (Table t)
  | _, _ => r ← copied b; merge_from r other
  end.

Fixpoint keep_values (large r : SetBody V) (xs : list V) : option (SetBody V) :=
  match xs with
  | [] => Some r
  | v :: xs' =>
      c ← body_contains large v;
      if c : bool then '(_, r') ← add_value r v; keep_values large r' xs'
      else keep_values large r xs'
  end.

Definition intersection_with (b other : SetBody V) : option (SetBody V) :=
  match b, other with
  | Table a, Table o => t ← intersection a o; Some (Table t)
  | _, _ =>
      let '(small, large) :=
        if body_len other <=? body_len b then (other, b) else (b, other) in
      keep_values large body_empty (body_iter_ordered small)
  end.

Definition difference_with (b other : SetBody V) : option (SetBody V) :=
  match b, other with
  | Table a, Table o => t ← difference a o; Some (Table t)
  | _, _ => r ← copied b; difference_from r other
  end.

Fixpoint toggle_values (r : SetBody V) (xs : list V) : option (SetBody V) :=
  match xs with
  | [] => Some r
  | v :: xs' =>
      '(removed, r') ← discard_value r v;
      r'' ← (if removed : bool then Some r' else '(_, r2) ← add_value r' v; Some r2);
      toggle_values r'' xs'
  end.

Definition symmetric_difference_with (b other : SetBody V) : option (SetBody V) :=
  match b, other with
  | Table a, Table o => t ← symmetric_difference a o; Some (Table t)
  | _, _ => r ← copied other; toggle_values r (body_iter_ordered b)
  end.
End Body.
