(* ===== verification/Probe.v ===== *)
(** Probe sequences of the set table: the list of cells a hash visits, and the
    fact that the walk of [pyset.rs] visits every cell. *)
From Stdlib Require Import ZArith Lia.
From stdpp Require Import base tactics list numbers option.
From S2P Require Import Prelude PySet.

(** ** The walk is a full-period congruential generator *)

(** [n] steps of [i -> 5 * i + 1] without reduction. *)
Fixpoint walk (n : nat) (i : Z) : Z :=
  match n with O => i | S n' => walk n' (5 * i + 1) end.

Lemma walk_add n m i : walk (n + m) i = walk m (walk n i).
Proof. revert i. induction n as [|n IH]; intros i; simpl; auto. Qed.

Lemma walk_affine n i : walk n i = 5 ^ Z.of_nat n * i + walk n 0.
Proof.
  revert i. induction n as [|n IH]; intros i; [cbn [walk]; change (Z.of_nat 0) with 0; rewrite Z.pow_0_r; ring|].
  cbn [walk]. rewrite (IH (5 * i + 1)), (IH (5 * 0 + 1)).
  rewrite Nat2Z.inj_succ, Z.pow_succ_r by lia. ring.
Qed.

Lemma walk_mod n i m : 0 < m -> (walk n (i mod m)) mod m = (walk n i) mod m.
Proof.
  intros Hm. rewrite (walk_affine n (i mod m)), (walk_affine n i).
  rewrite <- (Z.add_mod_idemp_l (_ * (i mod m))), Z.mul_mod_idemp_r by lia.
  now rewrite Z.add_mod_idemp_l by lia.
Qed.

Lemma pow5_pow2 k :
  exists a, 5 ^ Z.of_nat (2 ^ k) = 1 + 2 ^ (Z.of_nat k + 2) * a.
Proof.
  induction k as [|k [a IH]]; [exists 1; reflexivity|].
  exists (a + 2 ^ (Z.of_nat k + 1) * a * a).
  replace (2 ^ S k)%nat with (2 ^ k + 2 ^ k)%nat by (simpl; lia).
  rewrite Nat2Z.inj_add, Z.pow_add_r, IH by lia.
  replace (Z.of_nat (S k) + 2) with (Z.of_nat k + 1 + 2) by lia.
  rewrite !Z.pow_add_r by lia. ring.
Qed.

(** Twice-powers of steps move by an odd multiple of the power. *)
Lemma walk_pow2 k :
  exists b, walk (2 ^ k) 0 = 2 ^ Z.of_nat k * (1 + 2 * b).
Proof.
  induction k as [|k [b IH]]; [exists 0; reflexivity|].
  destruct (pow5_pow2 k) as [a Ha].
  exists (b + 2 ^ Z.of_nat k * a * (1 + 2 * b)).
  replace (2 ^ S k)%nat with (2 ^ k + 2 ^ k)%nat by (simpl; lia).
  rewrite walk_add, (walk_affine _ (walk (2 ^ k) 0)), Ha, IH.
  replace (Z.of_nat (S k)) with (Z.of_nat k + 1) by lia.
  rewrite !Z.pow_add_r by lia. ring.
Qed.

Lemma walk_half_period k i :
  exists c, walk (2 ^ k) i = i + 2 ^ Z.of_nat k * (1 + 2 * c).
Proof.
  destruct (pow5_pow2 k) as [a Ha], (walk_pow2 k) as [b Hb].
  exists (b + 2 * a * i). rewrite walk_affine, Ha, Hb.
  rewrite Z.pow_add_r by lia. ring.
Qed.

(** Every residue modulo [2 ^ k] is reached within [2 ^ k] steps. *)
Lemma walk_full_period k i y :
  exists n, (n < 2 ^ k)%nat /\ (walk n i) mod 2 ^ Z.of_nat k = y mod 2 ^ Z.of_nat k.
Proof.
  revert i y. induction k as [|k IH]; intros i y.
  { exists 0%nat. split; [simpl; lia|]. cbn. now rewrite !Z.mod_1_r. }
  destruct (IH i y) as (n & Hn & Hmod).
  set (P := 2 ^ Z.of_nat k) in *.
  assert (HP : 0 < P) by (subst P; apply Z.pow_pos_nonneg; lia).
  assert (HS : 2 ^ Z.of_nat (S k) = 2 * P).
  { subst P. rewrite Nat2Z.inj_succ, Z.pow_succ_r by lia. ring. }
  rewrite HS.
  assert (exists d, walk n i = y + P * d) as [d Hd].
  { exists (walk n i / P - y / P).
    pose proof (Z.div_mod (walk n i) P ltac:(lia)).
    pose proof (Z.div_mod y P ltac:(lia)). lia. }
  destruct (Z.Even_or_Odd d) as [[e He]|[e He]].
  - exists n. split; [simpl; lia|].
    rewrite Hd, He. replace (y + P * (2 * e)) with (y + e * (2 * P)) by ring.
    apply Z_mod_plus_full.
  - destruct (walk_half_period k (walk n i)) as [c Hc].
    exists (n + 2 ^ k)%nat. split; [simpl; lia|].
    rewrite walk_add, Hc, Hd, He. fold P.
    replace (y + P * (2 * e + 1) + P * (1 + 2 * c))
      with (y + (e + c + 1) * (2 * P)) by ring.
    apply Z_mod_plus_full.
Qed.

(** ** Table indices *)

Lemma land_mask x k : 0 <= k -> Z.land x (2 ^ k - 1) = x mod 2 ^ k.
Proof. intros Hk. rewrite <- Z.land_ones, Z.ones_equiv by lia. f_equal. Qed.

Lemma mod_wrap64 x k : 0 <= k <= 64 -> (wrap64 x) mod 2 ^ k = x mod 2 ^ k.
Proof.
  intros Hk. unfold wrap64.
  replace (2 ^ 64) with (2 ^ k * 2 ^ (64 - k)) by (rewrite <- Z.pow_add_r by lia; f_equal; lia).
  assert (0 < 2 ^ k) by (apply Z.pow_pos_nonneg; lia).
  assert (0 < 2 ^ (64 - k)) by (apply Z.pow_pos_nonneg; lia).
  rewrite Z.rem_mul_r by lia.
  rewrite Z.mul_comm, Z_mod_plus_full. apply Z.mod_mod. lia.
Qed.

Lemma next_index_mod i p k :
  0 <= k <= 64 -> next_index i p (2 ^ k - 1) = (5 * i + 1 + p) mod 2 ^ k.
Proof.
  intros Hk. unfold next_index. rewrite land_mask, mod_wrap64 by lia.
  assert (0 < 2 ^ k) by (apply Z.pow_pos_nonneg; lia).
  rewrite Z.add_mod, (mod_wrap64 (_ + 1)), (Z.add_mod (wrap64 _) 1), (mod_wrap64 (i * 5)) by lia.
  rewrite <- (Z.add_mod (i * 5) 1), <- Z.add_mod by lia. f_equal. ring.
Qed.

Lemma first_index_bound h k : 0 <= k -> 0 <= first_index h (2 ^ k - 1) < 2 ^ k.
Proof.
  intros Hk. unfold first_index. rewrite land_mask by lia.
  apply Z.mod_pos_bound, Z.pow_pos_nonneg; lia.
Qed.

Lemma next_index_bound i p k : 0 <= k -> 0 <= next_index i p (2 ^ k - 1) < 2 ^ k.
Proof.
  intros Hk. unfold next_index. rewrite land_mask by lia.
  apply Z.mod_pos_bound, Z.pow_pos_nonneg; lia.
Qed.

(** ** The cells of a probe loop *)

Definition line (i mask : Z) : list nat := seq (Z.to_nat i) (S (line_probes i mask)).

Fixpoint chain (fuel : nat) (mask perturb i : Z) : list nat :=
  match fuel with
  | O => []
  | S fuel' =>
      let perturb' := Z.shiftr perturb PERTURB_SHIFT in
      line i mask ++ chain fuel' mask perturb' (next_index i perturb' mask)
  end.

Definition hash_chain (fuel : nat) (mask h : Z) : list nat :=
  chain fuel mask (wrap64 h) (first_index h mask).

Lemma chain_prefix n m mask p i :
  exists l, chain (n + m) mask p i = chain n mask p i ++ l.
Proof.
  revert p i. induction n as [|n IH]; intros p i; [eexists; reflexivity|].
  cbn [Nat.add chain]. edestruct IH as [l Hl].
  exists l. rewrite Hl. now rewrite <- app_assoc.
Qed.

Lemma line_bound i k :
  0 <= k -> 0 <= i < 2 ^ k ->
  Forall (fun e => Z.of_nat e < 2 ^ k) (line i (2 ^ k - 1)).
Proof.
  intros Hk Hi. apply Forall_forall. intros e He.
  unfold line in He. apply in_seq in He. unfold line_probes in He.
  destruct (Z.leb_spec (i + Z.of_nat LINEAR_PROBES) (2 ^ k - 1));
    unfold LINEAR_PROBES in *; lia.
Qed.

Lemma chain_bound fuel k p i :
  0 <= k -> 0 <= i < 2 ^ k ->
  Forall (fun e => Z.of_nat e < 2 ^ k) (chain fuel (2 ^ k - 1) p i).
Proof.
  intros Hk. revert p i. induction fuel as [|fuel IH]; intros p i Hi; [constructor|].
  cbn [chain]. apply Forall_app. split; [now apply line_bound|].
  apply IH, next_index_bound. lia.
Qed.

(** Once the perturbation is exhausted the walk is the generator above. *)
Lemma chain_walk k i n :
  0 <= k <= 64 -> 0 <= i < 2 ^ k ->
  In (Z.to_nat ((walk n i) mod 2 ^ k)) (chain (S n) (2 ^ k - 1) 0 i).
Proof.
  intros Hk. assert (0 < 2 ^ k) by (apply Z.pow_pos_nonneg; lia).
  revert i. induction n as [|n IH]; intros i Hi.
  - cbn [walk chain]. rewrite Z.mod_small by lia.
    apply in_or_app. left. unfold line. simpl. now left.
  - cbn [walk]. change (chain (S (S n)) ?m 0 i) with
      (line i m ++ chain (S n) m 0 (next_index i 0 m)).
    apply in_or_app. right.
    specialize (IH (next_index i 0 (2 ^ k - 1))).
    rewrite next_index_mod, Z.add_0_r in IH by lia.
    rewrite next_index_mod, Z.add_0_r by lia.
    rewrite walk_mod in IH by lia.
    apply IH. apply Z.mod_pos_bound. lia.
Qed.

Lemma chain_split n m mask p i :
  exists p' i', chain (n + m) mask p i = chain n mask p i ++ chain m mask p' i' /\
    p' = Z.shiftr p (PERTURB_SHIFT * Z.of_nat n) /\
    (n <> 0%nat -> exists j q, i' = next_index j q mask) /\ (n = 0%nat -> i' = i).
Proof.
  revert p i. induction n as [|n IH]; intros p i.
  - exists p, i. cbn. rewrite Z.shiftr_0_r. repeat split; done.
  - cbn [Nat.add chain].
    destruct (IH (Z.shiftr p PERTURB_SHIFT) (next_index i (Z.shiftr p PERTURB_SHIFT) mask))
      as (p' & i' & Hc & Hp & Hi & Hi0).
    exists p', i'. rewrite Hc, <- app_assoc. repeat split.
    + rewrite Hp, Z.shiftr_shiftr by (unfold PERTURB_SHIFT; lia).
      f_equal. unfold PERTURB_SHIFT. lia.
    + intros _. destruct n; [|now apply Hi].
      rewrite (Hi0 eq_refl). eauto.
    + lia.
Qed.

(** The fuel of the loops is enough to look at every cell of the table. *)
Theorem hash_chain_covers k h e :
  0 <= k <= 64 -> Z.of_nat e < 2 ^ k ->
  In e (hash_chain (probe_fuel (2 ^ k - 1)) (2 ^ k - 1) h).
Proof.
  intros Hk He. unfold hash_chain, probe_fuel.
  replace (2 ^ k - 1 + 1) with (2 ^ k) by ring.
  destruct (chain_split 13 (Z.to_nat (2 ^ k)) (2 ^ k - 1) (wrap64 h)
              (first_index h (2 ^ k - 1))) as (p' & i' & -> & Hp & Hi & _).
  apply in_or_app. right.
  assert (p' = 0) as ->.
  { rewrite Hp, Z.shiftr_div_pow2 by (unfold PERTURB_SHIFT; lia).
    apply Z.div_small. pose proof (wrap64_bound h).
    change (2 ^ (PERTURB_SHIFT * Z.of_nat 13)) with (2 ^ 65). lia. }
  destruct Hi as (j & q & ->); [lia|].
  pose proof (next_index_bound j q k ltac:(lia)) as Hb.
  set (i' := next_index j q (2 ^ k - 1)) in *.
  destruct (walk_full_period (Z.to_nat k) i' (Z.of_nat e)) as (n & Hn & Hmod).
  rewrite Z2Nat.id in Hmod by lia.
  assert (Hpow : Z.to_nat (2 ^ k) = (2 ^ Z.to_nat k)%nat).
  { apply Nat2Z.inj. rewrite Z2Nat.id, Nat2Z.inj_pow, Z2Nat.id by lia. reflexivity. }
  replace (Z.to_nat (2 ^ k)) with (S n + (Z.to_nat (2 ^ k) - S n))%nat by lia.
  destruct (chain_prefix (S n) (Z.to_nat (2 ^ k) - S n) (2 ^ k - 1) 0 i') as [l ->].
  apply in_or_app. left.
  pose proof (chain_walk k i' n Hk Hb) as Hin.
  rewrite Hmod, Z.mod_small, Nat2Z.id in Hin by lia. exact Hin.
Qed.
