(* ===== verification/PySetFacts.v ===== *)
(** Invariant and cell-level lemmas of the set table. *)
From Stdlib Require Import ZArith Lia Permutation.
From stdpp Require Import base tactics list numbers option.
From S2P Require Import Prelude PySet Probe.

(** What a client must guarantee of its elements: on the admissible values the
    equality is symmetric and transitive, and equal values have equal hashes. *)
Class SetElemLaws {V : Type} `{SetElem V} (P : V -> Prop) : Prop := {
  elem_eq_sym : forall x y, P x -> P y -> elem_eq x y = elem_eq y x;
  elem_eq_trans : forall x y z, P x -> P y -> P z ->
    elem_eq x y = true -> elem_eq y z = true -> elem_eq x z = true;
  elem_eq_hash : forall x y, P x -> P y -> elem_eq x y = true -> elem_hash x = elem_hash y
}.

Section Scan.
Context {V : Type} `{SetElem V}.
Implicit Types (sl : list (Slot V)) (v w : V) (h : Z) (l : list nat).

(** The probe loop as a scan of the list of cells it visits. *)
Fixpoint scan sl v h l (fs : option nat) : option chain_end :=
  match l with
  | [] => Some (NoHit fs)
  | e :: l' =>
      s ← sl !! e;
      match s with
      | Empty => Some (HitEmpty e fs)
      | Active ev eh =>
          if (eh =? h) && elem_eq ev v then Some (HitEqual e) else scan sl v h l' fs
      | Dummy => scan sl v h l' (Some e)
      end
  end.

Lemma probe_line_scan p sl v h e fs :
  probe_line p sl v h e fs = scan sl v h (seq e (S p)) fs.
Proof.
  revert e fs. induction p as [|p IH]; intros e fs; simpl;
    destruct (sl !! e) as [[| |w g]|]; simpl; try done;
    destruct (_ && _); try done; apply IH.
Qed.

Lemma scan_app sl v h l1 l2 fs :
  scan sl v h (l1 ++ l2) fs =
    (r ← scan sl v h l1 fs;
     match r with NoHit fs' => scan sl v h l2 fs' | r => Some r end).
Proof.
  revert fs. induction l1 as [|e l1 IH]; intros fs; [done|]. simpl.
  destruct (sl !! e) as [[| |w g]|]; simpl; auto. destruct (_ && _); auto.
Qed.

Lemma probe_loop_scan fuel sl mask v h p i fs :
  probe_loop fuel sl mask v h p i fs =
    (r ← scan sl v h (chain fuel mask p i) fs;
     match r with NoHit _ => None | r => Some r end).
Proof.
  revert p i fs. induction fuel as [|fuel IH]; intros p i fs; [done|].
  cbn [probe_loop chain]. rewrite probe_line_scan, scan_app. fold (line i mask).
  destruct (scan sl v h (line i mask) fs) as [[e fs'|e|fs']|]; simpl; auto.
Qed.

(** A cell a probe walks over without stopping. *)
Definition passed sl v h (e : nat) : Prop :=
  match sl !! e with
  | Some Dummy => True
  | Some (Active ev eh) => (eh =? h) && elem_eq ev v = false
  | _ => False
  end.

Definition scan_result sl v h l (fs : option nat) (r : chain_end) : Prop :=
  match r with
  | HitEmpty e fs' => exists pre post, l = pre ++ e :: post /\ sl !! e = Some Empty /\
      Forall (passed sl v h) pre /\
      (fs' = fs \/ exists d, fs' = Some d /\ In d pre /\ sl !! d = Some Dummy)
  | HitEqual e => exists pre post w, l = pre ++ e :: post /\ sl !! e = Some (Active w h) /\
      elem_eq w v = true /\ Forall (passed sl v h) pre
  | NoHit _ => Forall (passed sl v h) l
  end.

Lemma scan_spec sl v h l fs r :
  scan sl v h l fs = Some r -> scan_result sl v h l fs r.
Proof.
  revert fs. induction l as [|e l IH]; intros fs Hs; simpl in Hs.
  { simplify_eq. constructor. }
  assert (Hcons : forall fs', passed sl v h e -> (fs' = fs \/ fs' = Some e /\ sl !! e = Some Dummy) ->
    scan_result sl v h l fs' r -> scan_result sl v h (e :: l) fs r).
  { intros fs' Hp Hfs. destruct r as [e' f|e'|f]; simpl.
    - intros (pre & post & -> & He & Hpre & Hf). exists (e :: pre), post.
      repeat split; [done|by constructor|].
      destruct Hf as [->|(d & -> & Hd & Hdd)].
      + destruct Hfs as [->|[-> ?]]; [by left|]. right. exists e. split; [done|]. split; [by left|done].
      + right. exists d. split; [done|]. split; [by right|done].
    - intros (pre & post & w & -> & He & Hw & Hpre). exists (e :: pre), post, w.
      repeat split; try done. by constructor.
    - intros Hl. by constructor. }
  destruct (sl !! e) as [s|] eqn:He; [|done]. simpl in Hs. destruct s as [| |w g].
  - simplify_eq. exists [], l. repeat split; auto.
  - eapply Hcons; [|by right|by apply IH]. unfold passed. by rewrite He.
  - destruct ((g =? h) && elem_eq w v) eqn:Heq.
    + simplify_eq. apply andb_true_iff in Heq as [->%Z.eqb_eq ?].
      exists [], l, w. repeat split; auto.
    + eapply Hcons; [|by left|by apply IH]. unfold passed. by rewrite He.
Qed.

Lemma scan_total sl v h l fs :
  Forall (fun e => (e < length sl)%nat) l -> is_Some (scan sl v h l fs).
Proof.
  revert fs. induction l as [|e l IH]; intros fs Hl; [by eexists|].
  apply Forall_cons_1 in Hl as [He Hl]. simpl.
  destruct (lookup_lt_is_Some_2 sl e He) as [s ->]. simpl.
  destruct s; [by eexists|by apply IH|]. destruct (_ && _); [by eexists|by apply IH].
Qed.

(** [insert_clean] as a scan for the first empty cell. *)
Fixpoint first_empty sl l : option (option nat) :=
  match l with
  | [] => Some None
  | e :: l' =>
      s ← sl !! e; if is_empty_slot s then Some (Some e) else first_empty sl l'
  end.

Lemma first_empty_app sl l1 l2 :
  first_empty sl (l1 ++ l2) =
    (r ← first_empty sl l1;
     match r with None => first_empty sl l2 | Some e => Some (Some e) end).
Proof.
  induction l1 as [|e l1 IH]; [done|]. simpl.
  destruct (sl !! e) as [s|]; simpl; [|done]. destruct (is_empty_slot s); auto.
Qed.

Lemma clean_line_scan n sl e : clean_line n sl e = first_empty sl (seq (S e) n).
Proof.
  revert e. induction n as [|n IH]; intros e; [done|].
  cbn [clean_line seq first_empty]. destruct (sl !! S e) as [s|]; simpl; [|done].
  destruct (is_empty_slot s); auto.
Qed.

Lemma clean_loop_scan fuel sl mask p i :
  clean_loop fuel sl mask p i =
    (r ← first_empty sl (chain fuel mask p i);
     match r with None => None | Some e => Some e end).
Proof.
  revert p i. induction fuel as [|fuel IH]; intros p i; [done|].
  cbn [clean_loop chain]. rewrite first_empty_app, clean_line_scan. unfold line, line_probes.
  cbn [seq first_empty]. destruct (sl !! Z.to_nat i) as [s|]; cbn [mbind option_bind]; [|done].
  destruct (is_empty_slot s); cbn [mbind option_bind]; [done|].
  destruct (i + Z.of_nat LINEAR_PROBES <=? mask).
  - destruct (first_empty sl _) as [[e|]|]; cbn [mbind option_bind]; auto.
  - cbn [seq first_empty mbind option_bind]. auto.
Qed.

Lemma first_empty_spec sl l e :
  first_empty sl l = Some (Some e) ->
  exists pre post, l = pre ++ e :: post /\ sl !! e = Some Empty /\
    Forall (fun d => sl !! d <> Some Empty) pre.
Proof.
  induction l as [|d l IH]; intros Hl; simpl in Hl; [done|].
  destruct (sl !! d) as [s|] eqn:Hd; simpl in Hl; [|done].
  destruct s as [| |w g]; simpl in Hl.
  - simplify_eq. exists [], l. repeat split; auto.
  - destruct (IH Hl) as (pre & post & -> & ? & ?). exists (d :: pre), post.
    repeat split; [done|constructor; [congruence|done]].
  - destruct (IH Hl) as (pre & post & -> & ? & ?). exists (d :: pre), post.
    repeat split; [done|constructor; [congruence|done]].
Qed.

Lemma first_empty_total sl l e :
  Forall (fun e => (e < length sl)%nat) l -> In e l -> sl !! e = Some Empty ->
  exists d, first_empty sl l = Some (Some d).
Proof.
  intros Hl Hin He. induction l as [|d l IH]; [done|].
  apply Forall_cons_1 in Hl as [Hd Hl]. simpl.
  destruct (lookup_lt_is_Some_2 sl d Hd) as [s Hs]. rewrite Hs. simpl.
  destruct s as [| |w g]; simpl; [by eexists|..]; (destruct Hin as [->|Hin]; [congruence|auto]).
Qed.
End Scan.

(** ** Slot lists: reachability, contents, counts *)

Section Cells.
Context {V : Type} `{SetElem V}.
Implicit Types (sl : list (Slot V)) (v w : V) (h : Z).

(** Cell [j] is on the probe chain of [h], with no empty cell before it. *)
Definition reachable sl (mask h : Z) (j : nat) : Prop :=
  exists n pre post, hash_chain n mask h = pre ++ j :: post /\
    Forall (fun e => sl !! e <> Some Empty) pre.

Record slots_ok (k : Z) sl : Prop := {
  so_exp : 3 <= k <= 60;
  so_len : Z.of_nat (length sl) = 2 ^ k;
  so_reach : forall j v h, sl !! j = Some (Active v h) -> reachable sl (2 ^ k - 1) h j;
  so_distinct : forall i j v w h, i <> j ->
    sl !! i = Some (Active v h) -> sl !! j = Some (Active w h) -> elem_eq v w = false
}.

Definition filled sl : Z :=
  Z.of_nat (length (List.filter (fun s => negb (is_empty_slot s)) sl)).

Lemma actives_of_insert sl j v h s :
  sl !! j = Some s -> slot_active s = None ->
  actives_of (<[j := Active v h]> sl) ≡ₚ (v, h) :: actives_of sl.
Proof.
  intros Hj Hs. pose proof (lookup_lt_Some _ _ _ Hj) as Hlt.
  rewrite insert_take_drop by done. rewrite <- (take_drop_middle sl j s Hj) at 3.
  unfold actives_of. rewrite !omap_app. simpl. rewrite Hs.
  symmetry. apply Permutation_middle.
Qed.

Lemma actives_of_dummy sl j v h :
  sl !! j = Some (Active v h) ->
  actives_of sl ≡ₚ (v, h) :: actives_of (<[j := Dummy]> sl).
Proof.
  intros Hj. pose proof (lookup_lt_Some _ _ _ Hj) as Hlt.
  rewrite insert_take_drop by done. rewrite <- (take_drop_middle sl j _ Hj) at 1.
  unfold actives_of. rewrite !omap_app. simpl. symmetry. apply Permutation_middle.
Qed.

Lemma actives_of_lookup sl v h :
  In (v, h) (actives_of sl) <-> exists j, sl !! j = Some (Active v h).
Proof.
  unfold actives_of. rewrite <- list_elem_of_In, list_elem_of_omap. split.
  - intros (s & Hs & Ha). apply list_elem_of_lookup in Hs as [j Hj].
    destruct s; simplify_eq/=. eauto.
  - intros [j Hj]. exists (Active v h). split; [|done].
    apply list_elem_of_lookup. eauto.
Qed.

Lemma filled_insert sl j s s' :
  sl !! j = Some s -> is_empty_slot s' = false ->
  filled (<[j := s']> sl) = filled sl + (if is_empty_slot s then 1 else 0).
Proof.
  intros Hj Hs. pose proof (lookup_lt_Some _ _ _ Hj) as Hlt. unfold filled.
  rewrite insert_take_drop by done. rewrite <- (take_drop_middle sl j s Hj) at 3.
  rewrite !List.filter_app, !length_app. simpl. rewrite Hs. simpl.
  destruct (is_empty_slot s); simpl; lia.
Qed.

Lemma filled_replicate n : filled (replicate n Empty) = 0.
Proof. unfold filled. induction n; simpl; auto. Qed.

Lemma actives_of_replicate n : actives_of (V := V) (replicate n Empty) = [].
Proof. unfold actives_of. induction n; simpl; auto. Qed.

Lemma actives_of_cons s sl :
  actives_of (s :: sl) =
    match s with Active v h => (v, h) :: actives_of sl | _ => actives_of sl end.
Proof. by destruct s. Qed.

Lemma filled_cons s sl :
  filled (s :: sl) = filled sl + (if is_empty_slot s then 0 else 1).
Proof. unfold filled. destruct s; cbn [List.filter negb is_empty_slot length]; lia. Qed.

Lemma filled_bound sl : 0 <= Z.of_nat (length (actives_of sl)) <= filled sl.
Proof.
  induction sl as [|s sl IH]; [by cbv|]. rewrite actives_of_cons, filled_cons.
  destruct s; simpl; lia.
Qed.

Lemma filled_lt_empty sl :
  filled sl < Z.of_nat (length sl) -> exists e, sl !! e = Some Empty.
Proof.
  unfold filled. induction sl as [|s sl IH]; simpl; [lia|]. intros Hlt.
  destruct s; simpl in Hlt; [by exists 0%nat|..];
    (destruct IH as [e He]; [lia|]; by exists (S e)).
Qed.

Lemma filled_zero sl : filled sl = 0 -> forall e, (e < length sl)%nat -> sl !! e = Some Empty.
Proof.
  unfold filled. induction sl as [|s sl IH]; simpl; intros Hz e He; [lia|].
  destruct s; simpl in Hz; try lia. destruct e as [|e]; [done|]. simpl. apply IH; lia.
Qed.

(** Filling or recycling a cell never uncovers an empty one. *)
Lemma reachable_insert sl mask h j i s :
  is_empty_slot s = false -> reachable sl mask h j -> reachable (<[i := s]> sl) mask h j.
Proof.
  intros Hs (n & pre & post & Hc & Hpre). exists n, pre, post. split; [done|].
  eapply Forall_impl; [|exact Hpre]. intros e He Hem. simpl in He.
  destruct (decide (i = e)) as [->|Hne].
  - destruct (decide (e < length sl)%nat).
    + rewrite list_lookup_insert_eq in Hem by done. injection Hem as ->. discriminate Hs.
    + rewrite list_insert_ge in Hem by lia. done.
  - rewrite list_lookup_insert_ne in Hem by done. done.
Qed.

Lemma hash_chain_in_range k sl n h :
  slots_ok k sl -> Forall (fun e => (e < length sl)%nat) (hash_chain n (2 ^ k - 1) h).
Proof.
  intros Hok. destruct (so_exp _ _ Hok). pose proof (so_len _ _ Hok).
  eapply Forall_impl; [|apply chain_bound; [|apply first_index_bound]; lia].
  intros e He. simpl in He. lia.
Qed.

Lemma chain_comparable n m mask h :
  (exists l, hash_chain m mask h = hash_chain n mask h ++ l) \/
  (exists l, hash_chain n mask h = hash_chain m mask h ++ l).
Proof.
  unfold hash_chain. destruct (Nat.le_ge_cases n m) as [Hle|Hle]; [left|right].
  - replace m with (n + (m - n))%nat by lia. apply chain_prefix.
  - replace n with (m + (n - m))%nat by lia. apply chain_prefix.
Qed.
End Cells.

(** ** What a probe answers *)

Lemma split_compare {A} (pre pre2 post post2 : list A) (e j : A) :
  pre ++ e :: post = pre2 ++ j :: post2 -> In j pre \/ e = j \/ In e pre2.
Proof.
  revert pre2. induction pre as [|x pre IH]; intros [|y pre2] Heq;
    injection Heq as Hx Hl; subst; simpl; auto.
  destruct (IH pre2 Hl) as [?|[?|?]]; auto.
Qed.

Section ProbeFacts.
Context {V : Type} `{SetElem V}.
Implicit Types (sl : list (Slot V)) (v w : V) (h : Z).

(** Some active cell holds an element the probe would accept. *)
Definition present sl v h : Prop :=
  exists j w, sl !! j = Some (Active w h) /\ elem_eq w v = true.

Lemma probe_result k t v h :
  slots_ok k (slots t) -> mask t = 2 ^ k - 1 ->
  filled (slots t) < Z.of_nat (length (slots t)) ->
  exists r, probe t v h = Some r /\
    scan_result (slots t) v h (hash_chain (probe_fuel (mask t)) (mask t) h) None r /\
    match r with NoHit _ => False | _ => True end.
Proof.
  intros Hok Hm Hfill. destruct (filled_lt_empty _ Hfill) as [e He].
  unfold probe. rewrite probe_loop_scan.
  fold (hash_chain (probe_fuel (mask t)) (mask t) h).
  destruct (scan_total (slots t) v h (hash_chain (probe_fuel (mask t)) (mask t) h) None)
    as [r Hr].
  { rewrite Hm. by apply hash_chain_in_range. }
  rewrite Hr. apply scan_spec in Hr. exists r. simpl.
  destruct r as [e' fs|e'|fs]; try done. exfalso.
  simpl in Hr. rewrite Forall_forall in Hr. specialize (Hr e). unfold passed in Hr.
  rewrite He in Hr. apply Hr. rewrite Hm.
  pose proof (lookup_lt_Some _ _ _ He). pose proof (so_len _ _ Hok).
  pose proof (so_exp _ _ Hok). apply hash_chain_covers; lia.
Qed.

(** An element that is present is found before any empty cell. *)
Lemma present_no_empty k sl v h e fs n :
  slots_ok k sl -> present sl v h ->
  ~ scan_result sl v h (hash_chain n (2 ^ k - 1) h) None (HitEmpty e fs).
Proof.
  intros Hok (j & w & Hj & Hw) (pre & post & Hc & He & Hpre & _).
  destruct (so_reach _ _ Hok _ _ _ Hj) as (m & pre2 & post2 & Hc2 & Hpre2).
  assert (In j pre \/ e = j \/ In e pre2) as [Hin|[->|Hin]].
  { destruct (chain_comparable n m (2 ^ k - 1) h) as [[l Hl]|[l Hl]];
      rewrite Hc, Hc2 in Hl.
    - eapply (split_compare pre pre2 (post ++ l) post2).
      rewrite Hl, <- app_assoc. reflexivity.
    - eapply (split_compare pre pre2 post (post2 ++ l)).
      rewrite Hl, <- app_assoc. reflexivity. }
  - rewrite Forall_forall in Hpre. specialize (Hpre j Hin). unfold passed in Hpre.
    rewrite Hj, Z.eqb_refl, Hw in Hpre. discriminate.
  - congruence.
  - rewrite Forall_forall in Hpre2. by apply (Hpre2 e).
Qed.

Lemma passed_not_empty sl v h e : passed sl v h e -> sl !! e <> Some Empty.
Proof. unfold passed. intros Hp He. by rewrite He in Hp. Qed.

(** The cell [insert_clean] chooses. *)
Lemma clean_cell k sl h :
  slots_ok k sl -> filled sl < Z.of_nat (length sl) ->
  exists j, clean_loop (probe_fuel (2 ^ k - 1)) sl (2 ^ k - 1) (wrap64 h)
              (first_index h (2 ^ k - 1)) = Some j /\
    sl !! j = Some Empty /\ reachable sl (2 ^ k - 1) h j.
Proof.
  intros Hok Hfill. destruct (filled_lt_empty _ Hfill) as [e He].
  rewrite clean_loop_scan.
  fold (hash_chain (probe_fuel (2 ^ k - 1)) (2 ^ k - 1) h).
  pose proof (lookup_lt_Some _ _ _ He). pose proof (so_len _ _ Hok).
  pose proof (so_exp _ _ Hok).
  destruct (first_empty_total sl (hash_chain (probe_fuel (2 ^ k - 1)) (2 ^ k - 1) h) e)
    as [j Hj]; [by apply hash_chain_in_range|apply hash_chain_covers; lia|done|].
  rewrite Hj. exists j. split; [done|].
  apply first_empty_spec in Hj as (pre & post & Hc & Hj & Hpre).
  split; [done|]. by exists (probe_fuel (2 ^ k - 1)), pre, post.
Qed.

(** Writing an active cell where it is reachable keeps the slots well formed. *)
Lemma slots_ok_insert k sl j v h s :
  slots_ok k sl -> sl !! j = Some s -> slot_active s = None ->
  reachable sl (2 ^ k - 1) h j ->
  (forall i w, sl !! i = Some (Active w h) -> elem_eq w v = false /\ elem_eq v w = false) ->
  slots_ok k (<[j := Active v h]> sl).
Proof.
  intros [Hk Hlen Hr Hd] Hj Hs Hre Hnew. pose proof (lookup_lt_Some _ _ _ Hj) as Hlt.
  split; [done|by rewrite length_insert|..].
  - intros i w g Hi. apply reachable_insert; [done|].
    apply list_lookup_insert_Some in Hi as [(<- & Heq & _)|[_ Hi]].
    + injection Heq as -> ->. done.
    + by eapply Hr.
  - intros i i' w x g Hne Hi Hi'.
    apply list_lookup_insert_Some in Hi as [(<- & Heq & _)|[? Hi]];
      apply list_lookup_insert_Some in Hi' as [(<- & Heq' & _)|[? Hi']]; try done.
    + injection Heq as <- <-. by eapply Hnew.
    + injection Heq' as <- <-. by eapply Hnew.
    + by eapply (Hd i i').
Qed.

Lemma slots_ok_dummy k sl j :
  slots_ok k sl -> slots_ok k (<[j := Dummy]> sl).
Proof.
  intros [Hk Hlen Hr Hd]. split; [done|by rewrite length_insert|..].
  - intros i w g Hi. apply reachable_insert; [done|].
    apply list_lookup_insert_Some in Hi as [(_ & ? & _)|[_ Hi]]; [done|by eapply Hr].
  - intros i i' w x g Hne Hi Hi'.
    apply list_lookup_insert_Some in Hi as [(_ & ? & _)|[? Hi]]; [done|].
    apply list_lookup_insert_Some in Hi' as [(_ & ? & _)|[? Hi']]; [done|].
    by eapply (Hd i i').
Qed.

Lemma slots_ok_replicate k :
  3 <= k <= 60 -> slots_ok k (replicate (Z.to_nat (2 ^ k)) Empty).
Proof.
  intros Hk. split; [done|..].
  - rewrite length_replicate, Z2Nat.id; [done|]. apply Z.pow_nonneg. lia.
  - intros j v h Hj. apply lookup_replicate in Hj as [? _]. done.
  - intros i j v w h _ Hi. apply lookup_replicate in Hi as [? _]. done.
Qed.
End ProbeFacts.
