(* ===== verification/PySetSpec.v ===== *)
(** The set table refines a finite set of (element, hash) pairs. *)
From Stdlib Require Import ZArith Lia Permutation List.
From stdpp Require Import base tactics list numbers option.
From S2P Require Import Prelude PySet Probe PySetFacts.

(** ** The abstract set *)

Section Abstract.
Context {V : Type} `{SetElem V} (P : V -> Prop) `{!SetElemLaws P}.

(** Two entries are the same element when hashes and values agree. *)
Definition same (x y : V * Z) : bool := (x.2 =? y.2) && elem_eq x.1 y.1.
Definition member (l : list (V * Z)) (x : V * Z) : bool := existsb (fun y => same y x) l.
Definition admissible (l : list (V * Z)) : Prop := Forall (fun x => P x.1) l.
Definition apart (x y : V * Z) : Prop := same x y = false /\ same y x = false.
Definition distinct (l : list (V * Z)) : Prop := ForallOrdPairs apart l.

Lemma same_sym x y : P x.1 -> P y.1 -> same x y = same y x.
Proof. intros. unfold same. rewrite Z.eqb_sym. f_equal. by apply elem_eq_sym. Qed.

Lemma same_trans x y z :
  P x.1 -> P y.1 -> P z.1 -> same x y = true -> same y z = true -> same x z = true.
Proof.
  unfold same. rewrite !andb_true_iff, !Z.eqb_eq. intros ??? [-> ?] [-> ?].
  split; [done|]. by eapply (elem_eq_trans _ y.1).
Qed.

Lemma same_subst x y z :
  P x.1 -> P y.1 -> P z.1 -> same x y = true -> same x z = same y z.
Proof.
  intros Hx Hy Hz Hxy. apply Bool.eq_iff_eq_true. split; intros Hs.
  - eapply (same_trans y x z); [done..|by rewrite same_sym|done].
  - eapply (same_trans x y z); done.
Qed.

Lemma member_perm l l' x : l ≡ₚ l' -> member l x = member l' x.
Proof. apply existsb_perm. Qed.

Lemma member_app l l' x : member (l ++ l') x = member l x || member l' x.
Proof. apply existsb_app. Qed.

Lemma member_In l x : member l x = true <-> exists y, In y l /\ same y x = true.
Proof. apply existsb_exists. Qed.

(** Membership does not depend on which representative is asked for. *)
Lemma member_subst l x y :
  admissible l -> P x.1 -> P y.1 -> same x y = true -> member l x = member l y.
Proof.
  intros Hl Hx Hy Hxy. induction Hl as [|z l Hz Hl IH]; [done|]. simpl.
  rewrite IH. f_equal. rewrite (same_sym z x), (same_sym z y) by done.
  by apply same_subst.
Qed.

Lemma distinct_perm l l' : l ≡ₚ l' -> distinct l -> distinct l'.
Proof. apply FOP_perm. unfold apart. tauto. Qed.

Lemma distinct_cons x l :
  admissible (x :: l) -> distinct l -> member l x = false -> distinct (x :: l).
Proof.
  intros [Hx Hl]%Forall_cons_1 Hd Hm. constructor; [|done].
  rewrite Forall_forall in *. intros y Hy. assert (same y x = false) as Hyx.
  { destruct (same y x) eqn:E; [|done]. rewrite <- Hm. symmetry.
    apply member_In. eauto. }
  split; [|done]. rewrite same_sym; auto.
Qed.

Lemma distinct_member x l : distinct (x :: l) -> member l x = false.
Proof.
  intros Hd. inversion_clear Hd as [|? ? Hx _]. rewrite Forall_forall in Hx.
  destruct (member l x) eqn:E; [|done]. apply member_In in E as (y & Hy & Hs).
  destruct (Hx y Hy). congruence.
Qed.

(** What a correct insertion and a correct removal do to the contents. *)
Definition inserted (l : list (V * Z)) (x : V * Z) : list (V * Z) :=
  if member l x then l else x :: l.

Lemma member_inserted l x y :
  admissible l -> P x.1 -> P y.1 ->
  member (inserted l x) y = member l y || same x y.
Proof.
  intros Hl Hx Hy. unfold inserted. destruct (member l x) eqn:E.
  - destruct (same x y) eqn:Exy; [|by rewrite orb_false_r].
    rewrite <- (member_subst l x y), E by done. done.
  - simpl. by rewrite orb_comm.
Qed.
End Abstract.

(** ** The representation invariant *)

Section Refinement.
Context {V : Type} `{SetElem V} (P : V -> Prop) `{!SetElemLaws P}.
Implicit Types (t : SetTable V) (v : V) (h : Z).

Record wf t : Prop := {
  wf_slots : exists k, slots_ok k (slots t) /\ mask t = 2 ^ k - 1;
  wf_used : used t = Z.of_nat (length (actives t));
  wf_fill : fill t = filled (slots t);
  wf_load : fill t * 5 < mask t * 3;
  wf_adm : admissible P (actives t)
}.

(** A bound on the number of elements far above any [Vec] the code can
    allocate; below it no size computation leaves the machine range. *)
Definition capacity : Z := 2 ^ 55.

Lemma slots_ok_distinct k (sl : list (Slot V)) :
  slots_ok k sl -> distinct (actives_of sl).
Proof.
  intros Hok. pose proof (so_distinct _ _ Hok) as Hd. clear Hok. revert Hd.
  induction sl as [|s sl IH]; intros Hd; [constructor|].
  assert (distinct (actives_of sl)) as Hsl.
  { apply IH. intros i j v w h Hij Hi Hj. apply (Hd (S i) (S j) v w h); auto. }
  rewrite actives_of_cons. destruct s as [| |v h]; try done.
  constructor; [|done]. apply Forall_forall. intros [w g] Hin.
  apply actives_of_lookup in Hin as [j Hj].
  split; unfold same; simpl; destruct (Z.eqb_spec g h) as [->|Hne];
    rewrite ?Z.eqb_refl; simpl; try done.
  - by apply (Hd 0%nat (S j) v w h).
  - by destruct (Z.eqb_spec h g).
  - by apply (Hd (S j) 0%nat w v h).
Qed.

Lemma present_member (sl : list (Slot V)) v h :
  present sl v h <-> member (actives_of sl) (v, h) = true.
Proof.
  rewrite member_In. split.
  - intros (j & w & Hj & Hw). exists (w, h). split.
    + apply actives_of_lookup. eauto.
    + unfold same. simpl. by rewrite Z.eqb_refl, Hw.
  - intros ([w g] & Hin & Hs). apply actives_of_lookup in Hin as [j Hj].
    unfold same in Hs. simpl in Hs. apply andb_true_iff in Hs as [->%Z.eqb_eq Hs].
    by exists j, w.
Qed.

Lemma wf_not_full t : wf t -> filled (slots t) < Z.of_nat (length (slots t)).
Proof.
  intros [(k & Hok & Hm) _ Hf Hl _]. rewrite <- Hf. rewrite Hm in Hl.
  pose proof (so_len _ _ Hok). pose proof (filled_bound (slots t)). lia.
Qed.

(** ** Probing *)

Lemma probe_spec t v h :
  wf t ->
  (exists e fs, probe t v h = Some (HitEmpty e fs) /\ member (actives t) (v, h) = false /\
     slots t !! e = Some Empty /\
     (forall k, mask t = 2 ^ k - 1 -> reachable (slots t) (2 ^ k - 1) h e) /\
     (forall d, fs = Some d -> slots t !! d = Some Dummy /\
     forall k, mask t = 2 ^ k - 1 -> reachable (slots t) (2 ^ k - 1) h d)) \/
  (exists e w, probe t v h = Some (HitEqual e) /\ member (actives t) (v, h) = true /\
     slots t !! e = Some (Active w h) /\ elem_eq w v = true).
Proof.
  intros Hwf. pose proof (wf_not_full t Hwf) as Hnf.
  destruct Hwf as [(k & Hok & Hm) _ _ _ _].
  destruct (probe_result k t v h Hok Hm Hnf) as (r & Hr & Hs & Hn).
  destruct r as [e fs|e|?]; [left|right|done].
  - exists e, fs. split; [done|].
    assert (member (actives t) (v, h) = false) as ->.
    { apply not_true_is_false. intros Hp. apply present_member in Hp.
      rewrite Hm in Hs. by eapply present_no_empty in Hs. }
    destruct Hs as (pre & post & Hc & He & Hpre & Hfs).
    split; [done|]. split; [done|].
    assert (Forall (fun e => slots t !! e <> Some Empty) pre) as Hpre'.
    { eapply Forall_impl; [|exact Hpre]. intros. by eapply passed_not_empty. }
    split; [intros k' Hm'; rewrite <- Hm'; by exists (probe_fuel (mask t)), pre, post|].
    intros d ->. destruct Hfs as [?|(d' & Heq & Hin & Hd)]; [done|]. injection Heq as <-.
    split; [done|]. intros k' Hm'. rewrite <- Hm'.
    apply in_split in Hin as (p1 & p2 & ->).
    exists (probe_fuel (mask t)), p1, (p2 ++ e :: post). split.
    + rewrite Hc, <- app_assoc. done.
    + by apply Forall_app in Hpre' as [? _].
  - destruct Hs as (pre & post & w & Hc & He & Hw & _). exists e, w.
    repeat split; try done. apply present_member. by exists e, w.
Qed.

Lemma contains_ok t v h : wf t -> contains t v h = Some (member (actives t) (v, h)).
Proof.
  intros Hwf. unfold contains.
  destruct (probe_spec t v h Hwf) as [(e & fs & -> & -> & _)|(e & w & -> & -> & _)]; done.
Qed.

(** ** Removal *)

Definition removed (l : list (V * Z)) (x : V * Z) (l' : list (V * Z)) : Prop :=
  if member l x then exists y, same y x = true /\ l ≡ₚ y :: l' else l' = l.

Lemma discard_ok t v h :
  wf t -> exists t', discard t v h = Some (member (actives t) (v, h), t') /\ wf t' /\
    removed (actives t) (v, h) (actives t').
Proof.
  intros Hwf. unfold discard, removed.
  destruct (probe_spec t v h Hwf) as [(e & fs & -> & -> & _)|(e & w & -> & -> & He & Hw)];
    simpl; [by exists t|].
  eexists. split; [done|].
  destruct Hwf as [(k & Hok & Hm) Hu Hf Hl Ha]. unfold actives in *. simpl.
  pose proof (actives_of_dummy _ _ _ _ He) as Hperm.
  split.
  - split; simpl; unfold actives; simpl.
    + exists k. split; [by apply slots_ok_dummy|done].
    + rewrite Hu, Hperm. simpl. lia.
    + rewrite (filled_insert _ _ _ _ He) by done. simpl. lia.
    + done.
    + unfold admissible in *. rewrite Hperm in Ha. by inversion Ha.
  - exists (w, h). split; [|done]. unfold same. simpl. by rewrite Z.eqb_refl, Hw.
Qed.

(** ** Rehashing *)

Lemma insert_clean_slots_ok k (sl : list (Slot V)) v h :
  slots_ok k sl -> filled sl < 2 ^ k -> admissible P ((v, h) :: actives_of sl) ->
  member (actives_of sl) (v, h) = false ->
  exists sl', insert_clean_slots (2 ^ k - 1) sl v h = Some sl' /\ slots_ok k sl' /\
    actives_of sl' ≡ₚ (v, h) :: actives_of sl /\ filled sl' = filled sl + 1.
Proof.
  intros Hok Hf Ha Hm. pose proof (so_len _ _ Hok) as Hlen.
  destruct (clean_cell k sl h Hok ltac:(lia)) as (j & Hj & He & Hr).
  exists (<[j := Active v h]> sl). unfold insert_clean_slots. rewrite Hj.
  split; [done|]. split; [|split].
  - eapply slots_ok_insert; [done|exact He|done|done|]. intros i w Hi.
    assert (elem_eq w v = false) as Hwv.
    { destruct (elem_eq w v) eqn:E; [|done]. rewrite <- Hm. symmetry.
      apply present_member. by exists i, w. }
    split; [done|]. apply Forall_cons_1 in Ha as [Hv Ha].
    rewrite Forall_forall in Ha. rewrite (elem_eq_sym (P := P)); [done|done|].
    apply (Ha (w, h)). apply actives_of_lookup. eauto.
  - by eapply actives_of_insert.
  - by rewrite (filled_insert _ _ _ _ He).
Qed.

Lemma insert_clean_all_ok k xs (sl : list (Slot V)) :
  slots_ok k sl -> filled sl + Z.of_nat (length xs) <= 2 ^ k ->
  admissible P (xs ++ actives_of sl) -> distinct (xs ++ actives_of sl) ->
  exists sl', insert_clean_all (2 ^ k - 1) sl xs = Some sl' /\ slots_ok k sl' /\
    actives_of sl' ≡ₚ xs ++ actives_of sl /\
    filled sl' = filled sl + Z.of_nat (length xs).
Proof.
  revert sl. induction xs as [|[v h] xs IH]; intros sl Hok Hf Ha Hd.
  { exists sl. simpl. repeat split; auto; try apply Hok. lia. }
  assert (Hperm : (v, h) :: xs ++ actives_of sl ≡ₚ xs ++ (v, h) :: actives_of sl)
    by apply Permutation_middle.
  change (distinct ((v, h) :: (xs ++ actives_of sl))) in Hd.
  pose proof (distinct_member _ _ Hd) as Hm. rewrite member_app in Hm.
  apply orb_false_iff in Hm as [_ Hm].
  simpl length in Hf.
  destruct (insert_clean_slots_ok k sl v h) as (sl1 & H1 & Hok1 & Hp1 & Hf1);
    [done|lia| |done|].
  { simpl in Ha. apply Forall_cons_1 in Ha as [Hv Ha]. constructor; [done|].
    by apply Forall_app in Ha as [_ ?]. }
  destruct (IH sl1) as (sl2 & H2 & Hok2 & Hp2 & Hf2); [done|lia|..].
  - unfold admissible. rewrite Hp1, <- Hperm. done.
  - eapply distinct_perm; [|exact Hd]. simpl. by rewrite Hp1, Hperm.
  - exists sl2. simpl. rewrite H1. simpl. split; [done|]. split; [done|]. split.
    + by rewrite Hp2, Hp1, <- Hperm.
    + lia.
Qed.

(** The doubling loop stops at the first power of two above its bound. *)
Lemma grow_ok fuel a m :
  0 <= a -> 0 <= m < 2 ^ (a + Z.of_nat fuel) ->
  exists b, grow (S fuel) (2 ^ a) m = Some (2 ^ b) /\ a <= b /\ m < 2 ^ b /\
    (b = a \/ 2 ^ (b - 1) <= m).
Proof.
  revert a. induction fuel as [|fuel IH]; intros a Ha Hm; cbn [grow].
  - destruct (Z.leb_spec (2 ^ a) m); [rewrite Z.add_0_r in Hm; lia|].
    exists a. repeat split; [lia|lia|by left].
  - destruct (Z.leb_spec (2 ^ a) m).
    + rewrite Z.shiftl_mul_pow2, <- Z.pow_add_r by lia.
      destruct (IH (a + 1)) as (b & Hb & ? & ? & Hor); [lia| |].
      { split; [lia|]. replace (a + 1 + Z.of_nat fuel) with (a + Z.of_nat (S fuel)) by lia. lia. }
      exists b. cbn [grow] in Hb. rewrite Hb. repeat split; [lia|done|].
      right. destruct Hor as [->|?]; [|done]. by replace (a + 1 - 1) with a by lia.
    + exists a. repeat split; [lia|done|by left].
Qed.

Lemma grow_min m :
  0 <= m <= 2 ^ 58 ->
  exists b, grow (grow_fuel m) MINSIZE m = Some (2 ^ b) /\ 3 <= b <= 60 /\ m < 2 ^ b.
Proof.
  intros Hm. unfold grow_fuel, MINSIZE. change 8 with (2 ^ 3).
  destruct (grow_ok (Z.to_nat (Z.log2 (m + 1))) 3 m) as (b & Hb & ? & ? & Hor); [lia| |].
  - split; [lia|]. pose proof (Z.log2_spec (m + 1) ltac:(lia)).
    rewrite Z2Nat.id by apply Z.log2_nonneg.
    enough (2 ^ Z.succ (Z.log2 (m + 1)) <= 2 ^ (3 + Z.log2 (m + 1))) by lia.
    apply Z.pow_le_mono_r; lia.
  - exists b. repeat split; try lia; [done|].
    destruct Hor as [->|Hle]; [lia|].
    assert (2 ^ (b - 1) < 2 ^ 59) as Hb59 by (change (2 ^ 59) with (2 * 2 ^ 58); lia).
    apply Z.pow_lt_mono_r_iff in Hb59; lia.
Qed.

(** Rehashing keeps the elements, sheds the tombstones and makes room. *)
Lemma resize_ok k t minused :
  slots_ok k (slots t) -> used t = Z.of_nat (length (actives t)) ->
  admissible P (actives t) -> 0 <= minused <= 2 ^ 58 ->
  used t * 5 < minused * 3 \/ used t = 0 ->
  exists t', resize t minused = Some t' /\ wf t' /\ actives t' ≡ₚ actives t /\
    fill t' = used t' /\ minused <= mask t'.
Proof.
  intros Hok Hu Ha Hm Hload. unfold resize.
  destruct (grow_min minused Hm) as (b & -> & Hb & Hlt). simpl.
  set (sl0 := replicate (Z.to_nat (2 ^ b)) (@Empty V)).
  assert (slots_ok b sl0) as Hok0 by (by apply slots_ok_replicate).
  assert (actives_of sl0 = []) as Ha0 by apply actives_of_replicate.
  assert (filled sl0 = 0) as Hf0 by apply filled_replicate.
  assert (2 ^ 3 <= 2 ^ b) as H8 by (apply Z.pow_le_mono_r; lia). change (2 ^ 3) with 8 in H8.
  destruct (insert_clean_all_ok b (actives t) sl0) as (sl & Hs & Hok' & Hp & Hf').
  - done.
  - rewrite Hf0, <- Hu. lia.
  - by rewrite Ha0, app_nil_r.
  - rewrite Ha0, app_nil_r. by eapply slots_ok_distinct.
  - rewrite Ha0, app_nil_r in Hp. unfold actives in Hs at 1. fold (actives t) in Hs.
    rewrite Hs. simpl. eexists. split; [done|].
    split; [|split; [|split]]; simpl; try done; [|lia].
    split; simpl; unfold actives; simpl.
    + by exists b.
    + by rewrite Hp.
    + rewrite Hf', Hf0. by unfold actives.
    + fold (actives t). rewrite <- Hu. lia.
    + unfold admissible. by rewrite Hp.
Qed.

Lemma minused_of_ok u : 0 <= u < capacity ->
  0 <= minused_of u <= 2 ^ 58 /\ (u * 5 < minused_of u * 3 \/ u = 0).
Proof. unfold minused_of, capacity. destruct (Z.gtb_spec u 50000); lia. Qed.

(** ** Insertion *)

Lemma add_ok t v h :
  wf t -> P v -> used t + 1 < capacity ->
  exists t', add t v h = Some t' /\ wf t' /\
    actives t' ≡ₚ inserted (actives t) (v, h) /\
    used t' = used t + (if member (actives t) (v, h) then 0 else 1).
Proof.
  intros Hwf Hv Hcap. unfold add, inserted.
  destruct (probe_spec t v h Hwf)
    as [(e & fs & -> & Hmem & He & Hre & Hfs)|(e & w & -> & -> & He & Hw)]; simpl.
  2: { exists t. repeat split; auto; [apply Hwf..|lia]. }
  rewrite Hmem.
  destruct Hwf as [(k & Hok & Hm) Hu Hf Hl Ha].
  assert (forall i w, slots t !! i = Some (Active w h) ->
            elem_eq w v = false /\ elem_eq v w = false) as Hnew.
  { intros i w Hi. assert (elem_eq w v = false) as Hwv.
    { destruct (elem_eq w v) eqn:E; [|done]. rewrite <- Hmem. symmetry.
      apply present_member. by exists i, w. }
    split; [done|]. rewrite (elem_eq_sym (P := P)); [done|done|].
    unfold admissible in Ha. rewrite Forall_forall in Ha.
    apply (Ha (w, h)), actives_of_lookup. eauto. }
  assert (Hins : forall j s, slots t !! j = Some s -> slot_active s = None ->
    reachable (slots t) (2 ^ k - 1) h j ->
    slots_ok k (<[j := Active v h]> (slots t)) /\
    actives_of (<[j := Active v h]> (slots t)) ≡ₚ (v, h) :: actives t /\
    admissible P (actives_of (<[j := Active v h]> (slots t)))).
  { intros j s Hj Hs Hr.
    pose proof (actives_of_insert (slots t) j v h s Hj Hs) as Hperm.
    split; [by eapply slots_ok_insert|]. split; [done|].
    unfold admissible. rewrite Hperm. by constructor. }
  destruct fs as [d|].
  - destruct (Hfs d eq_refl) as [Hd Hrd].
    destruct (Hins d Dummy Hd eq_refl (Hrd k Hm)) as (Hok' & Hp & Ha').
    eexists. split; [done|]. split; [|by split].
    split; simpl; unfold actives; simpl; try done.
    + by exists k.
    + rewrite Hp. simpl. unfold actives in Hu. rewrite Hu. unfold actives. lia.
    + rewrite (filled_insert _ _ _ _ Hd) by done. simpl. lia.
  - destruct (Hins e Empty He eq_refl (Hre k Hm)) as (Hok' & Hp & Ha').
    unfold maybe_resize. simpl.
    destruct (Z.ltb_spec ((fill t + 1) * 5) (mask t * 3)) as [Hlt|Hge].
    + eexists. split; [done|]. split; [|by split].
      split; simpl; unfold actives; simpl; try done.
      * by exists k.
      * rewrite Hp. simpl. unfold actives in Hu. rewrite Hu. unfold actives. lia.
      * rewrite (filled_insert _ _ _ _ He) by done. simpl. lia.
    + set (t1 := mkTable _ (mask t) (fill t + 1) (used t + 1)).
      assert (used t1 = Z.of_nat (length (actives t1))) as Hu1.
      { unfold t1, actives. simpl. rewrite Hp. simpl. lia. }
      destruct (minused_of_ok (used t + 1)) as [Hmu Hload]; [lia|].
      destruct (resize_ok k t1 (minused_of (used t + 1))) as (t2 & Hr & Hwf2 & Hp2 & _ & _);
        try done.
      exists t2. split; [done|]. split; [done|]. split.
      * by rewrite Hp2.
      * rewrite (wf_used _ Hwf2), Hp2, <- Hu1. done.
Qed.

Lemma wf_with_capacity : wf (with_capacity MINSIZE).
Proof.
  split; simpl; try done.
  - exists 3. split; [|done]. apply (slots_ok_replicate 3). lia.
  - constructor.
Qed.
End Refinement.
