(* ===== verification/PySetAlgebra.v ===== *)
(** Set algebra of the table: every operation returns a well-formed table whose
    membership is the corresponding boolean combination. *)
From Stdlib Require Import ZArith Lia Permutation List.
From stdpp Require Import base tactics list numbers option.
From S2P Require Import Prelude PySet Probe PySetFacts PySetSpec.

Section Lists.
Context {V : Type} `{SetElem V} (P : V -> Prop) `{!SetElemLaws P}.
Implicit Types (l : list (V * Z)) (x y : V * Z).

Lemma member_removed l x l' y :
  admissible P l -> distinct l -> P x.1 -> P y.1 -> removed l x l' ->
  member l' y = member l y && negb (same x y).
Proof.
  intros Ha Hd Hx Hy. unfold removed. destruct (member l x) eqn:Hm.
  - intros (z & Hz & Hp).
    assert (admissible P (z :: l')) as Ha' by (unfold admissible; by rewrite <- Hp).
    pose proof (distinct_perm _ _ Hp Hd) as Hd'. apply distinct_member in Hd'.
    apply Forall_cons_1 in Ha' as [Hzp Ha'].
    rewrite (member_perm _ _ _ Hp). simpl.
    rewrite (same_subst P z x y) by done.
    destruct (same x y) eqn:Hxy; simpl; [|by rewrite andb_true_r].
    rewrite <- Hd'. symmetry. apply (member_subst P); try done.
    by apply (same_trans P z x y).
  - intros ->. destruct (same x y) eqn:Hxy; [|by rewrite andb_true_r].
    by rewrite <- (member_subst P l x y), Hm.
Qed.

Lemma member_filter l (f : V * Z -> bool) y :
  admissible P l -> P y.1 ->
  (forall x, P x.1 -> same x y = true -> f x = f y) ->
  member (List.filter f l) y = member l y && f y.
Proof.
  intros Ha Hy Hf. induction Ha as [|x l Hx Ha IH]; [done|]. simpl.
  destruct (same x y) eqn:Hxy.
  - rewrite <- (Hf x Hx Hxy). destruct (f x) eqn:Hfx; simpl; [by rewrite Hxy|].
    rewrite IH, <- (Hf x Hx Hxy), Hfx. by rewrite andb_false_r.
  - destruct (f x); simpl; rewrite ?Hxy, IH; done.
Qed.

Lemma admissible_filter f l : admissible P l -> admissible P (List.filter f l).
Proof.
  unfold admissible. rewrite !Forall_forall. intros Ha x Hx.
  apply filter_In in Hx as [Hx _]. auto.
Qed.

Lemma distinct_tail x l : distinct (x :: l) -> distinct l.
Proof. intros Hd. by inversion_clear Hd. Qed.
End Lists.

Section Tables.
Context {V : Type} `{SetElem V} (P : V -> Prop) `{!SetElemLaws P}.
Implicit Types (t a b : SetTable V) (xs : list (V * Z)).
Abbreviation wf := (wf P).

Lemma wf_distinct t : wf t -> distinct (actives t).
Proof. intros [(k & Hok & _) _ _ _ _]. by eapply slots_ok_distinct. Qed.

Lemma wf_used_nonneg t : wf t -> 0 <= used t.
Proof. intros Hwf. rewrite (wf_used _ _ Hwf). lia. Qed.

(** [t'] holds exactly the elements that [f] accepts. *)
Definition holds t' (f : V * Z -> bool) : Prop :=
  wf t' /\ forall y, P y.1 -> member (actives t') y = f y.

Lemma add_all_ok t xs :
  wf t -> admissible P xs -> used t + Z.of_nat (length xs) < capacity ->
  exists t', add_all t xs = Some t' /\
    holds t' (fun y => member (actives t) y || member xs y) /\
    used t' <= used t + Z.of_nat (length xs).
Proof.
  revert t. induction xs as [|[v h] xs IH]; intros t Hwf Ha Hc.
  { exists t. split; [done|]. split; [|simpl; lia]. split; [done|].
    intros y _. simpl. by rewrite orb_false_r. }
  apply Forall_cons_1 in Ha as [Hv Ha]. simpl in Hv. simpl length in Hc.
  destruct (add_ok P t v h Hwf Hv) as (t1 & H1 & Hwf1 & Hp1 & Hu1); [lia|].
  assert (used t1 <= used t + 1) by (rewrite Hu1; destruct (member _ _); lia).
  destruct (IH t1) as (t2 & H2 & [Hwf2 Hm2] & Hu2); [done|done|lia|].
  exists t2. simpl. rewrite H1. simpl. split; [done|]. split; [split; [done|]|lia].
  intros y Hy. rewrite Hm2 by done. rewrite (member_perm _ _ _ Hp1).
  rewrite (member_inserted P) by (done || apply Hwf). simpl.
  by rewrite <- orb_assoc.
Qed.

Lemma filter_into_add_all keep b r xs :
  wf b -> filter_into keep b r xs =
    add_all r (List.filter (fun x => eqb (member (actives b) x) keep) xs).
Proof.
  intros Hb. revert r. induction xs as [|[v h] xs IH]; intros r; [done|].
  cbn [filter_into List.filter]. rewrite (contains_ok P b v h Hb). simpl.
  destruct (eqb (member (actives b) (v, h)) keep); [|apply IH]. simpl.
  destruct (add r v h); simpl; [apply IH|done].
Qed.

Lemma discard_all_shrinks t xs :
  wf t -> admissible P xs ->
  exists t', discard_all t xs = Some t' /\
    holds t' (fun y => member (actives t) y && negb (member xs y)) /\ used t' <= used t.
Proof.
  revert t. induction xs as [|[v h] xs IH]; intros t Hwf Ha.
  { exists t. split; [done|]. split; [|lia]. split; [done|].
    intros y _. simpl. by rewrite andb_true_r. }
  apply Forall_cons_1 in Ha as [Hv Ha]. simpl in Hv.
  destruct (discard_ok P t v h Hwf) as (t1 & H1 & Hwf1 & Hr1).
  destruct (IH t1 Hwf1 Ha) as (t2 & H2 & [Hwf2 Hm2] & Hu2).
  exists t2. simpl. rewrite H1. simpl. split; [done|]. split.
  2: { rewrite (wf_used _ _ Hwf). rewrite (wf_used _ _ Hwf1) in Hu2.
       unfold removed in Hr1. destruct (member _ _); [destruct Hr1 as (z & _ & ->)|rewrite <- Hr1];
       simpl; lia. }
  split; [done|]. intros y Hy. rewrite Hm2 by done.
  rewrite (member_removed P (actives t) (v, h) (actives t1) y); try done;
    [|apply Hwf|by apply wf_distinct].
  rewrite negb_orb. by rewrite <- andb_assoc.
Qed.

Lemma toggle_all_ok t xs :
  wf t -> admissible P xs -> distinct xs -> used t + Z.of_nat (length xs) < capacity ->
  exists t', toggle_all t xs = Some t' /\
    holds t' (fun y => xorb (member (actives t) y) (member xs y)).
Proof.
  revert t. induction xs as [|[v h] xs IH]; intros t Hwf Ha Hd Hc.
  { exists t. split; [done|]. split; [done|]. intros y _. simpl. by rewrite xorb_false_r. }
  pose proof (Forall_cons_1 _ _ _ Ha) as [Hv Ha']. simpl in Hv. simpl length in Hc.
  destruct (discard_ok P t v h Hwf) as (t1 & H1 & Hwf1 & Hr1).
  cbn [toggle_all]. rewrite H1. cbn [mbind option_bind].
  assert (exists t2, (if member (actives t) (v, h) then Some t1 else add t1 v h) = Some t2 /\
    wf t2 /\ used t2 <= used t + 1 /\ forall y, P y.1 ->
    member (actives t2) y = xorb (member (actives t) y) (same (v, h) y)) as
    (t2 & H2 & Hwf2 & Hu2 & Hm2).
  { destruct (member (actives t) (v, h)) eqn:Hm.
    - exists t1. split; [done|]. split; [done|].
      unfold removed in Hr1. rewrite Hm in Hr1. destruct Hr1 as (z & Hz & Hp).
      split.
      { rewrite (wf_used _ _ Hwf1), (wf_used _ _ Hwf), Hp. simpl. lia. }
      intros y Hy.
      rewrite (member_removed P (actives t) (v, h) (actives t1) y); try done;
        [|apply Hwf|by apply wf_distinct|unfold removed; rewrite Hm; eauto].
      destruct (same (v, h) y) eqn:Hs; simpl; [|by rewrite andb_true_r, xorb_false_r].
      rewrite <- (member_subst P (actives t) (v, h) y), Hm; done || apply Hwf.
    - unfold removed in Hr1. rewrite Hm in Hr1.
      assert (used t1 = used t) as Hu by
        (by rewrite (wf_used _ _ Hwf1), (wf_used _ _ Hwf), Hr1).
      destruct (add_ok P t1 v h Hwf1 Hv) as (t2 & H2 & Hwf2 & Hp2 & Hu2); [lia|].
      exists t2. split; [done|]. split; [done|].
      split; [rewrite Hu2; destruct (member (actives t1) (v, h)); lia|].
      intros y Hy. rewrite (member_perm _ _ _ Hp2).
      rewrite (member_inserted P) by (done || apply Hwf1). rewrite Hr1.
      destruct (same (v, h) y) eqn:Hs; [|by rewrite orb_false_r, xorb_false_r].
      rewrite <- (member_subst P (actives t) (v, h) y), Hm; done || apply Hwf. }
  rewrite H2. cbn [mbind option_bind].
  destruct (IH t2) as (t3 & H3 & Hwf3 & Hm3); [done|done|by eapply distinct_tail|lia|].
  exists t3. split; [done|]. split; [done|]. intros y Hy.
  rewrite Hm3, Hm2 by done. simpl. rewrite xorb_assoc. f_equal.
  destruct (same (v, h) y) eqn:Hs; [|done]. simpl.
  pose proof (distinct_member _ _ Hd) as Hnm.
  rewrite <- (member_subst P xs (v, h) y), Hnm; done.
Qed.

(** ** The fast path of [merge] *)

Definition clean_slot (s : Slot V) : Slot V :=
  match s with Active v h => Active v h | _ => Empty end.

Lemma copy_active_slots_app src pre :
  copy_active_slots (length pre) src (pre ++ replicate (length src) Empty) =
    pre ++ (clean_slot <$> src).
Proof.
  revert pre. induction src as [|s src IH]; intros pre; [done|].
  cbn [copy_active_slots length replicate fmap list_fmap].
  replace (match s with Active v h => _ | _ => _ end)
    with ((pre ++ [clean_slot s]) ++ replicate (length src) Empty).
  - replace (S (length pre)) with (length (pre ++ [clean_slot s]))
      by (rewrite length_app; simpl; lia).
    rewrite IH, <- app_assoc. done.
  - destruct s; simpl; rewrite <- app_assoc; simpl; try done.
    by rewrite insert_app_r_alt, Nat.sub_diag by lia.
Qed.

Lemma filled_zero_replicate (sl : list (Slot V)) :
  filled sl = 0 -> sl = replicate (length sl) Empty.
Proof.
  intros Hz. induction sl as [|s sl IH]; [done|]. rewrite filled_cons in Hz.
  pose proof (filled_bound sl). destruct s; simpl in Hz; [|lia|lia].
  simpl. f_equal. apply IH. lia.
Qed.

Lemma clean_slots_id (sl : list (Slot V)) :
  filled sl = Z.of_nat (length (actives_of sl)) -> clean_slot <$> sl = sl.
Proof.
  induction sl as [|s sl IH]; [done|]. rewrite filled_cons, actives_of_cons.
  pose proof (filled_bound sl). intros Heq.
  destruct s; simpl in *; [f_equal; apply IH; lia|lia|f_equal; apply IH; lia].
Qed.

Lemma actives_nil_of_fill t : wf t -> fill t = 0 -> actives t = [].
Proof.
  intros Hwf Hz. pose proof (filled_bound (slots t)) as Hb.
  rewrite <- (wf_fill _ _ Hwf), Hz in Hb. apply length_zero_iff_nil.
  unfold actives. lia.
Qed.

Lemma wf_same_slots_len t o k :
  mask t = mask o -> slots_ok k (slots t) -> mask t = 2 ^ k - 1 -> wf o ->
  length (slots t) = length (slots o).
Proof.
  intros Hm Hok Hmk [(k' & Hok' & Hmk') _ _ _ _].
  pose proof (so_len _ _ Hok). pose proof (so_len _ _ Hok'). lia.
Qed.

(** The part of [merge] after the presize. *)
Lemma merge_body_ok t o :
  wf t -> wf o -> (fill t = 0 -> used o * 5 < mask t * 3) ->
  used t + used o < capacity ->
  exists t',
    (if (fill t =? 0) && (mask t =? mask o) && (fill o =? used o) then
       Some (mkTable (copy_active_slots 0 (slots o) (slots t)) (mask t) (fill o) (used o))
     else if fill t =? 0 then
       sl ← insert_clean_all (mask t) (slots t) (actives o);
       Some (mkTable sl (mask t) (used o) (used o))
     else add_all t (actives o)) = Some t' /\
    holds t' (fun y => member (actives t) y || member (actives o) y) /\
    used t' <= used t + used o /\
    (fill t = 0 -> actives t' ≡ₚ actives o /\ fill t' = used t').
Proof.
  intros Ht Ho Hroom Hcap.
  destruct (Z.eqb_spec (fill t) 0) as [Hz|Hnz]; cycle 1.
  { simpl. destruct (add_all_ok t (actives o) Ht) as (t' & -> & Hh & Hu).
    - apply Ho.
    - rewrite <- (wf_used _ _ Ho). done.
    - exists t'. split; [done|]. split; [done|].
      rewrite (wf_used _ _ Ho). split; [done|]. by intros ?. }
  pose proof (actives_nil_of_fill t Ht Hz) as Hnil. cbn [andb].
  destruct (wf_slots _ _ Ht) as (k & Hok & Hmk).
  pose proof (wf_used _ _ Ht) as Hut. rewrite Hnil in Hut. simpl in Hut.
  destruct ((mask t =? mask o) && (fill o =? used o)) eqn:Hfast.
  - apply andb_true_iff in Hfast as [Hm%Z.eqb_eq Hfo%Z.eqb_eq].
    exists o. split.
    { f_equal. destruct o as [so mo fo uo]. simpl in *. f_equal; try lia.
      rewrite (filled_zero_replicate (slots t)) by (by rewrite <- (wf_fill _ _ Ht)).
      rewrite (wf_same_slots_len t (mkTable so mo fo uo) k) by done.
      etransitivity; [apply (copy_active_slots_app so [])|]. apply clean_slots_id.
      etransitivity; [symmetry; apply (wf_fill _ _ Ho)|]. simpl. rewrite Hfo.
      apply (wf_used _ _ Ho). }
    split; [|split; [lia|done]]. split; [done|]. intros y _. by rewrite Hnil.
  - rewrite Hmk. specialize (Hroom Hz).
    assert (filled (slots t) = 0) as Hfz by (by rewrite <- (wf_fill _ _ Ht)).
    pose proof (so_exp _ _ Hok) as Hk.
    pose proof (wf_used_nonneg o Ho).
    destruct (insert_clean_all_ok P k (actives o) (slots t)) as (sl & -> & Hok' & Hp & Hf).
    + done.
    + rewrite Hfz, <- (wf_used _ _ Ho). lia.
    + fold (actives t). rewrite Hnil, app_nil_r. apply Ho.
    + fold (actives t). rewrite Hnil, app_nil_r. by apply wf_distinct.
    + fold (actives t) in Hp. rewrite Hnil, app_nil_r in Hp. simpl.
      eexists. split; [done|].
      assert (wf (mkTable sl (2 ^ k - 1) (used o) (used o))) as Hwf'.
      { split; simpl; unfold actives; simpl.
        - by exists k.
        - rewrite Hp. apply (wf_used _ _ Ho).
        - rewrite Hf, Hfz, (wf_used _ _ Ho). lia.
        - rewrite <- Hmk. lia.
        - unfold admissible. rewrite Hp. apply Ho. }
      split; [|split; [simpl; lia|done]]. split; [done|].
      intros y _. rewrite Hnil. by apply member_perm.
Qed.

Lemma merge_ok t o :
  wf t -> wf o -> used t + used o < capacity ->
  exists t', merge t o = Some t' /\
    holds t' (fun y => member (actives t) y || member (actives o) y) /\
    used t' <= used t + used o /\
    (fill t = 0 -> actives t' ≡ₚ actives o /\ fill t' = used t').
Proof.
  intros Ht Ho Hcap. unfold merge.
  pose proof (wf_used_nonneg t Ht). pose proof (wf_used_nonneg o Ho).
  destruct (Z.leb_spec (mask t * 3) ((fill t + used o) * 5)) as [Hge|Hlt].
  - destruct (wf_slots _ _ Ht) as (k & Hok & Hmk).
    destruct (resize_ok P k t ((used t + used o) * 2)) as (t1 & -> & Hwf1 & Hp & Hfu & Hmask);
      [done|apply Ht|apply Ht|unfold capacity in Hcap; lia|lia|].
    assert (used t1 = used t) as Hu1 by
      (by rewrite (wf_used _ _ Hwf1), (wf_used _ _ Ht), Hp).
    cbn [mbind option_bind].
    destruct (merge_body_ok t1 o) as (t' & -> & [Hwf' Hm'] & Hu' & Hz'); [done|done| |lia|].
    { intros Hz. pose proof (wf_load _ _ Hwf1).
      pose proof (wf_slots _ _ Hwf1) as (k1 & Hok1 & Hmk1).
      pose proof (so_exp _ _ Hok1).
      assert (2 ^ 3 <= 2 ^ k1) by (apply Z.pow_le_mono_r; lia).
      change (2 ^ 3) with 8 in *. lia. }
    exists t'. split; [done|]. split; [|split; [lia|]].
    + split; [done|]. intros y Hy. rewrite Hm' by done. by rewrite (member_perm _ _ _ Hp).
    + intros Hz. apply Hz'. pose proof (actives_nil_of_fill t Ht Hz) as Hnil.
      rewrite Hfu, Hu1, (wf_used _ _ Ht), Hnil. done.
  - cbn [mbind option_bind]. apply merge_body_ok; try done. intros Hz. lia.
Qed.

Lemma copy_ok a :
  wf a -> used a < capacity ->
  exists r, copy a = Some r /\ wf r /\ actives r ≡ₚ actives a /\ fill r = used r.
Proof.
  intros Ha Hc. unfold copy.
  destruct (merge_ok (with_capacity MINSIZE) a) as (r & -> & [Hwf _] & _ & Hz);
    [apply wf_with_capacity|done|done|].
  exists r. destruct (Hz eq_refl). done.
Qed.

Lemma compact_ok t :
  wf t -> used t < capacity ->
  exists t', compact_if_sparse t = Some t' /\ wf t' /\ actives t' ≡ₚ actives t.
Proof.
  intros Ht Hc. unfold compact_if_sparse. destruct (fill t - used t >? mask t / 4).
  - destruct (wf_slots _ _ Ht) as (k & Hok & Hmk).
    destruct (minused_of_ok (used t)) as [Hm Hl]; [pose proof (wf_used_nonneg t Ht); lia|].
    destruct (resize_ok P k t (minused_of (used t))) as (t1 & -> & Hwf1 & Hp & _);
      [done|apply Ht|apply Ht|done|done|]. by exists t1.
  - by exists t.
Qed.

Lemma difference_update_ok a b :
  wf a -> wf b -> used a < capacity ->
  exists r, difference_update a b = Some r /\
    holds r (fun y => member (actives a) y && negb (member (actives b) y)).
Proof.
  intros Ha Hb Hc. unfold difference_update.
  destruct (discard_all_shrinks a (actives b)) as (a1 & -> & [Hwf1 Hm1] & Hu1);
    [done|apply Hb|].
  cbn [mbind option_bind].
  destruct (compact_ok a1) as (a2 & -> & Hwf2 & Hp2); [done|lia|].
  exists a2. split; [done|]. split; [done|]. intros y Hy.
  rewrite (member_perm _ _ _ Hp2). by apply Hm1.
Qed.

(** ** The four operators *)

Lemma union_ok a b :
  wf a -> wf b -> used a + used b < capacity ->
  exists r, union a b = Some r /\
    holds r (fun y => member (actives a) y || member (actives b) y).
Proof.
  intros Ha Hb Hc. unfold union. pose proof (wf_used_nonneg b Hb).
  destruct (copy_ok a) as (r & -> & Hr & Hp & _); [done|lia|]. cbn [mbind option_bind].
  destruct (merge_ok r b) as (r' & -> & [Hwf' Hm'] & _); [done|done| |].
  { rewrite (wf_used _ _ Hr), Hp, <- (wf_used _ _ Ha). done. }
  exists r'. split; [done|]. split; [done|]. intros y Hy.
  rewrite Hm' by done. by rewrite (member_perm _ _ _ Hp).
Qed.

Lemma filter_into_ok keep b xs :
  wf b -> admissible P xs -> Z.of_nat (length xs) < capacity ->
  exists r, filter_into keep b (with_capacity MINSIZE) xs = Some r /\
    holds r (fun y => member xs y && eqb (member (actives b) y) keep).
Proof.
  intros Hb Ha Hc. rewrite filter_into_add_all by done.
  pose proof (List.filter_length_le (fun x => eqb (member (actives b) x) keep) xs).
  destruct (add_all_ok (with_capacity MINSIZE)
    (List.filter (fun x => eqb (member (actives b) x) keep) xs)) as (r & -> & [Hwf Hm] & _).
  - apply wf_with_capacity.
  - by apply admissible_filter.
  - simpl. lia.
  - exists r. split; [done|]. split; [done|]. intros y Hy. rewrite Hm by done.
    cbn [with_capacity actives]. simpl.
    apply (member_filter P); try done. intros x Hx Hxy.
    by rewrite (member_subst P (actives b) x y) by (done || apply Hb).
Qed.

Lemma intersection_ok a b :
  wf a -> wf b -> used a < capacity -> used b < capacity ->
  exists r, intersection a b = Some r /\
    holds r (fun y => member (actives a) y && member (actives b) y).
Proof.
  intros Ha Hb Hca Hcb. unfold intersection.
  destruct (used b <=? used a).
  - destruct (filter_into_ok true a (actives b)) as (r & -> & Hwf & Hm);
      [done|apply Hb|by rewrite <- (wf_used _ _ Hb)|].
    exists r. split; [done|]. split; [done|]. intros y Hy. rewrite Hm by done.
    rewrite andb_comm. by destruct (member (actives a) y).
  - destruct (filter_into_ok true b (actives a)) as (r & -> & Hwf & Hm);
      [done|apply Ha|by rewrite <- (wf_used _ _ Ha)|].
    exists r. split; [done|]. split; [done|]. intros y Hy. rewrite Hm by done.
    by destruct (member (actives b) y).
Qed.

Lemma difference_ok a b :
  wf a -> wf b -> used a < capacity ->
  exists r, difference a b = Some r /\
    holds r (fun y => member (actives a) y && negb (member (actives b) y)).
Proof.
  intros Ha Hb Hc. unfold difference.
  destruct (used b <? Z.shiftr (used a) 2).
  - destruct (copy_ok a) as (r & -> & Hr & Hp & _); [done|lia|]. cbn [mbind option_bind].
    destruct (difference_update_ok r b) as (r' & -> & Hwf' & Hm'); [done|done| |].
    { by rewrite (wf_used _ _ Hr), Hp, <- (wf_used _ _ Ha). }
    exists r'. split; [done|]. split; [done|]. intros y Hy.
    rewrite Hm' by done. by rewrite (member_perm _ _ _ Hp).
  - destruct (filter_into_ok false b (actives a)) as (r & -> & Hwf & Hm);
      [done|apply Ha|by rewrite <- (wf_used _ _ Ha)|].
    exists r. split; [done|]. split; [done|]. intros y Hy. rewrite Hm by done.
    by destruct (member (actives b) y).
Qed.

Lemma symmetric_difference_ok a b :
  wf a -> wf b -> used a + used b < capacity ->
  exists r, symmetric_difference a b = Some r /\
    holds r (fun y => xorb (member (actives a) y) (member (actives b) y)).
Proof.
  intros Ha Hb Hc. unfold symmetric_difference. pose proof (wf_used_nonneg a Ha).
  destruct (copy_ok b) as (r & -> & Hr & Hp & _); [done|lia|]. cbn [mbind option_bind].
  destruct (toggle_all_ok r (actives a)) as (r' & -> & Hwf' & Hm');
    [done|apply Ha|by apply wf_distinct| |].
  { rewrite (wf_used _ _ Hr), Hp, <- (wf_used _ _ Ha), <- (wf_used _ _ Hb). lia. }
  exists r'. split; [done|]. split; [done|]. intros y Hy.
  rewrite Hm' by done. rewrite (member_perm _ _ _ Hp). apply xorb_comm.
Qed.
End Tables.
