(* ===== verification/PySetThms.v ===== *)
(** Correctness theorems of the set table and of the set value built on it. *)
From Stdlib Require Import ZArith Lia Permutation List.
From stdpp Require Import base tactics list numbers option.
From S2P Require Import Prelude PyHash PySet Probe PySetFacts PySetSpec PySetAlgebra.

(** Integers as set elements: the instance the witnesses evaluate on. *)
#[export] Instance int_elem : SetElem Z := {|
  elem_eq := Z.eqb;
  elem_hash := fun n => Some (hash_i64 n)
|}.

#[export] Instance int_elem_laws : SetElemLaws (V := Z) (fun _ => True).
Proof.
  split; simpl.
  - intros x y _ _. apply Z.eqb_sym.
  - intros x y z _ _ _ ->%Z.eqb_eq ->%Z.eqb_eq. apply Z.eqb_refl.
  - by intros x y _ _ ->%Z.eqb_eq.
Qed.

(** A table built by the source's own constructor, for witnesses. *)
Definition int_table (items : list Z) : SetTable Z :=
  match table_from_incremental items with Some (Some t) => t | _ => with_capacity MINSIZE end.

Section Build.
Context {V : Type} `{SetElem V} (P : V -> Prop) `{!SetElemLaws P}.

Lemma hash_all_map (items : list V) xs : hash_all items = Some xs ->
  xs.*1 = items /\ Forall (fun x => elem_hash x.1 = Some x.2) xs.
Proof.
  revert xs. induction items as [|v items IH]; intros xs Hx; simpl in Hx.
  { injection Hx as <-. split; [done|constructor]. }
  destruct (elem_hash v) as [h|] eqn:Hh; simpl in Hx; [|done].
  destruct (hash_all items) as [r|]; simpl in Hx; [|done]. injection Hx as <-.
  destruct (IH r eq_refl) as [<- Hf]. split; [done|]. by constructor.
Qed.

Lemma member_hashed (xs : list (V * Z)) v h :
  admissible P xs -> Forall (fun x => elem_hash x.1 = Some x.2) xs ->
  P v -> elem_hash v = Some h ->
  member xs (v, h) = existsb (fun x => elem_eq x v) xs.*1.
Proof.
  intros Ha Hx Hv Hh. induction Ha as [|[w g] xs Hw Ha IH]; [done|].
  apply Forall_cons_1 in Hx as [Hg Hx]. simpl in Hw, Hg |- *.
  rewrite IH by done. f_equal. unfold same. simpl.
  destruct (elem_eq w v) eqn:E; [|by rewrite andb_false_r].
  pose proof (elem_eq_hash w v Hw Hv E) as Heq. rewrite Hg, Hh in Heq.
  injection Heq as ->. by rewrite Z.eqb_refl.
Qed.

Lemma table_from_incremental_ok (items : list V) xs :
  Forall P items -> hash_all items = Some xs -> Z.of_nat (length items) < capacity ->
  exists t, table_from_incremental items = Some (Some t) /\
    holds P t (member xs).
Proof.
  intros Hp Hx Hc. destruct (hash_all_map _ _ Hx) as [Hfst _].
  unfold table_from_incremental, table_of_pairs. rewrite Hx.
  destruct (add_all_ok P (with_capacity MINSIZE) xs) as (t & -> & Hh & _).
  - apply wf_with_capacity.
  - unfold admissible. rewrite <- Hfst in Hp. rewrite Forall_fmap in Hp. exact Hp.
  - rewrite <- Hfst, length_fmap in Hc. simpl. lia.
  - exists t. split; [done|]. destruct Hh as [Hwf Hm]. split; [done|].
    intros y Hy. by rewrite Hm.
Qed.
End Build.

Lemma int_table_wf items :
  Z.of_nat (length items) < capacity -> wf (fun _ => True) (int_table items).
Proof.
  intros Hc. assert (exists xs, hash_all items = Some xs) as [xs Hx].
  { clear. induction items as [|v items [xs IH]]; [by exists []|].
    exists ((v, hash_i64 v) :: xs). simpl. by rewrite IH. }
  destruct (table_from_incremental_ok (fun _ => True) items xs) as (t & Ht & Hwf & _);
    [by apply Forall_true|done|done|].
  unfold int_table. by rewrite Ht.
Qed.

Section Theorems.
Context {V : Type} `{SetElem V} (P : V -> Prop) `{!SetElemLaws P}.

(** C28: for well-formed tables, [|], [&], [-] and [^] terminate with
    well-formed tables that contain an element exactly when the operands do,
    in disjunction, conjunction, difference and exclusive or. *)
Theorem set_algebra_refines (a b : SetTable V)
    (Ha : wf P a) (Hb : wf P b) (Hsize : used a + used b < capacity) :
  exists u i d s,
    union a b = Some u /\ intersection a b = Some i /\
    difference a b = Some d /\ symmetric_difference a b = Some s /\
    wf P u /\ wf P i /\ wf P d /\ wf P s /\
    forall v h, P v -> exists ca cb,
      contains a v h = Some ca /\ contains b v h = Some cb /\
      contains u v h = Some (ca || cb) /\ contains i v h = Some (ca && cb) /\
      contains d v h = Some (ca && negb cb) /\ contains s v h = Some (xorb ca cb).
Proof.
  pose proof (wf_used_nonneg P a Ha). pose proof (wf_used_nonneg P b Hb).
  destruct (union_ok P a b) as (u & Hu & Hwu & Hmu); try done.
  destruct (intersection_ok P a b) as (i & Hi & Hwi & Hmi); try done; try lia.
  destruct (difference_ok P a b) as (d & Hd & Hwd & Hmd); try done; try lia.
  destruct (symmetric_difference_ok P a b) as (s & Hs & Hws & Hms); try done.
  exists u, i, d, s. do 8 (split; [done|]). intros v h Hv.
  exists (member (actives a) (v, h)), (member (actives b) (v, h)).
  rewrite !(contains_ok P) by done.
  by rewrite Hmu, Hmi, Hmd, Hms.
Qed.

(** C34: [add] terminates, keeps the table well formed, makes the element
    present and changes the answer for no other element. *)
Theorem set_add_lookup (t : SetTable V) v h w g
    (Ht : wf P t) (Hv : P v) (Hw : P w) (Hsize : used t + 1 < capacity) :
  exists t' c, add t v h = Some t' /\ wf P t' /\
    contains t w g = Some c /\ contains t' w g = Some (c || same (v, h) (w, g)).
Proof.
  destruct (add_ok P t v h Ht Hv Hsize) as (t' & Hadd & Hwf & Hp & _).
  exists t', (member (actives t) (w, g)). rewrite !(contains_ok P) by done.
  repeat split; auto; [apply Hwf..|]. f_equal. rewrite (member_perm _ _ _ Hp).
  apply (member_inserted P); done || apply Ht.
Qed.

(** [discard] terminates, reports whether the element was present,
    removes exactly that element, and keeps the table well formed. *)
Theorem set_discard_lookup (t : SetTable V) v h w g
    (Ht : wf P t) (Hv : P v) (Hw : P w) :
  exists t' c cw, discard t v h = Some (c, t') /\ wf P t' /\
    contains t v h = Some c /\ contains t w g = Some cw /\
    contains t' w g = Some (cw && negb (same (v, h) (w, g))) /\
    used t' = used t - (if c then 1 else 0).
Proof.
  destruct (discard_ok P t v h Ht) as (t' & Hd & Hwf & Hr).
  exists t', (member (actives t) (v, h)), (member (actives t) (w, g)).
  rewrite !(contains_ok P) by done. do 4 (split; [done|]). split.
  - f_equal. apply (member_removed P); try done; [apply Ht|by apply (wf_distinct P)].
  - rewrite (wf_used _ _ Ht), (wf_used _ _ Hwf). unfold removed in Hr.
    destruct (member _ _); [destruct Hr as (z & _ & ->); simpl; lia|rewrite Hr; lia].
Qed.
End Theorems.

Lemma set_algebra_refines_witness :
  wf (fun _ => True) (int_table [1; 2; 3; 40]) /\
  exists u, union (int_table [1; 2; 3; 40]) (int_table [3; 11]) = Some u.
Proof.
  split; [apply int_table_wf; by cbv|].
  destruct (set_algebra_refines (fun _ : Z => True) (int_table [1; 2; 3; 40]) (int_table [3; 11]))
    as (u & _ & _ & _ & Hu & _); [apply int_table_wf; by cbv|apply int_table_wf; by cbv|by cbv|].
  by exists u.
Defined.

Lemma set_add_lookup_witness :
  exists t', add (int_table [1; 2; 3]) 8 (hash_i64 8) = Some t' /\
    contains t' 8 (hash_i64 8) = Some true.
Proof.
  destruct (set_add_lookup (fun _ : Z => True) (int_table [1; 2; 3])
    8 (hash_i64 8) 8 (hash_i64 8)) as (t' & c & Ha & _ & _ & Hc);
    [apply int_table_wf; by cbv|done|done|by cbv|].
  exists t'. split; [exact Ha|]. rewrite Hc. by rewrite orb_true_r.
Defined.

Lemma set_discard_lookup_witness :
  exists t', discard (int_table [1; 2; 3]) 2 (hash_i64 2) = Some (true, t') /\
    contains t' 2 (hash_i64 2) = Some false.
Proof.
  destruct (set_discard_lookup (fun _ : Z => True) (int_table [1; 2; 3])
    2 (hash_i64 2) 2 (hash_i64 2)) as (t' & c & cw & Ha & _ & Hc & _ & Hw & _);
    [apply int_table_wf; by cbv|done|done|].
  assert (c = true) as -> by (vm_compute in Hc; by injection Hc as <-).
  exists t'. split; [exact Ha|]. rewrite Hw. by rewrite andb_false_r.
Defined.
