(* ===== verification/Values.v ===== *)
(** The value model ([value.rs]): Python values, dictionary keys, exceptions
    and classes, with the containers Rust shares through [Arc<Mutex<_>>] as
    locations of a heap, and the accessors that need no evaluator. *)
From Stdlib Require Import ZArith Lia Ascii String.
From Stdlib Require Import SpecFloat.
From stdpp Require Import base tactics list numbers option strings gmap pretty.
From S2P Require Import Prelude PySet.

Set Warnings "-register-all".

(** Rust text ([String], [CompactString]) as its sequence of Unicode scalar
    values; identifiers, type names and messages stay Rocq strings. *)
Abbreviation text := (list Z).
Definition lit (s : string) : text := (fun c => Z.of_nat (Ascii.nat_of_ascii c)) <$> list_ascii_of_string s.

(** [str::len], the number of UTF-8 bytes. *)
Definition utf8_width (c : Z) : Z :=
  if c <? 128 then 1 else if c <? 2048 then 2 else if c <? 65536 then 3 else 4.
Definition utf8_bytes (c : Z) : list Z :=
  if c <? 128 then [c]
  else if c <? 2048 then [192 + c / 64; 128 + c mod 64]
  else if c <? 65536 then [224 + c / 4096; 128 + c / 64 mod 64; 128 + c mod 64]
  else [240 + c / 262144; 128 + c / 4096 mod 64; 128 + c / 64 mod 64; 128 + c mod 64].

(** A text used as a name. *)
Definition text_name (s : text) : string :=
  string_of_list_ascii (map (fun b => Ascii.ascii_of_N (Z.to_N b)) (flat_map utf8_bytes s)).

(** The characters of a name, and the byte strings the source builds messages
    with, as text: UTF-8 decoding. *)
Fixpoint utf8_decode (b : list Z) : text :=
  match b with
  | [] => []
  | c0 :: b1 =>
      if c0 <? 192 then c0 :: utf8_decode b1
      else match b1 with
      | [] => [c0]
      | c1 :: b2 =>
          if c0 <? 224 then (c0 - 192) * 64 + (c1 - 128) :: utf8_decode b2
          else match b2 with
          | [] => [c0]
          | c2 :: b3 =>
              if c0 <? 240 then (c0 - 224) * 4096 + (c1 - 128) * 64 + (c2 - 128) :: utf8_decode b3
              else match b3 with
              | [] => [c0]
              | c3 :: b4 =>
                  (c0 - 240) * 262144 + (c1 - 128) * 4096 + (c2 - 128) * 64 + (c3 - 128) :: utf8_decode b4
              end
          end
      end
  end.

Definition string_bytes (s : string) : list Z :=
  (fun c => Z.of_nat (Ascii.nat_of_ascii c)) <$> list_ascii_of_string s.
Definition name_text (s : string) : text := utf8_decode (string_bytes s).

Definition text_len (s : text) : Z := foldr (fun c n => utf8_width c + n) 0 s.

(** Types of crates the source only calls (chrono, bigdecimal, num-rational,
    num-bigint) with the operations it uses on them: the crate's own equality,
    accessors, the words its [Hash] writes ([_feed]), and the hash function of
    the standard library's [DefaultHasher]. *)
Class External : Type := {
  NaiveDate : Type;
  NaiveTime : Type;
  NaiveDateTime : Type;
  BigDecimal : Type;
  BigRational : Type;
  date_eqb : NaiveDate -> NaiveDate -> bool;
  time_eqb : NaiveTime -> NaiveTime -> bool;
  datetime_eqb : NaiveDateTime -> NaiveDateTime -> bool;
  datetime_minus_seconds : NaiveDateTime -> Z -> NaiveDateTime;
  decimal_eqb : BigDecimal -> BigDecimal -> bool;
  decimal_of_int : Z -> BigDecimal;
  decimal_is_zero : BigDecimal -> bool;
  decimal_opp : BigDecimal -> BigDecimal;
  decimal_normalized : BigDecimal -> Z * Z;
  decimal_fractional_digits : BigDecimal -> Z;
  decimal_scale_zero : BigDecimal -> Z;
  rational_eqb : BigRational -> BigRational -> bool;
  rational_opp : BigRational -> BigRational;
  rational_numer : BigRational -> Z;
  rational_denom : BigRational -> Z;
  date_feed : NaiveDate -> list Z;
  time_feed : NaiveTime -> list Z;
  datetime_feed : NaiveDateTime -> list Z;
  bigint_feed : Z -> list Z;
  bigint_to_f64 : Z -> option spec_float;
  default_hasher : list Z -> Z
}.

(** [f64], as the Standard Library's exact model of binary64 (one NaN). *)
Abbreviation f64 := spec_float.
Definition f64_of_Z (n : Z) : f64 := binary_normalize 53 1024 n 0 false.
Definition f64_is_zero (f : f64) : bool := match f with S754_zero _ => true | _ => false end.

(** Addresses of the shared allocations. *)
Abbreviation loc := nat.

Inductive BuiltinIterName : Type := ICount | ICycle | IRepeat | IListIterator | IBytearrayIterator.

Definition BuiltinIterName_type_name (k : BuiltinIterName) : string :=
  match k with
  | ICount => "count" | ICycle => "cycle" | IRepeat => "repeat"
  | IListIterator => "list_iterator" | IBytearrayIterator => "bytearray_iterator"
  end%string.

Inductive DecimalKind : Type := Normal | NegZero | PosInf | NegInf | Nan.

Definition is_nan (k : DecimalKind) : bool := match k with Nan => true | _ => false end.
Definition is_infinite (k : DecimalKind) : bool :=
  match k with PosInf | NegInf => true | _ => false end.
Definition is_special (k : DecimalKind) : bool :=
  match k with PosInf | NegInf | Nan => true | _ => false end.

Inductive LazyKind : Type :=
| LGenerator | LMap | LFilter | LZip | LEnumerate | LChain | LIslice | LGroupby | LAccumulate
| LCombinations | LCombinationsWithReplacement | LPermutations | LProduct | LStarmap
| LTakewhile | LDropwhile | LFilterfalse | LCompress | LPairwise | LTee | LZipLongest
| LBatched | LTupleIterator | LStrAsciiIterator | LStrIterator | LSetIterator
| LDictKeyIterator | LDictValueIterator | LDictItemIterator | LRangeIterator
| LBytesIterator | LListReverseIterator | LDictReverseKeyIterator
| LDictReverseValueIterator | LDictReverseItemIterator | LReversed.

Definition LazyKind_type_name (k : LazyKind) : string :=
  match k with
  | LGenerator => "generator" | LMap => "map" | LFilter => "filter" | LZip => "zip"
  | LEnumerate => "enumerate" | LChain => "chain" | LIslice => "islice"
  | LGroupby => "groupby" | LAccumulate => "accumulate" | LCombinations => "combinations"
  | LCombinationsWithReplacement => "combinations_with_replacement"
  | LPermutations => "permutations" | LProduct => "product" | LStarmap => "starmap"
  | LTakewhile => "takewhile" | LDropwhile => "dropwhile"
  | LFilterfalse => "filterfalse" | LCompress => "compress" | LPairwise => "pairwise"
  | LTee => "_tee" | LZipLongest => "zip_longest" | LBatched => "batched"
  | LTupleIterator => "tuple_iterator" | LStrAsciiIterator => "str_ascii_iterator"
  | LStrIterator => "str_iterator" | LSetIterator => "set_iterator"
  | LDictKeyIterator => "dict_keyiterator" | LDictValueIterator => "dict_valueiterator"
  | LDictItemIterator => "dict_itemiterator" | LRangeIterator => "range_iterator"
  | LBytesIterator => "bytes_iterator" | LListReverseIterator => "list_reverseiterator"
  | LDictReverseKeyIterator => "dict_reversekeyiterator"
  | LDictReverseValueIterator => "dict_reversevalueiterator"
  | LDictReverseItemIterator => "dict_reverseitemiterator" | LReversed => "reversed"
  end%string.

Inductive DictViewKind : Type := Keys | DValues | Items.

Definition DictViewKind_type_name (k : DictViewKind) : string :=
  match k with Keys => "dict_keys" | DValues => "dict_values" | Items => "dict_items" end%string.

Inductive EnumKind : Type := Plain | EInt | EStr | EFlag | EIntFlag.

Definition is_flag (k : EnumKind) : bool :=
  match k with EFlag | EIntFlag => true | _ => false end.

Record MatchGroup : Type := mkMatchGroup { mg_text : text; mg_start : Z; mg_end : Z }.
Record MatchValue : Type := mkMatchValue {
  mv_groups : list (option MatchGroup);
  mv_named : list (string * Z)
}.

Section Types.
Context {E : External}.

(** [Value], [ValueKey], [ExceptionValue] and the structs they box. An
    [Arc<Mutex<_>>] or [Arc<_>] payload is a location; an [IndexMap] or
    [BTreeMap] is the sequence of its entries. *)
Inductive Value : Type :=
| VNone | VNotImplemented | VEllipsis
| VBool (b : bool)
| VInt (i : Z)
| VBigInt (i : Z)
| VFloat (f : f64)
| VComplex (re im : f64)
| VString (s : text)
| VBytes (b : list Z)
| VByteArray (l : loc)
| VMemoryView (inner : Value)
| VStringIO (l : loc)
| VList (l : loc)
| VArray (typecode : Z) (items : loc)
| VTuple (items : list Value)
| VDict (l : loc)
| VOrderedDict (l : loc)
| VDictView (dict : loc) (kind : DictViewKind)
| VSet (l : loc)
| VFrozenset (l : loc)
| VFunction (f : loc)
| VCoroutine (func : loc) (args : list Value) (kwargs : list (string * Value)) (awaited : bool)
| VLambda (f : loc)
| VRange (start stop step : Z)
| VSlice (start stop step : Value)
| VException (e : ExceptionValue)
| VExceptionMethod (method : string) (exception : ExceptionValue)
| VLazyProxy (l : loc)
| VLazy (items : list Value) (cursor_id : Z) (kind : LazyKind)
| VGenerator (id : Z)
| VBuiltinIter (id : Z) (kind : BuiltinIterName)
| VType (name : string)
| VClass (name : string)
| VModule (name : string)
| VInstance (class_name : string) (fields : loc)
| VPartial (func : Value) (args : list Value) (keywords : list (string * Value))
| VOperatorGetter (g : OperatorGetter)
| VLruCache (l : loc)
| VSingleDispatch (l : loc)
| VModuleFunction (module name : string)
| VDate (d : NaiveDate)
| VDateTime (dt : NaiveDateTime) (tz_offset_secs : option Z)
| VTime (t : NaiveTime)
| VTimeDelta (micros : Z)
| VTimeZone (secs : Z)
| VHashDigest (algo : string) (bytes : list Z)
| VDeque (items : list Value) (maxlen : option Z)
| VDefaultDict (items : list (ValueKey * Value)) (factory : Value)
| VChainMap (maps : list Value)
| VTemplate (t : text)
| VEnumMember (class_name member_name : string) (value : Value) (kind : EnumKind)
| VReMatch (m : MatchValue)
| VRePattern (p : text)
| VSuper (defining_class : string) (class_name : string) (fields : loc)
| VSuperClass (defining_class class_name : string)
| VProperty (class_name name : string)
| VCounter (items : list (ValueKey * Value))
| VDecimal (d : BigDecimal) (kind : DecimalKind)
| VFraction (f : BigRational)
| VBoundMethod (receiver : BoundMethodReceiver) (method : string)
| VBuiltinTypeMethod (type_name method : string)
| VBuiltinName (name : string)
| VToolName (name : string)
| VExceptionType (name : string)
| VUnboundClassMethod (class method : string)
with ValueKey : Type :=
| KNone | KEllipsis
| KBool (b : bool)
| KInt (i : Z)
| KBigInt (i : Z)
| KFloat (f : f64)
| KComplex (re im : f64)
| KString (s : text)
| KTuple (items : list ValueKey)
| KFrozenset (items : list ValueKey)
| KInstance (hash : Z) (value : Value)
| KDate (d : NaiveDate)
| KTime (t : NaiveTime)
| KDateTime (dt : NaiveDateTime) (tz_offset_secs : option Z)
| KTimeDelta (micros : Z)
| KDecimal (d : BigDecimal)
| KFraction (f : BigRational)
with ExceptionValue : Type :=
| mkException (type_name : string) (message : text) (cause : option ExceptionValue)
    (args : list Value) (stamped_line : option Z)
    (exceptions : option (list ExceptionValue)) (fields : list (string * Value))
with OperatorGetter : Type :=
| ItemGetter (keys : list Value)
| AttrGetter (paths : list (list string))
| MethodCaller (name : string) (args : list Value) (kwargs : list (string * Value))
with BoundMethodReceiver : Type :=
| Snapshot (v : Value)
| Place (root : string) (steps : list BoundMethodStep)
with BoundMethodStep : Type :=
| StepIndex (v : Value)
| StepAttr (name : string).

Definition exc_type_name (e : ExceptionValue) : string :=
  match e with mkException t _ _ _ _ _ _ => t end.
Definition exc_message (e : ExceptionValue) : text :=
  match e with mkException _ m _ _ _ _ _ => m end.
Definition exc_args (e : ExceptionValue) : list Value :=
  match e with mkException _ _ _ a _ _ _ => a end.

Definition exc_exceptions (e : ExceptionValue) : option (list ExceptionValue) :=
  match e with mkException _ _ _ _ _ x _ => x end.
Definition exc_fields (e : ExceptionValue) : list (string * Value) :=
  match e with mkException _ _ _ _ _ _ f => f end.
Definition with_fields (e : ExceptionValue) (fields : list (string * Value)) : ExceptionValue :=
  match e with mkException t m c a l x _ => mkException t m c a l x fields end.

Definition ExceptionValue_new (type_name : string) (message : text) : ExceptionValue :=
  mkException type_name message None
    (match message with [] => [] | _ => [VString message] end) None None [].

Definition with_cause (e cause : ExceptionValue) : ExceptionValue :=
  match e with mkException t m _ a l x f => mkException t m (Some cause) a l x f end.

Definition with_args (e : ExceptionValue) (args : list Value) : ExceptionValue :=
  match e with mkException t m c _ l x f => mkException t m c args l x f end.

Definition index_error (kind : string) : ExceptionValue :=
  ExceptionValue_new "IndexError" (name_text (kind ++ " index out of range")).

Definition zero_division_error (message : string) : ExceptionValue :=
  ExceptionValue_new "ZeroDivisionError" (name_text message).

(** The shared allocations, one map per pointee type. *)
Record Heap : Type := mkHeap {
  lists : gmap loc (list Value);
  dicts : gmap loc (list (ValueKey * Value));
  sets : gmap loc (SetBody Value);
  bytearrays : gmap loc (list Z);
  stringios : gmap loc (text * Z);
  instance_fields : gmap loc (list (string * Value))
}.
Definition empty_heap : Heap := mkHeap ∅ ∅ ∅ ∅ ∅ ∅.

Definition list_at (h : Heap) (l : loc) : list Value := default [] (lists h !! l).
Definition dict_at (h : Heap) (l : loc) : list (ValueKey * Value) := default [] (dicts h !! l).
Definition set_at (h : Heap) (l : loc) : list Value :=
  default [] (body_iter_ordered <$> sets h !! l).
Definition bytes_at (h : Heap) (l : loc) : list Z := default [] (bytearrays h !! l).

Definition set_items (h : Heap) (v : Value) : option (list Value) :=
  match v with
  | VSet l => Some (set_at h l)
  | VFrozenset l => Some (set_at h l)
  | _ => None
  end.

Definition set_len (h : Heap) (v : Value) : option Z :=
  match v with
  | VSet l | VFrozenset l => Some (default 0 (body_len <$> sets h !! l))
  | _ => None
  end.

(** Allocation of a fresh shared container. *)
Definition shared_list (h : Heap) (xs : list Value) : loc * Heap :=
  let l := fresh (dom (lists h)) in
  (l, mkHeap (<[l := xs]> (lists h)) (dicts h) (sets h) (bytearrays h) (stringios h) (instance_fields h)).

Definition shared_dict (h : Heap) (m : list (ValueKey * Value)) : loc * Heap :=
  let l := fresh (dom (dicts h)) in
  (l, mkHeap (lists h) (<[l := m]> (dicts h)) (sets h) (bytearrays h) (stringios h) (instance_fields h)).

Definition shared_set (h : Heap) (b : SetBody Value) : loc * Heap :=
  let l := fresh (dom (sets h)) in
  (l, mkHeap (lists h) (dicts h) (<[l := b]> (sets h)) (bytearrays h) (stringios h) (instance_fields h)).

Definition shared_bytes (h : Heap) (bs : list Z) : loc * Heap :=
  let l := fresh (dom (bytearrays h)) in
  (l, mkHeap (lists h) (dicts h) (sets h) (<[l := bs]> (bytearrays h)) (stringios h) (instance_fields h)).

Definition as_dict (v : Value) : option loc :=
  match v with VDict l | VOrderedDict l => Some l | _ => None end.

(** * Integers: [i64] while it fits, [BigInt] beyond *)

Definition int_from_bigint (n : Z) : Value := if in_i64 n then VInt n else VBigInt n.

(** [BigInt::bits], the length of the magnitude in bits. *)
Definition bits (n : Z) : Z := if Z.abs n =? 0 then 0 else Z.log2 (Z.abs n) + 1.

Definition int_from_bigint_limited (n max_bits : Z) : Value + ExceptionValue :=
  if bits n >? max_bits
  then inr (ExceptionValue_new "OverflowError" (name_text ("int exceeds max_int_bits limit (" ++ pretty max_bits ++ " bits)")))
  else inl (int_from_bigint n).

Fixpoint value_as_bigint (v : Value) : option Z :=
  match v with
  | VInt i => Some i
  | VBigInt b => Some b
  | VBool b => Some (Z.b2z b)
  | VEnumMember _ _ value (EInt | EIntFlag) => value_as_bigint value
  | _ => None
  end.

Definition value_as_i64 (v : Value) : option Z :=
  match v with
  | VInt i => Some i
  | VBool b => Some (Z.b2z b)
  | VBigInt b => if in_i64 b then Some b else None
  | _ => None
  end.

Fixpoint is_truthy (h : Heap) (v : Value) : bool :=
  match v with
  | VNone | VNotImplemented => false
  | VEllipsis => true
  | VBool b => b
  | VInt i | VBigInt i => negb (i =? 0)
  | VFloat f => negb (f64_is_zero f)
  | VString s => negb (bool_decide (s = []))
  | VBytes b => negb (bool_decide (b = []))
  | VByteArray l => negb (bool_decide (bytes_at h l = []))
  | VMemoryView inner => is_truthy h inner
  | VList l | VArray _ l => negb (length (list_at h l) =? 0)%nat
  | VTuple t => negb (length t =? 0)%nat
  | VDict l | VOrderedDict l | VDictView l _ => negb (length (dict_at h l) =? 0)%nat
  | VSet l | VFrozenset l => negb (default 0 (body_len <$> sets h !! l) =? 0)
  | VCounter c => negb (length c =? 0)%nat
  | VTimeDelta micros => negb (micros =? 0)
  | VDeque items _ => negb (length items =? 0)%nat
  | VDefaultDict items _ => negb (length items =? 0)%nat
  | VChainMap maps => existsb (is_truthy h) maps
  | VEnumMember _ _ value _ => is_truthy h value
  | VDecimal d kind => is_special kind || negb (decimal_is_zero d)
  | VFraction f => negb (rational_numer f =? 0)
  | VComplex re im => negb (f64_is_zero re) || negb (f64_is_zero im)
  | VRange start stop step => if step >? 0 then start <? stop else start >? stop
  | VStringIO _ | VFunction _ | VLambda _ | VException _ | VExceptionMethod _ _ | VLazyProxy _
  | VType _ | VClass _ | VModule _ | VInstance _ _ | VModuleFunction _ _ | VDate _ | VReMatch _
  | VRePattern _ | VSlice _ _ _ | VSuper _ _ _ | VSuperClass _ _ | VProperty _ _ | VDateTime _ _
  | VTime _ | VTimeZone _ | VHashDigest _ _ | VBoundMethod _ _ | VBuiltinTypeMethod _ _
  | VBuiltinName _ | VToolName _ | VExceptionType _ | VUnboundClassMethod _ _ | VLazy _ _ _
  | VGenerator _ | VBuiltinIter _ _ | VPartial _ _ _ | VOperatorGetter _ | VLruCache _
  | VSingleDispatch _ | VTemplate _ | VCoroutine _ _ _ _ => true
  end.

Definition type_name (v : Value) : string :=
  match v with
  | VOperatorGetter (ItemGetter _) => "itemgetter"
  | VOperatorGetter (AttrGetter _) => "attrgetter"
  | VOperatorGetter (MethodCaller _ _ _) => "methodcaller"
  | VNone => "NoneType" | VNotImplemented => "NotImplementedType" | VEllipsis => "ellipsis"
  | VBool _ => "bool" | VInt _ | VBigInt _ => "int" | VFloat _ => "float"
  | VComplex _ _ => "complex" | VString _ => "str" | VBytes _ => "bytes"
  | VByteArray _ => "bytearray" | VMemoryView _ => "memoryview" | VArray _ _ => "array"
  | VList _ => "list" | VTuple _ => "tuple" | VDict _ => "dict"
  | VOrderedDict _ => "OrderedDict" | VSet _ => "set" | VFrozenset _ => "frozenset"
  | VStringIO _ => "StringIO" | VFunction _ | VLambda _ => "function"
  | VCoroutine _ _ _ _ => "coroutine" | VRange _ _ _ => "range"
  | VException _ => "Exception" | VExceptionMethod _ _ => "method"
  | VLazyProxy _ => "LazyProxy" | VType _ | VClass _ | VExceptionType _ => "type"
  | VModule _ => "module" | VInstance _ _ => "object"
  | VBuiltinTypeMethod _ m =>
      if bool_decide (m ∈ ["fromkeys"; "fromhex"; "from_bytes"; "maketrans"])
      then "builtin_function_or_method" else "method_descriptor"
  | VModuleFunction _ _ | VBoundMethod _ _ | VBuiltinName _ | VToolName _
  | VUnboundClassMethod _ _ => "builtin_function_or_method"
  | VDate _ => "date" | VReMatch _ => "re.Match" | VRePattern _ => "re.Pattern"
  | VSlice _ _ _ => "slice" | VSuper _ _ _ | VSuperClass _ _ => "super"
  | VProperty _ _ => "property" | VCounter _ => "Counter" | VDateTime _ _ => "datetime"
  | VTime _ => "time" | VTimeDelta _ => "timedelta" | VTimeZone _ => "timezone"
  | VHashDigest _ _ => "_hashlib.HASH" | VDeque _ _ => "deque"
  | VDefaultDict _ _ => "defaultdict" | VChainMap _ => "ChainMap"
  | VTemplate _ => "Template" | VDictView _ kind => DictViewKind_type_name kind
  | VEnumMember _ _ _ _ => "enum" | VDecimal _ _ => "Decimal" | VFraction _ => "Fraction"
  | VLazy _ _ kind => LazyKind_type_name kind | VGenerator _ => "generator"
  | VBuiltinIter _ kind => BuiltinIterName_type_name kind
  | VPartial _ _ _ => "functools.partial" | VLruCache _ => "functools._lru_cache_wrapper"
  | VSingleDispatch _ => "function"
  end%string.

Definition python_type_name (v : Value) : string :=
  match v with
  | VInstance class_name _ => class_name
  | VType n | VClass n | VModule n => n
  | other => type_name other
  end.
End Types.
