(* ===== verification/Text.v ===== *)
(** Sequences of characters and of bytes: what the string methods take from Rust's
    [str] and slices - searching, splitting, replacing, trimming, classes of
    characters - and the encodings of text. *)
From Stdlib Require Import ZArith Lia Ascii String.
From stdpp Require Import base tactics list numbers option strings pretty gmap.
From S2P Require Import Prelude PySet Values.

(** ** Searching *)

Fixpoint starts_with (pat s : list Z) : bool :=
  match pat, s with
  | [], _ => true
  | _, [] => false
  | p :: pat, c :: s => (p =? c) && starts_with pat s
  end.
Definition ends_with (pat s : list Z) : bool := starts_with (rev pat) (rev s).

(** [find]: the first position of an occurrence; [rfind]: the last. *)
Fixpoint find_sub (pat s : list Z) : option nat :=
  if starts_with pat s then Some 0%nat
  else match s with [] => None | _ :: s => S <$> find_sub pat s end.
Fixpoint rfind_sub (pat s : list Z) : option nat :=
  match s with
  | [] => if starts_with pat [] then Some 0%nat else None
  | _ :: s' =>
      match rfind_sub pat s' with
      | Some n => Some (S n)
      | None => if starts_with pat s then Some 0%nat else None
      end
  end.

Definition strip_prefix (pat s : list Z) : option (list Z) :=
  if starts_with pat s then Some (drop (length pat) s) else None.
Definition strip_suffix (pat s : list Z) : option (list Z) :=
  if ends_with pat s then Some (take (length s - length pat) s) else None.

(** ** Splitting

    The pieces between the leftmost non-overlapping occurrences of a separator that is
    not empty; at most [limit] of them when there is one. [skip] counts the rest of an
    occurrence. *)

Definition spare (limit : option Z) : bool := match limit with Some n => 0 <? n | None => true end.

Definition first_piece (c : Z) (pieces : list (list Z)) : list (list Z) :=
  match pieces with p :: ps => (c :: p) :: ps | [] => [[c]] end.

Fixpoint split_from (sep : list Z) (limit : option Z) (skip : nat) (s : list Z) : list (list Z) :=
  match s with
  | [] => [[]]
  | c :: s' =>
      match skip with
      | S skip => split_from sep limit skip s'
      | O =>
          if spare limit && starts_with sep s
          then [] :: split_from sep (Z.pred <$> limit) (length sep - 1) s'
          else first_piece c (split_from sep limit 0 s')
      end
  end.
Definition split_on (sep s : list Z) (limit : option Z) : list (list Z) := split_from sep limit 0 s.

(** From the right: the mirror image. *)
Definition rsplit_on (sep s : list Z) (limit : option Z) : list (list Z) :=
  rev (map (@rev Z) (split_on (rev sep) (rev s) limit)).

Fixpoint join (sep : list Z) (pieces : list (list Z)) : list Z :=
  match pieces with
  | [] => []
  | [p] => p
  | p :: pieces => p ++ sep ++ join sep pieces
  end.

(** [str::replacen]; an empty pattern matches before every character and at the
    end. *)
Fixpoint interleave (new : list Z) (limit : option Z) (s : list Z) : list Z :=
  if spare limit then
    new ++ match s with [] => [] | c :: s => c :: interleave new (Z.pred <$> limit) s end
  else s.
Fixpoint replace_from (old new : list Z) (limit : option Z) (skip : nat) (s : list Z) : list Z :=
  match s with
  | [] => []
  | c :: s' =>
      match skip with
      | S skip => replace_from old new limit skip s'
      | O =>
          if spare limit && starts_with old s
          then new ++ replace_from old new (Z.pred <$> limit) (length old - 1) s'
          else c :: replace_from old new limit 0 s'
      end
  end.
Definition replace_sub (old new s : list Z) (limit : option Z) : list Z :=
  match old with [] => interleave new limit s | _ => replace_from old new limit 0 s end.

(** The number of non-overlapping occurrences. *)
Fixpoint count_from (pat : list Z) (skip : nat) (s : list Z) : Z :=
  match s with
  | [] => 0
  | _ :: s' =>
      match skip with
      | S skip => count_from pat skip s'
      | O => if starts_with pat s then 1 + count_from pat (length pat - 1) s' else count_from pat 0 s'
      end
  end.
Definition count_sub (pat s : list Z) : Z :=
  match pat with [] => Z.of_nat (length s) + 1 | _ => count_from pat 0 s end.

(** ** Trimming *)

Fixpoint trim_start (p : Z -> bool) (s : list Z) : list Z :=
  match s with c :: s' => if p c then trim_start p s' else s | [] => [] end.
Definition trim_end (p : Z -> bool) (s : list Z) : list Z := rev (trim_start p (rev s)).
Definition trim (p : Z -> bool) (s : list Z) : list Z := trim_end p (trim_start p s).

(** ** Classes of characters *)

Definition between (a b c : Z) : bool := (a <=? c) && (c <=? b).

(** [char::is_whitespace]: Unicode's White_Space. *)
Definition is_whitespace (c : Z) : bool :=
  between 9 13 c || (c =? 32) || (c =? 133) || (c =? 160) || (c =? 5760) || between 8192 8202 c || (c =? 8232) ||
  (c =? 8233) || (c =? 8239) || (c =? 8287) || (c =? 12288).

Definition ascii_digit (c : Z) : bool := between 48 57 c.
Definition ascii_upper (c : Z) : bool := between 65 90 c.
Definition ascii_lower (c : Z) : bool := between 97 122 c.
Definition ascii_alpha (c : Z) : bool := ascii_upper c || ascii_lower c.
Definition ascii_alnum (c : Z) : bool := ascii_alpha c || ascii_digit c.
(** Rust's ASCII whitespace has no vertical tab. *)
Definition ascii_space (c : Z) : bool := (c =? 32) || (c =? 9) || (c =? 10) || (c =? 12) || (c =? 13).
Definition to_ascii_upper (c : Z) : Z := if ascii_lower c then c - 32 else c.
Definition to_ascii_lower (c : Z) : Z := if ascii_upper c then c + 32 else c.

(** The words of a text. *)
Fixpoint words_from (p : Z -> bool) (word : list Z) (s : list Z) : list (list Z) :=
  match s with
  | [] => match word with [] => [] | _ => [rev word] end
  | c :: s =>
      if p c then match word with [] => words_from p [] s | _ => rev word :: words_from p [] s end
      else words_from p (c :: word) s
  end.
Definition split_whitespace (s : list Z) : list (list Z) := words_from is_whitespace [] s.

(** ** Numerals *)

Definition hex_char (d : Z) : Z := if d <? 10 then 48 + d else 87 + d.
(** The last [n] hexadecimal digits. *)
Fixpoint hex_digits (n : nat) (z : Z) : list Z :=
  match n with
  | O => []
  | S n => hex_char (z / 16 ^ Z.of_nat n mod 16) :: hex_digits n z
  end.

Definition digit_value (c : Z) : option Z :=
  if between 48 57 c then Some (c - 48)
  else if between 97 102 c then Some (c - 87)
  else if between 65 70 c then Some (c - 55)
  else None.

(** ** UTF-8, UTF-16 and UTF-32 *)

Definition scalar (c : Z) : bool := between 0 55295 c || between 57344 1114111 c.

(** One step of [str::from_utf8]: a character and what follows it, or how many bytes
    are in error, [None] at an unexpected end. *)
Definition continuation (b : Z) : bool := between 128 191 b.
Definition second_ok (b0 b1 : Z) : bool :=
  if b0 =? 224 then between 160 191 b1 else if b0 =? 237 then between 128 159 b1
  else if b0 =? 240 then between 144 191 b1 else if b0 =? 244 then between 128 143 b1
  else continuation b1.

Definition utf8_next (b0 : Z) (rest : list Z) : (Z * list Z) + option nat :=
  if b0 <? 128 then inl (b0, rest)
  else if between 194 223 b0 then
    match rest with
    | [] => inr None
    | b1 :: rest => if continuation b1 then inl ((b0 - 192) * 64 + (b1 - 128), rest) else inr (Some 1%nat)
    end
  else if between 224 239 b0 then
    match rest with
    | [] => inr None
    | b1 :: rest =>
        if negb (second_ok b0 b1) then inr (Some 1%nat)
        else match rest with
        | [] => inr None
        | b2 :: rest =>
            if continuation b2 then inl (((b0 - 224) * 64 + (b1 - 128)) * 64 + (b2 - 128), rest) else inr (Some 2%nat)
        end
    end
  else if between 240 244 b0 then
    match rest with
    | [] => inr None
    | b1 :: rest =>
        if negb (second_ok b0 b1) then inr (Some 1%nat)
        else match rest with
        | [] => inr None
        | b2 :: rest =>
            if negb (continuation b2) then inr (Some 2%nat)
            else match rest with
            | [] => inr None
            | b3 :: rest =>
                if continuation b3
                then inl ((((b0 - 240) * 64 + (b1 - 128)) * 64 + (b2 - 128)) * 64 + (b3 - 128), rest)
                else inr (Some 3%nat)
            end
        end
    end
  else inr (Some 1%nat).

(** The whole of a byte string, in [fuel] steps: the text, or the position of the
    first error with its length. Bytes in error are handled by [on_error]. *)
Fixpoint from_utf8 (fuel : nat) (pos : nat) (b : list Z) : text + (nat * option nat) :=
  match fuel, b with
  | _, [] => inl []
  | O, _ => inr (pos, None)
  | S fuel, b0 :: rest =>
      match utf8_next b0 rest with
      | inl (c, rest') =>
          match from_utf8 fuel (pos + (length b - length rest')) rest' with
          | inl s => inl (c :: s)
          | inr e => inr e
          end
      | inr e => inr (pos, e)
      end
  end.
Definition utf8_of_bytes (b : list Z) : text + (nat * option nat) := from_utf8 (length b) 0 b.

(** Errors replaced by [mark]. *)
Fixpoint utf8_marking (mark : text) (fuel : nat) (b : list Z) : text :=
  match fuel, b with
  | _, [] => []
  | O, _ => []
  | S fuel, b0 :: rest =>
      match utf8_next b0 rest with
      | inl (c, rest') => c :: utf8_marking mark fuel rest'
      | inr (Some n) => mark ++ utf8_marking mark fuel (drop n b)
      | inr None => mark
      end
  end.
Definition utf8_lossy_text (b : list Z) : text := utf8_marking [65533] (length b) b.

Definition utf8_encode (s : text) : list Z := flat_map utf8_bytes s.

Definition le2 (u : Z) : list Z := [u mod 256; u / 256].
Definition be2 (u : Z) : list Z := [u / 256; u mod 256].
Definition le4 (u : Z) : list Z := [u mod 256; u / 256 mod 256; u / 65536 mod 256; u / 16777216].
Definition be4 (u : Z) : list Z := rev (le4 u).

Definition utf16_units (c : Z) : list Z :=
  if c <? 65536 then [c] else [55296 + (c - 65536) / 1024; 56320 + (c - 65536) mod 1024].
Definition utf16_encode (little : bool) (s : text) : list Z := flat_map (if little then le2 else be2) (flat_map utf16_units s).
Definition utf32_encode (little : bool) (s : text) : list Z := flat_map (if little then le4 else be4) s.

(** [chunks_exact] as units. *)
Fixpoint units2 (little : bool) (b : list Z) : list Z :=
  match b with
  | x :: y :: b => (if little then x + 256 * y else 256 * x + y) :: units2 little b
  | _ => []
  end.
Fixpoint units4 (little : bool) (b : list Z) : list Z :=
  match b with
  | x :: y :: z :: w :: b =>
      (if little then x + 256 * (y + 256 * (z + 256 * w)) else ((x * 256 + y) * 256 + z) * 256 + w) :: units4 little b
  | _ => []
  end.

(** [String::from_utf16]: an unpaired surrogate is an error. *)
Fixpoint from_utf16 (units : list Z) : option text :=
  match units with
  | [] => Some []
  | u :: units =>
      if between 55296 56319 u then
        match units with
        | v :: units => if between 56320 57343 v then cons (65536 + (u - 55296) * 1024 + (v - 56320)) <$> from_utf16 units else None
        | [] => None
        end
      else if between 56320 57343 u then None
      else cons u <$> from_utf16 units
  end.

Definition from_utf32 (units : list Z) : option text := if forallb scalar units then Some units else None.

(** Byte order marks. *)
Definition bom16 (b : list Z) : bool * list Z :=
  match b with
  | 255 :: 254 :: rest => (true, rest)
  | 254 :: 255 :: rest => (false, rest)
  | _ => (true, b)
  end.
Definition bom32 (b : list Z) : bool * list Z :=
  match b with
  | 255 :: 254 :: 0 :: 0 :: rest => (true, rest)
  | 0 :: 0 :: 254 :: 255 :: rest => (false, rest)
  | _ => (true, b)
  end.
