(* ===== verification/Errors.v ===== *)
(** Errors ([error.rs]) and the outcome of a Rust call: a value, an error value,
    or a panic. *)
From Stdlib Require Import ZArith Lia Ascii String.
From stdpp Require Import base tactics list numbers option strings pretty.
From S2P Require Import Prelude PySet Values.

Inductive InterpreterError : Type :=
| Syntax (message : string)
| Security (message : string)
| Runtime (message : string)
| LimitExceeded (message : string)
| RecursionLimitExceeded (limit : Z)
| ToolError (tool_name message : string)
| NameError (message : string)
| TypeError (message : string)
| ValueError (message : string)
| AttributeError (message : string)
| AssertionError (message : string)
| PythonException (type_name message : string)
| StateFormatSuperseded (found expected : Z).

Definition name_not_defined (name : string) : InterpreterError :=
  NameError ("name '" ++ name ++ "' is not defined").

Inductive ControlFlow `{External} : Type :=
| Break
| Continue
| Return (v : Value)
| Yield (v : Value).

Inductive EvalError `{External} : Type :=
| Interpreter (e : InterpreterError)
| Signal (c : ControlFlow)
| Exception (e : ExceptionValue).

(** What a Rust function returning [Result<A, E>] can do. *)
Inductive Outcome (E A : Type) : Type :=
| Ok (a : A)
| Err (e : E)
| Panic.
Arguments Ok {E A} a.
Arguments Err {E A} e.
Arguments Panic {E A}.

#[export] Instance Outcome_ret {E} : MRet (Outcome E) := fun A a => Ok a.
#[export] Instance Outcome_bind {E} : MBind (Outcome E) := fun A B f m =>
  match m with Ok a => f a | Err e => Err e | Panic => Panic end.
#[export] Instance Outcome_fmap {E} : FMap (Outcome E) := fun A B f m =>
  match m with Ok a => Ok (f a) | Err e => Err e | Panic => Panic end.

(** A partial step ([None] is a Rust panic) inside a fallible one. *)
Definition or_panic {E A} (o : option A) : Outcome E A :=
  match o with Some a => Ok a | None => Panic end.

Abbreviation EvalResult A := (Outcome EvalError A).

Section Raise.
Context `{External}.
Definition raise {A} (type_name message : string) : EvalResult A :=
  Err (Exception (ExceptionValue_new type_name (name_text message))).
Definition fail {A} (e : InterpreterError) : EvalResult A := Err (Interpreter e).
Definition zero_division {A} (message : string) : EvalResult A :=
  Err (Exception (zero_division_error message)).
End Raise.

Lemma bind_Ok {E A B} (m : Outcome E A) (f : A -> Outcome E B) b :
  (m ≫= f) = Ok b <-> exists a, m = Ok a /\ f a = Ok b.
Proof. destruct m; simpl; split; try (intros (a' & E1 & E2)); naive_solver. Qed.
