(* ===== verification/F64.v ===== *)
(** The binary64 operations the interpreter uses, on the Standard Library's
    exact model of floating-point numbers: Rust's [+], [-], [*], [/],
    comparisons, [floor], [trunc], [mul_add] and the conversions to and from
    integers. *)
From Stdlib Require Import ZArith Lia SpecFloat.
From stdpp Require Import base tactics list numbers option.
From S2P Require Import Prelude PySet Values.

Definition f64_add : f64 -> f64 -> f64 := SFadd 53 1024.
Definition f64_sub : f64 -> f64 -> f64 := SFsub 53 1024.
Definition f64_mul : f64 -> f64 -> f64 := SFmul 53 1024.
Definition f64_div : f64 -> f64 -> f64 := SFdiv 53 1024.
Definition f64_neg : f64 -> f64 := SFopp.
Definition f64_eqb : f64 -> f64 -> bool := SFeqb.
Definition f64_ltb : f64 -> f64 -> bool := SFltb.
Definition f64_leb : f64 -> f64 -> bool := SFleb.
Definition f64_nan : f64 := S754_nan.
Definition f64_zero : f64 := S754_zero false.
Definition f64_inf (s : bool) : f64 := S754_infinity s.

Definition f64_is_nan (f : f64) : bool := match f with S754_nan => true | _ => false end.
Definition f64_is_finite (f : f64) : bool :=
  match f with S754_zero _ | S754_finite _ _ _ => true | _ => false end.

(** Sign-and-magnitude value of a finite float: [m * 2 ^ e]. *)
Definition signed (s : bool) (m : positive) : Z := if s then Zneg m else Zpos m.

(** [f64::trunc] then an exact integer; [None] for infinities and NaN. *)
Definition f64_trunc_Z (f : f64) : option Z :=
  match f with
  | S754_zero _ => Some 0
  | S754_finite s m e => Some (if 0 <=? e then signed s m * 2 ^ e else Z.quot (signed s m) (2 ^ (- e)))
  | _ => None
  end.

(** [f64::fract() == 0.0] for a finite float. *)
Definition f64_integral (f : f64) : bool :=
  match f with
  | S754_zero _ => true
  | S754_finite s m e => (0 <=? e) || (Z.rem (Zpos m) (2 ^ (- e)) =? 0)
  | _ => false
  end.

(** [f64::floor]. A zero result keeps the operand's sign. *)
Definition f64_floor (f : f64) : f64 :=
  match f with
  | S754_finite s m e =>
      if 0 <=? e then f
      else let n := Z.div (signed s m) (2 ^ (- e)) in
           if n =? 0 then S754_zero s else f64_of_Z n
  | _ => f
  end.

(** [f as i64]: truncation, saturating at the bounds, NaN to 0. *)
Definition f64_as_i64 (f : f64) : Z :=
  match f with
  | S754_nan => 0
  | S754_infinity s => if s then i64_min else i64_max
  | _ => match f64_trunc_Z f with
         | Some n => Z.max i64_min (Z.min i64_max n)
         | None => 0
         end
  end.

(** [a.mul_add(b, c)]: [a * b + c] with one rounding. *)
Definition f64_fma (a b c : f64) : f64 :=
  match a, b, c with
  | S754_nan, _, _ | _, S754_nan, _ | _, _, S754_nan => S754_nan
  | S754_infinity _, _, _ | _, S754_infinity _, _ => f64_add (f64_mul a b) c
  | _, _, S754_infinity _ => c
  | S754_zero _, _, _ | _, S754_zero _, _ => f64_add (f64_mul a b) c
  | S754_finite sa ma ea, S754_finite sb mb eb, c =>
      let p := signed sa ma * signed sb mb in
      let ep := ea + eb in
      match c with
      | S754_finite sc mc ec =>
          let e := Z.min ep ec in
          binary_normalize 53 1024 (p * 2 ^ (ep - e) + signed sc mc * 2 ^ (ec - e)) e false
      | _ => binary_normalize 53 1024 p ep false
      end
  end.

(** [f64::to_bits], with the one NaN as the quiet NaN. *)
Definition f64_to_bits (f : f64) : Z :=
  match f with
  | S754_zero s => if s then 2 ^ 63 else 0
  | S754_infinity s => (if s then 2 ^ 63 else 0) + 2047 * 2 ^ 52
  | S754_nan => 2047 * 2 ^ 52 + 2 ^ 51
  | S754_finite s m e =>
      (if s then 2 ^ 63 else 0) +
      (if Zpos m <? 2 ^ 52 then Zpos m else (e + 1075) * 2 ^ 52 + (Zpos m - 2 ^ 52))
  end.

Example f64_examples :
  f64_to_bits (f64_of_Z 1) = 4607182418800017408 /\
  f64_floor (f64_div (f64_of_Z (-7)) (f64_of_Z 2)) = f64_of_Z (-4) /\
  f64_as_i64 (f64_of_Z (2 ^ 63)) = i64_max.
Proof. by vm_compute. Qed.
