(* ===== verification/FloatText.v ===== *)
(** Numbers as text: digits in a base, the exact decimal forms [{:.p}] and [{:.p$e}] of
    a float, its shortest decimal form [{}] and [{:e}] (Rust's [fmt]), and the forms
    the program makes of them (value.rs, eval/strings.rs). Then what the decimals shown
    for a float are: the shortest one lies in the rounding interval of the float, has at
    most 17 digits, and no decimal of fewer digits does; the fixed ones are the exact
    value rounded half to even. *)
From Stdlib Require Import ZArith Lia Ascii String SpecFloat ssreflect.
From stdpp Require Import base tactics list numbers option strings.
From S2P Require Import Prelude PySet Values Text F64.

(** ** Digits *)

Fixpoint digits_from (fuel : nat) (base z : Z) (acc : text) : text :=
  match fuel with
  | O => acc
  | S fuel =>
      let acc := hex_char (z mod base) :: acc in
      if z / base =? 0 then acc else digits_from fuel base (z / base) acc
  end.
(** A number that is not negative; one digit at least. *)
Definition digits (base z : Z) : text := digits_from (S (Z.to_nat (Z.log2 z))) base z [].

Definition minus : text := [45].
Definition int_text (z : Z) : text := if z <? 0 then minus ++ digits 10 (- z) else digits 10 z.

Definition zeros (n : nat) : text := replicate n 48.
(** At least [n] digits. *)
Definition padded_digits (n : nat) (z : Z) : text := let ds := digits 10 z in zeros (n - length ds) ++ ds.

(** ** Exact decimals *)

Definition round_half_even (num den : Z) : Z :=
  let q := num / den in
  let r := num mod den in
  if 2 * r <? den then q else if den <? 2 * r then q + 1 else if Z.even q then q else q + 1.

(** [m * 2 ^ e * 10 ^ j] as a fraction. *)
Definition scaled (m e j : Z) : Z * Z := (m * 2 ^ Z.max e 0 * 10 ^ Z.max j 0, 2 ^ Z.max (- e) 0 * 10 ^ Z.max (- j) 0).

(** The [x] with [10 ^ x <= num / den < 10 ^ (x + 1)]. *)
Definition decimal_exponent (num den : Z) : Z :=
  if den <=? num then Z.of_nat (length (digits 10 (num / den))) - 1
  else - Z.of_nat (length (digits 10 ((den - 1) / num))).

(** The point in a number of [p] decimals. *)
Definition with_point (p : nat) (n : Z) : text :=
  digits 10 (n / 10 ^ Z.of_nat p) ++ match p with O => [] | _ => [46] ++ padded_digits p (n mod 10 ^ Z.of_nat p) end.

Definition sign_text (s : bool) : text := if s then minus else [].

(** [format!("{f:.p$}")]. *)
Definition fixed_text (p : nat) (f : f64) : text :=
  match f with
  | S754_nan => lit "NaN"
  | S754_infinity s => sign_text s ++ lit "inf"
  | S754_zero s => sign_text s ++ with_point p 0
  | S754_finite s m e =>
      let (num, den) := scaled (Zpos m) e (Z.of_nat p) in sign_text s ++ with_point p (round_half_even num den)
  end.

(** The [p + 1] significant digits of a float and its exponent, after rounding. *)
Definition significant (p : nat) (m : positive) (e : Z) : Z * Z :=
  let (num, den) := scaled (Zpos m) e 0 in
  let x := decimal_exponent num den in
  let (num, den) := scaled (Zpos m) e (Z.of_nat p - x) in
  let d := round_half_even num den in
  if d =? 10 ^ (Z.of_nat p + 1) then (10 ^ Z.of_nat p, x + 1) else (d, x).

(** [d.ddd], the digits of a mantissa. *)
Definition mantissa_text (ds : text) : text :=
  match ds with c :: (_ :: _) as rest => c :: 46 :: rest | _ => ds end.

(** [format!("{f:.p$e}")]: the mantissa and the exponent around an [e]. *)
Definition scientific_parts (p : nat) (f : f64) : (text * Z) + text :=
  match f with
  | S754_nan => inr (lit "NaN")
  | S754_infinity s => inr (sign_text s ++ lit "inf")
  | S754_zero s => inl (sign_text s ++ mantissa_text (zeros (S p)), 0)
  | S754_finite s m e => let (d, x) := significant p m e in inl (sign_text s ++ mantissa_text (digits 10 d), x)
  end.

(** ** The shortest decimal

    Rust's [flt2dec]: the rounding interval of a float, whose ends belong to it when
    the mantissa is even, and the shortest decimal inside. [mant], [minus] and [plus]
    are in units of [2 ^ exp]. *)
Record Decoded : Type := mkDecoded { mant : Z; gap_below : Z; gap_above : Z; exp : Z; inclusive : bool }.

(** The mantissa of a subnormal is shifted, so it is always even. *)
Definition decoded (m : positive) (e : Z) : Decoded :=
  let inclusive := (Zpos m <? 2 ^ 52) || Z.even (Zpos m) in
  if Zpos m =? 2 ^ 52 then mkDecoded (4 * Zpos m) 1 2 (e - 2) inclusive
  else mkDecoded (2 * Zpos m) 1 1 (e - 1) inclusive.

Definition inside (inclusive : bool) (a b : Z) : bool := (a <? b) || (inclusive && (a =? b)).

(** The candidate of [n] digits at the decimal exponent [x]. *)
Definition candidate (d : Decoded) (x n : Z) : option Z :=
  let j := n - 1 - x in
  let (num, den) := scaled (mant d) (exp d) j in
  let unit := (scaled 1 (exp d) j).1 in
  let q := num / den in
  let rem := num mod den in
  let down := inside (inclusive d) rem (gap_below d * unit) in
  let up := inside (inclusive d) den (rem + gap_above d * unit) in
  if up && (negb down || (den <=? 2 * rem)) then Some (q + 1) else if down then Some q else None.

Fixpoint shortest_from (fuel : nat) (d : Decoded) (x n : Z) : Z * Z :=
  match fuel with
  | O => (0, 0)
  | S fuel => match candidate d x n with Some c => (c, x + 1 - n) | None => shortest_from fuel d x (n + 1) end
  end.
(** A decimal [c * 10 ^ k]: 17 digits are enough. *)
Definition shortest (m : positive) (e : Z) : Z * Z :=
  let d := decoded m e in
  let (num, den) := scaled (mant d) (exp d) 0 in
  shortest_from 17 d (decimal_exponent num den) 1.

(** Without the zeros at the end. *)
Fixpoint strip_zeros (fuel : nat) (c k : Z) : Z * Z :=
  match fuel with
  | O => (c, k)
  | S fuel => if c mod 10 =? 0 then strip_zeros fuel (c / 10) (k + 1) else (c, k)
  end.

(** The digits of the shortest decimal and the exponent of the first. *)
Definition shortest_digits (m : positive) (e : Z) : text * Z :=
  let (c, k) := shortest m e in
  let (c, k) := strip_zeros 18 c k in
  let ds := digits 10 c in (ds, k + Z.of_nat (length ds) - 1).

(** Digits with the exponent [x] of the first, in positional form. *)
Definition positional (ds : text) (x : Z) : text :=
  let n := Z.of_nat (length ds) in
  if x <? 0 then lit "0." ++ zeros (Z.to_nat (- x - 1)) ++ ds
  else if n <=? x + 1 then ds ++ zeros (Z.to_nat (x + 1 - n))
  else take (Z.to_nat (x + 1)) ds ++ [46] ++ drop (Z.to_nat (x + 1)) ds.

(** [{exponent:+03}]. *)
Definition exponent_text (x : Z) : text := [if x <? 0 then 45 else 43] ++ padded_digits 2 (Z.abs x).

(** [write_python_float]. *)
Definition python_float (f : f64) : text :=
  match f with
  | S754_nan => lit "nan"
  | S754_infinity s => sign_text s ++ lit "inf"
  | S754_zero s => sign_text s ++ lit "0.0"
  | S754_finite s m e =>
      let (ds, x) := shortest_digits m e in
      if (x <? -4) || (16 <=? x) then sign_text s ++ mantissa_text ds ++ lit "e" ++ exponent_text x
      else if f64_integral f then fixed_text 1 f
      else sign_text s ++ positional ds x
  end.

(** [format_complex_component]: a whole number has no [.0]. *)
Definition format_complex_component (f : f64) : text :=
  match f with
  | S754_nan => lit "nan"
  | S754_infinity s => sign_text s ++ lit "inf"
  | S754_zero s => sign_text s ++ lit "0"
  | S754_finite s m e =>
      let (ds, x) := shortest_digits m e in
      sign_text s ++
      (if (x <? -4) || (16 <=? x) then mantissa_text ds ++ lit "e" ++ exponent_text x else positional ds x)
  end.

Definition is_sign_negative (f : f64) : bool :=
  match f with S754_zero s | S754_infinity s | S754_finite s _ _ => s | S754_nan => false end.
Definition f64_abs : f64 -> f64 := SFabs.

(** [format_complex]. *)
Definition format_complex (re im : f64) : text :=
  match re with
  | S754_zero false => format_complex_component im ++ lit "j"
  | _ =>
      lit "(" ++ format_complex_component re ++ (if is_sign_negative im then lit "-" else lit "+") ++
      format_complex_component (f64_abs im) ++ lit "j)"
  end.

Example float_texts :
  python_float (f64_div (f64_of_Z 1) (f64_of_Z 10)) = lit "0.1" /\
  python_float (f64_of_Z (10 ^ 23)) = lit "1e+23" /\
  python_float (f64_div (f64_of_Z 1) (f64_of_Z (2 ^ 44))) = lit "5.684341886080802e-14" /\
  python_float (S754_finite false 1 (-1074)) = lit "5e-324" /\
  python_float (f64_of_Z (-150)) = lit "-150.0" /\
  python_float (f64_div (f64_of_Z 12345) (f64_of_Z 100)) = lit "123.45" /\
  fixed_text 2 (f64_div (f64_of_Z 5) (f64_of_Z 8)) = lit "0.62" /\
  fixed_text 0 (f64_div (f64_of_Z 5) (f64_of_Z 2)) = lit "2" /\
  format_complex (f64_of_Z 1) (f64_of_Z (-2)) = lit "(1-2j)".
Proof. by vm_compute. Qed.

(** ** Digits *)

Lemma pow_pos b n : 0 < b → 0 < b ^ Z.max n 0.
Proof. intros. apply Z.pow_pos_nonneg; lia. Qed.
#[local] Hint Resolve pow_pos : core.

Lemma digits_from_length base : 1 < base → ∀ fuel z acc, 0 < z → z < 2 ^ Z.of_nat fuel →
  ∃ n, length (digits_from fuel base z acc) = (length acc + S n)%nat ∧ base ^ Z.of_nat n <= z < base ^ Z.of_nat (S n).
Proof.
  intros Hbase. induction fuel as [|fuel IH]; intros z acc Hz Hfuel; [cbn in Hfuel; lia|].
  rw Nat2Z.inj_succ Z.pow_succ_r in Hfuel; [lia|]. cbn [digits_from].
  pose proof (Z.div_mod z base ltac:(lia)) as Hdiv. pose proof (Z.mod_pos_bound z base ltac:(lia)) as Hmod.
  destruct (Z.eqb_spec (z / base) 0) as [E|E].
  - exists 0%nat. cbn [length]. split; [lia|]. rw Z.pow_0_r Z.pow_1_r. lia.
  - assert (0 <= z / base) by (apply Z.div_pos; lia).
    destruct (IH (z / base) (hex_char (z mod base) :: acc)) as (n & Hn & Hlow & Hhigh); [lia|nia|].
    exists (S n). rw Hn. cbn [length]. split; [lia|].
    rw (Nat2Z.inj_succ (S n)) Z.pow_succ_r; [lia|]. rw Nat2Z.inj_succ Z.pow_succ_r; [lia|].
    rw Nat2Z.inj_succ Z.pow_succ_r in Hhigh; [lia|]. nia.
Qed.

(** The number of digits is the place of the number among the powers of the base. *)
Lemma digits_length base z : 1 < base → 0 < z →
  ∃ n, length (digits base z) = S n ∧ base ^ Z.of_nat n <= z < base ^ Z.of_nat (S n).
Proof.
  intros Hbase Hz. unfold digits. destruct (digits_from_length base Hbase (S (Z.to_nat (Z.log2 z))) z []) as (n & Hn & H); [done| |by exists n].
  rw Nat2Z.inj_succ Z2Nat.id; [apply Z.log2_nonneg|]. by apply Z.log2_spec.
Qed.

(** ** Decimals and binary fractions

    [c * 10 ^ k <= m * 2 ^ e], with the powers whose exponents are negative on the
    other side; and [<]. *)
Definition dec_side (c k e : Z) : Z := c * 10 ^ Z.max k 0 * 2 ^ Z.max (- e) 0.
Definition bin_side (m e k : Z) : Z := m * 2 ^ Z.max e 0 * 10 ^ Z.max (- k) 0.
Definition dec_le (c k m e : Z) : Prop := dec_side c k e <= bin_side m e k.
Definition dec_lt (c k m e : Z) : Prop := dec_side c k e < bin_side m e k.

(** The rounding interval: the decimals nearer to the float than to its neighbours, with
    its ends when ties go to the float. *)
Definition in_interval (d : Decoded) (c k : Z) : Prop :=
  if inclusive d
  then ¬ dec_lt c k (mant d - gap_below d) (exp d) ∧ dec_le c k (mant d + gap_above d) (exp d)
  else ¬ dec_le c k (mant d - gap_below d) (exp d) ∧ dec_lt c k (mant d + gap_above d) (exp d).

(** Decides the exponents whose sign is known. *)
Ltac known_signs :=
  repeat match goal with
  | |- context [Z.max ?a 0] => first [replace (Z.max a 0) with a by lia | replace (Z.max a 0) with 0 by lia]
  end; rw ?Z.pow_0_r.

(** Moving zeros between the digits and the exponent: both sides are multiplied by the
    same powers of ten. *)
Lemma shift_sides c k m e t : 0 <= t → ∃ a b, 0 < a ∧ 0 < b ∧
  a * dec_side (c * 10 ^ t) k e = b * dec_side c (k + t) e ∧ a * bin_side m e k = b * bin_side m e (k + t).
Proof.
  intros Ht. unfold dec_side, bin_side. destruct (Z.le_gt_cases 0 k); [|destruct (Z.le_gt_cases 0 (k + t))].
  - exists 1, 1. do 2 (split; [lia|]). known_signs. rw Z.pow_add_r; [lia..|]. lia.
  - exists 1, (10 ^ (- k)). split; [lia|]. split; [apply Z.pow_pos_nonneg; lia|]. known_signs.
    replace (10 ^ t) with (10 ^ (- k) * 10 ^ (k + t)) by (rw -Z.pow_add_r; [lia..|]; f_equal; lia). lia.
  - exists 1, (10 ^ t). split; [lia|]. split; [apply Z.pow_pos_nonneg; lia|]. known_signs.
    replace (10 ^ (- k)) with (10 ^ t * 10 ^ (- (k + t))) by (rw -Z.pow_add_r; [lia..|]; f_equal; lia). lia.
Qed.

Lemma dec_le_shift c k m e t : 0 <= t → dec_le (c * 10 ^ t) k m e ↔ dec_le c (k + t) m e.
Proof. intros Ht. unfold dec_le. destruct (shift_sides c k m e t Ht) as (a & b & Ha & Hb & Hd & Hm). nia. Qed.
Lemma dec_lt_shift c k m e t : 0 <= t → dec_lt (c * 10 ^ t) k m e ↔ dec_lt c (k + t) m e.
Proof. intros Ht. unfold dec_lt. destruct (shift_sides c k m e t Ht) as (a & b & Ha & Hb & Hd & Hm). nia. Qed.

Lemma in_interval_shift d c k t : 0 <= t → in_interval d (c * 10 ^ t) k ↔ in_interval d c (k + t).
Proof. intros Ht. unfold in_interval. by destruct (inclusive d); rw ?(dec_le_shift _ _ _ _ _ Ht) ?(dec_lt_shift _ _ _ _ _ Ht). Qed.

Lemma dec_side_mono c c' k e : c <= c' → dec_side c k e <= dec_side c' k e.
Proof.
  intros Hc. unfold dec_side. pose proof (pow_pos 10 k ltac:(lia)). pose proof (pow_pos 2 (- e) ltac:(lia)).
  rw -!Z.mul_assoc. apply Z.mul_le_mono_nonneg_r; nia.
Qed.

(** ** The exponent of the first digit *)

Lemma scaled_sides m e j : scaled m e j = (bin_side m e (- j), dec_side 1 (- j) e).
Proof. unfold scaled, bin_side, dec_side. rw Z.opp_involutive. f_equal. lia. Qed.

Lemma decimal_exponent_spec num den : 0 < num → 0 < den →
  let x := decimal_exponent num den in
  den * 10 ^ Z.max x 0 <= num * 10 ^ Z.max (- x) 0 ∧ num * 10 ^ Z.max (- (x + 1)) 0 < den * 10 ^ Z.max (x + 1) 0.
Proof.
  intros Hnum Hden. unfold decimal_exponent. destruct (Z.leb_spec den num) as [Hle|Hlt].
  - assert (0 < num / den) as Hq by (apply Z.div_str_pos; lia).
    destruct (digits_length 10 (num / den) ltac:(lia) Hq) as (n & -> & Hlow & Hhigh).
    pose proof (Z.div_mod num den ltac:(lia)) as Hdiv. pose proof (Z.mod_pos_bound num den Hden) as Hmod.
    replace (Z.of_nat (S n) - 1) with (Z.of_nat n) by lia. replace (Z.of_nat n + 1) with (Z.of_nat (S n)) by lia.
    known_signs. nia.
  - assert (0 < (den - 1) / num) as Hq by (apply Z.div_str_pos; lia).
    destruct (digits_length 10 ((den - 1) / num) ltac:(lia) Hq) as (n & -> & Hlow & Hhigh).
    pose proof (Z.div_mod (den - 1) num ltac:(lia)) as Hdiv. pose proof (Z.mod_pos_bound (den - 1) num Hnum) as Hmod.
    replace (- - Z.of_nat (S n)) with (Z.of_nat (S n)) by lia.
    replace (- (- Z.of_nat (S n) + 1)) with (Z.of_nat n) by lia.
    known_signs. nia.
Qed.

(** ** Candidates *)

Lemma dec_side_scale c k e : dec_side c k e = c * dec_side 1 k e.
Proof. unfold dec_side. lia. Qed.
Lemma bin_side_scale m e k : bin_side m e k = m * bin_side 1 e k.
Proof. unfold bin_side. lia. Qed.
Lemma dec_side_pos k e : 0 < dec_side 1 k e.
Proof. unfold dec_side. pose proof (pow_pos 10 k ltac:(lia)). pose proof (pow_pos 2 (- e) ltac:(lia)). nia. Qed.
Lemma bin_side_pos e k : 0 < bin_side 1 e k.
Proof. unfold bin_side. pose proof (pow_pos 2 e ltac:(lia)). pose proof (pow_pos 10 (- k) ltac:(lia)). nia. Qed.

(** What is decoded of a float. *)
Record decoded_well (d : Decoded) : Prop := {
  dw_mant : 0 < mant d;
  dw_below : 0 < gap_below d;
  dw_above : 0 < gap_above d;
  dw_precise : mant d < 10 ^ 16 * (gap_below d + gap_above d)
}.

Lemma decoded_is_well m e : Zpos m < 2 ^ 53 → decoded_well (decoded m e).
Proof.
  intros Hm. unfold decoded. destruct (Z.eqb_spec (Zpos m) (2 ^ 52)) as [E|E]; split; cbn [mant gap_below gap_above]; lia.
Qed.

Section Candidates.
Variable d : Decoded.
Hypothesis well : decoded_well d.
Variable x : Z.
Hypothesis at_least : dec_le 1 x (mant d) (exp d).
Hypothesis below : ¬ dec_le 1 (x + 1) (mant d) (exp d).

(** The unit of the last of [n] digits, and the float and its gaps in it. *)
Abbreviation place n := (x + 1 - n).
Abbreviation bin n := (bin_side 1 (exp d) (place n)).
Abbreviation dec n := (dec_side 1 (place n) (exp d)).
Abbreviation floor n := (mant d * bin n / dec n).

Lemma interval_sides n c :
  in_interval d c (place n) ↔
    if inclusive d
    then (mant d - gap_below d) * bin n <= c * dec n <= (mant d + gap_above d) * bin n
    else (mant d - gap_below d) * bin n < c * dec n < (mant d + gap_above d) * bin n.
Proof.
  unfold in_interval, dec_le, dec_lt. rw (dec_side_scale c) (bin_side_scale (_ - _)) (bin_side_scale (_ + _)).
  destruct (inclusive d); lia.
Qed.

Lemma candidate_cases n :
  candidate d x n =
    (let rem := mant d * bin n mod dec n in
     let down := inside (inclusive d) rem (gap_below d * bin n) in
     let up := inside (inclusive d) (dec n) (rem + gap_above d * bin n) in
     if up && (negb down || (dec n <=? 2 * rem)) then Some (floor n + 1) else if down then Some (floor n) else None).
Proof.
  unfold candidate. rw !scaled_sides. cbn [fst]. replace (- (n - 1 - x)) with (place n) by lia.
  by rw (bin_side_scale (mant d)).
Qed.

Lemma candidate_sound n c : candidate d x n = Some c → in_interval d c (place n) ∧ floor n <= c <= floor n + 1.
Proof.
  rw candidate_cases interval_sides. cbv zeta. unfold inside.
  pose proof (bin_side_pos (exp d) (place n)) as Hbin. pose proof (dec_side_pos (place n) (exp d)) as Hdec.
  pose proof (Z.div_mod (mant d * bin n) (dec n) ltac:(lia)) as Hdiv.
  pose proof (Z.mod_pos_bound (mant d * bin n) (dec n) Hdec) as Hmod. destruct well.
  set (q := floor n) in *. set (r := mant d * bin n mod dec n) in *. clearbody q r.
  destruct (Z.ltb_spec r (gap_below d * bin n)), (Z.eqb_spec r (gap_below d * bin n)),
    (Z.ltb_spec (dec n) (r + gap_above d * bin n)), (Z.eqb_spec (dec n) (r + gap_above d * bin n)),
    (Z.leb_spec (dec n) (2 * r)), (inclusive d); cbn [andb orb negb]; try done; intros [= <-]; (split; [|lia]); nia.
Qed.

Lemma candidate_complete n c : in_interval d c (place n) → candidate d x n ≠ None.
Proof.
  rw candidate_cases interval_sides. cbv zeta. unfold inside.
  pose proof (bin_side_pos (exp d) (place n)) as Hbin. pose proof (dec_side_pos (place n) (exp d)) as Hdec.
  pose proof (Z.div_mod (mant d * bin n) (dec n) ltac:(lia)) as Hdiv.
  set (q := floor n) in *. set (r := mant d * bin n mod dec n) in *. clearbody q r. intros Hc.
  assert (c * dec n <= q * dec n ∨ (q + 1) * dec n <= c * dec n) as Hcq.
  { destruct (Z.le_gt_cases c q); [left|right]; apply Z.mul_le_mono_nonneg_r; lia. }
  destruct (Z.ltb_spec r (gap_below d * bin n)), (Z.eqb_spec r (gap_below d * bin n)),
    (Z.ltb_spec (dec n) (r + gap_above d * bin n)), (Z.eqb_spec (dec n) (r + gap_above d * bin n)),
    (Z.leb_spec (dec n) (2 * r)), (inclusive d); cbn [andb orb negb]; try done; exfalso; nia.
Qed.
Lemma floor_range n : 1 <= n → 10 ^ (n - 1) <= floor n < 10 ^ n.
Proof.
  intros Hn. pose proof (dec_side_pos (place n) (exp d)) as Hdec. split.
  - apply Z.div_le_lower_bound; [lia|]. pose proof (proj2 (dec_le_shift 1 (place n) (mant d) (exp d) (n - 1) ltac:(lia))) as Hs.
    replace (place n + (n - 1)) with x in Hs by lia. specialize (Hs at_least). unfold dec_le in Hs.
    rw dec_side_scale (bin_side_scale (mant d)) in Hs. lia.
  - apply Z.div_lt_upper_bound; [lia|]. pose proof (proj1 (dec_le_shift 1 (place n) (mant d) (exp d) n ltac:(lia))) as Hs.
    replace (place n + n) with (x + 1) in Hs by lia. unfold dec_le in Hs.
    rw (dec_side_scale (1 * 10 ^ n)) (bin_side_scale (mant d)) in Hs. unfold dec_le in below. lia.
Qed.

(** Seventeen digits are enough. *)
Lemma candidate_seventeen : candidate d x 17 ≠ None.
Proof.
  rw candidate_cases. cbv zeta. unfold inside. pose proof (bin_side_pos (exp d) (place 17)) as Hbin.
  pose proof (proj2 (dec_le_shift 1 (place 17) (mant d) (exp d) 16 ltac:(lia))) as Hs.
  replace (place 17 + 16) with x in Hs by lia. specialize (Hs at_least). unfold dec_le in Hs.
  rw dec_side_scale (bin_side_scale (mant d)) in Hs. destruct well.
  set (r := mant d * bin 17 mod dec 17) in *. clearbody r.
  destruct (Z.ltb_spec r (gap_below d * bin 17)), (Z.eqb_spec r (gap_below d * bin 17)),
    (Z.ltb_spec (dec 17) (r + gap_above d * bin 17)), (Z.eqb_spec (dec 17) (r + gap_above d * bin 17)),
    (Z.leb_spec (dec 17) (2 * r)), (inclusive d); cbn [andb orb negb]; try done; exfalso; nia.
Qed.

(** A decimal of [n] digits inside the interval, whatever its exponent, shows that there
    is a candidate. *)
Lemma candidate_exists n c k : 1 <= n → 0 < c < 10 ^ n → in_interval d c k → candidate d x n ≠ None.
Proof.
  intros Hn Hc Hin. destruct (Z.le_gt_cases (place n) k) as [Hk|Hk].
  - apply (candidate_complete n (c * 10 ^ (k - place n))). apply in_interval_shift; [lia|].
    by replace (place n + (k - place n)) with k by lia.
  - apply (candidate_complete n (1 * 10 ^ (n - 1))).
    set (t := place n - k). replace (place n) with (k + t) by (unfold t; lia). apply (in_interval_shift d _ k t); [unfold t; lia|].
    assert (c <= 1 * 10 ^ (n - 1) * 10 ^ t) as Hle.
    { rw Z.mul_1_l -Z.pow_add_r; [unfold t; lia..|]. transitivity (10 ^ n); [lia|].
      apply Z.pow_le_mono_r; unfold t; lia. }
    pose proof (dec_side_mono _ _ k (exp d) Hle) as Hside.
    assert (dec_le (1 * 10 ^ (n - 1) * 10 ^ t) k (mant d) (exp d)) as Htop.
    { apply dec_le_shift; [unfold t; lia|]. apply dec_le_shift; [lia|].
      by replace (k + t + (n - 1)) with x by (unfold t; lia). }
    unfold in_interval, dec_le, dec_lt in *. rw (bin_side_scale (mant d)) in Htop.
    pose proof (bin_side_scale (mant d + gap_above d) (exp d) k) as Habove.
    pose proof (bin_side_scale (mant d - gap_below d) (exp d) k) as Hbelow.
    pose proof (bin_side_pos (exp d) k) as Hbin. destruct well as [_ _ Hgap _].
    pose proof (Z.mul_pos_pos _ _ Hgap Hbin). destruct (inclusive d); lia.
Qed.

Lemma shortest_from_spec fuel n : 1 <= n → n + Z.of_nat fuel = 18 → (∀ n', 1 <= n' < n → candidate d x n' = None) →
  ∃ n1 c, shortest_from fuel d x n = (c, place n1) ∧ n <= n1 <= 17 ∧ candidate d x n1 = Some c ∧
    ∀ n', 1 <= n' < n1 → candidate d x n' = None.
Proof.
  revert n. induction fuel as [|fuel IH]; intros n Hn Hfuel Hnone.
  - destruct candidate_seventeen. apply Hnone. lia.
  - cbn [shortest_from]. destruct (candidate d x n) as [c|] eqn:E.
    + exists n, c. split; [done|]. split; [lia|]. by split.
    + destruct (IH (n + 1)) as (n1 & c & Hs & Hn1 & Hc & Hmin); [lia|lia| |].
      * intros n' Hn'. destruct (Z.eq_dec n' n) as [->|]; [done|]. apply Hnone. lia.
      * exists n1, c. split; [done|]. split; [lia|]. by split.
Qed.
End Candidates.

(** The search ends at a decimal of the interval, and none of fewer digits is there. *)
Lemma shortest_least m e : Zpos m < 2 ^ 53 →
  let (c, k) := shortest m e in
  in_interval (decoded m e) c k ∧
  ∃ n, 1 <= n <= 17 ∧ 10 ^ (n - 1) <= c <= 10 ^ n ∧
    ∀ n' c' k', 1 <= n' < n → 0 < c' < 10 ^ n' → ¬ in_interval (decoded m e) c' k'.
Proof.
  intros Hm. unfold shortest. set (d := decoded m e). pose proof (decoded_is_well m e Hm : decoded_well d) as well.
  rw scaled_sides Z.opp_0. set (x := decimal_exponent (bin_side (mant d) (exp d) 0) (dec_side 1 0 (exp d))).
  destruct (decimal_exponent_spec (bin_side (mant d) (exp d) 0) (dec_side 1 0 (exp d))) as [Hlow Hhigh].
  { rw bin_side_scale. pose proof (bin_side_pos (exp d) 0). destruct well. nia. }
  { apply dec_side_pos. }
  fold x in Hlow, Hhigh. clearbody x. unfold dec_side, bin_side in Hlow, Hhigh.
  rw !(Z.pow_0_r 10 : 10 ^ Z.max 0 0 = 1) in Hlow Hhigh.
  assert (dec_le 1 x (mant d) (exp d)) as at_least by (unfold dec_le, dec_side, bin_side; lia).
  assert (¬ dec_le 1 (x + 1) (mant d) (exp d)) as below by (unfold dec_le, dec_side, bin_side; lia).
  destruct (shortest_from_spec d well x at_least 17 1) as (n & c & -> & Hn & Hc & Hmin); [lia|lia| |].
  { intros n' Hn'. lia. }
  destruct (candidate_sound d well x n c Hc) as [Hin Hfloor]. split; [done|].
  exists n. split; [done|]. pose proof (floor_range d x at_least below n ltac:(lia)). split; [lia|].
  intros n' c' k' Hn' Hc' Hin'. destruct (candidate_exists d well x at_least n' c' k'); [lia|done..|]. by apply Hmin.
Qed.

Lemma strip_zeros_spec fuel : ∀ c k, 0 < c < 10 ^ Z.of_nat fuel →
  ∃ c1 t, strip_zeros fuel c k = (c1, k + t) ∧ 0 <= t ∧ c = c1 * 10 ^ t ∧ 0 < c1 ∧ c1 mod 10 ≠ 0.
Proof.
  induction fuel as [|fuel IH]; intros c k Hc; [cbn in Hc; lia|]. cbn [strip_zeros].
  rw Nat2Z.inj_succ Z.pow_succ_r in Hc; [lia|].
  pose proof (Z.div_mod c 10 ltac:(lia)) as Hdiv. pose proof (Z.mod_pos_bound c 10 ltac:(lia)) as Hmod.
  destruct (Z.eqb_spec (c mod 10) 0) as [E|E].
  - destruct (IH (c / 10) (k + 1)) as (c1 & t & -> & Ht & Hc1 & Hpos & Hlast); [lia|].
    exists c1, (t + 1). split; [f_equal; lia|]. split; [lia|]. rw Z.pow_add_r; [lia..|]. split; [lia|]. by split.
  - exists c, 0. split; [f_equal; lia|]. rw Z.pow_0_r. lia.
Qed.

(** The digits of the shortest decimal are those of a decimal of the interval, at most
    17 of them, and none of fewer digits is there. *)
Lemma shortest_decimal m e : Zpos m < 2 ^ 53 →
  let (ds, x) := shortest_digits m e in
  ∃ c, ds = digits 10 c ∧ 0 < c ∧ c mod 10 ≠ 0 ∧ (length ds <= 17)%nat ∧
    in_interval (decoded m e) c (x + 1 - Z.of_nat (length ds)) ∧
    ∀ c' k', 0 < c' → (length (digits 10 c') < length ds)%nat → ¬ in_interval (decoded m e) c' k'.
Proof.
  intros Hm. pose proof (shortest_least m e Hm) as Hleast. unfold shortest_digits. destruct (shortest m e) as [c0 k0].
  destruct Hleast as (Hin & n & Hn & Hc0 & Hmin).
  pose proof (Z.pow_pos_nonneg 10 (n - 1) ltac:(lia) ltac:(lia)) as Hpow.
  pose proof (Z.pow_le_mono_r 10 n 17 ltac:(lia) ltac:(lia)) as Hle.
  destruct (strip_zeros_spec 18 c0 k0) as (c & t & -> & Ht & Hc & Hpos & Hlast); [lia|].
  pose proof (Z.pow_pos_nonneg 10 t ltac:(lia) Ht) as Hten.
  assert (c < 10 ^ n) as Hlt.
  { destruct (Z.eq_dec c (10 ^ n)) as [E|]; [|nia]. exfalso. apply Hlast.
    rw E. replace n with (Z.succ (n - 1)) by lia. rw Z.pow_succ_r; [lia|]. rw Z.mul_comm. by apply Z.mod_mul. }
  destruct (digits_length 10 c ltac:(lia) Hpos) as (i & Hi & Hlow & Hhigh).
  assert (Z.of_nat (S i) <= n) as Hshort.
  { destruct (Z.le_gt_cases (Z.of_nat (S i)) n); [done|]. pose proof (Z.pow_le_mono_r 10 n (Z.of_nat i) ltac:(lia) ltac:(lia)). lia. }
  exists c. do 3 (split; [done|]). rw Hi. split; [lia|]. split.
  - replace (k0 + t + Z.of_nat (S i) - 1 + 1 - Z.of_nat (S i)) with (k0 + t) by lia.
    apply in_interval_shift; [done|]. by rw -Hc.
  - intros c' k' Hc' Hless. destruct (digits_length 10 c' ltac:(lia) Hc') as (j & Hj & _ & Hsmall).
    apply (Hmin (Z.of_nat (S j))); lia.
Qed.

(** ** Reading a printed float

    A reader of Python's float literals: a sign, digits, a point with digits after it, an
    exponent with a sign and two digits at least. A text without point and exponent is an
    integer, not a float. *)
Record Numeral : Type := mkNumeral { negative : bool; significand : Z; exponent10 : Z; scientific : bool }.

Definition is_digit (c : Z) : bool := (48 <=? c) && (c <=? 57).

(** The digits at the front: the number they make after [acc], how many there are and the
    rest of the text. *)
Fixpoint read_digits (t : text) (acc : Z) (n : nat) : Z * nat * text :=
  match t with
  | c :: rest => if is_digit c then read_digits rest (10 * acc + (c - 48)) (S n) else (acc, n, t)
  | [] => (acc, n, t)
  end.

Definition read_fraction (t : text) (acc : Z) : option (Z * Z * bool * text) :=
  match t with
  | c :: t' =>
      if c =? 46
      then match read_digits t' acc 0 with (c, S n, rest) => Some (c, Z.of_nat (S n), true, rest) | _ => None end
      else Some (acc, 0, false, t)
  | [] => Some (acc, 0, false, t)
  end.

Definition read_exponent (t : text) : option (Z * bool) :=
  match t with
  | [] => Some (0, false)
  | c :: sg :: t =>
      if (c =? 101) && ((sg =? 43) || (sg =? 45))
      then match read_digits t 0 0 with
           | (x, S (S _), []) => Some (if sg =? 45 then - x else x, true)
           | _ => None
           end
      else None
  | _ => None
  end.

Definition read_unsigned (s : bool) (t : text) : option Numeral :=
  match read_digits t 0 0 with
  | (i, S _, t) =>
      match read_fraction t i with
      | Some (c, k, point, t) =>
          match read_exponent t with
          | Some (x, sci) => if point || sci then Some (mkNumeral s c (x - k) sci) else None
          | None => None
          end
      | None => None
      end
  | _ => None
  end.

Definition read_float (t : text) : option Numeral :=
  match t with c :: rest => if c =? 45 then read_unsigned true rest else read_unsigned false t | [] => None end.

(** The number the digits [ds] make after [acc]. *)
Definition value_of (acc : Z) (ds : text) : Z := fold_left (λ a c, 10 * a + (c - 48)) ds acc.
Definition all_digits (ds : text) : Prop := Forall (λ c, is_digit c = true) ds.

Lemma read_digits_app ds : all_digits ds → ∀ rest acc n,
  read_digits (ds ++ rest) acc n = read_digits rest (value_of acc ds) (n + length ds).
Proof.
  induction 1 as [|c ds Hc _ IH]; intros rest acc n; cbn; [by rw Nat.add_0_r|].
  rw Hc IH. f_equal. lia.
Qed.

Lemma value_of_app a b acc : value_of acc (a ++ b) = value_of (value_of acc a) b.
Proof. apply fold_left_app. Qed.

Lemma zeros_digits n : all_digits (zeros n) ∧ ∀ acc, value_of acc (zeros n) = acc * 10 ^ Z.of_nat n.
Proof.
  unfold zeros. induction n as [|n [IH1 IH2]]; split; intros; cbn [replicate].
  - constructor.
  - cbn. lia.
  - by constructor.
  - cbn [value_of fold_left]. fold (value_of (10 * acc + (48 - 48)) (replicate n 48)). rw IH2 Nat2Z.inj_succ Z.pow_succ_r; lia.
Qed.

Lemma digits_from_value fuel : ∀ z acc, 0 <= z → z < 2 ^ Z.of_nat fuel → (0 < fuel)%nat →
  ∃ ds, digits_from fuel 10 z acc = ds ++ acc ∧ ds ≠ [] ∧ all_digits ds ∧
    ∀ a, value_of a ds = a * 10 ^ Z.of_nat (length ds) + z.
Proof.
  induction fuel as [|fuel IH]; intros z acc Hz Hfuel Hpos; [lia|].
  rw Nat2Z.inj_succ Z.pow_succ_r in Hfuel; [lia|]. cbn [digits_from].
  pose proof (Z.div_mod z 10 ltac:(lia)) as Hdiv. pose proof (Z.mod_pos_bound z 10 ltac:(lia)) as Hmod.
  assert (hex_char (z mod 10) = 48 + z mod 10) as Hchar by (unfold hex_char; case_match; lia).
  assert (is_digit (hex_char (z mod 10)) = true) as Hdigit.
  { rw Hchar. unfold is_digit. apply andb_true_intro. rw !Z.leb_le. lia. }
  destruct (Z.eqb_spec (z / 10) 0) as [E|E].
  - exists [hex_char (z mod 10)]. do 2 (split; [done|]). split; [by constructor|].
    intros a. cbn [value_of fold_left length]. rw Hchar. rw (Z.pow_1_r 10 : 10 ^ Z.of_nat 1 = 10). lia.
  - assert (0 <= z / 10) by (apply Z.div_pos; lia).
    assert (0 < fuel)%nat by (destruct fuel; [cbn in Hfuel; lia|lia]).
    destruct (IH (z / 10) (hex_char (z mod 10) :: acc)) as (ds & Hds & Hne & Hall & Hval); [lia..|].
    exists (ds ++ [hex_char (z mod 10)]). rw Hds -app_assoc. split; [done|]. split; [by destruct ds|].
    split; [apply Forall_app; split; [done|by constructor]|].
    intros a. rw value_of_app Hval length_app. cbn [value_of fold_left length]. rw Hchar Nat2Z.inj_add Z.pow_add_r; [lia..|].
    rw (Z.pow_1_r 10 : 10 ^ Z.of_nat 1 = 10). lia.
Qed.

(** The digits of a number read back as the number. *)
Lemma digits_value z : 0 <= z →
  digits 10 z ≠ [] ∧ all_digits (digits 10 z) ∧ ∀ a, value_of a (digits 10 z) = a * 10 ^ Z.of_nat (length (digits 10 z)) + z.
Proof.
  intros Hz. unfold digits. destruct (digits_from_value (S (Z.to_nat (Z.log2 z))) z []) as (ds & -> & H); [done| |lia|by rw app_nil_r].
  rw Nat2Z.inj_succ Z2Nat.id; [apply Z.log2_nonneg|]. destruct (Z.eq_dec z 0) as [->|]; [done|]. apply Z.log2_spec. lia.
Qed.

Lemma all_digits_head ds : all_digits ds → ds ≠ [] → ∃ c rest, ds = c :: rest ∧ is_digit c = true.
Proof. intros [|c rest]; [done|]. intros _. by exists c, rest. Qed.

(** A sign before a text that begins with a digit. *)
Lemma read_signed s ds rest : all_digits ds → ds ≠ [] → read_float (sign_text s ++ ds ++ rest) = read_unsigned s (ds ++ rest).
Proof.
  intros Hall Hne. destruct (all_digits_head ds Hall Hne) as (c & ds' & -> & Hc). destruct s; cbn; [done|].
  destruct (Z.eqb_spec c 45) as [->|]; done.
Qed.

(** Digits around a point. *)
Lemma read_pointed s a b : all_digits a → all_digits b → a ≠ [] → b ≠ [] →
  read_float (sign_text s ++ a ++ 46 :: b) = Some (mkNumeral s (value_of 0 (a ++ b)) (- Z.of_nat (length b)) false).
Proof.
  intros Ha Hb Hna Hnb. rw (read_signed s a (46 :: b) Ha Hna). unfold read_unsigned. rw (read_digits_app a Ha). cbn [read_digits is_digit].
  destruct a as [|c a]; [done|]. cbn [Nat.add length]. cbn [read_fraction]. cbn.
  pose proof (read_digits_app b Hb [] (value_of 0 (c :: a)) 0) as Hread. rw app_nil_r in Hread. cbn in Hread.
  change (fold_left _ a _) with (value_of 0 (c :: a)). rw Hread. destruct b as [|c' b]; [done|].
  cbn [length read_exponent orb]. by rw -value_of_app.
Qed.

(** Digits, perhaps with a point after the first, and an exponent. *)
Lemma exponent_text_reads x : read_exponent (lit "e" ++ exponent_text x) = Some (x, true).
Proof.
  unfold exponent_text, padded_digits. destruct (digits_value (Z.abs x) ltac:(lia)) as (Hne & Hall & Hval).
  destruct (zeros_digits (2 - length (digits 10 (Z.abs x)))) as [Hz Hzval].
  assert (all_digits (zeros (2 - length (digits 10 (Z.abs x))) ++ digits 10 (Z.abs x))) as Hdigits by (apply Forall_app; by split).
  set (sg := if x <? 0 then 45 else 43). assert ((sg =? 43) || (sg =? 45) = true) as Hsign by (unfold sg; by destruct (x <? 0)).
  change (lit "e") with [101]. cbn [app read_exponent]. rw Hsign (eq_refl : (101 =? 101) = true). cbn [andb].
  pose proof (read_digits_app _ Hdigits [] 0 0) as Hread. rw app_nil_r in Hread. rw Hread. cbn [read_digits].
  rw value_of_app Hzval Z.mul_0_l Hval Z.mul_0_l Z.add_0_l length_app (length_replicate _ 48 : length (zeros _) = _).
  assert (∃ n, (0 + (2 - length (digits 10 (Z.abs x)) + length (digits 10 (Z.abs x))) = S (S n))%nat) as [n ->]
    by (exists (length (digits 10 (Z.abs x)) - 2)%nat; lia).
  unfold sg. destruct (Z.ltb_spec x 0); cbn; do 2 f_equal; lia.
Qed.

Lemma read_scientific s ds x : all_digits ds → ds ≠ [] →
  read_float (sign_text s ++ mantissa_text ds ++ lit "e" ++ exponent_text x) =
    Some (mkNumeral s (value_of 0 ds) (x + 1 - Z.of_nat (length ds)) true).
Proof.
  intros Hall Hne. pose proof (exponent_text_reads x) as He.
  change (lit "e" ++ exponent_text x) with (101 :: exponent_text x) in *. set (rest := exponent_text x) in *. clearbody rest.
  assert (∀ acc n, read_digits (101 :: rest) acc n = (acc, n, 101 :: rest)) as Hend by done.
  destruct ds as [|c [|c' ds]]; [done|..]; cbn [mantissa_text].
  - rw (read_signed s [c] (101 :: rest) Hall Hne). unfold read_unsigned. rw (read_digits_app [c] Hall) Hend. cbn [Nat.add length].
    change (read_fraction (101 :: rest) (value_of 0 [c])) with (Some (value_of 0 [c], 0, false, 101 :: rest)).
    cbv beta iota. rw He. cbn [orb]. do 2 f_equal. lia.
  - apply Forall_cons in Hall as [Hc Hds]. assert (all_digits [c]) as Hfirst by (by constructor).
    change (c :: 46 :: c' :: ds) with ([c] ++ 46 :: (c' :: ds)). rw -app_assoc.
    rw (read_signed s [c] _ Hfirst) //. unfold read_unsigned. rw (read_digits_app [c] Hfirst).
    change (read_digits ((46 :: c' :: ds) ++ 101 :: rest) (value_of 0 [c]) (0 + length [c]))
      with (value_of 0 [c], 1%nat, 46 :: (c' :: ds) ++ 101 :: rest).
    cbn [read_fraction]. rw (read_digits_app (c' :: ds) Hds) Hend -value_of_app.
    change ((46 =? 46)) with true. cbn [Nat.add length]. cbv beta iota. rw He. cbn [orb]. do 2 f_equal. lia.
Qed.

(** ** The forms of a printed float *)

Definition shortest_decimal_of (d : Decoded) (c k : Z) : Prop :=
  0 < c ∧ c mod 10 ≠ 0 ∧ in_interval d c k ∧
  ∀ c' k', 0 < c' → (length (digits 10 c') < length (digits 10 c))%nat → ¬ in_interval d c' k'.
(** The exponent of the first digit of [c * 10 ^ k]. *)
Definition leading (c k : Z) : Z := k + Z.of_nat (length (digits 10 c)) - 1.
(** [m * 2 ^ e] is the integer [n]. *)
Definition is_whole (m e n : Z) : Prop := dec_side n 0 e = bin_side m e 0.

Lemma integral_whole s m e : f64_integral (S754_finite s m e) = true ↔ ∃ n, is_whole (Zpos m) e n.
Proof.
  cbn [f64_integral]. unfold is_whole, dec_side, bin_side. destruct (Z.leb_spec 0 e) as [He|He]; cbn [orb].
  - split; [intros _|done]. exists (Zpos m * 2 ^ e). known_signs. lia.
  - known_signs. pose proof (Z.pow_pos_nonneg 2 (- e) ltac:(lia) ltac:(lia)) as Hpow. rw Z.rem_mod_nonneg; [lia..|]. rw Z.eqb_eq. split.
    + intros Hmod. exists (Zpos m / 2 ^ (- e)). pose proof (Z.div_mod (Zpos m) (2 ^ (- e)) ltac:(lia)). lia.
    + intros (n & Hn). rw !Z.mul_1_r in Hn. rw -Hn. apply Z.mod_mul. lia.
Qed.

(** A whole float is shown as its exact value. *)
Lemma fixed_text_whole s m e n : is_whole (Zpos m) e n → fixed_text 1 (S754_finite s m e) = sign_text s ++ digits 10 n ++ [46; 48].
Proof.
  unfold is_whole, dec_side, bin_side, fixed_text, scaled. intros Hn. cbn [Z.of_nat]. change (10 ^ Z.max 0 0) with 1 in Hn. change (10 ^ Z.max (- 0) 0) with 1 in Hn.
  change (10 ^ Z.max (Z.of_nat 1) 0) with 10. change (10 ^ Z.max (- Z.of_nat 1) 0) with 1.
  pose proof (pow_pos 2 (- e) ltac:(lia)) as Hpow.
  replace (Zpos m * 2 ^ Z.max e 0 * 10) with (10 * n * (2 ^ Z.max (- e) 0 * 1)) by lia.
  unfold round_half_even. rw Z.mod_mul; [lia|]. rw Z.div_mul; [lia|]. case_match; [|lia].
  unfold with_point. change (10 ^ Z.of_nat 1) with 10. rw (Z.mul_comm 10 n) Z.div_mul; [lia|]. by rw Z.mod_mul.
Qed.

(** No integer lies in the rounding interval of a float that is not whole. *)
Lemma fraction_interval s m e c k : Zpos m < 2 ^ 53 → 0 <= k → in_interval (decoded m e) c k →
  f64_integral (S754_finite s m e) = true.
Proof.
  intros Hm Hk Hin. destruct (Z.le_gt_cases 0 e) as [He|He]; [cbn [f64_integral]; by rw (proj2 (Z.leb_le 0 e) He)|].
  apply integral_whole. exists (c * 10 ^ k). unfold is_whole, dec_side, bin_side. known_signs.
  unfold in_interval, decoded, dec_le, dec_lt, dec_side, bin_side in Hin. pose proof (Z.pow_pos_nonneg 2 (- e) ltac:(lia) ltac:(lia)) as Hpow.
  destruct (Z.eqb_spec (Zpos m) (2 ^ 52)) as [E|E]; cbn [mant gap_below gap_above exp inclusive] in Hin.
  - replace (Z.max (- (e - 2)) 0) with (2 + - e) in Hin by lia. replace (Z.max (e - 2) 0) with 0 in Hin by lia.
    replace (Z.max k 0) with k in Hin by lia. replace (Z.max (- k) 0) with 0 in Hin by lia.
    rw Z.pow_add_r in Hin; [lia..|]. change (2 ^ 2) with 4 in Hin. rw !Z.pow_0_r in Hin. case_match; nia.
  - replace (Z.max (- (e - 1)) 0) with (1 + - e) in Hin by lia. replace (Z.max (e - 1) 0) with 0 in Hin by lia.
    replace (Z.max k 0) with k in Hin by lia. replace (Z.max (- k) 0) with 0 in Hin by lia.
    rw Z.pow_add_r in Hin; [lia..|]. change (2 ^ 1) with 2 in Hin. rw !Z.pow_0_r in Hin. case_match; nia.
Qed.

(** The positional form of a decimal that is not an integer. *)
Lemma read_positional s ds k : all_digits ds → ds ≠ [] → k < 0 →
  read_float (sign_text s ++ positional ds (k + Z.of_nat (length ds) - 1)) = Some (mkNumeral s (value_of 0 ds) k false).
Proof.
  intros Hall Hne Hk. unfold positional. set (x := k + Z.of_nat (length ds) - 1).
  destruct (Z.ltb_spec x 0) as [Hx|Hx].
  - destruct (zeros_digits (Z.to_nat (- x - 1))) as [Hz Hzval]. change (lit "0.") with ([48] ++ [46]). rw -app_assoc.
    rw (read_pointed s [48] (zeros (Z.to_nat (- x - 1)) ++ ds)).
    all: try (by constructor); try (apply Forall_app; by split).
    { done. }
    { by destruct (zeros _); destruct ds. }
    f_equal. rw !value_of_app Hzval. change (value_of 0 [48]) with 0. rw Z.mul_0_l. f_equal.
    rw length_app. unfold zeros. rw length_replicate. unfold x. lia.
  - case_match; [lia|]. rw (read_pointed s (take (Z.to_nat (x + 1)) ds) (drop (Z.to_nat (x + 1)) ds)).
    + by apply Forall_take.
    + by apply Forall_drop.
    + intros E%(f_equal length). rw length_take in E. cbn in E. destruct ds; [done|]. cbn in E. lia.
    + intros E%(f_equal length). rw length_drop in E. cbn in E. lia.
    + rw take_drop length_drop. do 2 f_equal. lia.
Qed.

(** C1: What a float prints as ([str], [repr], f-strings), read back by Python's grammar
    of floats. Infinities and the NaN are no numerals; a zero keeps its sign. A finite
    float has a decimal of its rounding interval (one that rounds to it) with the fewest
    digits. When that decimal's first digit stands between [10 ^ -4] and [10 ^ 15] the
    text has no exponent: a float that is an integer is shown exactly, with one decimal,
    and another float as the shortest decimal itself. Beyond, the shortest decimal is
    shown with an exponent. In all cases the text is a float, never an integer. *)
Theorem float_repr f : match f with S754_finite _ m _ => Zpos m < 2 ^ 53 | _ => True end →
  match f with
  | S754_nan | S754_infinity _ => read_float (python_float f) = None
  | S754_zero s => read_float (python_float f) = Some (mkNumeral s 0 (-1) false)
  | S754_finite s m e =>
      ∃ c k, shortest_decimal_of (decoded m e) c k ∧
        (-4 <= leading c k < 16 →
           (∀ n, is_whole (Zpos m) e n → read_float (python_float f) = Some (mkNumeral s (10 * n) (-1) false)) ∧
           ((∀ n, ¬ is_whole (Zpos m) e n) → read_float (python_float f) = Some (mkNumeral s c k false))) ∧
        (¬ -4 <= leading c k < 16 → read_float (python_float f) = Some (mkNumeral s c k true))
  end.
Proof.
  destruct f as [[]|[]| |s m e]; [done..|]. intros Hm. cbn [python_float].
  pose proof (shortest_decimal m e Hm) as Hshort. destruct (shortest_digits m e) as [ds x].
  destruct Hshort as (c & -> & Hpos & Hlast & _ & Hin & Hleast).
  destruct (digits_value c ltac:(lia)) as (Hne & Hall & Hval).
  exists c, (x + 1 - Z.of_nat (length (digits 10 c))). split; [by repeat split|].
  replace (leading c (x + 1 - Z.of_nat (length (digits 10 c)))) with x by (unfold leading; lia). split; intros Hx.
  - replace ((x <? -4) || (16 <=? x)) with false by (symmetry; apply orb_false_iff; lia). split.
    + intros n Hn. rw (proj2 (integral_whole s m e) (ex_intro _ n Hn)) (fixed_text_whole s m e n Hn).
      assert (0 <= n) as Hn0 by (unfold is_whole, dec_side, bin_side in Hn; pose proof (pow_pos 2 (- e) ltac:(lia)); pose proof (pow_pos 2 e ltac:(lia)); known_signs; nia).
      destruct (digits_value n Hn0) as (Hne' & Hall' & Hval'). rw (read_pointed s (digits 10 n) [48]) //; [by constructor|].
      rw value_of_app Hval'. do 2 f_equal. cbn. lia.
    + intros Hnone. destruct (f64_integral (S754_finite s m e)) eqn:Ef; [apply integral_whole in Ef as [n' Hn']; by destruct (Hnone n' Hn')|].
      destruct (Z.le_gt_cases 0 (x + 1 - Z.of_nat (length (digits 10 c)))) as [Hk|Hk].
      { by rw (fraction_interval s m e c _ Hm Hk Hin) in Ef. }
      set (k := x + 1 - Z.of_nat (length (digits 10 c))) in *. replace x with (k + Z.of_nat (length (digits 10 c)) - 1) by (unfold k; lia).
      by rw (read_positional s (digits 10 c) k) // Hval.
  - replace ((x <? -4) || (16 <=? x)) with true by (symmetry; apply orb_true_iff; lia).
    by rw (read_scientific s (digits 10 c) x) // Hval.
Qed.

(** The float nearest to 0.1. *)
Lemma float_repr_witness :
  Zpos 7205759403792794 < 2 ^ 53 ∧ python_float (S754_finite false 7205759403792794 (-56)) = lit "0.1" ∧
  ∃ c k, shortest_decimal_of (decoded 7205759403792794 (-56)) c k ∧
    (-4 <= leading c k < 16 →
       (∀ n, is_whole 7205759403792794 (-56) n → read_float (python_float (S754_finite false 7205759403792794 (-56))) = Some (mkNumeral false (10 * n) (-1) false)) ∧
       ((∀ n, ¬ is_whole 7205759403792794 (-56) n) → read_float (python_float (S754_finite false 7205759403792794 (-56))) = Some (mkNumeral false c k false))) ∧
    (¬ -4 <= leading c k < 16 → read_float (python_float (S754_finite false 7205759403792794 (-56))) = Some (mkNumeral false c k true)).
Proof. split; [lia|]. split; [by vm_compute|]. apply (float_repr (S754_finite false 7205759403792794 (-56))). lia. Defined.
