(* ===== verification/Keys.v ===== *)
(** Dictionary keys: [ValueKey] equality and hashing ([value.rs]), the coercion
    of values to keys ([literals.rs]), the insertion-ordered [IndexMap], and the
    multiset combination of [Counter]s ([types.rs]). *)
From Stdlib Require Import ZArith Lia Ascii String SpecFloat.
From stdpp Require Import base tactics list numbers option strings.
From S2P Require Import Prelude PySet Values Errors F64.

(** * Insertion-ordered maps *)

(** [IndexMap] over a key equality: [get], [contains_key], and [insert], which
    overwrites the value of an equal key in place and appends a new entry. *)
Section IndexMap.
Context {K V : Type} (eqb : K -> K -> bool).

Fixpoint im_get (m : list (K * V)) (k : K) : option V :=
  match m with
  | [] => None
  | (k', v) :: m' => if eqb k' k then Some v else im_get m' k
  end.

Definition im_contains (m : list (K * V)) (k : K) : bool :=
  match im_get m k with Some _ => true | None => false end.

Fixpoint im_insert (m : list (K * V)) (k : K) (v : V) : list (K * V) :=
  match m with
  | [] => [(k, v)]
  | (k', v') :: m' => if eqb k' k then (k', v) :: m' else (k', v') :: im_insert m' k v
  end.
End IndexMap.

Section Keys.
Context `{External}.

(** [float_key_i64]. *)
Definition float_key_i64 (f : f64) : option Z :=
  if f64_is_finite f && f64_integral f then
    let i := f64_as_i64 f in
    if f64_eqb (f64_of_Z i) f then Some i else None
  else None.

#[export] Instance f64_eq_dec : EqDecision f64.
Proof. solve_decision. Defined.

(** Equality of [u64] bit patterns, on the floats they came from (a float has
    one representation, sign of zero included). *)
Definition same_bits (a b : f64) : bool := bool_decide (a = b).

Definition utc (dt : NaiveDateTime) (o : Z) : NaiveDateTime := datetime_minus_seconds dt o.

(** The identity comparison of the objects boxed in an instance key. The
    source's last arm, which it documents as unreachable, is the argument. *)
Definition instance_eqb (structural : Value -> Value -> bool) (a b : Value) : bool :=
  match a, b with
  | VInstance _ fa, VInstance _ fb => (fa =? fb)%nat
  | VFunction fa, VFunction fb => (fa =? fb)%nat
  | VLambda la, VLambda lb => (la =? lb)%nat
  | _, _ => structural a b
  end.

Section KeyEq.
Variable structural : Value -> Value -> bool.

(** [impl PartialEq for ValueKey]. *)
Fixpoint key_eqb (x y : ValueKey) : bool :=
  match x, y with
  | KNone, KNone => true
  | KEllipsis, KEllipsis => true
  | KBool a, KBool b => Bool.eqb a b
  | KBool b, KInt i | KInt i, KBool b => i =? Z.b2z b
  | KInt a, KInt b => a =? b
  | KBigInt a, KBigInt b => a =? b
  | KInt a, KBigInt b | KBigInt b, KInt a => b =? a
  | KBool b, KBigInt i | KBigInt i, KBool b => i =? Z.b2z b
  | KFloat a, KFloat b => same_bits a b
  | KFloat f, KInt i | KInt i, KFloat f => bool_decide (float_key_i64 f = Some i)
  | KFloat f, KBool b | KBool b, KFloat f => bool_decide (float_key_i64 f = Some (Z.b2z b))
  | KFloat f, KBigInt n | KBigInt n, KFloat f =>
      match float_key_i64 f with Some i => n =? i | None => false end
  | KComplex ar ai, KComplex br bi => same_bits ar br && same_bits ai bi
  | KString a, KString b => bool_decide (a = b)
  | KTuple a, KTuple b =>
      (fix all2 (a b : list ValueKey) : bool :=
         match a, b with
         | [], [] => true
         | x :: a, y :: b => key_eqb x y && all2 a b
         | _, _ => false
         end) a b
  | KFrozenset a, KFrozenset b =>
      (length a =? length b)%nat && forallb (fun x => existsb (fun y => key_eqb x y) b) a
  | KInstance _ a, KInstance _ b => instance_eqb structural a b
  | KDate a, KDate b => date_eqb a b
  | KTime a, KTime b => time_eqb a b
  | KTimeDelta a, KTimeDelta b => a =? b
  | KDecimal a, KDecimal b => decimal_eqb a b
  | KFraction a, KFraction b => rational_eqb a b
  | KDateTime a ta, KDateTime b tb =>
      match ta, tb with
      | None, None => datetime_eqb a b
      | Some oa, Some ob => datetime_eqb (utc a oa) (utc b ob)
      | _, _ => false
      end
  | _, _ => false
  end.
End KeyEq.

(** The words [impl Hash for ValueKey] writes to the hasher, tag first. A [Vec]
    writes its length, then its elements; a string its bytes, then [0xff]. *)
Fixpoint key_feed (k : ValueKey) : list Z :=
  match k with
  | KNone => [0]
  | KEllipsis => [7]
  | KBool b => [1; Z.b2z b]
  | KInt i => [1; i]
  | KBigInt i => 1 :: (if in_i64 i then [i] else bigint_feed i)
  | KFloat f => match float_key_i64 f with Some i => [1; i] | None => [2; f64_to_bits f] end
  | KComplex re im => [6; f64_to_bits re; f64_to_bits im]
  | KString s => 3 :: s ++ [255]
  | KTuple items => 4 :: Z.of_nat (length items) :: flat_map key_feed items
  | KFrozenset items =>
      [8; foldr Z.lxor 0 (map (fun item => default_hasher (key_feed item)) items)]
  | KInstance hash _ => [5; hash]
  | KDate d => 9 :: date_feed d
  | KTime t => 10 :: time_feed t
  | KTimeDelta m => [12; m]
  | KDecimal d => let (mantissa, scale) := decimal_normalized d in 13 :: bigint_feed mantissa ++ [scale]
  | KFraction f => 14 :: bigint_feed (rational_numer f) ++ bigint_feed (rational_denom f)
  | KDateTime dt None => 11 :: 0 :: datetime_feed dt
  | KDateTime dt (Some o) => 11 :: 1 :: datetime_feed (utc dt o)
  end.

Definition float_to_key (f : f64) : ValueKey := KFloat f.

Definition bigint_to_key (n : Z) : ValueKey := if in_i64 n then KInt n else KBigInt n.

(** [x + 0.0], which turns [-0.0] into [0.0]. *)
Definition positive_zero (x : f64) : f64 := f64_add x f64_zero.

Definition name_feed (s : string) : list Z := lit s ++ [255].

Definition unhashable {A} (v : Value) : EvalResult A :=
  fail (TypeError ("unhashable type: '" ++ type_name v ++ "'")).

Section ToKey.
(** The address of an allocation, and the heap the frozensets live in. *)
Variable address : loc -> Z.
Variable h : Heap.

Definition fuse (ks : list (EvalResult ValueKey)) : EvalResult (list ValueKey) :=
  foldr (fun r acc => k ← r; ks ← acc; Ok (k :: ks)) (Ok []) ks.

(** [value_to_key]; the fuel bounds the nesting, and running out of it is the
    stack overflow of an endless descent. *)
Fixpoint value_to_key (fuel : nat) (val : Value) : EvalResult ValueKey :=
  match fuel with
  | O => Panic
  | S fuel =>
      match val with
      | VNone => Ok KNone
      | VEllipsis => Ok KEllipsis
      | VBool b => Ok (KBool b)
      | VInt i => Ok (KInt i)
      | VBigInt i => Ok (KBigInt i)
      | VFloat f => Ok (float_to_key f)
      | VComplex re im =>
          if f64_is_zero im then Ok (float_to_key re)
          else Ok (KComplex (positive_zero re) (positive_zero im))
      | VString s => Ok (KString s)
      | VTuple items => ks ← fuse (value_to_key fuel <$> items); Ok (KTuple ks)
      | VFrozenset l => ks ← fuse (value_to_key fuel <$> set_at h l); Ok (KFrozenset ks)
      | VDate d => Ok (KDate d)
      | VTime t => Ok (KTime t)
      | VTimeDelta m => Ok (KTimeDelta m)
      | VDateTime dt tz => Ok (KDateTime dt tz)
      | VDecimal d _ =>
          if decimal_fractional_digits d <=? 0
          then Ok (bigint_to_key (decimal_scale_zero d)) else Ok (KDecimal d)
      | VFraction fr =>
          if rational_denom fr =? 1
          then Ok (bigint_to_key (rational_numer fr)) else Ok (KFraction fr)
      | VEnumMember class_name member_name inner kind =>
          match kind with
          | EInt | EIntFlag | EStr => value_to_key fuel inner
          | Plain | EFlag =>
              Ok (KInstance (swrap64 (default_hasher (name_feed class_name ++ name_feed member_name))) val)
          end
      | VFunction fd => Ok (KInstance (swrap64 (address fd)) val)
      | VLambda ld => Ok (KInstance (swrap64 (address ld)) val)
      | VClass name | VType name | VExceptionType name | VBuiltinName name =>
          Ok (KInstance (swrap64 (default_hasher (name_feed name))) val)
      | _ => unhashable val
      end
  end.
End ToKey.

Definition counter_int (v : Value) : Z :=
  match v with
  | VInt n => n
  | VBool b => Z.b2z b
  | _ => 0
  end.

Section Counter.
Variable eqb : ValueKey -> ValueKey -> bool.

(** The two loops of [counter_combine_op]. *)
Definition combine_left (b : list (ValueKey * Value)) (op : Z -> Z -> Z)
    (result : list (ValueKey * Value)) (e : ValueKey * Value) : list (ValueKey * Value) :=
  let ax := counter_int e.2 in
  let bx := match im_get eqb b e.1 with Some v => counter_int v | None => 0 end in
  let r := op ax bx in
  if r >? 0 then im_insert eqb result e.1 (VInt r) else result.

Definition combine_right (a : list (ValueKey * Value)) (op : Z -> Z -> Z)
    (result : list (ValueKey * Value)) (e : ValueKey * Value) : list (ValueKey * Value) :=
  if im_contains eqb a e.1 then result
  else
    let r := op 0 (counter_int e.2) in
    if r >? 0 then im_insert eqb result e.1 (VInt r) else result.

Definition counter_combine_op (a b : list (ValueKey * Value)) (op : Z -> Z -> Z) :
    list (ValueKey * Value) :=
  fold_left (combine_right a op) b (fold_left (combine_left b op) a []).

(** [counter_unary]: the counts that are positive after the sign is applied. *)
Definition counter_unary (c : list (ValueKey * Value)) (negate : bool) : list (ValueKey * Value) :=
  fold_left (fun result e =>
    let n := default 0 (value_as_i64 e.2) in
    let kept := if negate then swrap64 (- n) else n in
    if kept >? 0 then im_insert eqb result e.1 (VInt kept) else result) c [].
End Counter.
End Keys.

(** * The laws of keys *)

(** A key equality that is an equivalence on the keys satisfying [P]. *)
Class KeyLaws {K : Type} (eqb : K -> K -> bool) (P : K -> Prop) : Prop := {
  key_refl : forall x, P x -> eqb x x = true;
  key_sym : forall x y, P x -> P y -> eqb x y = true -> eqb y x = true;
  key_trans : forall x y z, P x -> P y -> P z ->
    eqb x y = true -> eqb y z = true -> eqb x z = true
}.

Section MapFacts.
Context {K V : Type} (eqb : K -> K -> bool) (P : K -> Prop) `{!KeyLaws eqb P}.
Implicit Types (m l : list (K * V)) (k : K) (v : V).

Lemma key_congr x y z : P x -> P y -> P z -> eqb x y = true -> eqb x z = eqb y z.
Proof.
  intros Hx Hy Hz Hxy. apply eq_true_iff_eq. split; intros E.
  - by apply (key_trans y x z); [..|apply key_sym|].
  - by apply (key_trans x y z).
Qed.

Lemma key_sym_eq x y : P x -> P y -> eqb x y = eqb y x.
Proof. intros Hx Hy. apply eq_true_iff_eq. split; by apply key_sym. Qed.

Lemma im_get_insert m k v k' :
  Forall (fun e => P e.1) m -> P k -> P k' ->
  im_get eqb (im_insert eqb m k v) k' = if eqb k k' then Some v else im_get eqb m k'.
Proof.
  intros Hm Hk Hk'. induction Hm as [|[k0 v0] m Hk0 Hm IH]; [done|]. simpl in *.
  destruct (eqb k0 k) eqn:E; simpl.
  - rewrite (key_congr k0 k k') by done. by destruct (eqb k k').
  - rewrite IH. destruct (eqb k0 k') eqn:E0; [|done].
    destruct (eqb k k') eqn:E1; [|done].
    assert (eqb k0 k = true) by (apply (key_trans k0 k' k); try done; by apply key_sym).
    congruence.
Qed.

Lemma im_insert_keys m k v :
  Forall (fun e => P e.1) m -> P k -> Forall (fun e => P e.1) (im_insert eqb m k v).
Proof.
  intros Hm Hk. induction Hm as [|[k0 v0] m Hk0 Hm IH]; simpl; [by repeat constructor|].
  destruct (eqb k0 k); by constructor.
Qed.

Lemma im_get_congr m k k' :
  Forall (fun e => P e.1) m -> P k -> P k' -> eqb k k' = true -> im_get eqb m k = im_get eqb m k'.
Proof.
  intros Hm Hk Hk' E. induction Hm as [|[k0 v0] m Hk0 Hm IH]; [done|]. simpl in *.
  rewrite IH, (key_sym_eq k0 k), (key_congr k k' k0), (key_sym_eq k' k0); done.
Qed.

(** No two entries have equal keys. *)
Definition distinct_keys {W} (m : list (K * W)) : Prop :=
  ForallOrdPairs (fun a b => eqb a.1 b.1 = false) m.

(** A loop that inserts [f e] under each entry's key, when there is one. *)
Lemma im_get_collect {W} (f : K * W -> option V) (l : list (K * W)) m k :
  Forall (fun e => P e.1) m -> Forall (fun e => P e.1) l -> distinct_keys l -> P k ->
  im_get eqb (fold_left (fun res e =>
      match f e with Some v => im_insert eqb res e.1 v | None => res end) l m) k =
    match find (fun e => eqb e.1 k) l with
    | Some e => match f e with Some v => Some v | None => im_get eqb m k end
    | None => im_get eqb m k
    end.
Proof.
  intros Hm Hl Hd Hk. revert m Hm. induction Hl as [|e l He Hl IH]; intros m Hm; [done|].
  inversion_clear Hd as [|? ? Hne Hd']. simpl.
  rewrite IH; [|done|destruct (f e); [by apply im_insert_keys|done]].
  destruct (eqb e.1 k) eqn:E.
  - assert (find (fun e => eqb e.1 k) l = None) as ->.
    { destruct (find _ l) as [x|] eqn:F; [|done]. apply find_some in F as [Hin Hx].
      rewrite List.Forall_forall in Hl, Hne. specialize (Hl _ Hin). specialize (Hne _ Hin).
      assert (eqb e.1 x.1 = true) by (apply (key_trans e.1 k x.1); try done; by apply key_sym).
      congruence. }
    destruct (f e); [|done]. rewrite im_get_insert by done. by rewrite E.
  - destruct (find _ l) as [x|]; [destruct (f x); [done|]|];
      (destruct (f e); [rewrite im_get_insert by done; by rewrite E|done]).
Qed.

Lemma im_get_find m k : im_get eqb m k = (fun e => e.2) <$> find (fun e => eqb e.1 k) m.
Proof. induction m as [|[k0 v0] m IH]; simpl; [done|]. by destruct (eqb k0 k). Qed.
End MapFacts.

(** The contract between [Eq] and [Hash] of the types the crates provide. *)
Class ExternalLaws `{External} : Prop := {
  date_feed_eq : forall a b, date_eqb a b = true -> date_feed a = date_feed b;
  time_feed_eq : forall a b, time_eqb a b = true -> time_feed a = time_feed b;
  datetime_feed_eq : forall a b, datetime_eqb a b = true -> datetime_feed a = datetime_feed b;
  decimal_normalized_eq : forall a b, decimal_eqb a b = true ->
    decimal_normalized a = decimal_normalized b;
  rational_parts_eq : forall a b, rational_eqb a b = true ->
    rational_numer a = rational_numer b /\ rational_denom a = rational_denom b
}.

Section KeyTheory.
Context `{External}.
Implicit Types (x y : ValueKey).

(** Induction through the tuple nesting. *)
Lemma ValueKey_tuple_ind (Q : ValueKey -> Prop) :
  (forall items, Forall Q items -> Q (KTuple items)) ->
  (forall k, match k with KTuple _ => True | _ => Q k end) ->
  forall k, Q k.
Proof.
  intros Htuple Hother. fix IH 1. intros k. specialize (Hother k).
  destruct k as [| | | | | | | |items|items| | | | | | |]; try exact Hother.
  apply Htuple. induction items as [|k items IHl]; constructor; [apply IH|exact IHl].
Qed.

(** Machine integers in range, and no frozenset inside. *)
Fixpoint key_regular (k : ValueKey) : bool :=
  match k with
  | KInt i => in_i64 i
  | KTuple items => forallb key_regular items
  | KFrozenset _ => false
  | _ => true
  end.

(** The instance keys a key contains, with the hash each stores. *)
Fixpoint instances (k : ValueKey) : list (Z * Value) :=
  match k with
  | KInstance hash v => [(hash, v)]
  | KTuple items => flat_map instances items
  | _ => []
  end.

Lemma in_i64_b2z b : in_i64 (Z.b2z b) = true.
Proof. by destruct b. Qed.

Lemma f64_as_i64_bound f : in_i64 (f64_as_i64 f) = true.
Proof.
  apply in_i64_spec. unfold f64_as_i64, i64_min, i64_max.
  destruct f as [s|[]| |s m e]; try lia; destruct (f64_trunc_Z _); lia.
Qed.

Lemma float_key_i64_bound f i : float_key_i64 f = Some i -> in_i64 i = true.
Proof.
  unfold float_key_i64. destruct (_ && _); [|done]. destruct (f64_eqb _ _); [|done].
  intros [= <-]. apply f64_as_i64_bound.
Qed.

Lemma length_eq_of_all2 structural a b :
  key_eqb structural (KTuple a) (KTuple b) = true -> length a = length b.
Proof.
  revert b. induction a as [|x a IH]; intros [|y b]; simpl; try done.
  intros [_ E]%andb_true_iff. f_equal. by apply IH.
Qed.

Lemma key_feed_tuple a b :
  length a = length b -> flat_map key_feed a = flat_map key_feed b ->
  key_feed (KTuple a) = key_feed (KTuple b).
Proof. intros E1 E2. simpl. by rewrite E1, E2. Qed.

Section Agreement.
Context `{!ExternalLaws} (structural : Value -> Value -> bool).

(** Instances the identity comparison equates store the same hash. *)
Definition coherent x y : Prop :=
  forall ha a hb b, In (ha, a) (instances x) -> In (hb, b) (instances y) ->
    instance_eqb structural a b = true -> ha = hb.

Ltac key_cases :=
  unfold same_bits in *;
  repeat match goal with
  | E : bool_decide _ = true |- _ => apply bool_decide_eq_true in E
  | E : (_ =? _) = true |- _ => apply Z.eqb_eq in E
  | E : Bool.eqb _ _ = true |- _ => apply Bool.eqb_prop in E
  | E : _ && _ = true |- _ => apply andb_true_iff in E as [? ?]
  | E : match float_key_i64 ?f with _ => _ end = true |- _ =>
      destruct (float_key_i64 f) eqn:?; [|discriminate]
  | E : float_key_i64 ?f = Some ?i |- _ =>
      lazymatch goal with
      | _ : in_i64 i = true |- _ => fail
      | _ => pose proof (float_key_i64_bound _ _ E)
      end
  end; subst; simpl in *;
  repeat match goal with
  | E : float_key_i64 ?f = Some ?i |- context [float_key_i64 ?f] => rewrite E
  | E : in_i64 ?i = true |- context [in_i64 ?i] => rewrite E
  | |- context [in_i64 (Z.b2z ?b)] => rewrite in_i64_b2z
  end.

Lemma key_feed_agrees x y :
  key_regular x = true -> key_regular y = true -> coherent x y ->
  key_eqb structural x y = true -> key_feed x = key_feed y.
Proof.
  revert x y. refine (ValueKey_tuple_ind _ _ _).
  - intros items IH y Hx Hy Hc E. destruct y as [| | | | | | | |items'| | | | | | | |]; try discriminate E.
    apply key_feed_tuple; [by eapply length_eq_of_all2|].
    revert items' Hy Hc E. induction IH as [|k items IHk _ IHl]; intros [|k' items']; try done.
    intros Hy Hc E. cbn in Hx, Hy, E. apply andb_true_iff in Hx as [Hk Hx].
    apply andb_true_iff in Hy as [Hk' Hy]. apply andb_true_iff in E as [Ek E]. simpl. f_equal.
    + apply IHk; try done. intros ha a hb b Ha Hb. apply Hc; simpl; apply in_app_iff; by left.
    + apply IHl; try done. intros ha a hb b Ha Hb. apply Hc; simpl; apply in_app_iff; by right.
  - intros x. destruct x; try done; intros y Hx Hy Hc E; destruct y; try discriminate E;
      cbn in Hx, Hy, E |- *; key_cases; try done.
    + f_equal. f_equal. eapply Hc; [by left|by left|done].
    + by rewrite (date_feed_eq _ _ E).
    + by rewrite (time_feed_eq _ _ E).
    + destruct tz_offset_secs, tz_offset_secs0; try done; by rewrite (datetime_feed_eq _ _ E).
    + by rewrite (decimal_normalized_eq _ _ E).
    + by destruct (rational_parts_eq _ _ E) as [-> ->].
Qed.
End Agreement.
End KeyTheory.

Section CounterTheory.
Context `{External} (eqb : ValueKey -> ValueKey -> bool) (P : ValueKey -> Prop).
Context `{!KeyLaws eqb P}.
Implicit Types (a b : list (ValueKey * Value)) (k : ValueKey).

(** The count a counter holds for a key: zero for a missing one. *)
Definition count a k : Z := default 0 (counter_int <$> im_get eqb a k).

Definition positive_count (r : Z) : option Value := if r >? 0 then Some (VInt r) else None.

Lemma combine_left_get b op a k :
  Forall (fun e => P e.1) a -> Forall (fun e => P e.1) b -> distinct_keys eqb a -> P k ->
  im_get eqb (fold_left (combine_left eqb b op) a []) k =
    if im_contains eqb a k then positive_count (op (count a k) (count b k)) else None.
Proof.
  intros Ha Hb Hd Hk.
  rewrite (fold_left_pointwise _ (fun res e =>
    match positive_count (op (counter_int e.2) (count b e.1)) with
    | Some v => im_insert eqb res e.1 v | None => res end)).
  2:{ intros res e. unfold combine_left, positive_count, count.
      destruct (im_get eqb b e.1); simpl; by destruct (_ >? _). }
  rewrite (im_get_collect eqb P) by done. unfold im_contains, count.
  rewrite (im_get_find eqb a k). destruct (find _ a) as [e|] eqn:F; [|done]. simpl.
  apply find_some in F as [Hin He]. rewrite List.Forall_forall in Ha.
  rewrite (im_get_congr eqb P b e.1 k); auto. by destruct (positive_count _).
Qed.

Lemma counter_combine_get a b op k :
  Forall (fun e => P e.1) a -> Forall (fun e => P e.1) b ->
  distinct_keys eqb a -> distinct_keys eqb b -> P k -> op 0 0 <= 0 ->
  im_get eqb (counter_combine_op eqb a b op) k = positive_count (op (count a k) (count b k)).
Proof.
  intros Ha Hb Hda Hdb Hk Hop. unfold counter_combine_op.
  rewrite (fold_left_pointwise (combine_right eqb a op) (fun res e =>
    match (if im_contains eqb a e.1 then None else positive_count (op 0 (counter_int e.2))) with
    | Some v => im_insert eqb res e.1 v | None => res end)).
  2:{ intros res e. unfold combine_right, positive_count.
      destruct (im_contains eqb a e.1); [done|]. by destruct (_ >? _). }
  rewrite (im_get_collect eqb P); [|clear -Ha KeyLaws0|done..].
  2:{ assert (forall res, Forall (fun e => P e.1) res ->
        Forall (fun e => P e.1) (fold_left (combine_left eqb b op) a res)) as Hk; [|by apply Hk].
      induction Ha as [|e a He Ha IH]; intros res Hres; [done|]. simpl. apply IH.
      unfold combine_left. destruct (_ >? _); [by apply im_insert_keys|done]. }
  rewrite combine_left_get by done.
  destruct (find _ b) as [e|] eqn:F.
  - pose proof F as F0. apply find_some in F as [Hin He].
    assert (count b k = counter_int e.2) as Hcb.
    { unfold count. rewrite im_get_find, F0. done. }
    rewrite List.Forall_forall in Hb. specialize (Hb _ Hin). simpl in Hb.
    unfold im_contains. rewrite (im_get_congr eqb P a e.1 k) by done.
    destruct (im_get eqb a k) eqn:Ea; [done|].
    assert (count a k = 0) as -> by (unfold count; by rewrite Ea).
    rewrite Hcb. by destruct (positive_count _).
  - assert (count b k = 0) as -> by (unfold count; by rewrite im_get_find, F).
    unfold im_contains. destruct (im_get eqb a k) eqn:Ea; [done|].
    assert (count a k = 0) as -> by (unfold count; by rewrite Ea).
    unfold positive_count. by destruct (Z.gtb_spec (op 0 0) 0); [lia|].
Qed.
End CounterTheory.

(** A concrete choice of the external types, for the witnesses. *)
Definition sample_external : External := {|
  NaiveDate := Z; NaiveTime := Z; NaiveDateTime := Z; BigDecimal := Z * Z; BigRational := Z * Z;
  date_eqb := Z.eqb; time_eqb := Z.eqb; datetime_eqb := Z.eqb;
  datetime_minus_seconds := Z.sub;
  decimal_eqb := fun a b => bool_decide (a = b);
  decimal_of_int := fun n => (n, 0);
  decimal_is_zero := fun d => d.1 =? 0;
  decimal_opp := fun d => (- d.1, d.2);
  decimal_normalized := fun d => d;
  decimal_fractional_digits := fun d => d.2;
  decimal_scale_zero := fun d => d.1;
  rational_eqb := fun a b => bool_decide (a = b);
  rational_opp := fun r => (- r.1, r.2);
  rational_numer := fst; rational_denom := snd;
  date_feed := fun d => [d]; time_feed := fun t => [t]; datetime_feed := fun t => [t];
  bigint_feed := fun n => [n];
  bigint_to_f64 := fun n => Some (f64_of_Z n);
  default_hasher := foldr Z.add 0
|}.

#[export] Instance sample_external_laws : @ExternalLaws sample_external.
Proof.
  constructor; simpl; try (intros a b E; apply Z.eqb_eq in E; by subst);
    intros a b E; apply bool_decide_eq_true in E; by subst.
Qed.

(** Counters keyed by text, the common case, satisfy the key laws. *)
Definition is_text_key `{External} (k : ValueKey) : Prop := exists s, k = KString s.

#[export] Instance text_key_laws `{External} structural :
  KeyLaws (key_eqb structural) is_text_key.
Proof.
  constructor.
  - intros x [s ->]. simpl. by apply bool_decide_eq_true.
  - intros x y [s ->] [t ->]. simpl. rewrite !bool_decide_eq_true. done.
  - intros x y z [s ->] [t ->] [u ->]. simpl. rewrite !bool_decide_eq_true. congruence.
Qed.

(** C40: equal keys hash alike. For keys with machine integers in range and no
    frozenset inside, and provided instances that are the same object store the
    same hash, the words written to the hasher agree whenever the hand-written
    equality says two keys are equal (int, bool, big int and float included). *)
Theorem key_hash_agreement `{External} `{!ExternalLaws} structural (x y : ValueKey)
    (Hx : key_regular x = true) (Hy : key_regular y = true) (Hc : coherent structural x y)
    (Heq : key_eqb structural x y = true) :
  key_feed x = key_feed y.
Proof. by apply (key_feed_agrees structural). Qed.

Lemma key_hash_agreement_witness :
  @key_feed sample_external (KTuple [KBool true; KFloat (f64_of_Z 2)]) =
  @key_feed sample_external (KTuple [KInt 1; KBigInt 2]).
Proof.
  apply (@key_hash_agreement sample_external _ (fun _ _ => false)); try done.
  intros ha a hb b Ha. destruct Ha.
Defined.

(** Key equality is not transitive. The float keys [-0.0] and [0.0] both
    equal the int key [0] but not each other, and the float [2 ** 63] equals the
    int [2 ** 63 - 1], through the saturating cast, but not the int [2 ** 63]. *)
Theorem key_equality_not_transitive `{External} structural :
  let eqb := key_eqb structural in
  eqb (KFloat (S754_zero true)) (KInt 0) = true /\
  eqb (KInt 0) (KFloat (S754_zero false)) = true /\
  eqb (KFloat (S754_zero true)) (KFloat (S754_zero false)) = false /\
  eqb (KFloat (f64_of_Z (2 ^ 63))) (KInt (2 ^ 63 - 1)) = true /\
  eqb (KFloat (f64_of_Z (2 ^ 63))) (KBigInt (2 ^ 63)) = false.
Proof. by vm_compute. Qed.

(** [a | b] and [a & b] on counters. Where key equality is an equivalence,
    the combination of two counters holds, for every key, exactly the positive
    values of [op] on the two counts, a missing key counting zero. *)
Theorem counter_combine_counts `{External} eqb (P : ValueKey -> Prop) `{!KeyLaws eqb P}
    (a b : list (ValueKey * Value)) (op : Z -> Z -> Z) (k : ValueKey)
    (Ha : Forall (fun e => P e.1) a) (Hb : Forall (fun e => P e.1) b)
    (Hda : distinct_keys eqb a) (Hdb : distinct_keys eqb b) (Hk : P k) (Hop : op 0 0 <= 0) :
  im_get eqb (counter_combine_op eqb a b op) k =
    let r := op (count eqb a k) (count eqb b k) in
    if r >? 0 then Some (VInt r) else None.
Proof. by apply (counter_combine_get eqb P). Qed.

Lemma counter_combine_counts_witness :
  let eqb := @key_eqb sample_external (fun _ _ => false) in
  let a := [(KString [97], VInt 3); (KString [98], VInt 1)] in
  let b := [(KString [98], VInt 5); (KString [99], VInt (-2))] in
  im_get eqb (counter_combine_op eqb a b Z.max) (KString [98]) = Some (VInt 5).
Proof.
  intros eqb a b.
  rewrite (@counter_combine_counts sample_external eqb is_text_key _ a b Z.max (KString [98])).
  - by vm_compute.
  - repeat (constructor; [by eexists|]). constructor.
  - repeat (constructor; [by eexists|]). constructor.
  - repeat constructor.
  - repeat constructor.
  - by eexists.
  - done.
Defined.
