(* ===== verification/Arith.v ===== *)
(** The builtin arithmetic kernels ([operations.rs]): the integer operations with
    their [i64] fast path and promotion to big integers, true, floor and modulo
    division, powers, shifts, bit operations and set algebra, concatenation and
    repetition of sequences, the matrix product, and the unary operators. *)
From Stdlib Require Import ZArith Lia Ascii String SpecFloat.
From stdpp Require Import base tactics list numbers option strings pretty gmap.
From S2P Require Import Prelude PySet Values Errors F64 Keys.

Definition MAX_COLLECTION_SIZE : Z := 10000000.
Definition MAX_STRING_SIZE : Z := 100 * 1024 * 1024.
Definition usize_max : Z := 2 ^ 64 - 1.

Section Scalars.
Context `{External}.

Definition repeat_count (n : Z) : Z := if (0 <=? n) && (n <=? usize_max) then n else usize_max.

Definition saturating_mul (a b : Z) : Z := Z.min (a * b) usize_max.

(** [i64::checked_add] and its siblings. *)
Definition checked (n : Z) : option Z := if in_i64 n then Some n else None.

Definition to_float (v : Value) : EvalResult f64 :=
  match v with
  | VInt i => Ok (f64_of_Z i)
  | VBigInt b =>
      match bigint_to_f64 b with
      | Some f => Ok f
      | None => raise "OverflowError" "int too large to convert to float"
      end
  | VFloat f => Ok f
  | VBool b => Ok (if b then f64_of_Z 1 else f64_zero)
  | _ => fail (TypeError ("unsupported operand type for numeric operation: '" ++ type_name v ++ "'"))
  end.

Definition to_int (v : Value) : EvalResult Z :=
  match value_as_i64 v with
  | Some n => Ok n
  | None =>
      match v with
      | VBigInt _ => raise "OverflowError" "Python int too large to convert to C long"
      | _ => fail (TypeError ("unsupported operand type for integer operation: '" ++ type_name v ++ "'"))
      end
  end.

Definition unsupported {A} (op : string) (left right : Value) : EvalResult A :=
  fail (TypeError ("unsupported operand type(s) for " ++ op ++ ": '" ++ type_name left ++
                   "' and '" ++ type_name right ++ "'")).

Definition require_int_operands (op : string) (left right : Value) : EvalResult () :=
  match value_as_bigint left, value_as_bigint right with
  | Some _, Some _ => Ok ()
  | _, _ => unsupported op left right
  end.

Definition to_bigint (v : Value) : EvalResult Z :=
  match value_as_bigint v with
  | Some n => Ok n
  | None => fail (TypeError ("unsupported operand type for integer operation: '" ++ type_name v ++ "'"))
  end.

(** The common shape of [int_add], [int_sub] and [int_mul]. *)
Definition int_op (op : Z -> Z -> Z) (left right : Value) : EvalResult Value :=
  let slow := l ← to_bigint left; r ← to_bigint right; Ok (int_from_bigint (op l r)) in
  match left, right with
  | VInt a, VInt b => match checked (op a b) with Some v => Ok (VInt v) | None => slow end
  | _, _ => slow
  end.

Definition int_add : Value -> Value -> EvalResult Value := int_op Z.add.
Definition int_sub : Value -> Value -> EvalResult Value := int_op Z.sub.
Definition int_mul : Value -> Value -> EvalResult Value := int_op Z.mul.

Definition either_is_float (left right : Value) : bool :=
  match left, right with VFloat _, _ | _, VFloat _ => true | _, _ => false end.

Definition div_values (left right : Value) : EvalResult Value :=
  l ← to_float left;
  r ← to_float right;
  if f64_eqb r f64_zero then
    zero_division (if either_is_float left right then "float division by zero" else "division by zero")
  else Ok (VFloat (f64_div l r)).

(** Rust's [/] and [%] on [i64] truncate towards zero. *)
Definition python_floordiv (a b : Z) : Z :=
  let d := Z.quot a b in
  let r := Z.rem a b in
  if negb (r =? 0) && (Z.lxor r b <? 0) then d - 1 else d.

Definition python_mod (a b : Z) : Z :=
  let r := Z.rem a b in
  if negb (r =? 0) && (Z.lxor r b <? 0) then r + b else r.

Definition floordiv_values (left right : Value) : EvalResult Value :=
  if either_is_float left right then
    l ← to_float left;
    r ← to_float right;
    if f64_eqb r f64_zero then zero_division "float floor division by zero"
    else Ok (VFloat (f64_floor (f64_div l r)))
  else
    let slow :=
      l ← to_bigint left;
      r ← to_bigint right;
      if r =? 0 then zero_division "integer division or modulo by zero"
      else Ok (int_from_bigint (l / r)) in
    match left, right with
    | VInt a, VInt b =>
        if b =? 0 then zero_division "integer division or modulo by zero"
        else if negb ((a =? i64_min) && (b =? -1)) then Ok (VInt (python_floordiv a b))
        else slow
    | _, _ => slow
    end.

(** The numeric part of [mod_values]; a text or bytes left operand formats. *)
Definition mod_numeric (left right : Value) : EvalResult Value :=
  if either_is_float left right then
    l ← to_float left;
    r ← to_float right;
    if f64_eqb r f64_zero then zero_division "float modulo"
    else Ok (VFloat (f64_fma r (f64_neg (f64_floor (f64_div l r))) l))
  else
    let slow :=
      l ← to_bigint left;
      r ← to_bigint right;
      if r =? 0 then zero_division "integer modulo by zero"
      else Ok (int_from_bigint (l mod r)) in
    match left, right with
    | VInt a, VInt b =>
        if b =? 0 then zero_division "integer modulo by zero"
        else if negb ((a =? i64_min) && (b =? -1)) then Ok (VInt (python_mod a b))
        else slow
    | _, _ => slow
    end.

Definition limited (n max_int_bits : Z) : EvalResult Value :=
  match int_from_bigint_limited n max_int_bits with
  | inl v => Ok v
  | inr e => Err (Exception e)
  end.

Definition in_u32 (n : Z) : bool := (0 <=? n) && (n <=? 2 ^ 32 - 1).

(** The integer branch of [pow_values]; a negative exponent leaves the integers
    through the platform's [powf]. *)
Definition pow_integers (powf : f64 -> f64 -> f64) (left right : Value) (max_int_bits : Z) :
    EvalResult Value :=
  l ← match value_as_bigint left with Some l => Ok l | None => unsupported "**" left right end;
  r ← match value_as_bigint right with Some r => Ok r | None => unsupported "**" left right end;
  if r <? 0 then
    if l =? 0 then zero_division "0.0 cannot be raised to a negative power"
    else Ok (VFloat (powf (default (f64_inf false) (bigint_to_f64 l))
                          (default (f64_inf true) (bigint_to_f64 r))))
  else if r =? 0 then Ok (VInt 1)
  else if negb (in_u32 r) then raise "OverflowError" "exponent too large for integer power"
  else if r >? 1000000 then raise "OverflowError" "exponent too large for integer power"
  else
    let nbits := bits l in
    if (2 <=? nbits) && (max_int_bits <=? saturating_mul (nbits - 1) r)
    then raise "OverflowError" "integer power result too large to represent"
    else limited (l ^ r) max_int_bits.

Definition lshift_values (left right : Value) (max_int_bits : Z) : EvalResult Value :=
  _ ← require_int_operands "<<" left right;
  l ← to_bigint left;
  r ← to_bigint right;
  if r <? 0 then fail (ValueError "negative shift count")
  else if negb (in_u32 r) then raise "OverflowError" "shift count too large"
  else if r >? 1000000 then raise "OverflowError" "shift count too large"
  else limited (Z.shiftl l r) max_int_bits.

Definition rshift_values (left right : Value) (max_int_bits : Z) : EvalResult Value :=
  _ ← require_int_operands ">>" left right;
  l ← to_bigint left;
  r ← to_bigint right;
  if r <? 0 then fail (ValueError "negative shift count")
  else if negb (in_u32 r) then raise "OverflowError" "shift count too large"
  else limited (Z.shiftr l r) max_int_bits.

Definition unwrap_enum_for_arith (v : Value) : Value :=
  match v with
  | VEnumMember _ _ inner (EInt | EStr) => inner
  | _ => v
  end.
End Scalars.

(** * Operators on values that may allocate

    The result is the value and the heap after the operation. *)
Section Containers.
Context `{External}.
(** The equality and hash the set table is instantiated with, in a heap; the
    key equality of the maps; the platform's [powf]; and the [printf]-style
    formatter a text or bytes template hands over to. *)
Variable elem : Heap -> SetElem Value.
Variable key_eq : ValueKey -> ValueKey -> bool.
Variable powf : f64 -> f64 -> f64.

Abbreviation HResult := (EvalResult (Value * Heap)).

Definition pure (h : Heap) (r : EvalResult Value) : HResult := v ← r; Ok (v, h).

Definition new_list (h : Heap) (xs : list Value) : HResult :=
  let (l, h') := shared_list h xs in Ok (VList l, h').
Definition new_bytearray (h : Heap) (bs : list Z) : HResult :=
  let (l, h') := shared_bytes h bs in Ok (VByteArray l, h').

Definition add_values (h : Heap) (left right : Value) : HResult :=
  match left, right with
  | VString a, VString b => Ok (VString (a ++ b), h)
  | VBytes a, VBytes b => Ok (VBytes (a ++ b), h)
  | VByteArray a, VBytes b => new_bytearray h (bytes_at h a ++ b)
  | VByteArray a, VByteArray b => new_bytearray h (bytes_at h a ++ bytes_at h b)
  | VBytes a, VByteArray b => Ok (VBytes (a ++ bytes_at h b), h)
  | VList a, VList b => new_list h (list_at h a ++ list_at h b)
  | VTuple a, VTuple b => Ok (VTuple (a ++ b), h)
  | _, _ =>
      pure h (if either_is_float left right
              then l ← to_float left; r ← to_float right; Ok (VFloat (f64_add l r))
              else int_add left right)
  end.

Definition set_like_body (h : Heap) (v : Value) : option (SetBody Value) :=
  match v with VSet l | VFrozenset l => sets h !! l | _ => None end.

(** The result takes the concrete type of the left operand. *)
Definition wrap_set_body (h : Heap) (left : Value) (body : option (SetBody Value)) : HResult :=
  body ← or_panic body;
  let (l, h') := shared_set h body in
  Ok (match left with VFrozenset _ => VFrozenset l | _ => VSet l end, h').

Definition sub_values (h : Heap) (left right : Value) : HResult :=
  match set_like_body h left, set_like_body h right with
  | Some a, Some b => wrap_set_body h left (@difference_with _ (elem h) a b)
  | _, _ =>
      pure h (if either_is_float left right
              then l ← to_float left; r ← to_float right; Ok (VFloat (f64_sub l r))
              else int_sub left right)
  end.

(** One repetition arm of [mult_values]: empty for a count that is not positive,
    otherwise the copies if their total size stays within the limit. *)
Definition repetition {A} (what unit : string) (limit size : Z) (xs : list A) (n : Z) :
    EvalResult (list A) :=
  if n <=? 0 then Ok []
  else
    let result_size := saturating_mul size (repeat_count n) in
    if result_size >? limit then
      fail (LimitExceeded (what ++ " repetition would create " ++ pretty result_size ++ " " ++
                           unit ++ " (limit: " ++ pretty limit ++ ")"))
    else Ok (concat (repeat xs (Z.to_nat n))).

Definition repeat_text (s : text) (n : Z) : EvalResult text :=
  repetition "string" "bytes" MAX_STRING_SIZE (text_len s) s n.
Definition repeat_bytes (b : list Z) (n : Z) : EvalResult (list Z) :=
  repetition "bytes" "bytes" MAX_STRING_SIZE (Z.of_nat (length b)) b n.
Definition repeat_items (what : string) (xs : list Value) (n : Z) : EvalResult (list Value) :=
  repetition what "elements" MAX_COLLECTION_SIZE (Z.of_nat (length xs)) xs n.

Definition is_small_int (v : Value) : bool := match v with VInt _ | VBool _ => true | _ => false end.
Definition is_seq (v : Value) : bool :=
  match v with VString _ | VList _ | VTuple _ | VBytes _ | VByteArray _ => true | _ => false end.
Definition is_int (v : Value) : bool :=
  match v with VInt _ | VBool _ | VBigInt _ => true | _ => false end.

Definition mult_scalars (left right : Value) : EvalResult Value :=
  let non_int v :=
    fail (TypeError ("can't multiply sequence by non-int of type '" ++ type_name v ++ "'")) in
  if is_seq left && negb (is_int right) then non_int right
  else if is_seq right && negb (is_int left) then non_int left
  else if either_is_float left right
  then l ← to_float left; r ← to_float right; Ok (VFloat (f64_mul l r))
  else int_mul left right.

Definition mult_values (h : Heap) (left right : Value) : HResult :=
  match left, right with
  | VString s, (VInt _ | VBool _) =>
      n ← to_int right; r ← repeat_text s n; Ok (VString r, h)
  | (VInt _ | VBool _), VString s =>
      n ← to_int left; r ← repeat_text s n; Ok (VString r, h)
  | VBytes b, (VInt _ | VBool _) =>
      n ← to_int right; r ← repeat_bytes b n; Ok (VBytes r, h)
  | VByteArray b, (VInt _ | VBool _) =>
      n ← to_int right; r ← repeat_bytes (bytes_at h b) n; new_bytearray h r
  | (VInt _ | VBool _), VBytes b =>
      n ← to_int left; r ← repeat_bytes b n; Ok (VBytes r, h)
  | VList l, (VInt _ | VBool _) =>
      n ← to_int right; r ← repeat_items "list" (list_at h l) n; new_list h r
  | (VInt _ | VBool _), VList l =>
      n ← to_int left; r ← repeat_items "list" (list_at h l) n; new_list h r
  | VTuple t, (VInt _ | VBool _) =>
      n ← to_int right; r ← repeat_items "tuple" t n; Ok (VTuple r, h)
  | _, _ => pure h (mult_scalars left right)
  end.

(** ** Bit operations, set algebra and dict merge *)

Definition merge_dicts (a b : list (ValueKey * Value)) : list (ValueKey * Value) :=
  fold_left (fun result e => im_insert key_eq result e.1 e.2) b a.

Definition is_ordered_dict (v : Value) : bool := match v with VOrderedDict _ => true | _ => false end.

Definition int_bitop (name : string) (op : Z -> Z -> Z) (left right : Value) : EvalResult Value :=
  _ ← require_int_operands name left right;
  l ← to_bigint left;
  r ← to_bigint right;
  Ok (int_from_bigint (op l r)).

(** The scalar tail of the three bit operations: [bool op bool] is a bool,
    machine integers stay machine integers. *)
Definition bit_scalars (name : string) (op : Z -> Z -> Z) (bop : bool -> bool -> bool)
    (left right : Value) : EvalResult Value :=
  match left, right with
  | VBool a, VBool b => Ok (VBool (bop a b))
  | VInt a, VInt b => Ok (VInt (op a b))
  | _, _ => int_bitop name op left right
  end.

Definition bitor_values (h : Heap) (left right : Value) : HResult :=
  match left, right with
  | VCounter a, VCounter b => Ok (VCounter (counter_combine_op key_eq a b Z.max), h)
  | _, _ =>
      match set_like_body h left, set_like_body h right with
      | Some a, Some b => wrap_set_body h left (@union_with _ (elem h) a b)
      | _, _ =>
          match as_dict left, as_dict right with
          | Some a, Some b =>
              let (l, h') := shared_dict h (merge_dicts (dict_at h a) (dict_at h b)) in
              Ok (if is_ordered_dict left || is_ordered_dict right then VOrderedDict l else VDict l, h')
          | _, _ => pure h (bit_scalars "|" Z.lor orb left right)
          end
      end
  end.

Definition bitxor_values (h : Heap) (left right : Value) : HResult :=
  match set_like_body h left, set_like_body h right with
  | Some a, Some b => wrap_set_body h left (@symmetric_difference_with _ (elem h) a b)
  | _, _ => pure h (bit_scalars "^" Z.lxor xorb left right)
  end.

Definition bitand_values (h : Heap) (left right : Value) : HResult :=
  match left, right with
  | VCounter a, VCounter b => Ok (VCounter (counter_combine_op key_eq a b Z.min), h)
  | _, _ =>
      match set_like_body h left, set_like_body h right with
      | Some a, Some b => wrap_set_body h left (@intersection_with _ (elem h) a b)
      | _, _ => pure h (bit_scalars "&" Z.land andb left right)
      end
  end.

(** ** The matrix product *)

Fixpoint to_floats (cells : list Value) : EvalResult (list f64) :=
  match cells with
  | [] => Ok []
  | c :: cells => f ← to_float c; fs ← to_floats cells; Ok (f :: fs)
  end.

(** The row-extraction loop: every row a list of the first row's length. *)
Fixpoint matrix_rows (h : Heap) (side : string) (rows : list Value) (n_cols : option nat) :
    EvalResult (list (list f64) * option nat) :=
  match rows with
  | [] => Ok ([], n_cols)
  | VList l :: rows =>
      let cells := list_at h l in
      if bool_decide (default (length cells) n_cols = length cells) then
        r ← to_floats cells;
        '(rs, n) ← matrix_rows h side rows (Some (length cells));
        Ok (r :: rs, n)
      else fail (ValueError ("matmul: " ++ side ++ " operand rows must have equal length"))
  | _ => fail (TypeError ("@ requires a list of lists on the " ++ side))
  end.

(** [sum += ai * brow[col]] over the row; [None] is the index panic. *)
Fixpoint dot (row : list f64) (b_rows : list (list f64)) (col : nat) (sum : f64) : option f64 :=
  match row, b_rows with
  | a :: row, b :: b_rows => x ← b !! col; dot row b_rows col (f64_add sum (f64_mul a x))
  | _, _ => Some sum
  end.

Definition matrix_cell (sum : f64) : Value :=
  if f64_integral sum && f64_leb (f64_of_Z i64_min) sum && f64_leb sum (f64_of_Z i64_max)
  then VInt (f64_as_i64 sum) else VFloat sum.

Fixpoint alloc_rows (h : Heap) (rows : list (list Value)) : list Value * Heap :=
  match rows with
  | [] => ([], h)
  | r :: rows =>
      let (l, h') := shared_list h r in
      let (vs, h'') := alloc_rows h' rows in (VList l :: vs, h'')
  end.

Definition matmult_values (h : Heap) (left right : Value) : HResult :=
  match left, right with
  | VList a, VList b =>
      let a_rows := list_at h a in
      let b_rows := list_at h b in
      if bool_decide (a_rows = []) || bool_decide (b_rows = []) then new_list h []
      else
        '(ra, ka) ← matrix_rows h "left" a_rows None;
        '(rb, kb) ← matrix_rows h "right" b_rows None;
        let k := default 0%nat ka in
        let n := default 0%nat kb in
        if negb (bool_decide (length rb = k)) then
          fail (ValueError ("matmul: shapes (" ++ pretty (length ra) ++ "," ++ pretty k ++ ") and (" ++
                            pretty (length rb) ++ "," ++ pretty n ++ ") not aligned"))
        else
          out ← or_panic (mapM (fun row => mapM (fun col => matrix_cell <$> dot row rb col f64_zero) (seq 0 n)) ra);
          let (vs, h') := alloc_rows h out in new_list h' vs
  | _, _ =>
      fail (TypeError ("unsupported operand type(s) for @: '" ++ type_name left ++ "' and '" ++
                       type_name right ++ "' (see CONFORMANCE.md#unsupported-language-features)"))
  end.

(** ** Unary operators *)

Definition neg_decimal (d : BigDecimal) (kind : DecimalKind) : Value :=
  match kind with
  | Nan => VDecimal (decimal_of_int 0) Nan
  | PosInf => VDecimal (decimal_of_int 0) NegInf
  | NegInf => VDecimal (decimal_of_int 0) PosInf
  | _ => VDecimal (decimal_opp d) Normal
  end.

(** An [IntEnum] or [IntFlag] member behaves as its integer. *)
Definition unwrap_int_enum (v : Value) : Value :=
  match v with VEnumMember _ _ value (EInt | EIntFlag) => value | _ => v end.

Definition bad_operand {A} (op : string) (v : Value) : EvalResult A :=
  fail (TypeError ("bad operand type for unary " ++ op ++ ": '" ++ type_name v ++ "'")).

Definition unary_add (operand : Value) : EvalResult Value :=
  match operand with
  | VInt _ | VBigInt _ | VFloat _ | VComplex _ _ | VDecimal _ _ | VFraction _ => Ok operand
  | VBool b => Ok (VInt (Z.b2z b))
  | VTimeDelta _ => Ok operand
  | VCounter c => Ok (VCounter (counter_unary key_eq c false))
  | _ => bad_operand "+" operand
  end.

Definition unary_sub (operand : Value) : EvalResult Value :=
  match operand with
  | VInt i => Ok (match checked (- i) with Some v => VInt v | None => int_from_bigint (- i) end)
  | VBigInt b => Ok (int_from_bigint (- b))
  | VFloat f => Ok (VFloat (f64_neg f))
  | VComplex re im => Ok (VComplex (f64_neg re) (f64_neg im))
  | VBool b => Ok (VInt (if b then -1 else 0))
  | VDecimal d k => Ok (neg_decimal d k)
  | VFraction fr => Ok (VFraction (rational_opp fr))
  | VCounter c => Ok (VCounter (counter_unary key_eq c true))
  | VTimeDelta us => Ok (VTimeDelta (swrap64 (- us)))
  | _ => bad_operand "-" operand
  end.

(** Rust's [!] on [i64] is the two's complement [lnot]. *)
Definition unary_invert (operand : Value) : EvalResult Value :=
  match operand with
  | VInt i => Ok (VInt (Z.lnot i))
  | VBool b => Ok (VInt (Z.lnot (Z.b2z b)))
  | VBigInt _ => n ← to_bigint operand; Ok (int_from_bigint (- n - 1))
  | _ => bad_operand "~" operand
  end.
End Containers.
