(* ===== verification/ArithThms.v ===== *)
(** The integer kernels are exact at every width: each operator computes the
    mathematical result in normal form, on every branch. *)
From Stdlib Require Import ZArith Lia Ascii String SpecFloat.
From stdpp Require Import base tactics list numbers option strings pretty gmap.
From S2P Require Import Prelude PySet Values Errors F64 Keys Arith.

(** * Bounds *)

Lemma in_i64_shiftr z : in_i64 z = true <-> Z.shiftr z 63 = 0 \/ Z.shiftr z 63 = -1.
Proof.
  rewrite in_i64_spec, !Z.shiftr_div_pow2 by lia. unfold i64_min, i64_max.
  pose proof (Z.div_mod z (2 ^ 63) ltac:(lia)). pose proof (Z.mod_pos_bound z (2 ^ 63) ltac:(lia)).
  split; intros; [|lia].
  assert (-1 <= z / 2 ^ 63 <= 0); [|lia].
  split; [apply Z.div_le_lower_bound; lia|]. apply Z.lt_succ_r, Z.div_lt_upper_bound; lia.
Qed.

Ltac i64_bits distr :=
  intros Ha Hb; apply in_i64_shiftr; rewrite distr;
  apply in_i64_shiftr in Ha, Hb; destruct Ha as [-> | ->], Hb as [-> | ->]; vm_compute; auto.

Lemma in_i64_lor a b : in_i64 a = true -> in_i64 b = true -> in_i64 (Z.lor a b) = true.
Proof. i64_bits Z.shiftr_lor. Qed.
Lemma in_i64_land a b : in_i64 a = true -> in_i64 b = true -> in_i64 (Z.land a b) = true.
Proof. i64_bits Z.shiftr_land. Qed.
Lemma in_i64_lxor a b : in_i64 a = true -> in_i64 b = true -> in_i64 (Z.lxor a b) = true.
Proof. i64_bits Z.shiftr_lxor. Qed.

(** The truncating quotient and remainder, corrected as the source corrects
    them, are the floored ones. *)
Lemma lxor_neg_iff a b : Z.lxor a b < 0 <-> ~ (a < 0 <-> b < 0).
Proof.
  pose proof (Z.lxor_nonneg a b). lia.
Qed.

Lemma rem_mod_cases a b : b <> 0 ->
  (Z.rem a b = 0 \/ (Z.rem a b < 0 <-> b < 0)) /\ Z.quot a b = a / b /\ Z.rem a b = a mod b \/
  Z.rem a b <> 0 /\ ~ (Z.rem a b < 0 <-> b < 0) /\ a / b = Z.quot a b - 1 /\ a mod b = Z.rem a b + b.
Proof.
  intros Hb. pose proof (Z.quot_rem a b Hb) as Hq. pose proof (Z.rem_bound_abs a b Hb) as Hr.
  destruct (decide (Z.rem a b = 0 \/ (Z.rem a b < 0 <-> b < 0))) as [Hs|Hs].
  - left. split; [done|].
    assert (Z.quot a b = a / b) as Hd.
    { apply (Z.div_unique a b (Z.quot a b) (Z.rem a b)); lia. }
    split; [done|]. rewrite Z.mod_eq by done. lia.
  - right. split; [lia|]. split; [tauto|].
    assert (Z.quot a b - 1 = a / b) as Hd.
    { apply (Z.div_unique a b _ (Z.rem a b + b)); [|lia].
      destruct (Z_lt_le_dec b 0), (Z_lt_le_dec (Z.rem a b) 0); try lia. }
    split; [done|]. rewrite Z.mod_eq by done. rewrite <- Hd. lia.
Qed.

Lemma python_floordiv_spec a b : b <> 0 -> python_floordiv a b = a / b.
Proof.
  intros Hb. unfold python_floordiv.
  destruct (rem_mod_cases a b Hb) as [(Hs & Hq & _)|(Hz & Hs & Hq & _)].
  - destruct (negb _ && _) eqn:E; [|done]. apply andb_true_iff in E as [E1 E2].
    apply negb_true_iff, Z.eqb_neq in E1. apply Z.ltb_lt, lxor_neg_iff in E2. tauto.
  - apply Z.eqb_neq in Hz. rewrite Hz. apply lxor_neg_iff, Z.ltb_lt in Hs. by rewrite Hs.
Qed.

Lemma python_mod_spec a b : b <> 0 -> python_mod a b = a mod b.
Proof.
  intros Hb. unfold python_mod.
  destruct (rem_mod_cases a b Hb) as [(Hs & _ & Hq)|(Hz & Hs & _ & Hq)].
  - destruct (negb _ && _) eqn:E; [|done]. apply andb_true_iff in E as [E1 E2].
    apply negb_true_iff, Z.eqb_neq in E1. apply Z.ltb_lt, lxor_neg_iff in E2. tauto.
  - apply Z.eqb_neq in Hz. rewrite Hz. apply lxor_neg_iff, Z.ltb_lt in Hs. by rewrite Hs.
Qed.

Lemma div_in_i64 a b :
  in_i64 a = true -> b <> 0 -> (a =? i64_min) && (b =? -1) = false -> in_i64 (a / b) = true.
Proof.
  rewrite !in_i64_spec. unfold i64_min, i64_max. intros Ha Hb Hne.
  assert (a <> - 2 ^ 63 \/ b <> -1) as Hne' by lia. clear Hne.
  destruct (Z.eq_dec b (-1)) as [->|Hb1].
  { rewrite <- (Z.div_unique a (-1) (- a) 0); lia. }
  pose proof (Z.div_mod a b Hb). destruct (Z_lt_le_dec 0 b).
  - pose proof (Z.mod_pos_bound a b). nia.
  - pose proof (Z.mod_neg_bound a b). nia.
Qed.

Lemma mod_in_i64 a b : in_i64 b = true -> b <> 0 -> in_i64 (a mod b) = true.
Proof.
  rewrite !in_i64_spec. unfold i64_min, i64_max. intros Hb Hz.
  pose proof (Z.mod_pos_bound a b). pose proof (Z.mod_neg_bound a b). lia.
Qed.

(** * Big-integer sizes *)

Lemma bits_nonneg n : 0 <= bits n.
Proof. unfold bits. destruct (_ =? 0); [lia|]. pose proof (Z.log2_nonneg (Z.abs n)). lia. Qed.

Lemma bits_lower n k : 0 <= k -> 2 ^ k <= Z.abs n -> k + 1 <= bits n.
Proof.
  intros Hk Hn. unfold bits. pose proof (Z.pow_pos_nonneg 2 k).
  destruct (Z.eqb_spec (Z.abs n) 0); [lia|]. apply Z.log2_le_pow2 in Hn; lia.
Qed.

Lemma bits_spec n : 1 <= bits n -> 2 ^ (bits n - 1) <= Z.abs n.
Proof.
  unfold bits. destruct (Z.eqb_spec (Z.abs n) 0); [lia|]. intros _.
  replace (Z.log2 (Z.abs n) + 1 - 1) with (Z.log2 (Z.abs n)) by lia.
  apply Z.log2_spec. lia.
Qed.

Lemma bits_pow_lower a b : 0 <= b -> 2 <= bits a -> (bits a - 1) * b + 1 <= bits (a ^ b).
Proof.
  intros Hb Ha. apply bits_lower; [nia|]. rewrite Z.abs_pow, Z.pow_mul_r by lia.
  apply Z.pow_le_mono_l. split; [apply Z.pow_nonneg; lia|apply bits_spec; lia].
Qed.

Section Exact.
Context `{External}.
Implicit Types (left right v : Value) (a b : Z).

Lemma int_from_bigint_small a : in_i64 a = true -> int_from_bigint a = VInt a.
Proof. unfold int_from_bigint. by intros ->. Qed.

Lemma checked_int a : match checked a with Some v => VInt v | None => int_from_bigint a end = int_from_bigint a.
Proof. unfold checked, int_from_bigint. by destruct (in_i64 a). Qed.

(** A machine integer is in range. *)
Definition int_ok v : bool := match v with VInt i => in_i64 i | _ => true end.

Lemma not_float left right a b :
  value_as_bigint left = Some a -> value_as_bigint right = Some b -> either_is_float left right = false.
Proof. by destruct left, right. Qed.

Lemma int_op_exact op left right a b :
  value_as_bigint left = Some a -> value_as_bigint right = Some b ->
  int_op op left right = Ok (int_from_bigint (op a b)).
Proof.
  intros Ha Hb. unfold int_op, to_bigint. rewrite Ha, Hb. simpl.
  destruct left; try done. destruct right; try done.
  simpl in Ha, Hb. injection Ha as ->. injection Hb as ->.
  rewrite <- (checked_int (op a b)). by destruct (checked (op a b)).
Qed.

Lemma floordiv_exact left right a b :
  value_as_bigint left = Some a -> value_as_bigint right = Some b ->
  int_ok left = true -> int_ok right = true ->
  floordiv_values left right =
    if b =? 0 then zero_division "integer division or modulo by zero"
    else Ok (int_from_bigint (a / b)).
Proof.
  intros Ha Hb Hl Hr. unfold floordiv_values. rewrite (not_float _ _ a b) by done.
  unfold to_bigint. rewrite Ha, Hb. simpl.
  destruct left; try done. destruct right; try done.
  simpl in *. injection Ha as ->. injection Hb as ->.
  destruct (Z.eqb_spec b 0); [done|]. destruct (_ && _) eqn:E; [done|]. simpl.
  rewrite int_from_bigint_small by by apply div_in_i64. by rewrite python_floordiv_spec.
Qed.

Lemma mod_exact left right a b :
  value_as_bigint left = Some a -> value_as_bigint right = Some b ->
  int_ok left = true -> int_ok right = true ->
  mod_numeric left right =
    if b =? 0 then zero_division "integer modulo by zero"
    else Ok (int_from_bigint (a mod b)).
Proof.
  intros Ha Hb Hl Hr. unfold mod_numeric. rewrite (not_float _ _ a b) by done.
  unfold to_bigint. rewrite Ha, Hb. simpl.
  destruct left; try done. destruct right; try done.
  simpl in *. injection Ha as ->. injection Hb as ->.
  destruct (Z.eqb_spec b 0); [done|]. destruct (_ && _) eqn:E; [done|]. simpl.
  rewrite int_from_bigint_small by by apply mod_in_i64. by rewrite python_mod_spec.
Qed.

Lemma bit_scalars_exact name op bop left right a b :
  (forall x y, in_i64 x = true -> in_i64 y = true -> in_i64 (op x y) = true) ->
  value_as_bigint left = Some a -> value_as_bigint right = Some b ->
  int_ok left = true -> int_ok right = true ->
  bit_scalars name op bop left right =
    match left, right with
    | VBool x, VBool y => Ok (VBool (bop x y))
    | _, _ => Ok (int_from_bigint (op a b))
    end.
Proof.
  intros Hop Ha Hb Hl Hr. unfold bit_scalars, int_bitop, require_int_operands, to_bigint.
  rewrite Ha, Hb. simpl. destruct left; try done; destruct right; try done.
  simpl in *. injection Ha as ->. injection Hb as ->. by rewrite int_from_bigint_small by auto.
Qed.

Lemma limited_spec n m :
  (bits n <= m -> limited n m = Ok (int_from_bigint n)) /\
  (m < bits n -> exists msg, limited n m = raise "OverflowError" msg).
Proof.
  unfold limited, int_from_bigint_limited. destruct (Z.gtb_spec (bits n) m).
  - split; [lia|]. intros _. by eexists.
  - split; [done|lia].
Qed.

Lemma pow_exact powf left right m a b :
  value_as_bigint left = Some a -> value_as_bigint right = Some b -> 0 < b <= 1000000 ->
  0 <= m <= usize_max ->
  (bits (a ^ b) <= m -> pow_integers powf left right m = Ok (int_from_bigint (a ^ b))) /\
  (m < bits (a ^ b) -> exists msg, pow_integers powf left right m = raise "OverflowError" msg).
Proof.
  intros Ha Hb Hr Hm. unfold pow_integers. rewrite Ha, Hb. cbn [mbind Outcome_bind].
  destruct (Z.ltb_spec b 0); [lia|]. destruct (Z.eqb_spec b 0); [lia|].
  assert (in_u32 b = true) as -> by (unfold in_u32; lia).
  destruct (Z.gtb_spec b 1000000); [lia|]. cbn [negb].
  destruct (_ && _) eqn:E; [|apply limited_spec].
  apply andb_true_iff in E as [E1%Z.leb_le E2%Z.leb_le].
  pose proof (bits_pow_lower a b). unfold saturating_mul in E2. split; [lia|]. intros _. by eexists.
Qed.

Lemma lshift_exact left right m a b :
  value_as_bigint left = Some a -> value_as_bigint right = Some b ->
  lshift_values left right m =
    if b <? 0 then fail (ValueError "negative shift count")
    else if b >? 1000000 then raise "OverflowError" "shift count too large"
    else limited (a * 2 ^ b) m.
Proof.
  intros Ha Hb. unfold lshift_values, require_int_operands, to_bigint. rewrite Ha, Hb. simpl.
  destruct (Z.ltb_spec b 0); [done|]. rewrite Z.shiftl_mul_pow2 by lia.
  destruct (Z.gtb_spec b 1000000); [by destruct (in_u32 b)|].
  by assert (in_u32 b = true) as -> by (unfold in_u32; lia).
Qed.

Lemma rshift_exact left right m a b :
  value_as_bigint left = Some a -> value_as_bigint right = Some b ->
  rshift_values left right m =
    if b <? 0 then fail (ValueError "negative shift count")
    else if b >? 2 ^ 32 - 1 then raise "OverflowError" "shift count too large"
    else limited (a / 2 ^ b) m.
Proof.
  intros Ha Hb. unfold rshift_values, require_int_operands, to_bigint. rewrite Ha, Hb. simpl.
  destruct (Z.ltb_spec b 0); [done|]. rewrite Z.shiftr_div_pow2 by lia.
  assert (in_u32 b = negb (b >? 2 ^ 32 - 1)) as -> by (unfold in_u32; lia).
  by destruct (b >? _).
Qed.

(** ** Repetition *)

Lemma length_concat_repeat {A} (xs : list A) n :
  length (concat (repeat xs n)) = (n * length xs)%nat.
Proof. induction n as [|n IH]; simpl; [done|]. rewrite length_app. lia. Qed.

Lemma repetition_spec {A} what unit limit size (xs : list A) n :
  in_i64 n = true -> 0 <= size -> 0 <= limit < usize_max ->
  (Z.max 0 n * size <= limit ->
     repetition what unit limit size xs n = Ok (concat (repeat xs (Z.to_nat n)))) /\
  (limit < Z.max 0 n * size ->
     exists msg, repetition what unit limit size xs n = fail (LimitExceeded msg)).
Proof.
  intros Hn Hs Hlim. apply in_i64_spec in Hn. unfold i64_min, i64_max in Hn.
  unfold repetition. destruct (Z.leb_spec n 0).
  { split; [|nia]. intros _. by replace (Z.to_nat n) with 0%nat by lia. }
  unfold saturating_mul, repeat_count. unfold usize_max in *.
  assert ((0 <=? n) && (n <=? 2 ^ 64 - 1) = true) as -> by lia.
  destruct (Z.gtb_spec (Z.min (size * n) (2 ^ 64 - 1)) limit).
  - split; [nia|]. intros _. by eexists.
  - split; [done|nia].
Qed.
End Exact.

Lemma merge_dicts_get `{External} eqb (P : ValueKey -> Prop) `{!KeyLaws eqb P}
    (a b : list (ValueKey * Value)) k :
  Forall (fun e => P e.1) a -> Forall (fun e => P e.1) b -> distinct_keys eqb b -> P k ->
  im_get eqb (merge_dicts eqb a b) k =
    match im_get eqb b k with Some v => Some v | None => im_get eqb a k end.
Proof.
  intros Ha Hb Hd Hk. unfold merge_dicts.
  pose proof (im_get_collect eqb P (fun e : ValueKey * Value => Some e.2) b a k Ha Hb Hd Hk) as E.
  cbn beta iota in E. rewrite E, (im_get_find eqb b k). by destruct (find _ b).
Qed.

(** * Properties *)

Section Properties.
Context `{External} (elem : Heap -> SetElem Value) (key_eq : ValueKey -> ValueKey -> bool).
Implicit Types (left right v : Value) (a b m : Z) (h : Heap).

(** [+], [-] and [*] on integers of any width (bool, machine integer, big
    integer, int enum member) give the exact result, as a machine integer when it
    fits and a big integer otherwise, and leave the heap alone. *)
Theorem int_arithmetic_exact h left right a b
    (Ha : value_as_bigint left = Some a) (Hb : value_as_bigint right = Some b) :
  add_values h left right = Ok (int_from_bigint (a + b), h) /\
  sub_values elem h left right = Ok (int_from_bigint (a - b), h) /\
  mult_values h left right = Ok (int_from_bigint (a * b), h).
Proof.
  assert (add_values h left right = pure h (int_add left right)) as ->.
  { unfold add_values. rewrite (not_float _ _ a b) by done. by destruct left. }
  assert (sub_values elem h left right = pure h (int_sub left right)) as ->.
  { unfold sub_values. rewrite (not_float _ _ a b) by done. by destruct left. }
  assert (mult_values h left right = pure h (int_mul left right)) as ->.
  { unfold mult_values, mult_scalars. rewrite (not_float _ _ a b) by done.
    destruct left; try done; by destruct right. }
  unfold int_add, int_sub, int_mul. by rewrite !(int_op_exact _ _ _ a b).
Qed.

(** C39: [//] and [%] on integers of any width are floor division and the
    remainder with the divisor's sign, they raise [ZeroDivisionError] exactly for
    a zero divisor, and no machine operation overflows ([MIN // -1] included). *)
Theorem floor_division_exact left right a b
    (Ha : value_as_bigint left = Some a) (Hb : value_as_bigint right = Some b)
    (Hl : int_ok left = true) (Hr : int_ok right = true) :
  (b = 0 -> floordiv_values left right = zero_division "integer division or modulo by zero" /\
            mod_numeric left right = zero_division "integer modulo by zero") /\
  (b <> 0 -> exists q r,
     floordiv_values left right = Ok (int_from_bigint q) /\
     mod_numeric left right = Ok (int_from_bigint r) /\
     a = b * q + r /\ (0 <= r < b \/ b < r <= 0)).
Proof.
  rewrite (floordiv_exact _ _ a b), (mod_exact _ _ a b) by done. split; intros Hz.
  - by subst.
  - exists (a / b), (a mod b). apply Z.eqb_neq in Hz as Hz'. rewrite Hz'.
    do 2 (split; [done|]). split; [by apply Z.div_mod|].
    pose proof (Z.mod_pos_bound a b). pose proof (Z.mod_neg_bound a b). lia.
Qed.

(** The bit operations agree with the infinite two's complement operations:
    two bools stay a bool, and integers give the exact result in normal form;
    [~] and unary [-] are exact at the bounds of the machine integers. *)
Theorem bit_operations_exact left right a b
    (Ha : value_as_bigint left = Some a) (Hb : value_as_bigint right = Some b)
    (Hl : int_ok left = true) (Hr : int_ok right = true) :
  match left, right with
  | VBool x, VBool y =>
      bit_scalars "|" Z.lor orb left right = Ok (VBool (x || y)) /\
      bit_scalars "^" Z.lxor xorb left right = Ok (VBool (xorb x y)) /\
      bit_scalars "&" Z.land andb left right = Ok (VBool (x && y))
  | _, _ =>
      bit_scalars "|" Z.lor orb left right = Ok (int_from_bigint (Z.lor a b)) /\
      bit_scalars "^" Z.lxor xorb left right = Ok (int_from_bigint (Z.lxor a b)) /\
      bit_scalars "&" Z.land andb left right = Ok (int_from_bigint (Z.land a b))
  end /\
  (is_int left = true ->
     unary_sub key_eq left = Ok (int_from_bigint (- a)) /\
     unary_invert left = Ok (int_from_bigint (- a - 1))).
Proof.
  rewrite !(bit_scalars_exact _ _ _ _ _ a b)
    by eauto using in_i64_lor, in_i64_land, in_i64_lxor.
  split; [by destruct left; try done; destruct right|]. intros Hi.
  destruct left; try done; simpl in *; injection Ha as <-.
  - by destruct b0.
  - rewrite checked_int. split; [done|].
    replace (- i - 1) with (Z.lnot i) by (unfold Z.lnot; lia).
    rewrite int_from_bigint_small; [done|].
    apply in_i64_spec in Hl. apply in_i64_spec. unfold Z.lnot, i64_min, i64_max in *. lia.
  - done.
Qed.

(** A shift is exact or refused. A left shift multiplies by the power of two
    when the count is between 0 and a million and the result within the limit on
    bits; a right shift is floor division by it; a negative count is a
    [ValueError] and everything else an [OverflowError]. *)
Theorem shifts_exact_or_refused left right m a b
    (Ha : value_as_bigint left = Some a) (Hb : value_as_bigint right = Some b) :
  (b < 0 -> lshift_values left right m = fail (ValueError "negative shift count") /\
            rshift_values left right m = fail (ValueError "negative shift count")) /\
  (0 <= b <= 1000000 -> bits (a * 2 ^ b) <= m ->
     lshift_values left right m = Ok (int_from_bigint (a * 2 ^ b))) /\
  (0 <= b -> 1000000 < b \/ m < bits (a * 2 ^ b) ->
     exists msg, lshift_values left right m = raise "OverflowError" msg) /\
  (0 <= b < 2 ^ 32 -> bits (a / 2 ^ b) <= m ->
     rshift_values left right m = Ok (int_from_bigint (a / 2 ^ b))).
Proof.
  rewrite (lshift_exact _ _ m a b), (rshift_exact _ _ m a b) by done.
  repeat split; intros.
  - by destruct (Z.ltb_spec b 0); [|lia].
  - by destruct (Z.ltb_spec b 0); [|lia].
  - destruct (Z.ltb_spec b 0), (Z.gtb_spec b 1000000); try lia. by apply limited_spec.
  - destruct (Z.ltb_spec b 0), (Z.gtb_spec b 1000000); try lia; [by eexists|].
    apply limited_spec. lia.
  - destruct (Z.ltb_spec b 0), (Z.gtb_spec b (2 ^ 32 - 1)); try lia. by apply limited_spec.
Qed.

(** Integer powers. For an exponent between 1 and a million the result is
    exact whenever it fits the limit on bits, and refused with [OverflowError]
    exactly when it does not: the test made before computing never refuses a
    result that would fit. *)
Theorem power_exact_within_limit powf left right m a b
    (Ha : value_as_bigint left = Some a) (Hb : value_as_bigint right = Some b)
    (Hexp : 0 < b <= 1000000) (Hm : 0 <= m <= usize_max) :
  (bits (a ^ b) <= m -> pow_integers powf left right m = Ok (int_from_bigint (a ^ b))) /\
  (m < bits (a ^ b) -> exists msg, pow_integers powf left right m = raise "OverflowError" msg).
Proof. by apply pow_exact. Qed.

(** Repeating a list or a tuple. The result has [n] copies of the elements
    when that is at most the collection limit, and is refused as a limit error
    exactly when it is more; a count that is not positive gives nothing. *)
Theorem repetition_bounded h t n (Hn : in_i64 n = true) :
  let size := Z.max 0 n * Z.of_nat (length t) in
  (size <= MAX_COLLECTION_SIZE -> exists r,
     mult_values h (VTuple t) (VInt n) = Ok (VTuple r, h) /\
     r = concat (repeat t (Z.to_nat n)) /\ Z.of_nat (length r) = size) /\
  (MAX_COLLECTION_SIZE < size -> exists msg,
     mult_values h (VTuple t) (VInt n) = fail (LimitExceeded msg)).
Proof.
  intros size. cbn [mult_values to_int value_as_i64 mbind Outcome_bind]. unfold to_int. simpl.
  unfold repeat_items.
  destruct (repetition_spec "tuple" "elements" MAX_COLLECTION_SIZE (Z.of_nat (length t)) t n)
    as [Hok Hbad]; [done|lia|by vm_compute|]. fold size in Hok, Hbad. split; intros Hs.
  - rewrite Hok by done. eexists. do 2 (split; [done|]).
    rewrite length_concat_repeat. subst size. nia.
  - destruct (Hbad Hs) as [msg ->]. by exists msg.
Qed.

(** [a | b] on dicts. Where key equality is an equivalence, the merged map
    answers every key with the right operand's value, or else the left's. *)
Theorem dict_merge_lookup eqb (P : ValueKey -> Prop) `{!KeyLaws eqb P}
    (x y : list (ValueKey * Value)) k
    (Hx : Forall (fun e => P e.1) x) (Hy : Forall (fun e => P e.1) y)
    (Hd : distinct_keys eqb y) (Hk : P k) :
  im_get eqb (merge_dicts eqb x y) k =
    match im_get eqb y k with Some v => Some v | None => im_get eqb x k end.
Proof. by apply (merge_dicts_get eqb P). Qed.

(** float modulo does not keep the divisor's sign. [1.0 % 0.1] is negative
    (the exact quotient is just below ten but rounds to it), and [1.0 // 0.1] is
    ten, so the remainder is not in the divisor's range. *)
Theorem float_modulo_loses_sign :
  let tenth := f64_div (f64_of_Z 1) (f64_of_Z 10) in
  exists r, mod_numeric (VFloat (f64_of_Z 1)) (VFloat tenth) = Ok (VFloat r) /\
    f64_ltb r f64_zero = true /\ f64_ltb f64_zero tenth = true /\
    floordiv_values (VFloat (f64_of_Z 1)) (VFloat tenth) = Ok (VFloat (f64_of_Z 10)).
Proof. eexists. split; [vm_compute; reflexivity|]. by vm_compute. Qed.
End Properties.

(** * Witnesses *)

Section Witnesses.
#[local] Instance ext : External := sample_external.
#[local] Definition no_elem (h : Heap) : SetElem Value :=
  {| elem_eq := fun _ _ => false; elem_hash := fun _ => None |}.
#[local] Definition no_struct : Value -> Value -> bool := fun _ _ => false.

Lemma int_arithmetic_exact_witness :
  add_values empty_heap (VInt i64_max) (VBool true) = Ok (VBigInt (2 ^ 63), empty_heap).
Proof.
  destruct (int_arithmetic_exact no_elem empty_heap (VInt i64_max) (VBool true) i64_max 1)
    as [-> _]; [done|done|]. reflexivity.
Defined.

Lemma floor_division_exact_witness :
  exists q r, floordiv_values (VInt i64_min) (VInt (-1)) = Ok (int_from_bigint q) /\
    mod_numeric (VInt i64_min) (VInt (-1)) = Ok (int_from_bigint r) /\ i64_min = - q + r.
Proof.
  destruct (floor_division_exact (VInt i64_min) (VInt (-1)) i64_min (-1)) as [_ Hd]; try done.
  destruct Hd as (q & r & Hq & Hr & He & _); [done|]. exists q, r.
  split; [exact Hq|]. split; [exact Hr|lia].
Defined.

Lemma bit_operations_exact_witness :
  bit_scalars "|" Z.lor orb (VInt (-8)) (VInt 5) = Ok (VInt (-3)) /\
  unary_sub (key_eqb no_struct) (VInt i64_min) = Ok (VBigInt (2 ^ 63)).
Proof.
  destruct (bit_operations_exact (key_eqb no_struct) (VInt (-8)) (VInt 5) (-8) 5)
    as [[Hor _] _]; [done..|].
  destruct (bit_operations_exact (key_eqb no_struct) (VInt i64_min) (VInt 5) i64_min 5)
    as [_ Hu]; [done..|]. destruct (Hu eq_refl) as [Hneg _].
  split; [exact Hor|exact Hneg].
Defined.

Lemma shifts_exact_or_refused_witness :
  lshift_values (VInt 1) (VInt 70) 100 = Ok (VBigInt (2 ^ 70)) /\
  exists msg, lshift_values (VInt 1) (VInt 200) 100 = raise "OverflowError" msg.
Proof.
  destruct (shifts_exact_or_refused (VInt 1) (VInt 70) 100 1 70) as (_ & Hok & _); [done..|].
  destruct (shifts_exact_or_refused (VInt 1) (VInt 200) 100 1 200) as (_ & _ & Hbad & _); [done..|].
  split; [by rewrite Hok|]. apply Hbad; [lia|by right].
Defined.

Lemma power_exact_within_limit_witness :
  pow_integers (fun x _ => x) (VInt 3) (VInt 10) 20 = Ok (VInt 59049) /\
  exists msg, pow_integers (fun x _ => x) (VInt 3) (VInt 13) 20 = raise "OverflowError" msg.
Proof.
  split.
  - apply (power_exact_within_limit (fun x _ => x) (VInt 3) (VInt 10) 20 3 10);
      [reflexivity|reflexivity|lia|by unfold usize_max|by vm_compute].
  - apply (power_exact_within_limit (fun x _ => x) (VInt 3) (VInt 13) 20 3 13);
      [reflexivity|reflexivity|lia|by unfold usize_max|by vm_compute].
Defined.

Lemma repetition_bounded_witness :
  exists r, mult_values empty_heap (VTuple [VNone; VInt 1]) (VInt 3) = Ok (VTuple r, empty_heap) /\
    length r = 6%nat.
Proof.
  destruct (repetition_bounded empty_heap [VNone; VInt 1] 3) as [Hok _]; [done|].
  destruct Hok as (r & Hr & _ & Hl); [by vm_compute|]. exists r. split; [exact Hr|].
  revert Hl. simpl. lia.
Defined.

Lemma dict_merge_lookup_witness :
  let eqb := key_eqb no_struct in
  im_get eqb (merge_dicts eqb [(KString [97], VInt 1)] [(KString [97], VInt 2)]) (KString [97]) = Some (VInt 2).
Proof.
  intros eqb. rewrite (dict_merge_lookup eqb is_text_key).
  - by vm_compute.
  - repeat (constructor; [by eexists|]). constructor.
  - repeat (constructor; [by eexists|]). constructor.
  - repeat constructor.
  - by eexists.
Defined.
End Witnesses.
