(* ===== verification/Classes.v ===== *)
(** Classes: the records of [value.rs] that describe functions and classes, the
    C3 linearization and the lookups along it ([classes.rs]), and the builtin
    exception hierarchy with handler matching ([exceptions.rs]). *)
From Stdlib Require Import ZArith Lia Ascii String.
From stdpp Require Import base tactics list numbers option strings gmap.
From S2P Require Import Prelude PySet Values Errors.

Record Param : Type := mkParam { p_name : string; p_annotation : option string }.

Section Records.
Context `{External}.

Record FunctionParams : Type := mkParams {
  args : list Param;
  defaults : list string;
  default_values : list Value;
  vararg : option string;
  kwonlyargs : list Param;
  kw_defaults : list (option string);
  kw_default_values : list (option Value);
  kwarg : option string;
  posonly_count : nat
}.

Record FunctionDef : Type := mkFunctionDef {
  f_name : string;
  body_key : string;
  params : FunctionParams;
  closure : list (string * Value);
  source : string;
  nonlocal_names : list string;
  is_generator : bool;
  wraps_name : option string;
  nonlocal_cell_id : option Z;
  assigned_names : list string;
  global_names : list string;
  is_module_level : bool;
  docstring : option string;
  cell_refreshes : list (string * Z);
  f_qualname : string;
  f_annotations : list (string * Value);
  is_async : bool
}.

Definition display_qualname (f : FunctionDef) : string :=
  if bool_decide (f_qualname f = "") then f_name f else f_qualname f.

Definition body_cache_key (f : FunctionDef) : string :=
  if bool_decide (body_key f = "") then f_name f else body_key f.

Record DataclassField : Type := mkDataclassField {
  df_name : string;
  df_default : option Value;
  df_default_factory : option Value;
  df_init : bool;
  df_repr : bool;
  df_compare : bool;
  df_init_only : bool
}.

Record PropertyDef : Type := mkPropertyDef {
  getter : FunctionDef;
  setter : option FunctionDef;
  deleter : option FunctionDef;
  cached : bool
}.

Record ClassValue : Type := mkClass {
  c_name : string;
  methods : gmap string FunctionDef;
  class_attrs : gmap string Value;
  bases : list string;
  mro : list string;
  properties : gmap string PropertyDef;
  static_methods : gmap string FunctionDef;
  class_methods : gmap string FunctionDef;
  enum_kind : option EnumKind;
  enum_members : list string;
  annotations : list string;
  dataclass_fields : option (list DataclassField);
  frozen : bool;
  order : bool;
  total_ordering : bool;
  has_slots : bool;
  slot_names : list string;
  abstract_methods : list string;
  metaclass : option string;
  c_qualname : string;
  is_generic : bool;
  initvar_fields : list string
}.

Definition ClassValue_new (name : string) : ClassValue := {|
  c_name := name; methods := ∅; class_attrs := ∅; bases := []; mro := [name];
  properties := ∅; static_methods := ∅; class_methods := ∅; enum_kind := None;
  enum_members := []; annotations := []; dataclass_fields := None; frozen := false;
  order := false; total_ordering := false; has_slots := false; slot_names := [];
  abstract_methods := []; metaclass := None; c_qualname := name; is_generic := false;
  initvar_fields := []
|}.

Abbreviation Registry := (gmap string ClassValue).

(** * The C3 linearization *)

(** [!seq.iter().skip(1).any(|n| n == head)] for every sequence. *)
Definition good_head (sequences : list (list string)) (head : string) : bool :=
  forallb (fun seq => negb (existsb (fun n => String.eqb n head) (tail seq))) sequences.

Definition candidate (sequences : list (list string)) : option string :=
  find (good_head sequences) (omap head sequences).

Definition strip (h : string) (seq : list string) : list string :=
  match seq with
  | x :: seq' => if String.eqb x h then seq' else seq
  | [] => []
  end.

Definition is_nil {A} (l : list A) : bool := match l with [] => true | _ => false end.

(** The merge loop. Each round removes a class from some sequence, so the total
    length is enough fuel; [Panic] would be a round beyond it. *)
Fixpoint merge_loop (fuel : nat) (class_name : string) (sequences : list (list string))
    (result : list string) : EvalResult (list string) :=
  if forallb is_nil sequences then Ok result
  else
    match fuel with
    | O => Panic
    | S fuel =>
        match candidate sequences with
        | None =>
            fail (TypeError ("Cannot create a consistent method resolution" ++
                    String (Ascii.ascii_of_nat 10) "" ++
                    "order (MRO) for bases of class '" ++ class_name ++ "'"))
        | Some h =>
            merge_loop fuel class_name
              (List.filter (fun s => negb (is_nil s)) (strip h <$> sequences)) (result ++ [h])
        end
    end.

Definition base_sequences (bases : list string) (registry : Registry) : list (list string) :=
  ((fun b => match registry !! b with Some cls => mro cls | None => [b] end) <$> bases) ++ [bases].

Definition total_length (sequences : list (list string)) : nat := length (concat sequences).

Definition build_mro (class_name : string) (bases : list string) (registry : Registry) :
    EvalResult (list string) :=
  let sequences := base_sequences bases registry in
  merge_loop (total_length sequences) class_name sequences [class_name].

(** * Lookups along the linearization *)

(** The first class of a resolution order whose registry entry answers [get]. *)
Fixpoint first_in_mro {A} (registry : Registry) (get : ClassValue -> option A) (order : list string) :
    option (string * A) :=
  match order with
  | [] => None
  | ancestor_name :: order =>
      match registry !! ancestor_name with
      | Some ancestor =>
          match get ancestor with
          | Some a => Some (ancestor_name, a)
          | None => first_in_mro registry get order
          end
      | None => first_in_mro registry get order
      end
  end.

Definition lookup_class_attr (classes : Registry) (class_name attr : string) : option Value :=
  class ← classes !! class_name;
  snd <$> first_in_mro classes (fun c => class_attrs c !! attr) (mro class).

Definition lookup_method_in_mro (classes : Registry) (class_name method_name : string) :
    option (string * FunctionDef) :=
  class ← classes !! class_name;
  first_in_mro classes (fun c => methods c !! method_name) (mro class).

Definition lookup_method_or_classmethod (classes : Registry) (class_name method_name : string) :
    option (string * FunctionDef) :=
  match lookup_method_in_mro classes class_name method_name with
  | Some found => Some found
  | None =>
      class ← classes !! class_name;
      first_in_mro classes (fun c => class_methods c !! method_name) (mro class)
  end.

(** * The builtin exception hierarchy *)

Definition builtin_exception_parent (name : string) : option string :=
  if bool_decide (name ∈ ["ZeroDivisionError"; "OverflowError"; "FloatingPointError"])
  then Some "ArithmeticError"
  else if bool_decide (name ∈ ["KeyError"; "IndexError"]) then Some "LookupError"
  else if bool_decide (name ∈
    ["FileNotFoundError"; "PermissionError"; "TimeoutError"; "IOError"; "BlockingIOError";
     "ChildProcessError"; "FileExistsError"; "InterruptedError"; "IsADirectoryError";
     "NotADirectoryError"; "ProcessLookupError"; "ConnectionError"]) then Some "OSError"
  else if bool_decide (name ∈
    ["BrokenPipeError"; "ConnectionAbortedError"; "ConnectionRefusedError"; "ConnectionResetError"])
  then Some "ConnectionError"
  else if bool_decide (name = "ModuleNotFoundError") then Some "ImportError"
  else if bool_decide (name = "ImportError") then Some "Exception"
  else if bool_decide (name ∈ ["IndentationError"; "TabError"]) then Some "SyntaxError"
  else if bool_decide (name = "SyntaxError") then Some "Exception"
  else if bool_decide (name ∈ ["UnicodeDecodeError"; "UnicodeEncodeError"; "UnicodeTranslateError"])
  then Some "UnicodeError"
  else if bool_decide (name = "UnicodeError") then Some "ValueError"
  else if bool_decide (name ∈ ["statistics.StatisticsError"; "json.decoder.JSONDecodeError"])
  then Some "ValueError"
  else if bool_decide (name = "re.error") then Some "Exception"
  else if bool_decide (name ∈ ["NotImplementedError"; "RecursionError"]) then Some "RuntimeError"
  else if bool_decide (name ∈
    ["AssertionError"; "AttributeError"; "NameError"; "TypeError"; "ValueError"; "RuntimeError";
     "OSError"; "LookupError"; "ArithmeticError"; "StopIteration"; "ExceptionGroup"])
  then Some "Exception"
  else if bool_decide (name = "BaseExceptionGroup") then Some "BaseException"
  else if bool_decide (name = "Exception") then Some "BaseException"
  else None.

(** The loop of at most sixteen steps. *)
Fixpoint issubclass_steps (steps : nat) (cur parent : string) : bool :=
  match steps with
  | O => false
  | S steps =>
      if String.eqb cur parent then true
      else match builtin_exception_parent cur with
           | Some p => issubclass_steps steps p parent
           | None => false
           end
  end.

Definition builtin_exception_issubclass (exc_name parent : string) : bool :=
  issubclass_steps 16 exc_name parent.

Definition matches_user_exception (classes : Registry) (exc : ExceptionValue) (handler_name : string) :
    bool :=
  match classes !! exc_type_name exc with
  | Some raised_class =>
      existsb (fun base => String.eqb base handler_name || builtin_exception_issubclass base handler_name)
        (mro raised_class)
  | None => false
  end.

(** The names a [String] handler value carries are compared as text. *)
Definition handler_name (type_val : Value) : option string :=
  match type_val with
  | VExceptionType n | VClass n => Some n
  | VString s => Some (text_name s)
  | _ => None
  end.

Definition matches_exception_type (classes : Registry) (exc : ExceptionValue) (type_val : Value) : bool :=
  match handler_name type_val with
  | None => false
  | Some type_name =>
      String.eqb type_name "Exception" || String.eqb type_name "BaseException" ||
      String.eqb (exc_type_name exc) type_name ||
      builtin_exception_issubclass (exc_type_name exc) type_name ||
      matches_user_exception classes exc type_name
  end.

(** [class_mro_values] and [builtin_type_mro_values]: the chain of builtin
    parents; sixteen steps are more than the hierarchy has. *)
Fixpoint exception_chain (steps : nat) (cur : string) : list Value :=
  match steps with
  | O => []
  | S steps =>
      match builtin_exception_parent cur with
      | Some parent => VType parent :: exception_chain steps parent
      | None => []
      end
  end.

Definition ends_with_object (out : list Value) : bool :=
  match List.last out VNone with VType n => String.eqb n "object" | _ => false end.

Definition class_mro_values (classes : Registry) (class_name : string) : option (list Value) :=
  class ← classes !! class_name;
  let out := (fun n => if bool_decide (is_Some (classes !! n)) then VClass n else VType n) <$> mro class in
  let out := out ++ match list.last (mro class) with
                    | Some last => exception_chain 16 last | None => [] end in
  Some (if ends_with_object out then out else out ++ [VType "object"]).

Definition builtin_type_mro_values (name : string) : list Value :=
  if String.eqb name "object" then [VType "object"]
  else
    [VType name] ++
    (if String.eqb name "bool" then [VType "int"] else exception_chain 16 name) ++
    [VType "object"].
End Records.
