(* ===== verification/ClassesThms.v ===== *)
(** The C3 merge computes a consistent linearization exactly when there is one;
    the sixteen-step walk of the builtin exception tree is its closure. *)
From Stdlib Require Import ZArith Lia Ascii String.
From stdpp Require Import base tactics list relations numbers option strings gmap.
From S2P Require Import Prelude PySet Values Errors F64 Keys Classes.

Section Merge.
Context `{External}.
Implicit Types (s L order : list string) (seqs : list (list string)) (h x : string).

(** [L] orders every sequence's classes as the sequence does. *)
Definition consistent L seqs : Prop := NoDup L /\ Forall (fun s => s `sublist_of` L) seqs.

(** One round of the loop. *)
Definition round h seqs : list (list string) :=
  List.filter (fun s => negb (is_nil s)) (strip h <$> seqs).

Lemma good_head_spec seqs h : good_head seqs h = true <-> Forall (fun s => h ∉ tail s) seqs.
Proof.
  unfold good_head. rewrite forallb_forall, Forall_forall.
  split; intros Hs s Hin; apply list_elem_of_In in Hin; specialize (Hs s Hin).
  - intros Ht. apply list_elem_of_In in Ht. apply negb_true_iff in Hs.
    assert (existsb (fun n => String.eqb n h) (tail s) = true); [|congruence].
    apply existsb_exists. exists h. split; [done|apply String.eqb_refl].
  - apply negb_true_iff. destruct (existsb _ _) eqn:E; [|done].
    apply existsb_exists in E as (y & Hy & Heq). apply String.eqb_eq in Heq as ->.
    by apply list_elem_of_In in Hy.
Qed.

Lemma candidate_some seqs h :
  candidate seqs = Some h -> good_head seqs h = true /\ exists s, (h :: s) ∈ seqs.
Proof.
  unfold candidate. intros E. apply find_some in E as [Hin Hg]. split; [done|].
  apply list_elem_of_In, list_elem_of_omap in Hin as ([|y s] & Hs & Hh); [done|].
  injection Hh as ->. by exists s.
Qed.

Lemma candidate_none seqs h s : candidate seqs = None -> (h :: s) ∈ seqs -> good_head seqs h = false.
Proof.
  unfold candidate. intros E Hin. apply (find_none _ _ E).
  apply list_elem_of_In, list_elem_of_omap. by exists (h :: s).
Qed.

Lemma strip_cases h s : (exists s', s = h :: s' /\ strip h s = s') \/ (head s <> Some h /\ strip h s = s).
Proof.
  destruct s as [|y s]; simpl; [right; done|]. destruct (String.eqb_spec y h) as [->|].
  - left. by exists s.
  - right. split; [congruence|done].
Qed.

Lemma strip_sublist h s : strip h s `sublist_of` s.
Proof. destruct (strip_cases h s) as [(s' & -> & ->)|[_ ->]]; [by apply sublist_cons|done]. Qed.

Lemma not_in_strip seqs h s : good_head seqs h = true -> s ∈ seqs -> h ∉ strip h s.
Proof.
  rewrite good_head_spec, Forall_forall. intros Hg Hs. specialize (Hg s Hs).
  destruct (strip_cases h s) as [(s' & -> & ->)|[Hh ->]]; [done|].
  destruct s as [|y s]; [by apply not_elem_of_nil|]. simpl in *. apply not_elem_of_cons.
  split; [congruence|done].
Qed.

Lemma elem_of_round h seqs s :
  s ∈ round h seqs <-> s <> [] /\ exists s0, s0 ∈ seqs /\ s = strip h s0.
Proof.
  unfold round. rewrite list_elem_of_In, List.filter_In, <- list_elem_of_In, list_elem_of_fmap.
  split.
  - intros [(s0 & -> & Hs0) Hn]. split; [by destruct (strip h s0)|]. by exists s0.
  - intros [Hn (s0 & Hs0 & ->)]. split; [by exists s0|by destruct (strip h s0)].
Qed.

Lemma all_nil seqs : forallb is_nil seqs = true <-> forall s, s ∈ seqs -> s = [].
Proof.
  rewrite forallb_forall. split; intros Hs s Hin; apply list_elem_of_In in Hin;
    specialize (Hs s Hin); [by destruct s|by subst].
Qed.

Lemma merge_loop_ok fuel cn seqs result r :
  merge_loop fuel cn seqs result = Ok r ->
  exists L, r = result ++ L /\ consistent L seqs /\ forall x, x ∈ L <-> exists s, s ∈ seqs /\ x ∈ s.
Proof.
  revert seqs result. induction fuel as [|fuel IH]; intros seqs result; simpl;
    destruct (forallb is_nil seqs) eqn:Hnil; try done.
  1,2: intros [= <-]; exists []; rewrite app_nil_r; split; [done|]; pose proof (proj1 (all_nil _) Hnil) as Hn;
    (split; [split; [constructor|apply Forall_forall; intros s Hs; by rewrite (Hn s Hs)]|]);
    intros x; split; [by intros ?%elem_of_nil|intros (s & Hs & Hx); rewrite (Hn s Hs) in Hx; by apply elem_of_nil in Hx].
  destruct (candidate seqs) as [h|] eqn:Hc; [|done].
  destruct (candidate_some _ _ Hc) as [Hg [s0 Hs0]]. intros E.
  destruct (IH _ _ E) as (L & -> & [Hnd Hsub] & Hmem). fold (round h seqs) in *.
  exists (h :: L). rewrite <- app_assoc. split; [done|]. rewrite Forall_forall in Hsub.
  split; [split|].
  - constructor; [|done]. rewrite Hmem. intros (s & Hs & Hx).
    apply elem_of_round in Hs as [_ (s1 & Hs1 & ->)]. by apply (not_in_strip seqs h s1).
  - apply Forall_forall. intros s Hs.
    assert (strip h s `sublist_of` L) as HL.
    { destruct (decide (strip h s = [])) as [->|]; [apply sublist_nil_l|].
      apply Hsub, elem_of_round. split; [done|]. by exists s. }
    destruct (strip_cases h s) as [(s' & -> & Es)|[_ Es]]; rewrite Es in HL.
    + by apply sublist_skip.
    + by apply sublist_cons.
  - intros x. rewrite elem_of_cons, Hmem. split.
    + intros [->|(s & Hs & Hx)]; [exists (h :: s0); split; [done|by left]|].
      apply elem_of_round in Hs as [_ (s1 & Hs1 & ->)]. exists s1. split; [done|].
      exact (elem_of_sublist _ _ _ Hx (strip_sublist h s1)).
    + intros (s & Hs & Hx). destruct (strip_cases h s) as [(s' & -> & Es)|[_ Es]].
      * apply elem_of_cons in Hx as [->|Hx]; [by left|]. right. exists s'. split; [|done].
        apply elem_of_round. split; [by intros ->; apply elem_of_nil in Hx|]. exists (h :: s'). by rewrite Es.
      * right. exists s. split; [|done]. apply elem_of_round.
        split; [by intros ->; apply elem_of_nil in Hx|]. by exists s.
Qed.

(** A consistent order provides a good head: its first class that is used. *)
Lemma consistent_good_head L seqs :
  consistent L seqs -> (exists s, s ∈ seqs /\ s <> []) ->
  exists h s, (h :: s) ∈ seqs /\ good_head seqs h = true.
Proof.
  intros [Hnd Hsub] (s0 & Hs0 & Hne). rewrite Forall_forall in Hsub.
  induction L as [|z L IH].
  { apply Hsub in Hs0. by apply sublist_nil_r in Hs0. }
  apply NoDup_cons in Hnd as [Hz Hnd].
  assert (forall s, s ∈ seqs -> s `sublist_of` L \/ exists s', s = z :: s' /\ s' `sublist_of` L) as Hcase.
  { intros s Hs. apply Hsub, sublist_cons_r in Hs as [Hs|(s' & -> & Hs)]; eauto. }
  destruct (decide (Exists (fun s => z ∈ s) seqs)) as [Hex|Hno];
    [apply Exists_exists in Hex as (s & Hs & Hzs)|].
  - destruct (Hcase s Hs) as [Hl|(s' & -> & Hl)]; [by destruct Hz; eapply elem_of_sublist|].
    exists z, s'. split; [done|]. apply good_head_spec, Forall_forall. intros t Ht Hin.
    destruct (Hcase t Ht) as [Hl'|(t' & -> & Hl')]; apply Hz; simpl in Hin.
    + destruct t as [|y t]; [by apply elem_of_nil in Hin|]. eapply elem_of_sublist; [|exact Hl']. by right.
    + exact (elem_of_sublist _ _ _ Hin Hl').
  - apply IH; [done|]. intros s Hs. destruct (Hcase s Hs) as [|(s' & -> & _)]; [done|].
    destruct Hno. apply Exists_exists. exists (z :: s'). split; [done|by left].
Qed.

Lemma total_length_app seqs1 seqs2 :
  total_length (seqs1 ++ seqs2) = (total_length seqs1 + total_length seqs2)%nat.
Proof. unfold total_length. by rewrite concat_app, length_app. Qed.

Lemma round_shorter h s0 seqs : (h :: s0) ∈ seqs -> (total_length (round h seqs) < total_length seqs)%nat.
Proof.
  assert (forall s, total_length (round h [s]) <= length s)%nat as Hone.
  { intros s. unfold round, total_length. simpl. destruct (strip_cases h s) as [(s' & -> & ->)|[_ ->]];
      destruct (is_nil _); simpl; rewrite ?app_nil_r; lia. }
  assert (forall a b, round h (a ++ b) = round h a ++ round h b) as Happ.
  { intros a b. unfold round. by rewrite fmap_app, List.filter_app. }
  assert (forall l, total_length (round h l) <= total_length l)%nat as Hle.
  { intros l. induction l as [|s l IHl]; [done|]. change (s :: l) with ([s] ++ l).
    rewrite Happ, !total_length_app. specialize (Hone s).
    assert (total_length [s] = length s) by (unfold total_length; simpl; by rewrite app_nil_r). lia. }
  intros (l1 & l2 & ->)%list_elem_of_split. change ((h :: s0) :: l2) with ([h :: s0] ++ l2).
  rewrite !Happ, !total_length_app. pose proof (Hle l1). pose proof (Hle l2).
  assert (total_length (round h [h :: s0]) <= length s0)%nat.
  { unfold round, total_length. simpl. rewrite String.eqb_refl.
    destruct (is_nil s0); simpl; rewrite ?app_nil_r; lia. }
  assert (total_length [h :: s0] = S (length s0)) by (unfold total_length; simpl; by rewrite app_nil_r).
  lia.
Qed.

Lemma merge_loop_complete fuel cn seqs result L :
  consistent L seqs -> (total_length seqs <= fuel)%nat ->
  exists r, merge_loop fuel cn seqs result = Ok r.
Proof.
  revert seqs result. induction fuel as [|fuel IH]; intros seqs result Hc Hlen; simpl;
    (destruct (forallb is_nil seqs) eqn:Hnil; [by eexists|]);
    (assert (exists s, s ∈ seqs /\ s <> []) as Hne;
     [apply not_true_iff_false in Hnil; rewrite all_nil in Hnil;
      destruct (decide (Exists (fun s => s <> []) seqs)) as [He|He]; [by apply Exists_exists in He|];
      destruct Hnil; intros s Hs; destruct (decide (s = [])); [done|];
      destruct He; apply Exists_exists; by exists s|]);
    destruct (consistent_good_head L seqs Hc Hne) as (h & s & Hs & Hg).
  - pose proof (round_shorter h s seqs Hs). lia.
  - destruct (candidate seqs) as [g|] eqn:Hcand.
    2:{ rewrite (candidate_none _ _ _ Hcand Hs) in Hg. done. }
    destruct (candidate_some _ _ Hcand) as [_ [s' Hs']]. apply IH.
    + destruct Hc as [Hnd Hsub]. split; [done|]. rewrite Forall_forall in *.
      intros t Ht. fold (round g seqs) in Ht. apply elem_of_round in Ht as [_ (t0 & Ht0 & ->)].
      etrans; [apply strip_sublist|auto].
    + fold (round g seqs). pose proof (round_shorter g s' seqs Hs'). lia.
Qed.

Lemma merge_loop_total fuel cn seqs result :
  (total_length seqs <= fuel)%nat ->
  (exists r, merge_loop fuel cn seqs result = Ok r) \/
  exists msg, merge_loop fuel cn seqs result = fail (TypeError msg).
Proof.
  revert seqs result. induction fuel as [|fuel IH]; intros seqs result Hlen; simpl.
  - destruct (forallb is_nil seqs) eqn:E; [left; by eexists|].
    assert (forallb is_nil seqs = true); [|congruence].
    apply all_nil. intros s (l1 & l2 & ->)%list_elem_of_split.
    rewrite total_length_app in Hlen. unfold total_length in Hlen. simpl in Hlen.
    rewrite length_app in Hlen. destruct s; [done|simpl in Hlen; lia].
  - destruct (forallb is_nil seqs); [left; by eexists|].
    destruct (candidate seqs) as [h|] eqn:Hc; [|right; by eexists].
    destruct (candidate_some _ _ Hc) as [_ [s Hs]]. apply IH.
    fold (round h seqs). pose proof (round_shorter h s seqs Hs). lia.
Qed.
End Merge.

(** * The exception hierarchy *)

Definition exception_parent (a b : string) : Prop := builtin_exception_parent a = Some b.

(** A height that strictly decreases towards the root. *)
Definition height (name : string) : nat :=
  if bool_decide (name = "BaseException") then 0
  else if bool_decide (name = "Exception") then 1
  else if bool_decide (name ∈ ["ArithmeticError"; "LookupError"; "OSError"; "ImportError";
                               "SyntaxError"; "ValueError"; "RuntimeError"]) then 2
  else if bool_decide (name ∈ ["ConnectionError"; "UnicodeError"]) then 3
  else 4%nat.

Ltac in_cases H :=
  apply bool_decide_eq_true in H;
  repeat (apply elem_of_cons in H as [H|H]); try (by apply elem_of_nil in H).

Lemma height_decreases a b : exception_parent a b -> (height b < height a)%nat.
Proof.
  unfold exception_parent, builtin_exception_parent. intros E.
  repeat match type of E with
  | (if ?c then _ else _) = _ =>
      let C := fresh "C" in destruct c eqn:C;
      [clear - C E; injection E as <-; in_cases C; subst; vm_compute; lia|clear C]
  end. done.
Qed.

Lemma parents_bounded n a b : nsteps exception_parent n a b -> (n <= 4)%nat.
Proof.
  intros Hn. assert (n + height b <= height a)%nat as Hh.
  { induction Hn as [|n x y z Hxy _ IH]; [lia|]. apply height_decreases in Hxy. lia. }
  assert (height a <= 4)%nat; [|lia]. unfold height. repeat case_bool_decide; lia.
Qed.

Lemma issubclass_steps_spec n a b :
  issubclass_steps n a b = true <-> exists k, (k < n)%nat /\ nsteps exception_parent k a b.
Proof.
  revert a. induction n as [|n IH]; intros a; simpl; [split; [done|intros (k & ? & _); lia]|].
  destruct (String.eqb_spec a b) as [->|Hne].
  { split; [|done]. intros _. exists 0%nat. split; [lia|constructor]. }
  destruct (builtin_exception_parent a) as [p|] eqn:Hp.
  - rewrite IH. split.
    + intros (k & Hk & Hs). exists (S k). split; [lia|]. by econstructor.
    + intros (k & Hk & Hs). inversion Hs as [|k' ? y ? Hay Hs']; subst; [done|].
      exists k'. split; [lia|]. unfold exception_parent in Hay. congruence.
  - split; [done|]. intros (k & Hk & Hs). inversion Hs as [|k' ? y ? Hay Hs']; subst; [done|].
    unfold exception_parent in Hay. congruence.
Qed.

Lemma builtin_issubclass_spec a b :
  builtin_exception_issubclass a b = true <-> rtc exception_parent a b.
Proof.
  unfold builtin_exception_issubclass. rewrite issubclass_steps_spec, rtc_nsteps. split.
  - intros (k & _ & Hs). by exists k.
  - intros (k & Hs). exists k. split; [|done]. apply parents_bounded in Hs. lia.
Qed.

(** * Properties *)

Section Properties.
Context `{External}.

(** C30: the C3 linearization. When the bases' orders have a common consistent
    order, [build_mro] returns the class followed by one: without repetition,
    containing exactly the classes of the sequences, and respecting every
    sequence's order. When they have none, it raises the documented [TypeError].
    It always terminates. *)
Theorem build_mro_is_c3 (class_name : string) (bases : list string) (registry : gmap string ClassValue) :
  let seqs := base_sequences bases registry in
  ((exists L, consistent L seqs) ->
     exists order, build_mro class_name bases registry = Ok (class_name :: order) /\
       consistent order seqs /\ forall x, x ∈ order <-> exists s, s ∈ seqs /\ x ∈ s) /\
  (~ (exists L, consistent L seqs) ->
     exists msg, build_mro class_name bases registry = fail (TypeError msg)).
Proof.
  intros seqs. unfold build_mro. fold seqs. split.
  - intros [L HL].
    destruct (merge_loop_complete (total_length seqs) class_name seqs [class_name] L HL) as [r Hr]; [done|].
    destruct (merge_loop_ok _ _ _ _ _ Hr) as (order & -> & Ho). by exists order.
  - intros Hno. destruct (merge_loop_total (total_length seqs) class_name seqs [class_name])
      as [[r Hr]|Hbad]; [done| |done].
    destruct (merge_loop_ok _ _ _ _ _ Hr) as (order & _ & Ho & _). destruct Hno. by exists order.
Qed.

(** The sixteen-step walk decides the reflexive and transitive closure of
    the builtin parent relation: no chain is longer than the bound. *)
Theorem builtin_issubclass_is_closure (a b : string) :
  builtin_exception_issubclass a b = true <-> rtc exception_parent a b.
Proof. apply builtin_issubclass_spec. Qed.

(** Handler matching. A handler other than the two catch-alls matches an
    exception of a registered class exactly when its name is the class itself or
    is reachable, through the builtin parents, from the class's name or from a
    class of its resolution order. *)
Theorem handler_matches_ancestors (classes : gmap string ClassValue) (exc : ExceptionValue)
    (c : ClassValue) (name : string)
    (Hc : classes !! exc_type_name exc = Some c)
    (Hname : name ∉ ["Exception"; "BaseException"]) :
  matches_exception_type classes exc (VExceptionType name) = true <->
  exists base, base ∈ exc_type_name exc :: mro c /\ rtc exception_parent base name.
Proof.
  unfold matches_exception_type, matches_user_exception. simpl. rewrite Hc.
  apply not_elem_of_cons in Hname as [H1 Hname]. apply not_elem_of_cons in Hname as [H2 _].
  apply String.eqb_neq in H1, H2. rewrite H1, H2. simpl.
  rewrite !orb_true_iff, builtin_issubclass_spec, existsb_exists.
  setoid_rewrite orb_true_iff. setoid_rewrite builtin_issubclass_spec. split.
  - intros [[->%String.eqb_eq|Hr]|(base & Hin & Hb)].
    + exists name. split; [by left|done].
    + exists (exc_type_name exc). split; [by left|done].
    + apply list_elem_of_In in Hin. exists base. split; [by right|].
      destruct Hb as [->%String.eqb_eq|Hb]; done.
  - intros (base & [->|Hin]%elem_of_cons & Hr).
    + left. by right.
    + right. exists base. apply list_elem_of_In in Hin. split; [done|by right].
Qed.

(** Method lookup. The method found is the one of the first class of the
    resolution order that defines it, and a lookup fails only when no class of
    the order does. *)
Theorem method_lookup_is_first (classes : gmap string ClassValue) (class_name name : string)
    (c : ClassValue) (Hc : classes !! class_name = Some c) :
  match lookup_method_in_mro classes class_name name with
  | Some (owner, def) => exists before after k,
      mro c = before ++ owner :: after /\ classes !! owner = Some k /\ methods k !! name = Some def /\
      forall a k', a ∈ before -> classes !! a = Some k' -> methods k' !! name = None
  | None => forall a k', a ∈ mro c -> classes !! a = Some k' -> methods k' !! name = None
  end.
Proof.
  unfold lookup_method_in_mro. rewrite Hc. simpl. clear Hc class_name.
  induction (mro c) as [|a order IH]; simpl; [by intros a k' ?%elem_of_nil|].
  destruct (classes !! a) as [k|] eqn:Ha; [destruct (methods k !! name) as [def|] eqn:Hm|].
  - exists [], order, k. repeat split; try done. by intros ? ? ?%elem_of_nil.
  - destruct (first_in_mro _ _ order) as [[owner def]|].
    + destruct IH as (before & after & k0 & -> & Ho & Hd & Hb).
      exists (a :: before), after, k0. repeat split; try done.
      intros b k' [->|Hin]%elem_of_cons Hk'; [congruence|by eapply Hb].
    + intros b k' [->|Hin]%elem_of_cons Hk'; [congruence|by eapply IH].
  - destruct (first_in_mro _ _ order) as [[owner def]|].
    + destruct IH as (before & after & k0 & -> & Ho & Hd & Hb).
      exists (a :: before), after, k0. repeat split; try done.
      intros b k' [->|Hin]%elem_of_cons Hk'; [congruence|by eapply Hb].
    + intros b k' [->|Hin]%elem_of_cons Hk'; [congruence|by eapply IH].
Qed.
End Properties.

(** * Witnesses *)

Section Witnesses.
#[local] Instance ext : External := sample_external.

(** A class with a given resolution order and methods. *)
#[local] Definition class_with (name : string) (order : list string) (ms : gmap string FunctionDef) :
    ClassValue :=
  let c := ClassValue_new name in
  mkClass (c_name c) ms (class_attrs c) (bases c) order (properties c) (static_methods c)
    (class_methods c) (enum_kind c) (enum_members c) (annotations c) (dataclass_fields c) (frozen c)
    (Classes.order c) (total_ordering c) (has_slots c) (slot_names c) (abstract_methods c) (metaclass c)
    (c_qualname c) (is_generic c) (initvar_fields c).

#[local] Definition some_function (name : string) : FunctionDef :=
  mkFunctionDef name "" (mkParams [] [] [] None [] [] [] None 0) [] "" [] false None None [] [] false
    None [] "" [] false.

(** [B] and [C] derive from [A]; [A] and [C] define [m]; [E] derives [KeyError]. *)
#[local] Definition diamond : gmap string ClassValue :=
  <["A" := class_with "A" ["A"] {["m" := some_function "m"]}]>
  (<["B" := class_with "B" ["B"; "A"] ∅]>
  (<["C" := class_with "C" ["C"; "A"] {["m" := some_function "m2"]}]>
  (<["D" := class_with "D" ["D"; "B"; "C"; "A"] ∅]>
  {["E" := class_with "E" ["E"; "KeyError"] ∅]}))).

Lemma build_mro_is_c3_witness :
  (exists order, build_mro "D" ["B"; "C"] diamond = Ok ("D" :: order)) /\
  exists msg, build_mro "D" ["A"; "B"] diamond = fail (TypeError msg).
Proof.
  assert (base_sequences ["B"; "C"] diamond = [["B"; "A"]; ["C"; "A"]; ["B"; "C"]]) as E1 by reflexivity.
  assert (base_sequences ["A"; "B"] diamond = [["A"]; ["B"; "A"]; ["A"; "B"]]) as E2 by reflexivity.
  split.
  - destruct (build_mro_is_c3 "D" ["B"; "C"] diamond) as [Hok _]. rewrite E1 in Hok.
    destruct Hok as (order & Ho & _); [|by exists order].
    exists ["B"; "C"; "A"]. split; [apply NoDup_ListNoDup; repeat constructor; simpl; intuition congruence|].
    repeat constructor.
  - destruct (build_mro_is_c3 "D" ["A"; "B"] diamond) as [_ Hbad]. rewrite E2 in Hbad.
    apply Hbad. intros (L & Hnd & Hs). inversion_clear Hs as [|? ? _ Hs'].
    inversion_clear Hs' as [|? ? Hba Hs'']. inversion_clear Hs'' as [|? ? Hab _]. clear - Hnd Hba Hab.
    induction L as [|z L IH]; [by apply sublist_nil_r in Hba|].
    apply NoDup_cons in Hnd as [Hz Hnd].
    apply sublist_cons_r in Hba as [Hba|(s1 & E & Hba)], Hab as [Hab|(s2 & E' & Hab)].
    + by apply IH.
    + injection E' as <- <-. apply Hz. eapply elem_of_sublist; [|exact Hba]. right. by left.
    + injection E as <- <-. apply Hz. eapply elem_of_sublist; [|exact Hab]. right. by left.
    + congruence.
Defined.

Lemma handler_matches_ancestors_witness :
  matches_exception_type diamond (ExceptionValue_new "E" []) (VExceptionType "LookupError") = true.
Proof.
  apply (handler_matches_ancestors diamond _ (class_with "E" ["E"; "KeyError"] ∅)).
  - reflexivity.
  - intros Hin. repeat (apply elem_of_cons in Hin as [Hin|Hin]; [done|]). by apply elem_of_nil in Hin.
  - exists "KeyError". split; [right; right; by left|]. apply rtc_once. reflexivity.
Defined.

Lemma method_lookup_is_first_witness :
  exists def, lookup_method_in_mro diamond "D" "m" = Some ("C", def).
Proof.
  pose proof (method_lookup_is_first diamond "D" "m" (class_with "D" ["D"; "B"; "C"; "A"] ∅)
    ltac:(reflexivity)) as Hl.
  destruct (lookup_method_in_mro diamond "D" "m") as [[owner def]|] eqn:E.
  - exists def. assert (fst <$> lookup_method_in_mro diamond "D" "m" = Some "C") as Ho by reflexivity.
    rewrite E in Ho. by injection Ho as ->.
  - exfalso. specialize (Hl "C" (class_with "C" ["C"; "A"] {["m" := some_function "m2"]})).
    assert (methods (class_with "C" ["C"; "A"] {["m" := some_function "m2"]}) !! "m" = None) as Hm;
      [apply Hl; [right; right; by left|reflexivity]|]. discriminate Hm.
Defined.
End Witnesses.
