(* ===== verification/Heapq.v ===== *)
(** The ordering the sorting and searching modules rely on, as an interface; the binary
    heap of [eval/modules/heapq.rs], the sift routines and the operations on a list, which
    keep their writes when a comparison fails; binary search and ordered insertion
    ([eval/modules/bisect.rs]). *)
From Stdlib Require Import ZArith Lia Ascii String.
From stdpp Require Import base tactics list numbers option strings.
From S2P Require Import Prelude PySet Values Errors.

Class LtElem (V E : Type) : Type := { compare_lt : V -> V -> Outcome E bool }.

Class LtLaws {V E : Type} `{LtElem V E} (P : V -> Prop) (lt : V -> V -> bool) : Prop := {
  compare_lt_ok : forall x y, P x -> P y -> compare_lt x y = Ok (lt x y);
  lt_irrefl : forall x, P x -> lt x x = false;
  lt_asym : forall x y, P x -> P y -> lt x y = true -> lt y x = false;
  lt_negtrans : forall x y z, P x -> P y -> P z -> lt x y = false -> lt y z = false -> lt x z = false
}.

Section Le.
Context {V E : Type} `{LtElem V E} (P : V -> Prop) (lt : V -> V -> bool) `{!LtLaws P lt}.

(** [x <= y] when not [y < x]. *)
Definition le (x y : V) : Prop := lt y x = false.

Lemma le_refl x : P x -> le x x.
Proof. apply lt_irrefl. Qed.

Lemma le_trans x y z : P x -> P y -> P z -> le x y -> le y z -> le x z.
Proof. unfold le. intros Hx Hy Hz H1 H2. by apply (lt_negtrans z y x). Qed.

Lemma lt_le x y : P x -> P y -> lt x y = true -> le x y.
Proof. unfold le. apply lt_asym. Qed.
End Le.

(** Integers under their own order. *)
#[export] Instance int_lt {E} : LtElem Z E := {| compare_lt := fun x y => Ok (x <? y) |}.

#[export] Instance int_lt_laws {E} : @LtLaws Z E _ (fun _ => True) Z.ltb.
Proof. constructor; intros; rewrite ?Z.ltb_lt, ?Z.ltb_ge in *; try done; lia. Qed.

Section Heap.
Context {V E : Type} `{LtElem V E}.

(** A step on the list: the list afterwards, and the result. *)
Abbreviation Step A := (list V * Outcome E A)%type.

(** [heap[i]], with the panic of an index out of range. *)
Definition with_elem {A} (heap : list V) (i : nat) (f : V -> Step A) : Step A :=
  match heap !! i with Some x => f x | None => (heap, Panic) end.

Definition with_lt {A} (heap : list V) (x y : V) (f : bool -> Step A) : Step A :=
  match compare_lt x y with Ok b => f b | Err e => (heap, Err e) | Panic => (heap, Panic) end.

(** The loop of [siftdown]; [pos] strictly decreases. *)
Fixpoint siftdown_loop (fuel : nat) (heap : list V) (startpos pos : nat) (newitem : V) : Step () :=
  match fuel with
  | O => (heap, Panic)
  | S fuel =>
      if (startpos <? pos)%nat then
        let parentpos := Nat.div2 (pos - 1) in
        with_elem heap parentpos (fun parent =>
          with_lt heap newitem parent (fun b =>
            if b then siftdown_loop fuel (<[pos := parent]> heap) startpos parentpos newitem
            else (<[pos := newitem]> heap, Ok ())))
      else (<[pos := newitem]> heap, Ok ())
  end.

Definition siftdown (heap : list V) (startpos pos : nat) : Step () :=
  with_elem heap pos (fun newitem => siftdown_loop (S pos) heap startpos pos newitem).

(** The smaller child of [pos]: [childpos], or its right sibling when that
    exists and [childpos] is not smaller than it. *)
Definition pick_child {A} (heap : list V) (childpos : nat) (f : nat -> Step A) : Step A :=
  let rightpos := S childpos in
  if (rightpos <? length heap)%nat then
    with_elem heap childpos (fun c =>
      with_elem heap rightpos (fun r =>
        with_lt heap c r (fun b => f (if b then childpos else rightpos))))
  else f childpos.

(** The loop of [siftup]; [pos] strictly increases up to the length. *)
Fixpoint siftup_loop (fuel : nat) (heap : list V) (startpos pos : nat) (newitem : V) : Step () :=
  match fuel with
  | O => (heap, Panic)
  | S fuel =>
      let childpos := (2 * pos + 1)%nat in
      if (childpos <? length heap)%nat then
        pick_child heap childpos (fun childpos =>
          with_elem heap childpos (fun c =>
            siftup_loop fuel (<[pos := c]> heap) startpos childpos newitem))
      else siftdown (<[pos := newitem]> heap) startpos pos
  end.

Definition siftup (heap : list V) (pos : nat) : Step () :=
  with_elem heap pos (fun newitem => siftup_loop (S (length heap)) heap pos pos newitem).

(** Sequencing of a sift with the rest of an operation. *)
Definition after {A} (s : Step ()) (f : list V -> Step A) : Step A :=
  match s with
  | (heap, Ok _) => f heap
  | (heap, Err e) => (heap, Err e)
  | (heap, Panic) => (heap, Panic)
  end.

Fixpoint heapify_from (i : nat) (heap : list V) : Step () :=
  match i with
  | O => (heap, Ok ())
  | S i => after (siftup heap i) (heapify_from i)
  end.

(** [for i in (0..n / 2).rev()]. *)
Definition heapify (heap : list V) : Step () := heapify_from (Nat.div2 (length heap)) heap.

Definition heappush (heap : list V) (item : V) : Step () :=
  let heap := heap ++ [item] in siftdown heap 0 (length heap - 1).

(** The [IndexError] raised on an empty heap is a parameter of the operations. *)
Definition replace_root (heap : list V) (item : V) : Step V :=
  with_elem heap 0 (fun returned =>
    after (siftup (<[0%nat := item]> heap) 0) (fun heap => (heap, Ok returned))).

Definition pop_min (index_error : E) (heap : list V) : Step V :=
  match last heap with
  | None => (heap, Err index_error)
  | Some last_item =>
      let heap := removelast heap in
      if (length heap =? 0)%nat then (heap, Ok last_item) else replace_root heap last_item
  end.

Definition heappushpop (heap : list V) (item : V) : Step V :=
  match heap with
  | [] => (heap, Ok item)
  | root :: _ =>
      with_lt heap root item (fun b => if b then replace_root heap item else (heap, Ok item))
  end.

Definition heapreplace (index_error : E) (heap : list V) (item : V) : Step V :=
  match heap with
  | [] => (heap, Err index_error)
  | _ => replace_root heap item
  end.
End Heap.

(** The error raised on an empty heap. *)
Definition heap_index_error `{External} : EvalError :=
  Exception (ExceptionValue_new "IndexError" (lit "index out of range")).

Section Bounds.
Context `{External}.

Definition opt_bound (arg : option Value) (default : nat) : EvalResult nat :=
  match arg with
  | None | Some VNone => Ok default
  | Some (VInt n) =>
      if 0 <=? n then Ok (Z.to_nat n) else fail (ValueError "lo must be non-negative")
  | Some other =>
      fail (TypeError ("'" ++ type_name other ++ "' object cannot be interpreted as an integer"))
  end.
End Bounds.

Section Search.
Context {V E : Type} `{LtElem V E}.

(** The user's [key], which may raise and may change the list meanwhile. *)
Variable key : option (V -> list V -> list V * Outcome E V).
Variable right : bool.

(** [left]: [a[mid] < x] goes right; [right]: [x < a[mid]] goes left. *)
Definition go_right (x elem : V) : Outcome E bool :=
  if right then b ← compare_lt x elem; Ok (negb b) else compare_lt elem x.

Definition apply_key (elem : V) (current : list V) : list V * Outcome E V :=
  match key with Some f => f elem current | None => (current, Ok elem) end.

(** The search loop over the snapshot; [hi - lo] strictly decreases. *)
Fixpoint search (fuel : nat) (snapshot current : list V) (x : V) (lo hi : nat) :
    list V * Outcome E nat :=
  match fuel with
  | O => (current, Panic)
  | S fuel =>
      if (lo <? hi)%nat then
        let mid := (lo + Nat.div2 (hi - lo))%nat in
        match snapshot !! mid with
        | None => (current, Panic)
        | Some a =>
            match apply_key a current with
            | (current, Ok elem) =>
                match go_right x elem with
                | Ok true => search fuel snapshot current x (mid + 1) hi
                | Ok false => search fuel snapshot current x lo mid
                | Err e => (current, Err e)
                | Panic => (current, Panic)
                end
            | (current, Err e) => (current, Err e)
            | (current, Panic) => (current, Panic)
            end
        end
      else (current, Ok lo)
  end.

(** The call after argument checks: the bounds, the search, and the insertion
    into the list as it is then ([Vec::insert] panics beyond the end). *)
Definition bisect_call (too_low : E) (insert : bool) (l : list V) (x : V) (lo hi : nat) :
    list V * Outcome E (option nat) :=
  let len := length l in
  let hi := Nat.min hi len in
  if (len <? lo)%nat then (l, Err too_low)
  else
    match search (S (hi - lo)) l l x lo hi with
    | (current, Ok p) =>
        if insert then
          if (length current <? p)%nat then (current, Panic)
          else (take p current ++ x :: drop p current, Ok None)
        else (current, Ok (Some p))
    | (current, Err e) => (current, Err e)
    | (current, Panic) => (current, Panic)
    end.
End Search.

(** * The partition point *)

Section Theory.
Context {V E : Type} `{LtElem V E} (P : V -> Prop) (lt : V -> V -> bool) `{!LtLaws P lt}.
Implicit Types (l : list V) (x : V) (lo hi i : nat).

Abbreviation le := (le lt).

Definition sorted l : Prop :=
  forall i j a b, (i <= j)%nat -> l !! i = Some a -> l !! j = Some b -> le a b.

(** The side of [x] an element belongs to. *)
Definition before (right : bool) x a : bool := if right then negb (lt x a) else lt a x.

Lemma go_right_ok right x a : P x -> P a -> go_right right x a = Ok (before right x a).
Proof.
  intros Hx Ha. unfold go_right, before.
  rewrite !(compare_lt_ok (P := P) (lt := lt)) by done. by destruct right.
Qed.

(** In a sorted list the side changes once. *)
Lemma before_mono right x l i j a b :
  Forall P l -> P x -> sorted l -> (i <= j)%nat -> l !! i = Some a -> l !! j = Some b ->
  before right x b = true -> before right x a = true.
Proof.
  intros HP Hx Hs Hij Ha Hb. assert (P a) by by eapply Forall_lookup_1.
  assert (P b) by by eapply Forall_lookup_1. pose proof (Hs i j a b Hij Ha Hb) as Hab. unfold Heapq.le in Hab.
  unfold before. destruct right.
  - rewrite !negb_true_iff. intros Hxb. by apply (lt_negtrans (P := P) x b a).
  - intros Hbx. destruct (lt a x) eqn:E1; [done|].
    assert (lt b x = false); [|congruence]. by apply (lt_negtrans (P := P) b a x).
Qed.

Lemma search_ok right fuel l x lo hi :
  Forall P l -> P x -> sorted l -> (hi <= length l)%nat -> (lo <= hi)%nat -> (hi - lo < fuel)%nat ->
  exists p, search None right fuel l l x lo hi = (l, Ok p) /\ (lo <= p <= hi)%nat /\
    (forall i a, (lo <= i < p)%nat -> l !! i = Some a -> before right x a = true) /\
    (forall i a, (p <= i < hi)%nat -> l !! i = Some a -> before right x a = false).
Proof.
  intros HP Hx Hs. revert lo hi. induction fuel as [|fuel IH]; intros lo hi Hhi Hlo Hf; [lia|]. simpl.
  destruct (Nat.ltb_spec lo hi) as [Hlt|Hge].
  2:{ exists lo. repeat split; try lia; intros i a Hi; lia. }
  set (mid := (lo + Nat.div2 (hi - lo))%nat).
  assert (lo <= mid < hi)%nat as Hmid.
  { pose proof (Nat.lt_div2 (hi - lo) ltac:(lia)). subst mid. generalize dependent (Nat.div2 (hi - lo)). intros n Hn. clear - Hn Hlt. lia. }
  destruct (lookup_lt_is_Some_2 l mid) as [a Ha]; [lia|]. rewrite Ha.
  rewrite go_right_ok; [|done|by eapply Forall_lookup_1]. destruct (before right x a) eqn:Eb.
  - destruct (IH (mid + 1)%nat hi) as (p & -> & Hp & H1 & H2); [lia..|].
    exists p. split; [done|]. split; [lia|]. split; [|done].
    intros i b Hi Hb. destruct (decide (i <= mid)%nat); [by eapply before_mono|].
    apply (H1 i); [lia|done].
  - destruct (IH lo mid) as (p & -> & Hp & H1 & H2); [lia..|].
    exists p. split; [done|]. split; [lia|]. split; [done|].
    intros i b Hi Hb. destruct (decide (i < mid)%nat); [apply (H2 i); [lia|done]|].
    destruct (before right x b) eqn:Ebb; [|done].
    rewrite (before_mono right x l mid i a b) in Eb; try done; lia.
Qed.

Lemma sorted_insert right l x p :
  Forall P l -> P x -> sorted l -> (p <= length l)%nat ->
  (forall i a, (i < p)%nat -> l !! i = Some a -> before right x a = true) ->
  (forall i a, (p <= i)%nat -> l !! i = Some a -> before right x a = false) ->
  sorted (take p l ++ x :: drop p l).
Proof.
  intros HP Hx Hs Hp H1 H2.
  assert (forall i a, (take p l ++ x :: drop p l) !! i = Some a ->
    (i < p)%nat /\ l !! i = Some a \/ i = p /\ a = x \/ (p < i)%nat /\ l !! (i - 1)%nat = Some a) as Hcase.
  { intros i a Ha. apply lookup_app_Some in Ha as [Ha|[Hl Ha]].
    - left. apply lookup_take_Some in Ha as [Ha Hi]. done.
    - rewrite length_take, Nat.min_l in * by done. right.
      destruct (i - p)%nat as [|k] eqn:Ek; [left|right].
      + split; [lia|]. by injection Ha.
      + simpl in Ha. rewrite lookup_drop in Ha. split; [lia|]. by replace (i - 1)%nat with (p + k)%nat by lia. }
  assert (forall i a, (i < p)%nat -> l !! i = Some a -> le a x) as Hax.
  { intros i a Hi Ha. specialize (H1 i a Hi Ha). assert (P a) by by eapply Forall_lookup_1.
    unfold before in H1. destruct right; [by apply negb_true_iff in H1|by apply (lt_le P lt)]. }
  assert (forall i a, (p <= i)%nat -> l !! i = Some a -> le x a) as Hxa.
  { intros i a Hi Ha. specialize (H2 i a Hi Ha). assert (P a) by by eapply Forall_lookup_1.
    unfold before in H2. destruct right; [apply negb_false_iff in H2; by apply (lt_le P lt)|done]. }
  intros i j a b Hij Ha Hb. apply Hcase in Ha, Hb.
  destruct Ha as [[Hi Ha]|[[-> ->]|[Hi Ha]]], Hb as [[Hj Hb]|[[-> ->]|[Hj Hb]]]; try lia; eauto.
  - apply (Hs i (j - 1)%nat); [lia|done..].
  - by apply (le_refl P lt).
  - apply (Hxa (j - 1)%nat); [lia|done].
  - apply (Hs (i - 1)%nat (j - 1)%nat); [lia|done..].
Qed.

(** [bisect_left] and [bisect_right] on a sorted list terminate at the
    partition point of the searched range: everything before it is smaller than
    the item (or not larger, on the right), everything from it on is not. *)
Theorem bisect_partition right l x lo hi e
    (HP : Forall P l) (Hx : P x) (Hs : sorted l) (Hlo : (lo <= Nat.min hi (length l))%nat) :
  exists p, bisect_call None right e false l x lo hi = (l, Ok (Some p)) /\
    (lo <= p <= Nat.min hi (length l))%nat /\
    (forall i a, (lo <= i < p)%nat -> l !! i = Some a -> (if right then negb (lt x a) else lt a x) = true) /\
    (forall i a, (p <= i < hi)%nat -> l !! i = Some a -> (if right then negb (lt x a) else lt a x) = false).
Proof.
  unfold bisect_call. destruct (Nat.ltb_spec (length l) lo); [lia|].
  destruct (search_ok right (S (Nat.min hi (length l) - lo)) l x lo (Nat.min hi (length l)))
    as (p & -> & Hp & H1 & H2); try done; try lia.
  exists p. split; [done|]. split; [done|]. split; [done|].
  intros i a Hi Ha. apply (H2 i); [|done]. apply lookup_lt_Some in Ha as Hl. lia.
Qed.

(** [insort] without bounds puts the item into a sorted list and keeps it
    sorted. *)
Theorem insort_sorted right l x e (HP : Forall P l) (Hx : P x) (Hs : sorted l) :
  exists l', bisect_call None right e true l x 0 (length l) = (l', Ok None) /\
    l' ≡ₚ x :: l /\ sorted l'.
Proof.
  unfold bisect_call. rewrite Nat.min_id. destruct (Nat.ltb_spec (length l) 0); [lia|].
  destruct (search_ok right (S (length l - 0)) l x 0 (length l)) as (p & -> & Hp & H1 & H2); try done; try lia.
  destruct (Nat.ltb_spec (length l) p); [lia|]. eexists. split; [done|]. split.
  - rewrite <- Permutation_middle. by rewrite take_drop.
  - apply (sorted_insert right); try done.
    + intros i a Hi Ha. apply (H1 i); [lia|done].
    + intros i a Hi Ha. apply (H2 i); [|done]. apply lookup_lt_Some in Ha as Hl. lia.
Qed.
End Theory.

(** with a [key], [insort] compares the keys of the elements with the raw
    item. Inserting [3] under the key [- x] into the list [5; 3; 1], which is
    sorted by that key, appends it at the end: the result is not sorted by the
    key. *)
Theorem insort_ignores_key_of_item :
  let key := Some (fun (a : Z) (current : list Z) => (current, @Ok unit Z (- a))) in
  bisect_call key true tt true [5; 3; 1] 3 0 3 = ([5; 3; 1; 3], Ok None) /\
  - 3 < - 1.
Proof. split; [by vm_compute|lia]. Qed.

Lemma bisect_partition_witness :
  exists p, bisect_call (E := ()) None true tt false [1; 2; 2; 5] 2 0 4 = ([1; 2; 2; 5], Ok (Some p)).
Proof.
  destruct (bisect_partition (E := ()) (fun _ => True) Z.ltb true [1; 2; 2; 5] 2 0 4 tt) as (p & Hp & _).
  - by repeat constructor.
  - done.
  - intros i j a b Hij Ha Hb. unfold le.
    destruct i as [|[|[|[|i]]]], j as [|[|[|[|j]]]]; simpl in *; simplify_eq; try lia; done.
  - simpl. lia.
  - by exists p.
Defined.

Lemma insort_sorted_witness :
  exists l', bisect_call (E := ()) None false tt true [1; 4] 2 0 2 = (l', Ok None) /\ l' ≡ₚ [2; 1; 4].
Proof.
  destruct (insort_sorted (E := ()) (fun _ => True) Z.ltb false [1; 4] 2 tt) as (l' & Hl & Hp & _).
  - by repeat constructor.
  - done.
  - intros i j a b Hij Ha Hb. unfold le.
    destruct i as [|[|i]], j as [|[|j]]; simpl in *; simplify_eq; try lia; done.
  - by exists l'.
Defined.
