(* ===== verification/HeapqThms.v ===== *)
(** Every heap operation keeps the heap invariant and the multiset of elements,
    never fails under the ordering laws, and returns a least element. *)
From Stdlib Require Import ZArith Lia Ascii String.
From stdpp Require Import base tactics list numbers option strings.
From S2P Require Import Prelude PySet Values Errors Heapq.

Definition child (c p : nat) : Prop := (c = 2 * p + 1 \/ c = 2 * p + 2)%nat.

(** [pos] lies in the subtree rooted at [s]. *)
Inductive desc (s : nat) : nat -> Prop :=
| desc_root : desc s s
| desc_child c p : desc s p -> child c p -> desc s c.

Lemma desc_le s pos : desc s pos -> (s <= pos)%nat.
Proof. induction 1 as [|c p _ IH Hc]; [lia|]. destruct Hc; lia. Qed.

Lemma div2_parent c p : child c p -> Nat.div2 (c - 1) = p.
Proof.
  intros [-> | ->].
  - replace (2 * p + 1 - 1)%nat with (2 * p)%nat by lia. apply Nat.div2_double.
  - replace (2 * p + 2 - 1)%nat with (S (2 * p)) by lia. apply Nat.div2_succ_double.
Qed.

Lemma desc_parent s pos : desc s pos -> (s < pos)%nat ->
  exists p, child pos p /\ Nat.div2 (pos - 1) = p /\ desc s p.
Proof.
  intros Hd Hlt. inversion Hd as [|c p Hp Hc]; subst; [lia|].
  exists p. split; [done|]. split; [by apply div2_parent|done].
Qed.

Lemma desc_zero pos : desc 0 pos.
Proof.
  induction (lt_wf pos) as [pos _ IH]. destruct (decide (pos = 0%nat)) as [->|Hne]; [constructor|].
  assert (child pos (Nat.div2 (pos - 1))) as Hc.
  { destruct (Nat.Even_or_Odd pos) as [[k ->]|[k ->]].
    - replace (2 * k - 1)%nat with (S (2 * (k - 1))) by lia. rewrite Nat.div2_succ_double.
      right. lia.
    - replace (2 * k + 1 - 1)%nat with (2 * k)%nat by lia. rewrite Nat.div2_double. left. lia. }
  econstructor; [|exact Hc]. apply IH. destruct Hc; lia.
Qed.

(** Moving the value of a cell into a hole, then filling that cell. *)
Lemma insert_move_perm {A} (l : list A) i j x m :
  i <> j -> l !! j = Some m -> (i < length l)%nat -> <[j := x]> (<[i := m]> l) ≡ₚ <[i := x]> l.
Proof.
  intros Hij Hj Hi. destruct (lookup_lt_is_Some_2 l i Hi) as [y Hy].
  assert (j < length l)%nat as Hjl by by eapply lookup_lt_Some.
  assert (forall k z, (k < length l)%nat -> forall w, l !! k = Some w -> w :: <[k := z]> l ≡ₚ z :: l) as Hins.
  { clear. intros k z Hk w Hw. rewrite insert_take_drop by done.
    rewrite <- (take_drop_middle l k w Hw) at 3.
    rewrite <- !Permutation_middle. apply Permutation_swap. }
  apply (Permutation_cons_inv (a := y)). rewrite (Hins i x Hi y Hy).
  apply (Permutation_cons_inv (a := m)).
  assert (m :: y :: <[j := x]> (<[i := m]> l) ≡ₚ y :: x :: <[i := m]> l) as ->.
  { rewrite (Permutation_swap y m). f_equiv.
    assert (forall l' : list A, l' !! j = Some m -> (j < length l')%nat -> m :: <[j := x]> l' ≡ₚ x :: l') as Hj'.
    { clear. intros l' Hj Hl. rewrite insert_take_drop by done.
      rewrite <- (take_drop_middle l' j m Hj) at 3. rewrite <- !Permutation_middle. apply Permutation_swap. }
    apply Hj'; [by rewrite list_lookup_insert_ne|by rewrite length_insert]. }
  rewrite (Permutation_swap x y), (Hins i m Hi y Hy). apply Permutation_swap.
Qed.

Section HeapTheory.
Context {V E : Type} `{LtElem V E} (P : V -> Prop) (lt : V -> V -> bool) `{!LtLaws P lt}.
Implicit Types (heap : list V) (s p c pos : nat).

Abbreviation le := (le lt).

Definition ordered_at heap p c : Prop :=
  forall x y, heap !! p = Some x -> heap !! c = Some y -> le x y.

(** The heap order on every edge whose parent is at least [s]. *)
Definition heap_from s heap : Prop := forall p c, (s <= p)%nat -> child c p -> ordered_at heap p c.

(** The same, with a hole at [pos]: edges at the hole are excused, but what is
    above the hole is below what hangs from it. *)
Definition hole_at s pos heap : Prop :=
  (forall p c, (s <= p)%nat -> child c p -> p <> pos -> c <> pos -> ordered_at heap p c) /\
  (forall g c, (s <= g)%nat -> child pos g -> child c pos -> ordered_at heap g c).

Lemma with_lt_ok {A} heap x y (f : bool -> list V * Outcome E A) :
  P x -> P y -> with_lt heap x y f = f (lt x y).
Proof. intros Hx Hy. unfold with_lt. by rewrite (compare_lt_ok (P := P) (lt := lt)). Qed.

Lemma lookup_P heap i x : Forall P heap -> heap !! i = Some x -> P x.
Proof. intros Hh. by apply Forall_lookup_1. Qed.

Lemma fill_hole s pos heap newitem :
  (pos < length heap)%nat -> hole_at s pos heap ->
  (forall c y, child c pos -> heap !! c = Some y -> le newitem y) ->
  (forall p x, (s <= p)%nat -> child pos p -> heap !! p = Some x -> le x newitem) ->
  heap_from s (<[pos := newitem]> heap).
Proof.
  intros Hpos [H1 _] Hdown Hup p c Hp Hc x y Hx Hy.
  assert (p <> c) by (destruct Hc; lia).
  destruct (decide (p = pos)) as [->|Hnp].
  - rewrite list_lookup_insert_eq in Hx by done. injection Hx as <-.
    rewrite list_lookup_insert_ne in Hy by done. by eapply Hdown.
  - rewrite list_lookup_insert_ne in Hx by done. destruct (decide (c = pos)) as [->|Hnc].
    + rewrite list_lookup_insert_eq in Hy by done. injection Hy as <-. by eapply Hup.
    + rewrite list_lookup_insert_ne in Hy by done. by eapply H1.
Qed.

(** Moving the parent's value down leaves a hole at the parent. *)
Lemma hole_up s pos p heap x :
  Forall P heap -> (pos < length heap)%nat -> child pos p -> (s <= p)%nat -> heap !! p = Some x ->
  hole_at s pos heap -> hole_at s p (<[pos := x]> heap).
Proof.
  intros HP Hpos Hc Hs Hx [H1 H2]. split.
  - intros p' c' Hp' Hc' Hn1 Hn2 u v Hu Hv. assert (p' <> c') by (destruct Hc'; lia).
    destruct (decide (c' = pos)) as [->|]; [destruct Hn1, Hc, Hc'; lia|].
    rewrite list_lookup_insert_ne in Hv by done. destruct (decide (p' = pos)) as [->|].
    + rewrite list_lookup_insert_eq in Hu by done. injection Hu as <-. by eapply (H2 p c').
    + rewrite list_lookup_insert_ne in Hu by done. by eapply H1.
  - intros g c' Hg Hcg Hc' u v Hu Hv. assert (g <> pos) by (destruct Hcg, Hc; lia).
    assert (p <> pos) by (destruct Hc; lia).
    rewrite list_lookup_insert_ne in Hu by done.
    assert (le u x) as Hux by by eapply (H1 g p).
    destruct (decide (c' = pos)) as [->|].
    + rewrite list_lookup_insert_eq in Hv by done. by injection Hv as <-.
    + rewrite list_lookup_insert_ne in Hv by done.
      apply (le_trans P lt u x v); eauto using lookup_P. by eapply (H1 p c').
Qed.

(** Moving the smaller child up leaves a hole at the child. *)
Lemma hole_down s pos m heap x :
  (pos < length heap)%nat -> child m pos -> heap !! m = Some x -> (s <= pos)%nat ->
  (forall c y, child c pos -> heap !! c = Some y -> le x y) ->
  hole_at s pos heap -> hole_at s m (<[pos := x]> heap).
Proof.
  intros Hpos Hm Hx Hs Hmin [H1 H2]. assert (m <> pos) by (destruct Hm; lia). split.
  - intros p' c' Hp' Hc' Hn1 Hn2 u v Hu Hv. assert (p' <> c') by (destruct Hc'; lia).
    destruct (decide (p' = pos)) as [->|].
    + rewrite list_lookup_insert_eq in Hu by done. injection Hu as <-.
      rewrite list_lookup_insert_ne in Hv by done. by eapply Hmin.
    + rewrite list_lookup_insert_ne in Hu by done. destruct (decide (c' = pos)) as [->|].
      * rewrite list_lookup_insert_eq in Hv by done. injection Hv as <-. by eapply (H2 p' m).
      * rewrite list_lookup_insert_ne in Hv by done. by eapply H1.
  - intros g c' Hg Hcg Hc' u v Hu Hv.
    assert (g = pos) as -> by (destruct Hcg, Hm; lia).
    rewrite list_lookup_insert_eq in Hu by done. injection Hu as <-.
    assert (c' <> pos) by (destruct Hc', Hm; lia).
    rewrite list_lookup_insert_ne in Hv by done. by eapply (H1 m c'); [destruct Hm; lia|..].
Qed.

Lemma siftdown_loop_ok fuel heap s pos newitem :
  (pos < fuel)%nat -> (pos < length heap)%nat -> desc s pos -> Forall P heap -> P newitem ->
  hole_at s pos heap -> (forall c y, child c pos -> heap !! c = Some y -> le newitem y) ->
  exists heap', siftdown_loop fuel heap s pos newitem = (heap', Ok ()) /\
    heap' ≡ₚ <[pos := newitem]> heap /\ heap_from s heap'.
Proof.
  revert heap pos. induction fuel as [|fuel IH]; intros heap pos Hf Hpos Hd HP Hn Hhole Hdown; [lia|].
  simpl. destruct (Nat.ltb_spec s pos) as [Hlt|Hge].
  - destruct (desc_parent s pos Hd Hlt) as (p & Hc & -> & Hdp).
    assert (p < pos)%nat by (destruct Hc; lia).
    destruct (lookup_lt_is_Some_2 heap p) as [x Hx]; [lia|]. unfold with_elem. rewrite Hx.
    pose proof (lookup_P _ _ _ HP Hx) as HPx. rewrite with_lt_ok by done.
    destruct (lt newitem x) eqn:El.
    + destruct (IH (<[pos := x]> heap) p) as (heap' & -> & Hperm & Hh).
      * lia.
      * rewrite length_insert. lia.
      * done.
      * by apply Forall_insert.
      * done.
      * eapply hole_up; eauto using desc_le.
      * intros c y Hc' Hy. assert (le newitem x) as Hle by by eapply (lt_le P lt).
        destruct (decide (c = pos)) as [->|].
        { rewrite list_lookup_insert_eq in Hy by done. by injection Hy as <-. }
        rewrite list_lookup_insert_ne in Hy by done.
        apply (le_trans P lt newitem x y); eauto using lookup_P.
        destruct Hhole as [H1 _]. apply (H1 p c); eauto using desc_le; destruct Hc'; lia.
      * exists heap'. split; [done|]. split; [|done]. rewrite Hperm.
        apply insert_move_perm; [lia|done|done].
    + eexists. split; [done|]. split; [done|]. apply fill_hole; try done.
      intros p' x' _ Hc' Hx'. assert (p' = p) as -> by (destruct Hc, Hc'; lia).
      rewrite Hx in Hx'. by injection Hx' as <-.
  - eexists. split; [done|]. split; [done|]. apply fill_hole; try done.
    intros p x Hp Hc _. apply desc_le in Hd. destruct Hc; lia.
Qed.

Lemma pick_child_ok {A} heap pos (f : nat -> list V * Outcome E A) :
  Forall P heap -> (2 * pos + 1 < length heap)%nat ->
  exists m x, pick_child heap (2 * pos + 1) f = f m /\ child m pos /\ heap !! m = Some x /\
    forall c y, child c pos -> heap !! c = Some y -> le x y.
Proof.
  intros HP Hlen. unfold pick_child.
  destruct (lookup_lt_is_Some_2 heap (2 * pos + 1)) as [a Ha]; [done|].
  pose proof (lookup_P _ _ _ HP Ha) as HPa.
  destruct (Nat.ltb_spec (S (2 * pos + 1)) (length heap)) as [Hr|Hr].
  - destruct (lookup_lt_is_Some_2 heap (S (2 * pos + 1))) as [b Hb]; [done|].
    pose proof (lookup_P _ _ _ HP Hb) as HPb.
    unfold with_elem. rewrite Ha, Hb, with_lt_ok by done.
    destruct (lt a b) eqn:El.
    + exists (2 * pos + 1)%nat, a. repeat split; [by left|done|].
      intros c y [-> | ->] Hy; [rewrite Ha in Hy; injection Hy as <-; by apply (le_refl P lt)|].
      replace (2 * pos + 2)%nat with (S (2 * pos + 1)) in Hy by lia. rewrite Hb in Hy. injection Hy as <-.
      by apply (lt_le P lt).
    + exists (S (2 * pos + 1)), b. repeat split; [right; lia|done|].
      intros c y [-> | ->] Hy; [rewrite Ha in Hy; by injection Hy as <-|].
      replace (2 * pos + 2)%nat with (S (2 * pos + 1)) in Hy by lia. rewrite Hb in Hy. injection Hy as <-.
      by apply (le_refl P lt).
  - exists (2 * pos + 1)%nat, a. repeat split; [by left|done|].
    intros c y [-> | ->] Hy; [rewrite Ha in Hy; injection Hy as <-; by apply (le_refl P lt)|].
    apply lookup_lt_Some in Hy. lia.
Qed.

Lemma siftup_loop_ok fuel heap s pos newitem :
  (length heap < fuel + pos)%nat -> (pos < length heap)%nat -> desc s pos -> Forall P heap ->
  P newitem -> hole_at s pos heap ->
  exists heap', siftup_loop fuel heap s pos newitem = (heap', Ok ()) /\
    heap' ≡ₚ <[pos := newitem]> heap /\ heap_from s heap'.
Proof.
  revert heap pos. induction fuel as [|fuel IH]; intros heap pos Hf Hpos Hd HP Hn Hhole; [lia|].
  cbn [siftup_loop]. destruct (Nat.ltb_spec (2 * pos + 1) (length heap)) as [Hlt|Hge].
  - match goal with |- context [pick_child _ _ ?f] =>
      destruct (pick_child_ok heap pos f HP Hlt) as (m & x & -> & Hm & Hx & Hmin) end.
    unfold with_elem. rewrite Hx. assert (pos < m)%nat by (destruct Hm; lia).
    pose proof (lookup_lt_Some _ _ _ Hx).
    destruct (IH (<[pos := x]> heap) m) as (heap' & -> & Hperm & Hh).
    + rewrite length_insert. lia.
    + by rewrite length_insert.
    + by econstructor.
    + apply Forall_insert; [done|]. by eapply lookup_P.
    + done.
    + eapply hole_down; eauto using desc_le.
    + exists heap'. split; [done|]. split; [|done]. rewrite Hperm.
      apply insert_move_perm; [lia|done|done].
  - unfold siftdown, with_elem. rewrite list_lookup_insert_eq by done.
    assert (forall c y, child c pos -> <[pos := newitem]> heap !! c = Some y -> False) as Hleaf.
    { intros c y Hc Hy. apply lookup_lt_Some in Hy. rewrite length_insert in Hy. destruct Hc; lia. }
    destruct (siftdown_loop_ok (S pos) (<[pos := newitem]> heap) s pos newitem)
      as (heap' & -> & Hperm & Hh).
    + lia.
    + by rewrite length_insert.
    + done.
    + by apply Forall_insert.
    + done.
    + destruct Hhole as [H1 _]. split.
      * intros p c Hp Hc Hn1 Hn2 u v Hu Hv. rewrite list_lookup_insert_ne in Hu, Hv by done. by eapply H1.
      * intros g c _ _ Hc u v _ Hv. by destruct (Hleaf c v).
    + intros c y Hc Hy. by destruct (Hleaf c y).
    + exists heap'. split; [done|]. split; [|done]. by rewrite Hperm, list_insert_insert_eq.
Qed.

Lemma siftup_ok heap pos :
  (pos < length heap)%nat -> Forall P heap -> heap_from (S pos) heap ->
  exists heap', siftup heap pos = (heap', Ok ()) /\ heap' ≡ₚ heap /\ heap_from pos heap'.
Proof.
  intros Hpos HP Hh. unfold siftup, with_elem.
  destruct (lookup_lt_is_Some_2 heap pos Hpos) as [x Hx]. rewrite Hx.
  destruct (siftup_loop_ok (S (length heap)) heap pos pos x) as (heap' & -> & Hperm & Hh').
  - lia.
  - done.
  - constructor.
  - done.
  - by eapply lookup_P.
  - split; [intros p c Hp Hc Hn _; apply Hh; [lia|done]|].
    intros g c Hg Hc _. destruct Hc; lia.
  - exists heap'. split; [done|]. split; [|done]. by rewrite Hperm, list_insert_id.
Qed.

Lemma heap_from_perm_P heap heap' : heap' ≡ₚ heap -> Forall P heap -> Forall P heap'.
Proof. intros Hp. by rewrite Hp. Qed.

Lemma heapify_from_ok i heap :
  (i <= length heap)%nat -> Forall P heap -> heap_from i heap ->
  exists heap', heapify_from i heap = (heap', Ok ()) /\ heap' ≡ₚ heap /\ heap_from 0 heap'.
Proof.
  revert heap. induction i as [|i IH]; intros heap Hi HP Hh; [by exists heap|]. simpl.
  destruct (siftup_ok heap i) as (h1 & -> & Hp1 & Hh1); [lia|done|done|]. simpl.
  destruct (IH h1) as (h2 & -> & Hp2 & Hh2); [rewrite (Permutation_length Hp1); lia| |done|].
  - by eapply heap_from_perm_P.
  - exists h2. split; [done|]. split; [by rewrite Hp2|done].
Qed.

Lemma heapify_ok heap :
  Forall P heap -> exists heap', heapify heap = (heap', Ok ()) /\ heap' ≡ₚ heap /\ heap_from 0 heap'.
Proof.
  intros HP. pose proof (Nat.div2_odd (length heap)) as Hd.
  apply heapify_from_ok; [lia|done|].
  intros p c Hp Hc x y _ Hy. apply lookup_lt_Some in Hy.
  destruct (Nat.odd (length heap)), Hc; simpl in Hd; lia.
Qed.

Lemma heappush_ok heap item :
  Forall P heap -> P item -> heap_from 0 heap ->
  exists heap', heappush heap item = (heap', Ok ()) /\ heap' ≡ₚ item :: heap /\ heap_from 0 heap'.
Proof.
  intros HP Hi Hh. unfold heappush, siftdown, with_elem. rewrite length_app. simpl.
  replace (length heap + 1 - 1)%nat with (length heap) by lia.
  rewrite lookup_app_r, Nat.sub_diag by lia. simpl.
  assert (forall k y, (length heap < k)%nat -> (heap ++ [item]) !! k = Some y -> False) as Hout.
  { intros k y Hk Hy. apply lookup_lt_Some in Hy. rewrite length_app in Hy. simpl in Hy. lia. }
  destruct (siftdown_loop_ok (S (length heap)) (heap ++ [item]) 0 (length heap) item)
    as (heap' & E' & Hperm & Hh').
  - lia.
  - rewrite length_app. simpl. lia.
  - apply desc_zero.
  - apply Forall_app. split; [done|by constructor].
  - done.
  - split.
    + intros p c Hp Hc Hn1 Hn2 x y Hx Hy.
      assert (c < length heap)%nat.
      { destruct (Nat.lt_trichotomy c (length heap)) as [|[|]]; [done|done|by destruct (Hout c y)]. }
      assert (p < length heap)%nat by (destruct Hc; lia).
      rewrite lookup_app_l in Hx, Hy by done. by eapply (Hh p c).
    + intros g c _ _ Hc x y _ Hy. destruct (Hout c y); [destruct Hc; lia|done].
  - intros c y Hc Hy. destruct (Hout c y); [destruct Hc; lia|done].
  - exists heap'. split; [exact E'|]. split; [|done]. rewrite Hperm.
    rewrite list_insert_id by (rewrite lookup_app_r, Nat.sub_diag by lia; done).
    by rewrite Permutation_app_comm.
Qed.

Lemma root_is_least heap x :
  Forall P heap -> heap_from 0 heap -> heap !! 0%nat = Some x -> forall y, y ∈ heap -> le x y.
Proof.
  intros HP Hh Hx y [i Hy]%list_elem_of_lookup. revert y Hy.
  pose proof (desc_zero i) as Hd. induction Hd as [|c p _ IH Hc]; intros y Hy.
  - rewrite Hx in Hy. injection Hy as <-. apply (le_refl P lt). by eapply lookup_P.
  - destruct (lookup_lt_is_Some_2 heap p) as [z Hz].
    { apply lookup_lt_Some in Hy. destruct Hc; lia. }
    apply (le_trans P lt x z y); eauto using lookup_P. by apply (Hh p c); [lia|..].
Qed.

Lemma replace_root_ok heap item x :
  Forall P heap -> P item -> heap_from 0 heap -> heap !! 0%nat = Some x ->
  exists heap', replace_root heap item = (heap', Ok x) /\ x :: heap' ≡ₚ item :: heap /\
    heap_from 0 heap' /\ forall y, y ∈ heap -> le x y.
Proof.
  intros HP Hi Hh Hx. unfold replace_root, with_elem. rewrite Hx.
  assert (0 < length heap)%nat by by eapply lookup_lt_Some.
  destruct (siftup_ok (<[0%nat := item]> heap) 0) as (heap' & -> & Hperm & Hh').
  - by rewrite length_insert.
  - by apply Forall_insert.
  - intros p c Hp Hc u v Hu Hv.
    rewrite list_lookup_insert_ne in Hu, Hv by (destruct Hc; lia). apply (Hh p c); [lia|done..].
  - exists heap'. split; [done|]. split; [|split; [done|by apply root_is_least]].
    rewrite Hperm. destruct heap; [done|]. simpl in *. injection Hx as ->. apply Permutation_swap.
Qed.
End HeapTheory.

(** * Properties *)

Section Properties.
Context {V E : Type} `{LtElem V E} (P : V -> Prop) (lt : V -> V -> bool) `{!LtLaws P lt}.
Implicit Types (heap : list V).

(** [heapify] and [heappush] never fail on comparable elements, establish or
    keep the heap order, and neither lose nor invent an element. *)
Theorem heap_build heap item (HP : Forall P heap) (Hi : P item) :
  (exists heap', heapify heap = (heap', Ok ()) /\ heap' ≡ₚ heap /\ heap_from lt 0 heap') /\
  (heap_from lt 0 heap ->
   exists heap', heappush heap item = (heap', Ok ()) /\ heap' ≡ₚ item :: heap /\ heap_from lt 0 heap').
Proof. split; [by apply (heapify_ok P)|intros Hh; by apply (heappush_ok P)]. Qed.

(** C37: [heappop] on a heap returns a least element and leaves a heap of the
    others; on an empty list it raises the index error and changes nothing. *)
Theorem heappop_least heap e (HP : Forall P heap) (Hh : heap_from lt 0 heap) :
  (heap = [] -> pop_min e heap = (heap, Err e)) /\
  (heap <> [] -> exists x heap', pop_min e heap = (heap', Ok x) /\ x :: heap' ≡ₚ heap /\
     heap_from lt 0 heap' /\ forall y, y ∈ heap -> lt y x = false).
Proof.
  split; [by intros ->|]. intros Hne. unfold pop_min.
  destruct (exists_last Hne) as (l & z & ->). rewrite last_snoc, removelast_last.
  apply Forall_app in HP as [HPl HPz]. apply Forall_cons_1 in HPz as [HPz _].
  assert (heap_from lt 0 l) as Hl.
  { intros p c Hp Hc u v Hu Hv. apply (Hh p c Hp Hc); by apply lookup_app_l_Some. }
  destruct l as [|w l].
  - exists z, []. simpl. repeat split; try done.
    + intros y Hy. apply list_elem_of_singleton in Hy as ->. by apply (lt_irrefl (P := P)).
  - cbn [length Nat.eqb]. destruct (replace_root_ok P lt (w :: l) z w) as (heap' & -> & Hp & Hh' & _); try done.
    exists w, heap'. split; [done|]. split; [|split; [done|]].
    + rewrite Hp. by rewrite Permutation_app_comm.
    + intros y Hy. apply (root_is_least P lt ((w :: l) ++ [z])); try done.
      apply Forall_app. split; [done|by constructor].
Qed.
End Properties.

Section MoreProperties.
Context {V E : Type} `{LtElem V E} (P : V -> Prop) (lt : V -> V -> bool) `{!LtLaws P lt}.
Implicit Types (heap : list V).

(** [heappushpop] and [heapreplace] on a heap. Both exchange one element for
    the item and keep the heap; [heappushpop] returns the least of the heap and
    the item, [heapreplace] the least of the heap (or the index error). *)
Theorem heap_exchange heap item e
    (HP : Forall P heap) (Hi : P item) (Hh : heap_from lt 0 heap) :
  (exists x heap', heappushpop heap item = (heap', Ok x) /\ x :: heap' ≡ₚ item :: heap /\
     heap_from lt 0 heap' /\ forall y, y ∈ item :: heap -> lt y x = false) /\
  (heap = [] -> heapreplace e heap item = (heap, Err e)) /\
  (heap <> [] -> exists x heap', heapreplace e heap item = (heap', Ok x) /\
     x :: heap' ≡ₚ item :: heap /\ heap_from lt 0 heap' /\ forall y, y ∈ heap -> lt y x = false).
Proof.
  destruct heap as [|w l].
  - repeat split; try done. exists item, []. repeat split; try done.
    intros y Hy. apply list_elem_of_singleton in Hy as ->. by apply (lt_irrefl (P := P)).
  - destruct (replace_root_ok P lt (w :: l) item w) as (heap' & Hr & Hp & Hh' & Hmin); try done.
    apply Forall_cons in HP as HP'. destruct HP' as [HPw _].
    repeat split; try done.
    + unfold heappushpop. rewrite (with_lt_ok P lt) by done. destruct (lt w item) eqn:El.
      * exists w, heap'. repeat split; try done. intros y [->|Hy]%elem_of_cons; [|by apply Hmin].
        by apply (lt_asym (P := P) (lt := lt) w item).
      * exists item, (w :: l). repeat split; try done.
        intros y [->|Hy]%elem_of_cons; [by apply (lt_irrefl (P := P))|].
        apply (le_trans P lt item w y); try done; [by eapply Forall_forall in HP|by apply Hmin].
    + intros _. by exists w, heap'.
Qed.
End MoreProperties.

(** a comparison that fails in the middle of a push loses an element. With
    elements of which only two refuse to be compared, the parent has already been
    copied down when the error leaves the loop, and the pushed item is never
    written: the list ends with a duplicate and without the item. *)
Theorem failed_push_loses_item :
  let cmp := {| compare_lt := fun x y : Z =>
                  if (x =? 0) && (y =? 1) then Err tt else Ok (x <? y) |} in
  @heappush Z () cmp [1; 2; 3; 4] 0 = ([1; 2; 3; 4; 2], Err tt).
Proof. by vm_compute. Qed.

Lemma heap_build_witness :
  exists heap', heappush (E := ()) [1; 3; 2] 0 = (heap', Ok ()) /\ heap' ≡ₚ [0; 1; 3; 2].
Proof.
  destruct (heap_build (E := ()) (fun _ => True) Z.ltb [1; 3; 2] 0) as [_ Hpush];
    [by repeat constructor|done|].
  destruct Hpush as (heap' & Hh & Hp & _); [|by exists heap'].
  intros p c _ Hc x y Hx Hy. unfold le.
  destruct p as [|[|[|p]]]; simpl in Hx; try discriminate Hx;
    destruct Hc as [-> | ->]; simpl in Hy; try discriminate Hy; by simplify_eq.
Defined.

Lemma heappop_least_witness :
  exists x heap', pop_min () [1; 3; 2] = (heap', Ok x) /\ x :: heap' ≡ₚ [1; 3; 2].
Proof.
  destruct (heappop_least (E := ()) (fun _ => True) Z.ltb [1; 3; 2] ()) as [_ Hpop].
  - by repeat constructor.
  - intros p c _ Hc x y Hx Hy. unfold le.
    destruct p as [|[|[|p]]]; simpl in Hx; try discriminate Hx;
      destruct Hc as [-> | ->]; simpl in Hy; try discriminate Hy; by simplify_eq.
  - destruct Hpop as (x & heap' & Hx & Hp & _); [done|]. by exists x, heap'.
Defined.

Lemma heap_exchange_witness :
  exists x heap', heapreplace () [1; 3; 2] 7 = (heap', Ok x) /\ x :: heap' ≡ₚ [7; 1; 3; 2].
Proof.
  destruct (heap_exchange (E := ()) (fun _ => True) Z.ltb [1; 3; 2] 7 ()) as (_ & _ & Hrep).
  - by repeat constructor.
  - done.
  - intros p c _ Hc x y Hx Hy. unfold le.
    destruct p as [|[|[|p]]]; simpl in Hx; try discriminate Hx;
      destruct Hc as [-> | ->]; simpl in Hy; try discriminate Hy; by simplify_eq.
  - destruct Hrep as (x & heap' & Hx & Hp & _); [done|]. by exists x, heap'.
Defined.

Example heap_order :
  (heapify (E := ()) [5; 3; 8; 1; 9; 2]).1 = [1; 3; 2; 5; 9; 8] /\
  pop_min () [1; 3; 2; 5; 9; 8] = ([2; 3; 8; 5; 9], Ok 1).
Proof. by vm_compute. Qed.
