(* ===== verification/Slices.v ===== *)
(** Subscripts: index normalization and item access, [range] objects
    ([types.rs]), slice reading ([eval/names.rs]), slice assignment
    ([eval/place.rs]) and slice deletion ([eval/delete.rs]).

    Machine arithmetic wraps, as in a release build; [walk] is the source's
    [while] loops over an index that advances by a stride. *)
From Stdlib Require Import ZArith Lia Ascii String SpecFloat.
From stdpp Require Import base tactics list numbers option strings pretty gmap.
From S2P Require Import Prelude PySet Values Errors F64 Keys Arith.

(** [while test(i) { out.push(i); i += stride; }]; [None] when the fuel is out. *)
Fixpoint walk (fuel : nat) (test : Z -> bool) (stride i : Z) : option (list Z) :=
  match fuel with
  | O => None
  | S fuel => if test i then cons i <$> walk fuel test stride (swrap64 (i + stride)) else Some []
  end.

Definition walk_to (fuel : nat) (stop stride i : Z) : option (list Z) :=
  walk fuel (fun i => if stride >? 0 then i <? stop else i >? stop) stride i.

Section Access.
Context `{External}.

Fixpoint int_index (index : Value) (container_name : string) : EvalResult Z :=
  match index with
  | VInt i => Ok i
  | VBool b => Ok (Z.b2z b)
  | VEnumMember _ _ value (EInt | EIntFlag) => int_index value container_name
  | other =>
      let ty := type_name other in
      fail (TypeError
        (if String.eqb container_name "string" then "string indices must be integers, not '" ++ ty ++ "'"
         else if String.eqb container_name "bytes"
         then "byte indices must be integers or slices, not " ++ ty
         else container_name ++ " indices must be integers or slices, not " ++ ty))
  end.

Definition normalize_seq_index (raw : Z) (len : nat) (kind : string) : EvalResult nat :=
  let len_i := Z.of_nat len in
  if len_i >? i64_max then fail (Runtime "sequence length overflows i64 for indexing")
  else
    let adjusted := if raw <? 0 then len_i + raw else raw in
    if (adjusted <? 0) || (adjusted >=? len_i) then Err (Exception (index_error kind))
    else Ok (Z.to_nat adjusted).

Definition sequence_get_item (h : Heap) (container index : Value) : EvalResult Value :=
  match container with
  | VList l =>
      raw ← int_index index "list";
      idx ← normalize_seq_index raw (length (list_at h l)) "list";
      or_panic (list_at h l !! idx)
  | VTuple items =>
      raw ← int_index index "tuple";
      idx ← normalize_seq_index raw (length items) "tuple";
      or_panic (items !! idx)
  | _ => Panic
  end.

Definition str_get_item (container index : Value) : EvalResult Value :=
  match container with
  | VString s =>
      raw ← int_index index "string";
      idx ← normalize_seq_index raw (length s) "string";
      c ← or_panic (s !! idx);
      Ok (VString [c])
  | _ => Panic
  end.

(** ** Ranges *)

Definition range_length (start stop step : Z) : Z :=
  let raw :=
    if step >? 0 then
      Z.max (Z.quot (swrap64 (swrap64 (swrap64 (stop - start) + step) - 1)) step) 0
    else if step <? 0 then
      Z.max (Z.quot (swrap64 (swrap64 (swrap64 (start - stop) - step) - 1)) (swrap64 (- step))) 0
    else 0 in
  raw.

Definition range_count (start stop step : Z) : Z :=
  let span := stop - start in
  if ((step >? 0) && (span >? 0)) || ((step <? 0) && (span <? 0))
  then Z.quot span step + (if Z.rem span step =? 0 then 0 else 1)
  else 0.

(** [range_iter]; the fuel is the number of elements the length check computed
    (in [i128], so exactly). *)
Definition range_iter (value : Value) : EvalResult (list Value) :=
  match value with
  | VRange start stop step =>
      let count := range_count start stop step in
      if count >? MAX_COLLECTION_SIZE then
        fail (LimitExceeded ("range with " ++ pretty count ++
          " elements is too large to materialise (limit: " ++ pretty MAX_COLLECTION_SIZE ++ ")"))
      else if step =? 0 then Ok []
      else xs ← or_panic (walk_to (S (Z.to_nat count)) stop step start); Ok (map VInt xs)
  | _ => Panic
  end.

Definition range_contains (container item : Value) : EvalResult bool :=
  match container with
  | VRange start stop step =>
      let val :=
        match item with
        | VInt n => Some n
        | VBool b => Some (Z.b2z b)
        | VFloat f =>
            if negb (f64_is_finite f) || negb (f64_integral f) then None
            else let as_int := f64_as_i64 f in
                 if f64_eqb (f64_of_Z as_int) f then Some as_int else None
        | _ => None
        end in
      match val with
      | None => Ok false
      | Some val =>
          if step =? 0 then Ok false
          else
            let in_bounds :=
              if step >? 0 then (start <=? val) && (val <? stop) else (val <=? start) && (val >? stop) in
            Ok (in_bounds && (Z.rem (swrap64 (val - start)) step =? 0))
      end
  | _ => Panic
  end.

Definition range_get_item (container index : Value) : EvalResult Value :=
  match container with
  | VRange start stop step =>
      raw ← int_index index "range";
      idx ← normalize_seq_index raw (Z.to_nat (range_length start stop step)) "range object";
      Ok (VInt (swrap64 (start + swrap64 (Z.of_nat idx * step))))
  | _ => Panic
  end.

(** ** Slices *)

Definition clamp_slice_index (idx len : Z) : Z :=
  let adjusted := if idx <? 0 then idx + len else idx in Z.min (Z.max adjusted 0) len.

Definition clamp_slice_index_neg (idx len : Z) : Z :=
  let adjusted := if idx <? 0 then idx + len else idx in Z.min (Z.max adjusted (-1)) (len - 1).

Definition bad_bound {A} : EvalResult A :=
  fail (TypeError "slice indices must be integers or None or have an __index__ method").

Definition resolve_bound (val : option Value) (default : Z) : EvalResult Z :=
  match val with
  | None | Some VNone => Ok default
  | Some (VInt i) => Ok i
  | Some (VBool b) => Ok (Z.b2z b)
  | Some _ => bad_bound
  end.

Definition resolve_step (step : option Value) : EvalResult Z :=
  match step with
  | None | Some VNone => Ok 1
  | Some (VInt s) => if s =? 0 then fail (ValueError "slice step cannot be zero") else Ok s
  | Some (VBool b) => if b then Ok 1 else fail (ValueError "slice step cannot be zero")
  | Some _ => bad_bound
  end.

(** The bounds both directions clamp to. *)
Definition slice_bounds (lower upper : option Value) (stride len : Z) : EvalResult (Z * Z) :=
  if stride >? 0 then
    raw_start ← resolve_bound lower 0;
    raw_stop ← resolve_bound upper len;
    Ok (clamp_slice_index raw_start len, clamp_slice_index raw_stop len)
  else
    raw_start ← resolve_bound lower (len - 1);
    raw_stop ← resolve_bound upper (- (len + 1));
    Ok (clamp_slice_index_neg raw_start len, clamp_slice_index_neg raw_stop len).

(** The reading loop: [items[to_index(i)?]] as the index walks. An index that
    wrapped below zero is the internal error, one beyond the end a panic. *)
Fixpoint read_loop {A} (fuel : nat) (items : list A) (stop stride i : Z) : EvalResult (list A) :=
  match fuel with
  | O => Panic
  | S fuel =>
      if (if stride >? 0 then i <? stop else i >? stop) then
        if i <? 0 then fail (Runtime "slice index overflow (internal invariant)")
        else
          x ← or_panic (items !! Z.to_nat i);
          xs ← read_loop fuel items stop stride (swrap64 (i + stride));
          Ok (x :: xs)
      else Ok []
  end.

Definition slice_sequence {A} (items : list A) (lower upper : option Value) (stride : Z) :
    EvalResult (list A) :=
  let len := Z.of_nat (length items) in
  '(begin, end_) ← slice_bounds lower upper stride len;
  read_loop (S (length items)) items end_ stride begin.

Definition stride_of (step_expr : option Value) : EvalResult Z :=
  match step_expr with
  | Some (VInt s) => Ok s
  | Some (VBool b) => Ok (Z.b2z b)
  | None | Some VNone => Ok 1
  | Some _ => bad_bound
  end.

(** The list, array, tuple, text, bytes and range arms of [apply_value_slice]. *)
Definition apply_value_slice (h : Heap) (obj : Value) (lower upper step_expr : option Value) :
    EvalResult (Value * Heap) :=
  stride ← stride_of step_expr;
  if stride =? 0 then fail (ValueError "slice step cannot be zero")
  else
    match obj with
    | VList l =>
        sliced ← slice_sequence (list_at h l) lower upper stride; new_list h sliced
    | VArray typecode l =>
        sliced ← slice_sequence (list_at h l) lower upper stride;
        let (l', h') := shared_list h sliced in Ok (VArray typecode l', h')
    | VTuple items => sliced ← slice_sequence items lower upper stride; Ok (VTuple sliced, h)
    | VString s => sliced ← slice_sequence s lower upper stride; Ok (VString sliced, h)
    | VBytes b => sliced ← slice_sequence b lower upper stride; Ok (VBytes sliced, h)
    | VByteArray l => sliced ← slice_sequence (bytes_at h l) lower upper stride; new_bytearray h sliced
    | VRange start stop step =>
        let len := range_length start stop step in
        '(begin, end_) ← slice_bounds lower upper stride len;
        Ok (VRange (swrap64 (start + swrap64 (begin * step)))
                   (swrap64 (start + swrap64 (end_ * step))) (swrap64 (step * stride)), h)
    | _ => fail (TypeError ("'" ++ type_name obj ++ "' object is not subscriptable"))
    end.

(** [extended_indices]: the positions an assignment through a slice writes. *)
Definition extended_indices (len : nat) (lower upper : option Value) (stride : Z) :
    EvalResult (list nat) :=
  '(begin, end_) ← slice_bounds lower upper stride (Z.of_nat len);
  idx ← or_panic (walk_to (S len) end_ stride begin);
  if forallb (fun i => 0 <=? i) idx then Ok (map Z.to_nat idx)
  else fail (Runtime "slice index overflow (internal invariant)").

(** List slice assignment: a splice for stride one, else one write per index,
    with the length check. *)
Definition assign_slice {A} (items new_items : list A) (lower upper step : option Value) :
    EvalResult (list A) :=
  stride ← resolve_step step;
  let len := Z.of_nat (length items) in
  if stride =? 1 then
    raw_start ← resolve_bound lower 0;
    raw_stop ← resolve_bound upper len;
    let start := clamp_slice_index raw_start len in
    let stop := Z.max (clamp_slice_index raw_stop len) start in
    Ok (take (Z.to_nat start) items ++ new_items ++ drop (Z.to_nat stop) items)
  else
    indices ← extended_indices (length items) lower upper stride;
    if negb (length indices =? length new_items)%nat then
      fail (ValueError ("attempt to assign sequence of size " ++ pretty (length new_items) ++
                        " to extended slice of size " ++ pretty (length indices)))
    else Ok (fold_left (fun items e => <[e.1 := e.2]> items) (zip indices new_items) items).

(** A bound that is not an int or bool falls back to the default on deletion. *)
Definition delete_bound (val : option Value) (default : Z) : Z :=
  match val with
  | Some (VInt i) => i
  | Some (VBool b) => Z.b2z b
  | _ => default
  end.

(** [sort_unstable_by] descending of distinct positions, then [dedup]. *)
Fixpoint insert_desc (x : nat) (l : list nat) : list nat :=
  match l with
  | [] => [x]
  | y :: l' => if (y <? x)%nat then x :: l else if (x =? y)%nat then l else y :: insert_desc x l'
  end.

Definition sort_desc (l : list nat) : list nat := foldr insert_desc [] l.

Definition strided_indices (lower upper : option Value) (step len : Z) : option (list nat) :=
  let begin_end :=
    if step >? 0 then
      (clamp_slice_index (delete_bound lower 0) len, clamp_slice_index (delete_bound upper len) len)
    else
      (clamp_slice_index_neg (delete_bound lower (len - 1)) len,
       clamp_slice_index_neg (delete_bound upper (- (len + 1))) len) in
  idx ← walk_to (S (Z.to_nat len)) begin_end.2 step begin_end.1;
  Some (sort_desc (Z.to_nat <$> List.filter (fun i => 0 <=? i) idx)).

(** [guard.remove(i)] for each position, in order. *)
Definition remove_indices {A} (items : list A) (indices : list nat) : list A :=
  fold_left (fun items i => if (i <? length items)%nat then delete i items else items) indices items.

(** The bound of a contiguous deletion: only a machine integer counts. *)
Definition contiguous_bound (val : option Value) (len default : Z) : Z :=
  match val with
  | Some (VInt i) => Z.min (if i <? 0 then Z.max (len + i) 0 else i) len
  | _ => default
  end.

(** [del a[start:stop:step]] on the elements, with the step already resolved. *)
Definition delete_slice {A} (items : list A) (start stop : option Value) (step : Z) : option (list A) :=
  let len := Z.of_nat (length items) in
  if step =? 1 then
    let s := contiguous_bound start len 0 in
    let e := contiguous_bound stop len len in
    Some (if (s <? e) && (s <? len)
          then take (Z.to_nat s) items ++ drop (Z.to_nat (Z.min e len)) items else items)
  else
    indices ← strided_indices start stop step len;
    Some (remove_indices items indices).

(** [list[i] = v] and [del list[i]] on the shared list. *)
Definition list_set_item (h : Heap) (l : loc) (index value : Value) : EvalResult Heap :=
  raw ← int_index index "list";
  idx ← normalize_seq_index raw (length (list_at h l)) "list";
  Ok (mkHeap (<[l := <[idx := value]> (list_at h l)]> (lists h)) (dicts h) (sets h) (bytearrays h)
        (stringios h) (instance_fields h)).

Definition list_del_index (h : Heap) (l : loc) (index : Value) : EvalResult Heap :=
  raw ← int_index index "list";
  idx ← normalize_seq_index raw (length (list_at h l)) "list";
  Ok (mkHeap (<[l := delete idx (list_at h l)]> (lists h)) (dicts h) (sets h) (bytearrays h)
        (stringios h) (instance_fields h)).
End Access.
