(* ===== verification/SlicesThms.v ===== *)
(** Slices read, write and delete the same arithmetic progression of positions,
    and the closed forms on [range] objects agree with their iteration. *)
From Stdlib Require Import ZArith Lia Ascii String SpecFloat Sorting.Sorted.
From stdpp Require Import base tactics list numbers option strings pretty gmap.
From S2P Require Import Prelude PySet Values Errors F64 Keys Arith Slices.

(** * Progressions *)

Definition progression (b s : Z) (n : nat) : list Z :=
  map (fun k => b + Z.of_nat k * s) (seq 0 n).

(** The number of steps from [b] before reaching or passing [e]. *)
Definition steps (b e s : Z) : nat :=
  Z.to_nat (if s >? 0 then (if b <? e then (e - b - 1) / s + 1 else 0)
            else (if e <? b then (b - e - 1) / (- s) + 1 else 0)).

(** A position lies between the bounds, at a multiple of the stride. *)
Definition on_slice (b e s i : Z) : Prop :=
  (if s >? 0 then b <= i < e else e < i <= b) /\ (s | i - b).

Lemma progression_S b s n : progression b s (S n) = b :: progression (b + s) s n.
Proof.
  unfold progression. simpl. f_equal; [lia|]. rewrite <- seq_shift, map_map.
  apply map_ext. intros k. lia.
Qed.

Lemma progression_lookup b s n k i :
  progression b s n !! k = Some i <-> (k < n)%nat /\ i = b + Z.of_nat k * s.
Proof.
  unfold progression. rewrite list_lookup_fmap_Some. setoid_rewrite lookup_seq. split.
  - intros (j & -> & -> & Hk). by rewrite Nat.add_0_l.
  - intros [Hk ->]. exists k. by rewrite Nat.add_0_l.
Qed.

Lemma progression_length b s n : length (progression b s n) = n.
Proof. unfold progression. by rewrite length_map, length_seq. Qed.

Lemma steps_spec b e s k : s <> 0 ->
  (k < steps b e s)%nat <-> (if s >? 0 then b + Z.of_nat k * s < e else e < b + Z.of_nat k * s).
Proof.
  intros Hs. unfold steps. destruct (Z.gtb_spec s 0).
  - destruct (Z.ltb_spec b e); [|nia].
    pose proof (Z.div_mod (e - b - 1) s Hs). pose proof (Z.mod_pos_bound (e - b - 1) s ltac:(lia)).
    assert (0 <= (e - b - 1) / s) by (apply Z.div_pos; lia). nia.
  - destruct (Z.ltb_spec e b); [|nia].
    pose proof (Z.div_mod (b - e - 1) (- s) ltac:(lia)).
    pose proof (Z.mod_pos_bound (b - e - 1) (- s) ltac:(lia)).
    assert (0 <= (b - e - 1) / (- s)) by (apply Z.div_pos; lia). nia.
Qed.

Lemma elem_of_progression b e s i : s <> 0 -> i ∈ progression b s (steps b e s) <-> on_slice b e s i.
Proof.
  intros Hs. unfold on_slice. rewrite list_elem_of_lookup. setoid_rewrite progression_lookup. split.
  - intros (k & Hk & ->). apply steps_spec in Hk; [|done]. split; [destruct (Z.gtb_spec s 0); nia|].
    exists (Z.of_nat k). lia.
  - intros [Hb [q Hq]].
    assert (0 <= q) by (destruct (Z.gtb_spec s 0); nia).
    exists (Z.to_nat q). rewrite steps_spec, Z2Nat.id by done. split; [|lia].
    destruct (Z.gtb_spec s 0); lia.
Qed.

Lemma progression_NoDup b s n : s <> 0 -> NoDup (progression b s n).
Proof.
  intros Hs. apply NoDup_alt. intros i j x Hi Hj.
  apply progression_lookup in Hi as [_ ->], Hj as [_ Hj]. nia.
Qed.

(** * The loops *)

Lemma walk_progression n fuel test s b :
  (n < fuel)%nat -> (forall k, (k < n)%nat -> test (b + Z.of_nat k * s) = true) ->
  (forall k, (k < n)%nat -> i64_min <= b + Z.of_nat (S k) * s <= i64_max) ->
  test (b + Z.of_nat n * s) = false -> walk fuel test s b = Some (progression b s n).
Proof.
  revert fuel b. induction n as [|n IH]; intros fuel b Hf Ht Hr Hend; (destruct fuel; [lia|]); simpl.
  - rewrite Z.add_0_r in Hend. by rewrite Hend.
  - assert (test b = true) as -> by (rewrite <- (Ht 0%nat); [f_equal; lia|lia]).
    rewrite swrap64_id by (specialize (Hr 0%nat ltac:(lia)); lia).
    rewrite progression_S, (IH fuel (b + s)); [done|lia|..].
    + intros k Hk. rewrite <- (Ht (S k)) by lia. f_equal. lia.
    + intros k Hk. specialize (Hr (S k) ltac:(lia)). lia.
    + rewrite <- Hend. f_equal. lia.
Qed.

(** No index of the loop overflows. *)
Definition no_overflow (b e s : Z) : Prop :=
  i64_min <= b <= i64_max /\ (if s >? 0 then e - 1 + s <= i64_max else i64_min <= e + 1 + s).

Lemma walk_to_ok fuel b e s :
  s <> 0 -> no_overflow b e s -> (steps b e s < fuel)%nat ->
  walk_to fuel e s b = Some (progression b s (steps b e s)).
Proof.
  intros Hs [Hb Hno] Hf. apply walk_progression; [done|..].
  - intros k Hk. apply steps_spec in Hk; [|done]. destruct (Z.gtb_spec s 0); lia.
  - intros k Hk. apply steps_spec in Hk; [|done]. destruct (Z.gtb_spec s 0); nia.
  - assert (~ (steps b e s < steps b e s)%nat) as Hn by lia. rewrite steps_spec in Hn by done.
    destruct (Z.gtb_spec s 0); lia.
Qed.

Section Slicing.
Context `{External}.

Definition at_positions {A} (items : list A) (idx : list Z) : list A :=
  omap (fun i => items !! Z.to_nat i) idx.

Lemma read_walk {A} fuel (items : list A) stop stride i idx :
  walk_to fuel stop stride i = Some idx ->
  Forall (fun i => 0 <= i < Z.of_nat (length items)) idx ->
  read_loop fuel items stop stride i = Ok (at_positions items idx).
Proof.
  unfold walk_to. revert i idx. induction fuel as [|fuel IH]; intros i idx; [done|]. simpl.
  destruct (if stride >? 0 then i <? stop else i >? stop); [|by intros [= <-]].
  destruct (walk fuel _ stride (swrap64 (i + stride))) as [idx'|] eqn:E; [|done].
  simpl. intros [= <-] Hidx. apply Forall_cons in Hidx as [Hi Hidx].
  destruct (Z.ltb_spec i 0); [lia|].
  destruct (lookup_lt_is_Some_2 items (Z.to_nat i)) as [x Hx]; [lia|]. rewrite Hx. simpl.
  rewrite (IH _ _ E Hidx). unfold at_positions. simpl. by rewrite Hx.
Qed.

(** Bounds that are a machine integer, a bool or absent. *)
Definition bound_ok (v : option Value) : bool :=
  match v with None | Some VNone | Some (VBool _) => true | Some (VInt i) => in_i64 i | _ => false end.

Lemma resolve_bound_ok v d : bound_ok v = true -> exists z, resolve_bound v d = Ok z.
Proof. destruct v as [[]|]; try done; by eexists. Qed.

Lemma slice_bounds_ok lower upper s len :
  0 <= len -> bound_ok lower = true -> bound_ok upper = true ->
  exists b e, slice_bounds lower upper s len = Ok (b, e) /\
    (if s >? 0 then 0 <= b <= len /\ 0 <= e <= len else -1 <= b <= len - 1 /\ -1 <= e <= len - 1).
Proof.
  intros Hlen Hl Hu. unfold slice_bounds. destruct (s >? 0).
  - destruct (resolve_bound_ok lower 0 Hl) as [x ->], (resolve_bound_ok upper len Hu) as [y ->].
    cbn [mbind Outcome_bind]. eexists _, _. split; [done|]. unfold clamp_slice_index. lia.
  - destruct (resolve_bound_ok lower (len - 1) Hl) as [x ->],
      (resolve_bound_ok upper (- (len + 1)) Hu) as [y ->].
    cbn [mbind Outcome_bind]. eexists _, _. split; [done|]. unfold clamp_slice_index_neg. lia.
Qed.

(** The positions of a slice, when the stride cannot overflow. *)
Lemma slice_positions b e s len fuel :
  s <> 0 -> 0 <= len -> len + Z.abs s <= i64_max -> (Z.to_nat len < fuel)%nat ->
  (if s >? 0 then 0 <= b <= len /\ 0 <= e <= len else -1 <= b <= len - 1 /\ -1 <= e <= len - 1) ->
  walk_to fuel e s b = Some (progression b s (steps b e s)) /\
  Forall (fun i => 0 <= i < len) (progression b s (steps b e s)).
Proof.
  intros Hs Hlen Hno Hf Hbe. split.
  - apply walk_to_ok; [done|..].
    + unfold no_overflow. unfold i64_min, i64_max in *. destruct (Z.gtb_spec s 0); lia.
    + assert (~ (Z.to_nat len < steps b e s)%nat); [|lia]. rewrite steps_spec by done.
      rewrite Z2Nat.id by lia. destruct (Z.gtb_spec s 0); nia.
  - apply Forall_forall. intros i Hi. apply elem_of_progression in Hi as [Hi _]; [|done].
    destruct (Z.gtb_spec s 0); lia.
Qed.

Lemma slice_sequence_ok {A} (items : list A) lower upper s :
  s <> 0 -> bound_ok lower = true -> bound_ok upper = true ->
  Z.of_nat (length items) + Z.abs s <= i64_max ->
  exists b e, slice_bounds lower upper s (Z.of_nat (length items)) = Ok (b, e) /\
    slice_sequence items lower upper s = Ok (at_positions items (progression b s (steps b e s))) /\
    Forall (fun i => 0 <= i < Z.of_nat (length items)) (progression b s (steps b e s)).
Proof.
  intros Hs Hl Hu Hno.
  destruct (slice_bounds_ok lower upper s (Z.of_nat (length items))) as (b & e & Hbe & Hr); [lia|done..|].
  exists b, e. split; [done|]. unfold slice_sequence. rewrite Hbe. cbn [mbind Outcome_bind].
  destruct (slice_positions b e s (Z.of_nat (length items)) (S (length items))) as [Hw Hf]; try done; try lia.
  split; [|done]. by apply read_walk.
Qed.

Lemma at_positions_length {A} (items : list A) idx :
  Forall (fun i => 0 <= i < Z.of_nat (length items)) idx -> length (at_positions items idx) = length idx.
Proof.
  induction 1 as [|i idx Hi _ IH]; [done|].
  destruct (lookup_lt_is_Some_2 items (Z.to_nat i)) as [x Hx]; [lia|].
  assert (at_positions items (i :: idx) = x :: at_positions items idx) as ->
    by (unfold at_positions; simpl; by rewrite Hx).
  simpl. by rewrite IH.
Qed.

Lemma extended_indices_ok len lower upper s b e :
  s <> 0 -> Z.of_nat len + Z.abs s <= i64_max -> bound_ok lower = true -> bound_ok upper = true ->
  slice_bounds lower upper s (Z.of_nat len) = Ok (b, e) ->
  extended_indices len lower upper s = Ok (map Z.to_nat (progression b s (steps b e s))).
Proof.
  intros Hs Hno Hl Hu Hbe. unfold extended_indices. rewrite Hbe. cbn [mbind Outcome_bind].
  destruct (slice_bounds_ok lower upper s (Z.of_nat len)) as (b' & e' & Hbe' & Hr); [lia|done..|].
  rewrite Hbe in Hbe'. injection Hbe' as <- <-.
  destruct (slice_positions b e s (Z.of_nat len) (S len)) as [-> Hf]; try done; try lia.
  cbn [or_panic mbind Outcome_bind].
  assert (forallb (fun i => 0 <=? i) (progression b s (steps b e s)) = true) as ->; [|done].
  apply forallb_forall. intros i Hi. rewrite List.Forall_forall in Hf. specialize (Hf i Hi). simpl in Hf. lia.
Qed.

(** Writes at distinct positions. *)
Lemma writes_lookup {A} (ps : list (nat * A)) (items : list A) :
  NoDup (map fst ps) -> Forall (fun p => (p.1 < length items)%nat) ps ->
  (forall i x, In (i, x) ps -> fold_left (fun l p => <[p.1 := p.2]> l) ps items !! i = Some x) /\
  (forall i, i ∉ map fst ps -> fold_left (fun l p => <[p.1 := p.2]> l) ps items !! i = items !! i) /\
  length (fold_left (fun l p => <[p.1 := p.2]> l) ps items) = length items.
Proof.
  revert items. induction ps as [|[j y] ps IH]; intros items Hnd Hlen; [done|]. simpl in *.
  apply NoDup_cons in Hnd as [Hj Hnd]. apply Forall_cons in Hlen as [Hjl Hlen].
  destruct (IH (<[j := y]> items)) as (H1 & H2 & H3); [done| |].
  { by rewrite length_insert. }
  rewrite length_insert in H3. split; [|split; [|done]].
  - intros i x [[= -> ->]|Hin]; [|by apply H1].
    rewrite H2 by done. by apply list_lookup_insert_eq.
  - intros i Hi. apply not_elem_of_cons in Hi as [Hne Hi]. rewrite H2 by done.
    by rewrite list_lookup_insert_ne.
Qed.
End Slicing.

(** * Deletion *)

Section Deletion.
Context {A : Type}.
Implicit Types (items a b : list A) (l : list nat).

(** The elements of [items], numbered from [k], whose position is not in [l]. *)
Fixpoint keep_from (k : nat) l items : list A :=
  match items with
  | [] => []
  | x :: items => if bool_decide (k ∈ l) then keep_from (S k) l items else x :: keep_from (S k) l items
  end.

Lemma keep_from_app k l a b :
  keep_from k l (a ++ b) = keep_from k l a ++ keep_from (k + length a) l b.
Proof.
  revert k. induction a as [|x a IH]; intros k; simpl; [by rewrite Nat.add_0_r|].
  rewrite IH, <- plus_n_Sm. by case_bool_decide.
Qed.

Lemma keep_from_above k l b : Forall (fun x => (x < k)%nat) l -> keep_from k l b = b.
Proof.
  revert k. induction b as [|y b IH]; intros k Hl; [done|]. simpl. rewrite bool_decide_eq_false_2.
  - f_equal. apply IH. rewrite Forall_forall in *. intros x Hx. specialize (Hl x Hx). simpl in *. lia.
  - intros Hk. rewrite Forall_forall in Hl. specialize (Hl k Hk). simpl in Hl. lia.
Qed.

Lemma keep_from_skip k x l a : (k + length a <= x)%nat -> keep_from k (x :: l) a = keep_from k l a.
Proof.
  revert k. induction a as [|y a IH]; intros k Hx; [done|]. simpl in *. rewrite IH by lia.
  rewrite (bool_decide_ext (k ∈ x :: l) (k ∈ l)); [done|]. rewrite elem_of_cons.
  split; [intros [|]; [lia|done]|auto].
Qed.

Lemma keep_from_ext k l l' a : (forall i, i ∈ l <-> i ∈ l') -> keep_from k l a = keep_from k l' a.
Proof.
  intros Hl. revert k. induction a as [|x a IH]; intros k; [done|]. simpl.
  rewrite IH. by rewrite (bool_decide_ext _ _ (Hl k)).
Qed.

(** Strictly descending positions. *)
Definition descending l : Prop := Sorted gt l.

Lemma remove_descending l items :
  StronglySorted gt l -> Forall (fun x => (x < length items)%nat) l ->
  remove_indices items l = keep_from 0 l items.
Proof.
  intros Hs. revert items. induction Hs as [|x l Hs IH Hx]; intros items Hl.
  { symmetry. apply keep_from_above. constructor. }
  apply Forall_cons in Hl as [Hxl Hl]. unfold remove_indices in *. simpl.
  destruct (Nat.ltb_spec x (length items)); [|lia].
  assert (Forall (fun y => (y < x)%nat) l) as Hlx.
  { rewrite List.Forall_forall in Hx. apply Forall_forall. intros y Hy. apply Hx. by apply list_elem_of_In. }
  rewrite IH.
  2:{ rewrite length_delete by by apply lookup_lt_is_Some_2. rewrite Forall_forall in *.
      intros y Hy. specialize (Hlx y Hy). simpl in *. lia. }
  destruct (lookup_lt_is_Some_2 items x Hxl) as [v Hv].
  rewrite delete_take_drop. rewrite <- (take_drop_middle items x v Hv) at 3.
  assert (length (take x items) = x) as Htx by (rewrite length_take; lia).
  rewrite !keep_from_app, Htx. simpl. rewrite bool_decide_eq_true_2 by by left.
  f_equal; [symmetry; apply keep_from_skip; lia|].
  rewrite keep_from_above by done. symmetry. apply keep_from_above. constructor; [lia|].
  rewrite Forall_forall in *. intros y Hy. specialize (Hlx y Hy). simpl in *. lia.
Qed.
End Deletion.

Lemma insert_desc_elem x l i : i ∈ insert_desc x l <-> i = x \/ i ∈ l.
Proof.
  induction l as [|y l IH]; simpl; [by rewrite list_elem_of_singleton, elem_of_nil; tauto|].
  destruct (Nat.ltb_spec y x); [by rewrite !elem_of_cons|].
  destruct (Nat.eqb_spec x y) as [->|]; rewrite !elem_of_cons; [tauto|]. rewrite IH. tauto.
Qed.

Lemma insert_desc_sorted x l : StronglySorted gt l -> StronglySorted gt (insert_desc x l).
Proof.
  induction 1 as [|y l Hs IH Hy]; simpl; [by repeat constructor|].
  destruct (Nat.ltb_spec y x).
  - constructor; [by constructor|]. constructor; [lia|].
    rewrite List.Forall_forall in *. intros z Hz. specialize (Hy z Hz). lia.
  - destruct (Nat.eqb_spec x y) as [->|]; [by constructor|]. constructor; [done|].
    apply List.Forall_forall. intros z Hz. apply list_elem_of_In, insert_desc_elem in Hz as [->|Hz]; [lia|].
    rewrite List.Forall_forall in Hy. by apply Hy, list_elem_of_In.
Qed.

Lemma sort_desc_spec l : StronglySorted gt (sort_desc l) /\ forall i, i ∈ sort_desc l <-> i ∈ l.
Proof.
  induction l as [|x l [IHs IH]]; simpl; [split; [constructor|done]|].
  split; [by apply insert_desc_sorted|]. intros i. by rewrite insert_desc_elem, IH, elem_of_cons.
Qed.

Section Positions.
Context `{External} {A : Type}.
Implicit Types (items : list A).

Lemma at_positions_lookup items idx k :
  Forall (fun i => 0 <= i < Z.of_nat (length items)) idx ->
  at_positions items idx !! k = i ← idx !! k; items !! Z.to_nat i.
Proof.
  intros Hi. revert k. induction Hi as [|i idx Hi _ IH]; intros k; [by rewrite !lookup_nil|].
  destruct (lookup_lt_is_Some_2 items (Z.to_nat i)) as [x Hx]; [lia|].
  assert (at_positions items (i :: idx) = x :: at_positions items idx) as ->
    by (unfold at_positions; simpl; by rewrite Hx).
  destruct k as [|k]; simpl; [by rewrite Hx|apply IH].
Qed.

Lemma delete_bound_resolve v d z : bound_ok v = true -> resolve_bound v d = Ok z -> delete_bound v d = z.
Proof. destruct v as [[]|]; try done; simpl; congruence. Qed.

Lemma strided_indices_ok items lower upper s b e :
  s <> 0 -> Z.of_nat (length items) + Z.abs s <= i64_max -> bound_ok lower = true -> bound_ok upper = true ->
  slice_bounds lower upper s (Z.of_nat (length items)) = Ok (b, e) ->
  strided_indices lower upper s (Z.of_nat (length items)) =
    Some (sort_desc (map Z.to_nat (progression b s (steps b e s)))).
Proof.
  intros Hs Hno Hl Hu Hbe. unfold strided_indices.
  destruct (slice_bounds_ok lower upper s (Z.of_nat (length items))) as (b' & e' & Hbe' & Hr); [lia|done..|].
  rewrite Hbe in Hbe'. injection Hbe' as <- <-.
  assert ((if s >? 0
    then (clamp_slice_index (delete_bound lower 0) (Z.of_nat (length items)),
          clamp_slice_index (delete_bound upper (Z.of_nat (length items))) (Z.of_nat (length items)))
    else (clamp_slice_index_neg (delete_bound lower (Z.of_nat (length items) - 1)) (Z.of_nat (length items)),
          clamp_slice_index_neg (delete_bound upper (- (Z.of_nat (length items) + 1)))
            (Z.of_nat (length items)))) = (b, e)) as ->.
  { unfold slice_bounds in Hbe. destruct (s >? 0).
    - destruct (resolve_bound_ok lower 0 Hl) as [x Ex],
        (resolve_bound_ok upper (Z.of_nat (length items)) Hu) as [y Ey].
      rewrite (delete_bound_resolve _ _ _ Hl Ex), (delete_bound_resolve _ _ _ Hu Ey).
      rewrite Ex, Ey in Hbe. by injection Hbe as <- <-.
    - destruct (resolve_bound_ok lower (Z.of_nat (length items) - 1) Hl) as [x Ex],
        (resolve_bound_ok upper (- (Z.of_nat (length items) + 1)) Hu) as [y Ey].
      rewrite (delete_bound_resolve _ _ _ Hl Ex), (delete_bound_resolve _ _ _ Hu Ey).
      rewrite Ex, Ey in Hbe. by injection Hbe as <- <-. }
  cbn [fst snd]. rewrite Nat2Z.id.
  destruct (slice_positions b e s (Z.of_nat (length items)) (S (length items))) as [-> Hf]; try done; try lia.
  cbn [mbind option_bind]. do 3 f_equal.
  clear - Hf. induction Hf as [|i idx Hi _ IH]; [done|]. simpl.
  destruct (Z.leb_spec 0 i); [by rewrite IH|lia].
Qed.
End Positions.

Lemma full_slice_bounds `{External} len : 0 <= len ->
  slice_bounds None None 1 len = Ok (0, len) /\ slice_bounds None None (-1) len = Ok (len - 1, -1).
Proof.
  intros Hlen. unfold slice_bounds. cbn [Z.gtb Z.compare resolve_bound mbind Outcome_bind].
  unfold clamp_slice_index, clamp_slice_index_neg.
  destruct (Z.ltb_spec 0 0); [lia|]. destruct (Z.ltb_spec len 0); [lia|].
  destruct (Z.ltb_spec (- (len + 1)) 0); [|lia].
  split; [do 2 f_equal; lia|]. destruct (Z.ltb_spec (len - 1) 0); do 2 f_equal; lia.
Qed.

(** * Properties *)

Section Properties.
Context `{External} {A : Type}.
Implicit Types (items new : list A) (lower upper : option Value) (s : Z).

(** C38: reading a slice. With int, bool or absent bounds and a stride that cannot
    overflow, [items[lower:upper:s]] succeeds and returns the elements at exactly
    the positions between the clamped bounds that lie a multiple of the stride
    from the first, in the order of the walk. *)
Theorem slice_reads_positions items lower upper s
    (Hs : s <> 0) (Hl : bound_ok lower = true) (Hu : bound_ok upper = true)
    (Hno : Z.of_nat (length items) + Z.abs s <= i64_max) :
  exists b e idx,
    slice_bounds lower upper s (Z.of_nat (length items)) = Ok (b, e) /\
    slice_sequence items lower upper s = Ok (at_positions items idx) /\
    (forall i, i ∈ idx <-> on_slice b e s i) /\
    (forall k i, idx !! k = Some i -> i = b + Z.of_nat k * s /\ 0 <= i < Z.of_nat (length items)).
Proof.
  destruct (slice_sequence_ok items lower upper s) as (b & e & Hbe & Hseq & Hf); try done.
  exists b, e, (progression b s (steps b e s)). do 2 (split; [done|]). split.
  - intros i. by apply elem_of_progression.
  - intros k i Hi. split; [by apply progression_lookup in Hi as [_ ->]|].
    by apply (Forall_lookup_1 _ _ _ _ Hf) in Hi.
Qed.

(** [items[:]] is a copy and [items[::-1]] the reversal. *)
Theorem slice_copy_and_reverse items (Hno : Z.of_nat (length items) < i64_max) :
  slice_sequence items None None 1 = Ok items /\
  slice_sequence items None None (-1) = Ok (reverse items).
Proof.
  split.
  - destruct (slice_sequence_ok items None None 1) as (b & e & Hbe & -> & Hf); [done|done|done|lia|].
    rewrite (proj1 (full_slice_bounds _ (Zle_0_nat _))) in Hbe. injection Hbe as <- <-.
    f_equal. apply list_eq. intros k. rewrite at_positions_lookup by done.
    destruct (decide (k < length items)%nat) as [Hk|Hk].
    + rewrite (proj2 (progression_lookup _ _ _ k (Z.of_nat k))); [simpl; by rewrite Nat2Z.id|].
      rewrite steps_spec by done. split; [simpl; lia|lia].
    + rewrite (lookup_ge_None_2 items) by lia.
      destruct (progression _ _ _ !! k) as [i|] eqn:E; [|done].
      apply progression_lookup in E as [E _]. apply steps_spec in E; [|done]. simpl in E. lia.
  - destruct (slice_sequence_ok items None None (-1)) as (b & e & Hbe & -> & Hf); [done|done|done|lia|].
    rewrite (proj2 (full_slice_bounds _ (Zle_0_nat _))) in Hbe. injection Hbe as <- <-.
    f_equal. apply list_eq. intros k. rewrite at_positions_lookup by done.
    destruct (decide (k < length items)%nat) as [Hk|Hk].
    + rewrite (proj2 (progression_lookup _ _ _ k (Z.of_nat (length items - S k)))).
      * simpl. rewrite Nat2Z.id. rewrite reverse_lookup by done. done.
      * rewrite steps_spec by done. split; [simpl; lia|lia].
    + rewrite (lookup_ge_None_2 (reverse items)) by (rewrite length_reverse; lia).
      destruct (progression _ _ _ !! k) as [i|] eqn:E; [|done].
      apply progression_lookup in E as [E _]. apply steps_spec in E; [|done]. simpl in E. lia.
Qed.

(** Assigning through an extended slice, then reading it back. When the sizes
    agree the assignment succeeds, the slice reads as the new elements, every
    other position is unchanged and so is the length; when they differ it is the
    documented [ValueError]. *)
Theorem slice_assign_then_read items new lower upper s
    (Hs : s <> 0) (Hs1 : s <> 1) (Hl : bound_ok lower = true) (Hu : bound_ok upper = true)
    (Hno : Z.of_nat (length items) + Z.abs s <= i64_max) :
  exists old, slice_sequence items lower upper s = Ok old /\
    (length old = length new -> exists items',
       assign_slice items new lower upper (Some (VInt s)) = Ok items' /\
       length items' = length items /\ slice_sequence items' lower upper s = Ok new /\
       forall b e i, slice_bounds lower upper s (Z.of_nat (length items)) = Ok (b, e) ->
         ~ on_slice b e s (Z.of_nat i) -> items' !! i = items !! i) /\
    (length old <> length new -> exists msg,
       assign_slice items new lower upper (Some (VInt s)) = fail (ValueError msg)).
Proof.
  destruct (slice_sequence_ok items lower upper s) as (b & e & Hbe & Hseq & Hf); try done.
  set (idx := progression b s (steps b e s)) in *. exists (at_positions items idx). split; [done|].
  rewrite at_positions_length by done. unfold assign_slice, resolve_step.
  destruct (Z.eqb_spec s 0); [done|]. cbn [mbind Outcome_bind]. destruct (Z.eqb_spec s 1); [done|].
  rewrite (extended_indices_ok _ _ _ s b e) by done. cbn [mbind Outcome_bind]. fold idx.
  rewrite length_map. split; intros Hlen.
  2:{ apply Nat.eqb_neq in Hlen. rewrite Hlen. by eexists. }
  rewrite Hlen, Nat.eqb_refl. cbn [negb].
  assert (NoDup (map fst (zip (map Z.to_nat idx) new))) as Hnd.
  { rewrite fst_zip by (rewrite length_map; lia). apply NoDup_alt. intros i j x Hi Hj.
    apply list_lookup_fmap_Some in Hi as (u & -> & Hu'), Hj as (v & Hv & Hv').
    pose proof (Forall_lookup_1 _ _ _ _ Hf Hu'). pose proof (Forall_lookup_1 _ _ _ _ Hf Hv'). simpl in *.
    assert (u = v) as <- by lia. eapply (NoDup_lookup idx); [by apply progression_NoDup|done|done]. }
  assert (Forall (fun p => (p.1 < length items)%nat) (zip (map Z.to_nat idx) new)) as Hpl.
  { apply Forall_lookup_2. intros k [i x] Hk. apply lookup_zip_Some in Hk as [Hk _]. simpl in *.
    apply list_lookup_fmap_Some in Hk as (u & -> & Hk).
    pose proof (Forall_lookup_1 _ _ _ _ Hf Hk). simpl in *. lia. }
  destruct (writes_lookup _ items Hnd Hpl) as (Hin & Hout & Hlen').
  eexists. split; [done|]. split; [done|].
  set (items' := fold_left _ _ items) in *. split.
  - destruct (slice_sequence_ok items' lower upper s) as (b' & e' & Hbe' & -> & Hf'); try done;
      [by rewrite Hlen'|]. rewrite Hlen', Hbe in Hbe'. injection Hbe' as <- <-.
    f_equal. apply list_eq. intros k. rewrite at_positions_lookup by done. fold idx.
    destruct (idx !! k) as [i|] eqn:Ei; simpl.
    + destruct (lookup_lt_is_Some_2 new k) as [x Hx].
      { apply lookup_lt_Some in Ei. lia. }
      rewrite Hx. apply Hin. apply list_elem_of_In, list_elem_of_lookup. exists k.
      apply lookup_zip_Some. split; [|done]. apply list_lookup_fmap_Some. by exists i.
    + apply lookup_ge_None in Ei. symmetry. apply lookup_ge_None. lia.
  - intros b0 e0 i Hbe0 Hi. rewrite Hbe in Hbe0. injection Hbe0 as <- <-. apply Hout.
    rewrite fst_zip by (rewrite length_map; lia). intros Hin'. apply Hi.
    apply list_elem_of_fmap in Hin' as (u & -> & Hu'). apply elem_of_progression; [done|].
    rewrite Z2Nat.id; [done|]. rewrite Forall_forall in Hf. specialize (Hf u Hu'). simpl in Hf. lia.
Qed.

(** Deleting through an extended slice removes exactly the positions that
    reading it visits, and keeps the others in order. *)
Theorem slice_delete_removes_read_positions items lower upper s
    (Hs : s <> 0) (Hs1 : s <> 1) (Hl : bound_ok lower = true) (Hu : bound_ok upper = true)
    (Hno : Z.of_nat (length items) + Z.abs s <= i64_max) :
  exists b e idx,
    slice_bounds lower upper s (Z.of_nat (length items)) = Ok (b, e) /\
    slice_sequence items lower upper s = Ok (at_positions items (map Z.of_nat idx)) /\
    (forall i, i ∈ idx <-> on_slice b e s (Z.of_nat i)) /\
    delete_slice items lower upper s = Some (keep_from 0 idx items).
Proof.
  destruct (slice_sequence_ok items lower upper s) as (b & e & Hbe & Hseq & Hf); try done.
  exists b, e, (map Z.to_nat (progression b s (steps b e s))).
  assert (map Z.of_nat (map Z.to_nat (progression b s (steps b e s))) = progression b s (steps b e s)) as Hid.
  { clear - Hf. induction Hf as [|i idx Hi _ IH]; [done|]. simpl. rewrite IH. f_equal. lia. }
  split; [done|]. rewrite Hid. split; [done|]. split.
  - intros i. rewrite <- elem_of_progression by done. split.
    + intros Hi. rewrite <- Hid. apply list_elem_of_fmap. by exists i.
    + intros Hi. apply list_elem_of_fmap. exists (Z.of_nat i). split; [lia|done].
  - unfold delete_slice. destruct (Z.eqb_spec s 1); [done|].
    rewrite (strided_indices_ok items lower upper s b e) by done. cbn [mbind option_bind]. f_equal.
    destruct (sort_desc_spec (map Z.to_nat (progression b s (steps b e s)))) as [Hsort Helem].
    rewrite remove_descending; [by apply keep_from_ext|done|].
    apply Forall_forall. intros i Hi. apply Helem, list_elem_of_fmap in Hi as (u & -> & Hu').
    rewrite Forall_forall in Hf. specialize (Hf u Hu'). simpl in Hf. lia.
Qed.
End Properties.

(** * Ranges and indices *)

Section Ranges.
Context `{External}.
Implicit Types (start stop step v : Z).

(** Bounds within which no machine operation on a range wraps. *)
Definition small_range start stop step : Prop :=
  - 2 ^ 61 <= start <= 2 ^ 61 /\ - 2 ^ 61 <= stop <= 2 ^ 61 /\ - 2 ^ 61 <= step <= 2 ^ 61 /\ step <> 0.

Lemma quot_pos_div a b : 0 <= a -> 0 < b -> Z.quot a b = a / b.
Proof. intros. apply Z.quot_div_nonneg; lia. Qed.

Lemma range_length_ok start stop step :
  small_range start stop step -> range_length start stop step = Z.of_nat (steps start stop step).
Proof.
  unfold small_range. intros (H1 & H2 & H3 & H4). unfold range_length, steps.
  assert (forall a b, 0 < b -> b <= 2 ^ 61 -> - 2 ^ 62 <= a <= 2 ^ 62 ->
    Z.max (Z.quot (swrap64 (swrap64 (swrap64 a + b) - 1)) b) 0 =
    Z.of_nat (Z.to_nat (if 0 <? a then (a - 1) / b + 1 else 0))) as Hkey.
  { intros a b Hb Hb' Ha.
    rewrite (swrap64_id a), (swrap64_id (a + b)), (swrap64_id (a + b - 1)) by (unfold i64_min, i64_max; lia).
    destruct (Z.ltb_spec 0 a).
    - rewrite quot_pos_div by lia. replace (a + b - 1) with (a - 1 + 1 * b) by lia.
      rewrite Z.div_add by lia. assert (0 <= (a - 1) / b) by (apply Z.div_pos; lia). lia.
    - destruct (Z_le_gt_dec 0 (a + b - 1)).
      + rewrite Z.quot_small by lia. lia.
      + replace (a + b - 1) with (- (- (a + b - 1))) by lia. rewrite Z.quot_opp_l by lia.
        assert (0 <= Z.quot (- (a + b - 1)) b) by (apply Z.quot_pos; lia). lia. }
  destruct (Z.gtb_spec step 0).
  - rewrite Hkey by lia. destruct (Z.ltb_spec 0 (stop - start)), (Z.ltb_spec start stop); try lia; done.
  - destruct (Z.ltb_spec step 0); [|lia].
    rewrite (swrap64_id (- step)) by (unfold i64_min, i64_max; lia).
    replace (swrap64 (start - stop) - step) with (swrap64 (start - stop) + - step) by lia.
    rewrite Hkey by lia. destruct (Z.ltb_spec 0 (start - stop)), (Z.ltb_spec stop start); try lia; done.
Qed.

Lemma range_count_ok start stop step : step <> 0 ->
  range_count start stop step = Z.of_nat (steps start stop step).
Proof.
  intros Hs. unfold range_count, steps.
  assert (forall a b, 0 < a -> 0 < b -> Z.quot a b + (if Z.rem a b =? 0 then 0 else 1) = (a - 1) / b + 1) as Hkey.
  { intros a b Ha Hb. rewrite quot_pos_div, Z.rem_mod_nonneg by lia.
    pose proof (Z.div_mod a b ltac:(lia)). pose proof (Z.mod_pos_bound a b Hb).
    destruct (Z.eqb_spec (a mod b) 0).
    - rewrite <- (Z.div_unique (a - 1) b (a / b - 1) (b - 1)); lia.
    - rewrite <- (Z.div_unique (a - 1) b (a / b) (a mod b - 1)); lia. }
  destruct (Z.gtb_spec step 0), (Z.gtb_spec (stop - start) 0), (Z.ltb_spec step 0),
    (Z.ltb_spec (stop - start) 0), (Z.ltb_spec start stop), (Z.ltb_spec stop start);
    try lia; cbn [andb orb]; try lia.
  - rewrite Hkey by lia. assert (0 <= (stop - start - 1) / step) by (apply Z.div_pos; lia). lia.
  - assert (Z.quot (stop - start) step = Z.quot (start - stop) (- step)) as ->.
    { rewrite <- (Z.quot_opp_opp (stop - start)) by lia. f_equal. lia. }
    assert (Z.rem (start - stop) (- step) = - Z.rem (stop - start) step) as Hrem.
    { rewrite <- Z.rem_opp_opp by lia. f_equal. lia. }
    assert ((Z.rem (stop - start) step =? 0) = (Z.rem (start - stop) (- step) =? 0)) as -> by lia.
    rewrite Hkey by lia. assert (0 <= (start - stop - 1) / (- step)) by (apply Z.div_pos; lia). lia.
Qed.

(** Index normalization. An index between [- len] and [len - 1] selects the
    position it names modulo the length; any other raises [IndexError]. *)
Theorem index_normalization (raw : Z) (len : nat) (kind : string)
    (Hlen : Z.of_nat len <= i64_max) (Hraw : in_i64 raw = true) :
  (- Z.of_nat len <= raw < Z.of_nat len ->
     normalize_seq_index raw len kind = Ok (Z.to_nat (raw mod Z.of_nat len)) /\
     (Z.to_nat (raw mod Z.of_nat len) < len)%nat) /\
  (~ (- Z.of_nat len <= raw < Z.of_nat len) ->
     normalize_seq_index raw len kind = Err (Exception (index_error kind))).
Proof.
  unfold normalize_seq_index. destruct (Z.gtb_spec (Z.of_nat len) i64_max); [lia|]. split; intros Hr.
  - pose proof (Z.mod_pos_bound raw (Z.of_nat len) ltac:(lia)).
    assert ((if raw <? 0 then Z.of_nat len + raw else raw) = raw mod Z.of_nat len) as ->.
    { destruct (Z.ltb_spec raw 0).
      - apply (Z.mod_unique_pos raw (Z.of_nat len) (-1)); lia.
      - symmetry. apply Z.mod_small. lia. }
    destruct (Z.ltb_spec (raw mod Z.of_nat len) 0), (Z.geb_spec (raw mod Z.of_nat len) (Z.of_nat len)); try lia.
    split; [done|lia].
  - destruct (Z.ltb_spec raw 0).
    + destruct (Z.ltb_spec (Z.of_nat len + raw) 0); [done|lia].
    + destruct (Z.ltb_spec raw 0), (Z.geb_spec raw (Z.of_nat len)); try lia; done.
Qed.

(** The closed forms on a range agree with iterating it: within the bounds
    where nothing wraps, the length is the number of elements, membership is
    membership among them, and indexing is indexing them. *)
Theorem range_operations_agree start stop step
    (Hr : small_range start stop step) (Hn : range_count start stop step <= MAX_COLLECTION_SIZE) :
  exists items, range_iter (VRange start stop step) = Ok items /\
    Z.of_nat (length items) = range_length start stop step /\
    (forall v, exists b, range_contains (VRange start stop step) (VInt v) = Ok b /\
       (b = true <-> VInt v ∈ items)) /\
    (forall i x, items !! i = Some x ->
       range_get_item (VRange start stop step) (VInt (Z.of_nat i)) = Ok x).
Proof.
  pose proof Hr as (H1 & H2 & H3 & H4). unfold range_iter.
  destruct (Z.gtb_spec (range_count start stop step) MAX_COLLECTION_SIZE); [lia|].
  destruct (Z.eqb_spec step 0); [done|]. rewrite range_count_ok, Nat2Z.id by done.
  rewrite walk_to_ok; [|done| |lia].
  2:{ unfold no_overflow, i64_min, i64_max. destruct (Z.gtb_spec step 0); lia. }
  cbn [or_panic mbind Outcome_bind]. eexists. split; [done|].
  rewrite length_map, progression_length, range_length_ok by done. split; [done|]. split.
  - intros v. unfold range_contains. destruct (Z.eqb_spec step 0); [done|].
    eexists. split; [done|]. rewrite list_elem_of_fmap.
    assert ((exists y, VInt v = VInt y /\ y ∈ progression start step (steps start stop step)) <->
      on_slice start stop step v) as ->.
    { rewrite <- elem_of_progression by done. split; [intros (y & [= ->] & Hy); done|eauto]. }
    unfold on_slice. rewrite andb_true_iff, Z.eqb_eq.
    assert (forall P Q R R' : Prop, (P <-> Q) -> (P -> (R <-> R')) -> (P /\ R <-> Q /\ R')) as Hand by tauto.
    apply Hand; [destruct (Z.gtb_spec step 0); lia|]. intros Hin.
    rewrite swrap64_id by (unfold i64_min, i64_max; destruct (Z.gtb_spec step 0); lia).
    by apply Z.rem_divide.
  - intros i x Hx. apply list_lookup_fmap_Some in Hx as (y & -> & Hy).
    apply progression_lookup in Hy as [Hi ->]. unfold range_get_item. cbn [int_index mbind Outcome_bind].
    rewrite range_length_ok, Nat2Z.id by done. unfold normalize_seq_index.
    rewrite range_count_ok in Hn by done. unfold MAX_COLLECTION_SIZE, i64_max in *.
    destruct (Z.gtb_spec (Z.of_nat (steps start stop step)) (2 ^ 63 - 1)); [lia|].
    destruct (Z.ltb_spec (Z.of_nat i) 0); [lia|].
    destruct (Z.ltb_spec (Z.of_nat i) 0), (Z.geb_spec (Z.of_nat i) (Z.of_nat (steps start stop step))); try lia.
    cbn [orb mbind Outcome_bind]. rewrite Nat2Z.id. apply steps_spec in Hi; [|done].
    assert (- 2 ^ 62 <= Z.of_nat i * step <= 2 ^ 62 /\ - 2 ^ 61 <= start + Z.of_nat i * step <= 2 ^ 61) as [Hp Hq].
    { destruct (Z.gtb_spec step 0).
      - assert (0 <= Z.of_nat i * step) by (apply Z.mul_nonneg_nonneg; lia). lia.
      - assert (Z.of_nat i * step <= 0) by (apply Z.mul_nonneg_nonpos; lia). lia. }
    rewrite !swrap64_id; [done|unfold i64_min, i64_max..]; [lia|].
    rewrite swrap64_id; unfold i64_min, i64_max; lia.
Qed.

(** beyond those bounds they do not. The length of the full machine range
    wraps to zero although it has [2 ** 64 - 1] elements, and iterating a range
    whose last step passes the largest integer wraps to negative indices and goes
    on: no number of rounds below [10 ** 18] ends the loop, for one element. *)
Theorem range_overflow (fuel : nat) (Hf : Z.of_nat fuel <= 10 ^ 18) :
  range_length i64_min i64_max 1 = 0 /\ range_count i64_min i64_max 1 = 2 ^ 64 - 1 /\
  range_count (2 ^ 63 - 2) (2 ^ 63 - 1) 5 = 1 /\
  walk_to fuel (2 ^ 63 - 1) 5 (2 ^ 63 - 2) = None.
Proof.
  do 3 (split; [by vm_compute|]).
  assert (forall n i, i64_min <= i -> i + 5 * Z.of_nat n <= 2 ^ 63 - 1 -> walk_to n (2 ^ 63 - 1) 5 i = None) as Hrun.
  { induction n as [|n IH]; intros i Hi Hn; [done|]. unfold walk_to in *. cbn [walk].
    change (5 >? 0) with true in *. cbn iota in *. destruct (Z.ltb_spec i (2 ^ 63 - 1)); [|lia].
    unfold i64_min in *. rewrite swrap64_id by (unfold i64_min, i64_max; lia). rewrite IH; [done|lia|lia]. }
  destruct fuel as [|fuel]; [done|]. unfold walk_to. cbn [walk]. change (5 >? 0) with true. cbn iota.
  change (2 ^ 63 - 2 <? 2 ^ 63 - 1) with true. cbn iota.
  change (swrap64 (2 ^ 63 - 2 + 5)) with (- 2 ^ 63 + 3).
  specialize (Hrun fuel (- 2 ^ 63 + 3)). unfold walk_to in Hrun.
  change (5 >? 0) with true in Hrun. cbn iota in Hrun. rewrite Hrun; [done|unfold i64_min; lia|lia].
Qed.

(** a bool bound deletes a different slice than it reads. [a[True:]] is the
    list without its first element, but [del a[True:]] removes every element: the
    contiguous deletion takes a bound that is not a machine integer for absent. *)
Theorem delete_ignores_bool_bound :
  slice_sequence [10; 20; 30] (Some (VBool true)) None 1 = Ok [20; 30] /\
  delete_slice [10; 20; 30] (Some (VBool true)) None 1 = Some [] /\
  delete_slice [10; 20; 30] (Some (VInt 1)) None 1 = Some [10].
Proof. by vm_compute. Qed.
End Ranges.

(** * Witnesses *)

Section Witnesses.
#[local] Instance ext : External := sample_external.

Lemma slice_reads_positions_witness :
  exists idx, slice_sequence [10; 20; 30; 40; 50] (Some (VInt 1)) None 2 = Ok (at_positions [10; 20; 30; 40; 50] idx).
Proof.
  destruct (slice_reads_positions [10; 20; 30; 40; 50] (Some (VInt 1)) None 2) as (b & e & idx & _ & Hs & _);
    [done|done|done|by vm_compute|]. by exists idx.
Defined.

Lemma slice_copy_and_reverse_witness :
  slice_sequence [1; 2; 3] None None (-1) = Ok [3; 2; 1].
Proof. apply (slice_copy_and_reverse [1; 2; 3]). by vm_compute. Defined.

Lemma slice_assign_then_read_witness :
  exists items', assign_slice [1; 2; 3; 4] [7; 8] None None (Some (VInt 2)) = Ok items' /\
    slice_sequence items' None None 2 = Ok [7; 8].
Proof.
  destruct (slice_assign_then_read [1; 2; 3; 4] [7; 8] None None 2) as (old & Ho & Hok & _);
    [done|done|done|done|by vm_compute|].
  destruct Hok as (items' & Ha & _ & Hr & _); [|by exists items'].
  assert (slice_sequence [1; 2; 3; 4] None None 2 = Ok [1; 3]) as E by reflexivity.
  rewrite E in Ho. by injection Ho as <-.
Defined.

Lemma slice_delete_removes_read_positions_witness :
  exists idx, slice_sequence [1; 2; 3; 4] None None (-2) = Ok (at_positions [1; 2; 3; 4] (map Z.of_nat idx)) /\
    delete_slice [1; 2; 3; 4] None None (-2) = Some (keep_from 0 idx [1; 2; 3; 4]).
Proof.
  destruct (slice_delete_removes_read_positions [1; 2; 3; 4] None None (-2))
    as (b & e & idx & _ & Hs & _ & Hd); [done|done|done|done|by vm_compute|]. by exists idx.
Defined.

Lemma index_normalization_witness :
  normalize_seq_index (-1) 3 "list" = Ok 2%nat /\
  normalize_seq_index 3 3 "list" = Err (Exception (index_error "list")).
Proof.
  split.
  - apply (index_normalization (-1) 3 "list"); [by vm_compute|done|lia].
  - apply (index_normalization 3 3 "list"); [by vm_compute|done|lia].
Defined.

Lemma range_operations_agree_witness :
  exists items, range_iter (VRange 1 10 3) = Ok items /\ Z.of_nat (length items) = range_length 1 10 3.
Proof.
  destruct (range_operations_agree 1 10 3) as (items & Hi & Hl & _);
    [unfold small_range; lia|by vm_compute|]. by exists items.
Defined.

Lemma range_overflow_witness : walk_to 1000 (2 ^ 63 - 1) 5 (2 ^ 63 - 2) = None.
Proof. apply (range_overflow 1000). lia. Defined.
End Witnesses.
