(* ===== verification/ValueEq.v ===== *)
(** Structural equality of values ([impl PartialEq for Value] in [value.rs]):
    the comparison the evaluator uses between stored values, as distinct from
    Python's [==]. *)
From Stdlib Require Import ZArith Lia Ascii String SpecFloat.
From stdpp Require Import base tactics list numbers option strings gmap.
From S2P Require Import Prelude PySet Values Errors F64 Keys.

Section ValueEq.
Context `{External}.
Variable structural : Value -> Value -> bool.

(** [all] and [any] over comparisons that may not return ([None]). *)
Fixpoint all_opt {A} (f : A -> option bool) (xs : list A) : option bool :=
  match xs with
  | [] => Some true
  | x :: xs => b ← f x; if b : bool then all_opt f xs else Some false
  end.

Fixpoint any_opt {A} (f : A -> option bool) (xs : list A) : option bool :=
  match xs with
  | [] => Some false
  | x :: xs => b ← f x; if b : bool then Some true else any_opt f xs
  end.

Section Containers.
Variable eqv : Value -> Value -> option bool.

(** Slices: equal lengths, then element by element. *)
Definition slices_equal (a b : list Value) : option bool :=
  if (length a =? length b)%nat then all_opt (fun p => eqv p.1 p.2) (zip a b) else Some false.

Definition set_bodies_equal (ai bi : list Value) (alen blen : Z) : option bool :=
  if negb (alen =? blen) then Some false
  else all_opt (fun x => any_opt (fun y => eqv x y) bi) ai.

(** [DictBody]'s equality: the maps' entries, whatever their order. *)
Definition dict_bodies_equal (a b : list (ValueKey * Value)) : option bool :=
  if (length a =? length b)%nat then
    all_opt (fun kv => match im_get (key_eqb structural) b kv.1 with
                       | Some v => eqv kv.2 v
                       | None => Some false
                       end) a
  else Some false.
End Containers.

(** [fuel] bounds the nesting compared; comparing two distinct self-referential
    lists locks one mutex twice in the source and never returns ([None]). *)
Fixpoint value_eqb (fuel : nat) (h : Heap) (x y : Value) : option bool :=
  match fuel with
  | O => None
  | S fuel =>
      let eqv := value_eqb fuel h in
      let sets_equal la lb :=
        set_bodies_equal eqv (set_at h la) (set_at h lb)
          (default 0 (body_len <$> sets h !! la)) (default 0 (body_len <$> sets h !! lb)) in
      match x, y with
      | VNone, VNone => Some true
      | VBool a, VBool b => Some (Bool.eqb a b)
      | VInt a, VInt b | VBigInt a, VBigInt b => Some (a =? b)
      | VInt a, VBigInt b | VBigInt b, VInt a => Some (b =? a)
      | VBool b, VBigInt i | VBigInt i, VBool b => Some (i =? Z.b2z b)
      | VFloat a, VFloat b => Some (same_bits a b)
      | VString a, VString b => Some (bool_decide (a = b))
      | VType a, VType b | VClass a, VClass b | VModule a, VModule b => Some (bool_decide (a = b))
      | VBytes a, VBytes b => Some (bool_decide (a = b))
      | VByteArray a, VByteArray b => Some ((a =? b)%nat || bool_decide (bytes_at h a = bytes_at h b))
      | VByteArray a, VBytes b | VBytes b, VByteArray a => Some (bool_decide (bytes_at h a = b))
      | VList a, VList b | VArray _ a, VArray _ b =>
          if (a =? b)%nat then Some true else slices_equal eqv (list_at h a) (list_at h b)
      | VTuple a, VTuple b => slices_equal eqv a b
      | VSet a, VSet b => if (a =? b)%nat then Some true else sets_equal a b
      | VFrozenset a, VFrozenset b | VFrozenset a, VSet b | VSet a, VFrozenset b => sets_equal a b
      | VDict a, VDict b =>
          if (a =? b)%nat then Some true else dict_bodies_equal eqv (dict_at h a) (dict_at h b)
      | VRange s1 e1 st1, VRange s2 e2 st2 => Some ((s1 =? s2) && (e1 =? e2) && (st1 =? st2))
      | VException a, VException b =>
          Some (bool_decide (exc_type_name a = exc_type_name b) && bool_decide (exc_message a = exc_message b))
      | VDate a, VDate b => Some (date_eqb a b)
      | VModuleFunction m1 n1, VModuleFunction m2 n2 => Some (bool_decide (m1 = m2) && bool_decide (n1 = n2))
      | VEnumMember c1 m1 _ _, VEnumMember c2 m2 _ _ =>
          Some (bool_decide (c1 = c2) && bool_decide (m1 = m2))
      | VEnumMember _ _ value (EInt | EStr), other => eqv value other
      | other, VEnumMember _ _ value (EInt | EStr) => eqv other value
      | VDecimal a _, VDecimal b _ => Some (decimal_eqb a b)
      | VFraction a, VFraction b => Some (rational_eqb a b)
      | VDecimal d _, VInt i | VInt i, VDecimal d _ => Some (decimal_eqb d (decimal_of_int i))
      | VDecimal d _, VBigInt i | VBigInt i, VDecimal d _ => Some (decimal_eqb d (decimal_of_int i))
      | VFraction f, VInt i | VInt i, VFraction f => Some ((rational_numer f =? i) && (rational_denom f =? 1))
      | VFraction f, VBigInt i | VBigInt i, VFraction f => Some ((rational_numer f =? i) && (rational_denom f =? 1))
      | _, _ => Some false
      end
  end.

(** More fuel never changes an answer. *)
Lemma all_opt_mono {A} (f g : A -> option bool) xs b :
  (forall x b, f x = Some b -> g x = Some b) -> all_opt f xs = Some b -> all_opt g xs = Some b.
Proof.
  intros Hfg. induction xs as [|x xs IH]; [done|]. cbn. destruct (f x) as [c|] eqn:E; [|done].
  rewrite (Hfg _ _ E). cbn. by destruct c.
Qed.

Lemma any_opt_mono {A} (f g : A -> option bool) xs b :
  (forall x b, f x = Some b -> g x = Some b) -> any_opt f xs = Some b -> any_opt g xs = Some b.
Proof.
  intros Hfg. induction xs as [|x xs IH]; [done|]. cbn. destruct (f x) as [c|] eqn:E; [|done].
  rewrite (Hfg _ _ E). cbn. by destruct c.
Qed.

Lemma slices_equal_mono (f g : Value -> Value -> option bool) a b r :
  (forall x y b, f x y = Some b -> g x y = Some b) -> slices_equal f a b = Some r -> slices_equal g a b = Some r.
Proof. intros Hfg. unfold slices_equal. case_match; [|done]. apply all_opt_mono. naive_solver. Qed.

Lemma sets_equal_mono (f g : Value -> Value -> option bool) a b n m r :
  (forall x y b, f x y = Some b -> g x y = Some b) ->
  set_bodies_equal f a b n m = Some r -> set_bodies_equal g a b n m = Some r.
Proof.
  intros Hfg. unfold set_bodies_equal. case_match; [done|]. apply all_opt_mono. intros x c.
  apply any_opt_mono. naive_solver.
Qed.

Lemma dicts_equal_mono (f g : Value -> Value -> option bool) a b r :
  (forall x y b, f x y = Some b -> g x y = Some b) ->
  dict_bodies_equal f a b = Some r -> dict_bodies_equal g a b = Some r.
Proof.
  intros Hfg. unfold dict_bodies_equal. case_match; [|done]. apply all_opt_mono. intros kv c.
  case_match; [apply Hfg|done].
Qed.

Lemma value_eqb_mono n m h x y b :
  (n <= m)%nat -> value_eqb n h x y = Some b -> value_eqb m h x y = Some b.
Proof.
  revert m x y b. induction n as [|n IH]; intros m x y b Hle; [done|].
  destruct m as [|m]; [lia|]. assert (Hrec : forall x y b, value_eqb n h x y = Some b -> value_eqb m h x y = Some b).
  { intros x' y' b'. apply IH. lia. }
  cbn [value_eqb]. intros E.
  repeat first
    [ done
    | by eapply Hrec
    | by eapply slices_equal_mono
    | by eapply sets_equal_mono
    | by eapply dicts_equal_mono
    | case_match ].
Qed.
End ValueEq.
