(* ===== verification/Compare.v ===== *)
(** Comparison of values (types.rs, eval/operations.rs, cycle.rs): the type
    objects with their [==] and [<] slots, the dispatchers that try the left
    operand's slot and then the right one's, the depth limit of structural
    equality with its overflow flag, and the comparison operators on top. *)
From Stdlib Require Import ZArith Lia Ascii String SpecFloat.
From stdpp Require Import base tactics list numbers option strings gmap.
From S2P Require Import Prelude PySet Values Errors F64 Keys Classes Slices Text.

(** What the comparison slots use of chrono, bigdecimal, num-rational and
    num-traits beyond [External]. *)
Class ExternalOrder `{External} : Type := {
  date_ltb : NaiveDate -> NaiveDate -> bool;
  time_ltb : NaiveTime -> NaiveTime -> bool;
  datetime_ltb : NaiveDateTime -> NaiveDateTime -> bool;
  decimal_ltb : BigDecimal -> BigDecimal -> bool;
  decimal_bigint_and_exponent : BigDecimal -> Z * Z;
  rational_new : Z -> Z -> BigRational;
  rational_from_integer : Z -> BigRational;
  rational_compare : BigRational -> BigRational -> comparison;
  float_integer_decode : f64 -> Z * Z * Z
}.

(** * Walks

    A structural walk reads the thread-local [EQ_OVERFLOW] flag and leaves it
    set or not. It never returns when it locks a mutex an enclosing walk still
    holds, or descends for ever. *)
Definition Walk (A : Type) : Type := bool -> option (A * bool).

Definition walk_ret {A} (a : A) : Walk A := fun flag => Some (a, flag).
Definition walk_bind {A B} (w : Walk A) (k : A -> Walk B) : Walk B :=
  fun flag => match w flag with Some (a, flag) => k a flag | None => None end.
Definition never {A} : Walk A := fun _ => None.

Declare Scope walk_scope.
Delimit Scope walk_scope with walk.
Notation "'let!' x := w 'in' k" := (walk_bind w (fun x => k))
  (at level 10, x name, w at level 100, k at level 200) : walk_scope.
Open Scope walk_scope.

Fixpoint all_walk {A} (f : A -> Walk bool) (xs : list A) : Walk bool :=
  match xs with
  | [] => walk_ret true
  | x :: xs => let! b := f x in if b then all_walk f xs else walk_ret false
  end.

Fixpoint any_walk {A} (f : A -> Walk bool) (xs : list A) : Walk bool :=
  match xs with
  | [] => walk_ret false
  | x :: xs => let! b := f x in if b then walk_ret true else any_walk f xs
  end.

(** The mutexes held around a walk: lists while [list_lt] runs, a dict while
    [counter_eq] does, instance fields while a dataclass is compared. *)
Record Held : Type := mkHeld { held_lists : list loc; held_dicts : list loc; held_fields : list loc }.
Definition none_held : Held := mkHeld [] [] [].

(** [EQ_RECURSION_LIMIT]. *)
Definition EQ_RECURSION_LIMIT : nat := 1000.

(** * Names of [typing.Union] aliases *)

(** The loop over the characters: [current] is the slice from [start], in
    reverse. *)
Fixpoint split_members (depth : nat) (current s : text) : list text :=
  match s with
  | [] => [trim is_whitespace (rev current)]
  | c :: s =>
      if c =? 91 then split_members (S depth) (c :: current) s
      else if c =? 93 then split_members (pred depth) (c :: current) s
      else if (c =? 44) && (depth =? 0)%nat then trim is_whitespace (rev current) :: split_members depth [] s
      else split_members depth (c :: current) s
  end.

Definition union_members (s : string) : option (list text) :=
  inner ← strip_prefix (lit "typing.Union[") (name_text s);
  inner ← strip_suffix [93] inner;
  Some (split_members 0 [] inner).

Definition union_type_eq (a b : string) : bool :=
  match union_members a, union_members b with
  | Some a_args, Some b_args =>
      (length a_args =? length b_args)%nat
      && forallb (fun x => bool_decide (x ∈ b_args)) a_args
      && forallb (fun x => bool_decide (x ∈ a_args)) b_args
  | _, _ => false
  end.

(** * Orderings of sequences *)

(** Rust's [<] on slices of [u8]. *)
Fixpoint bytes_ltb (a b : list Z) : bool :=
  match a, b with
  | [], [] => false
  | [], _ :: _ => true
  | _ :: _, [] => false
  | x :: a, y :: b => (x <? y) || ((x =? y) && bytes_ltb a b)
  end.

(** Rust's [<] on strings: their UTF-8 bytes. *)
Definition str_ltb (a b : text) : bool := bytes_ltb (flat_map utf8_bytes a) (flat_map utf8_bytes b).

Section Comparing.
Context `{External} `{!ExternalOrder}.
(** The unreachable last arm of key equality, and the equality and hash the
    set tables use. *)
Variable structural : Value -> Value -> bool.
Variable elem : Heap -> SetElem Value.

Abbreviation key_eq := (key_eqb structural).

(** [mutex.lock().clone()]. *)
Definition lock_list (held : Held) (h : Heap) (l : loc) : Walk (list Value) :=
  if bool_decide (l ∈ held_lists held) then never else walk_ret (list_at h l).
Definition lock_dict (held : Held) (h : Heap) (l : loc) : Walk (list (ValueKey * Value)) :=
  if bool_decide (l ∈ held_dicts held) then never else walk_ret (dict_at h l).
Definition fields_at (h : Heap) (l : loc) : list (string * Value) := default [] (instance_fields h !! l).
Definition lock_fields (held : Held) (h : Heap) (l : loc) : Walk (list (string * Value)) :=
  if bool_decide (l ∈ held_fields held) then never else walk_ret (fields_at h l).

Fixpoint field_get {A} (fs : list (string * A)) (name : string) : option A :=
  match fs with
  | [] => None
  | (n, v) :: fs => if bool_decide (n = name) then Some v else field_get fs name
  end.

(** Equal lengths, then the comparison element by element. *)
Definition zip_equal {A} (f : A -> A -> Walk bool) (a b : list A) : Walk bool :=
  if (length a =? length b)%nat then all_walk (fun p => f p.1 p.2) (zip a b) else walk_ret false.

Definition set_equal (f : Value -> Value -> Walk bool) (a b : list Value) : Walk bool :=
  if (length a =? length b)%nat then all_walk (fun x => any_walk (fun y => f x y) b) a else walk_ret false.

Definition proper_subset (f : Value -> Value -> Walk bool) (a b : list Value) : Walk bool :=
  if (length a <? length b)%nat then all_walk (fun x => any_walk (fun y => f x y) b) a else walk_ret false.

Definition entries_equal (f : Value -> Value -> Walk bool) (a b : list (ValueKey * Value)) : Walk bool :=
  if (length a =? length b)%nat then
    all_walk (fun kv => match im_get key_eq b kv.1 with Some bv => f kv.2 bv | None => walk_ret false end) a
  else walk_ret false.

(** Two ordered dicts: key and value, position by position. *)
Definition ordered_equal (f : Value -> Value -> Walk bool) (a b : list (ValueKey * Value)) : Walk bool :=
  zip_equal (fun p q => if key_eq p.1 q.1 then f p.2 q.2 else walk_ret false) a b.

(** The table of [values_equal], at one level of the recursion [eqv]. *)
Definition values_equal_at (eqv : Value -> Value -> Walk bool) (held : Held) (h : Heap) (x y : Value) :
    Walk bool :=
  match x, y with
  | VNone, VNone | VEllipsis, VEllipsis | VNotImplemented, VNotImplemented => walk_ret true
  | VBool a, VBool b => walk_ret (Bool.eqb a b)
  | VInt a, VInt b => walk_ret (a =? b)
  | VFloat a, VFloat b => walk_ret (f64_eqb a b)
  | VString a, VString b => walk_ret (bool_decide (a = b))
  | VBytes a, VBytes b => walk_ret (bool_decide (a = b))
  | VByteArray a, VByteArray b => walk_ret ((a =? b)%nat || bool_decide (bytes_at h a = bytes_at h b))
  | VByteArray a, VBytes b | VBytes b, VByteArray a => walk_ret (bool_decide (bytes_at h a = b))
  | VBool b, VInt i | VInt i, VBool b => walk_ret (i =? Z.b2z b)
  | VBool b, VFloat f | VFloat f, VBool b => walk_ret (f64_eqb f (f64_of_Z (Z.b2z b)))
  | VInt i, VFloat f | VFloat f, VInt i => walk_ret (f64_eqb f (f64_of_Z i))
  | VFunction a, VFunction b => walk_ret (a =? b)%nat
  | VLambda a, VLambda b => walk_ret (a =? b)%nat
  | VList a, VList b | VArray _ a, VArray _ b =>
      if (a =? b)%nat then walk_ret true else
      let! a := lock_list held h a in let! b := lock_list held h b in zip_equal eqv a b
  | VDeque a _, VDeque b _ => zip_equal eqv a b
  | VTuple a, VTuple b => zip_equal eqv a b
  | VOrderedDict a, VOrderedDict b =>
      if (a =? b)%nat then walk_ret true else
      let! a := lock_dict held h a in let! b := lock_dict held h b in ordered_equal eqv a b
  | VDict a, VDict b | VDict a, VOrderedDict b | VOrderedDict a, VDict b =>
      if (a =? b)%nat then walk_ret true else
      let! a := lock_dict held h a in let! b := lock_dict held h b in entries_equal eqv a b
  | (VSet _ | VFrozenset _), (VSet _ | VFrozenset _) =>
      match set_items h x, set_items h y with
      | Some a, Some b => set_equal eqv a b
      | _, _ => walk_ret false
      end
  | VEnumMember c1 m1 _ _, VEnumMember c2 m2 _ _ =>
      walk_ret (bool_decide (c1 = c2) && bool_decide (m1 = m2))
  | VEnumMember _ _ value (EInt | EStr), other => eqv value other
  | other, VEnumMember _ _ value (EInt | EStr) => eqv other value
  | VInstance ca fa, VInstance cb fb =>
      if negb (bool_decide (ca = cb)) then walk_ret false else
      if (fa =? fb)%nat then walk_ret true else
      let! af := lock_fields held h fa in let! bf := lock_fields held h fb in
      if (length af =? length bf)%nat then
        all_walk (fun nv => match field_get bf nv.1 with Some vb => eqv nv.2 vb | None => walk_ret false end) af
      else walk_ret false
  | VRePattern a, VRePattern b => walk_ret (bool_decide (a = b))
  | VSlice s1 e1 st1, VSlice s2 e2 st2 =>
      let! a := eqv s1 s2 in if a then
      let! b := eqv e1 e2 in if b then eqv st1 st2 else walk_ret false else walk_ret false
  | (VExceptionType a | VType a | VClass a | VBuiltinName a),
    (VExceptionType b | VType b | VClass b | VBuiltinName b) =>
      walk_ret (bool_decide (a = b) || union_type_eq a b)
  | VDate a, VDate b => walk_ret (date_eqb a b)
  | VTime a, VTime b => walk_ret (time_eqb a b)
  | VTimeDelta a, VTimeDelta b => walk_ret (a =? b)
  | VDateTime a ta, VDateTime b tb =>
      match ta, tb with
      | None, None => walk_ret (datetime_eqb a b)
      | Some oa, Some ob => walk_ret (datetime_eqb (utc a oa) (utc b ob))
      | _, _ => walk_ret false
      end
  | VTimeZone a, VTimeZone b => walk_ret (a =? b)
  | VRange sa pa ta, VRange sb pb tb =>
      let la := range_length sa pa ta in
      walk_ret ((la =? range_length sb pb tb)
                && ((la =? 0) || ((sa =? sb) && ((la =? 1) || (ta =? tb)))))
  | _, _ => walk_ret false
  end.

(** [values_equal]. Entering a level ([eq_depth_enter]) with nothing left of
    [EQ_RECURSION_LIMIT] raises the flag; the outermost level clears a stale one. *)
Fixpoint values_equal (depth : nat) (held : Held) (h : Heap) (x y : Value) : Walk bool := fun flag =>
  match depth with
  | O => Some (false, true)
  | S depth' =>
      values_equal_at (values_equal depth' held h) held h x y
        (if (depth =? EQ_RECURSION_LIMIT)%nat then false else flag)
  end.

(** * Type objects *)

Inductive TypeObject : Type :=
| NONE_TYPE | BOOL_TYPE | INT_TYPE | FLOAT_TYPE | COMPLEX_TYPE | STR_TYPE | BYTES_TYPE
| BYTEARRAY_TYPE | MEMORYVIEW_TYPE | LIST_TYPE | TUPLE_TYPE | DICT_TYPE | ORDEREDDICT_TYPE
| SET_TYPE | FROZENSET_TYPE | RANGE_TYPE | COUNTER_TYPE | DEQUE_TYPE | DEFAULTDICT_TYPE
| CHAINMAP_TYPE | DICTVIEW_TYPE | DECIMAL_TYPE | FRACTION_TYPE | DATE_TYPE | DATETIME_TYPE
| TIME_TYPE | TIMEDELTA_TYPE | TIMEZONE_TYPE | HASHDIGEST_TYPE | ENUMMEMBER_TYPE | OBJECT_TYPE.

Definition type_of (v : Value) : TypeObject :=
  match v with
  | VNone => NONE_TYPE
  | VBool _ => BOOL_TYPE
  | VInt _ | VBigInt _ => INT_TYPE
  | VFloat _ => FLOAT_TYPE
  | VComplex _ _ => COMPLEX_TYPE
  | VString _ => STR_TYPE
  | VBytes _ => BYTES_TYPE
  | VByteArray _ => BYTEARRAY_TYPE
  | VMemoryView _ => MEMORYVIEW_TYPE
  | VList _ => LIST_TYPE
  | VTuple _ => TUPLE_TYPE
  | VDict _ => DICT_TYPE
  | VOrderedDict _ => ORDEREDDICT_TYPE
  | VSet _ => SET_TYPE
  | VFrozenset _ => FROZENSET_TYPE
  | VRange _ _ _ => RANGE_TYPE
  | VCounter _ => COUNTER_TYPE
  | VDeque _ _ => DEQUE_TYPE
  | VDefaultDict _ _ => DEFAULTDICT_TYPE
  | VChainMap _ => CHAINMAP_TYPE
  | VDictView _ _ => DICTVIEW_TYPE
  | VDecimal _ _ => DECIMAL_TYPE
  | VFraction _ => FRACTION_TYPE
  | VDate _ => DATE_TYPE
  | VDateTime _ _ => DATETIME_TYPE
  | VTime _ => TIME_TYPE
  | VTimeDelta _ => TIMEDELTA_TYPE
  | VTimeZone _ => TIMEZONE_TYPE
  | VHashDigest _ _ => HASHDIGEST_TYPE
  | VEnumMember _ _ _ _ => ENUMMEMBER_TYPE
  | _ => OBJECT_TYPE
  end.

(** The [name] column of the singletons. *)
Definition type_object_name (t : TypeObject) : string :=
  match t with
  | NONE_TYPE => "NoneType" | BOOL_TYPE => "bool" | INT_TYPE => "int" | FLOAT_TYPE => "float"
  | COMPLEX_TYPE => "complex" | STR_TYPE => "str" | BYTES_TYPE => "bytes"
  | BYTEARRAY_TYPE => "bytearray" | MEMORYVIEW_TYPE => "memoryview" | LIST_TYPE => "list"
  | TUPLE_TYPE => "tuple" | DICT_TYPE => "dict" | ORDEREDDICT_TYPE => "OrderedDict"
  | SET_TYPE => "set" | FROZENSET_TYPE => "frozenset" | RANGE_TYPE => "range"
  | COUNTER_TYPE => "Counter" | DEQUE_TYPE => "deque" | DEFAULTDICT_TYPE => "defaultdict"
  | CHAINMAP_TYPE => "ChainMap" | DICTVIEW_TYPE => "dict_view" | DECIMAL_TYPE => "Decimal"
  | FRACTION_TYPE => "Fraction" | DATE_TYPE => "date" | DATETIME_TYPE => "datetime"
  | TIME_TYPE => "time" | TIMEDELTA_TYPE => "timedelta" | TIMEZONE_TYPE => "timezone"
  | HASHDIGEST_TYPE => "_hashlib.HASH" | ENUMMEMBER_TYPE => "enum" | OBJECT_TYPE => "object"
  end%string.

(** * Equality slots

    [None] is [NotImplemented]. *)
Definition handled {A} (w : Walk A) : Walk (option A) := let! a := w in walk_ret (Some a).
Definition implemented {A} (a : A) : Walk (option A) := walk_ret (Some a).
Definition not_implemented {A} : Walk (option A) := walk_ret None.

Definition none_eq (rhs : Value) : Walk (option bool) :=
  implemented (match rhs with VNone => true | _ => false end).

Definition bool_eq (lhs rhs : Value) : Walk (option bool) :=
  match lhs, rhs with
  | VBool a, VBool b => implemented (Bool.eqb a b)
  | VBool a, (VInt i | VBigInt i) => implemented (i =? Z.b2z a)
  | VBool a, VFloat f => implemented (f64_eqb f (f64_of_Z (Z.b2z a)))
  | _, _ => not_implemented
  end.

Definition int_eq (lhs rhs : Value) : Walk (option bool) :=
  match value_as_bigint lhs with
  | None => not_implemented
  | Some a =>
      match rhs with
      | VInt _ | VBigInt _ | VBool _ =>
          match value_as_bigint rhs with Some b => implemented (a =? b) | None => not_implemented end
      | VFloat f =>
          implemented (match bigint_to_f64 a with Some af => f64_eqb f af | None => false end)
      | _ => not_implemented
      end
  end.

Definition float_eq (lhs rhs : Value) : Walk (option bool) :=
  match lhs, rhs with
  | VFloat a, VFloat b => implemented (f64_eqb a b)
  | VFloat a, VBool b => implemented (f64_eqb a (f64_of_Z (Z.b2z b)))
  | VFloat a, VInt i => implemented (f64_eqb a (f64_of_Z i))
  | _, _ => not_implemented
  end.

Definition str_eq (lhs rhs : Value) : Walk (option bool) :=
  match lhs, rhs with
  | VString a, VString b => implemented (bool_decide (a = b))
  | _, _ => not_implemented
  end.

Fixpoint bytes_view (h : Heap) (v : Value) : option (list Z) :=
  match v with
  | VBytes b => Some b
  | VByteArray l => Some (bytes_at h l)
  | VMemoryView inner => bytes_view h inner
  | _ => None
  end.

Definition bytes_eq (h : Heap) (lhs rhs : Value) : Walk (option bool) :=
  match bytes_view h lhs, bytes_view h rhs with
  | Some a, Some b => implemented (bool_decide (a = b))
  | _, _ => not_implemented
  end.

Definition value_to_complex (v : Value) : option (f64 * f64) :=
  match v with
  | VComplex re im => Some (re, im)
  | VFloat f => Some (f, f64_zero)
  | VInt i => Some (f64_of_Z i, f64_zero)
  | VBool b => Some (f64_of_Z (Z.b2z b), f64_zero)
  | VBigInt b => re ← bigint_to_f64 b; Some (re, f64_zero)
  | _ => None
  end.

Definition complex_eq (lhs rhs : Value) : Walk (option bool) :=
  match lhs, rhs with
  | VComplex _ _, _ | _, VComplex _ _ =>
      match value_to_complex lhs, value_to_complex rhs with
      | Some a, Some b => implemented (f64_eqb a.1 b.1 && f64_eqb a.2 b.2)
      | _, _ => implemented false
      end
  | _, _ => not_implemented
  end.

(** ** Decimals and fractions *)

Definition decimal_operand_kind (v : Value) : DecimalKind :=
  match v with VDecimal _ k => k | _ => Normal end.

Definition decimal_to_bigdecimal (v : Value) : option BigDecimal :=
  match v with
  | VDecimal d _ => Some d
  | VInt i | VBigInt i => Some (decimal_of_int i)
  | VBool b => Some (decimal_of_int (Z.b2z b))
  | _ => None
  end.

Definition fraction_to_bigrational (v : Value) : option BigRational :=
  match v with
  | VFraction f => Some f
  | VInt i | VBigInt i => Some (rational_from_integer i)
  | VBool b => Some (rational_from_integer (Z.b2z b))
  | _ => None
  end.

Definition float_to_bigrational (f : f64) : option BigRational :=
  if negb (f64_is_finite f) then None else
  let '(mantissa, exp, sign) := float_integer_decode f in
  let numer := mantissa * sign in
  if exp >=? 0 then Some (rational_from_integer (Z.shiftl numer exp))
  else Some (rational_new numer (Z.shiftl 1 (- exp))).

(** [u32::try_from]. *)
Definition as_u32 (n : Z) : option Z := if (0 <=? n) && (n <? 2 ^ 32) then Some n else None.

Definition decimal_to_bigrational (v : Value) : option BigRational :=
  match v with
  | VDecimal d _ =>
      let (mantissa, scale) := decimal_bigint_and_exponent d in
      if scale >=? 0 then e ← as_u32 scale; Some (rational_new mantissa (10 ^ e))
      else e ← as_u32 (- scale); Some (rational_from_integer (mantissa * 10 ^ e))
  | _ => None
  end.

Definition exact_rational (v : Value) : option BigRational :=
  match v with
  | VFloat f => float_to_bigrational f
  | VDecimal _ _ => decimal_to_bigrational v
  | _ => fraction_to_bigrational v
  end.

(** [Some] when both are, compared; a missing operand is [NotImplemented]. *)
Definition both {A} (f : A -> A -> bool) (a b : option A) : Walk (option bool) :=
  match a, b with Some a, Some b => implemented (f a b) | _, _ => not_implemented end.

Definition decimal_eq (lhs rhs : Value) : Walk (option bool) :=
  let ka := decimal_operand_kind lhs in
  let kb := decimal_operand_kind rhs in
  if is_special ka || is_special kb then
    if is_nan ka || is_nan kb then implemented false
    else implemented (match ka, kb with PosInf, PosInf | NegInf, NegInf => true | _, _ => false end)
  else
    match rhs with
    | VFloat _ | VFraction _ => both rational_eqb (decimal_to_bigrational lhs) (exact_rational rhs)
    | _ => both decimal_eqb (decimal_to_bigdecimal lhs) (decimal_to_bigdecimal rhs)
    end.

Definition fraction_eq (lhs rhs : Value) : Walk (option bool) :=
  match fraction_to_bigrational lhs with
  | None => not_implemented
  | Some a =>
      match rhs with
      | VFloat _ | VDecimal _ _ =>
          implemented (match exact_rational rhs with Some b => rational_eqb a b | None => false end)
      | _ =>
          match fraction_to_bigrational rhs with
          | Some b => implemented (rational_eqb a b)
          | None => not_implemented
          end
      end
  end.

(** ** Dictionary views *)

Definition alloc_frozenset (h : Heap) (items : list Value) : option (Value * Heap) :=
  b ← @from_items Value (elem h) items;
  let (l, h) := shared_set h b in Some (VFrozenset l, h).

(** [ValueKey::to_value]; a frozenset is rebuilt in a fresh table. *)
Fixpoint to_value (k : ValueKey) (h : Heap) : option (Value * Heap) :=
  let to_values := fix go (ks : list ValueKey) (h : Heap) : option (list Value * Heap) :=
    match ks with
    | [] => Some ([], h)
    | k :: ks =>
        '(v, h) ← to_value k h; '(vs, h) ← go ks h; Some (v :: vs, h)
    end in
  match k with
  | KNone => Some (VNone, h)
  | KEllipsis => Some (VEllipsis, h)
  | KBool b => Some (VBool b, h)
  | KInt i => Some (VInt i, h)
  | KBigInt i => Some (int_from_bigint i, h)
  | KFloat f => Some (VFloat f, h)
  | KComplex re im => Some (VComplex re im, h)
  | KString s => Some (VString s, h)
  | KTuple items => '(vs, h) ← to_values items h; Some (VTuple vs, h)
  | KFrozenset items => '(vs, h) ← to_values items h; alloc_frozenset h vs
  | KInstance _ v => Some (v, h)
  | KDate d => Some (VDate d, h)
  | KTime t => Some (VTime t, h)
  | KTimeDelta m => Some (VTimeDelta m, h)
  | KDateTime dt tz => Some (VDateTime dt tz, h)
  | KDecimal d => Some (VDecimal d Normal, h)
  | KFraction f => Some (VFraction f, h)
  end.

Fixpoint dictview_items (kind : DictViewKind) (es : list (ValueKey * Value)) (h : Heap) :
    option (list Value * Heap) :=
  match es with
  | [] => Some ([], h)
  | (k, v) :: es =>
      '(x, h) ← match kind with
                | Keys => to_value k h
                | DValues => Some (v, h)
                | Items => '(kv, h) ← to_value k h; Some (VTuple [kv; v], h)
                end;
      '(xs, h) ← dictview_items kind es h; Some (x :: xs, h)
  end.

(** What [dictview_eq] and [dictview_lt] compare: the elements of a view, a set
    or a frozenset. *)
Definition view_elems (held : Held) (h : Heap) (v : Value) : Walk (option (list Value) * Heap) :=
  match v with
  | VDictView l kind =>
      let! es := lock_dict held h l in
      match dictview_items kind es h with
      | Some (xs, h) => walk_ret (Some xs, h)
      | None => never
      end
  | _ => walk_ret (set_items h v, h)
  end.

(** ** Slots that compare elements

    [recurse] is [recurse_eq] and [equal] is [values_equal], at the depth the
    slot runs at. *)
Section Slots.
Variable recurse : Held -> Heap -> Value -> Value -> Walk bool.
Variable equal : Held -> Heap -> Value -> Value -> Walk bool.
Variable held : Held.
Variable h : Heap.

Definition elementwise_eq (a b : list Value) : Walk bool := zip_equal (recurse held h) a b.

Definition list_eq (lhs rhs : Value) : Walk (option bool) :=
  match lhs, rhs with
  | VList a, VList b =>
      if (a =? b)%nat then implemented true else
      let! a := lock_list held h a in let! b := lock_list held h b in handled (elementwise_eq a b)
  | _, _ => not_implemented
  end.

Definition tuple_eq (lhs rhs : Value) : Walk (option bool) :=
  match lhs, rhs with
  | VTuple a, VTuple b => handled (elementwise_eq a b)
  | _, _ => not_implemented
  end.

Definition dict_eq (lhs rhs : Value) : Walk (option bool) :=
  match as_dict lhs, as_dict rhs with
  | Some a, Some b =>
      if (a =? b)%nat then implemented true else
      let! a := lock_dict held h a in let! b := lock_dict held h b in
      handled (entries_equal (recurse held h) a b)
  | _, _ => not_implemented
  end.

Definition ordered_dict_eq (lhs rhs : Value) : Walk (option bool) :=
  match lhs, rhs with
  | VOrderedDict a, VOrderedDict b =>
      if (a =? b)%nat then implemented true else
      let! a := lock_dict held h a in let! b := lock_dict held h b in
      handled (ordered_equal (recurse held h) a b)
  | _, _ => dict_eq lhs rhs
  end.

Definition set_eq (lhs rhs : Value) : Walk (option bool) :=
  match set_items h lhs, set_items h rhs with
  | Some a, Some b => handled (set_equal (recurse held h) a b)
  | _, _ => not_implemented
  end.

(** The dict stays locked while the entries are compared. *)
Definition counter_eq (lhs rhs : Value) : Walk (option bool) :=
  match lhs, rhs with
  | VCounter a, VCounter b => handled (entries_equal (recurse held h) a b)
  | VCounter a, VDict l =>
      let! b := lock_dict held h l in
      handled (entries_equal
        (recurse (mkHeld (held_lists held) (l :: held_dicts held) (held_fields held)) h) a b)
  | _, _ => not_implemented
  end.

Definition deque_eq (lhs rhs : Value) : Walk (option bool) :=
  match lhs, rhs with
  | VDeque a _, VDeque b _ => handled (zip_equal (equal held h) a b)
  | _, _ => not_implemented
  end.

Definition dictview_eq (lhs rhs : Value) : Walk (option bool) :=
  let! ea := view_elems held h lhs in
  match ea with
  | (Some a, h1) =>
      let! eb := view_elems held h1 rhs in
      match eb with
      | (Some b, h2) => handled (set_equal (recurse held h2) a b)
      | (None, _) => not_implemented
      end
  | (None, _) => not_implemented
  end.

Definition object_eq (lhs rhs : Value) : Walk (option bool) := handled (equal held h lhs rhs).

(** The [eq_slot] column. *)
Definition eq_slot (t : TypeObject) (lhs rhs : Value) : Walk (option bool) :=
  match t with
  | NONE_TYPE => none_eq rhs
  | BOOL_TYPE => bool_eq lhs rhs
  | INT_TYPE => int_eq lhs rhs
  | FLOAT_TYPE => float_eq lhs rhs
  | COMPLEX_TYPE => complex_eq lhs rhs
  | STR_TYPE => str_eq lhs rhs
  | BYTES_TYPE | BYTEARRAY_TYPE | MEMORYVIEW_TYPE => bytes_eq h lhs rhs
  | LIST_TYPE => list_eq lhs rhs
  | TUPLE_TYPE => tuple_eq lhs rhs
  | DICT_TYPE => dict_eq lhs rhs
  | ORDEREDDICT_TYPE => ordered_dict_eq lhs rhs
  | SET_TYPE | FROZENSET_TYPE => set_eq lhs rhs
  | COUNTER_TYPE => counter_eq lhs rhs
  | DEQUE_TYPE => deque_eq lhs rhs
  | DEFAULTDICT_TYPE | CHAINMAP_TYPE => not_implemented
  | DICTVIEW_TYPE => dictview_eq lhs rhs
  | DECIMAL_TYPE => decimal_eq lhs rhs
  | FRACTION_TYPE => fraction_eq lhs rhs
  | RANGE_TYPE | DATE_TYPE | DATETIME_TYPE | TIME_TYPE | TIMEDELTA_TYPE | TIMEZONE_TYPE
  | HASHDIGEST_TYPE | ENUMMEMBER_TYPE | OBJECT_TYPE => object_eq lhs rhs
  end.

(** The left operand's slot, then the right operand's on the swapped pair. *)
Definition try_eq (lhs rhs : Value) : Walk bool :=
  let! r := eq_slot (type_of lhs) lhs rhs in
  match r with
  | Some b => walk_ret b
  | None =>
      let! r := eq_slot (type_of rhs) rhs lhs in
      walk_ret (default false r)
  end.
End Slots.

(** [recurse_eq]. *)
Fixpoint recurse_eq (depth : nat) (held : Held) (h : Heap) (lhs rhs : Value) : Walk bool := fun flag =>
  match depth with
  | O => Some (false, true)
  | S depth' =>
      try_eq (recurse_eq depth') (values_equal depth') held h lhs rhs
        (if (depth =? EQ_RECURSION_LIMIT)%nat then false else flag)
  end.

(** ** Ordering slots *)

Abbreviation Ordered := (EvalError + bool)%type.

Definition noimpl_lt : Walk (option Ordered) := not_implemented.
Definition lt_is (b : bool) : Walk (option Ordered) := implemented (inr b).

Definition date_lt (lhs rhs : Value) : Walk (option Ordered) :=
  match lhs, rhs with VDate a, VDate b => lt_is (date_ltb a b) | _, _ => not_implemented end.

Definition time_lt (lhs rhs : Value) : Walk (option Ordered) :=
  match lhs, rhs with VTime a, VTime b => lt_is (time_ltb a b) | _, _ => not_implemented end.

Definition timedelta_lt (lhs rhs : Value) : Walk (option Ordered) :=
  match lhs, rhs with VTimeDelta a, VTimeDelta b => lt_is (a <? b) | _, _ => not_implemented end.

Definition datetime_lt (lhs rhs : Value) : Walk (option Ordered) :=
  match lhs, rhs with
  | VDateTime a ta, VDateTime b tb =>
      match ta, tb with
      | None, None => lt_is (datetime_ltb a b)
      | Some oa, Some ob => lt_is (datetime_ltb (utc a oa) (utc b ob))
      | _, _ => implemented (inl (Interpreter
                  (TypeError "can't compare offset-naive and offset-aware datetimes")))
      end
  | _, _ => not_implemented
  end.

Definition bool_lt (lhs rhs : Value) : Walk (option Ordered) :=
  match lhs, rhs with
  | VBool a, VBool b => lt_is (Z.b2z a <? Z.b2z b)
  | VBool a, VInt b => lt_is (Z.b2z a <? b)
  | VBool a, VFloat b => lt_is (f64_ltb (f64_of_Z (Z.b2z a)) b)
  | _, _ => not_implemented
  end.

Definition int_lt (lhs rhs : Value) : Walk (option Ordered) :=
  match value_as_bigint lhs with
  | None => not_implemented
  | Some a =>
      match rhs with
      | VInt _ | VBigInt _ | VBool _ =>
          match value_as_bigint rhs with Some b => lt_is (a <? b) | None => not_implemented end
      | VFloat b => lt_is (match bigint_to_f64 a with Some af => f64_ltb af b | None => false end)
      | _ => not_implemented
      end
  end.

Definition float_lt (lhs rhs : Value) : Walk (option Ordered) :=
  match lhs, rhs with
  | VFloat a, VFloat b => lt_is (f64_ltb a b)
  | VFloat a, VBool b => lt_is (f64_ltb a (f64_of_Z (Z.b2z b)))
  | VFloat a, VInt b => lt_is (f64_ltb a (f64_of_Z b))
  | VFloat a, VBigInt b => lt_is (match bigint_to_f64 b with Some bf => f64_ltb a bf | None => false end)
  | _, _ => not_implemented
  end.

Definition str_lt (lhs rhs : Value) : Walk (option Ordered) :=
  match lhs, rhs with VString a, VString b => lt_is (str_ltb a b) | _, _ => not_implemented end.

Definition bytes_lt (h : Heap) (lhs rhs : Value) : Walk (option Ordered) :=
  match bytes_view h lhs, bytes_view h rhs with
  | Some a, Some b => lt_is (bytes_ltb a b)
  | _, _ => not_implemented
  end.

Definition f64_infinite (f : f64) : bool := match f with S754_infinity _ => true | _ => false end.

Definition tower_rank (v : Value) : Z :=
  match v with
  | VFloat f => if f64_infinite f then (if f64_ltb f64_zero f then 1 else -1) else 0
  | _ => 0
  end.

Definition is_nan_float (v : Value) : bool :=
  match v with VFloat f => f64_is_nan f | _ => false end.

Definition tower_partial_cmp (lhs rhs : Value) : option comparison :=
  if is_nan_float lhs || is_nan_float rhs then None
  else if (tower_rank lhs =? 0) && (tower_rank rhs =? 0) then
    a ← exact_rational lhs; b ← exact_rational rhs; Some (rational_compare a b)
  else Some (tower_rank lhs ?= tower_rank rhs).

Definition tower_lt (lhs rhs : Value) : bool :=
  match tower_partial_cmp lhs rhs with Some Lt => true | _ => false end.

Definition decimal_rank (k : DecimalKind) : Z :=
  match k with NegInf => -2 | PosInf => 2 | _ => 0 end.

Definition decimal_mixed (lhs rhs : Value) : bool :=
  match lhs, rhs with
  | VDecimal _ _, (VFloat _ | VFraction _) | (VFloat _ | VFraction _), VDecimal _ _ => true
  | _, _ => false
  end.

Definition decimal_lt (lhs rhs : Value) : Walk (option Ordered) :=
  let ka := decimal_operand_kind lhs in
  let kb := decimal_operand_kind rhs in
  if is_special ka || is_special kb then
    if is_nan ka || is_nan kb
    then implemented (inl (Exception (ExceptionValue_new "InvalidOperation" (name_text "comparison involving NaN"))))
    else lt_is (decimal_rank ka <? decimal_rank kb)
  else if decimal_mixed lhs rhs then lt_is (tower_lt lhs rhs)
  else match decimal_to_bigdecimal lhs, decimal_to_bigdecimal rhs with
       | Some a, Some b => lt_is (decimal_ltb a b)
       | _, _ => not_implemented
       end.

Definition fraction_mixed (lhs rhs : Value) : bool :=
  match lhs, rhs with
  | VFraction _, (VFloat _ | VDecimal _ _) | (VFloat _ | VDecimal _ _), VFraction _ => true
  | _, _ => false
  end.

Definition fraction_lt (lhs rhs : Value) : Walk (option Ordered) :=
  if fraction_mixed lhs rhs then lt_is (tower_lt lhs rhs)
  else match fraction_to_bigrational lhs, fraction_to_bigrational rhs with
       | Some a, Some b => lt_is (match rational_compare a b with Lt => true | _ => false end)
       | _, _ => not_implemented
       end.

(** Sets and views: the proper-subset test. These run outside any enclosing
    equality walk, so [recurse_eq] starts at the full depth. *)
Definition set_lt (held : Held) (h : Heap) (lhs rhs : Value) : Walk (option Ordered) :=
  match set_items h lhs, set_items h rhs with
  | Some a, Some b =>
      let! p := proper_subset (recurse_eq EQ_RECURSION_LIMIT held h) a b in lt_is p
  | _, _ => not_implemented
  end.

Definition dictview_lt (held : Held) (h : Heap) (lhs rhs : Value) : Walk (option Ordered) :=
  let! ea := view_elems held h lhs in
  match ea with
  | (Some a, h1) =>
      let! eb := view_elems held h1 rhs in
      match eb with
      | (Some b, h2) =>
          let! p := proper_subset (recurse_eq EQ_RECURSION_LIMIT held h2) a b in lt_is p
      | (None, _) => not_implemented
      end
  | (None, _) => not_implemented
  end.

Definition compared_type_name (v : Value) : string :=
  match v with VInstance class_name _ => class_name | _ => type_object_name (type_of v) end.

Definition type_error_unsupported (op : string) (lhs rhs : Value) : EvalError :=
  Interpreter (TypeError ("'" ++ op ++ "' not supported between instances of '"
    ++ compared_type_name lhs ++ "' and '" ++ compared_type_name rhs ++ "'")).

Definition unwrap_enum_for_compare (v : Value) : Value :=
  match v with VEnumMember _ _ inner (EInt | EStr) => inner | _ => v end.

Definition is_unwrapped (v : Value) : bool :=
  match v with VEnumMember _ _ _ (EInt | EStr) => false | _ => true end.

(** ** Lists and tuples

    [lt] is [dispatch_lt], one level down. *)
Section Lex.
Variable lt : Held -> Heap -> Value -> Value -> Walk Ordered.
Variable held : Held.
Variable h : Heap.

(** The loop of [lex_lt]; [shorter] is its answer when no pair decides. *)
Fixpoint lex_pairs (a b : list Value) (shorter : bool) : Walk Ordered :=
  match a, b with
  | x :: a, y :: b =>
      let! eq := recurse_eq EQ_RECURSION_LIMIT held h x y in
      if eq : bool then lex_pairs a b shorter else lt held h x y
  | _, _ => walk_ret (inr shorter)
  end.

Definition lex_lt (a b : list Value) : Walk Ordered := lex_pairs a b (length a <? length b)%nat.

Definition tuple_lt (lhs rhs : Value) : Walk (option Ordered) :=
  match lhs, rhs with
  | VTuple a, VTuple b => handled (lex_lt a b)
  | _, _ => not_implemented
  end.
End Lex.

(** Both lists stay locked while their elements are compared. *)
Definition list_lt (lt : Held -> Heap -> Value -> Value -> Walk Ordered) (held : Held) (h : Heap)
    (lhs rhs : Value) : Walk (option Ordered) :=
  match lhs, rhs with
  | VList a, VList b =>
      if (a =? b)%nat then lt_is false else
      let! xs := lock_list held h a in let! ys := lock_list held h b in
      handled (lex_lt lt (mkHeld (a :: b :: held_lists held) (held_dicts held) (held_fields held)) h xs ys)
  | _, _ => not_implemented
  end.

(** The [lt_slot] column. *)
Definition lt_slot (lt : Held -> Heap -> Value -> Value -> Walk Ordered) (held : Held) (h : Heap)
    (t : TypeObject) (lhs rhs : Value) : Walk (option Ordered) :=
  match t with
  | BOOL_TYPE => bool_lt lhs rhs
  | INT_TYPE => int_lt lhs rhs
  | FLOAT_TYPE => float_lt lhs rhs
  | STR_TYPE => str_lt lhs rhs
  | BYTES_TYPE | BYTEARRAY_TYPE | MEMORYVIEW_TYPE => bytes_lt h lhs rhs
  | LIST_TYPE => list_lt lt held h lhs rhs
  | TUPLE_TYPE => tuple_lt lt held h lhs rhs
  | SET_TYPE | FROZENSET_TYPE => set_lt held h lhs rhs
  | DICTVIEW_TYPE => dictview_lt held h lhs rhs
  | DECIMAL_TYPE => decimal_lt lhs rhs
  | FRACTION_TYPE => fraction_lt lhs rhs
  | DATE_TYPE => date_lt lhs rhs
  | DATETIME_TYPE => datetime_lt lhs rhs
  | TIME_TYPE => time_lt lhs rhs
  | TIMEDELTA_TYPE => timedelta_lt lhs rhs
  | _ => noimpl_lt
  end.

(** [dispatch_lt], which [compare_lt] wraps: the left operand's slot, then the
    right one's on the same pair. *)
Fixpoint dispatch_lt (fuel : nat) (held : Held) (h : Heap) (lhs rhs : Value) : Walk Ordered :=
  match fuel with
  | O => never
  | S fuel =>
      if is_unwrapped lhs && is_unwrapped rhs then
        let! r := lt_slot (dispatch_lt fuel) held h (type_of lhs) lhs rhs in
        match r with
        | Some result => walk_ret result
        | None =>
            let! r := lt_slot (dispatch_lt fuel) held h (type_of rhs) lhs rhs in
            match r with
            | Some result => walk_ret result
            | None => walk_ret (inl (type_error_unsupported "<" lhs rhs))
            end
        end
      else dispatch_lt fuel held h (unwrap_enum_for_compare lhs) (unwrap_enum_for_compare rhs)
  end.

(** [recurse_eq]'s users that are membership tests. *)
Definition sequence_contains (held : Held) (h : Heap) (container item : Value) : Walk bool :=
  match container with
  | VList l =>
      let! snapshot := lock_list held h l in
      any_walk (fun entry => recurse_eq EQ_RECURSION_LIMIT held h item entry) snapshot
  | VSet l | VFrozenset l =>
      match sets h !! l with
      | Some b => match @body_contains Value (elem h) b item with Some r => walk_ret r | None => never end
      | None => walk_ret false
      end
  | VTuple items => any_walk (fun entry => recurse_eq EQ_RECURSION_LIMIT held h item entry) items
  | _ => never
  end.

(** [value_compare_lt] is [compare_lt], and each walk at the top starts with
    nothing locked. *)
Definition value_compare_lt (fuel : nat) (h : Heap) (left right : Value) : Walk Ordered :=
  dispatch_lt fuel none_held h left right.

(** * Equality of instances, and the operators *)
Section Operators.
Variable classes : gmap string ClassValue.

Definition namedtuple_field_values (held : Held) (h : Heap) (class_name : string) (fields : loc) :
    Walk (option (list Value)) :=
  match (c ← classes !! class_name; class_attrs c !! "_fields") with
  | Some (VTuple names) =>
      let! fs := lock_fields held h fields in
      implemented (map (fun name => match name with
                                    | VString n => default VNone (field_get fs (text_name n))
                                    | _ => VNone
                                    end) names)
  | _ => not_implemented
  end.

(** The fields a synthesized dataclass [__eq__] compares, when the class has
    one. *)
Definition dataclass_eq_fields (class_name : string) : option (list DataclassField) :=
  c ← classes !! class_name;
  fields ← dataclass_fields c;
  if methods c !! "__eq__" is Some _ then None
  else Some (List.filter (fun f => df_compare f && negb (df_init_only f)) fields).

(** [dispatch_eq]. Both instances stay locked while their fields are
    compared. *)
Fixpoint dispatch_eq (fuel : nat) (held : Held) (h : Heap) (lhs rhs : Value) : Walk bool :=
  match fuel with
  | O => never
  | S fuel =>
      let by_type := try_eq (recurse_eq EQ_RECURSION_LIMIT) (values_equal EQ_RECURSION_LIMIT) held h lhs rhs in
      let by_identity (fields : loc) :=
        walk_ret (match rhs with VInstance _ other => (fields =? other)%nat | _ => false end) in
      let as_tuple (class_name : string) (fields : loc) :=
        let! lhs_fields := namedtuple_field_values held h class_name fields in
        match lhs_fields with
        | None => by_identity fields
        | Some lhs_fields =>
            let! rhs_elems := match rhs with
              | VTuple items => implemented items
              | VInstance other_name other => namedtuple_field_values held h other_name other
              | _ => not_implemented
              end in
            match rhs_elems with
            | Some rhs_elems => zip_equal (dispatch_eq fuel held h) lhs_fields rhs_elems
            | None => walk_ret false
            end
        end in
      match lhs with
      | VInstance class_name fields =>
          match rhs with
          | VInstance other_name other =>
              match (if bool_decide (class_name = other_name) then dataclass_eq_fields class_name else None) with
              | Some dfs =>
                  if (fields =? other)%nat then walk_ret true else
                  let! af := lock_fields held h fields in
                  let! bf := lock_fields held h other in
                  let held := mkHeld (held_lists held) (held_dicts held) (fields :: other :: held_fields held) in
                  all_walk (fun f =>
                    match field_get af (df_name f), field_get bf (df_name f) with
                    | Some a, Some b => dispatch_eq fuel held h a b
                    | None, None => walk_ret true
                    | _, _ => walk_ret false
                    end) dfs
              | None => as_tuple class_name fields
              end
          | _ => as_tuple class_name fields
          end
      | _ => by_type
      end
  end.

Inductive CmpOp : Type := OpEq | OpNotEq | OpLt | OpLtE | OpGt | OpGtE.

Definition eq_via_dispatch (fuel : nat) (h : Heap) (left right : Value) : Walk bool :=
  dispatch_eq fuel none_held h left right.

(** An ordering answer, or its equality half. *)
Definition or_equal (lt : Walk Ordered) (eq : Walk bool) : Walk Ordered :=
  let! r := lt in
  match r with
  | inr false => let! b := eq in walk_ret (inr b)
  | _ => walk_ret r
  end.

(** [compare_builtin]; the flag is taken (read and cleared) when the operator
    has an answer. *)
Definition compare_builtin (fuel : nat) (h : Heap) (op : CmpOp) (left right : Value) : Walk Ordered :=
  let eq := eq_via_dispatch fuel h left right in
  let! result := match op with
    | OpEq => let! b := eq in walk_ret (inr b)
    | OpNotEq => let! b := eq in walk_ret (inr (negb b))
    | OpLt => dispatch_lt fuel none_held h left right
    | OpLtE => or_equal (dispatch_lt fuel none_held h left right) eq
    | OpGt => dispatch_lt fuel none_held h right left
    | OpGtE => or_equal (dispatch_lt fuel none_held h right left) eq
    end in
  match result with
  | inl e => walk_ret (inl e)
  | inr b => fun overflow =>
      if overflow : bool then Some (inl (Interpreter (RecursionLimitExceeded (Z.of_nat EQ_RECURSION_LIMIT))), false)
      else Some (inr b, false)
  end.
End Operators.

(** ** Identity *)

Definition numeric_is_kind (v : Value) : option Z :=
  match v with
  | VBool _ => Some 0
  | VInt _ | VBigInt _ => Some 1
  | VFloat _ => Some 2
  | VComplex _ _ => Some 3
  | _ => None
  end.

(** The types whose identity is never equality. *)
Definition is_reference (v : Value) : bool :=
  match v with
  | VList _ | VInstance _ _ | VFunction _ | VLambda _ | VLruCache _ | VGenerator _ | VLazy _ _ _
  | VBuiltinIter _ _ | VSet _ | VFrozenset _ | VDict _ | VOrderedDict _ | VByteArray _ | VArray _ _ => true
  | _ => false
  end.

Definition values_is (h : Heap) (left right : Value) : Walk bool :=
  match left, right with
  | VList a, VList b | VInstance _ a, VInstance _ b | VFunction a, VFunction b
  | VLambda a, VLambda b | VLruCache a, VLruCache b | VSet a, VSet b | VFrozenset a, VFrozenset b
  | VDict a, VDict b | VOrderedDict a, VOrderedDict b | VByteArray a, VByteArray b
  | VArray _ a, VArray _ b => walk_ret (a =? b)%nat
  | VGenerator a, VGenerator b | VLazy _ a _, VLazy _ b _ | VBuiltinIter a _, VBuiltinIter b _ =>
      walk_ret (a =? b)
  | _, _ =>
      if is_reference left || is_reference right then walk_ret false
      else match numeric_is_kind left, numeric_is_kind right with
           | Some a, Some b =>
               if negb (a =? b) then walk_ret false
               else values_equal EQ_RECURSION_LIMIT none_held h left right
           | _, _ => values_equal EQ_RECURSION_LIMIT none_held h left right
           end
  end.
End Comparing.
