(* ===== verification/CompareThms.v ===== *)
(** Properties of the comparison of values: UTF-8 order is code-point order,
    values of one comparable shape are totally ordered by [<] and agree with
    [==], and the depth limit of equality is exact unless it is flagged. *)
From Stdlib Require Import ZArith Lia Ascii String SpecFloat.
From stdpp Require Import base tactics list numbers option strings gmap.
From S2P Require Import Prelude PySet Values Errors F64 Keys Classes Slices Compare Heapq HeapqThms.

(** * Lawful comparisons *)

(** A three-way comparison that is reflexive, antisymmetric in its arguments
    and transitive on the values [P] admits. *)
Class CmpLaws {A} (P : A -> Prop) (cmp : A -> A -> comparison) : Prop := {
  cmp_refl : forall x, P x -> cmp x x = Eq;
  cmp_opp : forall x y, P x -> P y -> cmp y x = CompOpp (cmp x y);
  cmp_trans : forall x y z, P x -> P y -> P z -> cmp x y <> Gt -> cmp y z <> Gt -> cmp x z <> Gt
}.

Section CmpFacts.
Context {A} (P : A -> Prop) (cmp : A -> A -> comparison) `{!CmpLaws P cmp}.

Lemma cmp_eq_l x y z : P x -> P y -> P z -> cmp x y = Eq -> cmp x z = cmp y z.
Proof.
  intros Hx Hy Hz Exy. pose proof (cmp_opp x y Hx Hy) as Eyx. rewrite Exy in Eyx. cbn in Eyx.
  pose proof (cmp_trans x y z Hx Hy Hz). pose proof (cmp_trans y x z Hy Hx Hz).
  pose proof (cmp_trans z x y Hz Hx Hy). pose proof (cmp_trans z y x Hz Hy Hx).
  pose proof (cmp_opp x z Hx Hz) as E1. pose proof (cmp_opp y z Hy Hz) as E2.
  rewrite Exy, Eyx, E1, E2 in *.
  destruct (cmp x z), (cmp y z); cbn in *; try done; exfalso; naive_solver.
Qed.

Lemma cmp_eq_r x y z : P x -> P y -> P z -> cmp x y = Eq -> cmp z x = cmp z y.
Proof.
  intros Hx Hy Hz E. rewrite (cmp_opp x z), (cmp_opp y z) by done. by rewrite (cmp_eq_l x y z).
Qed.
End CmpFacts.

Lemma Z_cmp_laws : CmpLaws (fun _ => True) Z.compare.
Proof.
  constructor; intros.
  - apply Z.compare_refl.
  - apply Z.compare_antisym.
  - rewrite Z.compare_le_iff in *. lia.
Qed.

(** Lexicographic comparison, a proper prefix being less. *)
Fixpoint lex_cmp {A} (cmp : A -> A -> comparison) (a b : list A) : comparison :=
  match a, b with
  | [], [] => Eq
  | [], _ :: _ => Lt
  | _ :: _, [] => Gt
  | x :: a, y :: b => match cmp x y with Eq => lex_cmp cmp a b | c => c end
  end.

Lemma then_cmp_laws {A B} (P : A -> Prop) (Q : B -> Prop) f g x1 x2 x3 (y1 y2 y3 : B) :
  CmpLaws P f -> P x1 -> P x2 -> P x3 ->
  (g y1 y2 <> Gt -> g y2 y3 <> Gt -> g y1 y3 <> Gt) ->
  (match f x1 x2 with Eq => g y1 y2 | c => c end) <> Gt ->
  (match f x2 x3 with Eq => g y2 y3 | c => c end) <> Gt ->
  (match f x1 x3 with Eq => g y1 y3 | c => c end) <> Gt.
Proof.
  intros L H1 H2 H3 Hg.
  pose proof (cmp_trans x1 x2 x3 H1 H2 H3) as T.
  pose proof (cmp_eq_l P f x1 x2 x3 H1 H2 H3) as El.
  pose proof (cmp_eq_r P f x2 x3 x1 H2 H3 H1) as Er.
  destruct (f x1 x2) eqn:E12; [rewrite (El eq_refl)|..].
  - destruct (f x2 x3); auto.
  - destruct (f x2 x3) eqn:E23; [rewrite <- (Er eq_refl)|..].
    + done.
    + destruct (f x1 x3) eqn:E13; [|done|intros; apply T; congruence].
      pose proof (cmp_eq_l P f x1 x3 x2 H1 H3 H2 E13) as E.
      rewrite (cmp_opp x2 x3), E23, E12 in E by done. done.
    + done.
  - done.
Qed.

Lemma lex_cmp_laws {A} (P : A -> Prop) cmp : CmpLaws P cmp -> CmpLaws (Forall P) (lex_cmp cmp).
Proof.
  intros L. constructor.
  - induction x as [|x xs IH]; intros Hp; [done|]. apply Forall_cons in Hp as [??]. cbn.
    rewrite cmp_refl by done. auto.
  - induction x as [|x xs IH]; intros [|y ys] Hx Hy; [done..|].
    apply Forall_cons in Hx as [??]. apply Forall_cons in Hy as [??]. cbn.
    rewrite (cmp_opp x y) by done. destruct (cmp x y); cbn; auto.
  - induction x as [|x xs IH]; intros [|y ys] [|z zs] Hx Hy Hz; try done.
    apply Forall_cons in Hx as [??]. apply Forall_cons in Hy as [??]. apply Forall_cons in Hz as [??]. cbn.
    eapply (then_cmp_laws P (Forall P)); eauto.
Qed.

(** * UTF-8 order *)

(** The Unicode scalar values a Rust [char] can be lie below [0x110000]. *)
Definition scalar (c : Z) : Prop := 0 <= c < 1114112.

Lemma bytes_ltb_app p a b : bytes_ltb (p ++ a) (p ++ b) = bytes_ltb a b.
Proof. induction p as [|x p IH]; [done|]. cbn. by rewrite Z.ltb_irrefl, Z.eqb_refl, IH. Qed.

Lemma bytes_ltb_head c d a b : c <> d -> bytes_ltb (c :: a) (d :: b) = (c <? d).
Proof. intros H. cbn. apply Z.eqb_neq in H. rewrite H. by destruct (c <? d). Qed.

(** The first byte two encodings differ in has the order of the characters. *)
Lemma utf8_first_difference x y : scalar x -> scalar y -> x < y ->
  exists p c d s t, utf8_bytes x = p ++ c :: s /\ utf8_bytes y = p ++ d :: t /\ c < d.
Proof.
  unfold scalar, utf8_bytes. intros Hx Hy Hlt.
  repeat case_match;
    repeat match goal with H : (_ <? _) = _ |- _ => reflect H end; try lia;
    try (exists []; cbn; do 4 eexists; split_and!; [reflexivity|reflexivity|
           Z.to_euclidean_division_equations; lia]).
  - destruct (Z.eq_dec (x / 64) (y / 64)) as [E|E].
    + exists [192 + y / 64]. rewrite E. cbn. do 4 eexists. split_and!; [done..|].
      Z.to_euclidean_division_equations; lia.
    + exists []. cbn. do 4 eexists. split_and!; [done..|]. Z.to_euclidean_division_equations; lia.
  - destruct (Z.eq_dec (x / 4096) (y / 4096)) as [E|E].
    + rewrite E. destruct (Z.eq_dec (x / 64 mod 64) (y / 64 mod 64)) as [E2|E2].
      * exists [224 + y / 4096; 128 + y / 64 mod 64]. rewrite E2. cbn. do 4 eexists.
        split_and!; [done..|]. Z.to_euclidean_division_equations; lia.
      * exists [224 + y / 4096]. cbn. do 4 eexists. split_and!; [done..|].
        Z.to_euclidean_division_equations; lia.
    + exists []. cbn. do 4 eexists. split_and!; [done..|]. Z.to_euclidean_division_equations; lia.
  - destruct (Z.eq_dec (x / 262144) (y / 262144)) as [E|E].
    + rewrite E. destruct (Z.eq_dec (x / 4096 mod 64) (y / 4096 mod 64)) as [E2|E2].
      * rewrite E2. destruct (Z.eq_dec (x / 64 mod 64) (y / 64 mod 64)) as [E3|E3].
        -- exists [240 + y / 262144; 128 + y / 4096 mod 64; 128 + y / 64 mod 64]. rewrite E3. cbn.
           do 4 eexists. split_and!; [done..|]. Z.to_euclidean_division_equations; lia.
        -- exists [240 + y / 262144; 128 + y / 4096 mod 64]. cbn. do 4 eexists. split_and!; [done..|].
           Z.to_euclidean_division_equations; lia.
      * exists [240 + y / 262144]. cbn. do 4 eexists. split_and!; [done..|].
        Z.to_euclidean_division_equations; lia.
    + exists []. cbn. do 4 eexists. split_and!; [done..|]. Z.to_euclidean_division_equations; lia.
Qed.

Lemma utf8_ltb x y s t : scalar x -> scalar y -> x <> y ->
  bytes_ltb (utf8_bytes x ++ s) (utf8_bytes y ++ t) = (x <? y).
Proof.
  intros Hx Hy Hne. destruct (Z.lt_total x y) as [H|[H|H]]; [|done|].
  - destruct (utf8_first_difference x y) as (p & c & d & u & v & -> & -> & ?); [done..|].
    rewrite <- !app_assoc, bytes_ltb_app. cbn [app]. rewrite bytes_ltb_head by lia.
    transitivity true; [by apply Z.ltb_lt|symmetry; by apply Z.ltb_lt].
  - destruct (utf8_first_difference y x) as (p & c & d & u & v & -> & -> & ?); [done..|].
    rewrite <- !app_assoc, bytes_ltb_app. cbn [app]. rewrite bytes_ltb_head by lia.
    transitivity false; [|symmetry]; apply Z.ltb_ge; lia.
Qed.

Definition is_lt (c : comparison) : bool := match c with Lt => true | _ => false end.
Definition is_eq (c : comparison) : bool := match c with Eq => true | _ => false end.

Lemma bytes_ltb_lex a b : bytes_ltb a b = is_lt (lex_cmp Z.compare a b).
Proof.
  revert b. induction a as [|x a IH]; intros [|y b]; [done..|]. cbn. rewrite IH.
  rewrite Z.eqb_compare. unfold Z.ltb. by destruct (x ?= y); destruct (lex_cmp _ a b).
Qed.

Lemma utf8_nonempty c : utf8_bytes c <> [].
Proof. unfold utf8_bytes. by repeat case_match. Qed.

Lemma str_ltb_lex a b : Forall scalar a -> Forall scalar b ->
  str_ltb a b = is_lt (lex_cmp Z.compare a b).
Proof.
  unfold str_ltb. revert b. induction a as [|x a IH]; intros [|y b] Ha Hb; [done| | |].
  - cbn. pose proof (utf8_nonempty y). by destruct (utf8_bytes y).
  - cbn. pose proof (utf8_nonempty x). by destruct (utf8_bytes x).
  - apply Forall_cons in Ha as [Hx Ha]. apply Forall_cons in Hb as [Hy Hb]. cbn.
    destruct (Z.compare_spec x y) as [->|H|H].
    + rewrite bytes_ltb_app. auto.
    + rewrite utf8_ltb by (done || lia). by apply Z.ltb_lt.
    + rewrite utf8_ltb by (done || lia). apply Z.ltb_ge. lia.
Qed.

Lemma lex_cmp_eq a b : is_eq (lex_cmp Z.compare a b) = bool_decide (a = b).
Proof.
  revert b. induction a as [|x a IH]; intros [|y b]; [done..|]. cbn.
  destruct (Z.compare_spec x y) as [->|H|H].
  - rewrite IH. apply bool_decide_ext. naive_solver.
  - symmetry. apply bool_decide_eq_false. intros [= -> _]. lia.
  - symmetry. apply bool_decide_eq_false. intros [= -> _]. lia.
Qed.

(** * Shapes

    What sorting and searching are used on: integers of any width, texts, byte
    strings, and tuples of these, position by position. *)
Inductive Shape : Type :=
| SInt | SStr | SBytes
| STuple (r : Row)
with Row : Type :=
| RNil
| RAll (s : Shape)
| RCons (s : Shape) (r : Row).

Scheme Shape_rec2 := Induction for Shape Sort Prop
  with Row_rec2 := Induction for Row Sort Prop.
Combined Scheme Shape_Row_ind from Shape_rec2, Row_rec2.

(** The nesting of a shape. *)
Fixpoint shape_depth (s : Shape) : nat :=
  match s with STuple r => S (row_depth r) | _ => 1 end
with row_depth (r : Row) : nat :=
  match r with
  | RNil => 0
  | RAll s => shape_depth s
  | RCons s r => Nat.max (shape_depth s) (row_depth r)
  end.

Section Shapes.
Context `{External}.

Definition int_like (v : Value) : option Z :=
  match v with VInt i | VBigInt i => Some i | VBool b => Some (Z.b2z b) | _ => None end.

Fixpoint has_shape (s : Shape) (v : Value) {struct s} : Prop :=
  match s with
  | SInt => is_Some (int_like v)
  | SStr => match v with VString t => Forall scalar t | _ => False end
  | SBytes => match v with VBytes _ => True | _ => False end
  | STuple r => match v with VTuple vs => fits r vs | _ => False end
  end
with fits (r : Row) (vs : list Value) {struct r} : Prop :=
  match r with
  | RNil => vs = []
  | RAll s => Forall (has_shape s) vs
  | RCons s r => match vs with [] => True | v :: vs => has_shape s v /\ fits r vs end
  end.

(** The order of Python on values of a shape. *)
Fixpoint shape_cmp (s : Shape) (x y : Value) {struct s} : comparison :=
  match s with
  | SInt => match int_like x, int_like y with Some a, Some b => a ?= b | _, _ => Eq end
  | SStr => match x, y with VString a, VString b => lex_cmp Z.compare a b | _, _ => Eq end
  | SBytes => match x, y with VBytes a, VBytes b => lex_cmp Z.compare a b | _, _ => Eq end
  | STuple r => match x, y with VTuple a, VTuple b => row_cmp r a b | _, _ => Eq end
  end
with row_cmp (r : Row) (a b : list Value) {struct r} : comparison :=
  match r with
  | RNil => Eq
  | RAll s => lex_cmp (shape_cmp s) a b
  | RCons s r =>
      match a, b with
      | [], [] => Eq
      | [], _ :: _ => Lt
      | _ :: _, [] => Gt
      | x :: a, y :: b => match shape_cmp s x y with Eq => row_cmp r a b | c => c end
      end
  end.

Lemma shape_str v : has_shape SStr v <-> exists t, v = VString t /\ Forall scalar t.
Proof. split; [destruct v; naive_solver | by intros (t & -> & ?)]. Qed.

Lemma shape_bytes v : has_shape SBytes v <-> exists t, v = VBytes t.
Proof. split; [destruct v; naive_solver | by intros (t & ->)]. Qed.

Lemma shape_tuple r v : has_shape (STuple r) v <-> exists vs, v = VTuple vs /\ fits r vs.
Proof. split; [destruct v; naive_solver | by intros (t & -> & ?)]. Qed.

(** A comparison through a projection. *)
Lemma proj_laws {A B} (P : A -> Prop) (Q : B -> Prop) (make : B -> A) f g :
  (forall x, P x -> exists b, x = make b /\ Q b) -> (forall b c, f (make b) (make c) = g b c) ->
  CmpLaws Q g -> CmpLaws P f.
Proof.
  intros HP Hf L. constructor.
  - intros x (b & -> & ?)%HP. rewrite Hf. by apply cmp_refl.
  - intros x y (b & -> & ?)%HP (c & -> & ?)%HP. rewrite !Hf. by apply cmp_opp.
  - intros x y z (b & -> & ?)%HP (c & -> & ?)%HP (d & -> & ?)%HP. rewrite !Hf. by apply cmp_trans.
Qed.

Lemma text_cmp_laws (P : list Z -> Prop) : CmpLaws P (lex_cmp Z.compare).
Proof.
  apply (proj_laws P (Forall (fun _ => True)) id _ (lex_cmp Z.compare)); [|done|].
  - intros x _. exists x. split; [done|]. by apply Forall_true.
  - apply lex_cmp_laws, Z_cmp_laws.
Qed.

Lemma shape_row_laws :
  (forall s, CmpLaws (has_shape s) (shape_cmp s)) /\ (forall r, CmpLaws (fits r) (row_cmp r)).
Proof.
  apply Shape_Row_ind.
  - constructor; cbn.
    + intros x [a ->]. apply Z.compare_refl.
    + intros x y [a ->] [b ->]. apply Z.compare_antisym.
    + intros x y z [a ->] [b ->] [c ->] ??. rewrite Z.compare_le_iff in *. lia.
  - apply (proj_laws _ (Forall scalar) VString _ (lex_cmp Z.compare)); [|done|apply text_cmp_laws].
    intros x. by rewrite shape_str.
  - apply (proj_laws _ (fun _ => True) VBytes _ (lex_cmp Z.compare)); [|done|apply text_cmp_laws].
    intros x (t & ->)%shape_bytes. by exists t.
  - intros r L. apply (proj_laws _ (fits r) VTuple _ (row_cmp r)); [|done..].
    intros x. by rewrite shape_tuple.
  - constructor; done.
  - intros s L. cbn. by apply lex_cmp_laws.
  - intros s Ls r Lr. constructor; cbn.
    + intros [|x xs]; [done|]. intros [??]. rewrite cmp_refl by done. by apply cmp_refl.
    + intros [|x xs] [|y ys]; try done. intros [??] [??]. rewrite (cmp_opp x y) by done.
      destruct (shape_cmp s x y); [|done..]. by apply cmp_opp.
    + intros [|x xs] [|y ys] [|z zs]; try done. intros [??] [??] [??].
      apply (then_cmp_laws (has_shape s) (fits r)); [done..|]. by apply cmp_trans.
Qed.

#[export] Instance shape_laws s : CmpLaws (has_shape s) (shape_cmp s).
Proof. apply shape_row_laws. Qed.

Lemma row_cmp_length r a b : fits r a -> fits r b -> row_cmp r a b = Eq -> length a = length b.
Proof.
  revert a b. induction r as [|s|s r IH]; intros a b; cbn.
  - by intros -> ->.
  - intros _ _. revert b. induction a as [|x a IHa]; intros [|y b]; cbn; try done.
    case_match; try done. intros. f_equal. auto.
  - destruct a as [|x a], b as [|y b]; cbn; try done. intros [??] [??].
    case_match; try done. intros. f_equal. auto.
Qed.
End Shapes.

(** * Equality and order on a shape *)

(** A walk that returns [a], and does not raise the overflow flag. *)
Definition clean {A} (w : Walk A) (a : A) : Prop :=
  forall flag, exists flag', w flag = Some (a, flag') /\ (flag = false -> flag' = false).

Lemma clean_ret {A} (a : A) : clean (walk_ret a) a.
Proof. intros flag. by exists flag. Qed.

Lemma clean_bind {A B} (w : Walk A) (k : A -> Walk B) a b :
  clean w a -> clean (k a) b -> clean (walk_bind w k) b.
Proof.
  intros Hw Hk flag. destruct (Hw flag) as (f1 & E1 & C1). destruct (Hk f1) as (f2 & E2 & C2).
  exists f2. unfold walk_bind. rewrite E1. auto.
Qed.

Lemma clean_eq {A} (w : Walk A) a b : clean w a -> a = b -> clean w b.
Proof. by intros ? <-. Qed.

Create HintDb walks.
#[export] Hint Resolve clean_ret clean_bind : walks.

Section Ordered.
Context `{External} `{!ExternalOrder}.
Variable structural : Value -> Value -> bool.
Variable elem : Heap -> SetElem Value.
#[local] Opaque EQ_RECURSION_LIMIT.

Abbreviation eq_rec := (recurse_eq structural elem).
Abbreviation lt_rec := (dispatch_lt structural elem).

(** One level of [recurse_eq]. *)
Lemma recurse_eq_step d held h x y b :
  clean (try_eq structural elem (eq_rec d) (values_equal structural d) held h x y) b ->
  clean (eq_rec (S d) held h x y) b.
Proof.
  intros Hc flag. cbn -[Nat.eqb].
  destruct (Hc (if (S d =? EQ_RECURSION_LIMIT)%nat then false else flag)) as (f & E & Hf).
  exists f. split; [done|]. intros ->. apply Hf. by case_match.
Qed.

(** ** Equality *)

Definition eq_on (s : Shape) : Prop := forall d held h x y, (shape_depth s <= d)%nat ->
  has_shape s x -> has_shape s y -> clean (eq_rec d held h x y) (is_eq (shape_cmp s x y)).

Lemma int_like_cases v : is_Some (int_like v) ->
  (exists i, v = VInt i) \/ (exists i, v = VBigInt i) \/ (exists b, v = VBool b).
Proof. intros [? E]. destruct v; try discriminate; eauto. Qed.

Lemma is_eq_Z a b : is_eq (a ?= b) = (a =? b).
Proof. by rewrite Z.eqb_compare; destruct (a ?= b). Qed.

Lemma eq_on_int : eq_on SInt.
Proof.
  intros [|d] held h x y Hd Hx Hy; [cbn in Hd; lia|]. apply recurse_eq_step.
  destruct (int_like_cases x Hx) as [[i ->]|[[i ->]|[b ->]]],
    (int_like_cases y Hy) as [[j ->]|[[j ->]|[c ->]]];
    apply (clean_eq _ _ _ (clean_ret _)); cbn; rewrite is_eq_Z;
    first [done | apply Z.eqb_sym | by destruct b, c].
Qed.

Lemma eq_on_str : eq_on SStr.
Proof.
  intros [|d] held h x y Hd Hx Hy; [cbn in Hd; lia|]. apply recurse_eq_step.
  apply shape_str in Hx as (a & -> & ?). apply shape_str in Hy as (b & -> & ?).
  apply (clean_eq _ _ _ (clean_ret _)). cbn. by rewrite lex_cmp_eq.
Qed.

Lemma eq_on_bytes : eq_on SBytes.
Proof.
  intros [|d] held h x y Hd Hx Hy; [cbn in Hd; lia|]. apply recurse_eq_step.
  apply shape_bytes in Hx as (a & ->). apply shape_bytes in Hy as (b & ->).
  apply (clean_eq _ _ _ (clean_ret _)). cbn. by rewrite lex_cmp_eq.
Qed.

Definition eq_on_row (r : Row) : Prop := forall d held h a b, (row_depth r <= d)%nat ->
  fits r a -> fits r b -> length a = length b ->
  clean (all_walk (fun p => eq_rec d held h p.1 p.2) (zip a b)) (is_eq (row_cmp r a b)).

(** The head of a pair of tuples decides, or the tails do. *)
Lemma clean_then (w : Walk bool) c (k : Walk bool) c' :
  clean w (is_eq c) -> clean k (is_eq c') ->
  clean (walk_bind w (fun b => if b then k else walk_ret false))
        (is_eq (match c with Eq => c' | Lt => Lt | Gt => Gt end)).
Proof. intros Hw Hk. apply (clean_bind _ _ _ _ Hw). destruct c; cbn; auto with walks. Qed.

Lemma eq_on_shapes : (forall s, eq_on s) /\ (forall r, eq_on_row r).
Proof.
  apply Shape_Row_ind; [exact eq_on_int|exact eq_on_str|exact eq_on_bytes|..].
  - intros r IH [|d] held h x y Hd Hx Hy; [cbn in Hd; lia|]. apply recurse_eq_step.
    apply shape_tuple in Hx as (a & -> & Ha). apply shape_tuple in Hy as (b & -> & Hb).
    cbn in Hd |- *. apply clean_bind with (Some (is_eq (row_cmp r a b))); [|apply clean_ret].
    eapply clean_bind; [|apply clean_ret].
    unfold elementwise_eq, zip_equal. destruct (Nat.eqb_spec (length a) (length b)) as [E|E].
    + apply IH; [lia|done..].
    + apply (clean_eq _ _ _ (clean_ret _)). destruct (row_cmp r a b) eqn:Er; try done.
      by eapply row_cmp_length in Er.
  - intros d held h a b _ -> -> _. apply clean_ret.
  - intros s IH d held h a b Hd. revert b. induction a as [|x a IHa]; intros [|y b] Ha Hb Hl; try discriminate.
    + apply clean_ret.
    + apply Forall_cons in Ha as [??]. apply Forall_cons in Hb as [??]. injection Hl as Hl.
      cbn [zip_with all_walk]. apply (clean_then _ (shape_cmp s x y) _ (row_cmp (RAll s) a b)); [by apply IH|by apply IHa].
  - intros s IHs r IHr d held h a b Hd Ha Hb Hl. cbn in Hd.
    destruct a as [|x a], b as [|y b]; try discriminate; [apply clean_ret|].
    destruct Ha, Hb.
    cbn [zip_with all_walk]. apply (clean_then _ (shape_cmp s x y) _ (row_cmp r a b)); [apply IHs; [lia|done..]|apply IHr; [lia|done..|]].
    by injection Hl.
Qed.

(** ** Order *)

Definition lt_on (s : Shape) : Prop := forall fuel held h x y, (shape_depth s <= fuel)%nat ->
  (shape_depth s <= EQ_RECURSION_LIMIT)%nat -> has_shape s x -> has_shape s y ->
  clean (lt_rec fuel held h x y) (inr (is_lt (shape_cmp s x y))).

Definition lt_on_row (r : Row) : Prop := forall fuel held h a b, (row_depth r <= fuel)%nat ->
  (row_depth r <= EQ_RECURSION_LIMIT)%nat -> fits r a -> fits r b ->
  clean (lex_lt structural elem (lt_rec fuel) held h a b) (inr (is_lt (row_cmp r a b))).

Lemma lt_on_int : lt_on SInt.
Proof.
  intros [|d] held h x y Hd _ Hx Hy; [cbn in Hd; lia|].
  destruct (int_like_cases x Hx) as [[i ->]|[[i ->]|[b ->]]],
    (int_like_cases y Hy) as [[j ->]|[[j ->]|[c ->]]];
    apply (clean_eq _ _ _ (clean_ret _)); done.
Qed.

Lemma lt_on_str : lt_on SStr.
Proof.
  intros [|d] held h x y Hd _ Hx Hy; [cbn in Hd; lia|].
  apply shape_str in Hx as (a & -> & ?). apply shape_str in Hy as (b & -> & ?).
  apply (clean_eq _ _ _ (clean_ret _)). cbn. by rewrite str_ltb_lex.
Qed.

Lemma lt_on_bytes : lt_on SBytes.
Proof.
  intros [|d] held h x y Hd _ Hx Hy; [cbn in Hd; lia|].
  apply shape_bytes in Hx as (a & ->). apply shape_bytes in Hy as (b & ->).
  apply (clean_eq _ _ _ (clean_ret _)). cbn. by rewrite bytes_ltb_lex.
Qed.

Lemma lex_step lt held h x y a b c c' shorter :
  clean (eq_rec EQ_RECURSION_LIMIT held h x y) (is_eq c) -> clean (lt held h x y) (inr (is_lt c)) ->
  clean (lex_pairs structural elem lt held h a b shorter) (inr (is_lt c')) ->
  clean (lex_pairs structural elem lt held h (x :: a) (y :: b) shorter)
        (inr (is_lt (match c with Eq => c' | Lt => Lt | Gt => Gt end))).
Proof. intros He Hl Hk. cbn [lex_pairs]. apply (clean_bind _ _ _ _ He). by destruct c. Qed.

Lemma lt_on_shapes : (forall s, lt_on s) /\ (forall r, lt_on_row r).
Proof.
  apply Shape_Row_ind; [exact lt_on_int|exact lt_on_str|exact lt_on_bytes|..].
  - intros r IH [|d] held h x y Hd Hl Hx Hy; [cbn in Hd; lia|].
    apply shape_tuple in Hx as (a & -> & Ha). apply shape_tuple in Hy as (b & -> & Hb).
    cbn in Hd, Hl |- *. apply clean_bind with (Some (inr (is_lt (row_cmp r a b)))); [|apply clean_ret].
    eapply clean_bind; [|apply clean_ret]. apply IH; [lia..|done|done].
  - intros fuel held h a b _ _ -> ->. apply clean_ret.
  - intros s IH fuel held h a b Hd Hl. unfold lex_lt. revert b.
    induction a as [|x a IHa]; intros [|y b] Ha Hb; [apply clean_ret..|].
    apply Forall_cons in Ha as [??]. apply Forall_cons in Hb as [??].
    apply (lex_step _ _ _ _ _ _ _ (shape_cmp s x y) (row_cmp (RAll s) a b)); [by apply eq_on_shapes|by apply IH|by apply IHa].
  - intros s IHs r IHr fuel held h a b Hd Hl Ha Hb. cbn in Hd, Hl. unfold lex_lt.
    destruct a as [|x a], b as [|y b]; [apply clean_ret..|]. destruct Ha, Hb.
    apply (lex_step _ _ _ _ _ _ _ (shape_cmp s x y) (row_cmp r a b)); [apply eq_on_shapes; [lia|done..]|apply IHs; [lia..|done|done]|].
    apply (IHr fuel held h a b); [lia..|done|done].
Qed.
End Ordered.

(** * The depth limit

    A walk refines another when, started with the flag down, an answer with the
    flag still down is the other's answer too; and it never takes the flag
    down. *)
Definition keeps_flag {A} (w : Walk A) : Prop := forall a flag, w true = Some (a, flag) -> flag = true.
Definition exact {A} (w1 w2 : Walk A) : Prop :=
  keeps_flag w1 /\ forall a, w1 false = Some (a, false) -> w2 false = Some (a, false).

Lemma exact_ret {A} (a : A) : exact (walk_ret a) (walk_ret a).
Proof. split; [by intros ? ? [= _ <-]|done]. Qed.

Lemma exact_never {A} : exact (@never A) never.
Proof. by split. Qed.

Lemma exact_bind {A B} (w1 w2 : Walk A) (k1 k2 : A -> Walk B) :
  exact w1 w2 -> (forall a, exact (k1 a) (k2 a)) -> exact (walk_bind w1 k1) (walk_bind w2 k2).
Proof.
  intros [Hk Hw] Hks. split.
  - unfold keeps_flag, walk_bind. intros b flag. destruct (w1 true) as [[a f]|] eqn:E; [|done].
    apply Hk in E as ->. apply Hks.
  - unfold walk_bind. intros b. destruct (w1 false) as [[a f]|] eqn:E; [|done]. intros Hb.
    assert (f = false) as ->. { destruct f; [|done]. by apply Hks in Hb. }
    rewrite (Hw a eq_refl). by apply Hks.
Qed.

Lemma exact_all {A} (f g : A -> Walk bool) xs :
  (forall x, exact (f x) (g x)) -> exact (all_walk f xs) (all_walk g xs).
Proof.
  intros Hfg. induction xs as [|x xs IH]; [apply exact_ret|]. apply exact_bind; [done|].
  intros []; [done|apply exact_ret].
Qed.

Lemma exact_any {A} (f g : A -> Walk bool) xs :
  (forall x, exact (f x) (g x)) -> exact (any_walk f xs) (any_walk g xs).
Proof.
  intros Hfg. induction xs as [|x xs IH]; [apply exact_ret|]. apply exact_bind; [done|].
  intros []; [apply exact_ret|done].
Qed.

#[export] Hint Resolve exact_ret exact_never : walks.
#[export] Hint Resolve exact_bind exact_all exact_any : walks.

Section Exact.
Context `{External} `{!ExternalOrder}.
Variable structural : Value -> Value -> bool.
Variable elem : Heap -> SetElem Value.

Lemma exact_zip {A} (f g : A -> A -> Walk bool) a b :
  (forall x y, exact (f x y) (g x y)) -> exact (zip_equal f a b) (zip_equal g a b).
Proof. intros. unfold zip_equal. case_match; auto with walks. Qed.

Lemma exact_set (f g : Value -> Value -> Walk bool) a b :
  (forall x y, exact (f x y) (g x y)) -> exact (set_equal f a b) (set_equal g a b).
Proof. intros. unfold set_equal. case_match; auto with walks. Qed.

Lemma exact_entries (f g : Value -> Value -> Walk bool) a b :
  (forall x y, exact (f x y) (g x y)) -> exact (entries_equal structural f a b) (entries_equal structural g a b).
Proof.
  intros. unfold entries_equal. case_match; [|apply exact_ret]. apply exact_all. intros kv.
  case_match; auto with walks.
Qed.

Lemma exact_ordered (f g : Value -> Value -> Walk bool) a b :
  (forall x y, exact (f x y) (g x y)) -> exact (ordered_equal structural f a b) (ordered_equal structural g a b).
Proof. intros. apply exact_zip. intros. case_match; auto with walks. Qed.

Lemma exact_self_list held h l : exact (lock_list held h l) (lock_list held h l).
Proof. unfold lock_list. case_match; auto with walks. Qed.
Lemma exact_self_dict held h l : exact (lock_dict held h l) (lock_dict held h l).
Proof. unfold lock_dict. case_match; auto with walks. Qed.
Lemma exact_self_fields held h l : exact (lock_fields held h l) (lock_fields held h l).
Proof. unfold lock_fields. case_match; auto with walks. Qed.

Lemma exact_view held h v : exact (view_elems elem held h v) (view_elems elem held h v).
Proof.
  unfold view_elems. destruct v; auto with walks. apply exact_bind; [apply exact_self_dict|].
  intros. repeat case_match; auto with walks.
Qed.

Lemma exact_handled {A} (w1 w2 : Walk A) : exact w1 w2 -> exact (handled w1) (handled w2).
Proof. intros. apply exact_bind; auto with walks. Qed.

#[local] Hint Resolve exact_zip exact_set exact_entries exact_ordered exact_self_list exact_self_dict
  exact_self_fields exact_view exact_handled : walks.
Ltac exact_step :=
  first
    [ by auto with walks
    | apply exact_bind; intros; exact_step
    | apply exact_all; intros; exact_step
    | case_match; exact_step ].

Lemma exact_values_at eqv1 eqv2 held h x y :
  (forall x y, exact (eqv1 x y) (eqv2 x y)) ->
  exact (values_equal_at structural eqv1 held h x y) (values_equal_at structural eqv2 held h x y).
Proof.
  intros He. unfold values_equal_at. destruct x; destruct y; exact_step.
Qed.

Definition entered (depth : nat) (body : Walk bool) : Walk bool :=
  fun flag => body (if (depth =? EQ_RECURSION_LIMIT)%nat then false else flag).

Lemma exact_entered d e body1 body2 : (d < EQ_RECURSION_LIMIT)%nat ->
  exact body1 body2 -> exact (entered d body1) (entered e body2).
Proof.
  intros Hd [Hk Hb]. unfold entered. assert (E : (d =? EQ_RECURSION_LIMIT)%nat = false) by (apply Nat.eqb_neq; lia).
  split; [unfold keeps_flag; rewrite E; apply Hk|]. intros a. rewrite E. intros Ha. case_match; auto.
Qed.

Lemma exact_limit (body : Walk bool) : exact (fun _ => Some (false, true)) body.
Proof. split; [by intros ? ? [= _ <-]|by intros ? [=]]. Qed.

(** A larger limit does not change an answer the smaller one did not flag. *)
Lemma values_equal_exact d e held h x y : (d <= e)%nat -> (d < EQ_RECURSION_LIMIT)%nat ->
  exact (values_equal structural d held h x y) (values_equal structural e held h x y).
Proof.
  revert e x y. induction d as [|d IH]; intros [|e] x y Hde Hd; try lia; try apply exact_limit.
  apply (exact_entered (S d) (S e)); [done|]. apply exact_values_at. intros. apply IH; lia.
Qed.

Lemma exact_try rec1 rec2 eqv1 eqv2 held h x y :
  (forall held h x y, exact (rec1 held h x y) (rec2 held h x y)) ->
  (forall held h x y, exact (eqv1 held h x y) (eqv2 held h x y)) ->
  exact (try_eq structural elem rec1 eqv1 held h x y) (try_eq structural elem rec2 eqv2 held h x y).
Proof.
  intros Hr He.
  assert (Hslot : forall t x y, exact (eq_slot structural elem rec1 eqv1 held h t x y)
                                      (eq_slot structural elem rec2 eqv2 held h t x y)).
  { clear x y. intros t x y. destruct t; cbn [eq_slot];
    unfold none_eq, bool_eq, int_eq, float_eq, complex_eq, str_eq, bytes_eq, decimal_eq, fraction_eq, both,
      list_eq, tuple_eq, ordered_dict_eq, dict_eq, set_eq, counter_eq, deque_eq, dictview_eq, object_eq,
      elementwise_eq, implemented, not_implemented; exact_step. }
  unfold try_eq. apply exact_bind; [apply Hslot|]. intros []; [apply exact_ret|].
  apply exact_bind; [apply Hslot|]. intros. apply exact_ret.
Qed.

Lemma recurse_eq_exact d e held h x y : (d <= e)%nat -> (d < EQ_RECURSION_LIMIT)%nat ->
  exact (recurse_eq structural elem d held h x y) (recurse_eq structural elem e held h x y).
Proof.
  revert e held h x y. induction d as [|d IH]; intros [|e] held h x y Hde Hd; try lia; try apply exact_limit.
  apply (exact_entered (S d) (S e)); [done|].
  apply exact_try; intros; [apply IH|apply values_equal_exact]; lia.
Qed.
End Exact.

(** * The order the library modules sort with *)

#[export] Instance value_lt `{External} `{!ExternalOrder} (structural : Value -> Value -> bool)
    (elem : Heap -> SetElem Value) (fuel : nat) (h : Heap) : LtElem Value EvalError | 10 :=
  {| compare_lt := fun x y =>
       match value_compare_lt structural elem fuel h x y false with
       | Some (inr b, _) => Ok b
       | Some (inl e, _) => Err e
       | None => Panic
       end |}.

(** The answer of an operator on values in a given order. *)
Definition holds (op : CmpOp) (c : comparison) : bool :=
  match op, c with
  | OpEq, Eq | OpNotEq, (Lt | Gt) | OpLt, Lt | OpLtE, (Lt | Eq) | OpGt, Gt | OpGtE, (Gt | Eq) => true
  | _, _ => false
  end.

Section Properties.
Context `{External} `{!ExternalOrder}.
Variable structural : Value -> Value -> bool.
Variable elem : Heap -> SetElem Value.
#[local] Opaque EQ_RECURSION_LIMIT.

Lemma value_lt_laws s fuel h : (shape_depth s <= fuel)%nat -> (shape_depth s <= EQ_RECURSION_LIMIT)%nat ->
  @LtLaws _ _ (value_lt structural elem fuel h) (has_shape s) (fun x y => is_lt (shape_cmp s x y)).
Proof.
  intros Hf Hl. pose proof (shape_laws s) as L. constructor.
  - intros x y Hx Hy. cbn. unfold value_compare_lt.
    destruct (proj1 (lt_on_shapes structural elem) s fuel none_held h x y Hf Hl Hx Hy false) as (f & -> & _). done.
  - intros x Hx. pose proof (cmp_refl x Hx) as E. by rewrite E.
  - intros x y Hx Hy. pose proof (cmp_opp x y Hx Hy) as E. rewrite E. by destruct (shape_cmp s x y).
  - intros x y z Hx Hy Hz. pose proof (cmp_trans z y x Hz Hy Hx) as T.
    pose proof (cmp_opp x y Hx Hy) as E1. pose proof (cmp_opp y z Hy Hz) as E2.
    pose proof (cmp_opp x z Hx Hz) as E3. rewrite E1, E2, E3 in T.
    destruct (shape_cmp s x y), (shape_cmp s y z), (shape_cmp s x z); cbn in *; try done; intros; exfalso;
      by apply T.
Qed.

Lemma dispatch_eq_shape classes s fuel h x y : (shape_depth s <= fuel)%nat ->
  (shape_depth s <= EQ_RECURSION_LIMIT)%nat -> has_shape s x -> has_shape s y ->
  clean (dispatch_eq structural elem classes fuel none_held h x y) (is_eq (shape_cmp s x y)).
Proof.
  intros Hf Hl Hx Hy flag.
  destruct fuel as [|fuel]; [destruct s; cbn in Hf; lia|].
  destruct (proj1 (eq_on_shapes structural elem) s (S EQ_RECURSION_LIMIT) none_held h x y ltac:(lia) Hx Hy flag)
    as (f & E & Hfl). exists f. split; [|done]. rewrite <- E.
  assert (N : (S EQ_RECURSION_LIMIT =? EQ_RECURSION_LIMIT)%nat = false) by (apply Nat.eqb_neq; lia).
  cbn -[Nat.eqb]. rewrite N. destruct x; try done. destruct s; [by destruct Hx|done..].
Qed.

(** C31: on values of one comparable shape (integers of any width and booleans,
    texts, byte strings, and tuples of such, position by position), nested at most
    [EQ_RECURSION_LIMIT] deep, and with the overflow flag down when the comparison
    begins, the six comparison operators do not fail, leave the flag down and all
    answer by one total order: integers by value, texts by code points although the
    source compares UTF-8 bytes, tuples lexicographically. A flag that an earlier
    membership test left up is outside this: [stale_flag_fails_next_comparison] below
    shows the error it makes of ['x' == 'x']. *)
Theorem comparisons_total_order s classes fuel h op x y
    (Hf : (shape_depth s <= fuel)%nat) (Hl : (shape_depth s <= EQ_RECURSION_LIMIT)%nat)
    (Hx : has_shape s x) (Hy : has_shape s y) :
  CmpLaws (has_shape s) (shape_cmp s) /\
  compare_builtin structural elem classes fuel h op x y false
  = Some (inr (holds op (shape_cmp s x y)), false).
Proof.
  split; [apply shape_laws|].
  pose proof (dispatch_eq_shape classes s fuel h x y Hf Hl Hx Hy) as Heq.
  pose proof (proj1 (lt_on_shapes structural elem) s fuel none_held h x y Hf Hl Hx Hy) as Hlt.
  pose proof (proj1 (lt_on_shapes structural elem) s fuel none_held h y x Hf Hl Hy Hx) as Hgt.
  pose proof (cmp_opp x y Hx Hy) as E. rewrite E in Hgt.
  assert (Hclean : forall op, clean (match op with
    | OpEq => let! b := eq_via_dispatch structural elem classes fuel h x y in walk_ret (inr b)
    | OpNotEq => let! b := eq_via_dispatch structural elem classes fuel h x y in walk_ret (inr (negb b))
    | OpLt => dispatch_lt structural elem fuel none_held h x y
    | OpLtE => or_equal (dispatch_lt structural elem fuel none_held h x y)
                        (eq_via_dispatch structural elem classes fuel h x y)
    | OpGt => dispatch_lt structural elem fuel none_held h y x
    | OpGtE => or_equal (dispatch_lt structural elem fuel none_held h y x)
                        (eq_via_dispatch structural elem classes fuel h x y)
    end) (inr (holds op (shape_cmp s x y)))).
  { clear Hx Hy E. unfold eq_via_dispatch, or_equal. intros []; destruct (shape_cmp s x y); cbn in *;
      first [ done | apply (clean_bind _ _ _ _ Heq), clean_ret
            | apply (clean_bind _ _ _ _ Hlt); first [apply clean_ret|apply (clean_bind _ _ _ _ Heq), clean_ret]
            | apply (clean_bind _ _ _ _ Hgt); first [apply clean_ret|apply (clean_bind _ _ _ _ Heq), clean_ret] ]. }
  destruct (Hclean op false) as (f & Er & Hfl). unfold compare_builtin, walk_bind at 1.
  rewrite Er. cbn. by rewrite (Hfl eq_refl).
Qed.

(** C32: structural equality is cut off at 1000 levels with the answer "not
    equal"; whenever that happened the overflow flag is up. An answer with the
    flag down is the answer at every larger limit, whatever the values, their
    nesting and the locks held. *)
Theorem equality_exact_unless_flagged d e held h x y b
    (Hd : (d <= EQ_RECURSION_LIMIT)%nat) (He : (d <= e)%nat)
    (Hb : recurse_eq structural elem d held h x y false = Some (b, false)) :
  recurse_eq structural elem e held h x y false = Some (b, false).
Proof.
  destruct d as [|d]; [discriminate|]. destruct e as [|e]; [lia|]. revert Hb. cbn -[Nat.eqb].
  replace (if (S d =? EQ_RECURSION_LIMIT)%nat then false else false) with false by (by case_match).
  replace (if (S e =? EQ_RECURSION_LIMIT)%nat then false else false) with false by (by case_match).
  apply exact_try; intros; [apply recurse_eq_exact|apply values_equal_exact]; lia.
Qed.

(** [heapq] on Python values: [heapify] with the interpreter's [<] never
    fails on values of one comparable shape, permutes the list, and leaves every
    parent not greater than its children. *)
Theorem heapify_values s fuel h heap
    (Hf : (shape_depth s <= fuel)%nat) (Hl : (shape_depth s <= EQ_RECURSION_LIMIT)%nat)
    (Hs : Forall (has_shape s) heap) :
  exists heap', @heapify _ _ (value_lt structural elem fuel h) heap = (heap', Ok ()) /\ heap' ≡ₚ heap /\
    forall p c x y, c = (2 * p + 1)%nat \/ c = (2 * p + 2)%nat ->
      heap' !! p = Some x -> heap' !! c = Some y -> shape_cmp s x y <> Gt.
Proof.
  pose proof (value_lt_laws s fuel h Hf Hl) as L.
  destruct (@heapify_ok _ _ (value_lt structural elem fuel h) (has_shape s) _ L heap Hs) as (heap' & E & Hp & Hh).
  exists heap'. split_and!; [done..|]. intros p c x y Hc Hx Hy.
  pose proof (Hh p c ltac:(lia) Hc x y Hx Hy) as Hle. unfold le in Hle.
  assert (Hs' : Forall (has_shape s) heap') by by rewrite Hp.
  assert (Px : has_shape s x) by by eapply Forall_lookup_1. assert (Py : has_shape s y) by by eapply Forall_lookup_1.
  pose proof (cmp_opp x y Px Py) as E'. rewrite E' in Hle. by destruct (shape_cmp s x y).
Qed.
End Properties.

(** Rust compares texts by their UTF-8 bytes; that is the order of their
    code points, the one Python's [<] has on [str]. *)
Theorem utf8_order_is_code_point_order (a b : text) (Ha : Forall scalar a) (Hb : Forall scalar b) :
  str_ltb a b = is_lt (lex_cmp Z.compare a b).
Proof. by apply str_ltb_lex. Qed.

(** * Concrete comparisons *)

#[export] Instance sample_order : @ExternalOrder sample_external := {|
  date_ltb := Z.ltb : @NaiveDate sample_external -> _ -> bool;
  time_ltb := Z.ltb : @NaiveTime sample_external -> _ -> bool;
  datetime_ltb := Z.ltb : @NaiveDateTime sample_external -> _ -> bool;
  decimal_ltb := fun a b => a.1 <? b.1;
  decimal_bigint_and_exponent := fun d => d;
  rational_new := fun n d => (n, d);
  rational_from_integer := fun n => (n, 1);
  rational_compare := fun a b => a.1 * b.2 ?= b.1 * a.2;
  float_integer_decode := fun f => (f64_as_i64 f, 0, 1)
|}.

Section Samples.
#[local] Existing Instance sample_external.
Definition sample_elem : Heap -> SetElem Value :=
  fun _ => {| elem_eq := fun _ _ => false; elem_hash := fun _ => None |}.
Abbreviation never_equal := (fun _ _ : Value => false).

(** A pair of a number and a text, as sorted records are. *)
Definition record_shape : Shape := STuple (RCons SInt (RCons SStr RNil)).
Definition rec_value (n : Z) (s : string) : Value := VTuple [VInt n; VString (lit s)].

Lemma rec_value_shape n s : Forall scalar (lit s) -> has_shape record_shape (rec_value n s).
Proof. intros. cbn. split_and!; [by eexists|done|done]. Qed.

Lemma comparisons_total_order_witness :
  compare_builtin never_equal sample_elem ∅ 5 empty_heap OpLtE (rec_value 1 "b") (rec_value 1 "a") false
  = Some (inr false, false).
Proof.
  assert (Ha : has_shape record_shape (rec_value 1 "a")) by (apply rec_value_shape; repeat constructor; done).
  assert (Hb : has_shape record_shape (rec_value 1 "b")) by (apply rec_value_shape; repeat constructor; done).
  assert (Hd : (shape_depth record_shape <= EQ_RECURSION_LIMIT)%nat) by (unfold EQ_RECURSION_LIMIT; cbn; lia).
  assert (Hf : (shape_depth record_shape <= 5)%nat) by (cbn; lia).
  exact (proj2 (comparisons_total_order never_equal sample_elem record_shape ∅ 5 empty_heap OpLtE _ _ Hf Hd Hb Ha)).
Defined.

Lemma equality_exact_unless_flagged_witness :
  recurse_eq never_equal sample_elem 5 none_held empty_heap (VTuple [VInt 1]) (VTuple [VBool true]) false
  = Some (true, false).
Proof.
  apply (equality_exact_unless_flagged never_equal sample_elem 2 5).
  - unfold EQ_RECURSION_LIMIT. lia.
  - lia.
  - reflexivity.
Defined.

Lemma heapify_values_witness :
  exists heap', @heapify _ _ (value_lt never_equal sample_elem 3 empty_heap) [rec_value 2 "a"; rec_value 1 "b"]
    = (heap', Ok ()) /\ heap' ≡ₚ [rec_value 2 "a"; rec_value 1 "b"].
Proof.
  destruct (heapify_values never_equal sample_elem record_shape 3 empty_heap [rec_value 2 "a"; rec_value 1 "b"])
    as (heap' & E & Hp & _).
  - cbn. lia.
  - unfold EQ_RECURSION_LIMIT. cbn. lia.
  - apply Forall_cons; split; [|apply Forall_singleton]; apply rec_value_shape; repeat constructor; done.
  - by exists heap'.
Defined.

Lemma utf8_order_is_code_point_order_witness : str_ltb [97; 233] [97; 8364; 98] = true.
Proof. rewrite utf8_order_is_code_point_order; [reflexivity|repeat constructor; lia..]. Defined.

(** An integer and a float compare through a lossy conversion of the integer,
    where the comment says CPython does the same: [2 ** 53 + 1 == 2.0 ** 53]. *)
Lemma int_float_equality_lossy :
  recurse_eq never_equal sample_elem 1 none_held empty_heap (VFloat (f64_of_Z (2 ^ 53))) (VInt (2 ^ 53 + 1)) false
  = Some (true, false).
Proof. reflexivity. Qed.

(** [values_equal], which deques use, has no arm for big integers: a deque
    holding one differs from its copy. *)
Lemma deque_of_big_integers_differs :
  compare_builtin never_equal sample_elem ∅ 5 empty_heap OpEq
    (VDeque [VBigInt (10 ^ 20)] None) (VDeque [VBigInt (10 ^ 20)] None) false = Some (inr false, false).
Proof. reflexivity. Qed.

(** The heap of [a = [[1]]; b = [a]]: lists 0, 1 and 2. *)
Definition nested_lists : Heap :=
  mkHeap {[0%nat := [VInt 1]; 1%nat := [VList 0]; 2%nat := [VList 1]]} ∅ ∅ ∅ ∅ ∅.

(** [list_lt] keeps both lists locked while it compares their elements, so
    [a < [a]] with [a = [[1]]] locks [a] a second time and never returns. *)
Lemma list_order_deadlocks fuel :
  dispatch_lt never_equal sample_elem fuel none_held nested_lists (VList 1) (VList 2) false = None.
Proof. by destruct fuel. Qed.

(** The heap of two lists that contain themselves. *)
Definition cyclic_lists : Heap :=
  mkHeap {[0%nat := [VList 0]; 1%nat := [VList 1]]} ∅ ∅ ∅ ∅ ∅.

Lemma cyclic_equality d flag :
  recurse_eq never_equal sample_elem d none_held cyclic_lists (VList 0) (VList 1) flag = Some (false, true).
Proof.
  revert flag. induction d as [|d IH]; intros flag; [done|].
  cbn -[Nat.eqb try_eq]. unfold try_eq. cbn -[Nat.eqb]. unfold list_eq. cbn -[Nat.eqb lock_list].
  unfold lock_list, handled, elementwise_eq, zip_equal, walk_bind.
  change (list_at cyclic_lists 0) with [VList 0]. change (list_at cyclic_lists 1) with [VList 1].
  generalize (if (S d =? EQ_RECURSION_LIMIT)%nat then false else flag). intros f.
  change (bool_decide (0%nat ∈ held_lists none_held)) with false.
  change (bool_decide (1%nat ∈ held_lists none_held)) with false.
  cbn -[recurse_eq]. unfold walk_bind. by rewrite IH.
Qed.

(** A membership test that hits the limit leaves the flag up, and nothing takes
    it: it answers False, and the next operator that enters no equality walk,
    here ['x' == 'x'], raises RecursionError. *)
Lemma stale_flag_fails_next_comparison :
  exists flag,
  sequence_contains never_equal sample_elem none_held cyclic_lists (VTuple [VList 1]) (VList 0) false
    = Some (false, flag) /\
  compare_builtin never_equal sample_elem ∅ 1 cyclic_lists OpEq (VString [120]) (VString [120]) flag
    = Some (inl (Interpreter (RecursionLimitExceeded 1000)), false).
Proof.
  exists true. split; [|done]. cbn [sequence_contains any_walk]. unfold walk_bind. by rewrite cyclic_equality.
Qed.

(** A dataclass with one compared field, and a chain of three instances. *)
Definition node_class : ClassValue :=
  let c := ClassValue_new "Node" in
  {| c_name := c_name c; methods := methods c; class_attrs := class_attrs c;
     bases := bases c; mro := mro c; properties := properties c; static_methods := static_methods c;
     class_methods := class_methods c; enum_kind := enum_kind c; enum_members := enum_members c;
     annotations := ["next"%string];
     dataclass_fields := Some [mkDataclassField "next" None None true true true false]; frozen := frozen c;
     order := order c; total_ordering := total_ordering c; has_slots := has_slots c;
     slot_names := slot_names c; abstract_methods := abstract_methods c; metaclass := metaclass c;
     c_qualname := c_qualname c; is_generic := is_generic c; initvar_fields := initvar_fields c |}.
Definition chain_heap : Heap :=
  mkHeap ∅ ∅ ∅ ∅ ∅
    {[0%nat := [("next"%string, VInstance "Node" 1)]; 1%nat := [("next"%string, VInstance "Node" 2)];
      2%nat := [("next"%string, VNone)]]}.

(** The synthesized dataclass [__eq__] keeps both instances locked while it
    compares fields: a node of a linked list and its successor never compare. *)
Lemma dataclass_equality_deadlocks fuel :
  compare_builtin never_equal sample_elem {["Node"%string := node_class]} fuel chain_heap OpEq
    (VInstance "Node" 0) (VInstance "Node" 1) false = None.
Proof. by destruct fuel as [|[|fuel]]. Qed.
End Samples.
