(* ===== verification/Operators.v ===== *)
(** Iteration of builtin values (types.rs, eval/statements.rs): the [iter_slot]s
    of the type objects, and the values an unpacking assignment takes. Binary operators
    and membership on builtin values (types.rs, eval/operations.rs): the [arith_slot]
    and [contains_slot] columns of the type objects, the dispatcher that tries the left
    operand's slot and then the right one's, and [apply_binop] on top. *)
From Stdlib Require Import ZArith Lia Ascii String SpecFloat.
From stdpp Require Import base tactics list numbers option strings gmap.
From S2P Require Import Prelude PySet Values Errors F64 Keys Arith Classes Slices Compare.

Section Iter.
Context `{External}.
Variable structural : Value -> Value -> bool.
Variable elem : Heap -> SetElem Value.

(** Fallible, and able to allocate. *)
Abbreviation HList := (EvalResult (list Value * Heap)).

Definition sequence_iter (h : Heap) (value : Value) : HList :=
  match value with
  | VList l => Ok (list_at h l, h)
  | VTuple items => Ok (items, h)
  | _ => Panic
  end.

Definition str_iter (h : Heap) (value : Value) : HList :=
  match value with VString s => Ok (map (fun c => VString [c]) s, h) | _ => Panic end.

Definition bytes_iter (h : Heap) (value : Value) : HList :=
  Ok (map VInt (default [] (bytes_view h value)), h).

Definition set_iter (h : Heap) (value : Value) : HList :=
  match set_items h value with Some items => Ok (items, h) | None => Panic end.

(** Keys as values; a frozenset key is rebuilt. *)
Definition keys_to_values (h : Heap) (es : list (ValueKey * Value)) : HList :=
  or_panic (dictview_items elem Keys es h).

Definition dict_iter (h : Heap) (value : Value) : HList :=
  match as_dict value with Some l => keys_to_values h (dict_at h l) | None => Panic end.

Definition counter_iter (h : Heap) (value : Value) : HList :=
  match value with VCounter items => keys_to_values h items | _ => Panic end.

Definition defaultdict_iter (h : Heap) (value : Value) : HList :=
  match value with VDefaultDict items _ => keys_to_values h items | _ => Panic end.

Definition deque_iter (h : Heap) (value : Value) : HList :=
  match value with VDeque items _ => Ok (items, h) | _ => Panic end.

Definition dictview_iter (h : Heap) (value : Value) : HList :=
  match value with
  | VDictView l kind => or_panic (dictview_items elem kind (dict_at h l) h)
  | _ => Panic
  end.

(** The first occurrences of the keys of the maps, last map first. *)
Fixpoint fresh_keys (seen : list ValueKey) (ks : list ValueKey) : list ValueKey :=
  match ks with
  | [] => []
  | k :: ks =>
      if existsb (fun k' => key_eqb structural k' k) seen then fresh_keys seen ks
      else k :: fresh_keys (k :: seen) ks
  end.

Definition chainmap_iter (h : Heap) (value : Value) : HList :=
  match value with
  | VChainMap maps =>
      let all := flat_map (fun m => match m with VDict l => (dict_at h l).*1 | _ => [] end) (rev maps) in
      keys_to_values h (map (fun k => (k, VNone)) (fresh_keys [] all))
  | _ => Panic
  end.

(** [dispatch_iter]: the [iter_slot] column, with the two variants that have no
    type object of their own. *)
Definition dispatch_iter (h : Heap) (value : Value) : HList :=
  match value with
  | VLazy items _ _ => Ok (items, h)
  | VArray _ l => Ok (list_at h l, h)
  | _ =>
      match type_of value with
      | STR_TYPE => str_iter h value
      | BYTES_TYPE | BYTEARRAY_TYPE | MEMORYVIEW_TYPE => bytes_iter h value
      | LIST_TYPE | TUPLE_TYPE => sequence_iter h value
      | DICT_TYPE | ORDEREDDICT_TYPE => dict_iter h value
      | SET_TYPE | FROZENSET_TYPE => set_iter h value
      | RANGE_TYPE => xs ← range_iter value; Ok (xs, h)
      | COUNTER_TYPE => counter_iter h value
      | DEQUE_TYPE => deque_iter h value
      | DEFAULTDICT_TYPE => defaultdict_iter h value
      | DICTVIEW_TYPE => dictview_iter h value
      | CHAINMAP_TYPE => chainmap_iter h value
      | t => fail (TypeError ("'" ++ type_object_name t ++ "' object is not iterable"))
      end
  end.

(** Rust's [i += step] wraps in a release build. *)
Fixpoint unpack_range (fuel : nat) (stop step i : Z) : option (list Value) :=
  match fuel with
  | O => None
  | S fuel =>
      if ((step >? 0) && (i <? stop)) || ((step <? 0) && (i >? stop))
      then xs ← unpack_range fuel stop step (swrap64 (i + step)); Some (VInt i :: xs)
      else Some []
  end.

(** [value_to_iterable]: no bound on the length of a range, and no return when
    the counter wraps ([Panic]). *)
Definition value_to_iterable (h : Heap) (value : Value) : HList :=
  match value with
  | VList l => Ok (list_at h l, h)
  | VTuple items => Ok (items, h)
  | VSet _ | VFrozenset _ => set_iter h value
  | VString _ => str_iter h value
  | VRange start stop step =>
      xs ← or_panic (unpack_range (S (Z.to_nat (range_count start stop step))) stop step start); Ok (xs, h)
  | _ =>
      match dispatch_iter h value with
      | Err _ => fail (TypeError ("cannot unpack non-iterable " ++ type_name value ++ " object"))
      | r => r
      end
  end.
End Iter.

(** What the operators take from their surroundings: the addresses of
    allocations, the element operations of set tables, the last arm of key
    equality, a bound on the nesting of keys and compared values (beyond it the
    source descends for ever), the platform's transcendental functions and
    complex numbers, and the standard library's text for [ERANGE]. *)
Class Platform `{External} : Type := {
  address : loc -> Z;
  structural_eq : Value -> Value -> bool;
  set_elem : Heap -> SetElem Value;
  nesting : nat;
  powf : f64 -> f64 -> f64;
  cos : f64 -> f64;
  sin : f64 -> f64;
  atan2 : f64 -> f64 -> f64;
  strerror_erange : string;
  c_mul : f64 * f64 -> f64 * f64 -> f64 * f64;
  c_div : f64 * f64 -> f64 * f64 -> f64 * f64;
  c_powc : f64 * f64 -> f64 * f64 -> f64 * f64;
  c_powi : f64 * f64 -> Z -> f64 * f64
}.

Inductive Operator : Type :=
| Add | Sub | Mult | Div | FloorDiv | Mod | Pow | LShift | RShift | BitOr | BitXor | BitAnd | MatMult.

(** [types::BinOp], the seven operators with an arithmetic slot. *)
Inductive BinOp : Type := BAdd | BSub | BMul | BDiv | BFloorDiv | BMod | BPow.

(** What the dispatchers call in components of their own: the [printf]-style
    formatters, and the slots of decimals, fractions and the datetime types. *)
Class Formats `{External} : Type := {
  str_percent_format : Heap -> text -> Value -> EvalResult Value;
  bytes_percent_format : Heap -> list Z -> Value -> EvalResult Value;
  other_arith : TypeObject -> BinOp -> Value -> Value -> option (EvalResult Value)
}.

Section Operators.
Context `{External} `{!ExternalOrder} `{!Platform} `{!Formats}.
Abbreviation HResult := (EvalResult (Value * Heap)).
Abbreviation key_eq := (key_eqb structural_eq).

Definition quoted (s : string) : string :=
  let quote := String (ascii_of_nat 34) EmptyString in quote ++ s ++ quote.

Definition symbol (op : BinOp) : string :=
  match op with
  | BAdd => "+" | BSub => "-" | BMul => "*" | BDiv => "/" | BFloorDiv => "//" | BMod => "%" | BPow => "**"
  end.

(** [f64::fract() != 0.0]; an infinity's or NaN's fraction is NaN. *)
Definition has_fraction (f : f64) : bool := negb (f64_integral f).

Definition pow_values (left right : Value) (max_int_bits : Z) : EvalResult Value :=
  if either_is_float left right then
    l ← to_float left;
    r ← to_float right;
    if f64_eqb l f64_zero && f64_ltb r f64_zero
    then zero_division "0.0 cannot be raised to a negative power"
    else if f64_ltb l f64_zero && has_fraction r then
      let len := powf (SFabs l) r in
      let phase := f64_mul (atan2 f64_zero l) r in
      Ok (VComplex (f64_mul len (cos phase)) (f64_mul len (sin phase)))
    else
      let result := powf l r in
      if match result with S754_infinity _ => true | _ => false end && f64_is_finite l && f64_is_finite r
      then raise "OverflowError" ("(34, '" ++ strerror_erange ++ "')")
      else Ok (VFloat result)
  else pow_integers powf left right max_int_bits.

Definition mod_values (h : Heap) (left right : Value) : HResult :=
  match left with
  | VString template => pure h (str_percent_format h template right)
  | VBytes template => pure h (bytes_percent_format h template right)
  | VByteArray template =>
      v ← bytes_percent_format h (bytes_at h template) right;
      match v with VBytes b => new_bytearray h b | _ => Ok (v, h) end
  | _ => pure h (mod_numeric left right)
  end.

(** The value behind a member of an [IntEnum] or [StrEnum], however nested. *)
Fixpoint unwrap_enum (v : Value) : Value :=
  match v with VEnumMember _ _ inner (EInt | EStr) => unwrap_enum inner | _ => v end.

Definition apply_binop_builtin (op : BinOp) (h : Heap) (left right : Value) : HResult :=
  let left := unwrap_enum left in
  let right := unwrap_enum right in
  match op with
  | BAdd => add_values h left right
  | BSub => sub_values set_elem h left right
  | BMul => mult_values h left right
  | BDiv => pure h (div_values left right)
  | BFloorDiv => pure h (floordiv_values left right)
  | BMod => mod_values h left right
  | BPow => pure h (pow_values left right 1048576)
  end.

(** ** The slots; [None] is [NotImplemented] *)

Definition is_numeric (v : Value) : bool :=
  match v with VInt _ | VBigInt _ | VFloat _ | VBool _ => true | _ => false end.

Definition numeric_arith (op : BinOp) (h : Heap) (lhs rhs : Value) : option HResult :=
  if negb (is_numeric lhs) then None
  else if is_numeric rhs then Some (apply_binop_builtin op h lhs rhs)
  else match op, rhs with
       | BMul, (VString _ | VList _ | VTuple _) => Some (apply_binop_builtin op h lhs rhs)
       | _, _ => None
       end.

Definition complex_arith (op : BinOp) (h : Heap) (lhs rhs : Value) : option HResult :=
  match lhs, rhs with
  | VComplex _ _, _ | _, VComplex _ _ =>
      a ← value_to_complex lhs;
      b ← value_to_complex rhs;
      let made (z : f64 * f64) := Ok (VComplex z.1 z.2, h) in
      Some match op with
           | BAdd => made (f64_add a.1 b.1, f64_add a.2 b.2)
           | BSub => made (f64_sub a.1 b.1, f64_sub a.2 b.2)
           | BMul => made (c_mul a b)
           | BDiv =>
               if f64_eqb b.1 f64_zero && f64_eqb b.2 f64_zero
               then raise "ZeroDivisionError" "complex division by zero"
               else made (c_div a b)
           | BPow =>
               made match rhs with
                    | VInt n => if (- 2 ^ 31 <=? n) && (n <? 2 ^ 31) then c_powi a n else c_powc a b
                    | VBool bl => c_powi a (Z.b2z bl)
                    | _ => c_powc a b
                    end
           | BFloorDiv | BMod => fail (TypeError "can't take floor or mod of complex number.")
           end
  | _, _ => None
  end.

Definition str_arith (op : BinOp) (h : Heap) (lhs rhs : Value) : option HResult :=
  match lhs, op, rhs with
  | VString _, BAdd, VString _ | VString _, BMul, (VInt _ | VBool _) | VString _, BMod, _ =>
      Some (apply_binop_builtin op h lhs rhs)
  | _, _, _ => None
  end.

Definition bytes_arith (op : BinOp) (h : Heap) (lhs rhs : Value) : option HResult :=
  match lhs, op, rhs with
  | (VBytes _ | VByteArray _), BAdd, (VBytes _ | VByteArray _)
  | (VBytes _ | VByteArray _), BMul, (VInt _ | VBool _)
  | (VBytes _ | VByteArray _), BMod, _ => Some (apply_binop_builtin op h lhs rhs)
  | _, _, _ => None
  end.

Definition list_arith (op : BinOp) (h : Heap) (lhs rhs : Value) : option HResult :=
  match lhs, op, rhs with
  | VList _, BAdd, VList _ | VList _, BMul, (VInt _ | VBool _) => Some (apply_binop_builtin op h lhs rhs)
  | _, _, _ => None
  end.

Definition tuple_arith (op : BinOp) (h : Heap) (lhs rhs : Value) : option HResult :=
  match lhs, op, rhs with
  | VTuple _, BAdd, VTuple _ | VTuple _, BMul, (VInt _ | VBool _) => Some (apply_binop_builtin op h lhs rhs)
  | _, _, _ => None
  end.

Definition set_arith (op : BinOp) (h : Heap) (lhs rhs : Value) : option HResult :=
  match lhs, op, rhs with
  | (VSet _ | VFrozenset _), BSub, (VSet _ | VFrozenset _) => Some (apply_binop_builtin op h lhs rhs)
  | _, _, _ => None
  end.

Definition counter_arith (op : BinOp) (h : Heap) (lhs rhs : Value) : option HResult :=
  match lhs, rhs with
  | VCounter a, VCounter b =>
      match op with
      | BAdd => Some (Ok (VCounter (counter_combine_op key_eq a b Z.add), h))
      | BSub => Some (Ok (VCounter (counter_combine_op key_eq a b Z.sub), h))
      | _ => None
      end
  | _, _ => None
  end.

(** [array_arith], tried before the slots; a repetition is not bounded. *)
Definition array_arith (op : BinOp) (h : Heap) (lhs rhs : Value) : option HResult :=
  match lhs, op with
  | VArray t l, BAdd =>
      Some match rhs with
           | VArray rt ri =>
               if rt =? t then
                 let (l', h') := shared_list h (list_at h l ++ list_at h ri) in Ok (VArray t l', h')
               else fail (TypeError "bad argument type for built-in operation")
           | _ => fail (TypeError ("can only append array (not " ++ quoted (python_type_name rhs) ++ ") to array"))
           end
  | VArray t l, BMul =>
      match rhs with
      | VInt _ | VBool _ =>
          let n := match rhs with VInt i => i | VBool b => Z.b2z b | _ => 0 end in
          let (l', h') := shared_list h (concat (repeat (list_at h l) (Z.to_nat n))) in
          Some (Ok (VArray t l', h'))
      | _ => None
      end
  | _, _ => None
  end.

(** The [arith_slot] column. *)
Definition arith_slot (t : TypeObject) (op : BinOp) (h : Heap) (lhs rhs : Value) : option HResult :=
  match t with
  | BOOL_TYPE | INT_TYPE | FLOAT_TYPE => numeric_arith op h lhs rhs
  | COMPLEX_TYPE => complex_arith op h lhs rhs
  | STR_TYPE => str_arith op h lhs rhs
  | BYTES_TYPE | BYTEARRAY_TYPE => bytes_arith op h lhs rhs
  | LIST_TYPE => list_arith op h lhs rhs
  | TUPLE_TYPE => tuple_arith op h lhs rhs
  | SET_TYPE | FROZENSET_TYPE => set_arith op h lhs rhs
  | COUNTER_TYPE => counter_arith op h lhs rhs
  | DATE_TYPE | DATETIME_TYPE | TIMEDELTA_TYPE | DECIMAL_TYPE | FRACTION_TYPE =>
      pure h <$> other_arith t op lhs rhs
  | _ => None
  end.

(** The error when no slot takes the pair. *)
Definition unsupported_binop (op : BinOp) (lhs rhs : Value) : InterpreterError :=
  (let general := "unsupported operand type(s) for " ++ symbol op ++ ": '" ++ python_type_name lhs ++
                 "' and '" ++ python_type_name rhs ++ "'" in
  let name := type_object_name (type_of lhs) in
  let non_int v := "can't multiply sequence by non-int of type '" ++ python_type_name v ++ "'" in
  TypeError match op with
            | BAdd =>
                match lhs with
                | VString _ | VList _ | VTuple _ =>
                    "can only concatenate " ++ name ++ " (not " ++ quoted (python_type_name rhs) ++ ") to " ++ name
                | VBytes _ | VByteArray _ => "can't concat " ++ python_type_name rhs ++ " to " ++ name
                | _ => general
                end
            | BMul => if is_seq lhs then non_int rhs else if is_seq rhs then non_int lhs else general
            | _ => general
            end)%string.

Definition dispatch_binop (op : BinOp) (h : Heap) (lhs rhs : Value) : HResult :=
  let lhs := unwrap_enum lhs in
  let rhs := unwrap_enum rhs in
  match array_arith op h lhs rhs with
  | Some result => result
  | None =>
      match arith_slot (type_of lhs) op h lhs rhs with
      | Some result => result
      | None =>
          match arith_slot (type_of rhs) op h lhs rhs with
          | Some result => result
          | None => fail (unsupported_binop op lhs rhs)
          end
      end
  end.

(** ** [apply_binop] *)

(** The set a [dict_keys] or [dict_items] view stands for, in a fresh
    allocation. *)
Definition dictview_as_set (h : Heap) (value : Value) : EvalResult (Value * Heap) :=
  match value with
  | VDictView l (Keys as kind) | VDictView l (Items as kind) =>
      '(items, h) ← or_panic (dictview_items set_elem kind (dict_at h l) h);
      body ← or_panic (@from_items _ (set_elem h) items);
      let (l', h') := shared_set h body in Ok (VSet l', h')
  | _ => Ok (value, h)
  end.

Definition apply_binop (h : Heap) (left right : Value) (op : Operator) (max_int_bits : Z) : HResult :=
  '(left, h) ← dictview_as_set h left;
  '(right, h) ← dictview_as_set h right;
  match op with
  | Add => dispatch_binop BAdd h left right
  | Sub => dispatch_binop BSub h left right
  | Mult => dispatch_binop BMul h left right
  | Div => dispatch_binop BDiv h left right
  | FloorDiv => dispatch_binop BFloorDiv h left right
  | Mod => dispatch_binop BMod h left right
  | Pow =>
      if is_numeric left && is_numeric right then pure h (pow_values left right max_int_bits)
      else dispatch_binop BPow h left right
  | LShift => pure h (lshift_values left right max_int_bits)
  | RShift => pure h (rshift_values left right max_int_bits)
  | BitOr => bitor_values set_elem key_eq h left right
  | BitXor => bitxor_values set_elem h left right
  | BitAnd => bitand_values set_elem key_eq h left right
  | MatMult => matmult_values h left right
  end.

(** ** Membership

    The answer, or an error; a scan compares with [recurse_eq] or
    [values_equal] and may leave the overflow flag set. *)

Definition answer {A} (r : EvalResult A) (f : A -> bool) : Walk (EvalError + bool) :=
  match r with
  | Ok a => walk_ret (inr (f a))
  | Err e => walk_ret (inl e)
  | Panic => never
  end.

Definition scan (w : Walk bool) : Walk (EvalError + bool) := let! b := w in walk_ret (inr b).

(** [str::contains] and the windows of a byte string. *)
Fixpoint is_prefix_of (pat s : list Z) : bool :=
  match pat, s with
  | [], _ => true
  | x :: pat, y :: s => (x =? y) && is_prefix_of pat s
  | _ :: _, [] => false
  end.

Fixpoint is_infix_of (pat s : list Z) : bool :=
  is_prefix_of pat s || match s with [] => false | _ :: s => is_infix_of pat s end.

Definition str_contains (container item : Value) : EvalResult bool :=
  match container, item with
  | VString s, VString needle => Ok (is_infix_of needle s)
  | VString _, _ =>
      fail (TypeError ("'in <string>' requires string as left operand, not '" ++ type_name item ++ "'"))
  | _, _ => Panic
  end.

Definition bytes_contains (h : Heap) (container item : Value) : EvalResult bool :=
  let haystack := default [] (bytes_view h container) in
  match item with
  | VInt _ | VBool _ =>
      let n := match item with VInt i => i | VBool b => Z.b2z b | _ => 0 end in
      if negb ((0 <=? n) && (n <=? 255)) then fail (ValueError "byte must be in range(0, 256)")
      else Ok (existsb (fun b => b =? n) haystack)
  | VBytes _ | VByteArray _ | VMemoryView _ => Ok (is_infix_of (default [] (bytes_view h item)) haystack)
  | _ => fail (TypeError ("a bytes-like object is required, not '" ++ type_name item ++ "'"))
  end.

(** Membership in a map with these entries; an unhashable probe raises. *)
Definition map_contains (h : Heap) (es : list (ValueKey * Value)) (item : Value) : EvalResult bool :=
  key ← value_to_key address h nesting item; Ok (im_contains key_eq es key).

Definition chainmap_contains (h : Heap) (maps : list Value) (item : Value) : EvalResult bool :=
  key ← value_to_key address h nesting item;
  Ok (existsb (fun m => match m with VDict l => im_contains key_eq (dict_at h l) key | _ => false end) maps).

(** The dict stays locked while its values are compared. *)
Definition dictview_contains (h : Heap) (l : loc) (kind : DictViewKind) (item : Value) : Walk bool :=
  let es := dict_at h l in
  let equal := values_equal structural_eq EQ_RECURSION_LIMIT (mkHeld [] [l] []) h in
  let keyed v := match value_to_key address h nesting v with Ok k => walk_ret (im_get key_eq es k) | Err _ => walk_ret None | Panic => never end in
  match kind with
  | Keys => let! v := keyed item in walk_ret (if v is Some _ then true else false)
  | DValues => any_walk (fun v => equal v item) es.*2
  | Items =>
      match item with
      | VTuple [k; x] => let! v := keyed k in match v with Some v => equal v x | None => walk_ret false end
      | _ => walk_ret false
      end
  end.

Definition enummember_contains (container item : Value) : EvalResult bool :=
  match container with
  | VEnumMember _ _ cv kind =>
      if negb (is_flag kind) then fail (TypeError "argument of type 'enum' is not iterable")
      else
        let container_bits := default 0 (value_as_i64 cv) in
        match item with
        | VEnumMember _ _ value _ =>
            let item_bits := default (-1) (value_as_i64 value) in
            Ok ((item_bits >=? 0) && (Z.land container_bits item_bits =? item_bits))
        | _ => fail (TypeError ("unsupported operand type(s) for 'in': '" ++ type_name item ++ "' and 'enum'"))
        end
  | _ => Panic
  end.

Definition not_iterable {A} (name : string) : EvalResult A :=
  fail (TypeError ("argument of type '" ++ name ++ "' is not iterable")).

(** [dispatch_contains] over the [contains_slot] column. *)
Definition dispatch_contains (h : Heap) (container item : Value) : Walk (EvalError + bool) :=
  match container with
  | VArray _ l => scan (sequence_contains structural_eq set_elem none_held h (VList l) item)
  | _ =>
      match type_of container with
      | STR_TYPE => answer (str_contains container item) id
      | BYTES_TYPE | BYTEARRAY_TYPE | MEMORYVIEW_TYPE => answer (bytes_contains h container item) id
      | LIST_TYPE | TUPLE_TYPE | SET_TYPE | FROZENSET_TYPE =>
          scan (sequence_contains structural_eq set_elem none_held h container item)
      | DICT_TYPE | ORDEREDDICT_TYPE =>
          answer (map_contains h (match as_dict container with Some l => dict_at h l | None => [] end) item) id
      | RANGE_TYPE => answer (range_contains container item) id
      | COUNTER_TYPE => answer (map_contains h (match container with VCounter m => m | _ => [] end) item) id
      | DEFAULTDICT_TYPE =>
          answer (map_contains h (match container with VDefaultDict m _ => m | _ => [] end) item) id
      | CHAINMAP_TYPE => answer (chainmap_contains h (match container with VChainMap ms => ms | _ => [] end) item) id
      | DEQUE_TYPE =>
          scan (any_walk (fun entry => recurse_eq structural_eq set_elem EQ_RECURSION_LIMIT none_held h item entry)
                  (match container with VDeque items _ => items | _ => [] end))
      | DICTVIEW_TYPE =>
          match container with VDictView l kind => scan (dictview_contains h l kind item) | _ => never end
      | ENUMMEMBER_TYPE => answer (enummember_contains container item) id
      | OBJECT_TYPE => answer (not_iterable (type_name container)) id
      | t => answer (not_iterable (type_object_name t)) id
      end
  end.
End Operators.
