(* ===== verification/State.v ===== *)
(** The interpreter state and its limits ([state.rs], [config.rs]), and the
    security gates on names and attributes ([security/]). *)
From Stdlib Require Import ZArith Lia Ascii String SpecFloat.
From stdpp Require Import base tactics list numbers option strings pretty gmap.
From S2P Require Import Prelude PySet Values Errors F64 Keys Arith Classes.

Set Warnings "-register-all".

Record InterpreterConfig : Type := mkConfig {
  max_operations : Z;
  max_while_iterations : Z;
  max_memory_bytes : Z;
  max_stdout_bytes : Z;
  max_concurrent_tools : Z;
  max_execution_time : option Z;
  max_recursion_depth : Z;
  max_int_bits : Z
}.

Definition default_config : InterpreterConfig := {|
  max_operations := 10000000;
  max_while_iterations := 100000;
  max_memory_bytes := 128 * 1024 * 1024;
  max_stdout_bytes := 64 * 1024;
  max_concurrent_tools := 10;
  max_execution_time := None;
  max_recursion_depth := 1000;
  max_int_bits := 1048576
|}.

(** * Names and attributes *)

Definition DANGEROUS_NAMES : list string :=
  ["eval"; "exec"; "compile"; "__import__"; "globals"; "locals"; "dir"; "open"; "file"; "os";
   "sys"; "subprocess"; "shutil"]%string.

Definition BLOCKED_ATTRIBUTES : list string :=
  ["__class__"; "__globals__"; "__code__"; "__closure__"; "__dict__"; "__subclasses__";
   "__bases__"; "__mro__"; "__builtins__"; "__spec__"; "__loader__"]%string.

Inductive NameContext : Type := Access | FunctionDefinition | Assignment.

Definition is_name_allowed (name : string) : bool := negb (bool_decide (name ∈ DANGEROUS_NAMES)).

Section Security.
Context `{External}.

Definition validate_name (ctx : NameContext) (name : string) : EvalResult () :=
  if bool_decide (name ∈ DANGEROUS_NAMES) then
    fail (Security (match ctx with
      | Access => "access to '" ++ name ++ "' is not allowed"
      | FunctionDefinition => "function name '" ++ name ++ "' is a dangerous builtin and not allowed"
      | Assignment => "cannot assign to dangerous name '" ++ name ++ "'"
      end))
  else Ok ().

Definition validate_attribute (attr_name : string) : EvalResult () :=
  if bool_decide (attr_name ∈ BLOCKED_ATTRIBUTES)
  then fail (Security ("access to '" ++ attr_name ++ "' is not permitted for security reasons"))
  else Ok ().
End Security.

(** * The state *)

(** The syntax trees of the parser crate, with the two views the import path
    takes of a statement. *)
Class Trees : Type := {
  Stmt : Type;
  Expr : Type;
  as_function_def : Stmt -> option (string * list Stmt);
  as_expression : Stmt -> option Expr;
  as_lambda_body : Expr -> option Expr
}.

Section State.
Context `{External} `{Trees}.

Record LambdaDef : Type := mkLambdaDef {
  l_params : FunctionParams;
  lambda_id : string;
  lambda_source : string;
  l_closure : list (string * Value);
  l_assigned_names : list string;
  l_is_module_level : bool;
  l_cell_refreshes : list (string * Z);
  l_qualname : string
}.

Inductive BuiltinIterState : Type :=
| Count (next step : Value)
| Cycle (items : list Value) (pos : nat)
| Repeat (value : Value)
| ListIter (list : loc) (index : nat)
| BytearrayIter (data : loc) (index : nat).

(** Where a suspended generator is: in a [for] loop (or, with no target, in the
    rest of a [yield from]), in a phase of a [try], in a branch of an [if] or in the
    body of a [with], whose managers have been entered. *)
Record GeneratorForState : Type := mkForState {
  fs_items : list Value;
  fs_pos : nat;
  fs_body_index : nat;
  fs_target : string;
  fs_lazy_source : option Value;
  fs_current_item : option Value
}.

Inductive TryPhase : Type := PhaseBody | PhaseHandler (index : nat) | PhaseOrelse | PhaseFinally.
Record TryResume : Type := mkTryResume { tr_phase : TryPhase; tr_index : nat }.
Record IfResume : Type := mkIfResume { ir_in_orelse : bool; ir_index : nat }.
Record WithResume : Type := mkWithResume { wr_index : nat; wr_managers : list Value }.

(** A loop of [while_resume] is keyed by the offset of its statement. *)
Record GeneratorFrame : Type := mkGeneratorFrame {
  g_func_name : string;
  g_source : string;
  g_body : list Stmt;
  g_touched : list string;
  g_locals : gmap string Value;
  g_started : bool;
  g_finished : bool;
  g_closed : bool;
  g_send_value : Value;
  g_resume_at_yield : bool;
  g_pending_throw : option ExceptionValue;
  g_stmt_index : nat;
  g_for_stack : list GeneratorForState;
  g_while_resume : list (Z * nat);
  g_try_stack : list TryResume;
  g_if_stack : list IfResume;
  g_with_stack : list WithResume;
  g_yield_from_return : option Value;
  g_delegating_to : option Z
}.

(** A running method: what zero-argument [super()] reads. *)
Record MethodFrame : Type := mkMethodFrame {
  defining_class : string;
  mf_self_value : Value;
  self_local_name : option string
}.

(** The fields of [InterpreterState] the operations below use; the function and
    lambda records behind their [Arc]s are kept beside the heap, and so is the
    thread-local [EQ_OVERFLOW] of [cycle.rs]. *)
Record InterpreterState : Type := mkState {
  variables : gmap string Value;
  classes : gmap string ClassValue;
  print_buffer : text;
  stdout_redirects : list loc;
  function_bodies : gmap string (list Stmt);
  lambda_bodies : gmap string Expr;
  current_source : string;
  body_source_stack : list string;
  qualname_stack : list string;
  operations_count : Z;
  memory_used_bytes : Z;
  call_depth : Z;
  expr_depth : Z;
  saved_expr_depth : list Z;
  yield_stack : list (list Value);
  generators : gmap Z GeneratorFrame;
  active_generator_stack : list Z;
  lazy_cursors : gmap Z Z;
  next_cursor_id : Z;
  builtin_iters : gmap Z BuiltinIterState;
  next_builtin_iter_id : Z;
  nonlocal_cells : gmap Z (gmap string Value);
  next_nonlocal_cell_id : Z;
  frame_cell_owners : list (gmap string Z);
  config : InterpreterConfig;
  heap : Heap;
  functions : gmap loc FunctionDef;
  lambdas : gmap loc LambdaDef;
  active_exception_stack : list ExceptionValue;
  eq_overflow : bool;
  repr_active : gset (loc + loc);
  function_attrs : gmap string (list (string * Value));
  decimal_prec : Z;
  method_frames : list MethodFrame
}.

Definition set_variables v s := mkState v (classes s) (print_buffer s) (stdout_redirects s) (function_bodies s)
  (lambda_bodies s) (current_source s) (body_source_stack s) (qualname_stack s) (operations_count s)
  (memory_used_bytes s) (call_depth s) (expr_depth s) (saved_expr_depth s) (yield_stack s) (generators s)
  (active_generator_stack s) (lazy_cursors s) (next_cursor_id s) (builtin_iters s) (next_builtin_iter_id s)
  (nonlocal_cells s) (next_nonlocal_cell_id s) (frame_cell_owners s) (config s) (heap s) (functions s)
  (lambdas s) (active_exception_stack s) (eq_overflow s) (repr_active s) (function_attrs s) (decimal_prec s) (method_frames s).
Definition set_print_buffer b s := mkState (variables s) (classes s) b (stdout_redirects s) (function_bodies s)
  (lambda_bodies s) (current_source s) (body_source_stack s) (qualname_stack s) (operations_count s)
  (memory_used_bytes s) (call_depth s) (expr_depth s) (saved_expr_depth s) (yield_stack s) (generators s)
  (active_generator_stack s) (lazy_cursors s) (next_cursor_id s) (builtin_iters s) (next_builtin_iter_id s)
  (nonlocal_cells s) (next_nonlocal_cell_id s) (frame_cell_owners s) (config s) (heap s) (functions s)
  (lambdas s) (active_exception_stack s) (eq_overflow s) (repr_active s) (function_attrs s) (decimal_prec s) (method_frames s).
Definition set_redirects rs s := mkState (variables s) (classes s) (print_buffer s) rs (function_bodies s)
  (lambda_bodies s) (current_source s) (body_source_stack s) (qualname_stack s) (operations_count s)
  (memory_used_bytes s) (call_depth s) (expr_depth s) (saved_expr_depth s) (yield_stack s) (generators s)
  (active_generator_stack s) (lazy_cursors s) (next_cursor_id s) (builtin_iters s) (next_builtin_iter_id s)
  (nonlocal_cells s) (next_nonlocal_cell_id s) (frame_cell_owners s) (config s) (heap s) (functions s)
  (lambdas s) (active_exception_stack s) (eq_overflow s) (repr_active s) (function_attrs s) (decimal_prec s) (method_frames s).
Definition set_program cs fb lb s := mkState (variables s) cs (print_buffer s) (stdout_redirects s) fb lb
  (current_source s) (body_source_stack s) (qualname_stack s) (operations_count s) (memory_used_bytes s)
  (call_depth s) (expr_depth s) (saved_expr_depth s) (yield_stack s) (generators s) (active_generator_stack s)
  (lazy_cursors s) (next_cursor_id s) (builtin_iters s) (next_builtin_iter_id s) (nonlocal_cells s)
  (next_nonlocal_cell_id s) (frame_cell_owners s) (config s) (heap s) (functions s) (lambdas s)
  (active_exception_stack s) (eq_overflow s) (repr_active s) (function_attrs s) (decimal_prec s) (method_frames s).
Definition set_qualnames qs s := mkState (variables s) (classes s) (print_buffer s) (stdout_redirects s)
  (function_bodies s) (lambda_bodies s) (current_source s) (body_source_stack s) qs (operations_count s)
  (memory_used_bytes s) (call_depth s) (expr_depth s) (saved_expr_depth s) (yield_stack s) (generators s)
  (active_generator_stack s) (lazy_cursors s) (next_cursor_id s) (builtin_iters s) (next_builtin_iter_id s)
  (nonlocal_cells s) (next_nonlocal_cell_id s) (frame_cell_owners s) (config s) (heap s) (functions s)
  (lambdas s) (active_exception_stack s) (eq_overflow s) (repr_active s) (function_attrs s) (decimal_prec s) (method_frames s).
Definition set_operations n s := mkState (variables s) (classes s) (print_buffer s) (stdout_redirects s)
  (function_bodies s) (lambda_bodies s) (current_source s) (body_source_stack s) (qualname_stack s) n
  (memory_used_bytes s) (call_depth s) (expr_depth s) (saved_expr_depth s) (yield_stack s) (generators s)
  (active_generator_stack s) (lazy_cursors s) (next_cursor_id s) (builtin_iters s) (next_builtin_iter_id s)
  (nonlocal_cells s) (next_nonlocal_cell_id s) (frame_cell_owners s) (config s) (heap s) (functions s)
  (lambdas s) (active_exception_stack s) (eq_overflow s) (repr_active s) (function_attrs s) (decimal_prec s) (method_frames s).
Definition set_memory n s := mkState (variables s) (classes s) (print_buffer s) (stdout_redirects s)
  (function_bodies s) (lambda_bodies s) (current_source s) (body_source_stack s) (qualname_stack s)
  (operations_count s) n (call_depth s) (expr_depth s) (saved_expr_depth s) (yield_stack s) (generators s)
  (active_generator_stack s) (lazy_cursors s) (next_cursor_id s) (builtin_iters s) (next_builtin_iter_id s)
  (nonlocal_cells s) (next_nonlocal_cell_id s) (frame_cell_owners s) (config s) (heap s) (functions s)
  (lambdas s) (active_exception_stack s) (eq_overflow s) (repr_active s) (function_attrs s) (decimal_prec s) (method_frames s).
Definition set_depths c e saved s := mkState (variables s) (classes s) (print_buffer s) (stdout_redirects s)
  (function_bodies s) (lambda_bodies s) (current_source s) (body_source_stack s) (qualname_stack s)
  (operations_count s) (memory_used_bytes s) c e saved (yield_stack s) (generators s) (active_generator_stack s)
  (lazy_cursors s) (next_cursor_id s) (builtin_iters s) (next_builtin_iter_id s) (nonlocal_cells s)
  (next_nonlocal_cell_id s) (frame_cell_owners s) (config s) (heap s) (functions s) (lambdas s)
  (active_exception_stack s) (eq_overflow s) (repr_active s) (function_attrs s) (decimal_prec s) (method_frames s).
Definition set_lazy m n s := mkState (variables s) (classes s) (print_buffer s) (stdout_redirects s)
  (function_bodies s) (lambda_bodies s) (current_source s) (body_source_stack s) (qualname_stack s)
  (operations_count s) (memory_used_bytes s) (call_depth s) (expr_depth s) (saved_expr_depth s) (yield_stack s)
  (generators s) (active_generator_stack s) m n (builtin_iters s) (next_builtin_iter_id s) (nonlocal_cells s)
  (next_nonlocal_cell_id s) (frame_cell_owners s) (config s) (heap s) (functions s) (lambdas s)
  (active_exception_stack s) (eq_overflow s) (repr_active s) (function_attrs s) (decimal_prec s) (method_frames s).
Definition set_iters m n s := mkState (variables s) (classes s) (print_buffer s) (stdout_redirects s)
  (function_bodies s) (lambda_bodies s) (current_source s) (body_source_stack s) (qualname_stack s)
  (operations_count s) (memory_used_bytes s) (call_depth s) (expr_depth s) (saved_expr_depth s) (yield_stack s)
  (generators s) (active_generator_stack s) (lazy_cursors s) (next_cursor_id s) m n (nonlocal_cells s)
  (next_nonlocal_cell_id s) (frame_cell_owners s) (config s) (heap s) (functions s) (lambdas s)
  (active_exception_stack s) (eq_overflow s) (repr_active s) (function_attrs s) (decimal_prec s) (method_frames s).
Definition set_cells m s := mkState (variables s) (classes s) (print_buffer s) (stdout_redirects s)
  (function_bodies s) (lambda_bodies s) (current_source s) (body_source_stack s) (qualname_stack s)
  (operations_count s) (memory_used_bytes s) (call_depth s) (expr_depth s) (saved_expr_depth s) (yield_stack s)
  (generators s) (active_generator_stack s) (lazy_cursors s) (next_cursor_id s) (builtin_iters s)
  (next_builtin_iter_id s) m (next_nonlocal_cell_id s) (frame_cell_owners s) (config s) (heap s) (functions s)
  (lambdas s) (active_exception_stack s) (eq_overflow s) (repr_active s) (function_attrs s) (decimal_prec s) (method_frames s).
Definition set_next_cell n s := mkState (variables s) (classes s) (print_buffer s) (stdout_redirects s)
  (function_bodies s) (lambda_bodies s) (current_source s) (body_source_stack s) (qualname_stack s)
  (operations_count s) (memory_used_bytes s) (call_depth s) (expr_depth s) (saved_expr_depth s) (yield_stack s)
  (generators s) (active_generator_stack s) (lazy_cursors s) (next_cursor_id s) (builtin_iters s)
  (next_builtin_iter_id s) (nonlocal_cells s) n (frame_cell_owners s) (config s) (heap s) (functions s)
  (lambdas s) (active_exception_stack s) (eq_overflow s) (repr_active s) (function_attrs s) (decimal_prec s) (method_frames s).
Definition set_owners os s := mkState (variables s) (classes s) (print_buffer s) (stdout_redirects s)
  (function_bodies s) (lambda_bodies s) (current_source s) (body_source_stack s) (qualname_stack s)
  (operations_count s) (memory_used_bytes s) (call_depth s) (expr_depth s) (saved_expr_depth s) (yield_stack s)
  (generators s) (active_generator_stack s) (lazy_cursors s) (next_cursor_id s) (builtin_iters s)
  (next_builtin_iter_id s) (nonlocal_cells s) (next_nonlocal_cell_id s) os (config s) (heap s) (functions s)
  (lambdas s) (active_exception_stack s) (eq_overflow s) (repr_active s) (function_attrs s) (decimal_prec s) (method_frames s).
Definition set_heap h s := mkState (variables s) (classes s) (print_buffer s) (stdout_redirects s)
  (function_bodies s) (lambda_bodies s) (current_source s) (body_source_stack s) (qualname_stack s)
  (operations_count s) (memory_used_bytes s) (call_depth s) (expr_depth s) (saved_expr_depth s) (yield_stack s)
  (generators s) (active_generator_stack s) (lazy_cursors s) (next_cursor_id s) (builtin_iters s)
  (next_builtin_iter_id s) (nonlocal_cells s) (next_nonlocal_cell_id s) (frame_cell_owners s) (config s) h
  (functions s) (lambdas s) (active_exception_stack s) (eq_overflow s) (repr_active s) (function_attrs s) (decimal_prec s) (method_frames s).
Definition set_functions fs s := mkState (variables s) (classes s) (print_buffer s) (stdout_redirects s)
  (function_bodies s) (lambda_bodies s) (current_source s) (body_source_stack s) (qualname_stack s)
  (operations_count s) (memory_used_bytes s) (call_depth s) (expr_depth s) (saved_expr_depth s) (yield_stack s)
  (generators s) (active_generator_stack s) (lazy_cursors s) (next_cursor_id s) (builtin_iters s)
  (next_builtin_iter_id s) (nonlocal_cells s) (next_nonlocal_cell_id s) (frame_cell_owners s) (config s)
  (heap s) fs (lambdas s) (active_exception_stack s) (eq_overflow s) (repr_active s) (function_attrs s) (decimal_prec s) (method_frames s).
Definition set_lambdas ls s := mkState (variables s) (classes s) (print_buffer s) (stdout_redirects s)
  (function_bodies s) (lambda_bodies s) (current_source s) (body_source_stack s) (qualname_stack s)
  (operations_count s) (memory_used_bytes s) (call_depth s) (expr_depth s) (saved_expr_depth s) (yield_stack s)
  (generators s) (active_generator_stack s) (lazy_cursors s) (next_cursor_id s) (builtin_iters s)
  (next_builtin_iter_id s) (nonlocal_cells s) (next_nonlocal_cell_id s) (frame_cell_owners s) (config s)
  (heap s) (functions s) ls (active_exception_stack s) (eq_overflow s) (repr_active s) (function_attrs s) (decimal_prec s) (method_frames s).
Definition set_exceptions es s := mkState (variables s) (classes s) (print_buffer s) (stdout_redirects s)
  (function_bodies s) (lambda_bodies s) (current_source s) (body_source_stack s) (qualname_stack s)
  (operations_count s) (memory_used_bytes s) (call_depth s) (expr_depth s) (saved_expr_depth s) (yield_stack s)
  (generators s) (active_generator_stack s) (lazy_cursors s) (next_cursor_id s) (builtin_iters s)
  (next_builtin_iter_id s) (nonlocal_cells s) (next_nonlocal_cell_id s) (frame_cell_owners s) (config s)
  (heap s) (functions s) (lambdas s) es (eq_overflow s) (repr_active s) (function_attrs s) (decimal_prec s) (method_frames s).
Definition set_overflow b s := mkState (variables s) (classes s) (print_buffer s) (stdout_redirects s)
  (function_bodies s) (lambda_bodies s) (current_source s) (body_source_stack s) (qualname_stack s)
  (operations_count s) (memory_used_bytes s) (call_depth s) (expr_depth s) (saved_expr_depth s) (yield_stack s)
  (generators s) (active_generator_stack s) (lazy_cursors s) (next_cursor_id s) (builtin_iters s)
  (next_builtin_iter_id s) (nonlocal_cells s) (next_nonlocal_cell_id s) (frame_cell_owners s) (config s)
  (heap s) (functions s) (lambdas s) (active_exception_stack s) b (repr_active s) (function_attrs s) (decimal_prec s) (method_frames s).
Definition set_repr_active rs s := mkState (variables s) (classes s) (print_buffer s) (stdout_redirects s)
  (function_bodies s) (lambda_bodies s) (current_source s) (body_source_stack s) (qualname_stack s)
  (operations_count s) (memory_used_bytes s) (call_depth s) (expr_depth s) (saved_expr_depth s) (yield_stack s)
  (generators s) (active_generator_stack s) (lazy_cursors s) (next_cursor_id s) (builtin_iters s)
  (next_builtin_iter_id s) (nonlocal_cells s) (next_nonlocal_cell_id s) (frame_cell_owners s) (config s)
  (heap s) (functions s) (lambdas s) (active_exception_stack s) (eq_overflow s) rs (function_attrs s) (decimal_prec s) (method_frames s).
Definition set_function_attrs fa s := mkState (variables s) (classes s) (print_buffer s) (stdout_redirects s)
  (function_bodies s) (lambda_bodies s) (current_source s) (body_source_stack s) (qualname_stack s)
  (operations_count s) (memory_used_bytes s) (call_depth s) (expr_depth s) (saved_expr_depth s) (yield_stack s)
  (generators s) (active_generator_stack s) (lazy_cursors s) (next_cursor_id s) (builtin_iters s)
  (next_builtin_iter_id s) (nonlocal_cells s) (next_nonlocal_cell_id s) (frame_cell_owners s) (config s)
  (heap s) (functions s) (lambdas s) (active_exception_stack s) (eq_overflow s) (repr_active s) fa (decimal_prec s) (method_frames s).
Definition set_decimal_prec p s := mkState (variables s) (classes s) (print_buffer s) (stdout_redirects s)
  (function_bodies s) (lambda_bodies s) (current_source s) (body_source_stack s) (qualname_stack s)
  (operations_count s) (memory_used_bytes s) (call_depth s) (expr_depth s) (saved_expr_depth s) (yield_stack s)
  (generators s) (active_generator_stack s) (lazy_cursors s) (next_cursor_id s) (builtin_iters s)
  (next_builtin_iter_id s) (nonlocal_cells s) (next_nonlocal_cell_id s) (frame_cell_owners s) (config s)
  (heap s) (functions s) (lambdas s) (active_exception_stack s) (eq_overflow s) (repr_active s) (function_attrs s) p (method_frames s).
Definition set_method_frames fs s := mkState (variables s) (classes s) (print_buffer s) (stdout_redirects s)
  (function_bodies s) (lambda_bodies s) (current_source s) (body_source_stack s) (qualname_stack s)
  (operations_count s) (memory_used_bytes s) (call_depth s) (expr_depth s) (saved_expr_depth s) (yield_stack s)
  (generators s) (active_generator_stack s) (lazy_cursors s) (next_cursor_id s) (builtin_iters s)
  (next_builtin_iter_id s) (nonlocal_cells s) (next_nonlocal_cell_id s) (frame_cell_owners s) (config s)
  (heap s) (functions s) (lambdas s) (active_exception_stack s) (eq_overflow s) (repr_active s) (function_attrs s) (decimal_prec s) fs.
Definition set_sources bs s := mkState (variables s) (classes s) (print_buffer s) (stdout_redirects s)
  (function_bodies s) (lambda_bodies s) (current_source s) bs (qualname_stack s) (operations_count s)
  (memory_used_bytes s) (call_depth s) (expr_depth s) (saved_expr_depth s) (yield_stack s) (generators s)
  (active_generator_stack s) (lazy_cursors s) (next_cursor_id s) (builtin_iters s) (next_builtin_iter_id s)
  (nonlocal_cells s) (next_nonlocal_cell_id s) (frame_cell_owners s) (config s) (heap s) (functions s)
  (lambdas s) (active_exception_stack s) (eq_overflow s) (repr_active s) (function_attrs s) (decimal_prec s) (method_frames s).
Definition set_yields ys s := mkState (variables s) (classes s) (print_buffer s) (stdout_redirects s)
  (function_bodies s) (lambda_bodies s) (current_source s) (body_source_stack s) (qualname_stack s)
  (operations_count s) (memory_used_bytes s) (call_depth s) (expr_depth s) (saved_expr_depth s) ys
  (generators s) (active_generator_stack s) (lazy_cursors s) (next_cursor_id s) (builtin_iters s)
  (next_builtin_iter_id s) (nonlocal_cells s) (next_nonlocal_cell_id s) (frame_cell_owners s) (config s)
  (heap s) (functions s) (lambdas s) (active_exception_stack s) (eq_overflow s) (repr_active s) (function_attrs s) (decimal_prec s) (method_frames s).
Definition set_generators gs s := mkState (variables s) (classes s) (print_buffer s) (stdout_redirects s)
  (function_bodies s) (lambda_bodies s) (current_source s) (body_source_stack s) (qualname_stack s)
  (operations_count s) (memory_used_bytes s) (call_depth s) (expr_depth s) (saved_expr_depth s) (yield_stack s)
  gs (active_generator_stack s) (lazy_cursors s) (next_cursor_id s) (builtin_iters s) (next_builtin_iter_id s)
  (nonlocal_cells s) (next_nonlocal_cell_id s) (frame_cell_owners s) (config s) (heap s) (functions s)
  (lambdas s) (active_exception_stack s) (eq_overflow s) (repr_active s) (function_attrs s) (decimal_prec s) (method_frames s).
Definition set_active gs s := mkState (variables s) (classes s) (print_buffer s) (stdout_redirects s)
  (function_bodies s) (lambda_bodies s) (current_source s) (body_source_stack s) (qualname_stack s)
  (operations_count s) (memory_used_bytes s) (call_depth s) (expr_depth s) (saved_expr_depth s) (yield_stack s)
  (generators s) gs (lazy_cursors s) (next_cursor_id s) (builtin_iters s) (next_builtin_iter_id s)
  (nonlocal_cells s) (next_nonlocal_cell_id s) (frame_cell_owners s) (config s) (heap s) (functions s)
  (lambdas s) (active_exception_stack s) (eq_overflow s) (repr_active s) (function_attrs s) (decimal_prec s) (method_frames s).

(** A class shaped like a named tuple. *)
Definition namedtuple_class (name : string) (fields : list string) : ClassValue :=
  let c := ClassValue_new name in
  {| c_name := c_name c; methods := methods c;
     class_attrs := {["_fields" := VTuple (map (fun f => VString (lit f)) fields)]};
     bases := bases c; mro := mro c; properties := properties c; static_methods := static_methods c;
     class_methods := class_methods c; enum_kind := enum_kind c; enum_members := enum_members c;
     annotations := annotations c; dataclass_fields := dataclass_fields c; frozen := frozen c;
     order := order c; total_ordering := total_ordering c; has_slots := has_slots c;
     slot_names := slot_names c; abstract_methods := abstract_methods c; metaclass := metaclass c;
     c_qualname := c_qualname c; is_generic := is_generic c; initvar_fields := initvar_fields c |}.

Definition seeded_classes : gmap string ClassValue :=
  <["DecimalTuple" := namedtuple_class "DecimalTuple" ["sign"; "digits"; "exponent"]]>
  (<["CacheInfo" := namedtuple_class "CacheInfo" ["hits"; "misses"; "maxsize"; "currsize"]]>
  (<["datetime.IsoCalendarDate" := namedtuple_class "datetime.IsoCalendarDate" ["year"; "week"; "weekday"]]>
  {["time.struct_time" := namedtuple_class "time.struct_time"
     ["tm_year"; "tm_mon"; "tm_mday"; "tm_hour"; "tm_min"; "tm_sec"; "tm_wday"; "tm_yday"; "tm_isdst"]]})).

Definition new_state (c : InterpreterConfig) : InterpreterState := {|
  variables := {["__name__" := VString (lit "__main__")]};
  classes := seeded_classes; print_buffer := []; stdout_redirects := []; function_bodies := ∅;
  lambda_bodies := ∅; current_source := ""; body_source_stack := []; qualname_stack := []; operations_count := 0; memory_used_bytes := 0;
  call_depth := 0; expr_depth := 0; saved_expr_depth := []; yield_stack := []; generators := ∅; active_generator_stack := [];
  lazy_cursors := ∅; next_cursor_id := 0;
  builtin_iters := ∅; next_builtin_iter_id := 0; nonlocal_cells := ∅; next_nonlocal_cell_id := 0; frame_cell_owners := [];
  config := c; heap := empty_heap; functions := ∅; lambdas := ∅;
  active_exception_stack := []; eq_overflow := false; repr_active := ∅; function_attrs := ∅; decimal_prec := 28; method_frames := []
|}.

(** A mutating call: the state afterwards, and the error if it failed. *)
Abbreviation Call := (InterpreterState * option InterpreterError)%type.

Definition qualname_for (s : InterpreterState) (name : string) : string :=
  match list.last (qualname_stack s) with
  | Some parent => parent ++ "." ++ name
  | None => name
  end.

(** ** Depth limits ([u32] counters, saturating) *)

Definition u32_max : Z := 2 ^ 32 - 1.
Definition saturating_add (limit a b : Z) : Z := Z.min (a + b) limit.
Definition saturating_sub (a b : Z) : Z := Z.max (a - b) 0.

Definition enter_call (s : InterpreterState) : Call :=
  if call_depth s >=? max_recursion_depth (config s)
  then (s, Some (RecursionLimitExceeded (max_recursion_depth (config s))))
  else (set_depths (saturating_add u32_max (call_depth s) 1) 0
          (saved_expr_depth s ++ [expr_depth s]) s, None).

Definition exit_call (s : InterpreterState) : InterpreterState :=
  let depth := saturating_sub (call_depth s) 1 in
  match list.last (saved_expr_depth s) with
  | Some saved => set_depths depth saved (removelast (saved_expr_depth s)) s
  | None => set_depths depth (expr_depth s) (saved_expr_depth s) s
  end.

Definition enter_expr (s : InterpreterState) : Call :=
  if expr_depth s >=? max_recursion_depth (config s)
  then (s, Some (RecursionLimitExceeded (max_recursion_depth (config s))))
  else (set_depths (call_depth s) (saturating_add u32_max (expr_depth s) 1) (saved_expr_depth s) s, None).

Definition exit_expr (s : InterpreterState) : InterpreterState :=
  set_depths (call_depth s) (saturating_sub (expr_depth s) 1) (saved_expr_depth s) s.

(** ** Memory, output and operation limits (64-bit [usize]) *)

Definition over_memory (s : InterpreterState) : option InterpreterError :=
  if memory_used_bytes s >? max_memory_bytes (config s)
  then Some (LimitExceeded ("memory usage (" ++ pretty (memory_used_bytes s) ++
               " bytes) exceeds limit (" ++ pretty (max_memory_bytes (config s)) ++ " bytes)"))
  else None.

Definition check_memory (s : InterpreterState) : Call := (s, over_memory s).

Definition track_allocation (bytes : Z) (s : InterpreterState) : Call :=
  let s := set_memory (saturating_add usize_max (memory_used_bytes s) bytes) s in (s, over_memory s).

Definition release_allocation (bytes : Z) (s : InterpreterState) : InterpreterState :=
  set_memory (saturating_sub (memory_used_bytes s) bytes) s.

(** [size_delta] of eval/place.rs on sizes, which an [isize] clamps. *)
Definition to_isize (n : Z) : Z := Z.min n i64_max.
Definition size_delta (old new : Z) : Z := to_isize new - to_isize old.

(** Overwriting the characters of a [StringIO] from its cursor on. *)
Definition stringio_write (io : text * Z) (t : text) : text * Z :=
  let insert_at := Z.to_nat (Z.min io.2 (Z.of_nat (length io.1))) in
  (take insert_at io.1 ++ t ++ drop (insert_at + length t) io.1, Z.of_nat (insert_at + length t)).

Definition append_print (t : text) (s : InterpreterState) : Call :=
  match list.last (stdout_redirects s) with
  | Some target =>
      let h := heap s in
      let io := default ([], 0) (stringios h !! target) in
      (set_heap (mkHeap (lists h) (dicts h) (sets h) (bytearrays h)
                   (<[target := stringio_write io t]> (stringios h)) (instance_fields h)) s, None)
  | None =>
      let new_len := text_len (print_buffer s) + text_len t in
      if new_len >? max_stdout_bytes (config s) then
        (s, Some (LimitExceeded ("print output (" ++ pretty new_len ++ " bytes) exceeds limit (" ++
                    pretty (max_stdout_bytes (config s)) ++ " bytes)")))
      else track_allocation (text_len t) (set_print_buffer (print_buffer s ++ t) s)
  end.

Definition clear_print_buffer (s : InterpreterState) : InterpreterState := set_print_buffer [] s.
Definition reset_operations (s : InterpreterState) : InterpreterState := set_operations 0 s.

(** [elapsed] is the clock's reading since the start of the execution, in
    nanoseconds, and [debug] the standard library's rendering of a duration. *)
Definition increment_ops (debug : Z -> string) (elapsed : Z) (s : InterpreterState) : Call :=
  let s := set_operations (wrap64 (operations_count s + 1)) s in
  if operations_count s >=? max_operations (config s) then
    (s, Some (LimitExceeded ("exceeded maximum of " ++ pretty (max_operations (config s)) ++ " operations")))
  else if operations_count s mod 100 =? 0 then
    match over_memory s with
    | Some e => (s, Some e)
    | None =>
        match max_execution_time (config s) with
        | Some max_time =>
            if elapsed >? max_time
            then (s, Some (LimitExceeded ("execution time exceeded " ++ debug max_time)))
            else (s, None)
        | None => (s, None)
        end
    end
  else (s, None).

(** ** Variables. [size] is the byte estimate of a value in a heap. *)

Section Variables.
Variable size : Heap -> Value -> Z.

Definition write_through (name : string) (value : Value) (s : InterpreterState) : InterpreterState :=
  match list.last (frame_cell_owners s) with
  | Some owners =>
      match owners !! name with
      | Some cell_id =>
          let cell := default ∅ (nonlocal_cells s !! cell_id) in
          set_cells (<[cell_id := <[name := value]> cell]> (nonlocal_cells s)) s
      | None => s
      end
  | None => s
  end.

Definition set_variable (name : string) (value : Value) (s : InterpreterState) : Call :=
  let s1 := match variables s !! name with
            | Some old => release_allocation (size (heap s) old) s
            | None => s
            end in
  let s2 := set_memory (saturating_add usize_max (memory_used_bytes s1) (size (heap s) value)) s1 in
  let s3 := write_through name value s2 in
  check_memory (set_variables (<[name := value]> (variables s3)) s3).

Definition get_variable (name : string) (s : InterpreterState) : option Value := variables s !! name.

Definition delete_variable (name : string) (s : InterpreterState) : Call :=
  match variables s !! name with
  | Some old =>
      (release_allocation (size (heap s) old) (set_variables (base.delete name (variables s)) s), None)
  | None => (s, Some (name_not_defined name))
  end.
End Variables.

(** ** Iterators *)

Definition alloc_builtin_iter (kind : BuiltinIterName) (st : BuiltinIterState) (s : InterpreterState) :
    Value * InterpreterState :=
  let id := next_builtin_iter_id s in
  (VBuiltinIter id kind, set_iters (<[id := st]> (builtin_iters s)) (wrap64 (id + 1)) s).

Definition alloc_lazy_kind (items : list Value) (kind : LazyKind) (s : InterpreterState) :
    Value * InterpreterState :=
  let cursor_id := next_cursor_id s in
  (VLazy items cursor_id kind, set_lazy (<[cursor_id := 0]> (lazy_cursors s)) (wrap64 (cursor_id + 1)) s).

Definition alloc_lazy (items : list Value) (s : InterpreterState) : Value * InterpreterState :=
  alloc_lazy_kind items LGenerator s.

Definition count_as_big (v : Value) : option Z :=
  match v with VInt n | VBigInt n => Some n | VBool b => Some (Z.b2z b) | _ => None end.

Definition count_as_f64 (v : Value) : option f64 :=
  match v with
  | VFloat f => Some f
  | VInt n => Some (f64_of_Z n)
  | VBool b => Some (f64_of_Z (Z.b2z b))
  | VBigInt b => Some (default (f64_inf false) (bigint_to_f64 b))
  | _ => None
  end.

Definition count_add (next step : Value) : Value :=
  match count_as_big next, count_as_big step with
  | Some a, Some b => int_from_bigint (a + b)
  | _, _ =>
      match count_as_f64 next, count_as_f64 step with
      | Some a, Some b => VFloat (f64_add a b)
      | _, _ => next
      end
  end.

(** One step of a cursor: the value, and the cursor afterwards. *)
Definition step_cursor (h : Heap) (st : BuiltinIterState) : option Value * BuiltinIterState :=
  match st with
  | Count next step => (Some next, Count (count_add next step) step)
  | Cycle items pos =>
      match items with
      | [] => (None, st)
      | _ => (items !! pos, Cycle items (Nat.modulo (pos + 1) (length items)))
      end
  | Repeat value => (Some value, st)
  | ListIter l index =>
      match list_at h l !! index with
      | Some v => (Some v, ListIter l (index + 1))
      | None => (None, st)
      end
  | BytearrayIter d index =>
      match bytes_at h d !! index with
      | Some b => (Some (VInt b), BytearrayIter d (index + 1))
      | None => (None, st)
      end
  end.

Definition step_builtin_iter (id : Z) (s : InterpreterState) : option Value * InterpreterState :=
  match builtin_iters s !! id with
  | None => (None, s)
  | Some st =>
      let (v, st') := step_cursor (heap s) st in
      (v, set_iters (<[id := st']> (builtin_iters s)) (next_builtin_iter_id s) s)
  end.
End State.

(** A parser's trees for concrete inputs: definitions, and expressions that
    are lambdas or not. *)
Inductive sample_stmt : Type :=
| SDef (name : string) (body : list sample_stmt)
| SExpr (is_lambda : bool).

Definition sample_trees : Trees := {|
  Stmt := sample_stmt;
  Expr := bool;
  as_function_def := fun s => match s with SDef name body => Some (name, body) | _ => None end;
  as_expression := fun s => match s with SExpr b => Some b | _ => None end;
  as_lambda_body := fun b => if b then Some b else None
|}.
