(* ===== verification/StateThms.v ===== *)
(** Theorems on the interpreter state: the limits as an invariant of every
    reachable state, the discipline of the depth counters, variables and their
    shared cells, and the sequences the builtin iterators produce. *)
From Stdlib Require Import ZArith Lia Ascii String SpecFloat.
From stdpp Require Import base tactics list numbers option strings pretty gmap.
From S2P Require Import Prelude PySet Values Errors F64 Keys Arith Classes State.

Section Limits.
Context `{External} `{Trees}.
Variable size : Heap -> Value -> Z.
Variable debug : Z -> string.

(** The operations on the state, failing ones included. *)
Inductive step : InterpreterState -> InterpreterState -> Prop :=
| step_enter_call s : step s (enter_call s).1
| step_exit_call s : step s (exit_call s)
| step_enter_expr s : step s (enter_expr s).1
| step_exit_expr s : step s (exit_expr s)
| step_print t s : step s (append_print t s).1
| step_clear s : step s (clear_print_buffer s)
| step_reset s : step s (reset_operations s)
| step_ops elapsed s : operations_count s + 1 < 2 ^ 64 -> step s (increment_ops debug elapsed s).1
| step_set x v s : step s (set_variable size x v s).1
| step_delete x s : step s (delete_variable size x s).1
| step_track n s : 0 <= n -> step s (track_allocation n s).1
| step_release n s : 0 <= n -> step s (release_allocation n s)
| step_lazy items kind s : next_cursor_id s + 1 < 2 ^ 64 -> step s (alloc_lazy_kind items kind s).2
| step_iter kind st s : next_builtin_iter_id s + 1 < 2 ^ 64 -> step s (alloc_builtin_iter kind st s).2
| step_advance id s : step s (step_builtin_iter id s).2.

Definition reachable (c : InterpreterConfig) : InterpreterState -> Prop := rtc step (new_state c).

(** What the limits promise of a state. *)
Record within (c : InterpreterConfig) (s : InterpreterState) : Prop := mkWithin {
  w_config : config s = c;
  w_call : 0 <= call_depth s <= max_recursion_depth c;
  w_expr : 0 <= expr_depth s <= max_recursion_depth c;
  w_frames : Z.of_nat (length (saved_expr_depth s)) = call_depth s;
  w_saved : Forall (fun d => 0 <= d <= max_recursion_depth c) (saved_expr_depth s);
  w_print : text_len (print_buffer s) <= max_stdout_bytes c;
  w_memory : 0 <= memory_used_bytes s <= usize_max;
  w_ops : 0 <= operations_count s < 2 ^ 64;
  w_lazy : 0 <= next_cursor_id s < 2 ^ 64 /\
           forall id, is_Some (lazy_cursors s !! id) -> 0 <= id < next_cursor_id s;
  w_iters : 0 <= next_builtin_iter_id s < 2 ^ 64 /\
            forall id, is_Some (builtin_iters s !! id) -> 0 <= id < next_builtin_iter_id s
}.

Definition config_ok (c : InterpreterConfig) : Prop :=
  0 <= max_recursion_depth c <= u32_max /\ 0 <= max_stdout_bytes c.

Lemma text_len_app (a b : text) : text_len (a ++ b) = text_len a + text_len b.
Proof. unfold text_len. induction a as [|x a IH]; simpl; [done|]. rewrite IH. lia. Qed.

Lemma text_len_nonneg (a : text) : 0 <= text_len a.
Proof.
  unfold text_len. induction a as [|x a IH]; simpl; [done|].
  cut (0 <= utf8_width x); [lia|]. unfold utf8_width. repeat case_match; lia.
Qed.

Lemma last_snoc_cases {A} (l : list A) :
  l = [] \/ exists l' x, l = l' ++ [x] /\ list.last l = Some x /\ removelast l = l'.
Proof.
  destruct l as [|x l] using rev_ind; [by left|right].
  exists l, x. rewrite last_snoc, removelast_last. done.
Qed.

Lemma memory_step (s : InterpreterState) c n :
  within c s -> 0 <= n <= usize_max -> within c (set_memory n s).
Proof. intros [] ?. by constructor. Qed.

Lemma saturating_add_range a b : 0 <= a -> 0 <= b -> 0 <= saturating_add usize_max a b <= usize_max.
Proof. unfold saturating_add, usize_max. lia. Qed.

Lemma saturating_sub_range a b :
  0 <= b -> 0 <= a <= usize_max -> 0 <= saturating_sub a b <= usize_max.
Proof. unfold saturating_sub. lia. Qed.

Hypothesis size_nonneg : forall h v, 0 <= size h v.

Lemma release_within c n s : within c s -> 0 <= n -> within c (release_allocation n s).
Proof.
  intros W Hn. apply memory_step; [done|]. apply saturating_sub_range; [done|]. apply W.
Qed.

Lemma track_within c n s : within c s -> 0 <= n -> within c (track_allocation n s).1.
Proof.
  intros W Hn. apply memory_step; [done|]. apply saturating_add_range; [apply W|done].
Qed.

Lemma write_through_within c x v s : within c s -> within c (write_through x v s).
Proof. intros W. unfold write_through. repeat case_match; try done. destruct W. by constructor. Qed.

Lemma set_variable_within c x v s : within c s -> within c (set_variable size x v s).1.
Proof.
  intros W. cbn.
  set (s1 := match variables s !! x with Some _ => _ | None => _ end).
  assert (W1 : within c s1) by (subst s1; case_match; [by apply release_within|done]).
  assert (W2 := track_within c (size (heap s) v) s1 W1 (size_nonneg _ _)).
  apply (write_through_within c x v) in W2. cbn in W2.
  destruct W2. by constructor.
Qed.

Lemma delete_variable_within c x s : within c s -> within c (delete_variable size x s).1.
Proof.
  intros W. unfold delete_variable. destruct (variables s !! x) as [old|]; cbn; [|done].
  apply (release_within c (size (heap s) old) (set_variables (base.delete x (variables s)) s)); [|done].
  destruct W. by constructor.
Qed.

Lemma print_within c t s : within c s -> within c (append_print t s).1.
Proof.
  intros W. unfold append_print. destruct (list.last (stdout_redirects s)); [destruct W; by constructor|].
  cbn zeta. destruct (_ >? _) eqn:E; [done|].
  apply (track_within c (text_len t) (set_print_buffer (print_buffer s ++ t) s)).
  - reflect E. destruct W. constructor; try done.
    cbn. rewrite text_len_app. congruence.
  - apply text_len_nonneg.
Qed.

Lemma depths_within c s : within c s -> config_ok c ->
  within c (enter_call s).1 /\ within c (exit_call s) /\ within c (enter_expr s).1 /\ within c (exit_expr s).
Proof.
  intros W [Hmax _]. destruct W as [Wc Wcall Wexpr Wlen Wsaved Wp Wm Wo Wl Wi].
  split_and!.
  - unfold enter_call. destruct (_ >=? _) eqn:E; [by cbn; constructor|].
    reflect E; rewrite Wc in E. unfold saturating_add. constructor; try done; cbn.
    + lia.
    + lia.
    + rewrite length_app. cbn. lia.
    + rewrite Forall_app, Forall_singleton. done.
  - unfold exit_call. destruct (last_snoc_cases (saved_expr_depth s)) as [E|(l & d & E & -> & ->)].
    + rewrite E in Wlen |- *. cbn in Wlen |- *. unfold saturating_sub. constructor; cbn; rewrite ?E; try done; cbn; lia.
    + rewrite E in Wlen, Wsaved. rewrite length_app in Wlen. cbn in Wlen.
      apply Forall_app in Wsaved as [Wl' Wd]. rewrite Forall_singleton in Wd.
      unfold saturating_sub. constructor; cbn; try done; lia.
  - unfold enter_expr. destruct (_ >=? _) eqn:E; [by cbn; constructor|].
    reflect E; rewrite Wc in E. unfold saturating_add. constructor; cbn; try done. lia.
  - unfold exit_expr, saturating_sub. constructor; cbn; try done. lia.
Qed.

Lemma fresh_key {A} (m : gmap Z A) (n : Z) (a : A) :
  0 <= n -> n + 1 < 2 ^ 64 -> (forall id, is_Some (m !! id) -> 0 <= id < n) ->
  0 <= wrap64 (n + 1) < 2 ^ 64 /\ forall id, is_Some (<[n := a]> m !! id) -> 0 <= id < wrap64 (n + 1).
Proof.
  intros Hn Hw Hm. rewrite wrap64_small by lia. split; [lia|]. intros id.
  destruct (decide (id = n)) as [->|Hne]; [lia|]. rewrite lookup_insert_ne by done.
  intros Hid%Hm. lia.
Qed.

Lemma iters_within c s :
  within c s ->
  (forall items kind, next_cursor_id s + 1 < 2 ^ 64 -> within c (alloc_lazy_kind items kind s).2) /\
  (forall kind st, next_builtin_iter_id s + 1 < 2 ^ 64 -> within c (alloc_builtin_iter kind st s).2) /\
  (forall id, within c (step_builtin_iter id s).2).
Proof.
  intros W. assert (W' := W). destruct W as [Wc Wcall Wexpr Wlen Wsaved Wp Wm Wo [Hl Wl] [Hi Wi]].
  split_and!.
  - intros items kind Hn. constructor; try done. apply fresh_key; [lia|done..].
  - intros kind st Hn. constructor; try done. apply fresh_key; [lia|done..].
  - intros id. unfold step_builtin_iter. destruct (builtin_iters s !! id) eqn:E; [|done].
    destruct (step_cursor _ _). constructor; try done. split; [done|]. cbn. intros id'.
    destruct (decide (id' = id)) as [->|]; [intros _; apply Wi; by eexists|].
    rewrite lookup_insert_ne by done. apply Wi.
Qed.

Lemma ops_within c elapsed s :
  within c s -> operations_count s + 1 < 2 ^ 64 -> within c (increment_ops debug elapsed s).1.
Proof.
  intros W Hn. replace (increment_ops debug elapsed s).1 with (set_operations (wrap64 (operations_count s + 1)) s).
  - destruct W. constructor; try done. cbn. apply wrap64_bound.
  - unfold increment_ops, over_memory. cbn zeta. by repeat case_match.
Qed.

Lemma step_within c s s' : config_ok c -> step s s' -> within c s -> within c s'.
Proof.
  intros Hc Hs W. pose proof (depths_within c s W Hc) as (? & ? & ? & ?).
  pose proof (iters_within c s W) as (Hl & Hb & Ha).
  destruct Hs; auto using print_within, ops_within, set_variable_within, delete_variable_within,
    track_within, release_within.
  - destruct W, Hc. by constructor.
  - destruct W. by constructor.
Qed.

Lemma within_new c : config_ok c -> within c (new_state c).
Proof.
  intros [Hd Hp]. unfold usize_max, u32_max in *. constructor; cbn; try done; try lia;
    (split; [lia|intros id [x Hx]; by rewrite lookup_empty in Hx]).
Qed.

(** C33: Every state reached from a fresh interpreter by any sequence of the
    state's operations, failing ones included, keeps its limits: the call depth
    and the expression depth of the running frame and of every suspended frame
    never exceed the recursion limit, there is exactly one saved expression depth
    per active call, the print buffer never exceeds the output limit, and every
    cursor id ever handed out is below the next one, so no two iterators share a
    cursor. *)
Theorem limits_invariant (c : InterpreterConfig) (s : InterpreterState) :
  config_ok c -> reachable c s -> within c s.
Proof.
  intros Hc Hr. assert (W := within_new c Hc). unfold reachable in Hr. revert W.
  induction Hr as [|s1 s2 s3 H12 _ IH]; [done|]. eauto using step_within.
Qed.
End Limits.

Definition sample_state := @new_state sample_external sample_trees default_config.

Lemma limits_invariant_witness :
  let s := (@enter_call sample_external sample_trees sample_state).1 in
  call_depth s = 1 /\ within default_config s.
Proof.
  split; [reflexivity|].
  apply (limits_invariant (fun _ _ => 0) (fun _ => "") (fun _ _ => Z.le_refl 0)).
  - split; [split|]; discriminate.
  - apply rtc_once, step_enter_call.
Defined.

(** * Depth discipline *)

Section Frames.
Context `{External} `{Trees}.

(** Executions in which every successful entry is paired with its exit, and a
    failed entry with none; anything else leaves the depth counters alone. *)
Definition depths (s : InterpreterState) : Z * Z * list Z := (call_depth s, expr_depth s, saved_expr_depth s).

Inductive balanced : InterpreterState -> InterpreterState -> Prop :=
| bal_other s s' : depths s' = depths s -> config s' = config s -> balanced s s'
| bal_seq s1 s2 s3 : balanced s1 s2 -> balanced s2 s3 -> balanced s1 s3
| bal_call s s1 s2 : enter_call s = (s1, None) -> balanced s1 s2 -> balanced s (exit_call s2)
| bal_call_refused s s1 e : enter_call s = (s1, Some e) -> balanced s s1
| bal_expr s s1 s2 : enter_expr s = (s1, None) -> balanced s1 s2 -> balanced s (exit_expr s2)
| bal_expr_refused s s1 e : enter_expr s = (s1, Some e) -> balanced s s1.

Definition depths_ok (s : InterpreterState) : Prop :=
  0 <= call_depth s <= u32_max /\ 0 <= expr_depth s <= u32_max /\
  Forall (fun d => 0 <= d <= u32_max) (saved_expr_depth s) /\ max_recursion_depth (config s) <= u32_max.

Lemma enter_call_ok s s1 :
  depths_ok s -> enter_call s = (s1, None) ->
  depths s1 = (call_depth s + 1, 0, saved_expr_depth s ++ [expr_depth s]) /\ config s1 = config s /\ depths_ok s1.
Proof.
  intros (Hc & He & Hs & Hm). unfold enter_call. destruct (_ >=? _) eqn:E; [done|].
  reflect E. intros [= <-]. unfold saturating_add, depths_ok, depths. cbn. rewrite Z.min_l by lia.
  rewrite Forall_app, Forall_singleton. split_and!; try done; lia.
Qed.

Lemma enter_expr_ok s s1 :
  depths_ok s -> enter_expr s = (s1, None) ->
  depths s1 = (call_depth s, expr_depth s + 1, saved_expr_depth s) /\ config s1 = config s /\ depths_ok s1.
Proof.
  intros (Hc & He & Hs & Hm). unfold enter_expr. destruct (_ >=? _) eqn:E; [done|].
  reflect E. intros [= <-]. unfold saturating_add, depths_ok, depths. cbn. rewrite Z.min_l by lia.
  split_and!; try done; lia.
Qed.

Lemma refused_same s s1 e : enter_call s = (s1, Some e) \/ enter_expr s = (s1, Some e) -> s1 = s.
Proof. unfold enter_call, enter_expr. intros [?|?]; repeat case_match; congruence. Qed.

Lemma balanced_keeps s s' :
  balanced s s' -> depths_ok s -> depths s' = depths s /\ config s' = config s.
Proof.
  induction 1 as [s s' Hd Hc|s1 s2 s3 _ IH1 _ IH2|s s1 s2 E _ IH|s s1 e E|s s1 s2 E _ IH|s s1 e E]; intros Hok.
  - done.
  - destruct (IH1 Hok) as [E1 C1]. destruct IH2 as [E2 C2]; [|split; congruence].
    unfold depths_ok. unfold depths in E1. injection E1 as -> -> ->. by rewrite C1.
  - destruct (enter_call_ok s s1 Hok E) as (E1 & C1 & Hok1). destruct (IH Hok1) as [E2 C2].
    rewrite E1 in E2. unfold depths in E2. injection E2 as Ec Ee Es.
    unfold exit_call. rewrite Es, last_snoc, removelast_last, Ec. unfold depths, saturating_sub. cbn.
    split; [|congruence]. destruct Hok as (? & _). do 2 f_equal. lia.
  - apply (or_introl (B := enter_expr s = (s1, Some e))), refused_same in E. by subst.
  - destruct (enter_expr_ok s s1 Hok E) as (E1 & C1 & Hok1). destruct (IH Hok1) as [E2 C2].
    rewrite E1 in E2. unfold depths in E2. injection E2 as Ec Ee Es.
    unfold exit_expr, depths, saturating_sub. cbn. rewrite Ec, Ee, Es.
    split; [|congruence]. destruct Hok as (_ & ? & _). do 2 f_equal. lia.
  - apply (or_intror (A := enter_call s = (s1, Some e))), refused_same in E. by subst.
Qed.

(** However calls and expressions nest, an execution that pairs every
    successful [enter_call] and [enter_expr] with its exit ends with the call
    depth, the expression depth and the stack of saved depths it started with;
    a refused entry changes nothing, so the caller must not pair it. *)
Theorem frames_restored (s s' : InterpreterState) :
  depths_ok s -> balanced s s' ->
  call_depth s' = call_depth s /\ expr_depth s' = expr_depth s /\ saved_expr_depth s' = saved_expr_depth s.
Proof.
  intros Hok Hb. destruct (balanced_keeps s s' Hb Hok) as [E _]. unfold depths in E. by injection E.
Qed.
End Frames.

Lemma frames_restored_witness :
  let s := sample_state in
  let s1 := (@enter_expr sample_external sample_trees s).1 in
  let s2 := (enter_call s1).1 in
  let s3 := (enter_expr s2).1 in
  let s' := exit_expr (exit_call (exit_expr s3)) in
  saved_expr_depth s3 = [1] /\ expr_depth s3 = 1 /\ expr_depth s' = expr_depth s.
Proof.
  split; [reflexivity|split; [reflexivity|]].
  apply (frames_restored sample_state).
  - unfold depths_ok, u32_max. cbn. split_and!; [lia..|constructor|lia].
  - eapply bal_expr; [reflexivity|]. eapply bal_call; [reflexivity|].
    eapply bal_expr; [reflexivity|]. by apply bal_other.
Defined.

(** * The operation budget *)

Section Budget.
Context `{External} `{Trees}.
Variable debug : Z -> string.

(** Counting operations at the given clock readings, until one is refused. *)
Fixpoint count_ops (clock : list Z) (s : InterpreterState) :
    InterpreterState * option InterpreterError :=
  match clock with
  | [] => (s, None)
  | t :: clock =>
      let (s, e) := increment_ops debug t s in
      match e with Some e => (s, Some e) | None => count_ops clock s end
  end.

Lemma increment_ops_step t s :
  operations_count s + 1 < 2 ^ 64 -> 0 <= operations_count s ->
  (increment_ops debug t s).1 = set_operations (operations_count s + 1) s /\
  ((increment_ops debug t s).2 = None -> operations_count s + 1 < max_operations (config s)) /\
  (operations_count s + 1 < max_operations (config s) -> over_memory s = None ->
   max_execution_time (config s) = None -> (increment_ops debug t s).2 = None).
Proof.
  intros Hn H0'. unfold increment_ops. rewrite wrap64_small by lia. cbn zeta.
  change (operations_count (set_operations _ s)) with (operations_count s + 1).
  change (over_memory (set_operations _ s)) with (over_memory s).
  change (config (set_operations _ s)) with (config s).
  destruct (_ >=? _) eqn:E; rewrite Z.geb_leb in E.
  - apply Z.leb_le in E. split_and!; [done|done|lia].
  - apply Z.leb_gt in E. split_and!.
    + by repeat case_match.
    + intros _. done.
    + intros _ -> ->. by case_match.
Qed.

Lemma count_ops_spec clock s :
  0 <= operations_count s -> operations_count s < max_operations (config s) -> max_operations (config s) < 2 ^ 64 ->
  ((count_ops clock s).2 = None ->
     (count_ops clock s).1 = set_operations (operations_count s + Z.of_nat (length clock)) s /\
     operations_count s + Z.of_nat (length clock) < max_operations (config s)) /\
  (operations_count s + Z.of_nat (length clock) < max_operations (config s) -> over_memory s = None ->
   max_execution_time (config s) = None -> (count_ops clock s).2 = None).
Proof.
  revert s. induction clock as [|t clock IH]; intros s Hs Hlt Hmax; cbn [count_ops length].
  - split; [|done]. intros _. cbn. rewrite Z.add_0_r. by destruct s.
  - destruct (increment_ops_step t s) as (E & Hlo & Hhi); [lia|lia|].
    destruct (increment_ops debug t s) as [s1 o]. cbn in E, Hlo, Hhi. subst s1.
    destruct o as [e|].
    + split; [done|]. intros Hb Ho Ht. discriminate Hhi; [lia|done..].
    + clear Hhi. specialize (Hlo eq_refl). destruct (IH (set_operations (operations_count s + 1) s)) as [IHok IHgo].
      { cbn; lia. } { cbn; lia. } { done. }
      split.
      * intros [Es Hb]%IHok. cbn in Es, Hb. split; [|lia]. rewrite Es. cbn.
        unfold set_operations; cbn. f_equal. lia.
      * intros Hb. apply IHgo. cbn. lia.
Qed.

(** From a reset, exactly [max_operations - 1] operations can be counted: a run
    of [n] counted operations that is not refused has [n < max_operations] and
    leaves the count at [n] and everything else unchanged, and with no time limit
    and the memory within budget every shorter run is accepted. *)
Theorem operation_budget (clock : list Z) (s : InterpreterState) :
  0 < max_operations (config s) < 2 ^ 64 ->
  let n := Z.of_nat (length clock) in
  let r := count_ops clock (reset_operations s) in
  (r.2 = None -> r.1 = set_operations n s /\ n < max_operations (config s)) /\
  (n < max_operations (config s) -> memory_used_bytes s <= max_memory_bytes (config s) ->
   max_execution_time (config s) = None -> r.2 = None).
Proof.
  intros Hm. cbv zeta. destruct (count_ops_spec clock (reset_operations s)) as [Hok Hgo]; [cbn; lia..|].
  split.
  - intros [E Hn]%Hok. cbn in E, Hn. by rewrite E.
  - intros Hn Hmem Ht. apply Hgo; [done| |done]. unfold over_memory.
    destruct (_ >? _) eqn:E; [|done]. reflect E. cbn in E. lia.
Qed.
End Budget.

Lemma operation_budget_witness :
  let s := sample_state in
  (@count_ops sample_external sample_trees (fun _ => "") [0; 0; 0] (reset_operations s)).2 = None /\
  3 < max_operations (config s).
Proof.
  pose proof (operation_budget (fun _ => ""%string) [0; 0; 0] sample_state) as T. cbv zeta in T.
  destruct T as [Hok Hgo]; [cbn; lia|].
  assert (E : (@count_ops sample_external sample_trees (fun _ => ""%string) [0; 0; 0]
                 (reset_operations sample_state)).2 = None).
  { apply Hgo; [reflexivity|discriminate|reflexivity]. }
  split; [exact E|]. exact (proj2 (Hok E)).
Defined.

(** * Variables *)

Section VariableStore.
Context `{External} `{Trees}.
Variable size : Heap -> Value -> Z.

(** The shared cell of a captured variable, as an inner function reads it. *)
Definition cell_value (s : InterpreterState) (cell : Z) (x : string) : option Value :=
  nonlocal_cells s !! cell ≫= lookup x.

(** The cell the running frame owns for a name. *)
Definition owned_cell (s : InterpreterState) (x : string) : option Z :=
  list.last (frame_cell_owners s) ≫= lookup x.

Lemma write_through_cells x v s :
  (forall cell, owned_cell s x = Some cell -> cell_value (write_through x v s) cell x = Some v) /\
  (forall cell y, (owned_cell s x <> Some cell \/ y <> x) ->
     cell_value (write_through x v s) cell y = cell_value s cell y).
Proof.
  unfold write_through, owned_cell, cell_value. destruct (list.last (frame_cell_owners s)) as [owners|]; [|done].
  cbn. destruct (owners !! x) as [c|]; [|done]. cbn. split.
  - intros cell [= <-]. by rewrite lookup_insert_eq; cbn; rewrite lookup_insert_eq.
  - intros cell y [Hne|Hne].
    + rewrite lookup_insert_ne; [done|congruence].
    + destruct (decide (c = cell)) as [->|]; [|by rewrite lookup_insert_ne].
      rewrite lookup_insert_eq. cbn. rewrite lookup_insert_ne by done.
      by destruct (nonlocal_cells s !! cell); cbn; [|rewrite lookup_empty].
Qed.

Lemma write_through_frame x v s :
  variables (write_through x v s) = variables s /\ memory_used_bytes (write_through x v s) = memory_used_bytes s /\
  heap (write_through x v s) = heap s /\ config (write_through x v s) = config s.
Proof. unfold write_through. by repeat case_match. Qed.

Lemma set_variable_fields x v s :
  let s' := (set_variable size x v s).1 in
  variables s' = <[x := v]> (variables s) /\ heap s' = heap s /\ config s' = config s /\
  (forall cell y, cell_value s' cell y = cell_value (write_through x v s) cell y) /\
  memory_used_bytes s' = saturating_add usize_max
    (match variables s !! x with
     | Some old => saturating_sub (memory_used_bytes s) (size (heap s) old)
     | None => memory_used_bytes s
     end) (size (heap s) v).
Proof.
  unfold set_variable, cell_value, check_memory, write_through. cbn.
  destruct (variables s !! x) eqn:E; cbn; (destruct (list.last (frame_cell_owners s)) as [owners|];
    [destruct (owners !! x); cbn|cbn]; done).
Qed.

(** Assignment binds the name and no other, publishes the value to the cell
    inner functions share with the running frame and to no other cell, and is
    refused exactly when the bytes accounted for afterwards exceed the memory
    limit, the binding being made in that case too; deleting the variable
    afterwards unbinds it and gives its bytes back, and deleting an unbound name
    is a name error that changes nothing. *)
Theorem variable_store (x : string) (v : Value) (s : InterpreterState) :
  let s' := (set_variable size x v s).1 in
  (forall y, get_variable y s' = if decide (y = x) then Some v else get_variable y s) /\
  (forall cell, owned_cell s x = Some cell -> cell_value s' cell x = Some v) /\
  (forall cell y, (owned_cell s x <> Some cell \/ y <> x) -> cell_value s' cell y = cell_value s cell y) /\
  ((set_variable size x v s).2 <> None <-> max_memory_bytes (config s) < memory_used_bytes s') /\
  (exists s'', delete_variable size x s' = (s'', None) /\ get_variable x s'' = None /\
     (forall y, y <> x -> get_variable y s'' = get_variable y s) /\
     memory_used_bytes s'' = saturating_sub (memory_used_bytes s') (size (heap s) v)) /\
  (get_variable x s = None -> delete_variable size x s = (s, Some (name_not_defined x))).
Proof.
  destruct (set_variable_fields x v s) as (Ev & Eh & Ec & Ecell & Em).
  destruct (write_through_cells x v s) as [Hown Hother].
  cbv zeta. split_and!.
  - intros y. unfold get_variable. rewrite Ev. case_decide as Hy; [subst; apply lookup_insert_eq|].
    by apply lookup_insert_ne.
  - intros cell Hc. rewrite Ecell. auto.
  - intros cell y Hc. rewrite Ecell. auto.
  - change (set_variable size x v s).2 with (over_memory (set_variable size x v s).1).
    unfold over_memory. rewrite Ec. destruct (_ >? _) eqn:E; rewrite Z.gtb_ltb in E.
    + apply Z.ltb_lt in E. done.
    + apply Z.ltb_ge in E. split; [done|lia].
  - unfold delete_variable, get_variable. rewrite Ev, Eh, lookup_insert_eq. eexists. split; [done|]. cbn.
    split_and!; [apply lookup_delete_eq| |done].
    intros y Hy. by rewrite lookup_delete_ne, lookup_insert_ne.
  - unfold get_variable, delete_variable. by intros ->.
Qed.
End VariableStore.

(** * Redirected output *)

Section Redirect.
Context `{External} `{Trees}.

Definition redirected (s : InterpreterState) (target : loc) : text * Z :=
  default ([], 0) (stringios (heap s) !! target).

(** While output is redirected, printing always succeeds: the target keeps
    its text before the cursor, then holds the printed text, then whatever lay
    beyond it; the cursor ends after the printed text. The print buffer, the
    output limit and the memory account are bypassed. *)
Theorem redirected_print (t : text) (target : loc) (s : InterpreterState) :
  list.last (stdout_redirects s) = Some target ->
  0 <= (redirected s target).2 ->
  exists s', append_print t s = (s', None) /\
    print_buffer s' = print_buffer s /\ memory_used_bytes s' = memory_used_bytes s /\
    let (old, cursor) := redirected s target in
    let (new, cursor') := redirected s' target in
    let at_ := Z.to_nat (Z.min cursor (Z.of_nat (length old))) in
    cursor' = Z.of_nat (at_ + length t) /\
    take at_ new = take at_ old /\ take (length t) (drop at_ new) = t /\
    drop (at_ + length t) new = drop (at_ + length t) old.
Proof.
  intros Hl Hc. unfold append_print. rewrite Hl. eexists. split; [reflexivity|]. cbn.
  split; [done|split; [done|]]. unfold redirected in *. cbn. rewrite lookup_insert_eq. cbn.
  destruct (default ([], 0) (stringios (heap s) !! target)) as [old cursor]. cbn in *.
  set (n := Z.to_nat _). assert (Hn : (n <= length old)%nat) by lia.
  assert (Htn : length (take n old) = n) by (rewrite length_take; lia).
  split_and!; [done| | |].
  - by rewrite take_app_le, take_take, Nat.min_id by lia.
  - rewrite drop_app_ge, Htn, Nat.sub_diag, drop_0 by lia. by rewrite take_app_length.
  - rewrite drop_app_ge, Htn by lia. replace (n + length t - n)%nat with (length t) by lia.
    by rewrite drop_app_length.
Qed.
End Redirect.

(** * The sequences builtin iterators produce *)

Section Iterators.
Context `{External} `{Trees}.

(** [n] calls of [next] on a cursor. *)
Fixpoint advance (n : nat) (id : Z) (s : InterpreterState) : list (option Value) * InterpreterState :=
  match n with
  | O => ([], s)
  | S n =>
      let (v, s) := step_builtin_iter id s in
      let (vs, s) := advance n id s in
      (v :: vs, s)
  end.

Lemma count_as_big_int z : count_as_big (int_from_bigint z) = Some z.
Proof. unfold int_from_bigint. by case_match. Qed.

Lemma count_add_int a d : count_add (int_from_bigint a) (int_from_bigint d) = int_from_bigint (a + d).
Proof. unfold count_add. by rewrite !count_as_big_int. Qed.

Lemma advance_cursor (out : nat -> option Value) (cur : nat -> BuiltinIterState) n id s :
  builtin_iters s !! id = Some (cur 0%nat) ->
  (forall i, step_cursor (heap s) (cur i) = (out i, cur (S i))) ->
  (advance n id s).1 = out <$> seq 0 n.
Proof.
  revert s out cur. induction n as [|n IH]; intros s out cur E Hs; [done|].
  cbn [advance]. unfold step_builtin_iter. rewrite E, Hs.
  set (s1 := set_iters _ _ s).
  assert (E1 := IH s1 (fun i => out (S i)) (fun i => cur (S i))).
  destruct (advance n id s1) as [vs s2]. cbn [fst snd] in *.
  rewrite E1; [|apply lookup_insert_eq|intros i; apply Hs].
  cbn. f_equal. by rewrite <- fmap_S_seq, <- list_fmap_compose.
Qed.

Lemma advance_others n id id' s :
  id' <> id -> builtin_iters (advance n id s).2 !! id' = builtin_iters s !! id'.
Proof.
  intros Hid. revert s. induction n as [|n IH]; intros s; [done|]. cbn [advance].
  assert (E : builtin_iters (step_builtin_iter id s).2 !! id' = builtin_iters s !! id').
  { unfold step_builtin_iter. case_match; [|done]. case_match. by apply lookup_insert_ne. }
  destruct (step_builtin_iter id s) as [v s1]. specialize (IH s1).
  destruct (advance n id s1) as [vs s2]. cbn in *. congruence.
Qed.

(** [count] yields [a], [a + d], [a + 2d], ... exactly, past the machine word;
    [cycle] repeats its items from its position; a list iterator yields what the
    list holds from its position and then stays exhausted; and advancing one
    iterator moves no other. *)
Theorem builtin_iter_sequence (n : nat) (id : Z) (s : InterpreterState) :
  (forall a d, builtin_iters s !! id = Some (Count (int_from_bigint a) (int_from_bigint d)) ->
     (advance n id s).1 = (fun i => Some (int_from_bigint (a + Z.of_nat i * d))) <$> seq 0 n) /\
  (forall items pos, builtin_iters s !! id = Some (Cycle items pos) -> (pos < length items)%nat ->
     (advance n id s).1 = (fun i => items !! ((pos + i) mod length items)%nat) <$> seq 0 n) /\
  (forall l pos, builtin_iters s !! id = Some (ListIter l pos) ->
     (advance n id s).1 = (fun i => list_at (heap s) l !! (pos + i)%nat) <$> seq 0 n) /\
  (forall id', id' <> id -> builtin_iters (advance n id s).2 !! id' = builtin_iters s !! id').
Proof.
  split_and!.
  - intros a d E.
    apply (advance_cursor _ (fun i => Count (int_from_bigint (a + Z.of_nat i * d)) (int_from_bigint d)) n id s).
    + by rewrite Z.mul_0_l, Z.add_0_r.
    + intros i. cbn. rewrite count_add_int. do 3 f_equal. lia.
  - intros items pos E Hpos.
    apply (advance_cursor _ (fun i => Cycle items ((pos + i) mod length items)%nat) n id s).
    + by rewrite Nat.add_0_r, Nat.mod_small.
    + intros i. cbn. destruct items as [|x items]; [cbn in Hpos; lia|]. f_equal. f_equal.
      rewrite Nat.Div0.add_mod_idemp_l. f_equal. lia.
  - intros l pos E. set (len := length (list_at (heap s) l)).
    apply (advance_cursor _ (fun i => ListIter l (if decide (pos <= len)%nat then (pos + i) `min` len else pos)%nat)
             n id s).
    + rewrite E. do 2 f_equal. case_decide; lia.
    + intros i. cbn. case_decide as Hle; [destruct (decide (pos + i < len)%nat) as [Hlt|Hge]|].
      * rewrite Nat.min_l by lia. destruct (lookup_lt_is_Some_2 _ _ Hlt) as [v Hv]. rewrite Hv.
        do 2 f_equal. lia.
      * rewrite Nat.min_r, !lookup_ge_None_2 by lia. do 2 f_equal. lia.
      * rewrite !lookup_ge_None_2 by lia. done.
  - intros id'. apply advance_others.
Qed.
End Iterators.

Lemma redirected_print_witness :
  exists s : @InterpreterState sample_external sample_trees,
    list.last (stdout_redirects s) = Some 0%nat /\ redirected s 0%nat = (lit "abcdef", 1) /\
    exists s', append_print (lit "XY") s = (s', None) /\ print_buffer s' = print_buffer s /\
      redirected s' 0%nat = (lit "aXYdef", 3).
Proof.
  set (h := @mkHeap sample_external ∅ ∅ ∅ ∅ {[0%nat := (lit "abcdef", 1)]} ∅).
  set (s := set_heap h (@mkState sample_external sample_trees ∅ ∅ [] [0%nat] ∅ ∅ "" [] [] 0 0 0 0 []
    [] ∅ [] ∅ 0 ∅ 0 ∅ 0 [] default_config empty_heap ∅ ∅ [] false ∅ ∅ 28 [])).
  exists s. split; [reflexivity|split; [reflexivity|]].
  destruct (redirected_print (lit "XY") 0%nat s) as (s' & E & Ep & _); [reflexivity|discriminate|].
  exists s'. split; [exact E|split; [exact Ep|]]. unfold append_print in E. injection E as <-. reflexivity.
Defined.

Lemma builtin_iter_sequence_witness :
  let s := @set_iters sample_external sample_trees
             {[0 := Count (VInt i64_max) (VInt 1); 1 := Cycle [VInt 7; VInt 8] 1]} 2 sample_state in
  (advance 2 0 s).1 = [Some (VInt i64_max); Some (VBigInt (2 ^ 63))] /\
  (advance 3 1 s).1 = [Some (VInt 8); Some (VInt 7); Some (VInt 8)].
Proof.
  intros s. split.
  - rewrite (proj1 (builtin_iter_sequence 2 0 s) i64_max 1); reflexivity.
  - rewrite (proj1 (proj2 (builtin_iter_sequence 3 1 s)) [VInt 7; VInt 8] 1%nat); [reflexivity..|cbn; lia].
Defined.
