(* ===== verification/Exceptions.v ===== *)
(** [try] statements ([exceptions.rs]): handler selection, [except] and
    [except*] handlers, [finally], and the context chained to escaping
    exceptions. Statements and expressions are evaluated through the interface
    [Evaluator]. *)
From Stdlib Require Import ZArith Lia Ascii String SpecFloat.
From stdpp Require Import base tactics list numbers option strings pretty gmap.
From S2P Require Import Prelude PySet Values Errors F64 Keys Arith Classes ValueEq State.

(** * Messages *)

(** [Display for InterpreterError]. *)
Definition display_error (e : InterpreterError) : string :=
  match e with
  | Syntax m => "SyntaxError: " ++ m
  | Security m => "SecurityError: " ++ m
  | Runtime m => "RuntimeError: " ++ m
  | LimitExceeded m => "LimitExceeded: " ++ m
  | RecursionLimitExceeded limit =>
      "RecursionError: maximum recursion depth exceeded (" ++ pretty limit ++ ")"
  | ToolError tool_name message => "ToolError in '" ++ tool_name ++ "': " ++ message
  | NameError m => "NameError: " ++ m
  | TypeError m => "TypeError: " ++ m
  | ValueError m => "ValueError: " ++ m
  | AttributeError m => "AttributeError: " ++ m
  | AssertionError m => "AssertionError: " ++ m
  | PythonException type_name message => type_name ++ ": " ++ message
  | StateFormatSuperseded found expected =>
      "interpreter state format superseded: found version " ++ pretty found ++ ", expected " ++
      pretty expected ++ "; host must restart from initial step"
  end.

(** [str::rfind]. *)
Fixpoint rfind (pat s : string) : option nat :=
  match s with
  | EmptyString => if String.prefix pat s then Some 0%nat else None
  | String _ s' =>
      match rfind pat s' with
      | Some i => Some (S i)
      | None => if String.prefix pat s then Some 0%nat else None
      end
  end.

Fixpoint ends_with_paren (s : string) : bool :=
  match s with
  | EmptyString => false
  | String c EmptyString => Ascii.eqb c ")"
  | String _ s => ends_with_paren s
  end.

Definition strip_line_marker (msg : string) : string :=
  match rfind " (at line " msg with
  | Some idx => if ends_with_paren msg then substring 0 idx msg else msg
  | None => msg
  end.

Section Convert.
Context `{External}.

Definition interpreter_error_to_exception (err : InterpreterError) : ExceptionValue :=
  let stripped m := name_text (strip_line_marker m) in
  match err with
  | TypeError msg => ExceptionValue_new "TypeError" (stripped msg)
  | ValueError msg => ExceptionValue_new "ValueError" (stripped msg)
  | NameError msg => ExceptionValue_new "NameError" (stripped msg)
  | AttributeError msg => ExceptionValue_new "AttributeError" (stripped msg)
  | AssertionError msg => ExceptionValue_new "AssertionError" (stripped msg)
  | PythonException type_name message => ExceptionValue_new type_name (stripped message)
  | Runtime msg => ExceptionValue_new "RuntimeError" (stripped msg)
  | RecursionLimitExceeded _ =>
      ExceptionValue_new "RecursionError" (name_text "maximum recursion depth exceeded")
  | ToolError tool_name message =>
      ExceptionValue_new "Exception"
        (name_text ("ToolError in '" ++ tool_name ++ "': " ++ strip_line_marker message))
  | _ => ExceptionValue_new "Exception" (stripped (display_error err))
  end.

(** [ExceptionValue::group]: the nested exceptions are also a fresh list among
    the arguments. *)
Definition ExceptionValue_group (h : Heap) (type_name : string) (message : text)
    (exceptions : list ExceptionValue) : ExceptionValue * Heap :=
  let (l, h) := shared_list h (map VException exceptions) in
  (mkException type_name message None [VString message; VList l] None (Some exceptions) [], h).

(** [BTreeMap::insert] on the sequence of entries in key order. *)
Fixpoint bt_insert {A} (m : list (string * A)) (k : string) (v : A) : list (string * A) :=
  match m with
  | [] => [(k, v)]
  | (k', v') :: m' =>
      if String.eqb k k' then (k, v) :: m'
      else if String.ltb k k' then (k, v) :: m
      else (k', v') :: bt_insert m' k v
  end.

Definition bt_contains {A} (m : list (string * A)) (k : string) : bool :=
  existsb (fun e => String.eqb e.1 k) m.
End Convert.

(** * The evaluator, and [try] statements *)

Class Evaluator `{External} `{Trees} : Type := {
  eval_body : InterpreterState -> list Stmt -> InterpreterState * EvalResult Value;
  eval_expr : InterpreterState -> Expr -> InterpreterState * EvalResult Value
}.

Section Try.
Context `{External} `{!Trees} `{!Evaluator}.
Variable size : Heap -> Value -> Z.
Variable structural : Value -> Value -> bool.
(** Bounds the nesting of the arguments compared by [set_implicit_context]; a
    comparison that never returns is a [Panic]. *)
Variable fuel : nat.

Record ExceptHandler : Type := mkHandler {
  type_ : option Expr;
  h_name : option string;
  h_body : list Stmt
}.

Record StmtTry : Type := mkTry {
  body : list Stmt;
  handlers : list ExceptHandler;
  orelse : list Stmt;
  finalbody : list Stmt
}.

(** A state transformer that may fail. *)
Definition Eval (A : Type) : Type := (InterpreterState * EvalResult A)%type.

Definition and_then {A B} (m : Eval A) (f : InterpreterState -> A -> Eval B) : Eval B :=
  match m with
  | (s, Ok a) => f s a
  | (s, Err e) => (s, Err e)
  | (s, Panic) => (s, Panic)
  end.

Definition set_implicit_context (h : Heap) (exc handled : ExceptionValue) : EvalResult ExceptionValue :=
  let already_chained := bt_contains (exc_fields exc) "__context__" in
  is_reraise ← (if bool_decide (exc_type_name exc = exc_type_name handled) &&
                   bool_decide (exc_message exc = exc_message handled)
                then or_panic (slices_equal (value_eqb structural fuel h) (exc_args exc) (exc_args handled))
                else Ok false);
  if negb already_chained && negb is_reraise
  then Ok (with_fields exc (bt_insert (exc_fields exc) "__context__" (VException handled)))
  else Ok exc.

Definition chain_context (h : Heap) (err : EvalError) (handled : ExceptionValue) : EvalResult EvalError :=
  match err with
  | Exception exc => exc ← set_implicit_context h exc handled; Ok (Exception exc)
  | _ => Ok err
  end.

Definition matches_handler (s : InterpreterState) (exc : ExceptionValue) (handler : ExceptHandler) :
    Eval bool :=
  match type_ handler with
  | None => (s, Ok true)
  | Some type_expr =>
      and_then (eval_expr s type_expr) (fun s type_val =>
        (s, Ok (match type_val with
                | VTuple types => existsb (matches_exception_type (classes s) exc) types
                | _ => matches_exception_type (classes s) exc type_val
                end)))
  end.

(** Binding the handler's variable, if it has one. *)
Definition bind_name (s : InterpreterState) (name : option string) (exc : ExceptionValue) : Eval () :=
  match name with
  | Some name =>
      match set_variable size name (VException exc) s with
      | (s, Some e) => (s, Err (Interpreter e))
      | (s, None) => (s, Ok ())
      end
  | None => (s, Ok ())
  end.

Definition unbind_name (s : InterpreterState) (name : option string) : InterpreterState :=
  match name with Some name => (delete_variable size name s).1 | None => s end.

Definition push_exception (exc : ExceptionValue) (s : InterpreterState) : InterpreterState :=
  set_exceptions (active_exception_stack s ++ [exc]) s.
Definition pop_exception (s : InterpreterState) : InterpreterState :=
  set_exceptions (removelast (active_exception_stack s)) s.

(** The handler's body, with the exception on the active stack. *)
Definition run_body (s : InterpreterState) (exc : ExceptionValue) (body : list Stmt) : Eval Value :=
  let (s, r) := eval_body (push_exception exc s) body in (pop_exception s, r).

Definition run_handler (s : InterpreterState) (exc : ExceptionValue) (h : ExceptHandler) :
    Eval (Value * option EvalError) :=
  and_then (s, match list.last (active_exception_stack s) with
               | Some outer => set_implicit_context (heap s) exc outer
               | None => Ok exc
               end) (fun s exc =>
  and_then (bind_name s (h_name h) exc) (fun s _ =>
  let (s, r) := run_body s exc (h_body h) in
  and_then (s, match r with
               | Ok val => Ok (val, None)
               | Err err => err ← chain_context (heap s) err exc; Ok (VNone, Some err)
               | Panic => Panic
               end) (fun s out =>
  (unbind_name s (h_name h), Ok out)))).

Fixpoint try_match_handlers (s : InterpreterState) (exc : ExceptionValue) (handlers : list ExceptHandler) :
    Eval (option (Value * option EvalError)) :=
  match handlers with
  | [] => (s, Ok None)
  | h :: handlers =>
      and_then (matches_handler s exc h) (fun s (matched : bool) =>
        if matched then and_then (run_handler s exc h) (fun s out => (s, Ok (Some out)))
        else try_match_handlers s exc handlers)
  end.

(** ** [except*] *)

Fixpoint split_leaves (s : InterpreterState) (h : ExceptHandler) (leaves : list ExceptionValue) :
    Eval (list ExceptionValue * list ExceptionValue) :=
  match leaves with
  | [] => (s, Ok ([], []))
  | leaf :: leaves =>
      and_then (matches_handler s leaf h) (fun s (matched : bool) =>
      and_then (split_leaves s h leaves) (fun s '(yes, no) =>
        (s, Ok (if matched then (leaf :: yes, no) else (yes, leaf :: no)))))
  end.

Definition alloc_group (s : InterpreterState) (message : text) (excs : list ExceptionValue) :
    InterpreterState * ExceptionValue :=
  let (group, h) := ExceptionValue_group (heap s) "ExceptionGroup" message excs in (set_heap h s, group).

(** What is left when the loop over the handlers ends. *)
Definition reraise_remaining (s : InterpreterState) (message : text) (remaining : list ExceptionValue)
    (any_matched : bool) (last_value : Value) : Eval (option (Value * option EvalError)) :=
  match remaining with
  | [] => (s, Ok (if any_matched then Some (last_value, None) else None))
  | leaf :: rest =>
      if match rest, exc_exceptions leaf with [], None => true | _, _ => false end
      then (s, Ok (Some (last_value, Some (Exception leaf))))
      else let (s, group) := alloc_group s message remaining in
           (s, Ok (Some (last_value, Some (Exception group))))
  end.

Fixpoint star_loop (s : InterpreterState) (message : text) (handlers : list ExceptHandler)
    (remaining : list ExceptionValue) (any_matched : bool) (last_value : Value) :
    Eval (option (Value * option EvalError)) :=
  match handlers with
  | [] => reraise_remaining s message remaining any_matched last_value
  | h :: handlers =>
      if match remaining with [] => true | _ => false end
      then reraise_remaining s message remaining any_matched last_value
      else
        and_then (split_leaves s h remaining) (fun s '(matched, unmatched) =>
        if match matched with [] => true | _ => false end
        then star_loop s message handlers unmatched any_matched last_value
        else
          let (s, group) := alloc_group s message matched in
          and_then (bind_name s (h_name h) group) (fun s _ =>
          match run_body s group (h_body h) with
          | (s, Panic) => (s, Panic)
          | (s, Err err) =>
              and_then (s, chain_context (heap s) err group) (fun s err =>
              (s, Ok (Some (last_value, Some err))))
          | (s, Ok val) => star_loop (unbind_name s (h_name h)) message handlers unmatched true val
          end))
  end.

Definition try_match_star_handlers (s : InterpreterState) (exc : ExceptionValue)
    (handlers : list ExceptHandler) : Eval (option (Value * option EvalError)) :=
  star_loop s (exc_message exc) handlers
    (match exc_exceptions exc with Some nested => nested | None => [exc] end) false VNone.

(** ** The statement *)

(** The [finally] block, then the pending error. *)
Definition finish (s : InterpreterState) (node : StmtTry) (result : Value) (pending : option EvalError) :
    Eval Value :=
  let outcome pending := match pending with Some err => Err err | None => Ok result end in
  match finalbody node with
  | [] => (s, outcome pending)
  | final =>
      match eval_body s final with
      | (s, Ok _) => (s, outcome pending)
      | (s, Err finally_err) => (s, Err finally_err)
      | (s, Panic) => (s, Panic)
      end
  end.

Section Shape.
Variable match_handlers :
  InterpreterState -> ExceptionValue -> list ExceptHandler -> Eval (option (Value * option EvalError)).

(** An error of the body that handlers may catch. *)
Definition handle (s : InterpreterState) (node : StmtTry) (exc : ExceptionValue) (original : EvalError) :
    Eval Value :=
  and_then (match_handlers s exc (handlers node)) (fun s caught =>
    match caught with
    | Some (value, new_error) => finish s node value new_error
    | None => finish s node VNone (Some original)
    end).

Definition try_with (s : InterpreterState) (node : StmtTry) : Eval Value :=
  match eval_body s (body node) with
  | (s, Ok val) =>
      match eval_body s (orelse node) with
      | (s, Ok val) => finish s node val None
      | (s, Err e) => finish s node val (Some e)
      | (s, Panic) => (s, Panic)
      end
  | (s, Err (Signal (Yield v))) => (s, Err (Signal (Yield v)))
  | (s, Err (Signal sig)) => finish s node VNone (Some (Signal sig))
  | (s, Err (Exception exc)) => handle s node exc (Exception exc)
  | (s, Err (Interpreter ie)) => handle s node (interpreter_error_to_exception ie) (Interpreter ie)
  | (s, Panic) => (s, Panic)
  end.
End Shape.

Definition eval_try : InterpreterState -> StmtTry -> Eval Value := try_with try_match_handlers.
Definition eval_try_star : InterpreterState -> StmtTry -> Eval Value := try_with try_match_star_handlers.
End Try.
