(* ===== verification/ExceptionsThms.v ===== *)
(** Theorems on [try] statements: which handler runs, what [except*] does with
    the leaves of a group, and when [finally] runs. *)
From Stdlib Require Import ZArith Lia Ascii String SpecFloat.
From stdpp Require Import base tactics list numbers option strings pretty gmap.
From S2P Require Import Prelude PySet Values Errors F64 Keys Arith Classes ValueEq State StateThms Exceptions.

(** * Sample evaluators *)

(** Statements of the samples: a definition raises its name, a true expression
    prints a dot, a false one is [return]. *)
Fixpoint sample_body (b : list sample_stmt) (s : @InterpreterState sample_external sample_trees) :
    @InterpreterState sample_external sample_trees * Outcome (@EvalError sample_external) (@Value sample_external) :=
  match b with
  | [] => (s, Ok VNone)
  | SDef name _ :: _ => (s, raise name "sample")
  | SExpr true :: rest => sample_body rest (append_print (lit ".") s).1
  | SExpr false :: _ => (s, Err (Signal (Return VNone)))
  end.

(** [named]: the type expressions are names; [undefined]: looking them up fails. *)
Definition named : @Evaluator sample_external sample_trees :=
  @Build_Evaluator sample_external sample_trees (fun s b => sample_body b s)
    (fun s e => (s, Ok (VExceptionType (if (e : bool) then "ValueError" else "KeyError")))).

Definition undefined : @Evaluator sample_external sample_trees :=
  @Build_Evaluator sample_external sample_trees (fun s b => sample_body b s)
    (fun s _ => (s, fail (name_not_defined "undefined"))).

Lemma sample_body_classes b s : classes (sample_body b s).1 = classes s.
Proof.
  revert s. induction b as [|[name body|[|]] b IH]; intros s; try done. cbn [sample_body]. rewrite IH.
  unfold append_print. by repeat case_match.
Qed.

Definition sample_try (name : string) : @StmtTry sample_trees :=
  @mkTry sample_trees [SDef name []] [@mkHandler sample_trees (Some true) (Some "e"%string) [SExpr true]] [] [SExpr true].

Section Finally.
Context `{External} `{!Trees} `{!Evaluator}.
Variable match_handlers :
  InterpreterState -> ExceptionValue -> list ExceptHandler -> Eval (option (Value * option EvalError)).

(** The body fails with an error the handlers may catch. *)
Inductive raises (s : InterpreterState) (node : StmtTry) : InterpreterState -> ExceptionValue -> EvalError -> Prop :=
| raises_exception s1 exc :
    eval_body s (body node) = (s1, Err (Exception exc)) -> raises s node s1 exc (Exception exc)
| raises_interpreter s1 ie :
    eval_body s (body node) = (s1, Err (Interpreter ie)) ->
    raises s node s1 (interpreter_error_to_exception ie) (Interpreter ie).

(** How control can leave the statement without reaching its [finally] block. *)
Inductive leaves_early (s : InterpreterState) (node : StmtTry) : Eval Value -> Prop :=
| early_yield s' v :
    eval_body s (body node) = (s', Err (Signal (Yield v))) -> leaves_early s node (s', Err (Signal (Yield v)))
| early_handlers s1 s' exc original e :
    raises s node s1 exc original ->
    match_handlers s1 exc (handlers node) = (s', Err e) -> leaves_early s node (s', Err e)
| early_panic s' : leaves_early s node (s', Panic).

(** What the statement has come to when its [finally] block starts. *)
Inductive before_finally (s : InterpreterState) (node : StmtTry) :
    InterpreterState -> Outcome EvalError Value -> Prop :=
| before_else s1 v s2 out :
    eval_body s (body node) = (s1, Ok v) -> eval_body s1 (orelse node) = (s2, out) -> out <> Panic ->
    before_finally s node s2 out
| before_signal s1 sig :
    eval_body s (body node) = (s1, Err (Signal sig)) -> (forall v, sig <> Yield v) ->
    before_finally s node s1 (Err (Signal sig))
| before_caught s1 exc original s2 v new_error :
    raises s node s1 exc original ->
    match_handlers s1 exc (handlers node) = (s2, Ok (Some (v, new_error))) ->
    before_finally s node s2 (match new_error with Some e => Err e | None => Ok v end)
| before_uncaught s1 exc original s2 :
    raises s node s1 exc original ->
    match_handlers s1 exc (handlers node) = (s2, Ok None) -> before_finally s node s2 (Err original).

(** The block runs there, and its own error replaces what was pending. *)
Definition ran_finally (s : InterpreterState) (node : StmtTry) (r : Eval Value) : Prop :=
  exists s1 out, before_finally s node s1 out /\
    r = match eval_body s1 (finalbody node) with
        | (s2, Ok _) => (s2, out)
        | (s2, Err e) => (s2, Err e)
        | (s2, Panic) => (s2, Panic)
        end.

Lemma finish_runs s s1 node result pending :
  finalbody node <> [] ->
  before_finally s node s1 (match pending with Some e => Err e | None => Ok result end) ->
  ran_finally s node (finish s1 node result pending).
Proof.
  intros Hf Hb. exists s1. eexists. split; [exact Hb|]. unfold finish.
  by destruct (finalbody node) as [|st final].
Qed.

Lemma handle_runs s s1 node exc original :
  finalbody node <> [] -> raises s node s1 exc original ->
  let r := handle match_handlers s1 node exc original in leaves_early s node r \/ ran_finally s node r.
Proof.
  intros Hf Hb r. subst r. unfold handle.
  destruct (match_handlers s1 exc (handlers node)) as [s2 [[[v e]|]|e|]] eqn:E; simpl.
  - right. apply finish_runs; [done|]. by eapply before_caught.
  - right. apply finish_runs; [done|]. by eapply before_uncaught.
  - left. by eapply early_handlers.
  - left. constructor.
Qed.

Lemma try_with_runs s node :
  finalbody node <> [] ->
  let r := try_with match_handlers s node in leaves_early s node r \/ ran_finally s node r.
Proof.
  intros Hf r. subst r. unfold try_with.
  destruct (eval_body s (body node)) as [s1 [val|[ie|sig|exc]|]] eqn:E.
  - destruct (eval_body s1 (orelse node)) as [s2 [v|e|]] eqn:E2; [right..|left; constructor];
      (apply finish_runs; [done|]); by eapply before_else.
  - apply handle_runs; [done|by constructor].
  - destruct sig as [| |v|v]; [right..|left; by apply early_yield];
      (apply finish_runs; [done|]); by apply before_signal.
  - apply handle_runs; [done|by constructor].
  - left. constructor.
Qed.
End Finally.

Section TryFacts.
Context `{External} `{!Trees} `{!Evaluator}.
Variable size : Heap -> Value -> Z.
Variable structural : Value -> Value -> bool.
Variable fuel : nat.

(** C36: A [try] or [try]/[except*] statement with a [finally] block always ends by
    running it, an error of the block replacing any pending one, with exactly two
    exceptions besides a panic: the body is suspended by a [yield] (the resumed
    statement runs it), or finding or starting a handler itself fails - an
    expression naming the exception type raises, or binding the exception exceeds
    the memory limit - in which case that error leaves the statement at once. *)
Theorem finally_runs (s : InterpreterState) (node : StmtTry) :
  finalbody node <> [] ->
  (let r := eval_try size structural fuel s node in
   leaves_early (try_match_handlers size structural fuel) s node r \/ ran_finally (try_match_handlers size structural fuel) s node r) /\
  (let r := eval_try_star size structural fuel s node in
   leaves_early (try_match_star_handlers size structural fuel) s node r \/
     ran_finally (try_match_star_handlers size structural fuel) s node r).
Proof. intros Hf. split; by apply try_with_runs. Qed.

(** [break], [continue] and [return] in the body of a [try] are not offered to
    the handlers: whatever the handlers are, the statement runs [finally] and the
    signal propagates unless that block fails. *)
Theorem signals_pass_handlers (s s1 : InterpreterState) (node : StmtTry) (sig : ControlFlow) :
  eval_body s (body node) = (s1, Err (Signal sig)) ->
  (forall hs, eval_try size structural fuel s node =
     eval_try size structural fuel s (mkTry (body node) hs (orelse node) (finalbody node))) /\
  (finalbody node = [] -> eval_try size structural fuel s node = (s1, Err (Signal sig))) /\
  (forall s2 v, (forall v, sig <> Yield v) -> finalbody node <> [] ->
     eval_body s1 (finalbody node) = (s2, Ok v) ->
     eval_try size structural fuel s node = (s2, Err (Signal sig))).
Proof.
  intros E. unfold eval_try, try_with, finish. cbn [body orelse finalbody handlers]. rewrite E. split_and!.
  - intros hs. by destruct sig.
  - intros ->. by destruct sig.
  - intros s2 v Hy Hf Ef. destruct (finalbody node) as [|st final]; [done|].
    rewrite Ef. destruct sig; try done. by destruct (Hy v0).
Qed.
End TryFacts.

(** * Which handler runs *)

Section Handlers.
Context `{External} `{!Trees} `{!Evaluator}.
Variable size : Heap -> Value -> Z.
Variable structural : Value -> Value -> bool.
Variable fuel : nat.

(** Type expressions that only look a name up. *)
Variable types : Expr -> Value.
Hypothesis types_pure : forall s e, eval_expr s e = (s, Ok (types e)).

Definition handler_matches (classes : gmap string ClassValue) (exc : ExceptionValue) (h : ExceptHandler) : bool :=
  match type_ h with
  | None => true
  | Some e =>
      match types e with
      | VTuple ts => existsb (matches_exception_type classes exc) ts
      | t => matches_exception_type classes exc t
      end
  end.

Lemma matches_handler_pure s exc h :
  matches_handler s exc h = (s, Ok (handler_matches (classes s) exc h)).
Proof.
  unfold matches_handler, handler_matches. destruct (type_ h) as [e|]; [|done].
  rewrite types_pure. cbn. by destruct (types e).
Qed.

Lemma try_match_find s exc hs :
  try_match_handlers size structural fuel s exc hs =
  match List.find (handler_matches (classes s) exc) hs with
  | None => (s, Ok None)
  | Some h => and_then (run_handler size structural fuel s exc h) (fun s out => (s, Ok (Some out)))
  end.
Proof.
  induction hs as [|h hs IH]; [done|]. cbn [try_match_handlers List.find].
  rewrite matches_handler_pure. cbn. by destruct (handler_matches _ exc h).
Qed.

(** The exception a handler sees differs from the one raised at most in its
    attributes (the chained context). *)
Definition same_exception (e e' : ExceptionValue) : Prop :=
  exists fields, e' = with_fields e fields.

Lemma with_fields_self e : e = with_fields e (exc_fields e).
Proof. by destruct e. Qed.

Lemma implicit_context_same h exc handled e :
  set_implicit_context structural fuel h exc handled = Ok e -> same_exception exc e.
Proof.
  unfold set_implicit_context. intros E. apply bind_Ok in E as (b & _ & E).
  destruct (negb _ && negb b); injection E as <-; eexists; [done|apply with_fields_self].
Qed.

Lemma and_then_ok {A B} (m : Eval A) (f : InterpreterState -> A -> Eval B) s b :
  and_then m f = (s, Ok b) -> exists s1 a, m = (s1, Ok a) /\ f s1 a = (s, Ok b).
Proof. destruct m as [s1 [a|e|]]; simpl; intros E; try done. by exists s1, a. Qed.

Lemma bind_name_ok s name exc s' :
  bind_name size s name exc = (s', Ok ()) ->
  (forall x, name = Some x -> get_variable x s' = Some (VException exc)) /\
  active_exception_stack s' = active_exception_stack s /\ classes s' = classes s /\ heap s' = heap s.
Proof.
  unfold bind_name. destruct name as [x|]; [|by intros [= <-]].
  destruct (set_variable size x (VException exc) s) as [s1 [e|]] eqn:E; [done|]. intros [= <-].
  apply (f_equal fst) in E. cbn in E. subst s1. split_and!.
  - intros y [= <-]. apply lookup_insert_eq.
  - cbn. unfold write_through, release_allocation. by repeat case_match.
  - cbn. unfold write_through, release_allocation. by repeat case_match.
  - cbn. unfold write_through, release_allocation. by repeat case_match.
Qed.

Lemma unbind_name_facts s name :
  (forall x, name = Some x -> get_variable x (unbind_name size s name) = None) /\
  active_exception_stack (unbind_name size s name) = active_exception_stack s /\
  classes (unbind_name size s name) = classes s.
Proof.
  unfold unbind_name, delete_variable, get_variable. destruct name as [x|]; [|done].
  destruct (variables s !! x) eqn:E; cbn; split_and!; try done; intros y [= <-]; [|done].
  apply lookup_delete_eq.
Qed.

(** What it means for a handler to have run from [s] to [s']. *)
Definition handler_ran (s : InterpreterState) (exc : ExceptionValue) (h : ExceptHandler)
    (s' : InterpreterState) (v : Value) (err : option EvalError) : Prop :=
  exists exc' s1 s2 r,
    same_exception exc exc' /\
    (forall x, h_name h = Some x -> get_variable x s1 = Some (VException exc')) /\
    active_exception_stack s1 = active_exception_stack s ++ [exc'] /\
    eval_body s1 (h_body h) = (s2, r) /\
    match r with
    | Ok val => v = val /\ err = None
    | Err (Exception e) => v = VNone /\ exists e', err = Some (Exception e') /\ same_exception e e'
    | Err e => v = VNone /\ err = Some e
    | Panic => False
    end /\
    (forall x, h_name h = Some x -> get_variable x s' = None) /\
    active_exception_stack s' = removelast (active_exception_stack s2).

Lemma run_handler_ran s exc h s' v err :
  run_handler size structural fuel s exc h = (s', Ok (v, err)) -> handler_ran s exc h s' v err.
Proof.
  unfold run_handler. intros E.
  apply and_then_ok in E as (s0 & exc' & E0 & E). injection E0 as <- E0.
  apply and_then_ok in E as (s1 & [] & E1 & E).
  destruct (bind_name_ok _ _ _ _ E1) as (Hx & Ha & _).
  unfold run_body in E. destruct (eval_body (push_exception exc' s1) (h_body h)) as [s2 r] eqn:E2.
  apply and_then_ok in E as (s3 & out & E3 & E). injection E3 as <- E3.
  injection E as <- ->.
  destruct (unbind_name_facts (pop_exception s2) (h_name h)) as (Hu & Hp & _).
  exists exc', (push_exception exc' s1), s2, r. split_and!; try done.
  - destruct (list.last _); [by eapply implicit_context_same|].
    injection E0 as <-. eexists. apply with_fields_self.
  - cbn. by rewrite Ha.
  - destruct r as [val|e|]; [by injection E3 as <- <-| |done].
    apply bind_Ok in E3 as (e' & Ec & [= <- <-]). unfold chain_context in Ec.
    destruct e as [ie|sig|ex]; [by injection Ec as <-..|].
    apply bind_Ok in Ec as (ex' & Ei & [= <-]). split; [done|]. exists ex'. split; [done|].
    by eapply implicit_context_same.
Qed.

(** When the type expressions of the handlers are plain names, an exception runs
    the first handler that matches it and no other, and none when none matches.
    That handler's body runs with the exception bound to its name and on top of
    the active stack; afterwards the name is unbound and the entry popped, and
    the statement goes on with the body's value, or with the signal or exception
    it raised in place of the original. *)
Theorem first_handler_runs (s s' : InterpreterState) (exc : ExceptionValue) (hs : list ExceptHandler) out :
  try_match_handlers size structural fuel s exc hs = (s', Ok out) ->
  match out with
  | None => s' = s /\ Forall (fun h => handler_matches (classes s) exc h = false) hs
  | Some (v, err) =>
      exists before h after, hs = before ++ h :: after /\
        Forall (fun h => handler_matches (classes s) exc h = false) before /\
        handler_matches (classes s) exc h = true /\ handler_ran s exc h s' v err
  end.
Proof.
  rewrite try_match_find. destruct (List.find _ hs) as [h|] eqn:Ef; intros E.
  - apply and_then_ok in E as (s1 & [v err] & E1 & [= <- <-]). apply run_handler_ran in E1.
    clear -Ef E1. induction hs as [|h' hs IH]; [done|]. cbn in Ef.
    destruct (handler_matches (classes s) exc h') eqn:Em.
    + injection Ef as ->. exists [], h, hs. by rewrite Forall_nil.
    + destruct (IH Ef) as (b & h2 & a & -> & Hb & Hm & Hr). exists (h' :: b), h2, a.
      by rewrite Forall_cons.
  - injection E as <- <-. split; [done|]. apply List.Forall_forall. by apply List.find_none.
Qed.

(** ** [except*] *)

Lemma split_leaves_pure s h leaves :
  split_leaves s h leaves =
  (s, Ok (List.filter (fun l => handler_matches (classes s) l h) leaves,
          List.filter (fun l => negb (handler_matches (classes s) l h)) leaves)).
Proof.
  induction leaves as [|l leaves IH]; [done|]. cbn [split_leaves].
  rewrite matches_handler_pure. cbn [and_then]. rewrite IH. cbn.
  by destruct (handler_matches (classes s) l h).
Qed.

(** The leaves none of the handlers matches. *)
Definition unmatched (cs : gmap string ClassValue) (hs : list ExceptHandler) (leaves : list ExceptionValue) :=
  List.filter (fun l => negb (existsb (handler_matches cs l) hs)) leaves.

Lemma unmatched_cons cs h hs leaves :
  unmatched cs (h :: hs) leaves =
  unmatched cs hs (List.filter (fun l => negb (handler_matches cs l h)) leaves).
Proof.
  unfold unmatched. induction leaves as [|l leaves IH]; [done|]. cbn.
  destruct (handler_matches cs l h) eqn:E; cbn; [done|].
  destruct (existsb _ hs); cbn; [done|]. by f_equal.
Qed.

Lemma filter_nothing {A} (f : A -> bool) l :
  List.filter f l = [] -> List.filter (fun x => negb (f x)) l = l.
Proof.
  induction l as [|x l IH]; [done|]. cbn. destruct (f x); [done|]. cbn. intros E. by rewrite IH.
Qed.

(** The exception surfaced for leaves nobody matched. *)
Definition surfaced (rest : list ExceptionValue) (err : option EvalError) : Prop :=
  match rest with
  | [] => err = None
  | l :: ls => exists e, err = Some (Exception e) /\
      (e = l /\ ls = [] /\ exc_exceptions l = None \/
       exc_type_name e = "ExceptionGroup"%string /\ exc_exceptions e = Some rest)
  end.

Lemma reraise_surfaced s message rest any v s' out :
  reraise_remaining s message rest any v = (s', Ok out) ->
  match out with
  | None => rest = [] /\ any = false
  | Some (_, err) => surfaced rest err
  end.
Proof.
  unfold reraise_remaining, surfaced. destruct rest as [|l ls].
  - intros [= <- <-]. by destruct any.
  - destruct ls as [|l' ls]; [destruct (exc_exceptions l) eqn:El|];
      unfold alloc_group, ExceptionValue_group, shared_list; cbn; intros [= <- <-]; eexists; (split; [done|]);
      [by right|by left|by right].
Qed.

Hypothesis body_classes : forall s b, classes (eval_body s b).1 = classes s.

Lemma star_loop_spec s message hs remaining any v s' out :
  Forall (fun h => forall s, exists v, (eval_body s (h_body h)).2 = Ok v) hs ->
  star_loop size structural fuel s message hs remaining any v = (s', Ok out) ->
  match out with
  | None => remaining = [] /\ any = false
  | Some (_, err) => surfaced (unmatched (classes s) hs remaining) err
  end.
Proof.
  intros Hb. revert s remaining any v. induction Hb as [|h hs Hh Hb IH]; intros s remaining any v.
  - intros E. apply reraise_surfaced in E. unfold unmatched. cbn.
    assert (List.filter (fun _ : ExceptionValue => true) remaining = remaining) as ->; [|done].
    clear. induction remaining; cbn; congruence.
  - cbn [star_loop]. destruct remaining as [|l ls] eqn:Er; [intros E; by apply reraise_surfaced in E|].
    rewrite <- Er. rewrite split_leaves_pure. cbn [and_then]. rewrite unmatched_cons.
    destruct (List.filter _ remaining) as [|m ms] eqn:Em.
    { intros E. apply IH in E. destruct out as [[w err]|]; [done|].
      rewrite (filter_nothing _ _ Em) in E. done. }
    destruct (alloc_group s message (m :: ms)) as [s1 group] eqn:Eg. intros E.
    assert (C1 : classes s1 = classes s) by (unfold alloc_group in Eg; case_match; by injection Eg as <- _).
    apply and_then_ok in E as (s2 & [] & E2 & E).
    destruct (bind_name_ok _ _ _ _ E2) as (_ & _ & C2 & _).
    unfold run_body in E. specialize (Hh (push_exception group s2)).
    pose proof (body_classes (push_exception group s2) (h_body h)) as C3.
    destruct (eval_body (push_exception group s2) (h_body h)) as [s3 r] eqn:E3.
    destruct Hh as [w Hw]. cbn in Hw. subst r.
    apply IH in E. destruct (unbind_name_facts (pop_exception s3) (h_name h)) as (_ & _ & C4).
    rewrite C4 in E. cbn in C3, E. rewrite C3, C2, C1 in E.
    destruct out as [[w' err]|]; [done|]. by destruct E.
Qed.

(** [except*] offers every leaf of the group to the handlers in order: when the
    type expressions are plain names and no handler body fails, exactly the leaves
    that no handler matches are raised again - nothing when there are none, a
    single plain leaf as it is, and otherwise a fresh [ExceptionGroup] of them. *)
Theorem star_reraises_unmatched (s s' : InterpreterState) (exc : ExceptionValue) (hs : list ExceptHandler) out :
  Forall (fun h => forall s, exists v, (eval_body s (h_body h)).2 = Ok v) hs ->
  try_match_star_handlers size structural fuel s exc hs = (s', Ok out) ->
  let leaves := match exc_exceptions exc with Some nested => nested | None => [exc] end in
  match out with
  | None => leaves = []
  | Some (_, err) => surfaced (unmatched (classes s) hs leaves) err
  end.
Proof.
  intros Hb E leaves. apply (star_loop_spec _ _ _ _ _ _ _ _ Hb) in E.
  destruct out as [[v err]|]; [done|]. by destruct E.
Qed.
End Handlers.

(** A mistyped exception name in an [except] clause skips the [finally] block:
    nothing is printed, whereas with a defined name the block prints its dot. *)
Lemma handler_error_skips_finally :
  let run ev s := @eval_try _ _ ev (fun _ _ => 0) (fun _ _ => false) 3 s (sample_try "ValueError") in
  print_buffer (run undefined sample_state).1 = [] /\
  (run undefined sample_state).2 = fail (name_not_defined "undefined") /\
  print_buffer (run named sample_state).1 = lit "..".
Proof. split; [reflexivity|split; reflexivity]. Qed.

Definition zero_size (_ : @Heap sample_external) (_ : @Value sample_external) : Z := 0.
Definition never (_ _ : @Value sample_external) : bool := false.

Lemma finally_runs_witness :
  let r := @eval_try _ _ named zero_size never 3 sample_state (sample_try "KeyError") in
  (@leaves_early _ _ named (@try_match_handlers _ _ named zero_size never 3) sample_state (sample_try "KeyError") r \/
   @ran_finally _ _ named (@try_match_handlers _ _ named zero_size never 3)
    sample_state (sample_try "KeyError") r) /\
  print_buffer r.1 = lit "." /\ r.2 = raise "KeyError" "sample".
Proof.
  split; [|split; reflexivity].
  refine (proj1 (@finally_runs _ _ named zero_size never 3%nat sample_state (sample_try "KeyError") _)).
  discriminate.
Defined.

Lemma signals_pass_handlers_witness :
  let node := @mkTry sample_trees [SExpr true; SExpr false] [@mkHandler sample_trees None None []] [] [SExpr true] in
  let r := @eval_try _ _ named zero_size never 3 sample_state node in
  r.2 = Err (Signal (Return VNone)) /\ print_buffer r.1 = lit "..".
Proof.
  intros node. set (s1 := (append_print (lit ".") sample_state).1).
  destruct (@signals_pass_handlers _ _ named zero_size never 3%nat sample_state s1 node (Return VNone)) as (_ & _ & T);
    [reflexivity|].
  cbv zeta. rewrite (T (append_print (lit ".") s1).1 VNone); [split; reflexivity|discriminate..|reflexivity].
Defined.

Definition only_value_error : @ExceptHandler sample_trees :=
  @mkHandler sample_trees (Some true) (Some "e"%string) [SExpr true].

Lemma first_handler_runs_witness :
  let exc := ExceptionValue_new "ValueError" (lit "sample") in
  let r := @try_match_handlers _ _ named zero_size never 3 sample_state exc
             [@mkHandler sample_trees (Some false) None []; only_value_error] in
  r.2 = Ok (Some (VNone, None)) /\
  exists before h after, [@mkHandler sample_trees (Some false) None []; only_value_error] = before ++ h :: after /\
    @handler_ran _ _ named sample_state exc h r.1 VNone None.
Proof.
  intros exc r. assert (E : r.2 = Ok (Some (VNone, None))) by reflexivity. split; [exact E|].
  destruct (@first_handler_runs _ _ named zero_size never 3%nat
              (fun e => VExceptionType (if (e : bool) then "ValueError" else "KeyError")%string)
              (fun s e => eq_refl) sample_state r.1 exc
              [@mkHandler sample_trees (Some false) None []; only_value_error] (Some (VNone, None))
              (eq_trans (surjective_pairing r) (f_equal (pair r.1) E)))
    as (b & h & a & Eh & _ & _ & Hr).
  by exists b, h, a.
Defined.

Lemma star_reraises_unmatched_witness :
  let key := ExceptionValue_new "KeyError" (lit "k") in
  let value := ExceptionValue_new "ValueError" (lit "v") in
  let group := mkException "ExceptionGroup" (lit "g") None [] None (Some [key; value]) [] in
  let r := @try_match_star_handlers _ _ named zero_size never 3 sample_state group [only_value_error] in
  (exists err, r.2 = Ok (Some (VNone, err)) /\ surfaced [key] err).
Proof.
  intros key value group r.
  assert (E : r.2 = Ok (Some (VNone, Some (Exception key)))) by reflexivity.
  exists (Some (Exception key)). split; [exact E|].
  refine (@star_reraises_unmatched _ _ named zero_size never 3%nat
            (fun e => VExceptionType (if (e : bool) then "ValueError" else "KeyError")%string)
            (fun s e => eq_refl) (fun s b => sample_body_classes b s) sample_state r.1 group [only_value_error]
            (Some (VNone, Some (Exception key))) _ (eq_trans (surjective_pairing r) (f_equal (pair r.1) E))).
  constructor; [|constructor]. intros s. exists VNone. reflexivity.
Defined.
