(* ===== verification/Op.v ===== *)
(** Operations on values that may run user code (eval/op.rs): each tries the
    dunder methods of an instance's class, in CPython's order, and falls back on
    the type objects. A call of a method is the interface [Calls]. *)
From Stdlib Require Import ZArith Lia Ascii String SpecFloat.
From stdpp Require Import base tactics list numbers option strings pretty gmap.
From S2P Require Import Prelude PySet Values Errors F64 Keys Arith Classes Slices Compare Operators State Exceptions.

Inductive UnaryOp : Type := UAdd | USub | Not | Invert.

(** Calls of Python functions and generators, and the slots of type objects
    that live in other components. [drain_bound] bounds the items drawn from a
    generator at once: a longer drain is taken not to return. *)
Class Calls `{External} `{Trees} : Type := {
  call_method : InterpreterState -> FunctionDef -> Value -> list Value -> Eval (Value * Value);
  generator_next : InterpreterState -> Value -> Eval Value;
  str_percent_format_async : InterpreterState -> text -> Value -> Eval Value;
  bytes_percent_format_async : InterpreterState -> list Z -> Value -> Eval Value;
  dispatch_hash : InterpreterState -> Value -> EvalResult Z;
  dispatch_getitem : Heap -> Value -> Value -> EvalResult Value;
  key_error : ValueKey -> ExceptionValue;
  drain_bound : nat
}.

(** The byte estimates of values and keys, [Value::repr] and the [Display] of values. *)
Class Estimates `{External} : Type := {
  size : Heap -> Value -> Z;
  key_size : ValueKey -> Z;
  repr : Heap -> Value -> text;
  display : Heap -> Value -> text
}.

Notation "'let?' ( s , x ) := m 'in' k" := (and_then m (fun s x => k))
  (at level 10, s name, x name, m at level 100, k at level 200).

Section Op.
Context `{External} `{!ExternalOrder} `{!Platform} `{!Formats} `{!Trees} `{!Calls}.

(** A result that only reads the state, and one that may allocate. *)
Definition done {A} (s : InterpreterState) (r : EvalResult A) : Eval A := (s, r).
Definition in_heap {A} (s : InterpreterState) (r : EvalResult (A * Heap)) : Eval A :=
  match r with
  | Ok (a, h) => (set_heap h s, Ok a)
  | Err e => (s, Err e)
  | Panic => (s, Panic)
  end.

(** A structural walk in the state, which holds the thread's overflow flag. *)
Definition walk {A} (s : InterpreterState) (w : Walk (EvalError + A)) : Eval A :=
  match w (eq_overflow s) with
  | Some (inr a, flag) => (set_overflow flag s, Ok a)
  | Some (inl e, flag) => (set_overflow flag s, Err e)
  | None => (s, Panic)
  end.

Definition is_instance (v : Value) : bool := match v with VInstance _ _ => true | _ => false end.

(** ** Slots of user classes *)

Definition instance_slot (s : InterpreterState) (value : Value) (slot_name : string) : option FunctionDef :=
  match value with
  | VInstance class_name _ => snd <$> lookup_method_in_mro (classes s) class_name slot_name
  | _ => None
  end.

Definition invoke_slot (s : InterpreterState) (receiver : Value) (method : FunctionDef) (args : list Value) :
    Eval (Value * Value) := call_method s method receiver args.

(** The returned value alone. *)
Definition returned (s : InterpreterState) (receiver : Value) (method : FunctionDef) (args : list Value) :
    Eval Value := let? (s, out) := invoke_slot s receiver method args in (s, Ok out.1).

Definition namedtuple_items (s : InterpreterState) (value : Value) : option (list Value) :=
  match value with
  | VInstance class_name fields =>
      class ← classes s !! class_name;
      match class_attrs class !! "_fields" with
      | Some (VTuple field_names) =>
          let fs := default [] (instance_fields (heap s) !! fields) in
          mapM (fun name => match name with
                            | VString fname => Some (default VNone (field_get fs (text_name fname)))
                            | _ => None
                            end) field_names
      | _ => None
      end
  | _ => None
  end.

(** ** Truth *)

Definition not_an_integer {A} (v : Value) : EvalResult A :=
  fail (TypeError ("'" ++ type_name v ++ "' object cannot be interpreted as an integer")).

Definition truthy (s : InterpreterState) (value : Value) : Eval bool :=
  match instance_slot s value "__bool__" with
  | Some method =>
      let? (s, r) := returned s value method [] in
      done s match r with
             | VBool b => Ok b
             | _ => fail (TypeError ("__bool__ should return bool, returned " ++ type_name r))
             end
  | None =>
      match instance_slot s value "__len__" with
      | Some method =>
          let? (s, r) := returned s value method [] in
          done s match r with VInt n => Ok (negb (n =? 0)) | VBool b => Ok b | _ => not_an_integer r end
      | None => done s (Ok (is_truthy (heap s) value))
      end
  end.

(** ** Binary and unary operators *)

Definition binary_slot (op : Operator) : string :=
  match op with
  | Add => "__add__" | Sub => "__sub__" | Mult => "__mul__" | Div => "__truediv__"
  | FloorDiv => "__floordiv__" | Mod => "__mod__" | Pow => "__pow__" | MatMult => "__matmul__"
  | LShift => "__lshift__" | RShift => "__rshift__" | BitOr => "__or__" | BitXor => "__xor__"
  | BitAnd => "__and__"
  end.

Definition reflected_arith_slot (op : Operator) : string :=
  match op with
  | Add => "__radd__" | Sub => "__rsub__" | Mult => "__rmul__" | Div => "__rtruediv__"
  | FloorDiv => "__rfloordiv__" | Mod => "__rmod__" | Pow => "__rpow__" | MatMult => "__rmatmul__"
  | LShift => "__rlshift__" | RShift => "__rrshift__" | BitOr => "__ror__" | BitXor => "__rxor__"
  | BitAnd => "__rand__"
  end.

Definition inplace_arith_slot (op : Operator) : string :=
  match op with
  | Add => "__iadd__" | Sub => "__isub__" | Mult => "__imul__" | Div => "__itruediv__"
  | FloorDiv => "__ifloordiv__" | Mod => "__imod__" | Pow => "__ipow__" | MatMult => "__imatmul__"
  | LShift => "__ilshift__" | RShift => "__irshift__" | BitOr => "__ior__" | BitXor => "__ixor__"
  | BitAnd => "__iand__"
  end.

Definition join (sep : string) (parts : list string) : string :=
  match parts with [] => "" | p :: ps => fold_left (fun acc q => acc ++ sep ++ q) ps p end%string.

Definition compose_flag_name (s : InterpreterState) (class_name : string) (value : Z) : string :=
  match classes s !! class_name with
  | None => pretty value
  | Some class =>
      let bit m := match class_attrs class !! m with
                   | Some (VEnumMember _ _ mv _) => default 0 (value_as_i64 mv)
                   | _ => 0
                   end in
      match List.filter (fun m => negb (bit m =? 0) && (Z.land value (bit m) =? bit m)) (enum_members class) with
      | [] => pretty value
      | parts => join "|" parts
      end
  end.

(** [None] when the pair is not two members of one flag. *)
Definition flag_bitwise (s : InterpreterState) (op : Operator) (left right : Value) : option Value :=
  match left, right with
  | VEnumMember c1 _ v1 kind, VEnumMember c2 _ v2 _ =>
      if negb (is_flag kind) || negb (bool_decide (c1 = c2)) then None
      else
        a ← value_as_i64 v1;
        b ← value_as_i64 v2;
        combined ← match op with
                   | BitOr => Some (Z.lor a b) | BitAnd => Some (Z.land a b) | BitXor => Some (Z.lxor a b)
                   | _ => None
                   end;
        Some (VEnumMember c1 (compose_flag_name s c1 combined) (VInt combined) kind)
  | _, _ => None
  end.

Definition percent_arg_has_instance (h : Heap) (arg : Value) : bool :=
  match arg with
  | VInstance _ _ => true
  | VTuple items => existsb is_instance items
  | VDict l | VOrderedDict l => existsb is_instance (dict_at h l).*2
  | _ => false
  end.

Definition apply (s : InterpreterState) (op : Operator) (left right : Value) : Eval Value :=
  in_heap s (apply_binop (heap s) left right op (max_int_bits (config s))).

(** The slots of the left operand, then of the right one, then the builtins. *)
Definition binop_slots (s : InterpreterState) (op : Operator) (left right : Value) : Eval Value :=
  let builtin s :=
    match op with
    | Add | Mult =>
        let tupled v := default v (VTuple <$> namedtuple_items s v) in
        apply s op (tupled left) (tupled right)
    | _ => apply s op left right
    end in
  let same_class :=
    match left, right with VInstance a _, VInstance b _ => bool_decide (a = b) | _, _ => false end in
  let reflected s :=
    match (if same_class then None else instance_slot s right (reflected_arith_slot op)) with
    | Some method =>
        let? (s, r) := returned s right method [left] in
        match r with VNotImplemented => builtin s | _ => done s (Ok r) end
    | None => builtin s
    end in
  match instance_slot s left (binary_slot op) with
  | Some method =>
      let? (s, r) := returned s left method [right] in
      match r with VNotImplemented => reflected s | _ => done s (Ok r) end
  | None => reflected s
  end.

Definition binop (s : InterpreterState) (op : Operator) (left right : Value) : Eval Value :=
  match (match op with BitOr | BitAnd | BitXor => flag_bitwise s op left right | _ => None end) with
  | Some v => done s (Ok v)
  | None =>
      match op, left with
      | Mod, VString t =>
          if percent_arg_has_instance (heap s) right then str_percent_format_async s t right
          else binop_slots s op left right
      | Mod, VBytes t =>
          if percent_arg_has_instance (heap s) right then bytes_percent_format_async s t right
          else binop_slots s op left right
      | Mod, VByteArray t =>
          if percent_arg_has_instance (heap s) right then
            let? (s, v) := bytes_percent_format_async s (bytes_at (heap s) t) right in
            in_heap s match v with VBytes b => new_bytearray (heap s) b | _ => Ok (v, heap s) end
          else binop_slots s op left right
      | _, _ => binop_slots s op left right
      end
  end.

(** [apply_unaryop]. *)
Definition apply_unaryop (s : InterpreterState) (op : UnaryOp) (operand : Value) : Eval Value :=
  let operand := unwrap_int_enum operand in
  match op with
  | UAdd => done s (unary_add (key_eqb structural_eq) operand)
  | USub => done s (unary_sub (key_eqb structural_eq) operand)
  | Not => let? (s, cond) := truthy s operand in done s (Ok (VBool (negb cond)))
  | Invert => done s (unary_invert operand)
  end.

Definition unaryop (s : InterpreterState) (op : UnaryOp) (operand : Value) : Eval Value :=
  let slot := match op with
              | UAdd => Some "__pos__" | USub => Some "__neg__" | Invert => Some "__invert__" | Not => None
              end%string in
  match slot ≫= instance_slot s operand with
  | Some method => returned s operand method []
  | None => apply_unaryop s op operand
  end.

(** ** Comparison *)

Definition forward_compare_slot (op : CmpOp) : string :=
  match op with
  | OpEq | OpNotEq => "__eq__" | OpLt => "__lt__" | OpLtE => "__le__" | OpGt => "__gt__" | OpGtE => "__ge__"
  end.

Definition reflected_compare_slot (op : CmpOp) : string :=
  match op with
  | OpEq | OpNotEq => "__eq__" | OpLt => "__gt__" | OpLtE => "__ge__" | OpGt => "__lt__" | OpGtE => "__le__"
  end.

(** The first pair of fields that differ decides; [(less, equal)]. *)
Fixpoint compare_fields (h : Heap) (a b : list Value) : Walk (EvalError + bool * bool) :=
  match a, b with
  | x :: a, y :: b =>
      let! eq := values_equal structural_eq EQ_RECURSION_LIMIT none_held h x y in
      if eq : bool then compare_fields h a b
      else
        let! r := dispatch_lt structural_eq set_elem nesting none_held h x y in
        walk_ret match r with inr less => inr (less : bool, false) | inl e => inl e end
  | _, _ => walk_ret (inr (false, true))
  end.

Definition dataclass_order_compare (s : InterpreterState) (op : CmpOp) (left right : Value) :
    option (Eval bool) :=
  match left, right with
  | VInstance a fa, VInstance b fb =>
      if negb (bool_decide (a = b)) then None
      else
        class ← classes s !! a;
        if negb (order class) then None
        else
          fields ← dataclass_fields class;
          let key l := omap (fun f => field_get (default [] (instance_fields (heap s) !! l)) (df_name f))
                            (List.filter df_compare fields) in
          let key_a := key fa in
          let key_b := key fb in
          Some (walk s (
            let! r := compare_fields (heap s) key_a key_b in
            walk_ret match r with
                     | inl e => inl e
                     | inr (less, equal) =>
                         let shorter := equal && negb (length key_a =? length key_b)%nat in
                         let less := if shorter then (length key_a <? length key_b)%nat else less in
                         let equal := equal && negb shorter in
                         inr match op with
                             | OpEq => equal
                             | OpNotEq => negb equal
                             | OpLt => less && negb equal
                             | OpLtE => less || equal
                             | OpGt => negb less && negb equal
                             | OpGtE => negb less || equal
                             end
                     end))
  | _, _ => None
  end.

Definition is_ordering (op : CmpOp) : bool := match op with OpEq | OpNotEq => false | _ => true end.

Definition op_symbol (op : CmpOp) : string :=
  match op with OpEq => "==" | OpNotEq => "!=" | OpLt => "<" | OpLtE => "<=" | OpGt => ">" | OpGtE => ">=" end.

(** The root ordering method a [total_ordering] class defines itself. *)
Definition ordering_root (s : InterpreterState) (op : CmpOp) (left : Value) : option CmpOp :=
  match left with
  | VInstance name _ =>
      class ← classes s !! name;
      if negb (is_ordering op) || negb (total_ordering class) then None
      else snd <$> find (fun m => if methods class !! m.1 is Some _ then true else false)
                        [("__lt__", OpLt); ("__le__", OpLtE); ("__gt__", OpGt); ("__ge__", OpGtE)]%string
  | _ => None
  end.

(** [op] from the root's answer [r] and equality [e]. *)
Definition derived_answer (root op : CmpOp) (r e : bool) : option bool :=
  match root, op with
  | OpLt, OpLtE => Some (r || e)
  | OpLt, OpGt => Some (negb r && negb e)
  | OpLt, OpGtE => Some (negb r)
  | OpLtE, OpLt => Some (r && negb e)
  | OpLtE, OpGt => Some (negb r)
  | OpLtE, OpGtE => Some (negb r || e)
  | OpGt, OpLt => Some (negb r && negb e)
  | OpGt, OpLtE => Some (negb r)
  | OpGt, OpGtE => Some (r || e)
  | OpGtE, OpLt => Some (negb r)
  | OpGtE, OpLtE => Some (negb r || e)
  | OpGtE, OpGt => Some (r && negb e)
  | _, _ => None
  end.

(** The answer of a comparison, with the operands after a slot ran. *)
Abbreviation Compared := (bool * option Value * option Value)%type.

Definition total_ordering_derive (compare : InterpreterState -> CmpOp -> Value -> Value -> Eval Compared)
    (s : InterpreterState) (op : CmpOp) (left right : Value) : Eval (option bool) :=
  match ordering_root s op left with
  | None => done s (Ok None)
  | Some root =>
      let? (s, r) := compare s root left right in
      let? (s, e) := compare s OpEq left right in
      done s (Ok (derived_answer root op r.1.1 e.1.1))
  end.

Definition builtin_compare (s : InterpreterState) (op : CmpOp) (left right : Value) : Eval bool :=
  walk s (compare_builtin structural_eq set_elem (classes s) nesting (heap s) op left right).

(** What is tried when no slot answered. *)
Definition compare_without_slots
    (compare : InterpreterState -> CmpOp -> Value -> Value -> Eval Compared)
    (s : InterpreterState) (op : CmpOp) (left right : Value) : Eval Compared :=
  let plain (m : Eval bool) : Eval Compared := let? (s, b) := m in done s (Ok (b, None, None)) in
  match dataclass_order_compare s op left right with
  | Some r => plain r
  | None =>
      let? (s, derived) := total_ordering_derive compare s op left right in
      match derived with
      | Some b => done s (Ok (b, None, None))
      | None =>
          if is_ordering op && (is_instance left || is_instance right)
          then done s (Err (type_error_unsupported (op_symbol op) left right))
          else plain (builtin_compare s op left right)
      end
  end.

(** [compare]. The fuel bounds the recursion through [total_ordering_derive],
    which the source does not bound. *)
Fixpoint compare (fuel : nat) (s : InterpreterState) (op : CmpOp) (left right : Value) : Eval Compared :=
  match fuel with
  | O => (s, Panic)
  | S fuel =>
      let answer s v := let b := is_truthy (heap s) v in match op with OpNotEq => negb b | _ => b end in
      let otherwise s := compare_without_slots (compare fuel) s op left right in
      let reflected s :=
        match instance_slot s right (reflected_compare_slot op) with
        | Some method =>
            let? (s, out) := invoke_slot s right method [left] in
            match out.1 with
            | VNotImplemented => otherwise s
            | v => done s (Ok (answer s v, None, Some out.2))
            end
        | None => otherwise s
        end in
      match instance_slot s left (forward_compare_slot op) with
      | Some method =>
          let? (s, out) := invoke_slot s left method [right] in
          match out.1 with
          | VNotImplemented => reflected s
          | v => done s (Ok (answer s v, Some out.2, None))
          end
      | None => reflected s
      end
  end.

Definition eq (fuel : nat) (s : InterpreterState) (left right : Value) : Eval bool :=
  let? (s, r) := compare fuel s OpEq left right in done s (Ok r.1.1).

(** ** Hashes and keys *)

Definition hash (s : InterpreterState) (value : Value) : Eval Z :=
  match instance_slot s value "__hash__" with
  | Some method =>
      let? (s, r) := returned s value method [] in
      done s match r with
             | VInt n => Ok n
             | VBool b => Ok (Z.b2z b)
             | _ => fail (TypeError ("__hash__ method should return an integer, returned " ++ type_name r))
             end
  | None =>
      let compared_fields :=
        match value with
        | VInstance name fields =>
            class ← classes s !! name;
            dfs ← (if frozen class then dataclass_fields class else None);
            let fs := default [] (instance_fields (heap s) !! fields) in
            Some (map (fun f => default VNone (field_get fs (df_name f))) (List.filter df_compare dfs))
        | _ => None
        end in
      done s (dispatch_hash s match compared_fields with Some vs => VTuple vs | None => value end)
  end.

Definition key (s : InterpreterState) (value : Value) : Eval ValueKey :=
  if is_instance value then let? (s, h) := hash s value in done s (Ok (KInstance h value))
  else done s (value_to_key address (heap s) nesting value).

(** The entry of an instance key: the first with the same hash and [__eq__]. *)
Fixpoint find_instance_key (fuel : nat) (s : InterpreterState) (h : Z) (needle : Value)
    (es : list (ValueKey * Value)) : Eval (option Value) :=
  match es with
  | [] => done s (Ok None)
  | (KInstance kh value, v) :: es =>
      if kh =? h then
        let? (s, same) := eq fuel s value needle in
        if same : bool then done s (Ok (Some v)) else find_instance_key fuel s h needle es
      else find_instance_key fuel s h needle es
  | _ :: es => find_instance_key fuel s h needle es
  end.

Definition dict_get_instance_key (fuel : nat) (s : InterpreterState) (map : loc) (needle : Value) :
    Eval (option Value) :=
  let? (s, h) := hash s needle in find_instance_key fuel s h needle (dict_at (heap s) map).

(** ** Items *)

Definition coerce_index (s : InterpreterState) (val : Value) : Eval Value :=
  match instance_slot s val "__index__" with
  | Some method =>
      let? (s, idx) := returned s val method [] in
      done s match idx with
             | VInt _ | VBool _ => Ok idx
             | _ => fail (TypeError ("__index__ returned non-int (type " ++ type_name idx ++ ")"))
             end
  | None => done s (Ok val)
  end.

Definition is_indexed (v : Value) : bool :=
  match v with
  | VList _ | VTuple _ | VString _ | VBytes _ | VByteArray _ | VRange _ _ _ => true
  | _ => false
  end.

Definition getitem (fuel : nat) (s : InterpreterState) (container index : Value) : Eval Value :=
  let plain s index := done s (dispatch_getitem (heap s) container index) in
  let indexed s :=
    if is_instance index && is_indexed container then
      let? (s, coerced) := coerce_index s index in
      plain s (if is_instance coerced then index else coerced)
    else plain s index in
  match instance_slot s container "__getitem__" with
  | Some method => returned s container method [index]
  | None =>
      match namedtuple_items s container with
      | Some items =>
          match index with
          | VSlice start stop step =>
              in_heap s (apply_value_slice (heap s) (VTuple items) (Some start) (Some stop) (Some step))
          | _ => done s (dispatch_getitem (heap s) (VTuple items) index)
          end
      | None =>
          match container, index with
          | (VDict map | VOrderedDict map), VInstance _ _ =>
              let? (s, found) := dict_get_instance_key fuel s map index in
              match found with
              | Some v => done s (Ok v)
              | None => let? (s, k) := key s index in done s (Err (Exception (key_error k)))
              end
          | VCounter map, VInstance _ _ =>
              let? (s, h) := hash s index in
              let? (s, found) := find_instance_key fuel s h index map in
              done s (Ok (default (VInt 0) found))
          | VClass class_name, VString member =>
              match classes s !! class_name with
              | Some class =>
                  if enum_kind class is Some _ then
                    done s match class_attrs class !! text_name member with
                           | Some v => Ok v
                           | None => Err (Exception (ExceptionValue_new "KeyError" (lit "'" ++ member ++ lit "'")))
                           end
                  else indexed s
              | None => indexed s
              end
          | _, _ => indexed s
          end
      end
  end.

(** ** Iteration *)

(** [drain_generator]. *)
Fixpoint drain (bound : nat) (s : InterpreterState) (gen : Value) : Eval (list Value) :=
  match bound with
  | O => (s, Panic)
  | S bound =>
      match generator_next s gen with
      | (s, Ok v) => let? (s, vs) := drain bound s gen in done s (Ok (v :: vs))
      | (s, Err (Exception e)) =>
          if bool_decide (exc_type_name e = "StopIteration"%string) then done s (Ok [])
          else done s (Err (Exception e))
      | (s, Err e) => done s (Err e)
      | (s, Panic) => (s, Panic)
      end
  end.

(** The rest of a live list or bytearray cursor: at most what its container
    holds. *)
Definition cursor_room (s : InterpreterState) (id : Z) : nat :=
  match builtin_iters s !! id with
  | Some (ListIter l _) => length (list_at (heap s) l)
  | Some (BytearrayIter d _) => length (bytes_at (heap s) d)
  | _ => 0
  end.

Fixpoint drain_cursor (fuel : nat) (s : InterpreterState) (id : Z) : Eval (list Value) :=
  match fuel with
  | O => (s, Panic)
  | S fuel =>
      match step_builtin_iter id s with
      | (Some v, s) => let? (s, vs) := drain_cursor fuel s id in done s (Ok (v :: vs))
      | (None, s) => done s (Ok [])
      end
  end.

Definition enum_class_members (s : InterpreterState) (value : Value) : option (list Value) :=
  match value with
  | VClass class_name =>
      class ← classes s !! class_name;
      _ ← enum_kind class;
      Some (omap (fun name => class_attrs class !! name) (enum_members class))
  | _ => None
  end.

(** [iter] on anything but an instance. *)
Definition iter_builtin (s : InterpreterState) (value : Value) : Eval (list Value) :=
  match value with
  | VLazy items cursor_id _ =>
      let cursor := default 0 (lazy_cursors s !! cursor_id) in
      done (set_lazy (<[cursor_id := Z.of_nat (length items)]> (lazy_cursors s)) (next_cursor_id s) s)
           (Ok (drop (Z.to_nat cursor) items))
  | VGenerator _ => drain drain_bound s value
  | VBuiltinIter id (IListIterator | IBytearrayIterator) => drain_cursor (S (cursor_room s id)) s id
  | _ =>
      match enum_class_members s value with
      | Some members => done s (Ok members)
      | None => in_heap s (dispatch_iter structural_eq set_elem (heap s) value)
      end
  end.

Definition iteration_limit {A} (s : InterpreterState) : EvalResult A :=
  fail (LimitExceeded ("iterator exceeded maximum iterations (" ++ pretty (max_while_iterations (config s)) ++ ")")).

(** Stepping [__next__] until [StopIteration]; each step's object is the
    receiver of the next one. *)
Fixpoint step_next (steps : nat) (s : InterpreterState) (iterator : Value) (next_method : FunctionDef) :
    Eval (list Value) :=
  match steps with
  | O => done s (iteration_limit s)
  | S steps =>
      match invoke_slot s iterator next_method [] with
      | (s, Ok (item, updated_self)) =>
          let? (s, items) := step_next steps s updated_self next_method in done s (Ok (item :: items))
      | (s, Err (Exception e)) =>
          if bool_decide (exc_type_name e = "StopIteration"%string) then done s (Ok [])
          else done s (Err (Exception e))
      | (s, Err e) => done s (Err e)
      | (s, Panic) => (s, Panic)
      end
  end.

(** [getitem_iterate], from index [i] on. *)
Fixpoint getitem_iterate (fuel steps : nat) (s : InterpreterState) (value : Value) (i : Z) : Eval (list Value) :=
  match steps with
  | O => done s (iteration_limit s)
  | S steps =>
      match getitem fuel s value (VInt i) with
      | (s, Ok item) =>
          let? (s, items) := getitem_iterate fuel steps s value (i + 1) in done s (Ok (item :: items))
      | (s, Err (Exception e)) =>
          if bool_decide (exc_type_name e = "IndexError"%string) then done s (Ok [])
          else done s (Err (Exception e))
      | (s, Err e) => done s (Err e)
      | (s, Panic) => (s, Panic)
      end
  end.

Definition max_iters (s : InterpreterState) : nat := Z.to_nat (max_while_iterations (config s)).

Definition iter (fuel : nat) (s : InterpreterState) (value : Value) : Eval (list Value) :=
  if negb (is_instance value) then iter_builtin s value
  else
    match namedtuple_items s value with
    | Some items => done s (Ok items)
    | None =>
        match instance_slot s value "__iter__" with
        | None =>
            if instance_slot s value "__getitem__" is Some _
            then getitem_iterate fuel (max_iters s) s value 0
            else in_heap s (dispatch_iter structural_eq set_elem (heap s) value)
        | Some iter_method =>
            let? (s, iterator) := returned s value iter_method [] in
            match iterator with
            | VLazy _ _ _ | VGenerator _ | VBuiltinIter _ _ | VList _ | VTuple _ | VRange _ _ _ =>
                iter_builtin s iterator
            | VInstance name _ =>
                match lookup_method_in_mro (classes s) name "__next__" with
                | Some m => step_next (max_iters s) s iterator m.2
                | None =>
                    done s (fail (TypeError ("iter() returned non-iterator of type '" ++ name ++ "' (no __next__)")))
                end
            | _ => done s (fail (TypeError ("iter() returned non-iterator of type '" ++ type_name iterator ++ "'")))
            end
        end
    end.

(** ** Membership *)

Fixpoint any_eq (fuel : nat) (s : InterpreterState) (item : Value) (stored : list Value) : Eval bool :=
  match stored with
  | [] => done s (Ok false)
  | x :: stored =>
      let? (s, same) := eq fuel s x item in
      if same : bool then done s (Ok true) else any_eq fuel s item stored
  end.

Definition contains (fuel : nat) (s : InterpreterState) (container item : Value) : Eval bool :=
  let scan s := let? (s, items) := iter fuel s container in any_eq fuel s item items in
  let structural s := walk s (dispatch_contains (heap s) container item) in
  match instance_slot s container "__contains__" with
  | Some method => let? (s, r) := returned s container method [item] in done s (Ok (is_truthy (heap s) r))
  | None =>
      match container with
      | VInstance _ _ => scan s
      | VClass class_name =>
          match (class ← classes s !! class_name; enum_kind class) with
          | Some _ =>
              done s (Ok match item with VEnumMember m _ _ _ => bool_decide (m = class_name) | _ => false end)
          | None => structural s
          end
      | VDict map | VOrderedDict map =>
          if is_instance item then
            let? (s, found) := dict_get_instance_key fuel s map item in
            done s (Ok (if found is Some _ then true else false))
          else structural s
      | VList l =>
          let snapshot := list_at (heap s) l in
          if is_instance item || existsb is_instance snapshot then any_eq fuel s item snapshot else structural s
      | VTuple items =>
          if is_instance item || existsb is_instance items then any_eq fuel s item items else structural s
      | VSet l | VFrozenset l =>
          if is_instance item then
            let items := set_at (heap s) l in
            let? (s, _) := hash s item in any_eq fuel s item items
          else structural s
      | VGenerator _ | VLazy _ _ _ => scan s
      | _ => structural s
      end
  end.

(** ** Augmented assignment *)

Definition with_list (l : loc) (xs : list Value) (h : Heap) : Heap :=
  mkHeap (<[l := xs]> (lists h)) (dicts h) (sets h) (bytearrays h) (stringios h) (instance_fields h).
Definition with_set (l : loc) (b : SetBody Value) (h : Heap) : Heap :=
  mkHeap (lists h) (dicts h) (<[l := b]> (sets h)) (bytearrays h) (stringios h) (instance_fields h).

(** [^=]: an element of the other set leaves the set or joins it. *)
Fixpoint toggle (h : Heap) (body : SetBody Value) (vs : list Value) : option (SetBody Value) :=
  match vs with
  | [] => Some body
  | v :: vs =>
      '(found, body) ← @discard_value _ (set_elem h) body v;
      body ← (if found : bool then Some body else '(_, body) ← @add_value _ (set_elem h) body v; Some body);
      toggle h body vs
  end.

(** The in-place set operators; [None] for an operator without one. *)
Definition set_inplace (h : Heap) (op : Operator) (body other : SetBody Value) : option (option (SetBody Value)) :=
  match op with
  | BitOr => Some (@merge_from _ (set_elem h) body other)
  | Sub => Some (@difference_from _ (set_elem h) body other)
  | BitAnd => Some (@intersection_with _ (set_elem h) body other)
  | BitXor => Some (toggle h body (body_iter_ordered other))
  | _ => None
  end.

Definition aug_binop (fuel : nat) (s : InterpreterState) (op : Operator) (left right : Value) : Eval Value :=
  match instance_slot s left (inplace_arith_slot op) with
  | Some method => returned s left method [right]
  | None =>
      match op, left with
      | Add, VList l =>
          let? (s, extension) := iter fuel s right in
          done (set_heap (with_list l (list_at (heap s) l ++ extension) (heap s)) s) (Ok left)
      | _, VSet l =>
          let updated :=
            body ← sets (heap s) !! l;
            other ← match right with VSet o | VFrozenset o => sets (heap s) !! o | _ => None end;
            set_inplace (heap s) op body other in
          match updated with
          | Some (Some body) => done (set_heap (with_set l body (heap s)) s) (Ok left)
          | Some None => (s, Panic)
          | None => binop s op left right
          end
      | _, _ => binop s op left right
      end
  end.
End Op.
