(* ===== verification/Methods.v ===== *)
(** Methods of the builtin containers (eval/functions/methods/): lists, tuples,
    dictionaries, counters, deques and sets, with the change of the receiver's
    size each reports, and the entries of the method table that hold the
    receiver's lock (eval/functions/method_dispatch.rs). *)
From Stdlib Require Import ZArith Lia Ascii String SpecFloat.
From stdpp Require Import base tactics list numbers option strings pretty gmap.
From S2P Require Import Prelude PySet Values Errors F64 Keys Arith Classes Slices Compare Operators State Exceptions Op.

Section Methods.
Context `{External} `{!ExternalOrder} `{!Platform} `{!Formats} `{!Trees} `{!Calls} `{!Estimates}.

Abbreviation Entries := (list (ValueKey * Value)).
Abbreviation Kwargs := (list (string * Value)).
Abbreviation key_eq := (key_eqb structural_eq).

Record MethodOutcome : Type := mkOutcome { outcome_value : Value; mem_delta : Z }.

Definition pure_outcome (v : Value) : MethodOutcome := mkOutcome v 0.
Definition grew (v : Value) (bytes : Z) : MethodOutcome := mkOutcome v (to_isize bytes).
Definition shrank (v : Value) (bytes : Z) : MethodOutcome := mkOutcome v (- to_isize bytes).

(** The sum of the sizes, as a [usize]. *)
Definition sizes (h : Heap) (vs : list Value) : Z := foldr (fun v n => wrap64 (size h v + n)) 0 vs.

(** ** Arguments *)

Definition unexpected_keyword {A} (method name : string) : EvalResult A :=
  fail (TypeError (method ++ "() got an unexpected keyword argument '" ++ name ++ "'")).

Definition reject_kwargs (method : string) (kwargs : Kwargs) : EvalResult () :=
  match kwargs with (name, _) :: _ => unexpected_keyword method name | [] => Ok () end.

Definition arg1 (method : string) (args : list Value) : EvalResult Value :=
  match args with v :: _ => Ok v | [] => fail (TypeError (method ++ "() takes exactly 1 argument")) end.

Fixpoint index_of (x : string) (xs : list string) : option nat :=
  match xs with
  | [] => None
  | y :: ys => if bool_decide (y = x) then Some 0%nat else S <$> index_of x ys
  end.

(** The slots of [params], filled by position and then by keyword. *)
Fixpoint bind_keywords (method : string) (params : list string) (kwargs : Kwargs) (bound : list (option Value)) :
    EvalResult (list (option Value)) :=
  match kwargs with
  | [] => Ok bound
  | (name, value) :: kwargs =>
      match index_of name params with
      | None => unexpected_keyword method name
      | Some i =>
          match bound !! i with
          | Some (Some _) => fail (TypeError (method ++ "() got multiple values for argument '" ++ name ++ "'"))
          | _ => bind_keywords method params kwargs (<[i := Some value]> bound)
          end
      end
  end.

Definition bind_method_params (method : string) (args : list Value) (kwargs : Kwargs) (params : list string) :
    EvalResult (list (option Value)) :=
  let n := length params in
  if (n <? length args)%nat then
    fail (TypeError (method ++ "() takes at most " ++ pretty n ++ " argument" ++
                     (if (n =? 1)%nat then "" else "s") ++ " (" ++ pretty (length args) ++ " given)"))
  else bind_keywords method params kwargs (map Some args ++ replicate (n - length args) None).

Definition require_param (method : string) (bound : list (option Value)) (idx : nat) (name : string) :
    EvalResult Value :=
  match bound !! idx with
  | Some (Some v) => Ok v
  | _ => fail (TypeError (method ++ "() missing required argument: '" ++ name ++ "'"))
  end.

Fixpoint value_to_i64 (val : Value) : EvalResult Z :=
  match val with
  | VInt i => Ok i
  | VBool b => Ok (Z.b2z b)
  | VEnumMember _ _ value (EInt | EIntFlag) => value_to_i64 value
  | _ => not_an_integer val
  end.

(** [to_len_i64] is total here: a length fits. *)
Definition sequence_index_range (method : string) (args : list Value) (len : nat) : EvalResult (nat * nat) :=
  if (length args =? 0)%nat || (3 <? length args)%nat
  then fail (TypeError (method ++ "() takes 1 to 3 arguments"))
  else
    let len_i := Z.of_nat len in
    let clamp v := let v := if v <? 0 then v + len_i else v in Z.max 0 (Z.min v len_i) in
    let bound i default := match args !! i with None => Ok default | Some v => clamp <$> value_to_i64 v end in
    start ← bound 1%nat 0;
    stop ← bound 2%nat len_i;
    Ok (Z.to_nat start, Z.to_nat (Z.max stop start)).

Definition no_attribute {A} (type method : string) : EvalResult A :=
  fail (AttributeError ("'" ++ type ++ "' object has no attribute '" ++ method ++ "'")).

(** ** Searches

    [values_equal_pub] against each item in turn, under the receiver's lock. *)

Definition equal_under (held : Held) (h : Heap) : Value -> Value -> Walk bool :=
  values_equal structural_eq EQ_RECURSION_LIMIT held h.

Fixpoint find_equal (held : Held) (h : Heap) (i : nat) (items : list Value) (target : Value) : Walk (option nat) :=
  match items with
  | [] => walk_ret None
  | v :: items =>
      let! same := equal_under held h v target in
      if same : bool then walk_ret (Some i) else find_equal held h (S i) items target
  end.

Fixpoint count_equal (held : Held) (h : Heap) (items : list Value) (target : Value) : Walk Z :=
  match items with
  | [] => walk_ret 0
  | v :: items =>
      let! same := equal_under held h v target in
      let! n := count_equal held h items target in
      walk_ret ((if same : bool then 1 else 0) + n)
  end.

Definition walked {A} (s : InterpreterState) (w : Walk A) : Eval A := walk s (let! a := w in walk_ret (inr a)).

(** [index] over a slice of the items. *)
Definition find_between (held : Held) (s : InterpreterState) (items : list Value) (range : nat * nat)
    (target : Value) : Eval (option nat) :=
  walked s (find_equal held (heap s) range.1 (drop range.1 (take range.2 items)) target).

Definition found (s : InterpreterState) (i : option nat) (missing : EvalError) : Eval Value :=
  done s match i with Some i => Ok (VInt (Z.of_nat i)) | None => Err missing end.

Definition value_error (message : text) : EvalError := Exception (ExceptionValue_new "ValueError" message).

(** ** Tuples *)

Definition dispatch_tuple_method (s : InterpreterState) (items : list Value) (method : string) (args : list Value)
    (kwargs : Kwargs) : Eval Value :=
  let? (s, _) := done s (reject_kwargs method kwargs) in
  match method with
  | "count" =>
      match args with
      | [target] => let? (s, n) := walked s (count_equal none_held (heap s) items target) in done s (Ok (VInt n))
      | _ => done s (fail (TypeError "count() takes exactly 1 argument"))
      end
  | "index" =>
      match args with
      | target :: _ =>
          let? (s, range) := done s (sequence_index_range method args (length items)) in
          let? (s, i) := find_between none_held s items range target in
          found s i (value_error (lit "tuple.index(x): x not in tuple"))
      | [] => done s (fail (TypeError "index() takes at least 1 argument"))
      end
  | _ => done s (no_attribute "tuple" method)
  end%string.

(** ** Lists *)

Definition store_list (l : loc) (items : list Value) (s : InterpreterState) : InterpreterState :=
  set_heap (with_list l items (heap s)) s.

Definition allocated (m : Eval Value) : Eval MethodOutcome := let? (s, v) := m in done s (Ok (pure_outcome v)).

(** Where [list.insert] puts an item: negative indices saturate at the front,
    positive ones at the end. *)
Definition insert_position (idx : Z) (len : nat) : nat :=
  if idx <? 0 then Z.to_nat (Z.max (Z.of_nat len + idx) 0) else Nat.min (Z.to_nat idx) len.

Definition insert_at {A} (i : nat) (x : A) (items : list A) : list A := take i items ++ x :: drop i items.

Definition list_insert (s : InterpreterState) (l : loc) (args : list Value) : Eval MethodOutcome :=
  match args with
  | [index; value] =>
      let? (s, idx) := done s (value_to_i64 index) in
      let bytes := size (heap s) value in
      let items := list_at (heap s) l in
      done (store_list l (insert_at (insert_position idx (length items)) value items) s) (Ok (grew VNone bytes))
  | _ => done s (fail (TypeError "insert() takes exactly 2 arguments"))
  end.

(** The position [pop] removes; [None] is out of range. *)
Definition pop_position (raw : option Z) (len : nat) : option nat :=
  match raw with
  | None => Some (len - 1)%nat
  | Some raw =>
      let normalized := if raw <? 0 then Z.of_nat len + raw else raw in
      if (normalized <? 0) || (normalized >=? Z.of_nat len) then None else Some (Z.to_nat normalized)
  end.

Definition list_pop (s : InterpreterState) (l : loc) (args : list Value) : Eval MethodOutcome :=
  match list_at (heap s) l with
  | [] => done s (Err (Exception (ExceptionValue_new "IndexError" (lit "pop from empty list"))))
  | items =>
      let? (s, raw) := done s match args with [] => Ok None | a :: _ => Some <$> value_to_i64 a end in
      match pop_position raw (length items) with
      | None => done s (Err (Exception (index_error "pop")))
      | Some i =>
          match items !! i with
          | Some val =>
              done (store_list l (delete i items) s) (Ok (shrank val (size (heap s) val)))
          | None => (s, Panic)
          end
      end
  end.

Definition list_remove (s : InterpreterState) (l : loc) (args : list Value) : Eval MethodOutcome :=
  let? (s, target) := done s (arg1 "remove" args) in
  let items := list_at (heap s) l in
  let? (s, i) := walked s (find_equal (mkHeld [l] [] []) (heap s) 0 items target) in
  match i with
  | None => done s (Err (value_error (lit "list.remove(x): x not in list")))
  | Some i =>
      let removed := default VNone (items !! i) in
      done (store_list l (delete i items) s) (Ok (shrank VNone (size (heap s) removed)))
  end.

(** [dispatch_list_method], under the lock of [l]. *)
Definition dispatch_list_method (s : InterpreterState) (l : loc) (method : string) (args : list Value)
    (kwargs : Kwargs) : Eval MethodOutcome :=
  let held := mkHeld [l] [] [] in
  let? (s, _) := done s (reject_kwargs method kwargs) in
  let items := list_at (heap s) l in
  match method with
  | "copy" => allocated (in_heap s (new_list (heap s) items))
  | "count" =>
      match args with
      | [target] =>
          let? (s, n) := walked s (count_equal held (heap s) items target) in
          done s (Ok (pure_outcome (VInt n)))
      | _ => done s (fail (TypeError "count() takes exactly one argument"))
      end
  | "index" =>
      let? (s, target) := done s (arg1 method args) in
      let? (s, range) := done s (sequence_index_range method args (length items)) in
      let? (s, i) := find_between held s items range target in
      let missing := value_error (repr (heap s) target ++ lit " is not in list") in
      let? (s, v) := found s i missing in done s (Ok (pure_outcome v))
  | "append" =>
      let? (s, arg) := done s (arg1 method args) in
      let bytes := size (heap s) arg in
      done (store_list l (items ++ [arg]) s) (Ok (grew VNone bytes))
  | "extend" =>
      let? (s, arg) := done s (arg1 method args) in
      let? (s, new_items) := in_heap s (dispatch_iter structural_eq set_elem (heap s) arg) in
      let added := sizes (heap s) new_items in
      done (store_list l (list_at (heap s) l ++ new_items) s) (Ok (grew VNone added))
  | "insert" => list_insert s l args
  | "pop" => list_pop s l args
  | "remove" => list_remove s l args
  | "reverse" => done (store_list l (rev items) s) (Ok (pure_outcome VNone))
  | "clear" => done (store_list l [] s) (Ok (shrank VNone (sizes (heap s) items)))
  | _ => done s (no_attribute "list" method)
  end%string.

(** [list_methods]: an argument of [extend] that is the receiver is read from a
    copy. *)
Fixpoint snapshot_args (h : Heap) (l : loc) (args : list Value) : list Value * Heap :=
  match args with
  | [] => ([], h)
  | a :: args =>
      let (a, h) := match a with
                    | VList l' => if bool_decide (l' = l)
                                  then let (l'', h) := shared_list h (list_at h l) in (VList l'', h)
                                  else (a, h)
                    | _ => (a, h)
                    end in
      let (args, h) := snapshot_args h l args in (a :: args, h)
  end.

Definition list_methods (s : InterpreterState) (l : loc) (method : string) (args : list Value) (kwargs : Kwargs) :
    Eval MethodOutcome :=
  if bool_decide (method = "extend") then
    let (args, h) := snapshot_args (heap s) l args in dispatch_list_method (set_heap h s) l method args kwargs
  else dispatch_list_method s l method args kwargs.

(** ** Ranges

    Positions by arithmetic, in [i64]; [None] is the overflow of [%]. *)

Definition range_position (start stop step : Z) (v : Value) : option (option Z) :=
  match match v with VInt n => Some n | VBool b => Some (Z.b2z b) | _ => None end with
  | None => Some None
  | Some n =>
      if step =? 0 then Some None
      else
        let in_bounds := if step >? 0 then (n >=? start) && (n <? stop) else (n <=? start) && (n >? stop) in
        let d := swrap64 (n - start) in
        if negb in_bounds then Some None
        else if (d =? i64_min) && (step =? -1) then None
        else Some (if Z.rem d step =? 0 then Some (Z.quot d step) else None)
  end.

Definition range_methods (s : InterpreterState) (start stop step : Z) (method : string) (args : list Value)
    (kwargs : Kwargs) : Eval Value :=
  let? (s, _) := done s (reject_kwargs method kwargs) in
  match method with
  | "index" =>
      let? (s, target) := done s (arg1 method args) in
      let? (s, i) := done s (or_panic (range_position start stop step target)) in
      done s match i with
             | Some i => Ok (VInt i)
             | None => fail (ValueError (text_name (display (heap s) target) ++ " is not in range"))
             end
  | "count" =>
      let? (s, i) := done s (match args with v :: _ => or_panic (range_position start stop step v) | [] => Ok None end) in
      done s (Ok (VInt (if i is Some _ then 1 else 0)))
  | _ => done s (no_attribute "range" method)
  end%string.
End Methods.
