(* ===== verification/MapMethods.v ===== *)
(** Methods of dictionaries, ordered dictionaries, default dictionaries, chain
    maps and counters (eval/functions/methods/dict.rs, counter.rs and their
    entries in eval/functions/method_dispatch.rs). A method gets the entries of
    its receiver and returns them changed; [holder] is the shared dictionary
    whose lock is held meanwhile, if any. *)
From Stdlib Require Import ZArith Lia Ascii String SpecFloat.
From stdpp Require Import base tactics list numbers option strings pretty gmap.
From S2P Require Import Prelude PySet Values Errors F64 Keys Arith Classes Slices Compare Operators State Exceptions Op Methods.

Section MapMethods.
Context `{External} `{!ExternalOrder} `{!Platform} `{!Formats} `{!Trees} `{!Calls} `{!Estimates}.

Abbreviation Entries := (list (ValueKey * Value)).
Abbreviation Kwargs := (list (string * Value)).
Abbreviation key_eq := (key_eqb structural_eq).

(** The state, the receiver's entries and the outcome. *)
Abbreviation Mutation := (InterpreterState * Entries * EvalResult MethodOutcome)%type.

Definition kept (es : Entries) (m : Eval MethodOutcome) : Mutation := (m.1, es, m.2).
Definition changed (s : InterpreterState) (es : Entries) (out : MethodOutcome) : Mutation := (s, es, Ok out).

(** A step that leaves the entries alone when it fails. *)
Definition mut_then {A} (es : Entries) (m : Eval A) (f : InterpreterState -> A -> Mutation) : Mutation :=
  match m with
  | (s, Ok a) => f s a
  | (s, Err e) => (s, es, Err e)
  | (s, Panic) => (s, es, Panic)
  end.
Notation "'with!' es , ( s , x ) := m 'in' k" := (mut_then es m (fun s x => k))
  (at level 10, es at level 9, s name, x name, m at level 100, k at level 200).

Definition key_of (s : InterpreterState) (v : Value) : Eval ValueKey :=
  done s (value_to_key address (heap s) nesting v).

(** ** Entries *)

(** [IndexMap::shift_remove_entry]. *)
Fixpoint im_remove (es : Entries) (k : ValueKey) : option (ValueKey * Value * Entries) :=
  match es with
  | [] => None
  | (k', v) :: es =>
      if key_eq k' k then Some (k', v, es)
      else match im_remove es k with Some (kv, rest) => Some (kv, (k', v) :: rest) | None => None end
  end.

Definition isize_add (a b : Z) : Z := Z.max i64_min (Z.min (a + b) i64_max).

Definition insert_entry (h : Heap) (es : Entries) (k : ValueKey) (v : Value) : Entries * Z :=
  let bytes := size h v in
  (im_insert key_eq es k v,
   match im_get key_eq es k with
   | None => to_isize (key_size k + bytes)
   | Some old => size_delta (size h old) bytes
   end).

Fixpoint insert_entries (h : Heap) (es new : Entries) (delta : Z) : Entries * Z :=
  match new with
  | [] => (es, delta)
  | (k, v) :: new => let (es, d) := insert_entry h es k v in insert_entries h es new (isize_add delta d)
  end.

Definition keyword_entries (kwargs : Kwargs) : Entries := map (fun kv => (KString (name_text kv.1), kv.2)) kwargs.

Definition entry_size (h : Heap) (kv : ValueKey * Value) : Z := key_size kv.1 + size h kv.2.

Definition entries_size (h : Heap) (es : Entries) : Z := foldr (fun kv n => wrap64 (entry_size h kv + n)) 0 es.

(** ** Iteration under the receiver's lock *)

(** Whether iterating a value takes the lock of the dictionary at [l]. *)
Definition locks_dict (l : loc) (v : Value) : bool :=
  match v with
  | VDict l' | VOrderedDict l' | VDictView l' _ => (l' =? l)%nat
  | VChainMap maps => existsb (fun m => match m with VDict l' => (l' =? l)%nat | _ => false end) maps
  | _ => false
  end.

(** A second lock of the holder is never granted. *)
Definition iterate_held (holder : option loc) (s : InterpreterState) (v : Value) : Eval (list Value) :=
  if match holder with Some l => locks_dict l v | None => false end then (s, Panic)
  else in_heap s (dispatch_iter structural_eq set_elem (heap s) v).

(** The entries an iterable of pairs gives to [update]. *)
Fixpoint update_pairs (holder : option loc) (s : InterpreterState) (i : nat) (pairs : list Value) : Eval Entries :=
  match pairs with
  | [] => done s (Ok [])
  | p :: pairs =>
      let? (s, items) := iterate_held holder s p in
      match items with
      | [k; v] =>
          let? (s, key) := key_of s k in
          let? (s, rest) := update_pairs holder s (S i) pairs in
          done s (Ok ((key, v) :: rest))
      | _ =>
          done s (fail (ValueError ("dictionary update sequence element #" ++ pretty i ++ " has length " ++
                                    pretty (length items) ++ "; 2 is required")))
      end
  end.

Definition update_entries (holder : option loc) (s : InterpreterState) (arg : Value) : Eval Entries :=
  match as_dict arg with
  | Some l => if bool_decide (holder = Some l) then (s, Panic) else done s (Ok (dict_at (heap s) l))
  | None =>
      match arg with
      | VCounter m | VDefaultDict m _ => done s (Ok m)
      | _ => let? (s, pairs) := iterate_held holder s arg in update_pairs holder s 0 pairs
      end
  end.

Definition dict_update (holder : option loc) (s : InterpreterState) (es : Entries) (args : list Value)
    (kwargs : Kwargs) : Mutation :=
  if (1 <? length args)%nat then
    (s, es, fail (TypeError ("update expected at most 1 argument, got " ++ pretty (length args))))
  else
    with! es, (s, new) := match args with arg :: _ => update_entries holder s arg | [] => done s (Ok []) end in
    let (es, delta) := insert_entries (heap s) es (new ++ keyword_entries kwargs) 0 in
    changed s es (mkOutcome VNone delta).

(** ** Dictionary methods *)

Definition dict_pop (s : InterpreterState) (es : Entries) (args : list Value) : Mutation :=
  with! es, (s, arg) := done s (arg1 "pop" args) in
  with! es, (s, key) := key_of s arg in
  match im_remove es key with
  | Some (_, val, rest) => changed s rest (shrank val (key_size key + size (heap s) val))
  | None =>
      match args !! 1%nat with
      | Some def => changed s es (pure_outcome def)
      | None => (s, es, Err (Exception (key_error key)))
      end
  end.

Definition dict_setdefault (s : InterpreterState) (es : Entries) (args : list Value) : Mutation :=
  with! es, (s, arg) := done s (arg1 "setdefault" args) in
  with! es, (s, key) := key_of s arg in
  let dflt := default VNone (args !! 1%nat) in
  match im_get key_eq es key with
  | Some existing => changed s es (pure_outcome existing)
  | None =>
      changed s (im_insert key_eq es key dflt) (grew dflt (key_size key + size (heap s) dflt))
  end.

Definition dict_move_to_end (s : InterpreterState) (es : Entries) (args : list Value) (kwargs : Kwargs) : Mutation :=
  let method := "move_to_end"%string in
  with! es, (s, bound) := done s (bind_method_params method args kwargs ["key"; "last"]%string) in
  with! es, (s, arg) := done s (require_param method bound 0 "key") in
  with! es, (s, key) := key_of s arg in
  let last := match bound !! 1%nat with Some (Some v) => is_truthy (heap s) v | _ => true end in
  match im_remove es key with
  | None => (s, es, Err (Exception (key_error key)))
  | Some (kv, rest) => changed s (if last then rest ++ [kv] else kv :: rest) (pure_outcome VNone)
  end.

Definition pop_last (es : Entries) : option (ValueKey * Value * Entries) :=
  match list.last es with Some kv => Some (kv, removelast es) | None => None end.

Definition pop_first (es : Entries) : option (ValueKey * Value * Entries) :=
  match es with kv :: es => Some (kv, es) | [] => None end.

Definition key_value (s : InterpreterState) (k : ValueKey) : Eval Value :=
  in_heap s (or_panic (to_value set_elem k (heap s))).

Definition dict_popitem (s : InterpreterState) (es : Entries) (args : list Value) (kwargs : Kwargs) : Mutation :=
  let flag := match args with v :: _ => Some v | [] => im_get String.eqb kwargs "last"%string end in
  let last := match flag with Some v => is_truthy (heap s) v | None => true end in
  match (if last : bool then pop_last es else pop_first es) with
  | None => (s, es, Err (Exception (ExceptionValue_new "KeyError" (lit "'popitem(): dictionary is empty'"))))
  | Some (key, val, rest) =>
      let freed := key_size key + size (heap s) val in
      let (s, r) := key_value s key in
      (s, rest, k ← r; Ok (shrank (VTuple [k; val]) freed))
  end.

(** [dispatch_dict_method]. *)
Definition dispatch_dict_method (holder : option loc) (s : InterpreterState) (es : Entries) (method : string)
    (args : list Value) (kwargs : Kwargs) : Mutation :=
  let positional (k : Mutation) : Mutation :=
    match reject_kwargs method kwargs with Ok _ => k | Err e => (s, es, Err e) | Panic => (s, es, Panic) end in
  let listed kind :=
    positional (kept es (allocated (
      let? (s, items) := in_heap s (or_panic (dictview_items set_elem kind es (heap s))) in
      in_heap s (new_list (heap s) items)))) in
  match method with
  | "keys" => listed Keys
  | "values" => listed DValues
  | "items" => listed Items
  | "get" => positional (
      with! es, (s, arg) := done s (arg1 method args) in
      with! es, (s, key) := key_of s arg in
      changed s es (pure_outcome (default (default VNone (args !! 1%nat)) (im_get key_eq es key))))
  | "copy" => positional (let (l, h) := shared_dict (heap s) es in changed (set_heap h s) es (pure_outcome (VDict l)))
  | "pop" => positional (dict_pop s es args)
  | "update" => dict_update holder s es args kwargs
  | "setdefault" => positional (dict_setdefault s es args)
  | "clear" => positional (changed s [] (shrank VNone (entries_size (heap s) es)))
  | "move_to_end" => dict_move_to_end s es args kwargs
  | "popitem" => dict_popitem s es args kwargs
  | _ => (s, es, no_attribute "dict" method)
  end%string.

(** ** The method table's entries *)

Definition store_dict (l : loc) (es : Entries) (h : Heap) : Heap :=
  mkHeap (lists h) (<[l := es]> (dicts h)) (sets h) (bytearrays h) (stringios h) (instance_fields h).

(** A method under the lock of the dictionary at [l]. *)
Definition locked_dict_method (s : InterpreterState) (l : loc) (method : string) (args : list Value)
    (kwargs : Kwargs) : Eval MethodOutcome :=
  let '(s, es, r) := dispatch_dict_method (Some l) s (dict_at (heap s) l) method args kwargs in
  (set_heap (store_dict l es (heap s)) s, r).

Definition view_kind (method : string) : option DictViewKind :=
  match method with "keys" => Some Keys | "values" => Some DValues | "items" => Some Items | _ => None end%string.

(** [dict_methods]: views are live, and an argument of [update] that is the
    receiver is read from a copy. *)
Fixpoint snapshot_dicts (h : Heap) (l : loc) (args : list Value) : list Value * Heap :=
  match args with
  | [] => ([], h)
  | a :: args =>
      let (a, h) := if bool_decide (as_dict a = Some l)
                    then let (l', h) := shared_dict h (dict_at h l) in (VDict l', h) else (a, h) in
      let (args, h) := snapshot_dicts h l args in (a :: args, h)
  end.

Definition dict_methods (s : InterpreterState) (l : loc) (method : string) (args : list Value) (kwargs : Kwargs) :
    Eval MethodOutcome :=
  match view_kind method with
  | Some kind =>
      let? (s, _) := done s (reject_kwargs method kwargs) in
      match args with
      | [] => done s (Ok (pure_outcome (VDictView l kind)))
      | _ => done s (fail (TypeError (method ++ "() takes no arguments (" ++ pretty (length args) ++ " given)")))
      end
  | None =>
      if bool_decide (method = "update"%string) then
        let (args, h) := snapshot_dicts (heap s) l args in locked_dict_method (set_heap h s) l method args kwargs
      else locked_dict_method s l method args kwargs
  end.

(** [chainmap_contents]: the first map that has a key gives its value; keys are
    listed from the last map on. *)
Definition chainmap_contents (h : Heap) (maps : list Value) : Entries :=
  foldl (fun es m => match m with
                     | VDict l => foldl (fun es kv => im_insert key_eq es kv.1 kv.2) es (dict_at h l)
                     | _ => es
                     end) [] (rev maps).

Definition chainmap_methods (s : InterpreterState) (maps : list Value) (method : string) (args : list Value)
    (kwargs : Kwargs) : Eval MethodOutcome :=
  match method with
  | "new_child" =>
      match args with
      | (VDict _ as child) :: _ => done s (Ok (pure_outcome (VChainMap (child :: maps))))
      | [] | VNone :: _ =>
          let (l, h) := shared_dict (heap s) [] in done (set_heap h s) (Ok (pure_outcome (VChainMap (VDict l :: maps))))
      | other :: _ =>
          done s (fail (TypeError ("ChainMap.new_child() argument must be a mapping, not '" ++ type_name other ++ "'")))
      end
  | "copy" =>
      match maps with
      | VDict first :: rest =>
          let (l, h) := shared_dict (heap s) (dict_at (heap s) first) in
          done (set_heap h s) (Ok (pure_outcome (VChainMap (VDict l :: rest))))
      | _ => done s (Ok (pure_outcome (VChainMap maps)))
      end
  | "keys" | "values" | "items" | "get" | "__contains__" =>
      let '(s, _, r) := dispatch_dict_method None s (chainmap_contents (heap s) maps) method args kwargs in (s, r)
  | _ =>
      match maps with
      | VDict first :: _ => locked_dict_method s first method args kwargs
      | _ => done s (no_attribute "ChainMap" method)
      end
  end%string.

(** ** Counters *)

(** Counting [amount] more (or less) of a key; [i64] arithmetic wraps. *)
Definition count_key (h : Heap) (es : Entries) (k : ValueKey) (op : Z -> Z -> Z) (amount : Z) : Entries * Z :=
  let cur := match im_get key_eq es k with Some v => counter_int v | None => 0 end in
  insert_entry h es k (VInt (swrap64 (op cur amount))).

Fixpoint count_entries (h : Heap) (es : Entries) (op : Z -> Z -> Z) (new : Entries) (delta : Z) : Entries * Z :=
  match new with
  | [] => (es, delta)
  | (k, v) :: new =>
      let (es, d) := count_key h es k op (counter_int v) in count_entries h es op new (swrap64 (delta + d))
  end.

(** Each item once: an unhashable one stops the count where it is. *)
Fixpoint count_items (s : InterpreterState) (es : Entries) (op : Z -> Z -> Z) (items : list Value) (delta : Z) :
    InterpreterState * Entries * EvalResult Z :=
  match items with
  | [] => (s, es, Ok delta)
  | item :: items =>
      match value_to_key address (heap s) nesting item with
      | Ok key =>
          let (es, d) := count_key (heap s) es key op 1 in count_items s es op items (swrap64 (delta + d))
      | Err e => (s, es, Err e)
      | Panic => (s, es, Panic)
      end
  end.

Definition counter_apply_in_place (s : InterpreterState) (es : Entries) (other : option Value)
    (op : Z -> Z -> Z) : InterpreterState * Entries * EvalResult Z :=
  match other with
  | None => (s, es, Ok 0)
  | Some (VDict l) => let (es, d) := count_entries (heap s) es op (dict_at (heap s) l) 0 in (s, es, Ok d)
  | Some (VCounter m) => let (es, d) := count_entries (heap s) es op m 0 in (s, es, Ok d)
  | Some v =>
      match in_heap s (dispatch_iter structural_eq set_elem (heap s) v) with
      | (s, Ok items) => count_items s es op items 0
      | (s, Err e) => (s, es, Err e)
      | (s, Panic) => (s, es, Panic)
      end
  end.

(** Keyword counts that are not integers are skipped. *)
Fixpoint counter_apply_kwargs (h : Heap) (es : Entries) (kwargs : Kwargs) (op : Z -> Z -> Z) (delta : Z) :
    Entries * Z :=
  match kwargs with
  | [] => (es, delta)
  | (name, VInt _ as v) :: kwargs | (name, VBool _ as v) :: kwargs =>
      let (es, d) := count_key h es (KString (name_text name)) op (counter_int v) in
      counter_apply_kwargs h es kwargs op (swrap64 (delta + d))
  | _ :: kwargs => counter_apply_kwargs h es kwargs op delta
  end.

Definition counter_count (s : InterpreterState) (es : Entries) (args : list Value) (kwargs : Kwargs)
    (op : Z -> Z -> Z) : Mutation :=
  let '(s, es, r) := counter_apply_in_place s es (head args) op in
  match r with
  | Ok delta =>
      let (es, d) := counter_apply_kwargs (heap s) es kwargs op 0 in
      changed s es (mkOutcome VNone (swrap64 (delta + d)))
  | Err e => (s, es, Err e)
  | Panic => (s, es, Panic)
  end.

(** The stable sort by decreasing count. *)
Fixpoint insert_count (e : ValueKey * Z) (es : list (ValueKey * Z)) : list (ValueKey * Z) :=
  match es with
  | [] => [e]
  | e' :: es' => if e'.2 <=? e.2 then e :: es else e' :: insert_count e es'
  end.
Definition sort_counts (es : list (ValueKey * Z)) : list (ValueKey * Z) := foldr insert_count [] es.

Definition most_common_limit (args : list Value) (len : nat) : EvalResult nat :=
  match args with
  | VInt i :: _ => Ok (Z.to_nat (Z.max i 0))
  | VBool b :: _ => Ok (if b then 1%nat else 0%nat)
  | [] | VNone :: _ => Ok len
  | _ => fail (TypeError "most_common(): n must be an integer or None")
  end.

Fixpoint rebuild_keys (s : InterpreterState) (ks : list ValueKey) : Eval (list Value) :=
  match ks with
  | [] => done s (Ok [])
  | k :: ks =>
      let? (s, v) := key_value s k in
      let? (s, vs) := rebuild_keys s ks in
      done s (Ok (v :: vs))
  end.

Definition most_common (s : InterpreterState) (es : Entries) (args : list Value) : Eval Value :=
  let sorted := sort_counts (map (fun kv => (kv.1, counter_int kv.2)) es) in
  let? (s, n) := done s (most_common_limit args (length sorted)) in
  let top := take n sorted in
  let? (s, ks) := rebuild_keys s top.*1 in
  in_heap s (new_list (heap s) (zip_with (fun k n => VTuple [k; VInt n]) ks top.*2)).

(** Each key as often as its count says. *)
Fixpoint counter_elements (s : InterpreterState) (es : Entries) : Eval (list Value) :=
  match es with
  | [] => done s (Ok [])
  | (k, v) :: es =>
      let n := counter_int v in
      let? (s, own) := if n >? 0 then let? (s, kv) := key_value s k in done s (Ok (replicate (Z.to_nat n) kv))
                       else done s (Ok []) in
      let? (s, rest) := counter_elements s es in
      done s (Ok (own ++ rest))
  end.

(** [dispatch_counter_method]. *)
Definition dispatch_counter_method (s : InterpreterState) (es : Entries) (method : string) (args : list Value)
    (kwargs : Kwargs) : Mutation :=
  let positional (k : Mutation) : Mutation :=
    match reject_kwargs method kwargs with Ok _ => k | Err e => (s, es, Err e) | Panic => (s, es, Panic) end in
  match method with
  | "keys" | "values" | "items" | "get" | "pop" | "setdefault" | "clear" =>
      dispatch_dict_method None s es method args kwargs
  | "copy" =>
      let '(s, es, r) := dispatch_dict_method None s es method args kwargs in
      (s, es, out ← r; Ok (mkOutcome match outcome_value out with
                                     | VDict l => VCounter (dict_at (heap s) l)
                                     | v => v
                                     end (mem_delta out)))
  | "most_common" => positional (kept es (allocated (most_common s es args)))
  | "elements" =>
      positional (kept es (allocated (let? (s, items) := counter_elements s es in in_heap s (new_list (heap s) items))))
  | "subtract" => counter_count s es args kwargs Z.sub
  | "update" => counter_count s es args kwargs Z.add
  | "total" =>
      positional (changed s es (pure_outcome (VInt (foldl (fun n kv => swrap64 (n + counter_int kv.2)) 0 es))))
  | _ => (s, es, no_attribute "Counter" method)
  end%string.
End MapMethods.
