(* ===== verification/SetMethods.v ===== *)
(** Methods of sets and deques (eval/functions/methods/set.rs, deque.rs). Set
    methods lock the receiver only around each access. *)
From Stdlib Require Import ZArith Lia Ascii String SpecFloat.
From stdpp Require Import base tactics list numbers option strings pretty gmap.
From S2P Require Import Prelude PySet Values Errors F64 Keys Arith Classes Slices Compare Operators State Exceptions Op Methods MapMethods.

Section SetMethods.
Context `{External} `{!ExternalOrder} `{!Platform} `{!Formats} `{!Trees} `{!Calls} `{!Estimates}.

Abbreviation Kwargs := (list (string * Value)).
Abbreviation Body := (SetBody Value).

(** The operations of set bodies with the elements of a heap. *)
Definition body_at (h : Heap) (l : loc) : Body := default body_empty (sets h !! l).
Definition has (h : Heap) : Body -> Value -> option bool := @body_contains _ (set_elem h).
Definition gets (h : Heap) : Body -> Value -> option (bool * Body) := @add_value _ (set_elem h).
Definition loses (h : Heap) : Body -> Value -> option (bool * Body) := @discard_value _ (set_elem h).

Definition store_set (l : loc) (b : Body) (s : InterpreterState) : InterpreterState :=
  set_heap (with_set l b (heap s)) s.

(** A computation on bodies that only the probe bound can stop. *)
Definition computed {A} (s : InterpreterState) (r : option A) : Eval A := done s (or_panic r).

Definition set_value (s : InterpreterState) (b : Body) : Eval MethodOutcome :=
  let (l, h) := shared_set (heap s) b in done (set_heap h s) (Ok (pure_outcome (VSet l))).

Definition items_of (s : InterpreterState) (v : Value) : Eval (list Value) :=
  in_heap s (dispatch_iter structural_eq set_elem (heap s) v).

Definition arg_body (s : InterpreterState) (arg : Value) : Eval Body :=
  match arg with
  | VSet l | VFrozenset l => done s (Ok (body_at (heap s) l))
  | _ => let? (s, items) := items_of s arg in computed s (@from_items _ (set_elem (heap s)) items)
  end.

Definition apply_union (s : InterpreterState) (acc : Body) (arg : Value) : Eval Body :=
  match arg with
  | VSet l | VFrozenset l => computed s (@merge_from _ (set_elem (heap s)) acc (body_at (heap s) l))
  | _ => let? (s, items) := items_of s arg in computed s (@PySet.add_values _ (set_elem (heap s)) acc items)
  end.

(** The items also in [acc], in their own order. *)
Fixpoint intersect_items (h : Heap) (acc r : Body) (items : list Value) : option Body :=
  match items with
  | [] => Some r
  | v :: items =>
      present ← has h acc v;
      r ← (if present : bool then '(_, r) ← gets h r v; Some r else Some r);
      intersect_items h acc r items
  end.

Definition intersect_arg (s : InterpreterState) (acc : Body) (arg : Value) : Eval Body :=
  match arg with
  | VSet l | VFrozenset l => computed s (@intersection_with _ (set_elem (heap s)) acc (body_at (heap s) l))
  | _ => let? (s, items) := items_of s arg in computed s (intersect_items (heap s) acc body_empty items)
  end.

Definition apply_difference (s : InterpreterState) (acc : Body) (arg : Value) : Eval Body :=
  match arg with
  | VSet l | VFrozenset l => computed s (@difference_from _ (set_elem (heap s)) acc (body_at (heap s) l))
  | _ =>
      let? (s, items) := items_of s arg in
      let? (s, other) := computed s (@from_items _ (set_elem (heap s)) items) in
      computed s (@difference_from _ (set_elem (heap s)) acc other)
  end.

Fixpoint over_args (step : InterpreterState -> Body -> Value -> Eval Body) (s : InterpreterState) (acc : Body)
    (args : list Value) : Eval Body :=
  match args with
  | [] => done s (Ok acc)
  | arg :: args => let? (s, acc) := step s acc arg in over_args step s acc args
  end.

Fixpoint all_in (h : Heap) (b : Body) (vs : list Value) : option bool :=
  match vs with
  | [] => Some true
  | v :: vs => found ← has h b v; if found : bool then all_in h b vs else Some false
  end.

Fixpoint any_in (h : Heap) (b : Body) (vs : list Value) : option bool :=
  match vs with
  | [] => Some false
  | v :: vs => found ← has h b v; if found : bool then Some true else any_in h b vs
  end.

Definition answered (s : InterpreterState) (r : option bool) : Eval MethodOutcome :=
  let? (s, b) := computed s r in done s (Ok (pure_outcome (VBool b))).

Definition body_bytes (h : Heap) (b : Body) : Z := sizes h (body_iter_ordered b).

Definition delta_outcome (old new : Z) : MethodOutcome :=
  if new >=? old then grew VNone (new - old) else shrank VNone (old - new).

(** An in-place operator: computed on a copy, then stored. *)
Definition updated (s : InterpreterState) (l : loc) (acc : Eval Body) : Eval MethodOutcome :=
  let old := body_bytes (heap s) (body_at (heap s) l) in
  let? (s, acc) := acc in
  done (store_set l acc s) (Ok (delta_outcome old (body_bytes (heap s) acc))).

Definition is_instance_value (v : Value) : bool := match v with VInstance _ _ => true | _ => false end.

Definition set_add (s : InterpreterState) (l : loc) (args : list Value) : Eval MethodOutcome :=
  let? (s, arg) := done s (arg1 "add" args) in
  let? (s, _) := done s (if is_instance_value arg then Ok KNone
                         else value_to_key address (heap s) nesting arg) in
  let? (s, out) := computed s (gets (heap s) (body_at (heap s) l) arg) in
  done (store_set l out.2 s)
       (Ok (if out.1 : bool then grew VNone (size (heap s) arg) else pure_outcome VNone)).

(** [remove] raises for a missing element, [discard] does not. *)
Definition set_discard (s : InterpreterState) (l : loc) (method : string) (args : list Value) : Eval MethodOutcome :=
  let? (s, arg) := done s (arg1 method args) in
  let? (s, out) := computed s (loses (heap s) (body_at (heap s) l) arg) in
  if out.1 : bool then done (store_set l out.2 s) (Ok (shrank VNone (size (heap s) arg)))
  else if bool_decide (method = "remove"%string)
  then done s (Err (Exception (ExceptionValue_new "KeyError" (repr (heap s) arg))))
  else done s (Ok (pure_outcome VNone)).

Definition set_pop (s : InterpreterState) (l : loc) : Eval MethodOutcome :=
  match body_pop_first (body_at (heap s) l) with
  | (Some v, b) => done (store_set l b s) (Ok (shrank v (size (heap s) v)))
  | (None, _) => done s (Err (Exception (ExceptionValue_new "KeyError" (lit "'pop from an empty set'"))))
  end.

(** [dispatch_set_method] on the shared set at [l]. *)
Definition dispatch_set_method (s : InterpreterState) (l : loc) (method : string) (args : list Value)
    (kwargs : Kwargs) : Eval MethodOutcome :=
  let? (s, _) := done s (reject_kwargs method kwargs) in
  let body := body_at (heap s) l in
  let copied_body := computed s (@copied _ (set_elem (heap s)) body) in
  let fresh (m : Eval Body) := let? (s, b) := m in set_value s b in
  match method with
  | "copy" => fresh copied_body
  | "union" => fresh (let? (s, acc) := copied_body in over_args apply_union s acc args)
  | "intersection" =>
      fresh (match args with [] => copied_body | _ => over_args intersect_arg s body args end)
  | "difference" => fresh (let? (s, acc) := copied_body in over_args apply_difference s acc args)
  | "symmetric_difference" =>
      let? (s, arg) := done s (arg1 method args) in
      let? (s, other) := arg_body s arg in
      fresh (computed s (@symmetric_difference_with _ (set_elem (heap s)) body other))
  | "issubset" =>
      let? (s, arg) := done s (arg1 method args) in
      let? (s, other) := arg_body s arg in
      answered s (all_in (heap s) other (body_iter_ordered body))
  | "issuperset" =>
      let? (s, arg) := done s (arg1 method args) in
      let? (s, other) := items_of s arg in
      answered s (all_in (heap s) body other)
  | "isdisjoint" =>
      let? (s, arg) := done s (arg1 method args) in
      let? (s, other) := items_of s arg in
      answered s (negb <$> any_in (heap s) body other)
  | "add" => set_add s l args
  | "remove" | "discard" => set_discard s l method args
  | "pop" => set_pop s l
  | "clear" =>
      done (store_set l (body_clear body) s) (Ok (shrank VNone (body_bytes (heap s) body)))
  | "update" => updated s l (over_args apply_union s body args)
  | "intersection_update" => updated s l (over_args intersect_arg s body args)
  | "difference_update" => updated s l (over_args apply_difference s body args)
  | "symmetric_difference_update" =>
      let? (s, arg) := done s (arg1 method args) in
      let? (s, other) := arg_body s arg in
      updated s l (computed s (toggle (heap s) body (body_iter_ordered other)))
  | _ => done s (no_attribute "set" method)
  end%string.

Definition FROZENSET_METHODS : list string :=
  ["copy"; "union"; "intersection"; "difference"; "symmetric_difference"; "issubset"; "issuperset"; "isdisjoint"]%string.

(** A frozenset runs the method on a scratch copy of its body. *)
Definition dispatch_frozenset_method (s : InterpreterState) (l : loc) (method : string) (args : list Value)
    (kwargs : Kwargs) : Eval MethodOutcome :=
  if negb (bool_decide (method ∈ FROZENSET_METHODS)) then done s (no_attribute "frozenset" method)
  else
    let (scratch, h) := shared_set (heap s) (body_at (heap s) l) in
    let? (s, out) := dispatch_set_method (set_heap h s) scratch method args kwargs in
    match outcome_value out with
    | VSet v =>
        let (l', h) := shared_set (heap s) (body_at (heap s) v) in
        done (set_heap h s) (Ok (pure_outcome (VFrozenset l')))
    | v => done s (Ok (pure_outcome v))
    end.

(** ** Deques *)

Abbreviation Deque := (InterpreterState * list Value * EvalResult MethodOutcome)%type.

Definition isize_sub (a b : Z) : Z := Z.max i64_min (Z.min (a - b) i64_max).

(** Items leave the front until [cap] are left; the delta counts their bytes. *)
Fixpoint trim_front (h : Heap) (cap : Z) (items : list Value) (delta : Z) : list Value * Z :=
  match items with
  | [] => ([], delta)
  | x :: xs =>
      if Z.of_nat (length items) >? cap
      then trim_front h cap xs (isize_sub delta (to_isize (size h x)))
      else (items, delta)
  end.

Definition push_back (h : Heap) (maxlen : option Z) (items : list Value) (v : Value) (delta : Z) : list Value * Z :=
  match maxlen with
  | Some cap => trim_front h cap (items ++ [v]) delta
  | None => (items ++ [v], delta)
  end.

(** The mirror image: at the front, with items leaving the back. *)
Definition push_front (h : Heap) (maxlen : option Z) (items : list Value) (v : Value) (delta : Z) : list Value * Z :=
  let (back, delta) := push_back h maxlen (rev items) v delta in (rev back, delta).

Fixpoint push_all (push : list Value -> Value -> Z -> list Value * Z) (h : Heap) (items new : list Value)
    (delta : Z) : list Value * Z :=
  match new with
  | [] => (items, delta)
  | v :: new =>
      let (items, delta) := push items v (Z.max i64_min (Z.min (delta + to_isize (size h v)) i64_max)) in
      push_all push h items new delta
  end.

(** [rotate_right]. *)
Definition rotate_right {A} (shift : nat) (items : list A) : list A :=
  let k := (length items - shift)%nat in drop k items ++ take k items.

Definition rotate (n : Z) (items : list Value) : list Value :=
  match items with
  | [] => []
  | _ => rotate_right (Z.to_nat (n mod Z.of_nat (length items))) items
  end.

Definition small_int_arg (args : list Value) (default : option Z) (bad : Value -> string) (missing : string) :
    EvalResult Z :=
  match args with
  | [] => match default with Some n => Ok n | None => fail (TypeError missing) end
  | VInt n :: _ => Ok n
  | VBool b :: _ => Ok (Z.b2z b)
  | v :: _ => fail (TypeError (bad v))
  end.

(** [deque.insert] clamps its index into the deque. *)
Definition deque_position (raw : Z) (len : nat) : nat :=
  let n := Z.of_nat len in
  let idx := Z.max (- n) (Z.min raw n) in
  if idx <? 0 then Z.to_nat (Z.max (idx + n) 0) else Z.to_nat (Z.min idx n).

Definition popped (s : InterpreterState) (rest : list Value) (v : Value) : Deque :=
  (s, rest, Ok (mkOutcome v (- to_isize (size (heap s) v)))).

Definition empty_deque (s : InterpreterState) : Deque :=
  (s, [], Err (Exception (ExceptionValue_new "IndexError" (lit "pop from an empty deque")))).

(** [dispatch_deque_method]. *)
Definition dispatch_deque_method (s : InterpreterState) (items : list Value) (maxlen : option Z) (method : string)
    (args : list Value) (kwargs : Kwargs) : Deque :=
  let refuse {A} (r : EvalResult A) (k : A -> Deque) : Deque :=
    match r with Ok a => k a | Err e => (s, items, Err e) | Panic => (s, items, Panic) end in
  let pushed (out : list Value * Z) : Deque := (s, out.1, Ok (mkOutcome VNone out.2)) in
  let extended (push : Heap -> list Value -> Value -> Z -> list Value * Z) : Deque :=
    refuse (arg1 method args) (fun arg =>
      match in_heap s (dispatch_iter structural_eq set_elem (heap s) arg) with
      | (s, Ok new) =>
          let (items, delta) := push_all (push (heap s)) (heap s) items new 0 in
          (s, items, Ok (mkOutcome VNone delta))
      | (s, Err e) => (s, items, Err e)
      | (s, Panic) => (s, items, Panic)
      end) in
  let searched {A} (w : Value -> Walk A) (k : InterpreterState -> Value -> A -> Deque) : Deque :=
    refuse (arg1 method args) (fun arg =>
      match walked s (w arg) with
      | (s, Ok a) => k s arg a
      | (s, Err e) => (s, items, Err e)
      | (s, Panic) => (s, items, Panic)
      end) in
  refuse (reject_kwargs method kwargs) (fun _ =>
  match method with
  | "append" =>
      refuse (arg1 method args) (fun v =>
        pushed (push_back (heap s) maxlen items v (to_isize (size (heap s) v))))
  | "appendleft" =>
      refuse (arg1 method args) (fun v =>
        pushed (push_front (heap s) maxlen items v (to_isize (size (heap s) v))))
  | "pop" => match list.last items with Some v => popped s (removelast items) v | None => empty_deque s end
  | "popleft" => match items with v :: rest => popped s rest v | [] => empty_deque s end
  | "extend" => extended (fun h => push_back h maxlen)
  | "extendleft" => extended (fun h => push_front h maxlen)
  | "rotate" =>
      refuse (small_int_arg args (Some 1)
                (fun v => "rotate() expected an integer (got '" ++ type_name v ++ "')") "") (fun n =>
        (s, rotate n items, Ok (pure_outcome VNone)))
  | "clear" => (s, [], Ok (shrank VNone (sizes (heap s) items)))
  | "copy" => (s, items, Ok (pure_outcome (VDeque items maxlen)))
  | "index" =>
      searched (find_equal none_held (heap s) 0 items) (fun s arg i =>
        (s, items, match i with
                   | Some i => Ok (pure_outcome (VInt (Z.of_nat i)))
                   | None => fail (ValueError (text_name (repr (heap s) arg) ++ " is not in deque"))
                   end))
  | "count" =>
      searched (count_equal none_held (heap s) items) (fun s _ n => (s, items, Ok (pure_outcome (VInt n))))
  | "insert" =>
      refuse (small_int_arg args None (fun _ => "insert() argument 1 must be an integer")
                "insert() argument 1 must be an integer") (fun raw =>
        let value := default VNone (args !! 1%nat) in
        if match maxlen with Some m => (m <=? Z.of_nat (length items))%Z | None => false end
        then (s, items, Err (Exception (ExceptionValue_new "IndexError" (lit "deque already at its maximum size"))))
        else (s, insert_at (deque_position raw (length items)) value items,
              Ok (grew VNone (size (heap s) value))))
  | "remove" =>
      searched (find_equal none_held (heap s) 0 items) (fun s _ i =>
        match i with
        | Some i =>
            let removed := default VNone (items !! i) in
            (s, delete i items, Ok (shrank VNone (size (heap s) removed)))
        | None => (s, items, fail (ValueError "deque.remove(x): x not in deque"))
        end)
  | "reverse" => (s, rev items, Ok (pure_outcome VNone))
  | _ => (s, items, no_attribute "deque" method)
  end%string).

(** ** The method table

    The entries for containers: the state, the receiver as the method leaves it,
    and the outcome. Lists, dictionaries and sets change in the heap. *)
Definition container_methods (s : InterpreterState) (obj : Value) (method : string) (args : list Value)
    (kwargs : Kwargs) : option (InterpreterState * Value * EvalResult MethodOutcome) :=
  let shared (m : Eval MethodOutcome) := (m.1, obj, m.2) in
  match obj with
  | VList l => Some (shared (list_methods s l method args kwargs))
  | VTuple items => Some (shared (allocated (dispatch_tuple_method s items method args kwargs)))
  | VRange start stop step => Some (shared (allocated (range_methods s start stop step method args kwargs)))
  | VDict l | VOrderedDict l => Some (shared (dict_methods s l method args kwargs))
  | VDefaultDict m factory =>
      let '(s, m, r) := dispatch_dict_method None s m method args kwargs in Some (s, VDefaultDict m factory, r)
  | VCounter m =>
      let '(s, m, r) := dispatch_counter_method s m method args kwargs in Some (s, VCounter m, r)
  | VChainMap maps => Some (shared (chainmap_methods s maps method args kwargs))
  | VSet l => Some (shared (dispatch_set_method s l method args kwargs))
  | VFrozenset l => Some (shared (dispatch_frozenset_method s l method args kwargs))
  | VDeque items maxlen =>
      let '(s, items, r) := dispatch_deque_method s items maxlen method args kwargs in
      Some (s, VDeque items maxlen, r)
  | _ => None
  end.
End SetMethods.
