(* ===== verification/Containers.v ===== *)
(** The container protocol of builtin values (types.rs): length, and reading, writing
    and deleting an item, through the slots of the type objects. *)
From Stdlib Require Import ZArith Lia Ascii String SpecFloat.
From stdpp Require Import base tactics list numbers option strings pretty gmap.
From S2P Require Import Prelude PySet Values Errors F64 Keys Classes Slices Compare Operators State Exceptions Op Methods MapMethods.

(** The allocations whose lock an operation takes and may hold already: a second lock
    of the same thread never returns ([Panic]). *)
Inductive Lock : Type := LList (l : loc) | LDict (l : loc) | LFields (l : loc).
#[export] Instance lock_eq_dec : EqDecision Lock.
Proof. solve_decision. Defined.

(** ** Storing into the heap *)

Section Stores.
Context `{External}.

Definition put_list (l : loc) (items : list Value) (h : Heap) : Heap :=
  mkHeap (<[l := items]> (lists h)) (dicts h) (sets h) (bytearrays h) (stringios h) (instance_fields h).
Definition put_dict (l : loc) (es : list (ValueKey * Value)) (h : Heap) : Heap :=
  mkHeap (lists h) (<[l := es]> (dicts h)) (sets h) (bytearrays h) (stringios h) (instance_fields h).
Definition put_bytes (l : loc) (b : list Z) (h : Heap) : Heap :=
  mkHeap (lists h) (dicts h) (sets h) (<[l := b]> (bytearrays h)) (stringios h) (instance_fields h).
Definition put_fields (l : loc) (fs : list (string * Value)) (h : Heap) : Heap :=
  mkHeap (lists h) (dicts h) (sets h) (bytearrays h) (stringios h) (<[l := fs]> (instance_fields h)).
End Stores.

Section Containers.
Context `{External} `{!ExternalOrder} `{!Platform} `{!Formats} `{!Trees} `{!Calls} `{!Estimates}.
Abbreviation key_eq := (key_eqb structural_eq).
Abbreviation Entries := (list (ValueKey * Value)).

Definition key_of (h : Heap) (v : Value) : EvalResult ValueKey := value_to_key address h nesting v.
Definition missing_key {A} (k : ValueKey) : EvalResult A := Err (Exception (key_error k)).

Definition acquire {A} (held : list Lock) (l : Lock) (k : EvalResult A) : EvalResult A :=
  if bool_decide (l ∈ held) then Panic else k.

Definition static_name (v : Value) : string := type_object_name (type_of v).

(** ** Length *)

Definition chain_keys (h : Heap) (maps : list Value) : list ValueKey :=
  flat_map (fun m => match m with VDict l => (dict_at h l).*1 | _ => [] end) maps.

Definition dispatch_len (h : Heap) (v : Value) : EvalResult Z :=
  let count {A} (l : list A) := Ok (Z.of_nat (length l)) in
  match v with
  | VArray _ l | VList l => count (list_at h l)
  | VString s => count s
  | VBytes _ | VByteArray _ | VMemoryView _ => count (default [] (bytes_view h v))
  | VTuple items => count items
  | VSet _ | VFrozenset _ => Ok (default 0 (set_len h v))
  | VDict l | VOrderedDict l | VDictView l _ => count (dict_at h l)
  | VRange start stop step => Ok (range_length start stop step)
  | VCounter items => count items
  | VDeque items _ => count items
  | VDefaultDict items _ => count items
  | VChainMap maps => count (fresh_keys structural_eq [] (chain_keys h maps))
  | _ => fail (TypeError ("object of type '" ++ static_name v ++ "' has no len()"))
  end.

(** ** Reading an item *)

Definition bytes_get_item (h : Heap) (container index : Value) : EvalResult Value :=
  let b := default [] (bytes_view h container) in
  raw ← int_index index (match container with VByteArray _ => "bytearray" | _ => "bytes" end);
  idx ← normalize_seq_index raw (length b) "bytes";
  c ← or_panic (b !! idx);
  Ok (VInt c).

Definition entry_of (es : Entries) (k : ValueKey) : EvalResult Value :=
  match im_get key_eq es k with Some v => Ok v | None => missing_key k end.

Definition dict_get_item (h : Heap) (l : loc) (index : Value) : EvalResult Value :=
  k ← key_of h index; entry_of (dict_at h l) k.

Definition counter_missing : Value := VInt 0.
Definition counter_get_item (h : Heap) (items : Entries) (index : Value) : EvalResult Value :=
  k ← key_of h index; Ok (default counter_missing (im_get key_eq items k)).

Definition deque_get_item (items : list Value) (index : Value) : EvalResult Value :=
  raw ← int_index index "deque";
  idx ← normalize_seq_index raw (length items) "deque";
  or_panic (items !! idx).

(** The first map with the key. *)
Fixpoint chain_get (h : Heap) (maps : list Value) (k : ValueKey) : EvalResult Value :=
  match maps with
  | [] => missing_key k
  | VDict l :: maps => match im_get key_eq (dict_at h l) k with Some v => Ok v | None => chain_get h maps k end
  | _ :: maps => chain_get h maps k
  end.
Definition chainmap_get_item (h : Heap) (maps : list Value) (index : Value) : EvalResult Value :=
  k ← key_of h index; chain_get h maps k.

Definition plain_getitem (h : Heap) (container index : Value) : EvalResult Value :=
  match container with
  | VList _ | VTuple _ => sequence_get_item h container index
  | VString _ => str_get_item container index
  | VBytes _ | VByteArray _ | VMemoryView _ => bytes_get_item h container index
  | VDict l | VOrderedDict l => dict_get_item h l index
  | VRange _ _ _ => range_get_item container index
  | VCounter items => counter_get_item h items index
  | VDeque items _ => deque_get_item items index
  | VChainMap maps => chainmap_get_item h maps index
  | _ => fail (TypeError ("'" ++ static_name container ++ "' object is not subscriptable"))
  end.

(** [dispatch_getitem]; an array is indexed like its list. *)
Definition getitem_slot (h : Heap) (container index : Value) : EvalResult Value :=
  match container with
  | VArray typecode l =>
      v ← plain_getitem h (VList l) index;
      Ok match v with VList l => VArray typecode l | _ => v end
  | _ => plain_getitem h container index
  end.

(** ** Writing an item

    The growth in bytes, the container afterwards, the heap. *)

Abbreviation Written := (Z * Value * Heap)%type.

Definition list_set_item_in (held : list Lock) (h : Heap) (l : loc) (index value : Value) : EvalResult (Z * Heap) :=
  raw ← int_index index "list";
  acquire held (LList l)
    (let items := list_at h l in
     idx ← normalize_seq_index raw (length items) "list";
     old ← or_panic (items !! idx);
     Ok (size_delta (size h old) (size h value), put_list l (<[idx := value]> items) h)).

(** [insert] of an index map, with the growth. *)
Definition insert_entry (h : Heap) (es : Entries) (k : ValueKey) (v : Value) : Z * Entries :=
  (match im_get key_eq es k with
   | Some old => size_delta (size h old) (size h v)
   | None => to_isize (key_size k + size h v)
   end, im_insert key_eq es k v).

Definition dict_set_item (held : list Lock) (h : Heap) (l : loc) (index value : Value) : EvalResult (Z * Heap) :=
  k ← key_of h index;
  acquire held (LDict l) (let (delta, es) := insert_entry h (dict_at h l) k value in Ok (delta, put_dict l es h)).

Definition byte_from_value (v : Value) : EvalResult Z :=
  match v with
  | VInt n => if (0 <=? n) && (n <=? 255) then Ok n else fail (ValueError "byte must be in range(0, 256)")
  | VBool b => Ok (Z.b2z b)
  | other => fail (TypeError ("'" ++ type_name other ++ "' object cannot be interpreted as an integer"))
  end.

Definition bytearray_set_item (h : Heap) (l : loc) (index value : Value) : EvalResult (Z * Heap) :=
  byte ← byte_from_value value;
  raw ← int_index index "bytearray";
  idx ← normalize_seq_index raw (length (bytes_at h l)) "bytearray";
  Ok (0, put_bytes l (<[idx := byte]> (bytes_at h l)) h).

Definition deque_set_item (h : Heap) (items : list Value) (index value : Value) : EvalResult (Z * list Value) :=
  raw ← int_index index "deque";
  idx ← normalize_seq_index raw (length items) "deque";
  old ← or_panic (items !! idx);
  Ok (size_delta (size h old) (size h value), <[idx := value]> items).

(** The first map takes the entry; its growth is not counted. *)
Definition chainmap_set_item (held : list Lock) (h : Heap) (maps : list Value) (index value : Value) : EvalResult (Z * Heap) :=
  k ← key_of h index;
  match maps with
  | VDict l :: _ => acquire held (LDict l) (Ok (0, put_dict l (im_insert key_eq (dict_at h l) k value) h))
  | _ => Ok (0, h)
  end.

Definition dispatch_setitem (held : list Lock) (h : Heap) (container index value : Value) : EvalResult Written :=
  let shared (r : EvalResult (Z * Heap)) := '(delta, h) ← r; Ok (delta, container, h) in
  match container with
  | VArray _ l | VList l => shared (list_set_item_in held h l index value)
  | VByteArray l => shared (bytearray_set_item h l index value)
  | VDict l | VOrderedDict l => shared (dict_set_item held h l index value)
  | VCounter items =>
      k ← key_of h index; let (delta, items) := insert_entry h items k value in Ok (delta, VCounter items, h)
  | VDefaultDict items factory =>
      k ← key_of h index; let (delta, items) := insert_entry h items k value in Ok (delta, VDefaultDict items factory, h)
  | VDeque items maxlen =>
      '(delta, items) ← deque_set_item h items index value; Ok (delta, VDeque items maxlen, h)
  | VChainMap maps => shared (chainmap_set_item held h maps index value)
  | _ => fail (TypeError ("'" ++ static_name container ++ "' object does not support item assignment"))
  end.

(** ** Deleting an item *)

(** The step of a computed slice. *)
Definition deletion_step (step : Value) : EvalResult Z :=
  n ← match step with
      | VNone => Ok 1
      | VInt n => Ok n
      | VBool b => Ok (Z.b2z b)
      | _ => bad_bound
      end;
  if n =? 0 then fail (ValueError "slice step cannot be zero") else Ok n.

Definition list_del_item (held : list Lock) (h : Heap) (l : loc) (index : Value) : EvalResult (Z * Heap) :=
  let items := list_at h l in
  match index with
  | VSlice start stop step =>
      step ← deletion_step step;
      acquire held (LList l)
        (indices ← or_panic (strided_indices (Some start) (Some stop) step (Z.of_nat (length items)));
         let freed := foldr (fun v n => size h v + n) 0 (omap (fun i => items !! i) indices) in
         Ok (- to_isize freed, put_list l (remove_indices items indices) h))
  | _ =>
      raw ← int_index index "list";
      acquire held (LList l)
        (idx ← normalize_seq_index raw (length items) "list";
         removed ← or_panic (items !! idx);
         Ok (- to_isize (size h removed), put_list l (delete idx items) h))
  end.

(** [shift_remove]: the entry of a key and the others in their order. *)
Definition remove_entry (h : Heap) (es : Entries) (k : ValueKey) : EvalResult (Z * Entries) :=
  match im_remove es k with
  | Some (_, v, es) => Ok (- to_isize (key_size k + size h v), es)
  | None => missing_key k
  end.

Definition dict_del_item (held : list Lock) (h : Heap) (l : loc) (index : Value) : EvalResult (Z * Heap) :=
  k ← key_of h index;
  acquire held (LDict l) ('(delta, es) ← remove_entry h (dict_at h l) k; Ok (delta, put_dict l es h)).

Definition bytearray_del_item (h : Heap) (l : loc) (index : Value) : EvalResult (Z * Heap) :=
  raw ← int_index index "bytearray";
  idx ← normalize_seq_index raw (length (bytes_at h l)) "bytearray";
  Ok (-1, put_bytes l (delete idx (bytes_at h l)) h).

Definition deque_del_item (h : Heap) (items : list Value) (index : Value) : EvalResult (Z * list Value) :=
  raw ← int_index index "deque";
  idx ← normalize_seq_index raw (length items) "deque";
  removed ← or_panic (items !! idx);
  Ok (- to_isize (size h removed), delete idx items).

(** Only the first map loses the key. [shown] is the key as the message shows it. *)
Definition chainmap_del_item (shown : ValueKey -> text) (held : list Lock) (h : Heap) (maps : list Value) (index : Value) :
    EvalResult (Z * Heap) :=
  k ← key_of h index;
  let missing := Err (Exception (ExceptionValue_new "KeyError" (lit "Key not found in the first mapping: " ++ shown k))) in
  match maps with
  | VDict l :: _ =>
      acquire held (LDict l)
        match im_remove (dict_at h l) k with
        | Some (_, es) => Ok (0, put_dict l es h)
        | None => missing
        end
  | _ => missing
  end.

Definition dispatch_delitem (shown : ValueKey -> text) (held : list Lock) (h : Heap) (container index : Value) : EvalResult Written :=
  let shared (r : EvalResult (Z * Heap)) := '(delta, h) ← r; Ok (delta, container, h) in
  match container with
  | VList l => shared (list_del_item held h l index)
  | VByteArray l => shared (bytearray_del_item h l index)
  | VDict l | VOrderedDict l => shared (dict_del_item held h l index)
  | VCounter items => k ← key_of h index; '(delta, items) ← remove_entry h items k; Ok (delta, VCounter items, h)
  | VDefaultDict items factory =>
      k ← key_of h index; '(delta, items) ← remove_entry h items k; Ok (delta, VDefaultDict items factory, h)
  | VDeque items maxlen => '(delta, items) ← deque_del_item h items index; Ok (delta, VDeque items maxlen, h)
  | VChainMap maps => shared (chainmap_del_item shown held h maps index)
  | _ => fail (TypeError ("'" ++ static_name container ++ "' object does not support item deletion"))
  end.
End Containers.
