(* ===== verification/Places.v ===== *)
(** Places (eval/place.rs): a variable and the steps to a slot inside its value, the walk
    to the slot under the locks of the containers passed, and the writes through it. *)
From Stdlib Require Import ZArith Lia Ascii String SpecFloat.
From stdpp Require Import base tactics list numbers option strings pretty gmap.
From S2P Require Import Prelude PySet Values Errors F64 Keys Classes Slices Compare Operators State Exceptions Op Methods MapMethods Containers.

Section Steps.
Context `{External}.

Record SliceSpec : Type := mkSliceSpec { lower : option Value; upper : option Value; step : option Value }.
Inductive PlaceStep : Type := Index (key : Value) | SliceStep (spec : SliceSpec) | Attr (name : string).
Record PlaceOf : Type := mkPlace { root : string; steps : list PlaceStep }.

(** A field that is there takes a value. *)
Fixpoint field_put (fs : list (string * Value)) (name : string) (v : Value) : list (string * Value) :=
  match fs with
  | [] => []
  | (n, v') :: fs => if bool_decide (n = name) then (n, v) :: fs else (n, v') :: field_put fs name v
  end.

Definition is_slice_step (p : PlaceStep) : bool := match p with SliceStep _ => true | _ => false end.
Definition is_navigable (p : PlaceOf) : bool := forallb (fun st => negb (is_slice_step st)) (steps p).
End Steps.

Section Places.
Context `{External} `{!ExternalOrder} `{!Platform} `{!Formats} `{!Trees} `{!Calls} `{!Estimates}.
Abbreviation key_eq := (key_eqb structural_eq).

(** What is done at a slot: the slot's value and the heap afterwards, and the result.
    The slot may have changed when the result is an error. *)
Abbreviation Visit A := (Heap * Value * EvalResult A)%type.
Abbreviation Visitor A := (list Lock -> Heap -> Value -> Visit A).

Definition seq_index (len : nat) (key : Value) : EvalResult nat :=
  raw ← match key with
        | VInt i => Ok i
        | VBool b => Ok (Z.b2z b)
        | other => fail (TypeError ("list indices must be integers or slices, not " ++ type_name other))
        end;
  let idx := if raw <? 0 then Z.of_nat len + raw else raw in
  if (idx <? 0) || (Z.of_nat len <=? idx) then Err (Exception (index_error "list")) else Ok (Z.to_nat idx).

Definition no_subscript {A} (v : Value) : EvalResult A :=
  fail (TypeError ("'" ++ type_name v ++ "' object is not subscriptable")).
Definition no_attr {A} (name attr : string) : EvalResult A :=
  fail (AttributeError ("'" ++ name ++ "' object has no attribute '" ++ attr ++ "'")).

Section Nav.
Context {A : Type}.
Variable f : Visitor A.

(** On with the walk when the step succeeds; else nothing changes. *)
Definition nav_try {B} (h : Heap) (cur : Value) (r : EvalResult B) (k : B -> Visit A) : Visit A :=
  match r with Ok b => k b | Err e => (h, cur, Err e) | Panic => (h, cur, Panic) end.

Fixpoint nav_recurse (steps : list PlaceStep) (held : list Lock) (h : Heap) (cur : Value) {struct steps} : Visit A :=
  match steps with
  | [] => f held h cur
  | st :: steps =>
      let try {B} := @nav_try B h cur in
      (* the slot [v] of a locked container, which [put] writes back *)
      let inside (l : Lock) (v : Value) (put : Value -> Heap -> Heap) :=
        let '(h, v, r) := nav_recurse steps (l :: held) h v in (put v h, cur, r) in
      (* the slot [v] of a container that is part of its value *)
      let inline (v : Value) (put : Value -> Value) :=
        let '(h, v, r) := nav_recurse steps held h v in (h, put v, r) in
      match st with
      | Index key =>
          let shared_map (l : loc) :=
            try (key_of h key) (fun k =>
              try (acquire held (LDict l) (entry_of (dict_at h l) k)) (fun v =>
                inside (LDict l) v (fun v h => put_dict l (im_insert key_eq (dict_at h l) k v) h))) in
          match cur with
          | VList l =>
              try (acquire held (LList l) (seq_index (length (list_at h l)) key)) (fun i =>
                try (or_panic (list_at h l !! i)) (fun v =>
                  inside (LList l) v (fun v h => put_list l (<[i := v]> (list_at h l)) h)))
          | VDict l | VOrderedDict l => shared_map l
          | VDefaultDict items factory =>
              try (key_of h key) (fun k =>
                try (entry_of items k) (fun v =>
                  inline v (fun v => VDefaultDict (im_insert key_eq items k v) factory)))
          | VCounter items =>
              try (key_of h key) (fun k =>
                inline (default (VInt 0) (im_get key_eq items k)) (fun v => VCounter (im_insert key_eq items k v)))
          | VDeque items maxlen =>
              try (seq_index (length items) key) (fun i =>
                try (or_panic (items !! i)) (fun v => inline v (fun v => VDeque (<[i := v]> items) maxlen)))
          | other => (h, cur, no_subscript other)
          end
      | Attr name =>
          match cur with
          | VDict l =>
              let k := KString (name_text name) in
              try (acquire held (LDict l)
                     match im_get key_eq (dict_at h l) k with Some v => Ok v | None => no_attr "dict" name end) (fun v =>
                inside (LDict l) v (fun v h => put_dict l (im_insert key_eq (dict_at h l) k v) h))
          | VInstance class_name l =>
              try (acquire held (LFields l)
                     match field_get (fields_at h l) name with Some v => Ok v | None => no_attr class_name name end) (fun v =>
                inside (LFields l) v (fun v h => put_fields l (field_put (fields_at h l) name v) h))
          | other => (h, cur, no_attr (type_name other) name)
          end
      | SliceStep _ => (h, cur, fail (Runtime "a slice cannot be used as an intermediate assignment target"))
      end
  end.
End Nav.

(** [with_navigate_mut] from the variable of a place. *)
Definition at_place {A} (s : InterpreterState) (name : string) (steps : list PlaceStep) (f : Visitor A) : Eval A :=
  match variables s !! name with
  | None => done s (fail (name_not_defined name))
  | Some v =>
      let '(h, v, r) := nav_recurse f steps [] (heap s) v in
      (set_variables (<[name := v]> (variables s)) (set_heap h s), r)
  end.

(** A visitor that only looks. *)
Definition looking {A} (f : Heap -> Value -> EvalResult A) : Visitor A := fun _ h v => (h, v, f h v).
Definition read_slot : Visitor Value := looking (fun _ v => Ok v).

(** ** Writing at the last step *)

(** A write that succeeds or changes nothing. *)
Definition writing (w : list Lock -> Heap -> Value -> EvalResult (Z * Value * Heap)) : Visitor Z :=
  fun held h v => match w held h v with Ok (delta, v, h) => (h, v, Ok delta) | Err e => (h, v, Err e) | Panic => (h, v, Panic) end.

Definition get_slice (held : list Lock) (h : Heap) (container : Value) (spec : SliceSpec) : EvalResult (list Value) :=
  match container with
  | VList l =>
      stride ← resolve_step (step spec);
      acquire held (LList l)
        (let items := list_at h l in
         let len := Z.of_nat (length items) in
         if stride =? 1 then
           start ← resolve_bound (lower spec) 0;
           stop ← resolve_bound (upper spec) len;
           let start := clamp_slice_index start len in
           let stop := Z.max (clamp_slice_index stop len) start in
           Ok (take (Z.to_nat (stop - start)) (drop (Z.to_nat start) items))
         else
           indices ← extended_indices (length items) (lower spec) (upper spec) stride;
           or_panic (mapM (fun i => items !! i) indices))
  | _ => no_subscript container
  end.

Definition total_size (h : Heap) (vs : list Value) : Z := foldr (fun v n => size h v + n) 0 vs.

(** The growth of [assign_slice]. *)
Definition slice_delta (h : Heap) (items new_items : list Value) (spec : SliceSpec) : EvalResult Z :=
  stride ← resolve_step (step spec);
  let len := Z.of_nat (length items) in
  if stride =? 1 then
    start ← resolve_bound (lower spec) 0;
    stop ← resolve_bound (upper spec) len;
    let start := clamp_slice_index start len in
    let stop := Z.max (clamp_slice_index stop len) start in
    Ok (size_delta (total_size h (take (Z.to_nat (stop - start)) (drop (Z.to_nat start) items))) (total_size h new_items))
  else
    indices ← extended_indices (length items) (lower spec) (upper spec) stride;
    Ok (fold_left (fun delta e => isize_add delta (size_delta (default 0 (size h <$> items !! e.1)) (size h e.2)))
          (zip indices new_items) 0).

(** The lists and dictionaries that an iteration over a value locks. *)
Definition iterated_locks (v : Value) : list Lock :=
  match v with
  | VList l | VArray _ l => [LList l]
  | VDict l | VOrderedDict l | VDictView l _ => [LDict l]
  | VChainMap maps => omap (fun m => match m with VDict l => Some (LDict l) | _ => None end) maps
  | _ => []
  end.
Definition iterate_value (held : list Lock) (h : Heap) (v : Value) : EvalResult (list Value * Heap) :=
  foldr (acquire held) (dispatch_iter structural_eq set_elem h v) (iterated_locks v).

Definition set_list_slice (held : list Lock) (h : Heap) (l : loc) (spec : SliceSpec) (value : Value) : EvalResult (Z * Heap) :=
  '(new_items, h) ← iterate_value held h value;
  _ ← resolve_step (step spec);
  acquire held (LList l)
    (let items := list_at h l in
     items' ← assign_slice items new_items (lower spec) (upper spec) (step spec);
     delta ← slice_delta h items new_items spec;
     Ok (delta, put_list l items' h)).

Definition slice_byte (v : Value) : EvalResult Z :=
  match v with
  | VInt n => if (0 <=? n) && (n <=? 255) then Ok n else fail (ValueError "bytes must be in range(0, 256)")
  | VBool b => Ok (Z.b2z b)
  | _ => fail (ValueError "bytes must be in range(0, 256)")
  end.
Fixpoint slice_bytes (vs : list Value) : EvalResult (list Z) :=
  match vs with [] => Ok [] | v :: vs => b ← slice_byte v; bs ← slice_bytes vs; Ok (b :: bs) end.

Definition set_bytearray_slice (held : list Lock) (h : Heap) (l : loc) (spec : SliceSpec) (value : Value) :
    EvalResult (Z * Heap) :=
  '(new_bytes, h) ← match value with
    | VBytes b => Ok (b, h)
    | VByteArray l => Ok (bytes_at h l, h)
    | other => '(vs, h) ← iterate_value held h other; b ← slice_bytes vs; Ok (b, h)
    end;
  stride ← resolve_step (step spec);
  let b := bytes_at h l in
  let len := Z.of_nat (length b) in
  if stride =? 1 then
    start ← resolve_bound (lower spec) 0;
    stop ← resolve_bound (upper spec) len;
    let start := clamp_slice_index start len in
    let stop := Z.max (clamp_slice_index stop len) start in
    Ok (size_delta (stop - start) (Z.of_nat (length new_bytes)),
        put_bytes l (take (Z.to_nat start) b ++ new_bytes ++ drop (Z.to_nat stop) b) h)
  else
    indices ← extended_indices (length b) (lower spec) (upper spec) stride;
    if negb (length indices =? length new_bytes)%nat then
      fail (ValueError ("attempt to assign bytes of size " ++ pretty (length new_bytes) ++
                        " to extended slice of size " ++ pretty (length indices)))
    else Ok (0, put_bytes l (fold_left (fun b e => <[e.1 := e.2]> b) (zip indices new_bytes) b) h).

Definition set_slice (held : list Lock) (h : Heap) (container : Value) (spec : SliceSpec) (value : Value) :
    EvalResult (Z * Value * Heap) :=
  let shared (r : EvalResult (Z * Heap)) := '(delta, h) ← r; Ok (delta, container, h) in
  match container with
  | VByteArray l => shared (set_bytearray_slice held h l spec value)
  | VArray _ l =>
      match value with
      | VArray _ rhs => shared (set_list_slice held h l spec (VList rhs))
      | _ => fail (TypeError ("can only assign array (not " ++ quoted (type_name value) ++ ") to array slice"))
      end
  | VList l => shared (set_list_slice held h l spec value)
  | _ => fail (TypeError ("'" ++ type_name container ++ "' object does not support slice assignment"))
  end.

Definition set_attr (held : list Lock) (h : Heap) (container : Value) (name : string) (value : Value) :
    EvalResult (Z * Value * Heap) :=
  _ ← validate_attribute name;
  match container with
  | VInstance _ l =>
      acquire held (LFields l)
        (let fs := fields_at h l in
         let delta := match field_get fs name with
           | Some old => size_delta (size h old) (size h value)
           | None => to_isize (Z.of_nat (String.length name) + size h value)
           end in
         Ok (delta, container, put_fields l (bt_insert fs name value) h))
  | _ => no_attr (static_name container) name
  end.

Definition assign_terminal (held : list Lock) (h : Heap) (container : Value) (st : PlaceStep) (value : Value) :
    EvalResult (Z * Value * Heap) :=
  match st with
  | Index key => dispatch_setitem held h container key value
  | Attr name => set_attr held h container name value
  | SliceStep spec => set_slice held h container spec value
  end.

Definition split_last {X} (l : list X) : option (list X * X) := x ← list.last l; Some (removelast l, x).

(** The store at the last step of a place, and its growth. *)
Definition store_at (s : InterpreterState) (name : string) (prefix : list PlaceStep) (last : PlaceStep) (value : Value) : Eval Z :=
  at_place s name prefix (writing (fun held h v => assign_terminal held h v last value)).

(** The slot overwritten: the growth from [old_size]. *)
Definition overwrite (old_size : Heap -> Value -> Z) (value : Value) : Visitor Z :=
  fun _ h v => (h, value, Ok (size_delta (old_size h v) (size h value))).
End Places.
