(* ===== verification/Syntax.v ===== *)
(** The syntax trees the evaluator walks: the nodes of the parser crate's AST
    that [eval/mod.rs], [eval/operations.rs], [eval/statements.rs] and
    [eval/control_flow.rs] match on, with the fields they read. Nodes whose
    evaluation is in components this library does not model (calls, attributes,
    subscripts, comprehensions, imports, ...) are opaque. *)
From Stdlib Require Import ZArith Lia Ascii String SpecFloat.
From stdpp Require Import base tactics list numbers option strings.
From S2P Require Import Prelude PySet Values Errors Compare Operators State Op.

Set Warnings "-register-all".

Inductive Constant : Type :=
| CNone | CEllipsis
| CBool (b : bool)
| CInt (i : Z)
| CFloat (f : f64)
| CStr (s : text)
| CBytes (b : list Z)
| CTuple (items : list Constant)
| CComplex (real imag : f64).

Inductive BoolOp : Type := BoolAnd | BoolOr.

(** [ast::CmpOp]: the rich comparisons, identity and membership. *)
Inductive CompareOp : Type := Rich (op : CmpOp) | Is | IsNot | In | NotIn.

(** [ast::ConversionFlag], of a replacement field of an f-string. *)
Inductive Conversion : Type := NoConversion | ConvertStr | ConvertAscii | ConvertRepr.

Inductive PyExpr : Type :=
| EConstant (c : Constant)
| EName (id : string)
| EBinOp (left : PyExpr) (op : Operator) (right : PyExpr)
| EUnaryOp (op : UnaryOp) (operand : PyExpr)
| ECompare (left : PyExpr) (ops : list CompareOp) (comparators : list PyExpr)
| EBoolOp (op : BoolOp) (values : list PyExpr)
| EIfExp (test body orelse : PyExpr)
| ENamedExpr (target value : PyExpr)
| ETuple (elts : list PyExpr)
| EList (elts : list PyExpr)
| ESet (elts : list PyExpr)
| EDict (items : list (option PyExpr * PyExpr))
| EStarred (value : PyExpr)
| ELambda (args : Arguments) (body : PyExpr)
| EListComp (elt : PyExpr) (generators : list Comprehension)
| ESetComp (elt : PyExpr) (generators : list Comprehension)
| EDictComp (key value : PyExpr) (generators : list Comprehension)
| EGeneratorExp (elt : PyExpr) (generators : list Comprehension)
| EAwait (value : PyExpr)
| EYield (value : option PyExpr)
| EYieldFrom (value : PyExpr)
| ECall (func : PyExpr) (args : list PyExpr) (keywords : list (option string * PyExpr))
| EFormattedValue (value : PyExpr) (conversion : Conversion) (format_spec : option PyExpr)
| EJoinedStr (values : list PyExpr)
| EAttribute (value : PyExpr) (attr : string)
| ESubscript (value slice : PyExpr)
| ESlice (lower upper step : option PyExpr)
(** [ast::Arguments]; the last two are [*args] and [**kwargs]. *)
with Arguments : Type :=
| mkArguments (posonlyargs args kwonlyargs : list Argument) (vararg kwarg : option Argument)
with Argument : Type := mkArgument (arg : string) (annotation default : option PyExpr)
with Comprehension : Type := mkComprehension (target iter : PyExpr) (ifs : list PyExpr) (is_async : bool).

(** [ast::Pattern]. The class of a class pattern is the last component of its
    name, when it is a name or an attribute. *)
Inductive Pattern : Type :=
| PValue (value : PyExpr)
| PSingleton (value : Constant)
| PAs (pattern : option Pattern) (name : option string)
| POr (patterns : list Pattern)
| PSequence (patterns : list Pattern)
| PMapping (keys : list PyExpr) (patterns : list Pattern) (rest : option string)
| PStar (name : option string)
| PClass (cls : option string) (patterns : list Pattern) (kwd_attrs : list string) (kwd_patterns : list Pattern).

Record WithItem : Type := mkWithItem { context_expr : PyExpr; optional_vars : option PyExpr }.

(** [start] is the byte offset of the statement in its source. *)
Inductive PyStmt : Type := At (start : Z) (node : StmtNode)
with StmtNode : Type :=
| SExpr (value : PyExpr)
| SAssign (targets : list PyExpr) (value : PyExpr)
| SAugAssign (target : PyExpr) (op : Operator) (value : PyExpr)
| SAnnAssign (target annotation : PyExpr) (value : option PyExpr)
| SIf (test : PyExpr) (body orelse : list PyStmt)
| SFor (target iter : PyExpr) (body orelse : list PyStmt)
| SWhile (test : PyExpr) (body orelse : list PyStmt)
| SBreak
| SContinue
| SReturn (value : option PyExpr)
| SRaise (exc cause : option PyExpr)
| SAssert (test : PyExpr) (msg : option PyExpr)
| STry (star : bool) (body : list PyStmt) (handlers : list Handler) (orelse finalbody : list PyStmt)
| SWith (items : list WithItem) (body : list PyStmt)
| SMatch (subject : PyExpr) (cases : list MatchCase)
| SFunctionDef (def : FunctionNode)
| SAsyncFunctionDef (def : FunctionNode)
| SClassDef (name : string) (bases : list PyExpr) (keywords : list (option string * PyExpr)) (body : list PyStmt)
    (decorator_list : list PyExpr)
| SDelete (targets : list PyExpr)
| SAsyncFor (target iter : PyExpr) (body orelse : list PyStmt)
| SAsyncWith (items : list WithItem) (body : list PyStmt)
| SImport (names : list (string * option string))
| SImportFrom (module : option string) (names : list (string * option string)) (level : option Z)
| SGlobal (names : list string)
| SNonlocal (names : list string)
| SPass
| STypeAlias (name : PyExpr) (value : PyExpr)
with FunctionNode : Type :=
| mkFunction (name : string) (args : Arguments) (body : list PyStmt) (decorator_list : list PyExpr)
    (returns : option PyExpr)
with Handler : Type :=
| mkExceptHandler (type_ : option PyExpr) (name : option string) (body : list PyStmt)
with MatchCase : Type :=
| mkCase (pattern : Pattern) (guard : option PyExpr) (body : list PyStmt).

(** How the import path views a tree. *)
#[export] Instance python_trees : Trees := {|
  Stmt := PyStmt;
  Expr := PyExpr;
  as_function_def := fun s => match s with At _ (SFunctionDef (mkFunction name _ body _ _)) => Some (name, body) | _ => None end;
  as_expression := fun s => match s with At _ (SExpr e) => Some e | _ => None end;
  as_lambda_body := fun e => match e with ELambda _ body => Some body | _ => None end
|}.

(** ** Height

    The nesting of a tree, which the evaluator's recursion descends. *)
Definition max_of {A} (f : A -> nat) (xs : list A) : nat := foldr (fun x n => Nat.max (f x) n) 0%nat xs.

Definition opt_max {A} (f : A -> nat) (x : option A) : nat := match x with Some x => f x | None => 0%nat end.

Fixpoint expr_height (e : PyExpr) : nat :=
  S match e with
    | EConstant _ | EName _ => 0
    | EBinOp l _ r => Nat.max (expr_height l) (expr_height r)
    | EUnaryOp _ e | EStarred e | EAwait e | EYieldFrom e | EAttribute e _ => expr_height e
    | ECompare l _ es => Nat.max (expr_height l) (max_of expr_height es)
    | EBoolOp _ es | ETuple es | EList es | ESet es | EJoinedStr es => max_of expr_height es
    | EDict items => max_of (fun kv => Nat.max (opt_max expr_height (fst kv)) (expr_height (snd kv))) items
    | EIfExp t b o => Nat.max (expr_height t) (Nat.max (expr_height b) (expr_height o))
    | ENamedExpr t v | ESubscript t v => Nat.max (expr_height t) (expr_height v)
    | ELambda args body => Nat.max (args_height args) (expr_height body)
    | EListComp e gs | ESetComp e gs | EGeneratorExp e gs => Nat.max (expr_height e) (max_of comp_height gs)
    | EDictComp k v gs => Nat.max (Nat.max (expr_height k) (expr_height v)) (max_of comp_height gs)
    | EYield e => opt_max expr_height e
    | ECall f es ks =>
        Nat.max (expr_height f) (Nat.max (max_of expr_height es) (max_of (fun k => expr_height (snd k)) ks))
    | EFormattedValue e _ spec => Nat.max (expr_height e) (opt_max expr_height spec)
    | ESlice l u t => Nat.max (opt_max expr_height l) (Nat.max (opt_max expr_height u) (opt_max expr_height t))
    end
with args_height (a : Arguments) : nat :=
  match a with
  | mkArguments po args ko v k =>
      Nat.max (Nat.max (max_of arg_height po) (max_of arg_height args))
        (Nat.max (max_of arg_height ko) (Nat.max (opt_max arg_height v) (opt_max arg_height k)))
  end
with arg_height (a : Argument) : nat :=
  match a with mkArgument _ ann def => Nat.max (opt_max expr_height ann) (opt_max expr_height def) end
with comp_height (c : Comprehension) : nat :=
  match c with
  | mkComprehension t i ifs _ => Nat.max (expr_height t) (Nat.max (expr_height i) (max_of expr_height ifs))
  end.

Fixpoint pattern_height (p : Pattern) : nat :=
  S match p with
    | PAs (Some p) _ => pattern_height p
    | POr ps | PSequence ps | PMapping _ ps _ => max_of pattern_height ps
    | PClass _ ps _ ks => Nat.max (max_of pattern_height ps) (max_of pattern_height ks)
    | _ => 0
    end.

Abbreviation opt_height := (opt_max expr_height).
Definition item_height (i : WithItem) : nat :=
  Nat.max (expr_height (context_expr i)) (opt_height (optional_vars i)).

Fixpoint stmt_height (s : PyStmt) : nat := match s with At _ n => S (node_height n) end
with node_height (n : StmtNode) : nat :=
  match n with
  | SExpr e => expr_height e
  | SAugAssign t _ e => Nat.max (expr_height t) (expr_height e)
  | SAnnAssign t _ e => Nat.max (expr_height t) (opt_height e)
  | SAssign ts e => Nat.max (max_of expr_height ts) (expr_height e)
  | SIf t b o | SWhile t b o => Nat.max (expr_height t) (Nat.max (max_of stmt_height b) (max_of stmt_height o))
  | SFor t i b o =>
      Nat.max (Nat.max (expr_height t) (expr_height i)) (Nat.max (max_of stmt_height b) (max_of stmt_height o))
  | SReturn e => opt_height e
  | SRaise e c => Nat.max (opt_height e) (opt_height c)
  | SAssert t m => Nat.max (expr_height t) (opt_height m)
  | STry _ b hs o f =>
      Nat.max (Nat.max (max_of stmt_height b) (max_of handler_height hs))
              (Nat.max (max_of stmt_height o) (max_of stmt_height f))
  | SWith items b => Nat.max (max_of item_height items) (max_of stmt_height b)
  | SMatch subject cases => Nat.max (expr_height subject) (max_of case_height cases)
  | SAsyncFor t i b o =>
      Nat.max (Nat.max (expr_height t) (expr_height i)) (Nat.max (max_of stmt_height b) (max_of stmt_height o))
  | SAsyncWith items b => Nat.max (max_of item_height items) (max_of stmt_height b)
  | SFunctionDef d | SAsyncFunctionDef d => function_height d
  | SClassDef _ _ _ b _ => max_of stmt_height b
  | SDelete ts => max_of expr_height ts
  | SBreak | SContinue | SPass | SImport _ | SImportFrom _ _ _ | SGlobal _ | SNonlocal _ | STypeAlias _ _ => 0%nat
  end
with function_height (d : FunctionNode) : nat :=
  match d with mkFunction _ _ b _ _ => max_of stmt_height b end
with handler_height (h : Handler) : nat :=
  match h with mkExceptHandler t _ b => Nat.max (opt_height t) (max_of stmt_height b) end
with case_height (c : MatchCase) : nat :=
  match c with mkCase _ g b => Nat.max (opt_height g) (max_of stmt_height b) end.

Lemma max_of_elem {A} (f : A -> nat) xs x : x ∈ xs -> (f x <= max_of f xs)%nat.
Proof. unfold max_of. induction 1; cbn; lia. Qed.

Lemma max_of_le {A} (f : A -> nat) xs n : (max_of f xs <= n)%nat -> forall x, x ∈ xs -> (f x <= n)%nat.
Proof. intros Hle x Hx. pose proof (max_of_elem f xs x Hx). lia. Qed.

(** ** Surroundings

    What the evaluator takes from its surroundings: the clock, the rendering of
    durations, doubles (the shortest decimal) and node variants in messages, the
    lossy decoding of bytes, the tool registry, and the parser crate: a suite, or
    the rendering of its error, and the byte ranges it recorded on nodes. *)
Class Environment : Type := {
  clock : Z -> Z;
  show_duration : Z -> string;
  show_float : f64 -> string;
  discriminant : PyExpr + PyStmt -> string;
  utf8_lossy : list Z -> string;
  is_tool : string -> bool;
  suite_parse : string -> string + list PyStmt;
  function_stop : FunctionNode -> Z;
  expr_start : PyExpr -> Z;
  expr_stop : PyExpr -> Z
}.
