(* ===== verification/Names.v ===== *)
(** The names of a body (eval/functions/definitions.rs, and the collectors of
    eval/comprehensions.rs): what it binds, what it reads from the enclosing
    scopes, what it declares [global] or [nonlocal], and whether it yields.
    Each collector threads the list of names found so far, without duplicates.
    Then which bodies of generators can be suspended, and the frame a call of one
    creates (eval/functions/generators.rs, the gate and the constructors). *)
From Stdlib Require Import ZArith Lia Ascii String SpecFloat.
From stdpp Require Import base tactics list numbers option strings pretty gmap.
From S2P Require Import Prelude PySet Values Errors Classes Compare Operators State Op Syntax.

Definition push_unique (out : list string) (name : string) : list string :=
  if bool_decide (name ∈ out) then out else out ++ [name].

(** Visit every element of a list, in order, with the list found so far. *)
Definition each {A B} (f : A -> B -> B) (xs : list A) (out : B) : B := fold_left (fun out x => f x out) xs out.
Definition opt_each {A B} (f : A -> B -> B) (x : option A) (out : B) : B :=
  match x with Some x => f x out | None => out end.

(** ** Targets *)

Fixpoint collect_target_names (target : PyExpr) (out : list string) : list string :=
  match target with
  | EName id => push_unique out id
  | ETuple elts | EList elts => each collect_target_names elts out
  | EStarred e => collect_target_names e out
  | _ => out
  end.

(** Walrus targets anywhere in an expression but the bodies of lambdas. *)
Fixpoint collect_walrus_targets (expr : PyExpr) (out : list string) : list string :=
  let comps gens out :=
    each (fun g out => match g with
                       | mkComprehension _ i ifs _ => each collect_walrus_targets ifs (collect_walrus_targets i out)
                       end) gens out in
  match expr with
  | ENamedExpr target value => collect_walrus_targets value (collect_target_names target out)
  | EBoolOp _ es | ETuple es | EList es | ESet es | EJoinedStr es => each collect_walrus_targets es out
  | EBinOp l _ r => collect_walrus_targets r (collect_walrus_targets l out)
  | EUnaryOp _ e | EAttribute e _ | EStarred e | EYieldFrom e | EAwait e => collect_walrus_targets e out
  | EIfExp test body orelse =>
      collect_walrus_targets orelse (collect_walrus_targets body (collect_walrus_targets test out))
  | ECompare l _ es => each collect_walrus_targets es (collect_walrus_targets l out)
  | ECall f es ks =>
      each (fun k => collect_walrus_targets (snd k)) ks
        (each collect_walrus_targets es (collect_walrus_targets f out))
  | ESubscript v i => collect_walrus_targets i (collect_walrus_targets v out)
  | EDict items =>
      each (fun kv => collect_walrus_targets (snd kv)) items
        (each (fun kv => opt_each collect_walrus_targets (fst kv)) items out)
  | EFormattedValue v _ spec => opt_each collect_walrus_targets spec (collect_walrus_targets v out)
  | ESlice l u t =>
      opt_each collect_walrus_targets t (opt_each collect_walrus_targets u (opt_each collect_walrus_targets l out))
  | EYield v => opt_each collect_walrus_targets v out
  | EListComp e gens | ESetComp e gens | EGeneratorExp e gens => comps gens (collect_walrus_targets e out)
  | EDictComp k v gens => comps gens (collect_walrus_targets v (collect_walrus_targets k out))
  | ELambda _ _ | EName _ | EConstant _ => out
  end.

(** ** Names a body binds, and names it declares [global] *)

(** The name an [import] binds: the leading component of a dotted path. *)
Fixpoint before_dot (s : string) : string :=
  match s with
  | EmptyString => EmptyString
  | String c s => if Ascii.eqb c "." then EmptyString else String c (before_dot s)
  end.

Definition imported_name (alias : string * option string) : string :=
  match alias.2 with Some asname => asname | None => before_dot alias.1 end.

(** The lists of assigned and of global names. *)
Abbreviation Bound := (list string * list string)%type.
Definition assigning (f : list string -> list string) (out : Bound) : Bound := (f out.1, out.2).

Definition with_target (i : WithItem) (out : list string) : list string :=
  opt_each collect_target_names (optional_vars i) (collect_walrus_targets (context_expr i) out).

Fixpoint collect_assigned_stmt (stmt : PyStmt) (out : Bound) : Bound :=
  let block := each collect_assigned_stmt in
  let '(At _ node) := stmt in
  match node with
  | SGlobal names => (out.1, each (fun n out => push_unique out n) names out.2)
  | SAssign targets value =>
      assigning (fun out => collect_walrus_targets value (each collect_target_names targets out)) out
  | SAugAssign target _ value =>
      assigning (fun out => collect_walrus_targets value (collect_target_names target out)) out
  | SAnnAssign target _ value =>
      assigning (fun out => opt_each collect_walrus_targets value (collect_target_names target out)) out
  | SDelete targets => assigning (each collect_target_names targets) out
  | SExpr value => assigning (collect_walrus_targets value) out
  | SReturn value => assigning (opt_each collect_walrus_targets value) out
  | SRaise exc cause =>
      assigning (fun out => opt_each collect_walrus_targets cause (opt_each collect_walrus_targets exc out)) out
  | SAssert test msg =>
      assigning (fun out => opt_each collect_walrus_targets msg (collect_walrus_targets test out)) out
  | SFor target iter body orelse | SAsyncFor target iter body orelse =>
      block orelse (block body
        (assigning (fun out => collect_walrus_targets iter (collect_target_names target out)) out))
  | SWhile test body orelse | SIf test body orelse =>
      block orelse (block body (assigning (collect_walrus_targets test) out))
  | SWith items body | SAsyncWith items body => block body (assigning (each with_target items) out)
  | STry false body handlers orelse finalbody =>
      each (fun h out => match h with
                         | mkExceptHandler type_ name hbody =>
                             block hbody (assigning (fun out =>
                               opt_each collect_walrus_targets type_
                                 (opt_each (fun n out => push_unique out n) name out)) out)
                         end) handlers
        (block finalbody (block orelse (block body out)))
  | SImport names => assigning (each (fun a out => push_unique out (imported_name a)) names) out
  | SImportFrom _ names _ =>
      assigning (each (fun a out => if bool_decide (a.1 = "*"%string) then out
                                    else push_unique out (default a.1 a.2)) names) out
  | SFunctionDef (mkFunction name _ _ _ _) | SAsyncFunctionDef (mkFunction name _ _ _ _)
  | SClassDef name _ _ _ _ => assigning (fun out => push_unique out name) out
  | STry true _ _ _ _ | SMatch _ _ | SNonlocal _ | SPass | SBreak | SContinue | STypeAlias _ _ => out
  end.

Definition collect_assigned_names_inner (body : list PyStmt) (out : Bound) : Bound := each collect_assigned_stmt body out.
Definition collect_assigned_names (body : list PyStmt) : Bound := collect_assigned_names_inner body ([], []).

(** ** Names declared [nonlocal] *)

Fixpoint collect_nonlocal_stmt (stmt : PyStmt) (out : list string) : list string :=
  let block := each collect_nonlocal_stmt in
  let '(At _ node) := stmt in
  match node with
  | SNonlocal names => each (fun n out => push_unique out n) names out
  | SIf _ body orelse | SFor _ _ body orelse | SWhile _ body orelse => block orelse (block body out)
  | SWith _ body => block body out
  | STry false body handlers orelse finalbody =>
      each (fun h out => match h with mkExceptHandler _ _ hbody => block hbody out end) handlers
        (block finalbody (block orelse (block body out)))
  | _ => out
  end.

Definition collect_nonlocal_names (body : list PyStmt) : list string := each collect_nonlocal_stmt body [].

(** ** Names a body reads *)

Fixpoint collect_reads_expr (expr : PyExpr) (out : list string) : list string :=
  let reads_comp elts gens out :=
    each (fun g out => match g with
                       | mkComprehension _ i ifs _ => each collect_reads_expr ifs (collect_reads_expr i out)
                       end) gens (each collect_reads_expr elts out) in
  match expr with
  | EName id => push_unique out id
  | EBoolOp _ es | ETuple es | EList es | ESet es | EJoinedStr es => each collect_reads_expr es out
  | EBinOp l _ r => collect_reads_expr r (collect_reads_expr l out)
  | EUnaryOp _ e | EAttribute e _ | EStarred e | ELambda _ e | EAwait e | EYieldFrom e => collect_reads_expr e out
  | ECompare l _ es => each collect_reads_expr es (collect_reads_expr l out)
  | EIfExp test body orelse => collect_reads_expr orelse (collect_reads_expr body (collect_reads_expr test out))
  | ECall f es ks =>
      each (fun k => collect_reads_expr (snd k)) ks (each collect_reads_expr es (collect_reads_expr f out))
  | ESubscript v i => collect_reads_expr i (collect_reads_expr v out)
  | ESlice l u t =>
      opt_each collect_reads_expr t (opt_each collect_reads_expr u (opt_each collect_reads_expr l out))
  | EDict items =>
      each (fun kv => collect_reads_expr (snd kv)) items
        (each (fun kv => opt_each collect_reads_expr (fst kv)) items out)
  | EListComp e gens | ESetComp e gens | EGeneratorExp e gens => reads_comp [e] gens out
  | EDictComp k v gens => reads_comp [k; v] gens out
  | EFormattedValue v _ spec => opt_each collect_reads_expr spec (collect_reads_expr v out)
  | ENamedExpr _ value => collect_reads_expr value out
  | EYield v => opt_each collect_reads_expr v out
  | EConstant _ => out
  end.

(** A target: the names it stores or deletes are not in load context. *)
Fixpoint collect_reads_target (target : PyExpr) (out : list string) : list string :=
  match target with
  | EName _ => out
  | ETuple es | EList es => each collect_reads_target es out
  | EStarred e => collect_reads_target e out
  | _ => collect_reads_expr target out
  end.

Fixpoint collect_reads_stmt (stmt : PyStmt) (out : list string) : list string :=
  let block := each collect_reads_stmt in
  let '(At _ node) := stmt in
  match node with
  | SExpr value | SAssign _ value => collect_reads_expr value out
  | SReturn value | SAnnAssign _ _ value => opt_each collect_reads_expr value out
  | SAugAssign target _ value => collect_reads_expr value (collect_reads_target target out)
  | SFor _ iter body orelse => block orelse (block body (collect_reads_expr iter out))
  | SWhile test body orelse | SIf test body orelse => block orelse (block body (collect_reads_expr test out))
  | SWith items body => block body (each (fun i => collect_reads_expr (context_expr i)) items out)
  | STry false body handlers orelse finalbody =>
      each (fun h out => match h with mkExceptHandler _ _ hbody => block hbody out end) handlers
        (block finalbody (block orelse (block body out)))
  | SFunctionDef (mkFunction _ _ body _ _) | SClassDef _ _ _ body _ => block body out
  | SDelete targets => each collect_reads_target targets out
  | SRaise exc cause => opt_each collect_reads_expr cause (opt_each collect_reads_expr exc out)
  | SAssert test msg => opt_each collect_reads_expr msg (collect_reads_expr test out)
  | _ => out
  end.

Definition retain_unbound (bound names : list string) : list string :=
  List.filter (fun n => negb (bool_decide (n ∈ bound))) names.

Definition collect_free_names (bound : list string) (body : list PyStmt) : list string :=
  retain_unbound bound (each collect_reads_stmt body []).

(** ** Yields *)

Fixpoint contains_yield_expr (expr : PyExpr) : bool :=
  match expr with
  | EYield _ | EYieldFrom _ => true
  | EBoolOp _ es | ETuple es | EList es | ESet es | EJoinedStr es => existsb contains_yield_expr es
  | EBinOp l _ r | ESubscript l r => contains_yield_expr l || contains_yield_expr r
  | EUnaryOp _ e | EAttribute e _ | EStarred e | EFormattedValue e _ _ | ENamedExpr _ e => contains_yield_expr e
  | EIfExp test body orelse => contains_yield_expr test || contains_yield_expr body || contains_yield_expr orelse
  | ECompare l _ es => contains_yield_expr l || existsb contains_yield_expr es
  | ECall f es ks =>
      contains_yield_expr f || existsb contains_yield_expr es || existsb (fun k => contains_yield_expr (snd k)) ks
  | EDict items =>
      existsb (fun kv => contains_yield_expr (snd kv)) items ||
      existsb (fun kv => match fst kv with Some k => contains_yield_expr k | None => false end) items
  | _ => false
  end.

Definition opt_yields (e : option PyExpr) : bool := match e with Some e => contains_yield_expr e | None => false end.

Fixpoint contains_yield_stmt (stmt : PyStmt) : bool :=
  let block := existsb contains_yield_stmt in
  let '(At _ node) := stmt in
  match node with
  | SExpr e => contains_yield_expr e
  | SAssign targets value => contains_yield_expr value || existsb contains_yield_expr targets
  | SAugAssign target _ value => contains_yield_expr value || contains_yield_expr target
  | SAnnAssign _ _ value | SReturn value => opt_yields value
  | SIf test body orelse | SWhile test body orelse => contains_yield_expr test || block body || block orelse
  | SFor _ iter body orelse => contains_yield_expr iter || block body || block orelse
  | STry false body handlers orelse finalbody =>
      block body || block orelse || block finalbody ||
      existsb (fun h => match h with mkExceptHandler _ _ hbody => block hbody end) handlers
  | SWith _ body => block body
  | SMatch _ cases => existsb (fun c => match c with mkCase _ _ body => block body end) cases
  | SRaise exc cause => opt_yields exc || opt_yields cause
  | _ => false
  end.

Definition contains_yield_stmts (stmts : list PyStmt) : bool := existsb contains_yield_stmt stmts.

(** ** Comprehensions *)

Definition collect_generator_target_names (generators : list Comprehension) : list string :=
  each (fun g => match g with mkComprehension target _ _ _ => collect_target_names target end) generators [].

(** Walrus targets of a comprehension's own scope. *)
Fixpoint collect_scope_walrus_targets (expr : PyExpr) (out : list string) : list string :=
  match expr with
  | ENamedExpr target value =>
      collect_scope_walrus_targets value (match target with EName id => push_unique out id | _ => out end)
  | EBoolOp _ es | ETuple es | EList es | ESet es | EJoinedStr es => each collect_scope_walrus_targets es out
  | EBinOp l _ r | ESubscript l r => collect_scope_walrus_targets r (collect_scope_walrus_targets l out)
  | EUnaryOp _ e | EAttribute e _ | EStarred e | EAwait e | EFormattedValue e _ _ =>
      collect_scope_walrus_targets e out
  | ECompare l _ es => each collect_scope_walrus_targets es (collect_scope_walrus_targets l out)
  | EIfExp test body orelse =>
      collect_scope_walrus_targets orelse
        (collect_scope_walrus_targets body (collect_scope_walrus_targets test out))
  | ECall f es ks =>
      each (fun k => collect_scope_walrus_targets (snd k)) ks
        (each collect_scope_walrus_targets es (collect_scope_walrus_targets f out))
  | ESlice l u t =>
      opt_each collect_scope_walrus_targets t
        (opt_each collect_scope_walrus_targets u (opt_each collect_scope_walrus_targets l out))
  | EDict items =>
      each (fun kv => collect_scope_walrus_targets (snd kv)) items
        (each (fun kv => opt_each collect_scope_walrus_targets (fst kv)) items out)
  | _ => out
  end.

(** Whether an expression constructs a closure. *)
Fixpoint expr_builds_closure (expr : PyExpr) : bool :=
  match expr with
  | ELambda _ _ => true
  | EBoolOp _ es | ETuple es | EList es | ESet es => existsb expr_builds_closure es
  | EBinOp l _ r => expr_builds_closure l || expr_builds_closure r
  | EUnaryOp _ e => expr_builds_closure e
  | EIfExp test body orelse => expr_builds_closure test || expr_builds_closure body || expr_builds_closure orelse
  | ECall f es ks =>
      expr_builds_closure f || existsb expr_builds_closure es || existsb (fun k => expr_builds_closure (snd k)) ks
  | EDict items =>
      existsb (fun kv => match fst kv with Some k => expr_builds_closure k | None => false end) items ||
      existsb (fun kv => expr_builds_closure (snd kv)) items
  | _ => false
  end.

(** ** The gate *)

Definition for_name_target (target : PyExpr) : option string := match target with EName id => Some id | _ => None end.

Definition for_delegatable (target : PyExpr) (orelse : list PyStmt) : bool :=
  (if for_name_target target is Some _ then true else false) && is_nil orelse.
Definition while_delegatable (orelse : list PyStmt) : bool := is_nil orelse.

(** The statements of a loop's body: nested loops to any depth, and [if]s. *)
Fixpoint loop_nest_stmt (stmt : PyStmt) : bool :=
  match stmt with
  | At _ node =>
      match node with
      | SIf _ body orelse => forallb loop_nest_stmt body && forallb loop_nest_stmt orelse
      | SFor target _ body orelse =>
          negb (contains_yield_stmt stmt) || (for_delegatable target orelse && forallb loop_nest_stmt body)
      | SWhile _ body orelse =>
          negb (contains_yield_stmt stmt) || (while_delegatable orelse && forallb loop_nest_stmt body)
      | SWith _ _ | STry _ _ _ _ _ | SMatch _ _ => negb (contains_yield_stmt stmt)
      | _ => true
      end
  end.
Definition loop_nest_suspendable (stmts : list PyStmt) : bool := forallb loop_nest_stmt stmts.

(** Those of the branches of an [if], the phases of a [try] and the body of a
    [with]. *)
Fixpoint if_branch_stmt (stmt : PyStmt) : bool :=
  match stmt with
  | At _ node =>
      match node with
      | SIf _ body orelse => forallb if_branch_stmt body && forallb if_branch_stmt orelse
      | STry false body handlers orelse finalbody =>
          forallb if_branch_stmt body && forallb if_branch_stmt orelse && forallb if_branch_stmt finalbody &&
          forallb (fun h => match h with mkExceptHandler _ _ b => forallb if_branch_stmt b end) handlers
      | SWhile _ body orelse =>
          negb (contains_yield_stmt stmt) || (while_delegatable orelse && loop_nest_suspendable body)
      | SFor target _ body orelse =>
          negb (contains_yield_stmt stmt) || (for_delegatable target orelse && loop_nest_suspendable body)
      | SWith _ _ | STry true _ _ _ _ | SMatch _ _ => negb (contains_yield_stmt stmt)
      | _ => true
      end
  end.
Definition if_branch_suspendable (stmts : list PyStmt) : bool := forallb if_branch_stmt stmts.

Definition top_level_suspendable (stmt : PyStmt) : bool :=
  if negb (contains_yield_stmts [stmt]) then true
  else
    match stmt with
    | At _ node =>
        match node with
        | SFor target _ body orelse =>
            (if for_name_target target is Some _ then true else false) && is_nil orelse && loop_nest_suspendable body
        | SWhile _ body orelse => is_nil orelse && loop_nest_suspendable body
        | SIf _ body orelse => if_branch_suspendable body && if_branch_suspendable orelse
        | STry false body handlers orelse finalbody =>
            if_branch_suspendable body && if_branch_suspendable orelse && if_branch_suspendable finalbody &&
            forallb (fun h => match h with mkExceptHandler _ _ b => if_branch_suspendable b end) handlers
        | SWith _ body => if_branch_suspendable body
        | SExpr _ | SAssign _ _ | SAugAssign _ _ _ | SAnnAssign _ _ _ | SReturn _ => true
        | _ => false
        end
    end.

Definition generator_suspendable (stmts : list PyStmt) : bool := forallb top_level_suspendable stmts.

(** ** Frames *)

Section Frames.
Context `{External}.

Definition create_generator (s : InterpreterState) (func_def : FunctionDef) (body : list PyStmt)
    (locals : gmap string Value) (touched : list string) : InterpreterState * Value :=
  let id := next_cursor_id s in
  let frame := mkGeneratorFrame (f_name func_def) (source func_def) body touched locals false false false VNone false None
                 0 [] [] [] [] [] None None in
  (set_generators (<[id := frame]> (generators s)) (set_lazy (lazy_cursors s) (wrap64 (id + 1)) s), VGenerator id).

(** A generator over a synthesized body; [None] when it cannot be suspended. *)
Definition create_synthetic_generator (s : InterpreterState) (name : string) (body : list PyStmt)
    (locals : gmap string Value) (touched : list string) : InterpreterState * option Value :=
  if negb (generator_suspendable body) then (s, None)
  else
    let func_def := mkFunctionDef name (name ++ "#" ++ pretty (next_cursor_id s)) (mkParams [] [] [] None [] [] [] None 0) []
                      "" [] true None None [] [] (call_depth s =? 0) None [] "" [] false in
    let (s, g) := create_generator s func_def body locals touched in (s, Some g).
End Frames.
