(* ===== verification/Unparse.v ===== *)
(** Default arguments as source text (eval/functions/definitions.rs): the
    printer of expressions, and the parameter specification of a [def] or a
    [lambda], which keeps the printed defaults. *)
From Stdlib Require Import ZArith Lia Ascii String SpecFloat.
From stdpp Require Import base tactics list numbers option strings pretty.
From S2P Require Import Prelude PySet Values Errors F64 Classes Compare Operators State Op Syntax.

Definition dquote : string := String (Ascii.ascii_of_nat 34) EmptyString.

Definition binop_symbol (op : Operator) : string :=
  match op with
  | Add => "+" | Sub => "-" | Mult => "*" | Div => "/" | FloorDiv => "//" | Mod => "%" | Pow => "**"
  | LShift => "<<" | RShift => ">>" | BitOr => "|" | BitXor => "^" | BitAnd => "&" | MatMult => "@"
  end.

Definition unaryop_symbol (op : UnaryOp) : string :=
  match op with USub => "-" | UAdd => "+" | Not => "not " | Invert => "~" end.

Definition compareop_symbol (op : CompareOp) : string :=
  match op with
  | Rich op => op_symbol op
  | Is => "is" | IsNot => "is not" | In => "in" | NotIn => "not in"
  end.

(** [str::replace] of one character. *)
Definition replace_char (c : Z) (r : text) (t : text) : text := flat_map (fun x => if x =? c then r else [x]) t.

(** The escapes of a plain string literal: backslash, then single quote. *)
Definition escape_literal (t : text) : text := replace_char 39 [92; 39] (replace_char 92 [92; 92] t).

(** Those of the text of an f-string: braces doubled, then the double quote. *)
Definition escape_fstring (t : text) : text :=
  replace_char 34 [92; 34] (replace_char 125 [125; 125] (replace_char 123 [123; 123] t)).

Section Unparse.
Context `{External} `{!Environment}.

Definition unparse_float (f : f64) : string :=
  if f64_integral f then
    match f with
    | S754_zero s => (if s then "-0.0" else "0.0")
    | _ => pretty (default 0 (f64_trunc_Z f)) ++ ".0"
    end
  else show_float f.

Fixpoint unparse_constant (c : Constant) : string :=
  match c with
  | CNone => "None"
  | CBool true => "True"
  | CBool false => "False"
  | CInt i => pretty i
  | CFloat f => unparse_float f
  | CStr t => "'" ++ text_name (escape_literal t) ++ "'"
  | CBytes b => "b'" ++ utf8_lossy b ++ "'"
  | CEllipsis => "..."
  | CTuple items => "(" ++ join ", " (map unparse_constant items) ++ ")"
  | CComplex re im => "complex(" ++ show_float re ++ ", " ++ show_float im ++ ")"
  end.

(** ** Parameters *)

Section Params.
Variable unparse : PyExpr -> EvalResult string.

Definition arg_name (a : Argument) : string := match a with mkArgument n _ _ => n end.
Definition arg_default (a : Argument) : EvalResult (option string) :=
  match a with
  | mkArgument _ _ (Some d) => src ← unparse d; Ok (Some src)
  | mkArgument _ _ None => Ok None
  end.

Definition positional (a : Argument) : Param :=
  match a with
  | mkArgument n (Some (EName id)) _ => mkParam n (Some id)
  | mkArgument n _ _ => mkParam n None
  end.

(** [build_function_params]. *)
Definition build_params (a : Arguments) : EvalResult FunctionParams :=
  match a with
  | mkArguments posonlyargs args kwonlyargs vararg kwarg =>
      ds1 ← mapM arg_default posonlyargs;
      ds2 ← mapM arg_default args;
      kds ← mapM arg_default kwonlyargs;
      Ok (mkParams (map positional posonlyargs ++ map positional args) (omap id ds1 ++ omap id ds2) []
            (arg_name <$> vararg) (map (fun a => mkParam (arg_name a) None) kwonlyargs) kds []
            (arg_name <$> kwarg) (length posonlyargs))
  end.

Definition star (n : string) : string := "*" ++ n.
Definition star_star (n : string) : string := "**" ++ n.

(** The parameters of a printed lambda: names alone. *)
Definition lambda_names (p : FunctionParams) : list string :=
  map p_name (args p) ++ (match vararg p with Some v => [star v] | None => [] end) ++
  map p_name (kwonlyargs p) ++ (match kwarg p with Some k => [star_star k] | None => [] end).

(** ** Pieces of expressions *)

Definition unparse_list (sep : string) (es : list PyExpr) : EvalResult string :=
  parts ← mapM unparse es; Ok (join sep parts).

Definition unparse_opt (e : option PyExpr) : EvalResult string :=
  match e with Some e => unparse e | None => Ok ""%string end.

Definition unparse_comprehension (g : Comprehension) : EvalResult string :=
  match g with
  | mkComprehension target iter ifs _ =>
      t ← unparse target; i ← unparse iter; cs ← mapM unparse ifs;
      Ok (foldl (fun clause c => clause ++ " if " ++ c) ("for " ++ t ++ " in " ++ i) cs)
  end%string.

Definition unparse_comprehensions (gens : list Comprehension) : EvalResult string :=
  parts ← mapM unparse_comprehension gens; Ok (join " " parts).

Definition unparse_keyword (k : option string * PyExpr) : EvalResult string :=
  let '(name, e) := k in
  s ← unparse e;
  Ok (match name with Some n => n ++ "=" ++ s | None => "**" ++ s end)%string.

Definition unparse_entry (kv : option PyExpr * PyExpr) : EvalResult string :=
  let '(k, v) := kv in
  match k with
  | None => s ← unparse v; Ok ("**" ++ s)
  | Some k => ks ← unparse k; vs ← unparse v; Ok (ks ++ ": " ++ vs)
  end%string.

Fixpoint unparse_chain (ops : list CompareOp) (comparators : list PyExpr) {struct comparators} : EvalResult string :=
  match ops, comparators with
  | op :: ops, e :: comparators =>
      s ← unparse e; rest ← unparse_chain ops comparators;
      Ok (" " ++ compareop_symbol op ++ " " ++ s ++ rest)
  | _, _ => Ok ""
  end%string.

(** A chunk of a format specification, which is an f-string's body. *)
Definition unparse_spec_part (v : PyExpr) : EvalResult string :=
  match v with
  | EConstant (CStr s) => Ok (text_name s)
  | EFormattedValue e _ _ => s ← unparse e; Ok ("{" ++ s ++ "}")
  | _ => Ok ""
  end%string.

Definition unparse_format_spec (spec : PyExpr) : EvalResult string :=
  match spec with
  | EJoinedStr values => parts ← mapM unparse_spec_part values; Ok (String.concat "" parts)
  | _ => unparse spec
  end.

Definition conversion_flag (c : Conversion) : string :=
  match c with ConvertStr => "!s" | ConvertRepr => "!r" | ConvertAscii => "!a" | NoConversion => "" end.

Definition unparse_fstring_part (v : PyExpr) : EvalResult string :=
  match v with
  | EConstant (CStr s) => Ok (text_name (escape_fstring s))
  | EFormattedValue e conversion spec =>
      s ← unparse e;
      f ← match spec with Some spec => f ← unparse_format_spec spec; Ok (":" ++ f) | None => Ok "" end;
      Ok ("{" ++ s ++ conversion_flag conversion ++ f ++ "}")
  | _ =>
      fail (TypeError ("unsupported f-string default component (see CONFORMANCE.md#unsupported-language-features): " ++
                       discriminant (inl v)))
  end%string.
End Params.

(** [unparse_expr]. *)
Fixpoint unparse_expr (expr : PyExpr) : EvalResult string :=
  match expr with
  | EConstant c => Ok (unparse_constant c)
  | EName id => Ok id
  | EJoinedStr values =>
      parts ← mapM (unparse_fstring_part unparse_expr) values;
      Ok ("f" ++ dquote ++ String.concat "" parts ++ dquote)
  | EList elts => s ← unparse_list unparse_expr ", " elts; Ok ("[" ++ s ++ "]")
  | EListComp e gens =>
      s ← unparse_expr e; c ← unparse_comprehensions unparse_expr gens; Ok ("[" ++ s ++ " " ++ c ++ "]")
  | ESetComp e gens =>
      s ← unparse_expr e; c ← unparse_comprehensions unparse_expr gens; Ok ("{" ++ s ++ " " ++ c ++ "}")
  | EGeneratorExp e gens =>
      s ← unparse_expr e; c ← unparse_comprehensions unparse_expr gens; Ok ("(" ++ s ++ " " ++ c ++ ")")
  | EDictComp k v gens =>
      ks ← unparse_expr k; vs ← unparse_expr v; c ← unparse_comprehensions unparse_expr gens;
      Ok ("{" ++ ks ++ ": " ++ vs ++ " " ++ c ++ "}")
  | ESet elts => s ← unparse_list unparse_expr ", " elts; Ok ("{" ++ s ++ "}")
  | ETuple elts =>
      parts ← mapM unparse_expr elts;
      Ok match parts with [p] => "(" ++ p ++ ",)" | _ => "(" ++ join ", " parts ++ ")" end
  | EDict items => parts ← mapM (unparse_entry unparse_expr) items; Ok ("{" ++ join ", " parts ++ "}")
  | EUnaryOp op e => s ← unparse_expr e; Ok (unaryop_symbol op ++ s)
  | EBinOp l op r =>
      ls ← unparse_expr l; rs ← unparse_expr r; Ok ("(" ++ ls ++ " " ++ binop_symbol op ++ " " ++ rs ++ ")")
  | EBoolOp op values =>
      s ← unparse_list unparse_expr (match op with BoolAnd => " and " | BoolOr => " or " end) values;
      Ok ("(" ++ s ++ ")")
  | ECompare l ops comparators =>
      s ← unparse_expr l; rest ← unparse_chain unparse_expr ops comparators; Ok ("(" ++ s ++ rest ++ ")")
  | EIfExp test body orelse =>
      b ← unparse_expr body; t ← unparse_expr test; o ← unparse_expr orelse;
      Ok ("(" ++ b ++ " if " ++ t ++ " else " ++ o ++ ")")
  | EAttribute e attr => s ← unparse_expr e; Ok (s ++ "." ++ attr)
  | ESubscript e i => s ← unparse_expr e; si ← unparse_expr i; Ok (s ++ "[" ++ si ++ "]")
  | ESlice lower upper step =>
      l ← unparse_opt unparse_expr lower; u ← unparse_opt unparse_expr upper;
      match step with
      | Some step => s ← unparse_expr step; Ok (l ++ ":" ++ u ++ ":" ++ s)
      | None => Ok (l ++ ":" ++ u)
      end
  | EStarred e => s ← unparse_expr e; Ok (star s)
  | ELambda a body =>
      p ← build_params unparse_expr a;
      s ← unparse_expr body;
      Ok ("lambda " ++ join ", " (lambda_names p) ++ ": " ++ s)
  | ECall f es ks =>
      fs ← unparse_expr f; ps ← mapM unparse_expr es; kws ← mapM (unparse_keyword unparse_expr) ks;
      Ok (fs ++ "(" ++ join ", " (ps ++ kws) ++ ")")
  | _ =>
      fail (TypeError
        ("unsupported default argument expression (see CONFORMANCE.md#unsupported-language-features): " ++
         discriminant (inl expr)))
  end%string.

Definition build_function_params : Arguments -> EvalResult FunctionParams := build_params unparse_expr.
End Unparse.
