(* ===== verification/Mangle.v ===== *)
(** Private-name mangling (mangle.rs): the pass over a parsed suite that
    rewrites [__x] inside the body of class [C] to [_C__x]. *)
From Stdlib Require Import ZArith Lia Ascii String.
From stdpp Require Import base tactics list numbers option strings.
From S2P Require Import Prelude PySet Values Errors Compare Operators State Op Syntax.

Fixpoint ends_with (suffix s : string) : bool :=
  String.eqb suffix s || match s with EmptyString => false | String _ s => ends_with suffix s end.

Definition is_private_name (ident : string) : bool := String.prefix "__" ident && negb (ends_with "__" ident).

(** [trim_start_matches('_')]. *)
Fixpoint trim_underscores (s : string) : string :=
  match s with
  | String c s' => if Ascii.eqb c "_" then trim_underscores s' else s
  | EmptyString => EmptyString
  end.

(** The enclosing class names, stripped, innermost last. *)
Abbreviation ClassStack := (list string).

Definition mangle (class_stack : ClassStack) (ident : string) : option string :=
  prefix ← list.last class_stack;
  if bool_decide (prefix = EmptyString) || negb (is_private_name ident) then None
  else Some ("_" ++ prefix ++ ident)%string.

Definition mangle_ident (class_stack : ClassStack) (ident : string) : string :=
  default ident (mangle class_stack ident).

Section Expressions.
Variable class_stack : ClassStack.

(** [fold_expr]: names and attributes are rewritten, every child is visited; the
    names of parameters and of keyword arguments are not touched. *)
Fixpoint fold_expr (e : PyExpr) : PyExpr :=
  let opt (e : option PyExpr) := match e with Some e => Some (fold_expr e) | None => None end in
  let argument (a : Argument) := match a with mkArgument n ann def => mkArgument n (opt ann) (opt def) end in
  let opt_argument (a : option Argument) := match a with Some a => Some (argument a) | None => None end in
  let arguments (a : Arguments) :=
    match a with
    | mkArguments po args ko v k =>
        mkArguments (map argument po) (map argument args) (map argument ko) (opt_argument v) (opt_argument k)
    end in
  let comprehension (g : Comprehension) :=
    match g with mkComprehension t i ifs a => mkComprehension (fold_expr t) (fold_expr i) (map fold_expr ifs) a end in
  match e with
  | EConstant c => EConstant c
  | EName id => EName (mangle_ident class_stack id)
  | EBinOp l op r => EBinOp (fold_expr l) op (fold_expr r)
  | EUnaryOp op e => EUnaryOp op (fold_expr e)
  | ECompare l ops es => ECompare (fold_expr l) ops (map fold_expr es)
  | EBoolOp op es => EBoolOp op (map fold_expr es)
  | EIfExp t b o => EIfExp (fold_expr t) (fold_expr b) (fold_expr o)
  | ENamedExpr t v => ENamedExpr (fold_expr t) (fold_expr v)
  | ETuple es => ETuple (map fold_expr es)
  | EList es => EList (map fold_expr es)
  | ESet es => ESet (map fold_expr es)
  | EDict items => EDict (map (fun kv => (opt (fst kv), fold_expr (snd kv))) items)
  | EStarred e => EStarred (fold_expr e)
  | ELambda a body => ELambda (arguments a) (fold_expr body)
  | EListComp e gens => EListComp (fold_expr e) (map comprehension gens)
  | ESetComp e gens => ESetComp (fold_expr e) (map comprehension gens)
  | EDictComp k v gens => EDictComp (fold_expr k) (fold_expr v) (map comprehension gens)
  | EGeneratorExp e gens => EGeneratorExp (fold_expr e) (map comprehension gens)
  | EAwait e => EAwait (fold_expr e)
  | EYield e => EYield (opt e)
  | EYieldFrom e => EYieldFrom (fold_expr e)
  | ECall f es ks => ECall (fold_expr f) (map fold_expr es) (map (fun k => (fst k, fold_expr (snd k))) ks)
  | EFormattedValue e c spec => EFormattedValue (fold_expr e) c (opt spec)
  | EJoinedStr es => EJoinedStr (map fold_expr es)
  | EAttribute e attr => EAttribute (fold_expr e) (mangle_ident class_stack attr)
  | ESubscript e i => ESubscript (fold_expr e) (fold_expr i)
  | ESlice l u t => ESlice (opt l) (opt u) (opt t)
  end.

Definition fold_opt (e : option PyExpr) : option PyExpr := fold_expr <$> e.
Definition fold_argument (a : Argument) : Argument :=
  match a with mkArgument n ann def => mkArgument n (fold_opt ann) (fold_opt def) end.
Definition fold_arguments (a : Arguments) : Arguments :=
  match a with
  | mkArguments po args ko v k =>
      mkArguments (map fold_argument po) (map fold_argument args) (map fold_argument ko)
        (fold_argument <$> v) (fold_argument <$> k)
  end.
Definition fold_keyword (k : option string * PyExpr) : option string * PyExpr := (k.1, fold_expr k.2).
Definition fold_item (i : WithItem) : WithItem :=
  mkWithItem (fold_expr (context_expr i)) (fold_opt (optional_vars i)).

(** The class of a class pattern is an expression; the names a pattern binds and
    its keywords are not touched. *)
Fixpoint fold_pattern (p : Pattern) : Pattern :=
  match p with
  | PValue e => PValue (fold_expr e)
  | PSingleton c => PSingleton c
  | PAs p n => PAs (match p with Some p => Some (fold_pattern p) | None => None end) n
  | POr ps => POr (map fold_pattern ps)
  | PSequence ps => PSequence (map fold_pattern ps)
  | PMapping ks ps rest => PMapping (map fold_expr ks) (map fold_pattern ps) rest
  | PStar n => PStar n
  | PClass cls ps attrs ks =>
      PClass (mangle_ident class_stack <$> cls) (map fold_pattern ps) attrs (map fold_pattern ks)
  end.
End Expressions.

(** [fold_stmt]: the names of definitions and of [global] and [nonlocal]
    declarations are rewritten; the body of a class is visited in its own
    context, everything else of it in the enclosing one. *)
Fixpoint fold_stmt (st : ClassStack) (s : PyStmt) {struct s} : PyStmt :=
  let block := map (fold_stmt st) in
  let e := fold_expr st in
  let o := fold_opt st in
  let function (d : FunctionNode) :=
    match d with
    | mkFunction name a body decorators returns =>
        mkFunction (mangle_ident st name) (fold_arguments st a) (block body) (map e decorators) (o returns)
    end in
  match s with
  | At start node =>
      At start
        match node with
        | SExpr v => SExpr (e v)
        | SAssign ts v => SAssign (map e ts) (e v)
        | SAugAssign t op v => SAugAssign (e t) op (e v)
        | SAnnAssign t a v => SAnnAssign (e t) (e a) (o v)
        | SIf t b els => SIf (e t) (block b) (block els)
        | SFor t i b els => SFor (e t) (e i) (block b) (block els)
        | SWhile t b els => SWhile (e t) (block b) (block els)
        | SBreak => SBreak
        | SContinue => SContinue
        | SReturn v => SReturn (o v)
        | SRaise v c => SRaise (o v) (o c)
        | SAssert t m => SAssert (e t) (o m)
        | STry star b hs els f =>
            STry star (block b)
              (map (fun h => match h with mkExceptHandler t n hb => mkExceptHandler (o t) n (block hb) end) hs)
              (block els) (block f)
        | SWith items b => SWith (map (fold_item st) items) (block b)
        | SMatch subject cases =>
            SMatch (e subject)
              (map (fun c => match c with mkCase p g b => mkCase (fold_pattern st p) (o g) (block b) end) cases)
        | SFunctionDef d => SFunctionDef (function d)
        | SAsyncFunctionDef d => SAsyncFunctionDef (function d)
        | SClassDef name bases keywords body decorators =>
            SClassDef (mangle_ident st name) (map e bases) (map (fold_keyword st) keywords)
              (map (fold_stmt (st ++ [trim_underscores name])) body) (map e decorators)
        | SDelete ts => SDelete (map e ts)
        | SAsyncFor t i b els => SAsyncFor (e t) (e i) (block b) (block els)
        | SAsyncWith items b => SAsyncWith (map (fold_item st) items) (block b)
        | SImport names => SImport names
        | SImportFrom m names level => SImportFrom m names level
        | SGlobal names => SGlobal (map (mangle_ident st) names)
        | SNonlocal names => SNonlocal (map (mangle_ident st) names)
        | SPass => SPass
        | STypeAlias n v => STypeAlias (e n) (e v)
        end
  end.

Definition mangle_private_names (suite : list PyStmt) : list PyStmt := map (fold_stmt []) suite.
