(* ===== verification/Params.v ===== *)
(** Parameters of functions (eval/functions/params.rs, parser.rs): parsing and
    evaluating default arguments, binding the arguments of a call, and running
    a body up to its [return]. *)
From Stdlib Require Import ZArith Lia Ascii String SpecFloat.
From stdpp Require Import base tactics list numbers option strings pretty gmap.
From S2P Require Import Prelude PySet Values Errors F64 Keys Arith Classes Compare Operators State Exceptions Op Syntax Mangle.

(** The text before the first occurrence of a pattern. *)
Fixpoint before (pat s : string) : string :=
  if String.prefix pat s then EmptyString
  else match s with EmptyString => EmptyString | String c s => String c (before pat s) end.

Definition parse `{!Environment} (code : string) : InterpreterError + list PyStmt :=
  match suite_parse code with
  | inl full => inl (Errors.Syntax (before " at byte offset " full))
  | inr suite => inr (mangle_private_names suite)
  end.

Section Params.
Context `{External} `{!Environment}.
Variable eval : InterpreterState -> PyExpr -> Eval Value.

(** ** Defaults *)

Definition eval_default_source (s : InterpreterState) (src : string) : Eval Value :=
  match parse src with
  | inl e => done s (fail (Runtime ("failed to parse default expression '" ++ src ++ "': " ++ display_error e)))
  | inr [] => done s (fail (Runtime ("default expression '" ++ src ++ "' produced no statements")))
  | inr (At _ (SExpr e) :: _) => eval s e
  | inr _ => done s (fail (Runtime ("default expression '" ++ src ++ "' did not parse as a bare expression")))
  end.

Fixpoint eval_default_sources (s : InterpreterState) (srcs : list string) : Eval (list Value) :=
  match srcs with
  | [] => done s (Ok [])
  | src :: srcs =>
      let? (s, v) := eval_default_source s src in
      let? (s, vs) := eval_default_sources s srcs in
      done s (Ok (v :: vs))
  end.

Fixpoint eval_kw_default_sources (s : InterpreterState) (srcs : list (option string)) : Eval (list (option Value)) :=
  match srcs with
  | [] => done s (Ok [])
  | src :: srcs =>
      let? (s, v) := match src with
                     | Some src => let? (s, v) := eval_default_source s src in done s (Ok (Some v))
                     | None => done s (Ok None)
                     end in
      let? (s, vs) := eval_kw_default_sources s srcs in
      done s (Ok (v :: vs))
  end.

(** Values already there are left alone. *)
Definition evaluate_param_defaults (s : InterpreterState) (p : FunctionParams) : Eval FunctionParams :=
  let? (s, values) :=
    if is_nil (default_values p) && negb (is_nil (defaults p)) then eval_default_sources s (defaults p)
    else done s (Ok (default_values p)) in
  let? (s, kw_values) :=
    if is_nil (kw_default_values p) && negb (is_nil (kw_defaults p)) then eval_kw_default_sources s (kw_defaults p)
    else done s (Ok (kw_default_values p)) in
  done s (Ok (mkParams (args p) (defaults p) values (vararg p) (kwonlyargs p) (kw_defaults p) kw_values (kwarg p)
                (posonly_count p))).

(** ** Binding *)

Definition quoted (name : string) : string := "'" ++ name ++ "'".
Definition plural (n : nat) : string := if (n =? 1)%nat then "" else "s".
Definition call_prefix (func_name : string) : string :=
  if bool_decide (func_name = "") then "" else func_name ++ "() ".

Definition missing_names (missing : list string) : string :=
  match missing with
  | [] => ""
  | [a] => quoted a
  | [a; b] => quoted a ++ " and " ++ quoted b
  | many => join ", " (map quoted (removelast many)) ++ ", and " ++ quoted (default "" (list.last many))
  end.

Definition missing_positional_error (func_name : string) (missing : list string) : InterpreterError :=
  TypeError (call_prefix func_name ++ "missing " ++ pretty (length missing) ++ " required positional argument" ++
             plural (length missing) ++ ": " ++ missing_names missing).

Definition too_many_error (func_name : string) (params given : nat) : InterpreterError :=
  TypeError (call_prefix func_name ++ "takes " ++ pretty params ++ " positional argument" ++ plural params ++
             " but " ++ pretty given ++ " " ++ (if (given =? 1)%nat then "was" else "were") ++ " given").

Section Binding.
Variable params : FunctionParams.
Variable func_name : string.
Variable argv : list Value.
Variable kwargs : list (string * Value).

Definition has_keyword (name : string) : bool := bool_decide (name ∈ kwargs.*1).
Definition keyword (name : string) : option Value := field_get kwargs name.
Definition num_params : nat := length (args params).
Definition first_default : nat := num_params - length (defaults params).
Definition posonly : nat := Nat.min (posonly_count params) num_params.

Abbreviation Scope := (gmap string Value).

(** A default: the value evaluated at definition time, or its source evaluated
    now, with [None] for a failure. *)
Definition sourced (s : InterpreterState) (src : string) : Eval Value :=
  match eval_default_source s src with
  | (s, Ok v) => done s (Ok v)
  | (s, Err _) => done s (Ok VNone)
  | (s, Panic) => (s, Panic)
  end.

Definition positional_default (s : InterpreterState) (i : nat) : Eval (option Value) :=
  if (i <? first_default)%nat then done s (Ok None)
  else
    let di := (i - first_default)%nat in
    match default_values params !! di, defaults params !! di with
    | Some v, _ => done s (Ok (Some v))
    | None, Some src => let? (s, v) := sourced s src in done s (Ok (Some v))
    | None, None => done s (Ok None)
    end.

(** The parameters from the [i]th on: the scope, and those without a value. *)
Fixpoint bind_positional (s : InterpreterState) (i : nat) (ps : list Param) (scope : Scope) (missing : list string) :
    Eval (Scope * list string) :=
  match ps with
  | [] => done s (Ok (scope, missing))
  | p :: ps =>
      let is_posonly := (i <? posonly)%nat in
      match argv !! i with
      | Some v =>
          if negb is_posonly && has_keyword (p_name p)
          then done s (fail (TypeError ("got multiple values for argument '" ++ p_name p ++ "'")))
          else bind_positional s (S i) ps (<[p_name p := v]> scope) missing
      | None =>
          match (if is_posonly then None else keyword (p_name p)) with
          | Some v => bind_positional s (S i) ps (<[p_name p := v]> scope) missing
          | None =>
              let? (s, d) := positional_default s i in
              match d with
              | Some v => bind_positional s (S i) ps (<[p_name p := v]> scope) missing
              | None => bind_positional s (S i) ps scope (missing ++ [p_name p])
              end
          end
      end
  end.

Fixpoint bind_keyword_only (s : InterpreterState) (i : nat) (ps : list Param) (scope : Scope) : Eval Scope :=
  match ps with
  | [] => done s (Ok scope)
  | p :: ps =>
      match keyword (p_name p) with
      | Some v => bind_keyword_only s (S i) ps (<[p_name p := v]> scope)
      | None =>
          match kw_default_values params !! i, kw_defaults params !! i with
          | Some (Some v), _ => bind_keyword_only s (S i) ps (<[p_name p := v]> scope)
          | _, Some (Some src) =>
              let? (s, v) := sourced s src in bind_keyword_only s (S i) ps (<[p_name p := v]> scope)
          | _, _ => done s (fail (TypeError ("missing required keyword argument: '" ++ p_name p ++ "'")))
          end
      end
  end.

(** The keywords [**kwargs] collects: those no parameter accepts by name. *)
Definition accepts_keyword (name : string) : bool :=
  bool_decide (name ∈ p_name <$> drop posonly (args params)) || bool_decide (name ∈ p_name <$> kwonlyargs params).

Definition extra_keywords : list (ValueKey * Value) :=
  map (fun kv => (KString (name_text kv.1), kv.2)) (List.filter (fun kv => negb (accepts_keyword kv.1)) kwargs).

Definition claimed (name : string) : bool :=
  bool_decide (name ∈ p_name <$> args params) || bool_decide (name ∈ p_name <$> kwonlyargs params).

Definition bind_rest (s : InterpreterState) (scope : Scope) : Eval Scope :=
  match kwarg params with
  | Some name =>
      let (l, h) := shared_dict (heap s) extra_keywords in
      done (set_heap h s) (Ok (<[name := VDict l]> scope))
  | None =>
      done s match find (fun k => negb (claimed k)) kwargs.*1 with
             | Some k => fail (TypeError ("got an unexpected keyword argument '" ++ k ++ "'"))
             | None => Ok scope
             end
  end.

Definition positional_only_clashes : list string :=
  List.filter has_keyword (p_name <$> take posonly (args params)).

Definition bind_params_named (s : InterpreterState) : Eval Scope :=
  if (if vararg params is None then true else false) && (num_params <? length argv)%nat
  then done s (fail (too_many_error func_name num_params (length argv)))
  else if (0 <? posonly)%nat && (if kwarg params is None then true else false) &&
          negb (is_nil positional_only_clashes)
  then done s (fail (TypeError (call_prefix func_name ++
         "got some positional-only arguments passed as keyword arguments: '" ++
         join ", " positional_only_clashes ++ "'")))
  else
    let? (s, out) := bind_positional s 0 (args params) ∅ [] in
    let '(scope, missing) := out in
    if negb (is_nil missing) then done s (fail (missing_positional_error func_name missing))
    else
      let scope := match vararg params with
                   | Some name => <[name := VTuple (drop num_params argv)]> scope
                   | None => scope
                   end in
      let? (s, scope) := bind_keyword_only s 0 (kwonlyargs params) scope in
      bind_rest s scope.
End Binding.

(** ** Bodies *)

Section Body.
Variable exec : InterpreterState -> PyStmt -> Eval Value.

Fixpoint execute_from (s : InterpreterState) (body : list PyStmt) (result : Value) : Eval Value :=
  match body with
  | [] => done s (Ok result)
  | stmt :: body =>
      match exec s stmt with
      | (s, Ok v) => execute_from s body v
      | (s, Err (Signal (Return v))) => done s (Ok v)
      | (s, Err e) => done s (Err e)
      | (s, Panic) => (s, Panic)
      end
  end.

Definition execute_body (s : InterpreterState) (body : list PyStmt) : Eval Value := execute_from s body VNone.
End Body.
End Params.
