(* ===== verification/Host.v ===== *)
(** The interfaces of the evaluator, and the steps its parts share (eval/mod.rs,
    eval/functions/mod.rs): the operation count, the depth guard, pending tool
    results, truth, constants, and one step of an iterator. *)
From Stdlib Require Import ZArith Lia Ascii String SpecFloat.
From stdpp Require Import base tactics list numbers option strings pretty gmap.
From S2P Require Import Prelude PySet Values Errors F64 Keys Arith Classes Slices Compare Operators State Exceptions Op Syntax.

(** The components the evaluator calls: the expressions and statements it hands
    over (calls, attributes, subscripts, f-strings, comprehensions, generators,
    imports, classes), the attribute and subscript targets, pending tool results,
    attributes of a matched subject, the context managers of library types and user
    classes, and the calls of decorators. *)
Class Host `{External} : Type := {
  host_expr : InterpreterState -> PyExpr -> Eval Value;
  host_stmt : InterpreterState -> PyStmt -> Eval Value;
  host_assign : InterpreterState -> PyExpr -> Value -> Eval ();
  host_aug_assign : InterpreterState -> PyExpr -> Operator -> PyExpr -> Eval Value;
  host_resolve : InterpreterState -> loc -> Eval Value;
  host_match_attribute : InterpreterState -> Value -> string -> EvalResult Value;
  host_context_method : InterpreterState -> Value -> string -> list Value -> Eval Value;
  apply_decorator : InterpreterState -> Value -> Value -> Eval Value
}.

Section Host.
Context `{External} `{!ExternalOrder} `{!Platform} `{!Formats} `{!Calls} `{!Estimates} `{!Environment} `{!Host}.

(** A mutating call of the state, as a fallible step. *)
Definition lift_call (c : InterpreterState * option InterpreterError) : Eval () :=
  match c with (s, Some e) => (s, Err (Interpreter e)) | (s, None) => (s, Ok ()) end.

Definition tick (s : InterpreterState) : Eval () :=
  lift_call (increment_ops show_duration (clock (operations_count s)) s).

(** The depth guard around a recursive node: a failure still leaves it. *)
Definition guarded {A} (s : InterpreterState) (k : InterpreterState -> Eval A) : Eval A :=
  let? (s, _) := lift_call (enter_expr s) in
  let (s, r) := k s in (exit_expr s, r).

Definition resolve_proxy (s : InterpreterState) (v : Value) : Eval Value :=
  match v with VLazyProxy l => host_resolve s l | _ => done s (Ok v) end.

(** [try_truthy_sync], then [truthy]. *)
Definition condition (s : InterpreterState) (v : Value) : Eval bool :=
  match v with VInstance _ _ => truthy s v | _ => done s (Ok (is_truthy (heap s) v)) end.

Fixpoint eval_constant (c : Constant) : Value :=
  match c with
  | CNone => VNone
  | CEllipsis => VEllipsis
  | CBool b => VBool b
  | CInt i => int_from_bigint i
  | CFloat f => VFloat f
  | CStr s => VString s
  | CBytes b => VBytes b
  | CTuple items => VTuple (map eval_constant items)
  | CComplex re im => VComplex re im
  end.

(** ** Iterators *)

Definition next_item (s : InterpreterState) (iterator : Value) : Eval Value :=
  match iterator with
  | VBuiltinIter id _ =>
      match step_builtin_iter id s with
      | (Some v, s) => done s (Ok v)
      | (None, s) => done s (raise "StopIteration" "")
      end
  | _ => generator_next s iterator
  end.

(** Every round but the last counts at least one statement, so the operation
    limit bounds the walk over an iterator. *)
Definition iterator_bound (s : InterpreterState) : nat := S (Z.to_nat (max_operations (config s))).
End Host.
