(* ===== verification/Displays.v ===== *)
(** Displays and comprehensions (eval/literals.rs, eval/comprehensions.rs): the
    building of lists, tuples, sets and dictionaries from their elements, and of
    the same from nested loops over generators, whose target names are put back
    afterwards. *)
From Stdlib Require Import ZArith Lia Ascii String SpecFloat.
From stdpp Require Import base tactics list numbers option strings pretty gmap.
From S2P Require Import Prelude PySet Values Errors F64 Keys Arith Classes Slices Compare Operators State Exceptions Op Syntax.
From S2P Require Import Names Host.

Section Displays.
Context `{External} `{!ExternalOrder} `{!Platform} `{!Formats} `{!Calls} `{!Estimates} `{!Environment} `{!Host}.

(** ** Checkpoints of variables *)

Abbreviation VariableCheckpoint := (list (string * option Value)).

Definition capture (s : InterpreterState) (names : list string) : VariableCheckpoint :=
  map (fun n => (n, variables s !! n)) names.

Definition restore_name (vars : gmap string Value) (snapshot : string * option Value) : gmap string Value :=
  match snapshot.2 with
  | Some v => <[snapshot.1 := v]> vars
  | None => base.delete snapshot.1 vars
  end.

Definition restore (checkpoint : VariableCheckpoint) (s : InterpreterState) : InterpreterState :=
  set_variables (fold_left restore_name checkpoint (variables s)) s.

(** ** Dictionaries and sets *)

Abbreviation Entries := (list (ValueKey * Value)).
Abbreviation key_eq := (key_eqb structural_eq).

(** The index of the entry of an instance key: the first with the same hash and
    [__eq__]. *)
Fixpoint find_instance_entry (s : InterpreterState) (hash : Z) (needle : Value) (i : nat) (es : Entries) :
    Eval (option nat) :=
  match es with
  | [] => done s (Ok None)
  | (KInstance kh stored, _) :: es =>
      if kh =? hash then
        let? (s, same) := eq nesting s stored needle in
        if same : bool then done s (Ok (Some i)) else find_instance_entry s hash needle (S i) es
      else find_instance_entry s hash needle (S i) es
  | _ :: es => find_instance_entry s hash needle (S i) es
  end.

Definition dict_insert_instance_key (s : InterpreterState) (map : Entries) (needle value : Value) : Eval Entries :=
  let? (s, h) := hash s needle in
  let? (s, found) := find_instance_entry s h needle 0 map in
  done s (Ok match found with
             | Some i => alter (fun kv => (kv.1, value)) i map
             | None => im_insert key_eq map (KInstance h needle) value
             end).

(** An instance key goes by [__hash__] and [__eq__], any other by its key. *)
Definition insert_evaluated (s : InterpreterState) (map : Entries) (k v : Value) : Eval Entries :=
  if is_instance k then dict_insert_instance_key s map k v
  else let? (s, k) := done s (value_to_key address (heap s) nesting k) in done s (Ok (im_insert key_eq map k v)).

Definition insert_all (map es : Entries) : Entries := fold_left (fun map kv => im_insert key_eq map kv.1 kv.2) es map.

Definition alloc_dict (s : InterpreterState) (es : Entries) : Eval Value :=
  let (l, h) := shared_dict (heap s) es in done (set_heap h s) (Ok (VDict l)).

(** The distinct candidates, in order: instances by [__eq__] with every item kept
    so far, the others by their keys. *)
Fixpoint distinct (s : InterpreterState) (items : list Value) (seen : list ValueKey) (candidates : list Value) :
    Eval (list Value) :=
  match candidates with
  | [] => done s (Ok items)
  | c :: candidates =>
      if is_instance c then
        let? (s, _) := hash s c in
        let? (s, exists_) := any_eq nesting s c items in
        distinct s (if exists_ : bool then items else items ++ [c]) seen candidates
      else
        let? (s, k) := done s (value_to_key address (heap s) nesting c) in
        if existsb (fun k' => key_eq k' k) seen then distinct s items seen candidates
        else distinct s (items ++ [c]) (seen ++ [k]) candidates
  end.

Definition build_set (s : InterpreterState) (candidates : list Value) (constant : bool) : Eval Value :=
  let? (s, items) := distinct s [] [] candidates in
  match (if constant then @from_constant_literal _ (set_elem (heap s)) items
         else @from_items _ (set_elem (heap s)) items) with
  | Some body => let (l, h) := shared_set (heap s) body in done (set_heap h s) (Ok (VSet l))
  | None => (s, Panic)
  end.

(** ** Displays *)

Section Children.
Variable eval : InterpreterState -> PyExpr -> Eval Value.

Definition eval_resolved (s : InterpreterState) (e : PyExpr) : Eval Value :=
  let? (s, v) := eval s e in resolve_proxy s v.

Definition eval_condition (s : InterpreterState) (e : PyExpr) : Eval bool :=
  let? (s, v) := eval_resolved s e in condition s v.

(** The elements of a display, [*e] spliced in. *)
Fixpoint eval_display_elements (s : InterpreterState) (elts : list PyExpr) : Eval (list Value) :=
  match elts with
  | [] => done s (Ok [])
  | e :: elts =>
      let? (s, vs) := match e with
                      | EStarred e => let? (s, v) := eval s e in iter nesting s v
                      | _ => let? (s, v) := eval s e in done s (Ok [v])
                      end in
      let? (s, rest) := eval_display_elements s elts in
      done s (Ok (vs ++ rest))
  end.

Definition eval_list (s : InterpreterState) (elts : list PyExpr) : Eval Value :=
  let? (s, items) := eval_display_elements s elts in in_heap s (new_list (heap s) items).

Definition eval_tuple (s : InterpreterState) (elts : list PyExpr) : Eval Value :=
  let? (s, items) := eval_display_elements s elts in done s (Ok (VTuple items)).
Definition is_constant (e : PyExpr) : bool := match e with EConstant _ => true | _ => false end.

Definition eval_set (s : InterpreterState) (elts : list PyExpr) : Eval Value :=
  let? (s, candidates) := eval_display_elements s elts in
  build_set s candidates (negb (bool_decide (elts = [])) && forallb is_constant elts).

Fixpoint eval_dict_items (s : InterpreterState) (items : list (option PyExpr * PyExpr)) (map : Entries) :
    Eval Entries :=
  match items with
  | [] => done s (Ok map)
  | (Some k, v) :: items =>
      let? (s, kv) := eval s k in
      let? (s, vv) := eval s v in
      let? (s, map) := insert_evaluated s map kv vv in
      eval_dict_items s items map
  | (None, v) :: items =>
      let? (s, unpacked) := eval s v in
      match as_dict unpacked with
      | Some l => eval_dict_items s items (insert_all map (dict_at (heap s) l))
      | None => done s (fail (TypeError "cannot unpack non-dict in dict literal"))
      end
  end.

Definition eval_dict (s : InterpreterState) (items : list (option PyExpr * PyExpr)) : Eval Value :=
  let? (s, map) := eval_dict_items s items [] in alloc_dict s map.

(** ** Comprehensions *)

(** A walrus target may not rebind an iteration variable. *)
Definition check_walrus_rebind (generators : list Comprehension) (body_exprs : list PyExpr) : EvalResult () :=
  let iter_vars := collect_generator_target_names generators in
  match iter_vars with
  | [] => Ok ()
  | _ =>
      let targets :=
        each (fun g out => match g with mkComprehension _ _ ifs _ => each collect_scope_walrus_targets ifs out end)
          generators (each collect_scope_walrus_targets body_exprs []) in
      match find (fun t => bool_decide (t ∈ iter_vars)) targets with
      | Some clash =>
          fail (Errors.Syntax ("assignment expression cannot rebind comprehension iteration variable '" ++ clash ++ "'"))
      | None => Ok ()
      end
  end.

(** The items a tuple target takes from a value. *)
Definition comprehension_items (h : Heap) (value : Value) : EvalResult (list Value) :=
  match value with
  | VList l => Ok (list_at h l)
  | VTuple items => Ok items
  | VString t => Ok (map (fun c => VString [c]) t)
  | _ => fail (TypeError "cannot unpack non-iterable value in comprehension")
  end.

(** A target is stored past the memory account, but through the frame's cells. *)
Fixpoint set_comprehension_target (s : InterpreterState) (target : PyExpr) (value : Value) {struct target} : Eval () :=
  match target with
  | EName name =>
      let s := write_through name value s in
      done (set_variables (<[name := value]> (variables s)) s) (Ok ())
  | ETuple elts =>
      let? (s, items) := done s (comprehension_items (heap s) value) in
      if negb (length elts =? length items)%nat
      then done s (fail (Runtime "cannot unpack tuple of wrong size in comprehension"))
      else
        (fix each_target (s : InterpreterState) (elts : list PyExpr) (items : list Value) : Eval () :=
           match elts, items with
           | e :: elts, v :: items =>
               let? (s, _) := set_comprehension_target s e v in each_target s elts items
           | _, _ => done s (Ok ())
           end) s elts items
  | _ =>
      done s (fail (Runtime
        ("unsupported comprehension target (see CONFORMANCE.md#unsupported-language-features): " ++
         discriminant (inl target))))
  end.

(** The conditions of a generator, up to the first that does not hold. *)
Fixpoint eval_filters (s : InterpreterState) (ifs : list PyExpr) : Eval bool :=
  match ifs with
  | [] => done s (Ok true)
  | e :: ifs =>
      let? (s, cond) := eval_resolved s e in
      let? (s, holds) := truthy s cond in
      if holds : bool then eval_filters s ifs else done s (Ok false)
  end.

Section Loops.
Context {A : Type}.
(** What is done with an item and with the results so far. *)
Variable visit : InterpreterState -> Value -> A -> Eval A.

Fixpoint visit_items (s : InterpreterState) (items : list Value) (acc : A) : Eval A :=
  match items with
  | [] => done s (Ok acc)
  | item :: items => let? (s, acc) := visit s item acc in visit_items s items acc
  end.

(** The walk over a range; [fuel] is more than its length. *)
Fixpoint visit_range (fuel : nat) (s : InterpreterState) (stop step i : Z) (acc : A) : Eval A :=
  match fuel with
  | O => (s, Panic)
  | S fuel =>
      if ((step >? 0) && (i <? stop)) || ((step <? 0) && (i >? stop)) then
        let? (s, acc) := visit s (VInt i) acc in
        match checked (i + step) with
        | Some next => visit_range fuel s stop step next acc
        | None => done s (Ok acc)
        end
      else done s (Ok acc)
  end.

Fixpoint visit_iterator (bound : nat) (s : InterpreterState) (iterator : Value) (acc : A) : Eval A :=
  match bound with
  | O => (s, Panic)
  | S bound =>
      match next_item s iterator with
      | (s, Ok item) => let? (s, acc) := visit s item acc in visit_iterator bound s iterator acc
      | (s, Err (Exception e)) =>
          if bool_decide (exc_type_name e = "StopIteration"%string) then done s (Ok acc)
          else done s (Err (Exception e))
      | (s, Err e) => done s (Err e)
      | (s, Panic) => (s, Panic)
      end
  end.

(** The walk of one generator. Lists and sets step an iterator item by item
    ([stepped]); a dictionary draws all of its items first. *)
Definition visit_iterable (stepped : bool) (s : InterpreterState) (iterable : Value) (acc : A) : Eval A :=
  let drawn := let? (s, items) := iter nesting s iterable in visit_items s items acc in
  match iterable with
  | VRange start stop step => visit_range (S (Z.to_nat (range_count start stop step))) s stop step start acc
  | VGenerator _ | VBuiltinIter _ _ => if stepped then visit_iterator (iterator_bound s) s iterable acc else drawn
  | _ => drawn
  end.
End Loops.

Section Generators.
Context {A : Type}.
Variable stepped : bool.
(** The innermost body. *)
Variable leaf : InterpreterState -> A -> Eval A.

Fixpoint eval_generators (generators : list Comprehension) (s : InterpreterState) (acc : A) : Eval A :=
  match generators with
  | [] => leaf s acc
  | mkComprehension target i ifs _ :: generators =>
      let? (s, iterable) := eval_resolved s i in
      visit_iterable (fun s item acc =>
        let? (s, _) := set_comprehension_target s target item in
        let? (s, include) := eval_filters s ifs in
        if include : bool then eval_generators generators s acc else done s (Ok acc)) stepped s iterable acc
  end.

(** The whole of a comprehension: whatever its loops do, the target names are put
    back. *)
Definition in_own_scope (generators : list Comprehension) (s : InterpreterState) (acc : A) : Eval A :=
  let checkpoint := capture s (collect_generator_target_names generators) in
  let (s, r) := eval_generators generators s acc in (restore checkpoint s, r).
End Generators.

Definition append_element (elt : PyExpr) (s : InterpreterState) (results : list Value) : Eval (list Value) :=
  let? (s, v) := eval s elt in done s (Ok (results ++ [v])).

Definition insert_pair (k v : PyExpr) (s : InterpreterState) (map : Entries) : Eval Entries :=
  let? (s, kv) := eval s k in
  let? (s, vv) := eval s v in
  insert_evaluated s map kv vv.

Definition eval_list_comp (s : InterpreterState) (elt : PyExpr) (generators : list Comprehension) : Eval Value :=
  let? (s, _) := done s (check_walrus_rebind generators [elt]) in
  let? (s, results) := in_own_scope true (append_element elt) generators s [] in
  in_heap s (new_list (heap s) results).

Definition eval_set_comp (s : InterpreterState) (elt : PyExpr) (generators : list Comprehension) : Eval Value :=
  let? (s, _) := done s (check_walrus_rebind generators [elt]) in
  let? (s, results) := in_own_scope true (append_element elt) generators s [] in
  build_set s results false.

Definition eval_dict_comp (s : InterpreterState) (k v : PyExpr) (generators : list Comprehension) : Eval Value :=
  let? (s, _) := done s (check_walrus_rebind generators [k; v]) in
  let? (s, map) := in_own_scope false (insert_pair k v) generators s [] in
  alloc_dict s map.

(** ** Generator expressions *)

Definition is_lazy_source (v : Value) : bool :=
  match v with VGenerator _ | VLazy _ _ _ | VBuiltinIter _ _ => true | _ => false end.

(** [for <target> in .0: if cond: ... yield <elt>]. *)
Definition genexp_body (elt target : PyExpr) (ifs : list PyExpr) : list PyStmt :=
  [At 0 (SFor target (EName ".0")
     [foldr (fun cond inner => At 0 (SIf cond [inner] [])) (At 0 (SExpr (EYield (Some elt)))) ifs] [])].

Definition genexp_def (s : InterpreterState) : FunctionDef :=
  mkFunctionDef "<genexpr>" ("<genexpr>#" ++ pretty (next_cursor_id s)) (mkParams [] [] [] None [] [] [] None 0) [] ""
    [] true None None [] [] (call_depth s =? 0) None [] (qualname_for s "<genexpr>") [] false.

(** The one-generator case: suspended when the element builds a closure or the
    source is lazy, and left to the eager path otherwise. *)
Definition try_lazy_genexp (s : InterpreterState) (elt target i : PyExpr) (ifs : list PyExpr) : Eval (option Value) :=
  let? (s, iter_value) := eval_resolved s i in
  if negb (is_lazy_source iter_value) && negb (expr_builds_closure elt) then done s (Ok None)
  else
    let body := genexp_body elt target ifs in
    if negb (generator_suspendable body) then done s (Ok None)
    else
      let target_names := collect_target_names target [] in
      let free := List.filter (fun n => negb (bool_decide (n = ".0"%string))) (collect_free_names target_names body) in
      let locals := fold_left (fun m n => match variables s !! n with Some v => <[n := v]> m | None => m end) free ∅ in
      let (s, g) :=
        create_generator s (genexp_def s) body (<[".0"%string := iter_value]> locals)
          (free ++ [".0"%string] ++ target_names) in
      done s (Ok (Some g)).

Definition eager_genexp (s : InterpreterState) (elt : PyExpr) (generators : list Comprehension) : Eval Value :=
  let? (s, results) := in_own_scope true (append_element elt) generators s [] in
  let (v, s) := alloc_lazy results s in done s (Ok v).

Definition eval_generator_exp (s : InterpreterState) (elt : PyExpr) (generators : list Comprehension) : Eval Value :=
  let? (s, _) := done s (check_walrus_rebind generators [elt]) in
  match generators with
  | [mkComprehension target i ifs false] =>
      let? (s, g) := try_lazy_genexp s elt target i ifs in
      match g with Some g => done s (Ok g) | None => eager_genexp s elt generators end
  | _ => eager_genexp s elt generators
  end.
End Children.
End Displays.
