(* ===== verification/Eval.v ===== *)
(** Evaluation of expressions (eval/mod.rs, eval/operations.rs, eval/names.rs,
    eval/literals.rs): the synchronous fast path for constants, names and
    numeric trees, and the general path with its operation count and depth
    guard. What other components evaluate is the interface [Host]. *)
From Stdlib Require Import ZArith Lia Ascii String SpecFloat.
From stdpp Require Import base tactics list numbers option strings pretty gmap.
From S2P Require Import Prelude PySet Values Errors F64 Keys Arith Classes Slices Compare Operators State Exceptions Op Syntax Host Displays.

Section Eval.
Context `{External} `{!ExternalOrder} `{!Platform} `{!Formats} `{!Calls} `{!Estimates} `{!Environment} `{!Host}.

(** ** Leaves *)

Definition builtin_functions : list string :=
  ["print"; "len"; "range"; "str"; "int"; "float"; "complex"; "bool"; "type"; "isinstance";
   "issubclass"; "super"; "hasattr"; "getattr"; "setattr"; "delattr"; "vars"; "callable"; "abs";
   "round"; "min"; "max"; "sum"; "all"; "any"; "sorted"; "enumerate"; "zip"; "reversed"; "chr";
   "ord"; "list"; "tuple"; "dict"; "set"; "frozenset"; "iter"; "next"; "filter"; "map"; "repr";
   "ascii"; "slice"; "memoryview"; "hash"; "id"; "input"; "pow"; "divmod"; "format"; "object";
   "bin"; "oct"; "hex"; "bytes"; "bytearray"; "__import__"; "dir"; "property"]%string.

Definition exception_type_names : list string :=
  ["Exception"; "ValueError"; "TypeError"; "KeyError"; "IndexError"; "AttributeError";
   "RuntimeError"; "StopIteration"; "ZeroDivisionError"; "OverflowError"; "AssertionError";
   "NotImplementedError"; "FileNotFoundError"; "IOError"; "OSError"; "NameError";
   "ArithmeticError"; "LookupError"; "RecursionError"; "ExceptionGroup"; "BaseExceptionGroup";
   "GeneratorExit"; "StopAsyncIteration"; "KeyboardInterrupt"; "SystemExit"; "UnicodeError";
   "UnicodeDecodeError"; "UnicodeEncodeError"; "FloatingPointError"; "BufferError";
   "ReferenceError"; "MemoryError"; "PermissionError"; "NotADirectoryError";
   "IsADirectoryError"; "FileExistsError"; "InterruptedError"; "ConnectionError";
   "ConnectionAbortedError"; "ConnectionRefusedError"; "ConnectionResetError";
   "ProcessLookupError"; "TimeoutError"; "BlockingIOError"; "ChildProcessError";
   "BrokenPipeError"; "IndentationError"; "TabError"; "SyntaxError"; "SystemError"; "EOFError";
   "ModuleNotFoundError"; "ImportError"; "UnboundLocalError"; "BaseException"]%string.

Definition is_exception_type_name (name : string) : bool := bool_decide (name ∈ exception_type_names).

Definition AUTO_IMPORTED : list string := ["json"; "re"; "datetime"]%string.

Definition eval_name (s : InterpreterState) (name : string) : EvalResult Value :=
  _ ← validate_name Access name;
  match get_variable name s with
  | Some val => Ok val
  | None =>
      if is_tool name then Ok (VToolName name)
      else if bool_decide (name = "NotImplemented"%string) then Ok VNotImplemented
      else if bool_decide (name = "Ellipsis"%string) then Ok VEllipsis
      else if bool_decide (name ∈ builtin_functions) then Ok (VBuiltinName name)
      else if is_exception_type_name name then Ok (VExceptionType name)
      else if bool_decide (name ∈ AUTO_IMPORTED) then Ok (VModule name)
      else fail (name_not_defined name)
  end.

(** ** The numeric fast path

    It reads the state and the thread's overflow flag; the result is counted, and
    [None] leaves the tree to the general path. *)

Definition Sync (A : Type) : Type := bool -> bool * option (Outcome (EvalError * Z) A).

Definition sync_ret {A} (r : Outcome (EvalError * Z) A) : Sync A := fun flag => (flag, Some r).
Definition sync_none {A} : Sync A := fun flag => (flag, None).
Definition sync_bind {A B} (m : Sync A) (k : A -> Sync B) : Sync B := fun flag =>
  match m flag with
  | (flag, Some (Ok a)) => k a flag
  | (flag, Some (Err e)) => (flag, Some (Err e))
  | (flag, Some Panic) => (flag, Some Panic)
  | (flag, None) => (flag, None)
  end.

(** A failing kernel is charged the operations of the whole node. *)
Definition counted {A} (r : EvalResult A) (count : Z) : Outcome (EvalError * Z) (A * Z) :=
  match r with Ok a => Ok (a, count) | Err e => Err (e, count) | Panic => Panic end.

Definition sync_walk {A} (w : Walk (EvalError + A)) (count : Z) : Sync A := fun flag =>
  match w flag with
  | Some (inr a, flag) => (flag, Some (Ok a))
  | Some (inl e, flag) => (flag, Some (Err (e, count)))
  | None => (flag, Some Panic)
  end.

Definition is_sync_numeric (v : Value) : bool :=
  match v with VBool _ | VInt _ | VBigInt _ | VFloat _ => true | _ => false end.

Definition numeric_leaf (v : Value) : Sync (Value * Z) :=
  if is_sync_numeric v then sync_ret (Ok (v, 1)) else sync_none.

Definition is_membership (op : CompareOp) : bool := match op with In | NotIn => true | _ => false end.

Definition walk_bool (w : Walk bool) : Walk (EvalError + bool) := let! b := w in walk_ret (inr b).

(** One comparison of the chain. *)
Definition compare_step (s : InterpreterState) (op : CompareOp) (left right : Value) : Walk (EvalError + bool) :=
  match op with
  | Rich op => compare_builtin structural_eq set_elem (classes s) nesting (heap s) op left right
  | Is => walk_bool (values_is structural_eq (heap s) left right)
  | IsNot => walk_bool (let! b := values_is structural_eq (heap s) left right in walk_ret (negb b))
  | In | NotIn => walk_ret (inr false)
  end.

Section Numeric.
Variable s : InterpreterState.
Variable numeric : PyExpr -> Sync (Value * Z).

Fixpoint numeric_chain (ops : list CompareOp) (comparators : list PyExpr) (left : Value) (count : Z)
    {struct comparators} : Sync (Value * Z) :=
  match ops, comparators with
  | op :: ops, e :: comparators =>
      sync_bind (numeric e) (fun '(rhs, right_count) =>
      let count := count + right_count + 1 in
      sync_bind (sync_walk (compare_step s op left rhs) count) (fun b : bool =>
      if b then numeric_chain ops comparators rhs count else sync_ret (Ok (VBool false, count))))
  | _, _ => sync_ret (Ok (VBool true, count))
  end.
End Numeric.

Fixpoint eval_numeric_unmetered (s : InterpreterState) (expr : PyExpr) (depth : Z) {struct expr} : Sync (Value * Z) :=
  if depth >=? max_recursion_depth (config s)
  then sync_ret (Err (Interpreter (RecursionLimitExceeded (max_recursion_depth (config s))), 1))
  else
    let numeric e := eval_numeric_unmetered s e (depth + 1) in
    match expr with
    | EConstant c => numeric_leaf (eval_constant c)
    | EName id => match get_variable id s with Some v => numeric_leaf v | None => sync_none end
    | EBinOp l op r =>
        sync_bind (numeric l) (fun '(lhs, left_count) =>
        sync_bind (numeric r) (fun '(rhs, right_count) =>
        sync_ret (counted (fst <$> apply_binop (heap s) lhs rhs op (max_int_bits (config s)))
                          (left_count + right_count + 1))))
    | ECompare l ops comparators =>
        if existsb is_membership ops then sync_none
        else sync_bind (numeric l) (fun '(lhs, count) => numeric_chain s numeric ops comparators lhs count)
    | _ => sync_none
    end.

Fixpoint charge (count : nat) (s : InterpreterState) : Eval () :=
  match count with
  | O => done s (Ok ())
  | S count => let? (s, _) := tick s in charge count s
  end.

(** The outcome of a fast path, when it takes the node. *)
Definition Tried : Type := (InterpreterState * option (EvalResult Value))%type.

Definition taken (m : Eval Value) : Tried := (m.1, Some m.2).

Definition try_eval_numeric_expr_sync (s : InterpreterState) (expr : PyExpr) : Tried :=
  let (flag, outcome) := eval_numeric_unmetered s expr 0 (eq_overflow s) in
  let s := set_overflow flag s in
  match outcome with
  | None => (s, None)
  | Some Panic => (s, Some Panic)
  | Some (Ok (value, count)) => taken (let? (s, _) := charge (Z.to_nat count) s in done s (Ok value))
  | Some (Err (e, count)) => taken (let? (s, _) := charge (Z.to_nat count) s in done s (Err e))
  end.

Definition try_eval_expr_sync (s : InterpreterState) (expr : PyExpr) : Tried :=
  match expr with
  | EConstant c => taken (let? (s, _) := tick s in done s (Ok (eval_constant c)))
  | EName id => taken (let? (s, _) := tick s in done s (eval_name s id))
  | EBinOp _ _ _ | ECompare _ _ _ => try_eval_numeric_expr_sync s expr
  | _ => (s, None)
  end.

(** ** The general path

    One definition per node, over the evaluation of its children. *)

Section Nodes.
Variable eval : InterpreterState -> PyExpr -> Eval Value.

(** An operand: the fast path first, and no proxy left. *)
Definition operand (s : InterpreterState) (e : PyExpr) : Eval Value :=
  let? (s, v) := match try_eval_expr_sync s e with
                 | (s, Some r) => done s r
                 | (s, None) => eval s e
                 end in
  resolve_proxy s v.

Definition eval_binop_inner (s : InterpreterState) (l : PyExpr) (op : Operator) (r : PyExpr) : Eval Value :=
  let? (s, lhs) := operand s l in
  let? (s, rhs) := operand s r in
  let small f a b := done s (Ok (match checked (f a b) with Some v => VInt v | None => int_from_bigint (f a b) end)) in
  match lhs, rhs, op with
  | VInt a, VInt b, Add => small Z.add a b
  | VInt a, VInt b, Sub => small Z.sub a b
  | VInt a, VInt b, Mult => small Z.mul a b
  | _, _, _ => binop s op lhs rhs
  end.

Definition eval_binop (s : InterpreterState) (l : PyExpr) (op : Operator) (r : PyExpr) : Eval Value :=
  guarded s (fun s => eval_binop_inner s l op r).

Definition eval_unaryop (s : InterpreterState) (op : UnaryOp) (e : PyExpr) : Eval Value :=
  guarded s (fun s => let? (s, v) := eval_resolved eval s e in unaryop s op v).

(** The name whose binding a comparison writes its operand back to. *)
Definition name_of (e : PyExpr) : option string := match e with EName id => Some id | _ => None end.

Definition write_back (s : InterpreterState) (name : option string) (post : option Value) : Eval () :=
  match name, post with
  | Some name, Some v => lift_call (set_variable size name v s)
  | _, _ => done s (Ok ())
  end.

Definition compare_pair (s : InterpreterState) (op : CompareOp) (lhs rhs : Value)
    (left_var right_var : option string) : Eval bool :=
  match op with
  | In => contains nesting s rhs lhs
  | NotIn => let? (s, b) := contains nesting s rhs lhs in done s (Ok (negb b))
  | Is | IsNot => walk s (compare_step s op lhs rhs)
  | Rich op =>
      let? (s, out) := compare nesting s op lhs rhs in
      let? (s, _) := write_back s left_var out.1.2 in
      let? (s, _) := write_back s right_var out.2 in
      done s (Ok out.1.1)
  end.

Fixpoint compare_chain (s : InterpreterState) (ops : list CompareOp) (comparators : list PyExpr)
    (lhs : Value) (left_var : option string) {struct comparators} : Eval Value :=
  match ops, comparators with
  | op :: ops, e :: comparators =>
      let? (s, rhs) := operand s e in
      let? (s, result) := compare_pair s op lhs rhs left_var (name_of e) in
      if result : bool then compare_chain s ops comparators rhs (name_of e) else done s (Ok (VBool false))
  | _, _ => done s (Ok (VBool true))
  end.

Definition eval_compare (s : InterpreterState) (l : PyExpr) (ops : list CompareOp) (comparators : list PyExpr) :
    Eval Value :=
  let? (s, lhs) := operand s l in compare_chain s ops comparators lhs (name_of l).

(** [and] stops at a falsy value, [or] at a truthy one. *)
Fixpoint bool_chain (s : InterpreterState) (stop : bool) (values : list PyExpr) (last : Value) : Eval Value :=
  match values with
  | [] => done s (Ok last)
  | e :: values =>
      let? (s, last) := eval_resolved eval s e in
      let? (s, cond) := condition s last in
      if Bool.eqb cond stop then done s (Ok last) else bool_chain s stop values last
  end.

Definition eval_boolop (s : InterpreterState) (op : BoolOp) (values : list PyExpr) : Eval Value :=
  match op with
  | BoolAnd => bool_chain s false values (VBool true)
  | BoolOr => bool_chain s true values (VBool false)
  end.

Definition eval_ifexp (s : InterpreterState) (test body orelse : PyExpr) : Eval Value :=
  guarded s (fun s =>
    let? (s, cond) := eval_condition eval s test in
    if cond : bool then eval s body else eval s orelse).

Definition eval_named_expr (s : InterpreterState) (target value : PyExpr) : Eval Value :=
  guarded s (fun s =>
    let? (s, v) := eval s value in
    match target with
    | EName name =>
        let? (s, _) := done s (validate_name Assignment name) in
        let? (s, _) := lift_call (set_variable size name v s) in
        done s (Ok v)
    | _ => done s (fail (Runtime ("walrus assignment target must be a name, not " ++ discriminant (inl target))))
    end).

End Nodes.

(** [eval_expr]: a node the fast path does not take is counted, then handed to
    its evaluator. *)
Fixpoint eval_expr (s : InterpreterState) (expr : PyExpr) {struct expr} : Eval Value :=
  match try_eval_expr_sync s expr with
  | (s, Some r) => done s r
  | (s, None) =>
      let? (s, _) := tick s in
      match expr with
      | EConstant c => done s (Ok (eval_constant c))
      | EName id => done s (eval_name s id)
      | EList elts => eval_list eval_expr s elts
      | ETuple elts => eval_tuple eval_expr s elts
      | EDict items => eval_dict eval_expr s items
      | ESet elts => eval_set eval_expr s elts
      | EBinOp l op r => eval_binop eval_expr s l op r
      | EUnaryOp op e => eval_unaryop eval_expr s op e
      | ECompare l ops comparators => eval_compare eval_expr s l ops comparators
      | EBoolOp op values => eval_boolop eval_expr s op values
      | EIfExp test body orelse => eval_ifexp eval_expr s test body orelse
      | ENamedExpr target value => eval_named_expr eval_expr s target value
      | EStarred e => eval_expr s e
      | EListComp elt generators => eval_list_comp eval_expr s elt generators
      | ESetComp elt generators => eval_set_comp eval_expr s elt generators
      | EDictComp k v generators => eval_dict_comp eval_expr s k v generators
      | EGeneratorExp elt generators => eval_generator_exp eval_expr s elt generators
      | _ => host_expr s expr
      end
  end.
End Eval.
