(* ===== verification/Definitions.v ===== *)
(** Definitions of functions and lambdas (eval/functions/definitions.rs): their
    parameters, closures and capture cells, and what is stored for their calls. *)
From Stdlib Require Import ZArith Lia Ascii String SpecFloat.
From stdpp Require Import base tactics list numbers option strings pretty gmap.
From S2P Require Import Prelude PySet Values Errors F64 Keys Arith Classes Slices Compare Operators State Exceptions Op Syntax.
From S2P Require Import Names Unparse Mangle Params Host Displays Eval.

Section Definitions.
Context `{External} `{!ExternalOrder} `{!Platform} `{!Formats} `{!Calls} `{!Estimates} `{!Environment} `{!Host}.

Definition set_named (s : InterpreterState) (name : string) (value : Value) : Eval () :=
  lift_call (set_variable size name value s).

Definition has_cell (refreshes : list (string * Z)) (name : string) : bool := bool_decide (name ∈ refreshes.*1).

(** ** Capture cells *)

Definition owners_of (s : InterpreterState) : gmap string Z := default ∅ (list.last (frame_cell_owners s)).

(** Register names of the innermost frame with a cell. *)
Definition own (names : list string) (id : Z) (s : InterpreterState) : InterpreterState :=
  match frame_cell_owners s with
  | [] => s
  | _ =>
      set_owners (removelast (frame_cell_owners s) ++ [fold_left (fun o n => <[n := id]> o) names (owners_of s)]) s
  end.

Definition fresh_cell (s : InterpreterState) : Z * InterpreterState :=
  (next_nonlocal_cell_id s, set_next_cell (wrap64 (next_nonlocal_cell_id s + 1)) s).

Definition cell_insert (id : Z) (name : string) (value : Value) (s : InterpreterState) : InterpreterState :=
  set_cells (<[id := <[name := value]> (default ∅ (nonlocal_cells s !! id))]> (nonlocal_cells s)) s.

Definition ensure_cell (s : InterpreterState) (name : string) : InterpreterState * list (string * Z) :=
  match variables s !! name with
  | None => (s, [])
  | Some current =>
      match owners_of s !! name with
      | Some id => (s, [(name, id)])
      | None =>
          let (id, s) := fresh_cell s in
          (own [name] id (cell_insert id name current s), [(name, id)])
      end
  end.

Definition ensure_capture_cells (s : InterpreterState) (free_names : list string) :
    InterpreterState * list (string * Z) :=
  match frame_cell_owners s with
  | [] => (s, [])
  | _ => fold_left (fun acc n => let (s, new) := ensure_cell acc.1 n in (s, acc.2 ++ new)) free_names (s, [])
  end.

Definition resolve_closure_cells (s : InterpreterState) (body : list PyStmt) (closure : list (string * Value)) :
    InterpreterState * (list string * option Z * list (string * Z)) :=
  let nonlocals := collect_nonlocal_names body in
  let refreshes s :=
    match list.last (frame_cell_owners s) with
    | None => []
    | Some owners =>
        omap (fun name => if bool_decide (name ∈ nonlocals) then None else (fun id => (name, id)) <$> owners !! name)
             closure.*1
    end in
  if is_nil nonlocals then (s, (nonlocals, None, refreshes s))
  else
    let existing := head (omap (fun n => owners_of s !! n) nonlocals) in
    let (id, s) := match existing with Some id => (id, s) | None => fresh_cell s end in
    let already := default ∅ (nonlocal_cells s !! id) in
    let seeded := fold_left (fun cell n => match already !! n, variables s !! n with
                                           | None, Some v => <[n := v]> cell
                                           | _, _ => cell
                                           end) nonlocals already in
    let s := own nonlocals id (set_cells (<[id := seeded]> (nonlocal_cells s)) s) in
    (s, (nonlocals, Some id, refreshes s)).

(** ** Definitions *)

Definition param_names (p : FunctionParams) : list string :=
  (p_name <$> args p) ++ (p_name <$> kwonlyargs p) ++ option_list (vararg p) ++ option_list (kwarg p).

Definition extract_docstring (body : list PyStmt) : option string :=
  match body with At _ (SExpr (EConstant (CStr t))) :: _ => Some (text_name t) | _ => None end.

(** The bytes [start..stop] of the source. *)
Definition source_slice (src : string) (start stop : Z) (otherwise : string) : string :=
  let n := Z.of_nat (String.length src) in
  if (start <? n) && (stop <=? n) && (start <? stop)
  then substring (Z.to_nat start) (Z.to_nat (stop - start)) src
  else otherwise.

(** The variables in the order of a [BTreeMap]: by the bytes of their names. *)
Definition name_leb (a b : string * Value) : bool := negb (bytes_ltb (string_bytes b.1) (string_bytes a.1)).
Fixpoint insert_name (b : string * Value) (bs : list (string * Value)) : list (string * Value) :=
  match bs with
  | [] => [b]
  | c :: bs' => if name_leb b c then b :: bs else c :: insert_name b bs'
  end.
Definition snapshot (s : InterpreterState) : list (string * Value) := foldr insert_name [] (map_to_list (variables s)).

(** The cell of a nested function that reads its own name. *)
Definition self_recursion_cell (s : InterpreterState) (name : string) (free : list string) (body : list PyStmt) :
    InterpreterState * option (string * Z) :=
  if (call_depth s >? 0) && bool_decide (name ∈ free) && negb (bool_decide (name ∈ collect_nonlocal_names body)) then
    let (id, s) := match owners_of s !! name with Some id => (id, s) | None => fresh_cell s end in
    let s := own [name] id s in
    let cell := default ∅ (nonlocal_cells s !! id) in
    let s := match cell !! name with
             | Some _ => set_cells (<[id := cell]> (nonlocal_cells s)) s
             | None => cell_insert id name VNone s
             end in
    (s, Some (name, id))
  else (s, None).

(** The annotations that evaluate; the others are dropped. *)
Fixpoint eval_annotations (s : InterpreterState) (specs : list (string * option PyExpr)) : Eval (list (string * Value)) :=
  match specs with
  | [] => done s (Ok [])
  | (_, None) :: specs => eval_annotations s specs
  | (name, Some e) :: specs =>
      match eval_expr s e with
      | (s, Ok v) => let? (s, rest) := eval_annotations s specs in done s (Ok ((name, v) :: rest))
      | (s, Err _) => eval_annotations s specs
      | (s, Panic) => (s, Panic)
      end
  end.

Definition annotation_spec (a : Argument) : string * option PyExpr :=
  match a with mkArgument n ann _ => (n, ann) end.

Definition annotation_specs (a : Arguments) (returns : option PyExpr) : list (string * option PyExpr) :=
  match a with
  | mkArguments po args ko v k =>
      map annotation_spec (po ++ args ++ option_list v ++ ko ++ option_list k) ++ [("return"%string, returns)]
  end.

Fixpoint apply_decorators (s : InterpreterState) (decorators : list PyExpr) (func : Value) : Eval Value :=
  match decorators with
  | [] => done s (Ok func)
  | d :: decorators =>
      let? (s, dec) := eval_expr s d in
      let? (s, func) := apply_decorator s dec func in
      apply_decorators s decorators func
  end.

Definition alloc_function (f : FunctionDef) (s : InterpreterState) : Value * InterpreterState :=
  let l := fresh (dom (functions s)) in (VFunction l, set_functions (<[l := f]> (functions s)) s).

Definition alloc_lambda (d : LambdaDef) (s : InterpreterState) : Value * InterpreterState :=
  let l := fresh (dom (lambdas s)) in (VLambda l, set_lambdas (<[l := d]> (lambdas s)) s).

(** [eval_function_def_with]; [start] is the offset of the definition. *)
Definition eval_function_def_with (s : InterpreterState) (start : Z) (node : FunctionNode) (is_async : bool) :
    Eval Value :=
  let '(mkFunction name a body decorators returns) := node in
  let? (s, _) := done s (validate_name FunctionDefinition name) in
  if is_tool name then done s (fail (Security ("'" ++ name ++ "' is not allowed to be overridden")))
  else
    let? (s, p) := done s (build_function_params a) in
    let? (s, p) := evaluate_param_defaults eval_expr s p in
    let body_key := (name ++ "#" ++ pretty (next_cursor_id s))%string in
    let s := set_lazy (lazy_cursors s) (wrap64 (next_cursor_id s + 1)) s in
    let s := set_program (classes s) (<[body_key := body : list Stmt]> (function_bodies s)) (lambda_bodies s) s in
    let src := source_slice (current_source s) start (function_stop node) ("def " ++ name ++ "(): pass") in
    let closure := snapshot s in
    let bound := param_names p ++ (collect_assigned_names body).1 in
    let free := collect_free_names bound body in
    let (s, _) := ensure_capture_cells s free in
    let (s, self_cell) := self_recursion_cell s name free body in
    let '(s, (nonlocals, cell_id, refreshes)) := resolve_closure_cells s body closure in
    let refreshes := match self_cell with
                     | Some c => if has_cell refreshes c.1 then refreshes else refreshes ++ [c]
                     | None => refreshes
                     end in
    let (assigned, globals) := collect_assigned_names body in
    let assigned :=
      List.filter (fun n => negb (bool_decide (n ∈ nonlocals)) && negb (bool_decide (n ∈ globals))) assigned in
    let module_level := call_depth s =? 0 in
    let qualname := qualname_for s name in
    let? (s, annotations) := eval_annotations s (annotation_specs a returns) in
    let (func, s) :=
      alloc_function (mkFunctionDef name body_key p closure src nonlocals (contains_yield_stmts body) None cell_id
                        assigned globals module_level (extract_docstring body) refreshes qualname annotations is_async) s in
    let? (s, func) := apply_decorators s (rev decorators) func in
    let? (s, _) := set_named s name func in
    done s (Ok VNone).

Definition eval_function_def (s : InterpreterState) (start : Z) (node : FunctionNode) : Eval Value :=
  eval_function_def_with s start node false.

(** [eval_lambda_def] of the expression [node]. *)
Definition eval_lambda_def (s : InterpreterState) (a : Arguments) (body : PyExpr) : Eval Value :=
  let node := ELambda a body in
  let? (s, p) := done s (build_function_params a) in
  let? (s, p) := evaluate_param_defaults eval_expr s p in
  let id := ("__lambda_" ++ pretty (base.size (lambda_bodies s)))%string in
  let s := set_program (classes s) (function_bodies s) (<[id := body : Expr]> (lambda_bodies s)) s in
  let src := source_slice (current_source s) (expr_start node) (expr_stop node) "lambda: None" in
  let closure := snapshot s in
  let assigned := collect_walrus_targets body [] in
  let module_level := call_depth s =? 0 in
  let bound := param_names p ++ assigned in
  let free := retain_unbound bound (collect_reads_expr body []) in
  let (s, refreshes) := ensure_capture_cells s free in
  let qualname := qualname_for s "<lambda>" in
  let (v, s) := alloc_lambda (mkLambdaDef p id src closure assigned module_level refreshes qualname) s in
  done s (Ok v).
End Definitions.
