(* ===== verification/Match.v ===== *)
(** Structural pattern matching (eval/match_stmt.rs): a pattern yields the
    bindings of its captures, which are made once the whole pattern has matched;
    then the guard is tried. *)
From Stdlib Require Import ZArith Lia Ascii String SpecFloat.
From stdpp Require Import base tactics list numbers option strings pretty gmap.
From S2P Require Import Prelude PySet Values Errors F64 Keys Arith Classes Slices Compare Operators State Exceptions Op Syntax Host Displays Eval.

Section Match.
Context `{External} `{!ExternalOrder} `{!Platform} `{!Formats} `{!Calls} `{!Estimates} `{!Environment} `{!Host}.

(** The captures, in the order they are bound; [None] is no match. *)
Abbreviation Bindings := (list (string * Value)).
Abbreviation Matched := (Eval (option Bindings)).

Definition no_match (s : InterpreterState) : Matched := done s (Ok None).
Definition matched (s : InterpreterState) (b : Bindings) : Matched := done s (Ok (Some b)).

(** Both parts have to match; the first one's captures come first. *)
Definition both (m : Matched) (k : InterpreterState -> Matched) : Matched :=
  let? (s, b) := m in
  match b with
  | None => no_match s
  | Some b => let? (s, b') := k s in done s (Ok (app b <$> b'))
  end.

Definition matches_if (s : InterpreterState) (same : Eval bool) : Matched :=
  let? (s, b) := same in if b : bool then matched s [] else no_match s.

(** [values_equal_pub]. *)
Definition same_value (s : InterpreterState) (v subject : Value) : Eval bool :=
  walk s (scan (values_equal structural_eq EQ_RECURSION_LIMIT none_held (heap s) v subject)).

(** ** Class patterns *)

Definition subject_is_instance_of (s : InterpreterState) (obj : Value) (type : string) : bool :=
  if bool_decide (type = "object"%string) then true
  else match obj with
       | VInstance name _ =>
           bool_decide (name = type) ||
           match classes s !! name with Some class => bool_decide (type ∈ mro class) | None => false end
       | _ =>
           bool_decide (type_name obj = type) ||
           match obj with
           | VBool _ => bool_decide (type = "int"%string)
           | VCounter _ => bool_decide (type = "dict"%string)
           | _ => false
           end
       end.

(** The types whose single positional pattern is the subject itself. *)
Definition builtin_single_positional (cls : string) : bool :=
  bool_decide (cls ∈ ["int"; "str"; "float"; "bool"; "bytes"; "bytearray"; "dict"; "frozenset"; "list"; "set";
                      "tuple"; "Counter"]%string).

Fixpoint match_arg_names (cls : string) (items : list Value) : EvalResult (list string) :=
  match items with
  | [] => Ok []
  | VString n :: items => ns ← match_arg_names cls items; Ok (text_name n :: ns)
  | v :: _ =>
      fail (TypeError (cls ++ ".__match_args__ entries must be strings (got '" ++ type_name v ++ "')"))
  end.

Definition lookup_match_args (s : InterpreterState) (cls : string) : EvalResult (list string) :=
  match classes s !! cls ≫= (fun c => class_attrs c !! "__match_args__"%string) with
  | None => Ok []
  | Some (VTuple items) => match_arg_names cls items
  | Some v => fail (TypeError (cls ++ ".__match_args__ must be a tuple (got '" ++ type_name v ++ "')"))
  end.

Definition too_many_patterns {A} (cls : string) (accepted given : nat) : EvalResult A :=
  fail (TypeError (cls ++ "() accepts " ++ pretty accepted ++ " positional sub-patterns (" ++ pretty given ++ " given)")).

(** ** Patterns

    The parts of a compound pattern, over the match of a sub-pattern. *)

Section Parts.
Variable matches : InterpreterState -> Pattern -> Value -> Matched.

(** Alternatives, the first that matches. *)
Fixpoint match_any (s : InterpreterState) (patterns : list Pattern) (subject : Value) : Matched :=
  match patterns with
  | [] => no_match s
  | p :: patterns =>
      let? (s, b) := matches s p subject in
      match b with Some b => matched s b | None => match_any s patterns subject end
  end.

Definition is_star (p : Pattern) : bool := match p with PStar _ => true | _ => false end.

Definition bind_star (s : InterpreterState) (name : option string) (items : list Value) : Matched :=
  match name with
  | Some n => let (l, h) := shared_list (heap s) items in matched (set_heap h s) [(n, VList l)]
  | None => matched s []
  end.

(** Items one by one. [share] is the number of items the star takes, [None]
    after the star: a second one matches nothing. *)
Fixpoint match_items (s : InterpreterState) (patterns : list Pattern) (items : list Value) (share : option nat) :
    Matched :=
  match patterns with
  | [] => matched s []
  | p :: patterns =>
      match p, share with
      | PStar name, Some n =>
          both (match_items s patterns (drop n items) None) (fun s => bind_star s name (take n items))
      | _, _ =>
          match items with
          | v :: items => both (matches s p v) (fun s => match_items s patterns items share)
          | [] => matched s []
          end
      end
  end.

Definition match_sequence (s : InterpreterState) (patterns : list Pattern) (subject : Value) : Matched :=
  let with_items items :=
    let n := length patterns in
    let got := length items in
    if existsb is_star patterns then
      if (got <? n - 1)%nat then no_match s else match_items s patterns items (Some (got - (n - 1))%nat)
    else if (got =? n)%nat then match_items s patterns items None else no_match s in
  match subject with
  | VList l => with_items (list_at (heap s) l)
  | VTuple items => with_items items
  | _ => no_match s
  end.

(** The entries of a mapping pattern, with the keys it used. *)
Fixpoint match_entries (s : InterpreterState) (es : list (ValueKey * Value)) (keys : list PyExpr)
    (patterns : list Pattern) {struct patterns} : Eval (option (Bindings * list ValueKey)) :=
  match keys, patterns with
  | k :: keys, p :: patterns =>
      let? (s, kv) := eval_expr s k in
      let? (s, key) := done s (value_to_key address (heap s) nesting kv) in
      match im_get (key_eqb structural_eq) es key with
      | None => done s (Ok None)
      | Some v =>
          let? (s, b) := matches s p v in
          match b with
          | None => done s (Ok None)
          | Some b =>
              let? (s, rest) := match_entries s es keys patterns in
              done s (Ok ((fun r => (b ++ r.1, key :: r.2)) <$> rest))
          end
      end
  | _, _ => done s (Ok (Some ([], [])))
  end.

Definition match_mapping (s : InterpreterState) (keys : list PyExpr) (patterns : list Pattern)
    (rest : option string) (subject : Value) : Matched :=
  match subject with
  | VDict l =>
      let es := dict_at (heap s) l in
      let? (s, m) := match_entries s es keys patterns in
      match m with
      | None => no_match s
      | Some (b, used) =>
          match rest with
          | None => matched s b
          | Some name =>
              let remaining :=
                List.filter (fun kv => negb (existsb (fun k => key_eqb structural_eq k kv.1) used)) es in
              let (l', h) := shared_dict (heap s) remaining in
              matched (set_heap h s) (b ++ [(name, VDict l')])
          end
      end
  | _ => no_match s
  end.

(** Positional sub-patterns against the attributes [__match_args__] names. *)
Fixpoint match_positional (s : InterpreterState) (cls : string) (names : list string) (kwd_attrs : list string)
    (patterns : list Pattern) (subject : Value) {struct patterns} : Matched :=
  match names, patterns with
  | name :: names, p :: patterns =>
      if bool_decide (name ∈ kwd_attrs) then
        done s (fail (TypeError (cls ++ "() got multiple sub-patterns for attribute '" ++ name ++ "'")))
      else
        let? (s, v) := done s (host_match_attribute s subject name) in
        both (matches s p v) (fun s => match_positional s cls names kwd_attrs patterns subject)
  | _, _ => matched s []
  end.

Fixpoint match_keywords (s : InterpreterState) (names : list string) (patterns : list Pattern) (subject : Value)
    {struct patterns} : Matched :=
  match names, patterns with
  | name :: names, p :: patterns =>
      let? (s, v) := done s (host_match_attribute s subject name) in
      both (matches s p v) (fun s => match_keywords s names patterns subject)
  | _, _ => matched s []
  end.

Definition match_class (s : InterpreterState) (cls : option string) (patterns : list Pattern)
    (kwd_attrs : list string) (kwd_patterns : list Pattern) (subject : Value) : Matched :=
  match cls with
  | None => done s (fail (Runtime "class pattern class must be a bare name or module attribute"))
  | Some cls =>
      let keywords s := match_keywords s kwd_attrs kwd_patterns subject in
      if negb (subject_is_instance_of s subject cls) then no_match s
      else if builtin_single_positional cls then
        match patterns with
        | [] => keywords s
        | [p] => both (matches s p subject) keywords
        | _ => done s (too_many_patterns cls 0 (length patterns))
        end
      else match patterns with
           | [] => keywords s
           | _ =>
               let? (s, names) := done s (lookup_match_args s cls) in
               if (length names <? length patterns)%nat
               then done s (too_many_patterns cls (length names) (length patterns))
               else both (match_positional s cls names kwd_attrs patterns subject) keywords
           end
  end.
End Parts.

Fixpoint pattern_matches (s : InterpreterState) (pattern : Pattern) (subject : Value) {struct pattern} : Matched :=
  match pattern with
  | PValue e => let? (s, v) := eval_expr s e in matches_if s (same_value s v subject)
  | PSingleton c => matches_if s (same_value s (eval_constant c) subject)
  | PAs inner name =>
      both match inner with Some p => pattern_matches s p subject | None => matched s [] end
           (fun s => matched s match name with Some n => [(n, subject)] | None => [] end)
  | POr patterns => match_any pattern_matches s patterns subject
  | PSequence patterns => match_sequence pattern_matches s patterns subject
  | PMapping keys patterns rest => match_mapping pattern_matches s keys patterns rest subject
  | PStar _ => no_match s
  | PClass cls patterns kwd_attrs kwd_patterns =>
      match_class pattern_matches s cls patterns kwd_attrs kwd_patterns subject
  end.

(** ** The statement *)

Fixpoint bind_all (s : InterpreterState) (b : Bindings) : Eval () :=
  match b with
  | [] => done s (Ok ())
  | (name, v) :: b => let? (s, _) := lift_call (set_variable size name v s) in bind_all s b
  end.

Section Cases.
Variable body_of : InterpreterState -> list PyStmt -> Eval Value.

(** A failing guard leaves the case's bindings in place. *)
Fixpoint eval_cases (s : InterpreterState) (cases : list MatchCase) (subject : Value) : Eval Value :=
  match cases with
  | [] => done s (Ok VNone)
  | mkCase pattern guard body :: cases =>
      let? (s, b) := pattern_matches s pattern subject in
      match b with
      | None => eval_cases s cases subject
      | Some b =>
          let? (s, _) := bind_all s b in
          match guard with
          | None => body_of s body
          | Some g =>
              let? (s, v) := eval_expr s g in
              let? (s, pass) := truthy s v in
              if pass : bool then body_of s body else eval_cases s cases subject
          end
      end
  end.

Definition eval_match (s : InterpreterState) (subject : PyExpr) (cases : list MatchCase) : Eval Value :=
  let? (s, v) := eval_resolved eval_expr s subject in eval_cases s cases v.
End Cases.
End Match.
