(* ===== verification/Stmts.v ===== *)
(** Execution of statements (eval/mod.rs, eval/control_flow.rs,
    eval/statements.rs, eval/exceptions.rs): assignment, conditionals, loops,
    [with], [raise], [assert], and the dispatcher that counts a statement, guards
    a compound one and stamps its line on an escaping error. *)
From Stdlib Require Import ZArith Lia Ascii String SpecFloat.
From stdpp Require Import base tactics list numbers option strings pretty gmap.
From S2P Require Import Prelude PySet Values Errors F64 Keys Arith Classes Slices Compare Operators State Exceptions Op Syntax Host Displays Eval Definitions Match.

Section Stmts.
Context `{External} `{!ExternalOrder} `{!Platform} `{!Formats} `{!Calls} `{!Estimates} `{!Environment} `{!Host}.

(** ** Lines *)

(** The source the offsets of the running statements point into. *)
Definition active_source (s : InterpreterState) : list Z :=
  string_bytes (default (current_source s) (list.last (body_source_stack s))).

(** The 1-based line of a byte offset. *)
Definition line_of (source : list Z) (offset : Z) : Z :=
  if offset >? Z.of_nat (length source) then 1
  else Z.of_nat (length (List.filter (fun b => b =? 10) (take (Z.to_nat offset) source))) + 1.

Definition already_stamped (m : string) : bool := if rfind "at line " m is Some _ then true else false.

Definition stamp_message (line : Z) (m : string) : string :=
  if already_stamped m then m else m ++ " (at line " ++ pretty line ++ ")".

Definition stamp_line (err : EvalError) (line : Z) : EvalError :=
  let stamp := stamp_message line in
  match err with
  | Signal _ => err
  | Interpreter inner =>
      Interpreter match inner with
                  | Errors.Syntax _ | RecursionLimitExceeded _ | StateFormatSuperseded _ _ => inner
                  | Security m => Security (stamp m)
                  | Runtime m => Runtime (stamp m)
                  | LimitExceeded m => LimitExceeded (stamp m)
                  | NameError m => NameError (stamp m)
                  | TypeError m => TypeError (stamp m)
                  | ValueError m => ValueError (stamp m)
                  | AttributeError m => AttributeError (stamp m)
                  | AssertionError m => AssertionError (stamp m)
                  | ToolError tool_name message => ToolError tool_name (stamp message)
                  | PythonException _ _ => inner
                  end
  | Exception (mkException t m c a None x f) => Exception (mkException t m c a (Some (Z.min line u32_max)) x f)
  | Exception _ => err
  end.

Definition stamped {A} (line : Z) (m : Eval A) : Eval A :=
  match m with (s, Err e) => (s, Err (stamp_line e line)) | _ => m end.

(** ** Assignment *)

Definition PROTECTED_BUILTINS : list string :=
  ["print"; "len"; "range"; "str"; "int"; "float"; "bool"; "type"; "isinstance"; "issubclass";
   "super"; "hasattr"; "callable"; "abs"; "round"; "min"; "max"; "sum"; "all"; "any"; "sorted";
   "enumerate"; "zip"; "reversed"; "chr"; "ord"; "list"; "tuple"; "dict"; "set"; "filter"; "map";
   "object"]%string.

Definition assign_name (s : InterpreterState) (name : string) (value : Value) : Eval () :=
  let? (s, _) := done s (validate_name Assignment name) in
  if is_tool name || bool_decide (name ∈ PROTECTED_BUILTINS)
  then done s (fail (Security ("cannot assign to name '" ++ name ++
                               "': doing this would erase the existing tool")))
  else lift_call (set_variable size name value s).

Definition is_starred (e : PyExpr) : bool := match e with EStarred _ => true | _ => false end.

(** The items an unpacking assignment takes from its value. *)
Definition unpacked_items (s : InterpreterState) (value : Value) : Eval (list Value) :=
  match value with
  | VLazy _ _ _ | VGenerator _ | VInstance _ _ => iter nesting s value
  | _ => in_heap s (value_to_iterable structural_eq set_elem (heap s) value)
  end.

(** How many items the starred target takes, when the counts fit. *)
Definition star_share (elts : list PyExpr) (items : list Value) : EvalResult nat :=
  let n := length elts in
  let got := length items in
  match List.filter is_starred elts with
  | [] =>
      if (got <? n)%nat then
        fail (ValueError ("not enough values to unpack (expected " ++ pretty n ++ ", got " ++ pretty got ++ ")"))
      else if (n <? got)%nat then fail (ValueError ("too many values to unpack (expected " ++ pretty n ++ ")"))
      else Ok 0%nat
  | [_] =>
      let non_star := (n - 1)%nat in
      if (got <? non_star)%nat then
        fail (ValueError ("not enough values to unpack (expected at least " ++ pretty non_star ++
                          ", got " ++ pretty got ++ ")"))
      else Ok (got - non_star)%nat
  | _ => fail (Runtime "multiple starred expressions in assignment")
  end.

Section Unpacking.
Variable assign : InterpreterState -> PyExpr -> Value -> Eval ().

Fixpoint assign_elements (s : InterpreterState) (elts : list PyExpr) (items : list Value) (share : nat) :
    Eval () :=
  match elts with
  | [] => done s (Ok ())
  | EStarred e :: elts =>
      let (l, h) := shared_list (heap s) (take share items) in
      let? (s, _) := assign (set_heap h s) e (VList l) in
      assign_elements s elts (drop share items) share
  | e :: elts =>
      match items with
      | v :: items => let? (s, _) := assign s e v in assign_elements s elts items share
      | [] => done s (Ok ())
      end
  end.

Definition assign_unpacking (s : InterpreterState) (elts : list PyExpr) (value : Value) : Eval () :=
  let? (s, items) := unpacked_items s value in
  let? (s, share) := done s (star_share elts items) in
  assign_elements s elts items share.
End Unpacking.

(** [assign_target]; attributes and subscripts are targets of the host. *)
Fixpoint assign_target (s : InterpreterState) (target : PyExpr) (value : Value) {struct target} : Eval () :=
  match target with
  | EName name => assign_name s name value
  | ETuple elts | EList elts => assign_unpacking assign_target s elts value
  | EAttribute _ _ | ESubscript _ _ => host_assign s target value
  | _ => done s (fail (Runtime ("unsupported assignment target: " ++ discriminant (inl target))))
  end.

Fixpoint assign_targets (s : InterpreterState) (targets : list PyExpr) (value : Value) : Eval () :=
  match targets with
  | [] => done s (Ok ())
  | t :: targets => let? (s, _) := assign_target s t value in assign_targets s targets value
  end.

Definition eval_assign (s : InterpreterState) (targets : list PyExpr) (value : PyExpr) : Eval Value :=
  let? (s, v) := eval_expr s value in
  let? (s, _) := assign_targets s targets v in
  done s (Ok VNone).

Definition eval_ann_assign (s : InterpreterState) (target : PyExpr) (value : option PyExpr) : Eval Value :=
  match value with
  | Some value =>
      let? (s, v) := eval_expr s value in
      let? (s, _) := assign_target s target v in
      done s (Ok VNone)
  | None => done s (Ok VNone)
  end.

Definition apply_mem_delta (s : InterpreterState) (delta : Z) : Eval () :=
  if delta >=? 0 then lift_call (track_allocation delta s) else done (release_allocation (- delta) s) (Ok ()).

(** [eval_aug_assign] on a bare name: the variable is read before the right-hand
    side runs, and its slot overwritten after. *)
Definition aug_assign_name (s : InterpreterState) (name : string) (op : Operator) (value : PyExpr) : Eval Value :=
  let? (s, _) := guarded s (fun s => done s (Ok ())) in
  match get_variable name s with
  | None => done s (fail (name_not_defined name))
  | Some current =>
      let old_size := size (heap s) current in
      let? (s, rhs) := eval_expr s value in
      let? (s, new_value) := aug_binop nesting s op current rhs in
      match get_variable name s with
      | None => done s (fail (name_not_defined name))
      | Some _ =>
          let delta := size_delta old_size (size (heap s) new_value) in
          let s := set_variables (<[name := new_value]> (variables s)) s in
          let? (s, _) := apply_mem_delta s delta in
          done (write_through name new_value s) (Ok VNone)
      end
  end.

Definition eval_aug_assign (s : InterpreterState) (target : PyExpr) (op : Operator) (value : PyExpr) : Eval Value :=
  match target with
  | EName name => aug_assign_name s name op value
  | EAttribute _ _ | ESubscript _ _ => host_aug_assign s target op value
  | _ =>
      let? (s, _) := guarded s (fun s => done s (Ok ())) in
      done s (fail (Runtime
        "unsupported augmented assignment target (see CONFORMANCE.md#unsupported-language-features)"))
  end.

(** ** [raise] and [assert] *)

Definition eval_opt (s : InterpreterState) (e : option PyExpr) : Eval (option Value) :=
  match e with
  | Some e => let? (s, v) := eval_expr s e in done s (Ok (Some v))
  | None => done s (Ok None)
  end.

Definition set_cause (e : ExceptionValue) (cause : option ExceptionValue) : ExceptionValue :=
  match e with mkException t m _ a l x f => mkException t m cause a l x f end.

Definition raised (exc : ExceptionValue) (explicit_from : bool) : EvalError :=
  Exception (with_fields exc (bt_insert (exc_fields exc) "__suppress_context__" (VBool explicit_from))).

Definition eval_raise (s : InterpreterState) (exc cause : option PyExpr) : Eval Value :=
  match exc with
  | None =>
      done s match list.last (active_exception_stack s) with
             | Some e => Err (Exception e)
             | None => fail (Runtime "No active exception to re-raise")
             end
  | Some exc_expr =>
      let? (s, exc_val) := eval_expr s exc_expr in
      let? (s, from) := eval_opt s cause in
      let attached := match from with Some (VException e) => Some e | _ => None end in
      let explicit := if cause is Some _ then true else false in
      let fresh name := done s (Err (raised (set_cause (ExceptionValue_new name []) attached) explicit)) in
      match exc_val with
      | VException e => done s (Err (raised (set_cause e attached) explicit))
      | VExceptionType name => fresh name
      | _ =>
          let name := text_name (display (heap s) exc_val) in
          if is_exception_type_name name then fresh name
          else done s (fail (TypeError ("exceptions must derive from BaseException, not '" ++ type_name exc_val ++ "'")))
      end
  end.

Definition eval_assert (s : InterpreterState) (test : PyExpr) (msg : option PyExpr) : Eval Value :=
  let? (s, v) := eval_expr s test in
  let? (s, holds) := truthy s v in
  if holds : bool then done s (Ok VNone)
  else
    let? (s, msg) := eval_opt s msg in
    let message := match msg with Some m => display (heap s) m | None => [] end in
    done s (Err (Exception (ExceptionValue_new "AssertionError" message))).

(** ** Blocks and loops

    [exec] is the evaluation of a statement. *)

Section Blocks.
Variable exec : InterpreterState -> PyStmt -> Eval Value.

(** The last value of a list of statements; [result] is the value so far. *)
Fixpoint eval_block (s : InterpreterState) (body : list PyStmt) (result : Value) : Eval Value :=
  match body with
  | [] => done s (Ok result)
  | stmt :: body => let? (s, v) := exec s stmt in eval_block s body v
  end.

Definition eval_body (s : InterpreterState) (body : list PyStmt) : Eval Value := eval_block s body VNone.

Definition eval_if (s : InterpreterState) (test : PyExpr) (body orelse : list PyStmt) : Eval Value :=
  let? (s, cond) := eval_condition eval_expr s test in
  if cond : bool then eval_body s body else eval_body s orelse.

(** One round of a loop's body: the value so far, and whether it broke. *)
Fixpoint run_round (s : InterpreterState) (body : list PyStmt) (result : Value) : Eval (Value * bool) :=
  match body with
  | [] => done s (Ok (result, false))
  | stmt :: body =>
      match exec s stmt with
      | (s, Ok v) => run_round s body v
      | (s, Err (Signal Continue)) => done s (Ok (result, false))
      | (s, Err (Signal Break)) => done s (Ok (result, true))
      | (s, Err e) => done s (Err e)
      | (s, Panic) => (s, Panic)
      end
  end.

Definition run_for_body (target : PyExpr) (body : list PyStmt) (s : InterpreterState) (item result : Value) :
    Eval (Value * bool) :=
  let? (s, _) := assign_target s target item in run_round s body result.

Section For.
(** One iteration: the item, the value so far. *)
Variable round : InterpreterState -> Value -> Value -> Eval (Value * bool).

Fixpoint for_items (s : InterpreterState) (items : list Value) (result : Value) : Eval (Value * bool) :=
  match items with
  | [] => done s (Ok (result, false))
  | item :: items =>
      let? (s, out) := round s item result in
      if out.2 : bool then done s (Ok out) else for_items s items out.1
  end.

(** The walk over a range; [fuel] is more than its length. *)
Fixpoint for_range (fuel : nat) (s : InterpreterState) (stop step i : Z) (result : Value) : Eval (Value * bool) :=
  match fuel with
  | O => (s, Panic)
  | S fuel =>
      if ((step >? 0) && (i <? stop)) || ((step <? 0) && (i >? stop)) then
        let? (s, out) := round s (VInt i) result in
        if out.2 : bool then done s (Ok out)
        else match checked (i + step) with
             | Some next => for_range fuel s stop step next out.1
             | None => done s (Ok (out.1, false))
             end
      else done s (Ok (result, false))
  end.

(** An iterator is stepped before every round; a walk longer than the bound is
    taken not to return. *)
Fixpoint for_iterator (bound : nat) (s : InterpreterState) (iterator result : Value) : Eval (Value * bool) :=
  match bound with
  | O => (s, Panic)
  | S bound =>
      match next_item s iterator with
      | (s, Ok item) =>
          let? (s, out) := round s item result in
          if out.2 : bool then done s (Ok out) else for_iterator bound s iterator out.1
      | (s, Err (Exception e)) =>
          if bool_decide (exc_type_name e = "StopIteration"%string) then done s (Ok (result, false))
          else done s (Err (Exception e))
      | (s, Err e) => done s (Err e)
      | (s, Panic) => (s, Panic)
      end
  end.
End For.

(** The [else] block of a loop runs unless the loop broke. *)
Definition loop_else (s : InterpreterState) (orelse : list PyStmt) (out : Value * bool) : Eval Value :=
  if out.2 then done s (Ok out.1) else eval_block s orelse out.1.

Definition for_loop (round : InterpreterState -> Value -> Value -> Eval (Value * bool)) (s : InterpreterState)
    (iterable : Value) : Eval (Value * bool) :=
  match iterable with
  | VRange start stop step => for_range round (S (Z.to_nat (range_count start stop step))) s stop step start VNone
  | VBuiltinIter _ _ | VGenerator _ => for_iterator round (iterator_bound s) s iterable VNone
  | _ => let? (s, items) := iter nesting s iterable in for_items round s items VNone
  end.

Definition eval_for (s : InterpreterState) (target iter_expr : PyExpr) (body orelse : list PyStmt) : Eval Value :=
  let? (s, iterable) := eval_resolved eval_expr s iter_expr in
  let? (s, out) := for_loop (run_for_body target body) s iterable in
  loop_else s orelse out.

(** [rounds] is what is left of [max_while_iterations]. *)
Fixpoint while_rounds (rounds : nat) (max_iters : Z) (s : InterpreterState) (test : PyExpr)
    (body : list PyStmt) (result : Value) : Eval (Value * bool) :=
  match rounds with
  | O => done s (fail (LimitExceeded ("while loop exceeded maximum iterations (" ++ pretty max_iters ++ ")")))
  | S rounds =>
      let? (s, cond) := eval_condition eval_expr s test in
      if negb cond then done s (Ok (result, false))
      else
        let? (s, out) := run_round s body result in
        if out.2 : bool then done s (Ok out) else while_rounds rounds max_iters s test body out.1
  end.

Definition eval_while (s : InterpreterState) (test : PyExpr) (body orelse : list PyStmt) : Eval Value :=
  let max_iters := max_while_iterations (config s) in
  let? (s, out) := while_rounds (Z.to_nat max_iters) max_iters s test body VNone in
  loop_else s orelse out.

(** ** [with] *)

Definition REDIRECT_STDOUT_CLASS : string := "contextlib.redirect_stdout".

Definition call_context_method (s : InterpreterState) (receiver : Value) (method : string) (args : list Value) :
    Eval Value :=
  let host := host_context_method s receiver method args in
  match receiver with
  | VInstance class_name fields =>
      if bool_decide (class_name = REDIRECT_STDOUT_CLASS) then
        if bool_decide (method = "__enter__"%string) then
          match field_get (default [] (instance_fields (heap s) !! fields)) "target" with
          | Some (VStringIO io) => done (set_redirects (stdout_redirects s ++ [io]) s) (Ok (VStringIO io))
          | _ => host
          end
        else if bool_decide (method = "__exit__"%string)
        then done (set_redirects (removelast (stdout_redirects s)) s) (Ok (VBool false))
        else host
      else host
  | VStringIO _ =>
      done s (if bool_decide (method = "__enter__"%string) then Ok receiver
              else if bool_decide (method = "__exit__"%string) then Ok (VBool false)
              else fail (AttributeError ("'_io.StringIO' object has no attribute '" ++ method ++ "'")))
  | _ => done s (fail (AttributeError ("'" ++ type_name receiver ++ "' object has no attribute '" ++ method ++ "'")))
  end.

(** Entering the managers in order, each bound to its [as] target. *)
Fixpoint enter_managers (s : InterpreterState) (items : list WithItem) : Eval (list Value) :=
  match items with
  | [] => done s (Ok [])
  | item :: items =>
      let? (s, cm) := eval_resolved eval_expr s (context_expr item) in
      let? (s, entered) := call_context_method s cm "__enter__" [] in
      let? (s, _) := match optional_vars item with
                     | Some var => assign_target s var entered
                     | None => done s (Ok ())
                     end in
      let? (s, managers) := enter_managers s items in
      done s (Ok (cm :: managers))
  end.

Definition error_exception (err : EvalError) : option ExceptionValue :=
  match err with
  | Signal _ => None
  | Exception exc => Some exc
  | Interpreter ie => Some (interpreter_error_to_exception ie)
  end.

Definition build_exit_args (current : option EvalError) : bool * list Value :=
  match current ≫= error_exception with
  | Some exc => (true, [VExceptionType (exc_type_name exc); VException exc; VNone])
  | None => (false, [VNone; VNone; VNone])
  end.

(** The [__exit__] calls, in the order given, over the pending error. *)
Fixpoint exit_each (s : InterpreterState) (managers : list Value) (current : option EvalError) :
    Eval (option EvalError) :=
  match managers with
  | [] => done s (Ok current)
  | cm :: managers =>
      let (suppressible, args) := build_exit_args current in
      match call_context_method s cm "__exit__" args with
      | (s, Ok v) => exit_each s managers (if is_truthy (heap s) v && suppressible then None else current)
      | (s, Err e) => exit_each s managers (Some e)
      | (s, Panic) => (s, Panic)
      end
  end.

Definition exit_context_managers (s : InterpreterState) (managers : list Value) (body_err : option EvalError) :
    Eval () :=
  let signal := match body_err with Some (Signal c) => Some (Signal c) | _ => None end in
  let current := match signal with Some _ => None | None => body_err end in
  let? (s, current) := exit_each s (rev managers) current in
  done s match signal, current with
         | Some sig, _ => Err sig
         | None, Some err => Err err
         | None, None => Ok ()
         end.

Definition eval_with (s : InterpreterState) (items : list WithItem) (body : list PyStmt) : Eval Value :=
  let? (s, managers) := enter_managers s items in
  match eval_body s body with
  | (s, Panic) => (s, Panic)
  | (s, Ok v) => let? (s, _) := exit_context_managers s managers None in done s (Ok v)
  | (s, Err e) => let? (s, _) := exit_context_managers s managers (Some e) in done s (Ok VNone)
  end.
End Blocks.

(** ** Statements *)

Definition eval_return (s : InterpreterState) (value : option PyExpr) : Eval Value :=
  let? (s, v) := eval_opt s value in done s (Err (Signal (Return (default VNone v)))).

Definition except_handler (h : Handler) : @ExceptHandler python_trees :=
  match h with mkExceptHandler t n b => @mkHandler python_trees t n b end.

Definition try_node (body : list PyStmt) (handlers : list Handler) (orelse finalbody : list PyStmt) :
    @StmtTry python_trees :=
  @mkTry python_trees body (map except_handler handlers) orelse finalbody.

(** [eval_stmt]: the fuel bounds the nesting of blocks, and [exhausted] is what
    a statement does when there is none left. *)
Fixpoint eval_stmt_or (exhausted : InterpreterState -> Eval Value) (fuel : nat) (s : InterpreterState)
    (stmt : PyStmt) : Eval Value :=
  match fuel with
  | O => exhausted s
  | S fuel =>
      let exec := eval_stmt_or exhausted fuel in
      let '(At start node) := stmt in
      let line := line_of (active_source s) start in
      let? (s, _) := tick s in
      let plain (m : Eval Value) := stamped line m in
      let block (k : InterpreterState -> Eval Value) := guarded s (fun s => stamped line (k s)) in
      let evaluator := {| Exceptions.eval_body := eval_body exec : InterpreterState -> list Stmt -> _;
                          Exceptions.eval_expr := eval_expr : InterpreterState -> Expr -> _ |} in
      match node with
      | SExpr (EConstant _) => done s (Ok VNone)
      | SExpr value => plain (eval_expr s value)
      | SAssign targets value => plain (eval_assign s targets value)
      | SAugAssign target op value => plain (eval_aug_assign s target op value)
      | SAnnAssign target _ value => plain (eval_ann_assign s target value)
      | SIf test body orelse => block (fun s => eval_if exec s test body orelse)
      | SFor target iter_expr body orelse => block (fun s => eval_for exec s target iter_expr body orelse)
      | SWhile test body orelse => block (fun s => eval_while exec s test body orelse)
      | SBreak => done s (Err (Signal Break))
      | SContinue => done s (Err (Signal Continue))
      | SReturn value => plain (eval_return s value)
      | SRaise exc cause => plain (eval_raise s exc cause)
      | SAssert test msg => plain (eval_assert s test msg)
      | STry star body handlers orelse finalbody =>
          block (fun s =>
            (if star : bool then @eval_try_star _ _ evaluator else @eval_try _ _ evaluator)
              size structural_eq nesting s (try_node body handlers orelse finalbody))
      | SWith items body => block (fun s => eval_with exec s items body)
      | SMatch subject cases => block (fun s => eval_match (eval_body exec) s subject cases)
      | SPass | SGlobal _ | SNonlocal _ => done s (Ok VNone)
      | SAsyncFor _ _ _ _ | SAsyncWith _ _ | SClassDef _ _ _ _ _ => block (fun s => host_stmt s stmt)
      | SFunctionDef def => plain (eval_function_def s start def)
      | SAsyncFunctionDef def => plain (eval_function_def_with s start def true)
      | SDelete _ | SImport _ | SImportFrom _ _ _ => plain (host_stmt s stmt)
      | STypeAlias _ _ =>
          plain (done s (fail (Runtime ("unsupported statement: " ++ discriminant (inr stmt) ++
                   " (see CONFORMANCE.md#unsupported-language-features)"))))
      end
  end.

Definition eval_stmt : nat -> InterpreterState -> PyStmt -> Eval Value := eval_stmt_or (fun s => (s, Panic)).
End Stmts.
