(* ===== verification/Functions.v ===== *)
(** Calls of functions and lambdas (eval/functions/dispatch.rs, and the scope of a
    frame in eval/functions/definitions.rs): the checkpoint of the names a frame can
    touch, the overlay of the closure, the cells and the arguments, the body, and
    the way out. *)
From Stdlib Require Import ZArith Lia Ascii String SpecFloat.
From stdpp Require Import base tactics list numbers option strings pretty gmap.
From S2P Require Import Prelude PySet Values Errors F64 Keys Arith ValueEq Classes Slices Compare Operators State Exceptions Op Syntax Host Displays Eval Stmts.
From S2P Require Import Names Unparse Mangle Params Host Displays Definitions.

Section Functions.
Context `{External} `{!ExternalOrder} `{!Platform} `{!Formats} `{!Calls} `{!Estimates} `{!Environment} `{!Host}.

Abbreviation VariableCheckpoint := (list (string * option Value)).

(** ** The scope of a frame *)

Fixpoint set_each (s : InterpreterState) (bindings : list (string * Value)) : Eval () :=
  match bindings with
  | [] => done s (Ok ())
  | (name, value) :: bindings => let? (s, _) := set_named s name value in set_each s bindings
  end.

(** [live == value], structurally; [None] for a comparison that does not
    return. *)
Definition same_live (s : InterpreterState) (name : string) (value : Value) : option bool :=
  match variables s !! name with
  | Some live => value_eqb structural_eq nesting (heap s) live value
  | None => Some false
  end.

(** The closure entries laid over the variables: not those the arguments bind,
    the [skip]ped ones, those with a cell, the live globals of a module-level
    function, or those whose live value equals the snapshot. *)
Fixpoint overlay_closure (s : InterpreterState) (skip : list string) (refreshes : list (string * Z))
    (module_level : bool) (local_scope : gmap string Value) (closure : list (string * Value)) : Eval () :=
  match closure with
  | [] => done s (Ok ())
  | (name, value) :: closure =>
      let continue s := overlay_closure s skip refreshes module_level local_scope closure in
      if bool_decide (name ∈ dom local_scope) || bool_decide (name ∈ skip) || has_cell refreshes name ||
         (module_level && bool_decide (name ∈ dom (variables s)))
      then continue s
      else match same_live s name value with
           | Some true => continue s
           | Some false => let? (s, _) := set_named s name value in continue s
           | None => (s, Panic)
           end
  end.

Definition not_local (local_scope : gmap string Value) (bindings : list (string * Value)) : list (string * Value) :=
  List.filter (fun b => negb (bool_decide (b.1 ∈ dom local_scope))) bindings.

Definition apply_nonlocal_cell (s : InterpreterState) (func_def : FunctionDef) (local_scope : gmap string Value) :
    Eval () :=
  match nonlocal_cell_id func_def ≫= fun id => nonlocal_cells s !! id with
  | Some cell => set_each s (not_local local_scope (map_to_list cell))
  | None => done s (Ok ())
  end.

Fixpoint apply_cell_refreshes (s : InterpreterState) (refreshes : list (string * Z)) (local_scope : gmap string Value) :
    Eval () :=
  match refreshes with
  | [] => done s (Ok ())
  | (name, cell_id) :: refreshes =>
      match (if bool_decide (name ∈ dom local_scope) then None
             else cell ← nonlocal_cells s !! cell_id; cell !! name) with
      | Some value => let? (s, _) := set_named s name value in apply_cell_refreshes s refreshes local_scope
      | None => apply_cell_refreshes s refreshes local_scope
      end
  end.

Definition apply_function_scope (s : InterpreterState) (func_def : FunctionDef) (local_scope : gmap string Value) :
    Eval () :=
  let? (s, _) := overlay_closure s (global_names func_def) (cell_refreshes func_def) (is_module_level func_def)
                   local_scope (closure func_def) in
  let? (s, _) := apply_nonlocal_cell s func_def local_scope in
  let? (s, _) := apply_cell_refreshes s (cell_refreshes func_def) local_scope in
  set_each s (map_to_list local_scope).

Definition apply_lambda_scope (s : InterpreterState) (lambda_def : LambdaDef) (local_scope : gmap string Value) :
    Eval () :=
  let? (s, _) := overlay_closure s [] (l_cell_refreshes lambda_def) (l_is_module_level lambda_def)
                   local_scope (l_closure lambda_def) in
  let? (s, _) := apply_cell_refreshes s (l_cell_refreshes lambda_def) local_scope in
  set_each s (map_to_list local_scope).

(** The post-body values of the [nonlocal] names, into their cell. *)
Definition writeback_nonlocal_cell (s : InterpreterState) (func_def : FunctionDef) : InterpreterState :=
  match nonlocal_cell_id func_def with
  | Some id =>
      match nonlocal_cells s !! id with
      | Some cell =>
          let written := fold_left (fun cell n => match variables s !! n with Some v => <[n := v]> cell | None => cell end)
                           (nonlocal_names func_def) cell in
          set_cells (<[id := written]> (nonlocal_cells s)) s
      | None => s
      end
  | None => s
  end.

(** ** Frames *)

Definition push_owners (s : InterpreterState) : InterpreterState := set_owners (frame_cell_owners s ++ [∅]) s.
Definition pop_owners (s : InterpreterState) : InterpreterState := set_owners (removelast (frame_cell_owners s)) s.

Definition push_source (src qualname : string) (s : InterpreterState) : InterpreterState :=
  set_qualnames (qualname_stack s ++ [qualname ++ ".<locals>"]%string)
    (set_sources (body_source_stack s ++ [src]) s).
Definition pop_source (s : InterpreterState) : InterpreterState :=
  set_qualnames (removelast (qualname_stack s)) (set_sources (removelast (body_source_stack s)) s).

(** The names of the parameters, in the order a frame lists them. *)
Definition scope_names (p : FunctionParams) : list string :=
  (p_name <$> args p) ++ option_list (vararg p) ++ (p_name <$> kwonlyargs p) ++ option_list (kwarg p).

(** The closure entries whose snapshot differs from the live value. *)
Fixpoint closure_touched (s : InterpreterState) (module_level : bool) (closure : list (string * Value)) :
    option (list string) :=
  match closure with
  | [] => Some []
  | (name, value) :: closure =>
      if module_level then Some []
      else
        same ← same_live s name value;
        rest ← closure_touched s module_level closure;
        Some (if same : bool then rest else name :: rest)
  end.

Definition touched_names (s : InterpreterState) (f : FunctionDef) : option (list string) :=
  names ← closure_touched s (is_module_level f) (closure f);
  Some (List.filter (fun n => negb (bool_decide (n ∈ global_names f)) && negb (bool_decide (n ∈ nonlocal_names f)))
          (scope_names (params f) ++ names ++ assigned_names f)).

Definition lambda_touched (s : InterpreterState) (l : LambdaDef) : option (list string) :=
  names ← closure_touched s (l_is_module_level l) (l_closure l);
  Some (scope_names (l_params l) ++ names ++ l_assigned_names l).

(** A body of one statement that needs no evaluation. *)
Definition try_eval_trivial_body (body : list PyStmt) : option Value :=
  match body with
  | [At _ SPass] | [At _ (SReturn None)] => Some VNone
  | [At _ (SReturn (Some (EConstant c)))] => Some (eval_constant c)
  | _ => None
  end.

(** The condition of the fast path: no arguments, no parameters, nothing bound,
    and no closure to lay over the variables. *)
Definition trivial_frame (f : FunctionDef) (argv : list Value) (kwargs : list (string * Value)) : bool :=
  is_nil argv && is_nil kwargs && is_nil (args (params f)) && (if vararg (params f) is None then true else false) &&
  is_nil (kwonlyargs (params f)) && (if kwarg (params f) is None then true else false) &&
  is_nil (nonlocal_names f) && is_nil (assigned_names f) && is_nil (global_names f) &&
  negb (is_generator f) && (is_nil (closure f) || is_module_level f).

Section Calls.
Variable eval : InterpreterState -> PyExpr -> Eval Value.
Variable exec : InterpreterState -> PyStmt -> Eval Value.

Definition catch_return (m : Eval Value) : Eval Value :=
  match m with (s, Err (Signal (Return v))) => (s, Ok v) | _ => m end.

Definition run_optional (s : InterpreterState) (body : option (list PyStmt)) : Eval Value :=
  match body with Some body => execute_body exec s body | None => done s (Ok VNone) end.

Definition call_trivial (s : InterpreterState) (f : FunctionDef) : Eval Value :=
  let body := function_bodies s !! body_cache_key f in
  match body ≫= try_eval_trivial_body with
  | Some v => done (exit_call s) (Ok v)
  | None =>
      match run_optional (push_owners (push_source (source f) (display_qualname f) s)) body with
      | (s, Panic) => (s, Panic)
      | (s, r) => catch_return (exit_call (pop_source (pop_owners s)), r)
      end
  end.

(** What a body with [yield] does when its frame cannot be suspended: it runs to
    its end, and its values become a buffer. *)
Definition run_eager (s : InterpreterState) (body : list PyStmt) : Eval Value :=
  match execute_body exec (set_yields (yield_stack s ++ [[]]) s) body with
  | (s, Panic) => (s, Panic)
  | (s, r) =>
      let collected := default [] (list.last (yield_stack s)) in
      let s := set_yields (removelast (yield_stack s)) s in
      match r with
      | Ok _ | Err (Signal (Return _)) => let (v, s) := alloc_lazy collected s in done s (Ok v)
      | Err (Signal (Yield _)) => done s (fail (Runtime "internal yield without stack"))
      | Err e => done s (Err e)
      | Panic => (s, Panic)
      end
  end.

Definition locals_of (s : InterpreterState) (touched : list string) : gmap string Value :=
  fold_left (fun m n => match variables s !! n with Some v => <[n := v]> m | None => m end) touched ∅.

(** The way out of a frame, whatever the body did. *)
Definition leave_frame (f : FunctionDef) (checkpoint : VariableCheckpoint) (s : InterpreterState) : InterpreterState :=
  pop_source (exit_call (pop_owners (restore checkpoint (writeback_nonlocal_cell s f)))).

Definition run_frame (s : InterpreterState) (f : FunctionDef) (touched : list string)
    (checkpoint : VariableCheckpoint) : Eval Value :=
  let body := function_bodies s !! body_cache_key f in
  let s := push_source (source f) (display_qualname f) s in
  let generator := is_generator f || match body with Some b => contains_yield_stmts b | None => false end in
  match (match body with
         | Some b =>
             if generator then
               if generator_suspendable b
               then let (s, g) := create_generator s f b (locals_of s touched) touched in done s (Ok g)
               else run_eager s b
             else execute_body exec s b
         | None => done s (Ok VNone)
         end) with
  | (s, Panic) => (s, Panic)
  | (s, r) => catch_return (leave_frame f checkpoint s, r)
  end.

Definition call_general (s : InterpreterState) (f : FunctionDef) (argv : list Value) (kwargs : list (string * Value)) :
    Eval Value :=
  let s := push_owners s in
  match bind_params_named eval (params f) (display_qualname f) argv kwargs s with
  | (s, Panic) => (s, Panic)
  | (s, Err e) => done (exit_call (pop_owners s)) (Err e)
  | (s, Ok local_scope) =>
      match touched_names s f with
      | None => (s, Panic)
      | Some touched =>
          let checkpoint := capture s touched in
          match apply_function_scope s f local_scope with
          | (s, Panic) => (s, Panic)
          | (s, Err e) => done (exit_call (pop_owners (restore checkpoint s))) (Err e)
          | (s, Ok _) => run_frame s f touched checkpoint
          end
      end
  end.

Definition call_user_function_inner (s : InterpreterState) (f : FunctionDef) (argv : list Value)
    (kwargs : list (string * Value)) : Eval Value :=
  let? (s, _) := lift_call (enter_call s) in
  if trivial_frame f argv kwargs then call_trivial s f else call_general s f argv kwargs.

(** A call of an [async def] is a coroutine over a copy of the definition. *)
Definition call_user_function (s : InterpreterState) (f : FunctionDef) (argv : list Value)
    (kwargs : list (string * Value)) : Eval Value :=
  if is_async f && negb (is_generator f) then
    let l := fresh (dom (functions s)) in
    done (set_functions (<[l := f]> (functions s)) s) (Ok (VCoroutine l argv kwargs false))
  else call_user_function_inner s f argv kwargs.

Definition drive_coroutine (s : InterpreterState) (f : FunctionDef) (argv : list Value) (kwargs : list (string * Value)) :
    Eval Value := call_user_function_inner s f argv kwargs.

Definition lambda_name (l : LambdaDef) : string :=
  if bool_decide (l_qualname l = "") then "<lambda>" else l_qualname l.

Definition run_lambda_body (s : InterpreterState) (l : LambdaDef) : Eval Value :=
  match lambda_bodies s !! lambda_id l with
  | Some body =>
      let line := line_of (string_bytes (lambda_source l)) (expr_start body) in
      stamped line (eval (push_source (lambda_source l) (lambda_name l) s) body)
  | None => done (push_source (lambda_source l) (lambda_name l) s) (Ok VNone)
  end.

Definition call_lambda (s : InterpreterState) (l : LambdaDef) (argv : list Value) (kwargs : list (string * Value)) :
    Eval Value :=
  let? (s, _) := lift_call (enter_call s) in
  match bind_params_named eval (l_params l) (lambda_name l) argv kwargs s with
  | (s, Panic) => (s, Panic)
  | (s, Err e) => done (exit_call s) (Err e)
  | (s, Ok local_scope) =>
      match lambda_touched s l with
      | None => (s, Panic)
      | Some touched =>
          let checkpoint := capture s touched in
          match apply_lambda_scope s l local_scope with
          | (s, Panic) => (s, Panic)
          | (s, Err e) => done (exit_call (restore checkpoint s)) (Err e)
          | (s, Ok _) =>
              match run_lambda_body s l with
              | (s, Panic) => (s, Panic)
              | (s, r) => (exit_call (restore checkpoint (pop_source s)), r)
              end
          end
      end
  end.
End Calls.

End Functions.
