(* ===== verification/Generators.v ===== *)
(** Suspended generators (eval/functions/generators.rs, and the yield expressions
    of eval/mod.rs): the frame of a generator, the steppers that run a compound
    statement up to its next yield and record where they stopped, and the
    iterator protocol over them. *)
From Stdlib Require Import ZArith Lia Ascii String SpecFloat.
From stdpp Require Import base tactics list numbers option strings pretty gmap.
From S2P Require Import Prelude PySet Values Errors F64 Keys Arith ValueEq Classes Slices Compare Operators State Exceptions Op Syntax.
From S2P Require Import Names Host Displays Eval Stmts.

Section Records.
Context `{External}.

Definition put_locals v f := mkGeneratorFrame (g_func_name f) (g_source f) (g_body f) (g_touched f) v
  (g_started f) (g_finished f) (g_closed f) (g_send_value f) (g_resume_at_yield f) (g_pending_throw f)
  (g_stmt_index f) (g_for_stack f) (g_while_resume f) (g_try_stack f) (g_if_stack f) (g_with_stack f)
  (g_yield_from_return f) (g_delegating_to f).
Definition put_started v f := mkGeneratorFrame (g_func_name f) (g_source f) (g_body f) (g_touched f)
  (g_locals f) v (g_finished f) (g_closed f) (g_send_value f) (g_resume_at_yield f) (g_pending_throw f)
  (g_stmt_index f) (g_for_stack f) (g_while_resume f) (g_try_stack f) (g_if_stack f) (g_with_stack f)
  (g_yield_from_return f) (g_delegating_to f).
Definition put_finished v f := mkGeneratorFrame (g_func_name f) (g_source f) (g_body f) (g_touched f)
  (g_locals f) (g_started f) v (g_closed f) (g_send_value f) (g_resume_at_yield f) (g_pending_throw f)
  (g_stmt_index f) (g_for_stack f) (g_while_resume f) (g_try_stack f) (g_if_stack f) (g_with_stack f)
  (g_yield_from_return f) (g_delegating_to f).
Definition put_closed v f := mkGeneratorFrame (g_func_name f) (g_source f) (g_body f) (g_touched f) (g_locals f)
  (g_started f) (g_finished f) v (g_send_value f) (g_resume_at_yield f) (g_pending_throw f) (g_stmt_index f)
  (g_for_stack f) (g_while_resume f) (g_try_stack f) (g_if_stack f) (g_with_stack f) (g_yield_from_return f)
  (g_delegating_to f).
Definition put_send_value v f := mkGeneratorFrame (g_func_name f) (g_source f) (g_body f) (g_touched f)
  (g_locals f) (g_started f) (g_finished f) (g_closed f) v (g_resume_at_yield f) (g_pending_throw f)
  (g_stmt_index f) (g_for_stack f) (g_while_resume f) (g_try_stack f) (g_if_stack f) (g_with_stack f)
  (g_yield_from_return f) (g_delegating_to f).
Definition put_resume_at_yield v f := mkGeneratorFrame (g_func_name f) (g_source f) (g_body f) (g_touched f)
  (g_locals f) (g_started f) (g_finished f) (g_closed f) (g_send_value f) v (g_pending_throw f) (g_stmt_index f)
  (g_for_stack f) (g_while_resume f) (g_try_stack f) (g_if_stack f) (g_with_stack f) (g_yield_from_return f)
  (g_delegating_to f).
Definition put_pending_throw v f := mkGeneratorFrame (g_func_name f) (g_source f) (g_body f) (g_touched f)
  (g_locals f) (g_started f) (g_finished f) (g_closed f) (g_send_value f) (g_resume_at_yield f) v
  (g_stmt_index f) (g_for_stack f) (g_while_resume f) (g_try_stack f) (g_if_stack f) (g_with_stack f)
  (g_yield_from_return f) (g_delegating_to f).
Definition put_stmt_index v f := mkGeneratorFrame (g_func_name f) (g_source f) (g_body f) (g_touched f)
  (g_locals f) (g_started f) (g_finished f) (g_closed f) (g_send_value f) (g_resume_at_yield f)
  (g_pending_throw f) v (g_for_stack f) (g_while_resume f) (g_try_stack f) (g_if_stack f) (g_with_stack f)
  (g_yield_from_return f) (g_delegating_to f).
Definition put_for_stack v f := mkGeneratorFrame (g_func_name f) (g_source f) (g_body f) (g_touched f)
  (g_locals f) (g_started f) (g_finished f) (g_closed f) (g_send_value f) (g_resume_at_yield f)
  (g_pending_throw f) (g_stmt_index f) v (g_while_resume f) (g_try_stack f) (g_if_stack f) (g_with_stack f)
  (g_yield_from_return f) (g_delegating_to f).
Definition put_while_resume v f := mkGeneratorFrame (g_func_name f) (g_source f) (g_body f) (g_touched f)
  (g_locals f) (g_started f) (g_finished f) (g_closed f) (g_send_value f) (g_resume_at_yield f)
  (g_pending_throw f) (g_stmt_index f) (g_for_stack f) v (g_try_stack f) (g_if_stack f) (g_with_stack f)
  (g_yield_from_return f) (g_delegating_to f).
Definition put_try_stack v f := mkGeneratorFrame (g_func_name f) (g_source f) (g_body f) (g_touched f)
  (g_locals f) (g_started f) (g_finished f) (g_closed f) (g_send_value f) (g_resume_at_yield f)
  (g_pending_throw f) (g_stmt_index f) (g_for_stack f) (g_while_resume f) v (g_if_stack f) (g_with_stack f)
  (g_yield_from_return f) (g_delegating_to f).
Definition put_if_stack v f := mkGeneratorFrame (g_func_name f) (g_source f) (g_body f) (g_touched f)
  (g_locals f) (g_started f) (g_finished f) (g_closed f) (g_send_value f) (g_resume_at_yield f)
  (g_pending_throw f) (g_stmt_index f) (g_for_stack f) (g_while_resume f) (g_try_stack f) v (g_with_stack f)
  (g_yield_from_return f) (g_delegating_to f).
Definition put_with_stack v f := mkGeneratorFrame (g_func_name f) (g_source f) (g_body f) (g_touched f)
  (g_locals f) (g_started f) (g_finished f) (g_closed f) (g_send_value f) (g_resume_at_yield f)
  (g_pending_throw f) (g_stmt_index f) (g_for_stack f) (g_while_resume f) (g_try_stack f) (g_if_stack f) v
  (g_yield_from_return f) (g_delegating_to f).
Definition put_yield_from_return v f := mkGeneratorFrame (g_func_name f) (g_source f) (g_body f) (g_touched f)
  (g_locals f) (g_started f) (g_finished f) (g_closed f) (g_send_value f) (g_resume_at_yield f)
  (g_pending_throw f) (g_stmt_index f) (g_for_stack f) (g_while_resume f) (g_try_stack f) (g_if_stack f)
  (g_with_stack f) v (g_delegating_to f).
Definition put_delegating_to v f := mkGeneratorFrame (g_func_name f) (g_source f) (g_body f) (g_touched f)
  (g_locals f) (g_started f) (g_finished f) (g_closed f) (g_send_value f) (g_resume_at_yield f)
  (g_pending_throw f) (g_stmt_index f) (g_for_stack f) (g_while_resume f) (g_try_stack f) (g_if_stack f)
  (g_with_stack f) (g_yield_from_return f) v.
(** ** The running generator *)

Definition active_id (s : InterpreterState) : option Z := list.last (active_generator_stack s).
Definition active_frame (s : InterpreterState) : option GeneratorFrame := active_id s ≫= fun id => generators s !! id.

Definition update_frame (id : Z) (f : GeneratorFrame -> GeneratorFrame) (s : InterpreterState) : InterpreterState :=
  match generators s !! id with
  | Some frame => set_generators (<[id := f frame]> (generators s)) s
  | None => s
  end.
Definition update_active (f : GeneratorFrame -> GeneratorFrame) (s : InterpreterState) : InterpreterState :=
  match active_id s with Some id => update_frame id f s | None => s end.

Definition set_resume_at_yield : InterpreterState -> InterpreterState := update_active (put_resume_at_yield true).
Definition clear_resume_at_yield : InterpreterState -> InterpreterState := update_active (put_resume_at_yield false).

Definition push_try_resume (r : TryResume) : InterpreterState -> InterpreterState :=
  update_active (fun f => put_try_stack (g_try_stack f ++ [r]) f).
Definition push_if_resume (r : IfResume) : InterpreterState -> InterpreterState :=
  update_active (fun f => put_if_stack (g_if_stack f ++ [r]) f).
Definition push_with_resume (r : WithResume) : InterpreterState -> InterpreterState :=
  update_active (fun f => put_with_stack (g_with_stack f ++ [r]) f).

Definition pop_try_resume (s : InterpreterState) : InterpreterState * option TryResume :=
  (update_active (fun f => put_try_stack (removelast (g_try_stack f)) f) s,
   active_frame s ≫= fun f => list.last (g_try_stack f)).
Definition pop_if_resume (s : InterpreterState) : InterpreterState * option IfResume :=
  (update_active (fun f => put_if_stack (removelast (g_if_stack f)) f) s,
   active_frame s ≫= fun f => list.last (g_if_stack f)).
Definition pop_with_resume (s : InterpreterState) : InterpreterState * option WithResume :=
  (update_active (fun f => put_with_stack (removelast (g_with_stack f)) f) s,
   active_frame s ≫= fun f => list.last (g_with_stack f)).

(** ** Records of loops *)

Definition for_target (target : string) (fs : GeneratorForState) : bool := String.eqb (fs_target fs) target.

(** The topmost record of a target. *)
Definition for_resume (s : InterpreterState) (target : string) : option GeneratorForState :=
  active_frame s ≫= fun f => find (for_target target) (rev (g_for_stack f)).

Fixpoint replace_first {A} (p : A -> bool) (x : A) (xs : list A) : option (list A) :=
  match xs with
  | [] => None
  | y :: ys => if p y then Some (x :: ys) else (fun l => y :: l) <$> replace_first p x ys
  end.

(** The records from the last one with a target on: [rposition]. *)
Fixpoint after_targets (stack : list GeneratorForState) : nat :=
  match stack with
  | [] => 0
  | fs :: stack =>
      match after_targets stack with
      | O => if String.eqb (fs_target fs) "" then 0 else 1
      | n => S n
      end
  end.

Definition upsert_for_frame (entry : GeneratorForState) (stack : list GeneratorForState) : list GeneratorForState :=
  match replace_first (for_target (fs_target entry)) entry stack with
  | Some stack => stack
  | None => let at_ := after_targets stack in take at_ stack ++ entry :: drop at_ stack
  end.

Definition forget_for (target : string) : InterpreterState -> InterpreterState :=
  update_active (fun f => put_for_stack (List.filter (fun fs => negb (for_target target fs)) (g_for_stack f)) f).

Definition record_for (entry : GeneratorForState) : InterpreterState -> InterpreterState :=
  update_active (fun f => put_for_stack (upsert_for_frame entry (g_for_stack f)) f).

(** The record of a loop, moved to its next item. *)
Definition advance_for (target : string) (pos : nat) : InterpreterState -> InterpreterState :=
  update_active (fun f =>
    match find (for_target target) (g_for_stack f) with
    | Some fs =>
        let moved := mkForState (fs_items fs) pos 0 (fs_target fs) (fs_lazy_source fs) (fs_current_item fs) in
        put_for_stack (default (g_for_stack f) (replace_first (for_target target) moved (g_for_stack f))) f
    | None => f
    end).

Definition while_key (key : Z) (r : Z * nat) : bool := r.1 =? key.
Definition while_saved (s : InterpreterState) (key : Z) : option nat :=
  active_frame s ≫= fun f => snd <$> find (while_key key) (rev (g_while_resume f)).
Definition clear_while (key : Z) : InterpreterState -> InterpreterState :=
  update_active (fun f => put_while_resume (List.filter (fun r => negb (while_key key r)) (g_while_resume f)) f).
Definition record_while (key : Z) (index : nat) : InterpreterState -> InterpreterState :=
  update_active (fun f => put_while_resume
    (default (g_while_resume f ++ [(key, index)]) (replace_first (while_key key) (key, index) (g_while_resume f))) f).
End Records.

(** ** Yield expressions *)

Section Yields.
Context `{External}.
Variable eval : InterpreterState -> PyExpr -> Eval Value.

(** A yield the running generator is suspended at: its outcome on resumption,
    with [taken] the value it evaluates to unless an exception was thrown in. *)
Definition resumed (s : InterpreterState) (taken : GeneratorFrame -> Value * GeneratorFrame) : option (Eval Value) :=
  match active_frame s with
  | Some frame =>
      if g_resume_at_yield frame then
        let s := clear_resume_at_yield s in
        Some match g_pending_throw frame with
             | Some exc => (update_active (put_pending_throw None) s, Err (Exception exc))
             | None => (update_active (fun f => (taken f).2) s, Ok (taken frame).1)
             end
      else None
  | None => None
  end.

Definition take_send_value (f : GeneratorFrame) : Value * GeneratorFrame := (g_send_value f, put_send_value VNone f).
Definition take_return (f : GeneratorFrame) : Value * GeneratorFrame :=
  (default VNone (g_yield_from_return f), put_yield_from_return None f).

(** Values of an eager body go to the innermost buffer. *)
Definition buffer_values (s : InterpreterState) (values : list Value) : option InterpreterState :=
  match list.last (yield_stack s) with
  | Some buffer => Some (set_yields (removelast (yield_stack s) ++ [buffer ++ values]) s)
  | None => None
  end.

Definition eval_yield (s : InterpreterState) (value : option PyExpr) : Eval Value :=
  match resumed s take_send_value with
  | Some r => r
  | None =>
      let? (s, v) := match value with Some e => eval s e | None => done s (Ok VNone) end in
      match buffer_values s [v] with
      | Some s => done s (Ok VNone)
      | None =>
          if is_nil (active_generator_stack s)
          then done s (fail (Runtime "'yield' outside function: yield can only appear inside a generator function"))
          else done s (Err (Signal (Yield v)))
      end
  end.

(** [__next__] of another generator, its exhaustion with what it returned, and the
    items of any other iterable. *)
Variable next : InterpreterState -> Value -> Eval Value.
Variable drain_with_return : InterpreterState -> Value -> Eval (list Value * Value).
Variable items_of : InterpreterState -> Value -> Eval (list Value).

Definition stop_value (e : ExceptionValue) : option Value :=
  if String.eqb (exc_type_name e) "StopIteration" then Some (default VNone (head (exc_args e))) else None.

(** The first item is yielded now, the others wait in a record without target. *)
Definition stream_items (s : InterpreterState) (items : list Value) (return_value : Value) : Eval Value :=
  match active_frame s with
  | Some _ =>
      match items with
      | [] => done s (Ok return_value)
      | first :: rest =>
          let s := update_active (put_yield_from_return (Some return_value)) s in
          let s := if is_nil rest then s
                   else update_active (fun f => put_for_stack (g_for_stack f ++ [mkForState rest 0 0 "" None None]) f) s in
          done s (Err (Signal (Yield first)))
      end
  | None =>
      done s (fail (Runtime "'yield from' outside function: yield from can only appear inside a generator function"))
  end.

Definition delegate (s : InterpreterState) (sub_id : Z) : Eval Value :=
  match next s (VGenerator sub_id) with
  | (s, Ok v) => done (update_active (put_delegating_to (Some sub_id)) s) (Err (Signal (Yield v)))
  | (s, Err (Exception e)) =>
      match stop_value e with Some v => done s (Ok v) | None => done s (Err (Exception e)) end
  | (s, r) => (s, r)
  end.

Definition eval_yield_from (s : InterpreterState) (value : PyExpr) : Eval Value :=
  match resumed s take_return with
  | Some r => r
  | None =>
      let? (s, source) := eval s value in
      match source, yield_stack s with
      | VGenerator sub_id, [] => delegate s sub_id
      | _, _ =>
          let? (s, out) := match source with
                           | VGenerator _ => drain_with_return s source
                           | _ => let? (s, items) := items_of s source in done s (Ok (items, VNone))
                           end in
          match buffer_values s out.1 with
          | Some s => done s (Ok out.2)
          | None => stream_items s out.1 out.2
          end
      end
  end.
End Yields.

(** ** Steppers *)

Section Steppers.
Context `{External} `{!ExternalOrder} `{!Platform} `{!Formats} `{!Calls} `{!Estimates} `{!Environment} `{!Host}.
Variable exec : InterpreterState -> PyStmt -> Eval Value.
(** A method of another generator or iterator. *)
Variable dispatch : InterpreterState -> Value -> string -> list Value -> Eval Value.
(** How often a loop may go round: a loop that exceeds it is taken not to
    return. *)
Variable bound : nat.

Section Nested.
(** The stepper of a nested compound statement. *)
Variable nested : InterpreterState -> PyStmt -> Eval ().

(** The statements of a block from the [i]th on: those [delegated] go to their
    stepper, the others are executed; a yield is [record]ed. *)
Fixpoint step_block (delegated : PyStmt -> bool) (record : nat -> InterpreterState -> InterpreterState)
    (s : InterpreterState) (i : nat) (stmts : list PyStmt) : Eval () :=
  match stmts with
  | [] => done s (Ok ())
  | stmt :: stmts =>
      match (if delegated stmt then nested s stmt else let? (s, _) := exec s stmt in done s (Ok ())) with
      | (s, Ok _) => step_block delegated record (clear_resume_at_yield s) (S i) stmts
      | (s, Err (Signal (Yield v))) =>
          let s := record i s in
          done (if delegated stmt then s else set_resume_at_yield s) (Err (Signal (Yield v)))
      | (s, r) => (s, r)
      end
  end.

(** Which statements of a block have a stepper there. *)
Definition loop_delegated (stmt : PyStmt) : bool :=
  contains_yield_stmts [stmt] &&
  match stmt with
  | At _ (SIf _ body orelse) => loop_nest_suspendable body && loop_nest_suspendable orelse
  | At _ (SWhile _ _ orelse) => while_delegatable orelse
  | At _ (SFor target _ _ orelse) => for_delegatable target orelse
  | _ => false
  end.
Definition while_body_delegated (stmt : PyStmt) : bool :=
  match stmt with At _ (SIf _ _ _) => true | At _ (SFor _ _ _ _) | At _ (SWhile _ _ _) => loop_delegated stmt | _ => false end.
Definition branch_delegated (stmt : PyStmt) : bool :=
  match stmt with
  | At _ (STry false _ _ _ _) | At _ (SIf _ _ _) => true
  | At _ (SFor _ _ _ _) | At _ (SWhile _ _ _) => loop_delegated stmt
  | _ => false
  end.
Definition phase_delegated (stmt : PyStmt) : bool :=
  match stmt with
  | At _ (STry false _ _ _ _) => true
  | At _ (SIf _ body orelse) =>
      contains_yield_stmts [stmt] && if_branch_suspendable body && if_branch_suspendable orelse
  | At _ (SFor _ _ _ _) | At _ (SWhile _ _ _) => loop_delegated stmt
  | _ => false
  end.
Definition with_delegated (stmt : PyStmt) : bool :=
  match stmt with
  | At _ (SWith _ body) => contains_yield_stmts [stmt] && if_branch_suspendable body
  | _ => phase_delegated stmt
  end.

(** One pass over a loop's body: whether it ended with [break]. *)
Definition loop_pass (delegated : PyStmt -> bool) (record : nat -> InterpreterState -> InterpreterState)
    (s : InterpreterState) (i : nat) (body : list PyStmt) : Eval bool :=
  match step_block delegated record s i (drop i body) with
  | (s, Ok _) | (s, Err (Signal Continue)) => done s (Ok false)
  | (s, Err (Signal Break)) => done s (Ok true)
  | (s, Err e) => done s (Err e)
  | (s, Panic) => (s, Panic)
  end.

(** [for] over materialised items, from position [pos] and statement [i]; [rest]
    are the items from [pos] on. *)
Fixpoint for_rounds (s : InterpreterState) (target : string) (target_expr : PyExpr) (body : list PyStmt)
    (items rest : list Value) (pos i : nat) : Eval () :=
  match rest with
  | [] => done (forget_for target s) (Ok ())
  | item :: rest =>
      let? (s, _) := if (i =? 0)%nat then assign_target s target_expr item else done s (Ok ()) in
      let record i := record_for (mkForState items pos i target None None) in
      let? (s, broke) := loop_pass loop_delegated record s i body in
      if broke : bool then done (forget_for target s) (Ok ())
      else for_rounds (advance_for target (S pos) s) target target_expr body items rest (S pos) 0
  end.

(** [run_for_lazy]: one item at a time from an iterator; [current] is the item in
    progress on resumption. *)
Fixpoint lazy_rounds (bound : nat) (s : InterpreterState) (target : string) (target_expr : PyExpr)
    (body : list PyStmt) (source : Value) (current : option Value) (i : nat) : Eval () :=
  match bound with
  | O => (s, Panic)
  | S bound =>
      let work s item i :=
        let record i := record_for (mkForState [] 0 i target (Some source) (Some item)) in
        let? (s, broke) := loop_pass loop_delegated record s i body in
        if broke : bool then done (forget_for target s) (Ok ())
        else lazy_rounds bound s target target_expr body source None 0 in
      match current with
      | Some item => work s item i
      | None =>
          match dispatch s source "__next__" [] with
          | (s, Ok item) => let? (s, _) := assign_target s target_expr item in work s item 0%nat
          | (s, Err (Exception e)) =>
              if String.eqb (exc_type_name e) "StopIteration" then done (forget_for target s) (Ok ())
              else done s (Err (Exception e))
          | (s, Err e) => done s (Err e)
          | (s, Panic) => (s, Panic)
          end
      end
  end.

Definition run_for_suspendable (s : InterpreterState) (target_expr iter_expr : PyExpr) (body : list PyStmt)
    (target : string) : Eval () :=
  match for_resume s target with
  | Some fs =>
      match fs_lazy_source fs with
      | Some source => lazy_rounds bound s target target_expr body source (fs_current_item fs) (fs_body_index fs)
      | None =>
          for_rounds s target target_expr body (fs_items fs) (drop (fs_pos fs) (fs_items fs)) (fs_pos fs) (fs_body_index fs)
      end
  | None =>
      let? (s, iterable) := eval_resolved eval_expr s iter_expr in
      match iterable with
      | VGenerator _ | VLazy _ _ _ | VBuiltinIter _ _ => lazy_rounds bound s target target_expr body iterable None 0
      | _ => let? (s, items) := iter nesting s iterable in for_rounds s target target_expr body items items 0 0
      end
  end.

(** A pass that resumes skips the test. *)
Fixpoint while_passes (bound : nat) (s : InterpreterState) (key : Z) (test : PyExpr) (body : list PyStmt)
    (resuming : bool) (i : nat) : Eval () :=
  match bound with
  | O => (s, Panic)
  | S bound =>
      let? (s, go) := if resuming then done s (Ok true)
                      else let? (s, cond) := eval_expr s test in truthy s cond in
      if negb go then done (clear_while key s) (Ok ())
      else
        let? (s, broke) := loop_pass while_body_delegated (record_while key) s i body in
        if broke : bool then done (clear_while key s) (Ok ())
        else while_passes bound s key test body false 0
  end.

Definition run_while_suspendable (s : InterpreterState) (start : Z) (test : PyExpr) (body : list PyStmt) : Eval () :=
  match while_saved s start with
  | Some i => while_passes bound s start test body true i
  | None => while_passes bound s start test body false 0
  end.

Definition run_if_suspendable (s : InterpreterState) (test : PyExpr) (body orelse : list PyStmt) : Eval () :=
  let (s, saved) := pop_if_resume s in
  let? (s, at_) := match saved with
                   | Some r => done s (Ok (ir_in_orelse r, ir_index r))
                   | None =>
                       let? (s, cond) := eval_expr s test in
                       let? (s, b) := truthy s cond in done s (Ok (negb b, 0%nat))
                   end in
  let '(in_orelse, i) := at_ in
  step_block branch_delegated (fun i => push_if_resume (mkIfResume in_orelse i)) s i
    (drop i (if in_orelse then orelse else body)).

(** ** [try] *)

Definition step_try_phase (phase : TryPhase) (s : InterpreterState) (i : nat) (stmts : list PyStmt) : Eval () :=
  step_block phase_delegated (fun i => push_try_resume (mkTryResume phase i)) s i (drop i stmts).

Definition finish_try (s : InterpreterState) (finalbody : list PyStmt) (pending : option EvalError) : Eval () :=
  let? (s, _) := step_try_phase PhaseFinally s 0 finalbody in
  done s match pending with Some e => Err e | None => Ok () end.

Definition cleanup_handler (name : option string) (s : InterpreterState) : InterpreterState :=
  unbind_name size (pop_exception s) name.

(** What follows a phase: [finish] after it completed or failed, unless it
    yielded. *)
Definition after_phase (r : Eval ()) (finish : InterpreterState -> option EvalError -> Eval ()) : Eval () :=
  match r with
  | (s, Ok _) => finish s None
  | (s, Err (Signal (Yield v))) => done s (Err (Signal (Yield v)))
  | (s, Err e) => finish s (Some e)
  | (s, Panic) => (s, Panic)
  end.

Definition finish_handler (finalbody : list PyStmt) (name : option string) (s : InterpreterState)
    (pending : option EvalError) : Eval () := finish_try (cleanup_handler name s) finalbody pending.

(** The expressions of the handlers go to the evaluator of the walk. *)
Definition walk_evaluator : Exceptions.Evaluator := {|
  Exceptions.eval_body := eval_body exec : InterpreterState -> list Stmt -> _;
  Exceptions.eval_expr := eval_expr : InterpreterState -> Expr -> _
|}.

(** The first matching handler, from the [h]th on, entered. *)
Fixpoint enter_handler (s : InterpreterState) (exc : ExceptionValue) (err : EvalError) (finalbody : list PyStmt)
    (h : nat) (handlers : list Handler) : Eval () :=
  match handlers with
  | [] => finish_try s finalbody (Some err)
  | handler :: handlers =>
      let '(mkExceptHandler _ name body) := handler in
      let? (s, matched) := @matches_handler _ _ walk_evaluator s exc (except_handler handler) in
      if negb matched then enter_handler s exc err finalbody (S h) handlers
      else
        let? (s, _) := bind_name size s name exc in
        after_phase (step_try_phase (PhaseHandler h) (push_exception exc s) 0 body) (finish_handler finalbody name)
  end.

Definition enter_or_propagate (s : InterpreterState) (handlers : list Handler) (finalbody : list PyStmt)
    (err : EvalError) : Eval () :=
  match error_exception err with
  | Some exc => enter_handler s exc err finalbody 0 handlers
  | None => finish_try s finalbody (Some err)
  end.

Definition run_try_body (s : InterpreterState) (i : nat) (body : list PyStmt) (handlers : list Handler)
    (orelse finalbody : list PyStmt) : Eval () :=
  after_phase (step_try_phase PhaseBody s i body) (fun s err =>
    match err with
    | None => after_phase (step_try_phase PhaseOrelse s 0 orelse) (fun s err => finish_try s finalbody err)
    | Some err => enter_or_propagate s handlers finalbody err
    end).

Definition run_try_suspendable (s : InterpreterState) (body : list PyStmt) (handlers : list Handler)
    (orelse finalbody : list PyStmt) : Eval () :=
  let (s, saved) := pop_try_resume s in
  match saved with
  | None => run_try_body s 0 body handlers orelse finalbody
  | Some (mkTryResume PhaseBody i) => run_try_body s i body handlers orelse finalbody
  | Some (mkTryResume (PhaseHandler h) i) =>
      match handlers !! h with
      | Some (mkExceptHandler _ name hbody) =>
          after_phase (step_try_phase (PhaseHandler h) s i hbody) (finish_handler finalbody name)
      | None => (s, Panic)
      end
  | Some (mkTryResume PhaseOrelse i) =>
      after_phase (step_try_phase PhaseOrelse s i orelse) (fun s err => finish_try s finalbody err)
  | Some (mkTryResume PhaseFinally i) => step_try_phase PhaseFinally s i finalbody
  end.

(** ** [with] *)

Definition run_with_suspendable (s : InterpreterState) (items : list WithItem) (body : list PyStmt) : Eval () :=
  let (s, saved) := pop_with_resume s in
  let? (s, at_) := match saved with
                   | Some r => done s (Ok (wr_index r, wr_managers r))
                   | None => let? (s, managers) := enter_managers s items in done s (Ok (0%nat, managers))
                   end in
  let '(i, managers) := at_ in
  after_phase (step_block with_delegated (fun i => push_with_resume (mkWithResume i managers)) s i (drop i body))
    (fun s err => exit_context_managers s managers err).

(** The stepper of one compound statement. *)
Definition run_compound (s : InterpreterState) (stmt : PyStmt) : Eval () :=
  match stmt with
  | At start node =>
      match node with
      | SFor target iter_expr body _ => run_for_suspendable s target iter_expr body (default "" (for_name_target target))
      | SWhile test body _ => run_while_suspendable s start test body
      | SIf test body orelse => run_if_suspendable s test body orelse
      | STry false body handlers orelse finalbody => run_try_suspendable s body handlers orelse finalbody
      | SWith items body => run_with_suspendable s items body
      | _ => (s, Panic)
      end
  end.
End Nested.

(** The steppers to a nesting depth of [fuel]. *)
Fixpoint run_suspendable (fuel : nat) (s : InterpreterState) (stmt : PyStmt) : Eval () :=
  match fuel with
  | O => (s, Panic)
  | S fuel => run_compound (run_suspendable fuel) s stmt
  end.

(** ** The body *)

(** Which top-level statements have a stepper; every [for] over a name, [while] and
    [try] does, whether it yields or not. *)
Definition top_delegated (stmt : PyStmt) : bool :=
  match stmt with
  | At _ (SFor target _ _ _) => if for_name_target target is Some _ then true else false
  | At _ (SWhile _ _ _) | At _ (STry false _ _ _ _) => true
  | At _ (SWith _ body) => if_branch_suspendable body && contains_yield_stmts [stmt]
  | At _ (SIf _ body orelse) =>
      if_branch_suspendable body && if_branch_suspendable orelse && contains_yield_stmts [stmt]
  | _ => false
  end.

(** [run_generator_body] from the statement of index [i] on: the index it stops
    at, and its outcome. *)
Fixpoint run_generator_body (s : InterpreterState) (i : nat) (stmts : list PyStmt) : nat * Eval () :=
  match stmts with
  | [] => (i, done s (Ok ()))
  | stmt :: stmts =>
      if top_delegated stmt then
        match run_suspendable (stmt_height stmt) s stmt with
        | (s, Ok _) => run_generator_body s (S i) stmts
        | r => (i, r)
        end
      else
        match exec s stmt with
        | (s, Ok _) => run_generator_body (clear_resume_at_yield s) (S i) stmts
        | (s, Err (Signal (Yield v))) => (i, done (set_resume_at_yield s) (Err (Signal (Yield v))))
        | (s, Err e) => (i, done s (Err e))
        | (s, Panic) => (i, (s, Panic))
        end
  end.

Definition stop_iteration : ExceptionValue := ExceptionValue_new "StopIteration" [].
Definition stop_iteration_with_value (v : Value) : ExceptionValue :=
  match v with VNone => stop_iteration | _ => with_args stop_iteration [v] end.

Definition frame_missing {A} (s : InterpreterState) : Eval A := done s (fail (Runtime "generator frame missing")).

(** The record of a [yield from] on top of the loops: its next item. *)
Definition drain_top (f : GeneratorFrame) : option (option Value * GeneratorFrame) :=
  if g_started f then
    match list.last (g_for_stack f) with
    | Some top =>
        if String.eqb (fs_target top) "" then
          match fs_items top !! fs_pos top with
          | Some v =>
              let below := removelast (g_for_stack f) in
              let moved := mkForState (fs_items top) (S (fs_pos top)) (fs_body_index top) (fs_target top)
                             (fs_lazy_source top) (fs_current_item top) in
              Some (Some v, put_for_stack (if (length (fs_items top) <=? S (fs_pos top))%nat then below else below ++ [moved]) f)
          | None => Some (None, put_for_stack (removelast (g_for_stack f)) f)
          end
        else None
    | None => None
    end
  else None.

(** The locals of a frame, bound; errors of the memory account are ignored. *)
Definition bind_locals (locals : gmap string Value) (s : InterpreterState) : InterpreterState :=
  fold_left (fun s kv => (set_variable size kv.1 kv.2 s).1) (map_to_list locals) s.

Definition saved_locals (s : InterpreterState) (touched : list string) (locals : gmap string Value) : gmap string Value :=
  fold_left (fun m n => match variables s !! n with Some v => <[n := v]> m | None => m end) touched locals.

(** Running a frame up to its next yield. *)
Definition enter_frame (s : InterpreterState) (id : Z) (frame : GeneratorFrame) : Eval Value :=
  let s := bind_locals (g_locals frame) s in
  let s := set_active (active_generator_stack s ++ [id]) (set_sources (body_source_stack s ++ [g_source frame]) s) in
  let (i, r) := run_generator_body s (g_stmt_index frame) (drop (g_stmt_index frame) (g_body frame)) in
  match r with
  | (s, Panic) => (s, Panic)
  | (s, r) =>
      let s := set_sources (removelast (body_source_stack s)) (set_active (removelast (active_generator_stack s)) s) in
      let s := update_frame id (fun f => put_locals (saved_locals s (g_touched frame) (g_locals f)) (put_stmt_index i f)) s in
      match r with
      | Err (Signal (Yield v)) => done s (Ok v)
      | r =>
          done (update_frame id (put_finished true) s)
            match r with
            | Ok _ => Err (Exception stop_iteration)
            | Err (Signal (Return v)) => Err (Exception (stop_iteration_with_value v))
            | Err e => Err e
            | Panic => Panic
            end
      end
  end.

Definition step_generator (s : InterpreterState) (id : Z) (send_value : Value) : Eval Value :=
  match generators s !! id with
  | None => frame_missing s
  | Some frame =>
      if g_closed frame || g_finished frame then done s (Err (Exception stop_iteration))
      else
        match drain_top frame with
        | Some (Some v, frame) => done (set_generators (<[id := frame]> (generators s)) s) (Ok v)
        | drained =>
            let frame := match drained with Some (None, frame) => frame | _ => frame end in
            let frame := put_send_value send_value (put_started true frame) in
            enter_frame (set_generators (<[id := frame]> (generators s)) s) id frame
        end
  end.

(** ** The protocol *)

Definition thrown_exception (s : InterpreterState) (args : list Value) : EvalResult ExceptionValue :=
  match args with
  | VException e :: _ => Ok e
  | VExceptionType n :: rest =>
      Ok (ExceptionValue_new n match rest with v :: _ => display (heap s) v | [] => [] end)
  | other :: _ =>
      fail (TypeError ("exceptions must derive from BaseException, not '" ++ type_name other ++ "'"))
  | [] => fail (TypeError "throw() takes at least 1 argument")
  end.

(** Suspended at a yield. *)
Definition live (f : GeneratorFrame) : bool :=
  g_started f && negb (g_finished f) && negb (g_closed f) && g_resume_at_yield f.
Definition is_live (s : InterpreterState) (id : Z) : bool :=
  match generators s !! id with Some f => live f | None => false end.

Definition throw_into_generator (s : InterpreterState) (id : Z) (args : list Value) : Eval Value :=
  let? (s, exc) := done s (thrown_exception s args) in
  if negb (is_live s id)
  then done (update_frame id (fun f => put_closed true (put_finished true f)) s) (Err (Exception exc))
  else step_generator (update_frame id (put_pending_throw (Some exc)) s) id VNone.

Definition mark_generator_closed (id : Z) : InterpreterState -> InterpreterState :=
  update_frame id (fun f =>
    put_while_resume [] (put_with_stack [] (put_try_stack [] (put_for_stack [] (put_closed true (put_finished true f)))))).

(** [next], [send] and [throw] while the frame is inside [yield from] another
    generator. *)
Definition forward_to_delegate (s : InterpreterState) (id sub_id : Z) (method : string) (args : list Value) : Eval Value :=
  match dispatch s (VGenerator sub_id) method args with
  | (s, Err (Exception e)) =>
      let back f := put_resume_at_yield true (put_delegating_to None f) in
      let s := update_frame id (fun f =>
                 back match stop_value e with
                      | Some v => put_yield_from_return (Some v) f
                      | None => put_pending_throw (Some e) f
                      end) s in
      step_generator s id VNone
  | r => r
  end.

Definition close_generator (s : InterpreterState) (id : Z) : Eval Value :=
  let? (s, _) :=
    match generators s !! id ≫= g_delegating_to with
    | Some sub_id =>
        let? (s, _) := dispatch s (VGenerator sub_id) "close" [] in
        done (update_frame id (put_delegating_to None) s) (Ok ())
    | None => done s (Ok ())
    end in
  if is_live s id then
    match throw_into_generator s id [VException (ExceptionValue_new "GeneratorExit" [])] with
    | (s, Panic) => (s, Panic)
    | (s, r) =>
        done (mark_generator_closed id s)
          match r with
          | Err (Exception e) =>
              if String.eqb (exc_type_name e) "GeneratorExit" || String.eqb (exc_type_name e) "StopIteration"
              then Ok VNone else Err (Exception e)
          | Ok _ => fail (Runtime "generator ignored GeneratorExit")
          | Err e => Err e
          | Panic => Panic
          end
    end
  else done (mark_generator_closed id s) (Ok VNone).

Definition dispatch_suspended (s : InterpreterState) (id : Z) (method : string) (args : list Value) : Eval Value :=
  let own :=
    if String.eqb method "__next__" then
      if is_nil args then step_generator s id VNone
      else done s (fail (TypeError "__next__() takes no arguments"))
    else if String.eqb method "send" then
      let value := default VNone (head args) in
      match generators s !! id with
      | None => frame_missing s
      | Some frame =>
          if negb (g_started frame) && negb (if value is VNone then true else false)
          then done s (fail (TypeError "can't send non-None value to a just-started generator"))
          else step_generator s id value
      end
    else if String.eqb method "throw" then throw_into_generator s id args
    else if String.eqb method "close" then close_generator s id
    else if String.eqb method "__iter__" then done s (Ok (VGenerator id))
    else done s (fail (AttributeError ("'generator' object has no attribute '" ++ method ++ "'"))) in
  if String.eqb method "__next__" || String.eqb method "send" || String.eqb method "throw" then
    match generators s !! id ≫= g_delegating_to with
    | Some sub_id => forward_to_delegate s id sub_id method args
    | None => own
    end
  else own.

Definition lacks_method (v : Value) (method : string) : string :=
  "'" ++ type_name v ++ "' object has no attribute '" ++ method ++ "'".

Definition dispatch_builtin_iter (s : InterpreterState) (receiver : Value) (id : Z) (method : string) (args : list Value) :
    Eval Value :=
  if String.eqb method "__iter__" then done s (Ok receiver)
  else if String.eqb method "__next__" then
    if negb (is_nil args) then done s (fail (TypeError "__next__() takes no arguments"))
    else match step_builtin_iter id s with
         | (Some v, s) => done s (Ok v)
         | (None, s) => done s (raise "StopIteration" "")
         end
  else done s (fail (AttributeError (lacks_method receiver method))).

(** The buffer of an eager generator. *)
Definition dispatch_lazy (s : InterpreterState) (receiver : Value) (method : string) (args : list Value) : Eval Value :=
  match receiver with
  | VLazy items cursor_id _ =>
      let cursor := default 0 (lazy_cursors s !! cursor_id) in
      let move n s := set_lazy (<[cursor_id := n]> (lazy_cursors s)) (next_cursor_id s) s in
      let exhausted := Z.of_nat (length items) in
      let step :=
        match (if cursor <? exhausted then items !! Z.to_nat cursor else None) with
        | Some v => done (move (cursor + 1) s) (Ok v)
        | None => done s (raise "StopIteration" "")
        end in
      if String.eqb method "__next__" then
        if is_nil args then step else done s (fail (TypeError "__next__() takes no arguments"))
      else if String.eqb method "send" then
        if (cursor =? 0) && negb (if default VNone (head args) is VNone then true else false)
        then done s (fail (TypeError "can't send non-None value to a just-started generator"))
        else step
      else if String.eqb method "throw" then
        let s := move exhausted s in
        match args with
        | VException e :: _ => done s (Err (Exception (ExceptionValue_new (exc_type_name e) (exc_message e))))
        | VExceptionType n :: rest =>
            done s (Err (Exception (ExceptionValue_new n match rest with v :: _ => display (heap s) v | [] => [] end)))
        | other :: _ =>
            done s (raise "TypeError" ("exceptions must derive from BaseException, not '" ++ type_name other ++ "'"))
        | [] => done s (fail (TypeError "throw() takes at least 1 argument"))
        end
      else if String.eqb method "close" then done (move exhausted s) (Ok VNone)
      else if String.eqb method "__iter__" then done s (Ok receiver)
      else done s (fail (AttributeError ("'generator' object has no attribute '" ++ method ++ "'")))
  | _ => done s (fail (TypeError (lacks_method receiver method)))
  end.

Definition dispatch_generator_method (s : InterpreterState) (receiver : Value) (method : string) (args : list Value)
    (kwargs : list (string * Value)) : Eval Value :=
  match kwargs with
  | (name, _) :: _ => done s (fail (TypeError (method ++ "() got an unexpected keyword argument '" ++ name ++ "'")))
  | [] =>
      match receiver with
      | VGenerator id => dispatch_suspended s id method args
      | VBuiltinIter id _ => dispatch_builtin_iter s receiver id method args
      | _ => dispatch_lazy s receiver method args
      end
  end.

(** ** The end of a run *)

Definition unfinished (f : GeneratorFrame) : bool := g_started f && negb (g_finished f) && negb (g_closed f).

Fixpoint insert_id (id : Z) (ids : list Z) : list Z :=
  match ids with
  | [] => [id]
  | i :: rest => if id <=? i then id :: ids else i :: insert_id id rest
  end.

Fixpoint close_each (s : InterpreterState) (ids : list Z) : Eval () :=
  match ids with
  | [] => done s (Ok ())
  | id :: ids =>
      if (match generators s !! id with Some f => unfinished f | None => false end) then
        match dispatch_generator_method s (VGenerator id) "close" [] [] with
        | (s, Panic) => (s, Panic)
        | (s, _) => close_each s ids
        end
      else close_each s ids
  end.

(** Every suspended generator, in the order of their creation. *)
Definition finalize_generators (s : InterpreterState) : Eval () :=
  close_each s (foldr insert_id [] (List.filter (fun id => match generators s !! id with Some f => unfinished f | None => false end)
                                      (map_to_list (generators s)).*1)).
End Steppers.

Section Protocol.
Context `{External} `{!ExternalOrder} `{!Platform} `{!Formats} `{!Calls} `{!Estimates} `{!Environment} `{!Host}.
Variable exec : InterpreterState -> PyStmt -> Eval Value.
Variable bound : nat.

(** The iterator protocol, over generators that delegate to others to a depth of
    [fuel]. *)
Fixpoint generator_method (fuel : nat) (s : InterpreterState) (receiver : Value) (method : string) (args : list Value) :
    Eval Value :=
  match fuel with
  | O => (s, Panic)
  | S fuel => dispatch_generator_method exec (generator_method fuel) bound s receiver method args []
  end.
End Protocol.
