(* ===== verification/Struct.v ===== *)
(** The [struct] module (eval/modules/struct_mod.rs): formats, their layout, and the
    conversion of values to bytes and back. *)
From Stdlib Require Import ZArith Lia Ascii String SpecFloat.
From stdpp Require Import base tactics list numbers option strings pretty gmap.
From S2P Require Import Prelude PySet Values Errors F64 State Exceptions Op Syntax.

(** ** Bytes of integers and floats *)

(** [to_be_bytes] of the low [8 * n] bits. *)
Fixpoint be_bytes (n : nat) (z : Z) : list Z :=
  match n with
  | O => []
  | S n => z / 2 ^ (8 * Z.of_nat n) mod 256 :: be_bytes n z
  end.

(** [from_be_bytes], unsigned and in two's complement. *)
Definition of_be_bytes (bs : list Z) : Z := fold_left (fun acc b => 256 * acc + b) bs 0.
Definition of_be_bytes_signed (bs : list Z) : Z :=
  let bits := 8 * Z.of_nat (length bs) in
  let u := of_be_bytes bs in
  if u <? 2 ^ (bits - 1) then u else u - 2 ^ bits.

(** The IEEE interchange format with [p] bits of significand and exponents below
    [emax]. The model of floats has one NaN. *)
Definition float_bits (p emax : Z) (f : f64) : Z :=
  let exponent e := Z.shiftl e (p - 1) in
  let sign (s : bool) := if s then 2 * emax * 2 ^ (p - 1) else 0 in
  match f with
  | S754_zero s => sign s
  | S754_infinity s => sign s + exponent (2 * emax - 1)
  | S754_nan => exponent (2 * emax - 1) + 2 ^ (p - 2)
  | S754_finite s m e =>
      if Z.pos m <? 2 ^ (p - 1) then sign s + Z.pos m
      else sign s + exponent (e + emax + p - 2) + (Z.pos m - 2 ^ (p - 1))
  end.

Definition bits_float (p emax : Z) (bits : Z) : f64 :=
  let s := 2 * emax * 2 ^ (p - 1) <=? bits in
  let e := bits / 2 ^ (p - 1) mod (2 * emax) in
  let m := bits mod 2 ^ (p - 1) in
  if e =? 2 * emax - 1 then (if m =? 0 then S754_infinity s else S754_nan)
  else
    let significand := if e =? 0 then m else m + 2 ^ (p - 1) in
    match significand with
    | Zpos q => S754_finite s q (Z.max e 1 - emax - p + 2)
    | _ => S754_zero s
    end.

(** [f64 as f32], and back. *)
Definition f32_of_f64 (f : f64) : f64 :=
  match f with
  | S754_finite s m e => binary_normalize 24 128 (cond_Zopp s (Zpos m)) e s
  | _ => f
  end.
Definition f64_of_f32 (f : f64) : f64 :=
  match f with
  | S754_finite s m e => binary_normalize 53 1024 (cond_Zopp s (Zpos m)) e s
  | _ => f
  end.

(** ** Formats *)

Inductive Mode : Type := Little | Big | Native.
Definition big_endian (m : Mode) : bool := match m with Big => true | _ => false end.
Definition native (m : Mode) : bool := match m with Native => true | _ => false end.

(** The characters of fields; [code_l] is [l], [code_UL] is [L]. *)
Inductive Code : Type :=
| code_x | code_c | code_b | code_UB | code_bool | code_s | code_h | code_UH | code_i | code_UI | code_f
| code_l | code_UL | code_q | code_UQ | code_d.

Definition code_of_char (c : Z) : option Code :=
  let c_is n := c =? Z.of_nat (nat_of_ascii n) in
  if c_is "x"%char then Some code_x else if c_is "c"%char then Some code_c else if c_is "b"%char then Some code_b
  else if c_is "B"%char then Some code_UB else if c_is "?"%char then Some code_bool else if c_is "s"%char then Some code_s
  else if c_is "h"%char then Some code_h else if c_is "H"%char then Some code_UH else if c_is "i"%char then Some code_i
  else if c_is "I"%char then Some code_UI else if c_is "f"%char then Some code_f else if c_is "l"%char then Some code_l
  else if c_is "L"%char then Some code_UL else if c_is "q"%char then Some code_q else if c_is "Q"%char then Some code_UQ
  else if c_is "d"%char then Some code_d else None.

Record Field : Type := mkField { code : Code; count : Z }.

Definition code_size (c : Code) (m : Mode) : Z :=
  match c with
  | code_x | code_c | code_b | code_UB | code_bool | code_s => 1
  | code_h | code_UH => 2
  | code_i | code_UI | code_f => 4
  | code_l | code_UL => if native m then 8 else 4
  | code_q | code_UQ | code_d => 8
  end.

Definition code_align (c : Code) (m : Mode) : Z :=
  if native m && negb match c with code_x | code_c | code_s | code_b | code_UB | code_bool => true | _ => false end
  then code_size c m else 1.

Section Struct.
Context `{External}.

Definition struct_error (message : string) : EvalError := Exception (ExceptionValue_new "struct.error" (name_text message)).

Definition field_code (c : Z) : EvalResult Code :=
  match code_of_char c with
  | Some code => Ok code
  | None => Err (struct_error ("bad char in struct format: '" ++ text_name [c] ++ "'"))
  end.

Definition is_digit (c : Z) : bool := (48 <=? c) && (c <=? 57).
Definition is_ascii_whitespace (c : Z) : bool := (c =? 32) || (c =? 9) || (c =? 10) || (c =? 12) || (c =? 13).

(** [pending] is the repeat count read so far. *)
Fixpoint parse_fields (pending : option Z) (chars : text) : EvalResult (list Field) :=
  match chars with
  | [] =>
      match pending with
      | Some _ => Err (struct_error "repeat count given without format specifier")
      | None => Ok []
      end
  | c :: chars =>
      let field n := code ← field_code c; fields ← parse_fields None chars; Ok (mkField code n :: fields) in
      match pending with
      | Some n => if is_digit c then parse_fields (Some (wrap64 (n * 10 + (c - 48)))) chars else field n
      | None =>
          if is_ascii_whitespace c then parse_fields None chars
          else if is_digit c then parse_fields (Some (c - 48)) chars
          else field 1
      end
  end.

Definition parse_format (fmt : text) : EvalResult (Mode * list Field) :=
  let (mode, chars) :=
    match fmt with
    | c :: rest =>
        if c =? 60 then (Little, rest)
        else if (c =? 62) || (c =? 33) then (Big, rest)
        else if c =? 61 then (Little, rest)
        else if c =? 64 then (Native, rest)
        else (Native, fmt)
    | [] => (Native, fmt)
    end in
  fields ← parse_fields None chars; Ok (mode, fields).

(** ** Layout *)

Definition align_to (offset alignment : Z) : Z :=
  if 1 <? alignment then wrap64 ((offset + alignment - 1) / alignment * alignment) else offset.

(** Bytes of a field, and the values it takes. *)
Definition field_size (m : Mode) (f : Field) : Z :=
  match code f with code_s => count f | c => wrap64 (count f * code_size c m) end.
Definition field_values (f : Field) : Z :=
  match code f with code_x => 0 | code_s => 1 | _ => count f end.

Fixpoint layout_from (m : Mode) (offset : Z) (fields : list Field) : Z :=
  match fields with
  | [] => offset
  | f :: fields => layout_from m (wrap64 (align_to offset (code_align (code f) m) + field_size m f)) fields
  end.
Definition layout_size (m : Mode) (fields : list Field) : Z := layout_from m 0 fields.

Definition value_count (fields : list Field) : Z := foldr (fun f n => wrap64 (field_values f + n)) 0 fields.

(** ** Packing *)

Definition as_i128 (v : Value) : EvalResult Z :=
  match v with
  | VInt i => Ok i
  | VBool b => Ok (Z.b2z b)
  | VBigInt i =>
      if (- 2 ^ 127 <=? i) && (i <? 2 ^ 127) then Ok i else Err (struct_error "argument out of range")
  | _ => Err (struct_error "required argument is not an integer")
  end.

Definition as_f64 (v : Value) : EvalResult f64 :=
  match v with
  | VFloat f => Ok f
  | VInt i => Ok (f64_of_Z i)
  | VBool b => Ok (f64_of_Z (Z.b2z b))
  | _ => Err (struct_error "required argument is not a float")
  end.

(** Big-endian bytes in the order of the stream. *)
Definition put (m : Mode) (bytes : list Z) : list Z := if big_endian m then bytes else rev bytes.

Definition range_err (c : Code) : EvalError :=
  struct_error match c with
  | code_b => "byte format requires -128 <= number <= 127"
  | code_UB => "ubyte format requires 0 <= number <= 255"
  | code_h => "short format requires -32768 <= number <= 32767"
  | code_UH => "ushort format requires 0 <= number <= 65535"
  | _ => "argument out of range"
  end.

(** Whether the integers of a code are signed. *)
Definition signed_code (c : Code) : bool :=
  match c with code_b | code_h | code_i | code_l | code_q => true | _ => false end.

Definition in_bits (signed : bool) (bits : Z) (i : Z) : bool :=
  if signed then (- 2 ^ (bits - 1) <=? i) && (i <? 2 ^ (bits - 1)) else (0 <=? i) && (i <? 2 ^ bits).

Definition pack_int (m : Mode) (c : Code) (v : Value) : EvalResult (list Z) :=
  i ← as_i128 v;
  if in_bits (signed_code c) (8 * code_size c m) i then Ok (be_bytes (Z.to_nat (code_size c m)) i) else Err (range_err c).

(** One value of a field, in the order of the stream. *)
Definition pack_value (h : Heap) (m : Mode) (c : Code) (v : Value) : EvalResult (list Z) :=
  match c with
  | code_c =>
      match v with
      | VBytes [b] => Ok [b]
      | _ => Err (struct_error "char format requires a bytes object of length 1")
      end
  | code_bool => Ok [Z.b2z match v with VInstance _ _ => true | _ => is_truthy h v end]
  | code_f => f ← as_f64 v; Ok (put m (be_bytes 4 (float_bits 24 128 (f32_of_f64 f))))
  | code_d => f ← as_f64 v; Ok (put m (be_bytes 8 (float_bits 53 1024 f)))
  | code_x | code_s => Panic
  | _ => bytes ← pack_int m c v; Ok (put m bytes)
  end.

Fixpoint pack_values (h : Heap) (m : Mode) (c : Code) (n : nat) (values : list Value) : EvalResult (list Z * list Value) :=
  match n, values with
  | O, _ => Ok ([], values)
  | S n, v :: values =>
      bytes ← pack_value h m c v;
      '(rest, values) ← pack_values h m c n values;
      Ok (bytes ++ rest, values)
  | S _, [] => Panic
  end.

(** [Vec::resize] with zeros. *)
Definition resize (n : nat) (bytes : list Z) : list Z := take n bytes ++ replicate (n - length bytes) 0.

Definition pack_field (h : Heap) (m : Mode) (f : Field) (values : list Value) : EvalResult (list Z * list Value) :=
  match code f with
  | code_x => Ok (replicate (Z.to_nat (count f)) 0, values)
  | code_s =>
      match values with
      | v :: values =>
          bytes ← match v with
                  | VBytes b => Ok b
                  | VByteArray l => Ok (bytes_at h l)
                  | _ => Err (struct_error "argument for 's' must be a bytes object")
                  end;
          Ok (resize (Z.to_nat (count f)) bytes, values)
      | [] => Panic
      end
  | c => pack_values h m c (Z.to_nat (count f)) values
  end.

Fixpoint pack_fields (h : Heap) (m : Mode) (out : list Z) (fields : list Field) (values : list Value) : EvalResult (list Z) :=
  match fields with
  | [] => Ok out
  | f :: fields =>
      let len := Z.of_nat (length out) in
      let pad := wrap64 (align_to len (code_align (code f) m) - len) in
      '(bytes, values) ← pack_field h m f values;
      pack_fields h m (out ++ replicate (Z.to_nat pad) 0 ++ bytes) fields values
  end.

Definition pack (h : Heap) (m : Mode) (fields : list Field) (values : list Value) : EvalResult Value :=
  let expected := value_count fields in
  let got := Z.of_nat (length values) in
  if got =? expected then bytes ← pack_fields h m [] fields values; Ok (VBytes bytes)
  else Err (struct_error ("pack expected " ++ pretty expected ++ " items for packing (got " ++ pretty got ++ ")")).

(** ** Unpacking *)

(** [n] bytes of the buffer, big-endian, and what follows. *)
Definition take_bytes (buf : list Z) (n : Z) (m : Mode) : EvalResult (list Z * list Z) :=
  if Z.of_nat (length buf) <? n then Err (struct_error "unpack requires a buffer of the declared size")
  else Ok (put m (take (Z.to_nat n) buf), drop (Z.to_nat n) buf).

Definition unpack_value (c : Code) (b : list Z) : Value :=
  match c with
  | code_c => VBytes (take 1 b)
  | code_bool => VBool (negb (default 0 (head b) =? 0))
  | code_f => VFloat (f64_of_f32 (bits_float 24 128 (of_be_bytes b)))
  | code_d => VFloat (bits_float 53 1024 (of_be_bytes b))
  | _ => int_from_bigint ((if signed_code c then of_be_bytes_signed else of_be_bytes) b)
  end.

Fixpoint unpack_values (m : Mode) (c : Code) (n : nat) (buf : list Z) : EvalResult (list Value * list Z) :=
  match n with
  | O => Ok ([], buf)
  | S n =>
      '(b, buf) ← take_bytes buf (code_size c m) m;
      '(values, buf) ← unpack_values m c n buf;
      Ok (unpack_value c b :: values, buf)
  end.

(** The values of a field, and the rest of the buffer. *)
Definition unpack_field (m : Mode) (f : Field) (buf : list Z) : EvalResult (list Value * list Z) :=
  let n := Z.to_nat (count f) in
  match code f with
  | code_x => Ok ([], drop n buf)
  | code_s => if (length buf <? n)%nat then Panic else Ok ([VBytes (take n buf)], drop n buf)
  | c => unpack_values m c n buf
  end.

(** From position [pos], where [buf] is what is left. *)
Fixpoint unpack_fields (m : Mode) (fields : list Field) (pos : Z) (buf : list Z) : EvalResult (list Value) :=
  match fields with
  | [] => Ok []
  | f :: fields =>
      let start := align_to pos (code_align (code f) m) in
      '(values, rest) ← unpack_field m f (drop (Z.to_nat (start - pos)) buf);
      more ← unpack_fields m fields (wrap64 (start + field_size m f)) rest;
      Ok (values ++ more)
  end.

Definition unpack (m : Mode) (fields : list Field) (buf : list Z) : EvalResult Value :=
  let need := layout_size m fields in
  if Z.of_nat (length buf) =? need then values ← unpack_fields m fields 0 buf; Ok (VTuple values)
  else Err (struct_error ("unpack requires a buffer of " ++ pretty need ++ " bytes")).

(** ** The module *)

Definition str_arg (v : option Value) (func : string) : EvalResult text :=
  match v with
  | Some (VString s) => Ok s
  | _ =>
      fail (TypeError ("struct." ++ func ++ "() argument 1 must be str, not " ++
                       match v with Some v => type_name v | None => "nothing" end))
  end.

Definition bytes_arg (h : Heap) (v : option Value) : EvalResult (list Z) :=
  match v with
  | Some (VBytes b) => Ok b
  | Some (VByteArray l) => Ok (bytes_at h l)
  | _ => fail (TypeError "unpack() requires a bytes-like object")
  end.

(** Records of [size] bytes, in at most [n] chunks. *)
Fixpoint unpack_chunks (m : Mode) (fields : list Field) (size n : nat) (buf : list Z) : EvalResult (list Value) :=
  match n, buf with
  | _, [] => Ok []
  | O, _ => Panic
  | S n, _ => record ← unpack m fields (take size buf); rest ← unpack_chunks m fields size n (drop size buf); Ok (record :: rest)
  end.

Definition iter_unpack (m : Mode) (fields : list Field) (buf : list Z) : EvalResult (list Value) :=
  let size := layout_size m fields in
  if size =? 0 then Err (struct_error "cannot iteratively unpack with a struct of length 0")
  else if negb (Z.of_nat (length buf) mod size =? 0)
  then Err (struct_error ("iterative unpacking requires a buffer of a multiple of " ++ pretty size ++ " bytes"))
  else unpack_chunks m fields (Z.to_nat size) (length buf) buf.

Definition struct_call (s : InterpreterState) (func : string) (args : list Value) : Eval Value :=
  let format (k : Mode -> list Field -> Eval Value) : Eval Value :=
    let? (s, f) := done s (fmt ← str_arg (head args) func; parse_format fmt) in k f.1 f.2 in
  match func with
  | "calcsize" => format (fun m fields =>
      let size := layout_size m fields in done s (Ok (VInt (if (size <=? i64_max)%Z then size else 0))))
  | "pack" => format (fun m fields => done s (pack (heap s) m fields (tail args)))
  | "unpack" => format (fun m fields => done s (buf ← bytes_arg (heap s) (args !! 1%nat); unpack m fields buf))
  | "iter_unpack" => format (fun m fields =>
      let? (s, records) := done s (buf ← bytes_arg (heap s) (args !! 1%nat); iter_unpack m fields buf) in
      let (v, s) := alloc_lazy records s in done s (Ok v))
  | _ => done s (fail (AttributeError ("module 'struct' has no callable '" ++ func ++ "'")))
  end%string.
End Struct.
