(* ===== verification/StrMethods.v ===== *)
(** The methods of [str] (eval/functions/methods/str.rs), and [str.maketrans]
    (eval/functions/helpers.rs). *)
From Stdlib Require Import ZArith Lia Ascii String SpecFloat.
From stdpp Require Import base tactics list numbers option strings pretty gmap.
From S2P Require Import Prelude PySet Values Errors F64 Keys Arith Classes Slices Compare Operators State Exceptions Op Syntax Methods Text.

(** The Unicode tables of the standard library, and of the crate of general
    categories. [str::to_lowercase] sees the whole text (final sigma). *)
Inductive GeneralCategory : Type :=
| Control | Format | Surrogate | PrivateUse | Unassigned | LineSeparator | ParagraphSeparator | SpaceSeparator
| DecimalNumber | LetterNumber | OtherNumber | OtherCategory.

Class Unicode : Type := {
  to_uppercase : Z -> text;
  to_lowercase : Z -> text;
  str_to_lowercase : text -> text;
  is_alphabetic : Z -> bool;
  is_numeric : Z -> bool;
  is_uppercase : Z -> bool;
  is_lowercase : Z -> bool;
  get_general_category : Z -> GeneralCategory
}.

(** ** Encodings *)

Definition escape_hex (u : Z) : text :=
  if u <=? 255 then lit "\x" ++ hex_digits 2 u
  else if u <=? 65535 then lit "\u" ++ hex_digits 4 u
  else lit "\U" ++ hex_digits 8 u.

Definition unicode_escape_char (c : Z) : text :=
  if c =? 92 then lit "\\"
  else if c =? 10 then lit "\n"
  else if c =? 13 then lit "\r"
  else if c =? 9 then lit "\t"
  else if between 32 126 c then [c]
  else escape_hex c.
Definition unicode_escape_encode (s : text) : list Z := flat_map unicode_escape_char s.

Section Str.
Context `{External} `{!ExternalOrder} `{!Platform} `{!Formats} `{!Calls} `{!Estimates} `{!Unicode}.
Abbreviation Kwargs := (list (string * Value)).
Abbreviation key_eq := (key_eqb structural_eq).

Definition type_error {A} (message : string) : EvalResult A := fail (TypeError message).
Definition exception {A} (type : string) (message : text) : EvalResult A := Err (Exception (ExceptionValue_new type message)).

Fixpoint encode_narrow (s : text) (max : Z) (codec errors : text) : EvalResult (list Z) :=
  match s with
  | [] => Ok []
  | u :: s =>
      let emit bytes := rest ← encode_narrow s max codec errors; Ok (bytes ++ rest) in
      if u <=? max then emit [u]
      else if bool_decide (errors = lit "strict")
      then exception "UnicodeEncodeError" (lit "'" ++ codec ++ lit "' codec can't encode character")
      else if bool_decide (errors = lit "ignore") then emit []
      else if bool_decide (errors = lit "replace") then emit [63]
      else if bool_decide (errors = lit "xmlcharrefreplace") then emit (lit "&#" ++ lit (pretty u) ++ lit ";")
      else if bool_decide (errors = lit "backslashreplace") then emit (escape_hex u)
      else exception "LookupError" (lit "unknown error handler name '" ++ errors ++ lit "'")
  end.

Definition one_of (name : text) (names : list string) : bool := existsb (fun n => bool_decide (name = lit n)) names.

Definition encode (s encoding errors : text) : EvalResult (list Z) :=
  let name := map to_ascii_lower encoding in
  if one_of name ["utf-8"; "utf_8"; "u8"] then Ok (utf8_encode s)
  else if one_of name ["ascii"; "us-ascii"] then encode_narrow s 127 (lit "ascii") errors
  else if one_of name ["latin-1"; "latin1"; "iso-8859-1"; "iso8859-1"] then encode_narrow s 255 (lit "latin-1") errors
  else if one_of name ["utf-16"; "utf16"] then Ok ([255; 254] ++ utf16_encode true s)
  else if one_of name ["utf-16-le"; "utf-16le"; "utf_16_le"] then Ok (utf16_encode true s)
  else if one_of name ["utf-16-be"; "utf-16be"; "utf_16_be"] then Ok (utf16_encode false s)
  else if one_of name ["utf-32"; "utf32"] then Ok ([255; 254; 0; 0] ++ utf32_encode true s)
  else if one_of name ["utf-32-le"; "utf-32le"; "utf_32_le"] then Ok (utf32_encode true s)
  else if one_of name ["utf-32-be"; "utf-32be"; "utf_32_be"] then Ok (utf32_encode false s)
  else if one_of name ["unicode-escape"; "unicode_escape"] then Ok (unicode_escape_encode s)
  else exception "LookupError" (lit "unknown encoding: " ++ name).

(** ** Classes of characters *)

Definition is_alphanumeric (c : Z) : bool := is_alphabetic c || is_numeric c.
Definition decimal (c : Z) : bool := match get_general_category c with DecimalNumber => true | _ => false end.

(** Digits that are no decimals: superscripts, subscripts, circled and Ethiopic
    ones. *)
Definition is_unicode_digit (c : Z) : bool :=
  decimal c || (c =? 178) || (c =? 179) || (c =? 185) || between 4969 4977 c || (c =? 8304) || between 8308 8313 c ||
  between 8320 8329 c || between 9312 9320 c || between 9332 9340 c || between 9352 9360 c || (c =? 9450) ||
  between 9461 9469 c || (c =? 9471) || between 10102 10110 c || between 10112 10120 c || between 10122 10130 c.

Definition has_numeric_value (c : Z) : bool :=
  match get_general_category c with DecimalNumber | LetterNumber | OtherNumber => true | _ => false end.

Definition char_is_printable (c : Z) : bool :=
  (c =? 32) ||
  match get_general_category c with
  | Control | Format | Surrogate | PrivateUse | Unassigned | LineSeparator | ParagraphSeparator | SpaceSeparator => false
  | _ => true
  end.

Definition is_identifier (s : text) : bool :=
  match s with
  | [] => false
  | first :: rest =>
      ((first =? 95) || is_alphabetic first) && forallb (fun c => (c =? 95) || is_alphanumeric c) rest
  end.

Fixpoint title_cased (upper lower : Z -> bool) (seen prev : bool) (s : list Z) : bool :=
  match s with
  | [] => seen
  | c :: s =>
      if upper c then negb prev && title_cased upper lower true true s
      else if lower c then prev && title_cased upper lower true true s
      else title_cased upper lower seen false s
  end.
Definition is_title (s : text) : bool := title_cased is_uppercase is_lowercase false false s.

(** ** Case *)

(** Titlecase where it is not the uppercase mapping. *)
Definition titlecase_table : list (Z * text) :=
  [(452, [453]); (453, [453]); (454, [453]); (455, [456]); (456, [456]); (457, [456]); (458, [459]); (459, [459]);
   (460, [459]); (497, [498]); (498, [498]); (499, [498]); (223, [83; 115]); (1415, [1333; 1410]); (8064, [8072]);
   (8065, [8073]); (8066, [8074]); (8067, [8075]); (8068, [8076]); (8069, [8077]); (8070, [8078]); (8071, [8079]);
   (8072, [8072]); (8073, [8073]); (8074, [8074]); (8075, [8075]); (8076, [8076]); (8077, [8077]); (8078, [8078]);
   (8079, [8079]); (8080, [8088]); (8081, [8089]); (8082, [8090]); (8083, [8091]); (8084, [8092]); (8085, [8093]);
   (8086, [8094]); (8087, [8095]); (8088, [8088]); (8089, [8089]); (8090, [8090]); (8091, [8091]); (8092, [8092]);
   (8093, [8093]); (8094, [8094]); (8095, [8095]); (8096, [8104]); (8097, [8105]); (8098, [8106]); (8099, [8107]);
   (8100, [8108]); (8101, [8109]); (8102, [8110]); (8103, [8111]); (8104, [8104]); (8105, [8105]); (8106, [8106]);
   (8107, [8107]); (8108, [8108]); (8109, [8109]); (8110, [8110]); (8111, [8111]); (8114, [8122; 837]); (8115,
   [8124]); (8116, [902; 837]); (8119, [913; 834; 837]); (8124, [8124]); (8130, [8138; 837]); (8131, [8140]);
   (8132, [905; 837]); (8135, [919; 834; 837]); (8140, [8140]); (8178, [8186; 837]); (8179, [8188]); (8180, [911;
   837]); (8183, [937; 834; 837]); (8188, [8188]); (64256, [70; 102]); (64257, [70; 105]); (64258, [70; 108]);
   (64259, [70; 102; 105]); (64260, [70; 102; 108]); (64261, [83; 116]); (64262, [83; 116]); (64275, [1348; 1398]);
   (64276, [1348; 1381]); (64277, [1348; 1387]); (64278, [1358; 1398]); (64279, [1348; 1389])].

Definition titlecase (c : Z) : text :=
  if between 4304 4351 c then [c]
  else match find (fun kv => kv.1 =? c) titlecase_table with Some (_, s) => s | None => to_uppercase c end.

Fixpoint title_from (capitalize_next : bool) (s : text) : text :=
  match s with
  | [] => []
  | c :: s =>
      if negb (is_alphabetic c) then c :: title_from true s
      else (if capitalize_next then titlecase c else to_lowercase c) ++ title_from false s
  end.

Definition capitalize (s : text) : text :=
  match s with [] => [] | first :: rest => titlecase first ++ flat_map to_lowercase rest end.

Definition swap_char (c : Z) : text := if is_uppercase c then to_lowercase c else to_uppercase c.

Definition fold_char (c : Z) : text :=
  if (c =? 223) || (c =? 7838) then lit "ss" else if (c =? 962) || (c =? 931) then [963] else to_lowercase c.
Definition unicode_casefold (s : text) : text := flat_map fold_char s.

(** ** Arguments *)

Definition to_index (i : Z) : EvalResult nat :=
  if (i <? 0) then fail (Runtime "index overflow or negative") else Ok (Z.to_nat i).

Definition opt_index_arg (arg : option Value) : EvalResult (option Z) :=
  match arg with
  | None | Some VNone => Ok None
  | Some v => Some <$> value_to_i64 v
  end.

Definition strip_chars (method : string) (args : list Value) : EvalResult (option text) :=
  match args with
  | [] | VNone :: _ => Ok None
  | VString chars :: _ => Ok (Some chars)
  | _ :: _ => type_error (method ++ " arg must be None or str")
  end.

Definition coerce_maxsplit (arg : option Value) : EvalResult Z :=
  match arg with None | Some VNone => Ok (-1) | Some v => value_to_i64 v end.

Definition parse_search_args (method : string) (args : list Value) : EvalResult (text * option Z * option Z) :=
  match args with
  | [] | _ :: _ :: _ :: _ :: _ => type_error (method ++ "() takes at least 1 argument")
  | VString sub :: _ =>
      start ← opt_index_arg (args !! 1%nat);
      stop ← opt_index_arg (args !! 2%nat);
      Ok (sub, start, stop)
  | _ => type_error (method ++ "() argument must be str")
  end.

(** The window of optional bounds over [len] characters or bytes. *)
Definition resolve_window (len : nat) (start stop : option Z) : nat * nat :=
  let n := Z.of_nat len in
  let clamp i := let i := if i <? 0 then i + n else i in Z.max 0 (Z.min i n) in
  let first := clamp (default 0 start) in
  let last := Z.max (clamp (default n stop)) first in
  (Z.to_nat first, Z.to_nat last).

Definition within {A} (w : nat * nat) (s : list A) : list A := take (w.2 - w.1) (drop w.1 s).

(** The position a search reports. *)
Definition search_result (w : nat * nat) (pos : option nat) : option Z := (fun i => Z.of_nat (w.1 + i)) <$> pos.

(** ** Lines and words *)

Definition line_break (c : Z) : bool :=
  between 10 13 c || between 28 30 c || (c =? 133) || (c =? 8232) || (c =? 8233).

Fixpoint split_lines_from (keepends : bool) (line : text) (s : text) : list text :=
  match s with
  | [] => if is_nil line then [] else [rev line]
  | c :: s =>
      if line_break c then
        match s with
        | d :: s' =>
            if (c =? 13) && (d =? 10)
            then rev (if keepends then d :: c :: line else line) :: split_lines_from keepends [] s'
            else rev (if keepends then c :: line else line) :: split_lines_from keepends [] s
        | [] => [rev (if keepends then c :: line else line)]
        end
      else split_lines_from keepends (c :: line) s
  end.
Definition split_lines (s : text) (keepends : bool) : list text := split_lines_from keepends [] s.

Fixpoint find_char (p : Z -> bool) (s : text) : option nat :=
  match s with [] => None | c :: s => if p c then Some 0%nat else S <$> find_char p s end.

(** The loop of [split_whitespace_max], in [fuel] rounds. *)
Fixpoint split_words (fuel : nat) (maxsplit splits : Z) (rest : text) : list text :=
  match fuel, rest with
  | _, [] => []
  | O, _ => [rest]
  | S fuel, _ =>
      if (0 <=? maxsplit) && (maxsplit <=? splits) then [rest]
      else
        match find_char is_whitespace rest with
        | Some ws => take ws rest :: split_words fuel maxsplit (splits + 1) (trim_start is_whitespace (drop ws rest))
        | None => [rest]
        end
  end.
Definition split_whitespace_max (s : text) (maxsplit : Z) : list text :=
  if maxsplit =? 0 then [s] else split_words (length s) maxsplit 0 (trim_start is_whitespace s).

(** The end of the words, each looked for from the end of the one before. *)
Fixpoint after_words (s : text) (from : nat) (words : list text) : nat :=
  match words with
  | [] => from
  | w :: words => after_words s (default from (Nat.add from <$> find_sub w (drop from s)) + length w) words
  end.

Definition rsplit_whitespace_max (s : text) (maxsplit : Z) : list text :=
  if maxsplit <? 0 then split_whitespace s
  else if maxsplit =? 0 then [s]
  else
    let words := split_whitespace s in
    let n := length words in
    let keep := Nat.min (Z.to_nat maxsplit) n in
    if is_nil words || (n <=? keep)%nat then words
    else
      let from := after_words s 0 (take (n - keep) words) in
      let target := default [] (words !! (n - keep)%nat) in
      let rem_end := default from (Nat.add from <$> find_sub target (drop from s)) in
      trim_end is_whitespace (take rem_end s) :: drop (n - keep) words.

(** ** Padding *)

Definition fill_char (args : list Value) : Z :=
  match args with _ :: VString (f :: _) :: _ => f | _ => 32 end.

Definition pad_width (method at_least : string) (args : list Value) : EvalResult nat :=
  match args with
  | [] => type_error (method ++ "() takes " ++ at_least ++ " 1 argument")
  | width :: _ => i ← value_to_i64 width; to_index i
  end.

Definition center {A} (fill : A) (width : nat) (s : list A) : list A :=
  let pad := (width - length s)%nat in
  replicate (pad / 2) fill ++ s ++ replicate (pad - pad / 2) fill.
Definition ljust {A} (fill : A) (width : nat) (s : list A) : list A := s ++ replicate (width - length s) fill.
Definition rjust {A} (fill : A) (width : nat) (s : list A) : list A := replicate (width - length s) fill ++ s.

Definition zfill (width : nat) (s : list Z) : list Z :=
  let zeros := replicate (width - length s) 48 in
  match s with
  | c :: rest => if (c =? 45) || (c =? 43) then c :: zeros ++ rest else zeros ++ s
  | [] => zeros
  end.

(** Tabs to the next multiple of [tabsize]; a line break starts over. *)
Fixpoint expandtabs (tabsize col : Z) (s : list Z) : list Z :=
  match s with
  | [] => []
  | c :: s =>
      if c =? 9 then
        let pad := if tabsize =? 0 then 0 else tabsize - col mod tabsize in
        replicate (Z.to_nat pad) 32 ++ expandtabs tabsize (col + pad) s
      else if (c =? 10) || (c =? 13) then c :: expandtabs tabsize 0 s
      else c :: expandtabs tabsize (col + 1) s
  end.

(** ** Translation tables *)

Definition char_key (c : Z) : ValueKey := KInt c.

Fixpoint translate_chars (table : list (ValueKey * Value)) (s : text) : EvalResult text :=
  match s with
  | [] => Ok []
  | c :: s =>
      out ← match im_get key_eq table (char_key c) with
            | None => Ok [c]
            | Some VNone => Ok []
            | Some (VInt n) =>
                if scalar n then Ok [n] else fail (ValueError "character mapping must be in range(0x110000)")
            | Some (VString rep) => Ok rep
            | Some other => type_error ("character mapping must return integer, None or str, not " ++ type_name other)
            end;
      rest ← translate_chars table s;
      Ok (out ++ rest)
  end.

Definition translate (h : Heap) (s : text) (table : Value) : EvalResult text :=
  match table with
  | VDict l => translate_chars (dict_at h l) s
  | _ => type_error ("'" ++ type_name table ++ "' object is not subscriptable")
  end.

Fixpoint table_of_dict (entries : list (ValueKey * Value)) (table : list (ValueKey * Value)) :
    EvalResult (list (ValueKey * Value)) :=
  match entries with
  | [] => Ok table
  | (k, v) :: entries =>
      key ← match k with
            | KInt _ => Ok k
            | KString [c] => Ok (char_key c)
            | KString _ => fail (ValueError "string keys in translate table must be of length 1")
            | _ => type_error "keys in translate table must be strings or integers"
            end;
      table_of_dict entries (im_insert key_eq table key v)
  end.

Definition str_maketrans (h : Heap) (args : list Value) : EvalResult (list (ValueKey * Value)) :=
  match args with
  | [VDict l] => table_of_dict (dict_at h l) []
  | VString x :: VString y :: rest =>
      if negb (length x =? length y)%nat
      then fail (ValueError "the first two maketrans arguments must have equal length")
      else
        let table := fold_left (fun t cc => im_insert key_eq t (char_key cc.1) (VInt cc.2)) (combine x y) [] in
        match rest with
        | [] => Ok table
        | [VString z] => Ok (fold_left (fun t c => im_insert key_eq t (char_key c) VNone) z table)
        | _ => type_error "maketrans third argument must be a str"
        end
  | _ => type_error "maketrans expects a dict, or two/three str arguments"
  end.

(** ** The methods *)

(** A result and the heap, where lists are allocated. *)
Definition Method : Type := Heap -> text -> list Value -> Kwargs -> EvalResult (Value * Heap).

Definition plain (h : Heap) (r : EvalResult Value) : EvalResult (Value * Heap) := v ← r; Ok (v, h).
Definition new_list (h : Heap) (vs : list Value) : EvalResult (Value * Heap) := let (l, h) := shared_list h vs in Ok (VList l, h).
Definition texts (pieces : list text) : list Value := map VString pieces.

Definition mapped (f : text -> text) : Method := fun h s _ _ => plain h (Ok (VString (f s))).
Definition test (p : text -> bool) : Method := fun h s _ _ => plain h (Ok (VBool (p s))).
Definition all_chars (p : Z -> bool) (s : text) : bool := negb (is_nil s) && forallb p s.
Definition only (p q : Z -> bool) (s : text) : bool := existsb p s && negb (existsb q s).

Definition stripped (name : string) (trim : (Z -> bool) -> text -> text) : Method := fun h s args _ =>
  chars ← strip_chars name args;
  plain h (Ok (VString (trim match chars with Some chars => fun c => existsb (Z.eqb c) chars | None => is_whitespace end s))).

Definition limit_of (maxsplit : Z) : EvalResult (option Z) :=
  if maxsplit <? 0 then Ok None
  else n ← to_index (swrap64 (maxsplit + 1)); Ok (Some (Z.of_nat n - 1)).

Definition splitting (name : string) (words : text -> Z -> list text) (pieces : text -> text -> option Z -> list text) :
    Method := fun h s args kwargs =>
  bound ← bind_method_params name args kwargs ["sep"; "maxsplit"];
  maxsplit ← coerce_maxsplit (mjoin (bound !! 1%nat));
  match mjoin (bound !! 0%nat) with
  | None | Some VNone => new_list h (texts (words s maxsplit))
  | Some (VString sep) =>
      if is_nil sep then fail (ValueError "empty separator")
      else limit ← limit_of maxsplit; new_list h (texts (pieces sep s limit))
  | Some other => type_error ("must be str or None, not " ++ type_name other)
  end.

(** Without a limit [rsplit] splits from the left. *)
Definition rsplit_pieces (sep s : text) (limit : option Z) : list text :=
  match limit with Some _ => rsplit_on sep s limit | None => split_on sep s None end.

Fixpoint join_parts (i : nat) (items : list Value) : EvalResult (list text) :=
  match items with
  | [] => Ok []
  | VString s :: items => rest ← join_parts (S i) items; Ok (s :: rest)
  | v :: _ => type_error ("sequence item " ++ pretty i ++ ": expected str instance, " ++ type_name v ++ " found")
  end.

Definition str_join : Method := fun h s args _ =>
  match args with
  | [arg] =>
      match dispatch_iter structural_eq set_elem h arg with
      | Ok (items, h) => parts ← join_parts 0 items; Ok (VString (join s parts), h)
      | Err _ => type_error "can only join an iterable"
      | Panic => Panic
      end
  | _ => type_error "join() takes exactly one argument"
  end.

Definition str_replace : Method := fun h s args _ =>
  match args with
  | old :: new :: rest =>
      if (1 <? length rest)%nat then type_error "replace() takes 2 or 3 arguments"
      else
        match old, new with
        | VString old, VString new =>
            count ← match rest with c :: _ => value_to_i64 c | [] => Ok (-1) end;
            plain h (Ok (VString (replace_sub old new s (if count <? 0 then None else Some count))))
        | _, _ => type_error "replace() argument must be str"
        end
  | _ => type_error "replace() takes 2 or 3 arguments"
  end.

Fixpoint any_affix (has : text -> bool) (message : string) (items : list Value) : EvalResult bool :=
  match items with
  | [] => Ok false
  | VString p :: items => if has p then Ok true else any_affix has message items
  | _ => type_error message
  end.

Definition string_affix (name : string) (matches : text -> text -> bool) : Method := fun h s args _ =>
  match args with
  | [] | _ :: _ :: _ :: _ :: _ => type_error (name ++ "() takes at least 1 argument")
  | affix :: _ =>
      start ← opt_index_arg (args !! 1%nat);
      stop ← opt_index_arg (args !! 2%nat);
      let has p := matches p (within (resolve_window (length s) start stop) s) in
      found ← match affix with
              | VString p => Ok (has p)
              | VTuple items => any_affix has ("tuple for " ++ name ++ "() must only contain str") items
              | _ => type_error (name ++ "() first arg must be str or a tuple of str")
              end;
      plain h (Ok (VBool found))
  end.

Definition str_encode : Method := fun h s args kwargs =>
  bound ← bind_method_params "encode" args kwargs ["encoding"; "errors"];
  encoding ← match mjoin (bound !! 0%nat) with
             | Some (VString name) => Ok name
             | None => Ok (lit "utf-8")
             | Some _ => type_error "encode() argument must be str"
             end;
  errors ← match mjoin (bound !! 1%nat) with
           | Some (VString e) => Ok e
           | None => Ok (lit "strict")
           | Some _ => type_error "errors must be str"
           end;
  bytes ← encode s encoding errors;
  plain h (Ok (VBytes bytes)).

Definition str_expandtabs : Method := fun h s args kwargs =>
  bound ← bind_method_params "expandtabs" args kwargs ["tabsize"];
  tabsize ← match mjoin (bound !! 0%nat) with
            | Some (VInt n) => Ok (Z.max n 0)
            | Some (VBool b) => Ok (Z.b2z b)
            | Some _ => type_error "expandtabs() argument must be int"
            | None => Ok 8
            end;
  plain h (Ok (VString (expandtabs tabsize 0 s))).

Definition partitioned (name : string) (find : text -> text -> option nat) (missing : text -> list text) : Method :=
  fun h s args _ =>
  match args with
  | [] => type_error (name ++ "() requires 1 argument")
  | VString sep :: _ =>
      plain h (Ok (VTuple (texts match find sep s with
                                 | Some i => [take i s; sep; drop (i + length sep) s]
                                 | None => missing s
                                 end)))
  | _ => type_error (name ++ "() argument must be str")
  end.

Definition affix_removed (name : string) (strip : text -> text -> option text) : Method := fun h s args _ =>
  match args with
  | [] => type_error (name ++ "() takes exactly 1 argument")
  | VString affix :: _ => plain h (Ok (VString (default s (strip affix s))))
  | _ => type_error (name ++ "() argument must be str")
  end.

(** [find] and [rfind], and [index] and [rindex]. *)
Definition searched (name : string) (find : text -> text -> option nat) (missing : EvalResult Value) : Method :=
  fun h s args _ =>
  '(sub, start, stop) ← parse_search_args name args;
  let w := resolve_window (length s) start stop in
  plain h match search_result w (find sub (within w s)) with Some i => Ok (VInt i) | None => missing end.

Definition substring_missing : EvalResult Value := exception "ValueError" (lit "substring not found").

Definition str_count : Method := fun h s args _ =>
  '(sub, start, stop) ← parse_search_args "count" args;
  plain h (Ok (VInt (count_sub sub (within (resolve_window (length s) start stop) s)))).

Definition padded (name : string) (pad : Z -> nat -> text -> text) : Method := fun h s args _ =>
  width ← pad_width name "at least" args;
  plain h (Ok (VString (pad (fill_char args) width s))).

Definition str_zfill : Method := fun h s args _ =>
  width ← pad_width "zfill" "exactly" args;
  plain h (Ok (VString (if (width <=? length s)%nat then s else zfill width s))).

Definition str_splitlines : Method := fun h s args kwargs =>
  bound ← bind_method_params "splitlines" args kwargs ["keepends"];
  let keepends := match mjoin (bound !! 0%nat) with None | Some VNone => false | Some v => is_truthy h v end in
  new_list h (texts (split_lines s keepends)).

Definition str_translate : Method := fun h s args _ =>
  match args with
  | [] => type_error "translate() takes exactly one argument (0 given)"
  | table :: _ => out ← translate h s table; plain h (Ok (VString out))
  end.

Definition str_maketrans_method : Method := fun h _ args _ =>
  table ← str_maketrans h args; let (l, h) := shared_dict h table in Ok (VDict l, h).

Definition string_methods : list (string * Method) :=
  [("upper", mapped (flat_map to_uppercase)); ("lower", mapped str_to_lowercase);
   ("strip", stripped "strip" trim); ("lstrip", stripped "lstrip" trim_start); ("rstrip", stripped "rstrip" trim_end);
   ("split", splitting "split" split_whitespace_max split_on);
   ("rsplit", splitting "rsplit" rsplit_whitespace_max rsplit_pieces);
   ("join", str_join); ("replace", str_replace);
   ("startswith", string_affix "startswith" starts_with); ("endswith", string_affix "endswith" ends_with);
   ("casefold", mapped unicode_casefold); ("encode", str_encode); ("expandtabs", str_expandtabs);
   ("partition", partitioned "partition" find_sub (fun s => [s; []; []]));
   ("rpartition", partitioned "rpartition" rfind_sub (fun s => [[]; []; s]));
   ("removeprefix", affix_removed "removeprefix" strip_prefix); ("removesuffix", affix_removed "removesuffix" strip_suffix);
   ("find", searched "find" find_sub (Ok (VInt (-1)))); ("rfind", searched "rfind" rfind_sub (Ok (VInt (-1))));
   ("index", searched "index" find_sub substring_missing); ("rindex", searched "rindex" rfind_sub substring_missing);
   ("count", str_count);
   ("isdigit", test (all_chars is_unicode_digit)); ("isalpha", test (all_chars is_alphabetic));
   ("isalnum", test (all_chars is_alphanumeric)); ("isspace", test (all_chars is_whitespace));
   ("isupper", test (only is_uppercase is_lowercase)); ("islower", test (only is_lowercase is_uppercase));
   ("title", mapped (title_from true)); ("capitalize", mapped capitalize); ("swapcase", mapped (flat_map swap_char));
   ("center", padded "center" center); ("ljust", padded "ljust" ljust); ("rjust", padded "rjust" rjust);
   ("zfill", str_zfill); ("splitlines", str_splitlines);
   ("isidentifier", test is_identifier); ("istitle", test is_title); ("isprintable", test (forallb char_is_printable));
   ("isascii", test (forallb (fun c => (c <? 128)%Z))); ("isdecimal", test (all_chars decimal));
   ("isnumeric", test (all_chars has_numeric_value)); ("translate", str_translate); ("maketrans", str_maketrans_method)]%string.

Definition takes_keywords (method : string) : bool :=
  existsb (String.eqb method) ["split"; "rsplit"; "encode"; "expandtabs"; "splitlines"]%string.

Definition dispatch_string_method (h : Heap) (s : text) (method : string) (args : list Value) (kwargs : Kwargs) :
    EvalResult (Value * Heap) :=
  _ ← if takes_keywords method then Ok () else reject_kwargs method kwargs;
  match find (fun m => String.eqb m.1 method) string_methods with
  | Some (_, m) => m h s args kwargs
  | None => no_attribute "str" method
  end.
End Str.
