(* ===== verification/BytesMethods.v ===== *)
(** The methods of [bytes], [bytearray] and [memoryview]
    (eval/functions/methods/bytes.rs). *)
From Stdlib Require Import ZArith Lia Ascii String SpecFloat.
From stdpp Require Import base tactics list numbers option strings pretty gmap.
From S2P Require Import Prelude PySet Values Errors F64 Keys Arith Classes Slices Compare Operators State Exceptions Op Syntax Methods Text StrMethods.

(** ** Decoding *)

(** [u32::from_str_radix(16)]: a sign [+] is accepted before the digits. *)
Fixpoint hex_value (acc : Z) (digits : list Z) : option Z :=
  match digits with
  | [] => Some acc
  | d :: digits => match digit_value d with Some v => hex_value (16 * acc + v) digits | None => None end
  end.
Definition from_hex (digits : list Z) : option Z :=
  match digits with
  | [] => None
  | 43 :: [] => None
  | 43 :: digits => hex_value 0 digits
  | _ => hex_value 0 digits
  end.

(** One escape, after the backslash: what it stands for and what follows it. *)
Definition unescape_one (c : Z) (rest : list Z) : text * list Z :=
  let hex n :=
    match from_hex (take n rest) with
    | Some v => (if scalar v then [v] else [], drop n rest)
    | None => ([], rest)
    end in
  if c =? 110 then ([10], rest) else if c =? 116 then ([9], rest) else if c =? 114 then ([13], rest)
  else if c =? 92 then ([92], rest) else if c =? 39 then ([39], rest) else if c =? 34 then ([34], rest)
  else if c =? 97 then ([7], rest) else if c =? 98 then ([8], rest) else if c =? 102 then ([12], rest)
  else if c =? 118 then ([11], rest) else if c =? 48 then ([0], rest)
  else if c =? 120 then hex 2%nat else if c =? 117 then hex 4%nat else if c =? 85 then hex 8%nat
  else ([92; c], rest).

Fixpoint unescape (fuel : nat) (b : list Z) : text :=
  match fuel, b with
  | _, [] => []
  | O, _ => []
  | S fuel, c :: rest =>
      match rest with
      | e :: rest' => if c =? 92 then let (out, rest) := unescape_one e rest' in out ++ unescape fuel rest else c :: unescape fuel rest
      | [] => [c]
      end
  end.
Definition unicode_escape_decode (b : list Z) : text := unescape (length b) b.

Section Bytes.
Context `{External} `{!ExternalOrder} `{!Platform} `{!Formats} `{!Calls} `{!Estimates} `{!Unicode}.
Abbreviation Kwargs := (list (string * Value)).

Definition unknown_error_handler {A} (errors : text) : EvalResult A :=
  exception "LookupError" (lit "unknown error handler name '" ++ errors ++ lit "'").

Definition decode_error {A} (codec : string) (byte : Z) (pos : nat) (reason : string) : EvalResult A :=
  exception "UnicodeDecodeError"
    (lit "'" ++ lit codec ++ lit "' codec can't decode byte 0x" ++ hex_digits 2 byte ++ lit " in position " ++
     lit (pretty pos) ++ lit ": " ++ lit reason).

Definition decode_utf8_with_errors (b : list Z) (errors : text) : EvalResult text :=
  if bool_decide (errors = lit "replace") then Ok (utf8_lossy_text b)
  else if bool_decide (errors = lit "ignore") then Ok (utf8_marking [] (length b) b)
  else
    match utf8_of_bytes b with
    | inl s => Ok s
    | inr (pos, len) =>
        if bool_decide (errors = lit "strict") then
          let byte := default 0 (b !! pos) in
          decode_error "utf-8" byte pos
            match len with
            | None => "unexpected end of data"
            | Some _ => if between 194 244 byte then "invalid continuation byte" else "invalid start byte"
            end
        else unknown_error_handler errors
    end.

Definition is_ascii (b : list Z) : bool := forallb (fun c => c <? 128) b.

Definition decode_ascii_with_errors (b : list Z) (errors : text) : EvalResult text :=
  if is_ascii b then Ok b
  else if bool_decide (errors = lit "replace") then Ok (map (fun c => if c <? 128 then c else 65533) b)
  else if bool_decide (errors = lit "ignore") then Ok (List.filter (fun c => c <? 128) b)
  else if bool_decide (errors = lit "strict") then
    let pos := default 0%nat (find_char (fun c => 128 <=? c) b) in
    decode_error "ascii" (default 0 (b !! pos)) pos "ordinal not in range(128)"
  else unknown_error_handler errors.

Definition or_value_error {A} (message : string) (o : option A) : EvalResult A :=
  match o with Some a => Ok a | None => fail (ValueError message) end.

Definition decode (b : list Z) (encoding errors : text) : EvalResult text :=
  let name := map to_ascii_lower encoding in
  let utf16 (order : bool * list Z) := or_value_error "invalid utf-16 data" (from_utf16 (units2 order.1 order.2)) in
  let utf32 (order : bool * list Z) := or_value_error "invalid utf-32 data" (from_utf32 (units4 order.1 order.2)) in
  if one_of name ["utf-8"; "utf_8"; "u8"] then decode_utf8_with_errors b errors
  else if one_of name ["ascii"; "us-ascii"] then decode_ascii_with_errors b errors
  else if one_of name ["latin-1"; "latin1"; "iso-8859-1"; "iso8859-1"] then Ok b
  else if one_of name ["utf-16-be"; "utf-16be"; "utf_16_be"] then utf16 (false, b)
  else if one_of name ["utf-16-le"; "utf-16le"; "utf_16_le"] then utf16 (true, b)
  else if one_of name ["utf-16"; "utf16"] then utf16 (bom16 b)
  else if one_of name ["utf-32-be"; "utf-32be"; "utf_32_be"] then utf32 (false, b)
  else if one_of name ["utf-32-le"; "utf-32le"; "utf_32_le"] then utf32 (true, b)
  else if one_of name ["utf-32"; "utf32"] then utf32 (bom32 b)
  else if one_of name ["unicode-escape"; "unicode_escape"] then Ok (unicode_escape_decode b)
  else exception "LookupError" (lit "unknown encoding: " ++ name).

Definition keyword (kwargs : Kwargs) (name : string) : option Value := im_get String.eqb kwargs name.

Fixpoint decode_keywords (kwargs : Kwargs) : EvalResult () :=
  match kwargs with
  | [] => Ok ()
  | (key, _) :: kwargs =>
      if String.eqb key "encoding" || String.eqb key "errors" then decode_keywords kwargs
      else type_error ("'" ++ key ++ "' is an invalid keyword argument for decode()")
  end.

Definition decode_argument (which : string) (value : option Value) (default : string) : EvalResult text :=
  match value with
  | Some (VString name) => Ok name
  | Some _ => type_error ("decode() argument '" ++ which ++ "' must be str")
  | None => Ok (lit default)
  end.

Definition or_else {A} (a b : option A) : option A := match a with Some _ => a | None => b end.

Definition bytes_decode (b : list Z) (args : list Value) (kwargs : Kwargs) : EvalResult Value :=
  _ ← decode_keywords kwargs;
  encoding ← decode_argument "encoding" (or_else (args !! 0%nat) (keyword kwargs "encoding")) "utf-8";
  errors ← decode_argument "errors" (or_else (args !! 1%nat) (keyword kwargs "errors")) "strict";
  s ← decode b encoding errors;
  Ok (VString s).

(** ** Hexadecimal *)

Definition hex_byte (b : Z) : text := hex_digits 2 b.

(** A separator every [width] bytes, counted from the right or from the left; [i] is
    the position and [n] the length of the whole. *)
Fixpoint hex_groups (sep : Z) (width n : Z) (from_right : bool) (i : Z) (raw : list Z) : text :=
  match raw with
  | [] => []
  | byte :: raw =>
      let boundary := (0 <? i) && (if from_right then (n - i) mod width =? 0 else i mod width =? 0) in
      (if boundary then [sep] else []) ++ hex_byte byte ++ hex_groups sep width n from_right (i + 1) raw
  end.

Definition bytes_to_hex (raw : list Z) (args : list Value) : EvalResult Value :=
  sep ← match args with
        | [] | VNone :: _ => Ok None
        | VString [c] :: _ => Ok (Some c)
        | VString _ :: _ => fail (ValueError "sep must be length 1.")
        | other :: _ => type_error ("hex() argument 'sep' must be str, not " ++ type_name other)
        end;
  match sep with
  | None => Ok (VString (flat_map hex_byte raw))
  | Some sep =>
      group ← match args !! 1%nat with
              | None => Ok 1
              | Some (VInt n) => Ok n
              | Some (VBool b) => Ok (Z.b2z b)
              | Some other => type_error ("hex() argument 'bytes_per_sep' must be int, not " ++ type_name other)
              end;
      if group =? 0 then fail (ValueError "bytes_per_sep must not be zero")
      else Ok (VString (hex_groups sep (Z.abs group) (Z.of_nat (length raw)) (0 <? group) 0 raw))
  end.

(** ** Searches *)

Definition bytes_needle (method : string) (arg : Value) : EvalResult (list Z) :=
  match arg with
  | VBytes v => Ok v
  | VInt i => if between 0 255 i then Ok [i] else fail (ValueError "byte must be in range(0, 256)")
  | VBool b => Ok [Z.b2z b]
  | _ => type_error (method ++ "() argument should be integer or bytes-like object, not '" ++ type_name arg ++ "'")
  end.

Definition bytes_search_args (b : list Z) (method : string) (args : list Value) : EvalResult (list Z * (nat * nat)) :=
  match args with
  | [] | _ :: _ :: _ :: _ :: _ => type_error (method ++ "() takes at least 1 argument")
  | arg :: _ =>
      needle ← bytes_needle method arg;
      start ← opt_index_arg (args !! 1%nat);
      stop ← opt_index_arg (args !! 2%nat);
      Ok (needle, resolve_window (length b) start stop)
  end.

Definition bytes_search (b : list Z) (method : string) (args : list Value) (find : list Z -> list Z -> option nat)
    (missing : EvalResult Value) : EvalResult Value :=
  '(needle, w) ← bytes_search_args b method args;
  match search_result w (find needle (within w b)) with Some i => Ok (VInt i) | None => missing end.

Fixpoint any_bytes_affix (has : list Z -> bool) (method : string) (items : list Value) : EvalResult bool :=
  match items with
  | [] => Ok false
  | VBytes p :: items => if has p then Ok true else any_bytes_affix has method items
  | _ => type_error ("a bytes-like object is required for " ++ method ++ "()")
  end.

Definition bytes_affix (b : list Z) (method : string) (args : list Value) (matches : list Z -> list Z -> bool) :
    EvalResult Value :=
  match args with
  | [] | _ :: _ :: _ :: _ :: _ => type_error (method ++ "() takes at least 1 argument")
  | affix :: _ =>
      start ← opt_index_arg (args !! 1%nat);
      stop ← opt_index_arg (args !! 2%nat);
      let has p := matches p (within (resolve_window (length b) start stop) b) in
      found ← match affix with
              | VBytes p => Ok (has p)
              | VTuple items => any_bytes_affix has method items
              | _ => type_error (method ++ "() first arg must be bytes or a tuple of bytes")
              end;
      Ok (VBool found)
  end.

(** ** Pieces *)

Definition split_arguments (method : string) (args : list Value) : EvalResult (list Z * option Z) :=
  sep ← match args with
        | VBytes s :: _ => Ok s
        | _ :: _ => type_error (method ++ "() argument must be bytes")
        | [] => Ok [32]
        end;
  if is_nil sep then fail (ValueError "empty separator")
  else
    maxsplit ← match args !! 1%nat with
               | None | Some VNone => Ok (-1)
               | Some (VInt n) => Ok n
               | Some (VBool b) => Ok (Z.b2z b)
               | Some _ => type_error (method ++ "() maxsplit must be an integer")
               end;
    Ok (sep, if maxsplit <? 0 then None else Some maxsplit).

Fixpoint bytes_parts (i : nat) (items : list Value) : EvalResult (list (list Z)) :=
  match items with
  | [] => Ok []
  | VBytes part :: items => rest ← bytes_parts (S i) items; Ok (part :: rest)
  | v :: _ => type_error ("sequence item " ++ pretty i ++ ": expected a bytes-like object, " ++ type_name v ++ " found")
  end.

Fixpoint byte_lines (keepends : bool) (line : list Z) (b : list Z) : list (list Z) :=
  match b with
  | [] => if is_nil line then [] else [rev line]
  | c :: b =>
      if (c =? 10) || (c =? 13) then
        match b with
        | d :: b' =>
            if (c =? 13) && (d =? 10)
            then rev (if keepends then d :: c :: line else line) :: byte_lines keepends [] b'
            else rev (if keepends then c :: line else line) :: byte_lines keepends [] b
        | [] => [rev (if keepends then c :: line else line)]
        end
      else byte_lines keepends (c :: line) b
  end.

(** ** Case *)

Definition bytes_swapcase (c : Z) : Z := if ascii_upper c then to_ascii_lower c else if ascii_lower c then to_ascii_upper c else c.

Definition bytes_capitalize (b : list Z) : list Z :=
  match map to_ascii_lower b with [] => [] | first :: rest => to_ascii_upper first :: rest end.

Fixpoint bytes_title (start_word : bool) (b : list Z) : list Z :=
  match b with
  | [] => []
  | c :: b =>
      if ascii_alpha c then (if start_word then to_ascii_upper c else to_ascii_lower c) :: bytes_title false b
      else c :: bytes_title true b
  end.

(** ** Arguments *)

Definition bytes_like : EvalResult (list Z) := type_error "a bytes-like object is required".

Definition needed_bytes (message : string) (arg : option Value) : EvalResult (list Z) :=
  match arg with Some (VBytes b) => Ok b | _ => type_error message end.

Definition width_argument (message : string) (args : list Value) : EvalResult nat :=
  match args with
  | VInt n :: _ => Ok (Z.to_nat (Z.max n 0))
  | VBool b :: _ => Ok (Z.to_nat (Z.b2z b))
  | _ => type_error message
  end.

Definition fill_byte (h : Heap) (args : list Value) : EvalResult Z :=
  let wrong := type_error "fill byte must be a byte string of length 1" in
  match args !! 1%nat with
  | None => Ok 32
  | Some (VBytes [f]) => Ok f
  | Some (VByteArray l) => match bytes_at h l with [f] => Ok f | _ => wrong end
  | Some _ => wrong
  end.

Definition translation_table (h : Heap) (args : list Value) : EvalResult (option (list Z)) :=
  let wrong := fail (ValueError "translation table must be 256 bytes long") in
  let checked t := if (length t =? 256)%nat then Ok (Some t) else wrong in
  match args with
  | [] | VNone :: _ => Ok None
  | VBytes t :: _ => checked t
  | VByteArray l :: _ => checked (bytes_at h l)
  | _ => wrong
  end.

Definition deleted_bytes (h : Heap) (args : list Value) : list Z :=
  match args !! 1%nat with Some (VBytes d) => d | Some (VByteArray l) => bytes_at h l | _ => [] end.

(** ** The methods *)

Definition BytesMethod : Type := Heap -> list Z -> list Value -> EvalResult (Value * Heap).

Definition bytes_mapped (f : list Z -> list Z) : BytesMethod := fun h b _ => plain h (Ok (VBytes (f b))).
Definition bytes_test (p : list Z -> bool) : BytesMethod := fun h b _ => plain h (Ok (VBool (p b))).

Definition bytes_stripped (trim : (Z -> bool) -> list Z -> list Z) : BytesMethod := fun h b args =>
  set ← match args with
        | [] | VNone :: _ => Ok None
        | VBytes chars :: _ => Ok (Some chars)
        | _ => type_error "a bytes-like object is required"
        end;
  plain h (Ok (VBytes (trim match set with Some chars => fun c => existsb (Z.eqb c) chars | None => ascii_space end b))).

Definition bytes_splitting (method : string) (pieces : list Z -> list Z -> option Z -> list (list Z)) : BytesMethod :=
  fun h b args => '(sep, limit) ← split_arguments method args; new_list h (map VBytes (pieces sep b limit)).

Definition bytes_replace : BytesMethod := fun h b args =>
  needle ← needed_bytes "replace() first argument must be bytes" (args !! 0%nat);
  replacement ← needed_bytes "replace() second argument must be bytes" (args !! 1%nat);
  plain h (Ok (VBytes (if is_nil needle then b else replace_sub needle replacement b None))).

Definition bytes_join : BytesMethod := fun h b args =>
  match args with
  | [] => type_error "join() takes exactly one argument"
  | arg :: _ =>
      '(items, h) ← dispatch_iter structural_eq set_elem h arg;
      parts ← bytes_parts 0 items;
      plain h (Ok (VBytes (join b parts)))
  end.

Definition bytes_affix_removed (strip : list Z -> list Z -> option (list Z)) : BytesMethod := fun h b args =>
  affix ← needed_bytes "a bytes-like object is required" (args !! 0%nat);
  plain h (Ok (VBytes (default b (strip affix b)))).

Definition bytes_translate : BytesMethod := fun h b args =>
  table ← translation_table h args;
  let delete := deleted_bytes h args in
  plain h (Ok (VBytes (map (fun c => match table with Some t => default 0 (t !! Z.to_nat c) | None => c end)
                           (List.filter (fun c => negb (existsb (Z.eqb c) delete)) b)))).

Definition bytes_partition (find : list Z -> list Z -> option nat) (missing : list Z -> list (list Z)) : BytesMethod :=
  fun h b args =>
  sep ← needed_bytes "a bytes-like object is required" (args !! 0%nat);
  if is_nil sep then fail (ValueError "empty separator")
  else plain h (Ok (VTuple (map VBytes match find sep b with
                                       | Some i => [take i b; sep; drop (i + length sep) b]
                                       | None => missing b
                                       end))).

Definition bytes_padded (method : string) (pad : Z -> nat -> list Z -> list Z) : BytesMethod := fun h b args =>
  width ← width_argument (method ++ "() takes an integer width") args;
  fill ← fill_byte h args;
  plain h (Ok (VBytes (pad fill width b))).

Definition bytes_zfill : BytesMethod := fun h b args =>
  width ← width_argument "zfill() takes an integer width" args;
  plain h (Ok (VBytes (if (width <=? length b)%nat then b else zfill width b))).

Definition bytes_splitlines : BytesMethod := fun h b args =>
  let keepends := match args with v :: _ => is_truthy h v | [] => false end in
  new_list h (map VBytes (byte_lines keepends [] b)).

Definition bytes_expandtabs : BytesMethod := fun h b args =>
  tabsize ← match args with
            | [] | VNone :: _ => Ok 8
            | VInt n :: _ => Ok (Z.max n 0)
            | VBool b :: _ => Ok (Z.b2z b)
            | _ => type_error "expandtabs() argument must be an integer"
            end;
  plain h (Ok (VBytes (expandtabs tabsize 0 b))).

Definition bytes_missing : EvalResult Value := exception "ValueError" (lit "subsection not found").

Definition bytes_methods : list (string * BytesMethod) :=
  [("hex", fun h b args => plain h (bytes_to_hex b args));
   ("startswith", fun h b args => plain h (bytes_affix b "startswith" args starts_with));
   ("endswith", fun h b args => plain h (bytes_affix b "endswith" args ends_with));
   ("split", bytes_splitting "split" split_on); ("rsplit", bytes_splitting "rsplit" rsplit_on); ("replace", bytes_replace);
   ("find", fun h b args => plain h (bytes_search b "find" args find_sub (Ok (VInt (-1)%Z))));
   ("rfind", fun h b args => plain h (bytes_search b "rfind" args rfind_sub (Ok (VInt (-1)%Z))));
   ("index", fun h b args => plain h (bytes_search b "index" args find_sub bytes_missing));
   ("rindex", fun h b args => plain h (bytes_search b "rindex" args rfind_sub bytes_missing));
   ("count", fun h b args => '(needle, w) ← bytes_search_args b "count" args; plain h (Ok (VInt (count_sub needle (within w b)))));
   ("upper", bytes_mapped (map to_ascii_upper)); ("lower", bytes_mapped (map to_ascii_lower));
   ("swapcase", bytes_mapped (map bytes_swapcase)); ("capitalize", bytes_mapped bytes_capitalize);
   ("title", bytes_mapped (bytes_title true));
   ("isdigit", bytes_test (all_chars ascii_digit)); ("isalpha", bytes_test (all_chars ascii_alpha));
   ("isalnum", bytes_test (all_chars ascii_alnum)); ("isspace", bytes_test (all_chars ascii_space));
   ("isupper", bytes_test (only ascii_upper ascii_lower)); ("islower", bytes_test (only ascii_lower ascii_upper));
   ("istitle", bytes_test (title_cased ascii_upper ascii_lower false false));
   ("strip", bytes_stripped trim); ("lstrip", bytes_stripped trim_start); ("rstrip", bytes_stripped trim_end);
   ("join", bytes_join); ("removeprefix", bytes_affix_removed strip_prefix);
   ("removesuffix", bytes_affix_removed strip_suffix); ("translate", bytes_translate);
   ("partition", bytes_partition find_sub (fun b => [b; []; []]));
   ("rpartition", bytes_partition rfind_sub (fun b => [[]; []; b]));
   ("center", bytes_padded "center" center); ("ljust", bytes_padded "ljust" ljust); ("rjust", bytes_padded "rjust" rjust);
   ("zfill", bytes_zfill); ("splitlines", bytes_splitlines); ("isascii", bytes_test is_ascii);
   ("expandtabs", bytes_expandtabs)]%string.

Definition dispatch_bytes_method (h : Heap) (b : list Z) (method : string) (args : list Value) (kwargs : Kwargs) :
    EvalResult (Value * Heap) :=
  if String.eqb method "decode" then plain h (bytes_decode b args kwargs)
  else
    _ ← reject_kwargs method kwargs;
    match find (fun m => String.eqb m.1 method) bytes_methods with
    | Some (_, m) => m h b args
    | None => no_attribute "bytes" method
    end.

(** ** [bytearray] *)

Definition store_bytes (l : loc) (b : list Z) (h : Heap) : Heap :=
  mkHeap (lists h) (dicts h) (sets h) (<[l := b]> (bytearrays h)) (stringios h) (instance_fields h).

Definition byte_arg (v : Value) : EvalResult Z :=
  match v with
  | VInt n => if between 0 255 n then Ok n else fail (ValueError "byte must be in range(0, 256)")
  | VBool b => Ok (Z.b2z b)
  | other => type_error ("'" ++ type_name other ++ "' object cannot be interpreted as an integer")
  end.

Definition extending_bytes (h : Heap) (v : Value) : EvalResult (list Z) :=
  match v with
  | VBytes b => Ok b
  | VByteArray l => Ok (bytes_at h l)
  | other => type_error ("can't extend/concat bytearray with '" ++ type_name other ++ "'")
  end.

(** Results of [bytes] methods, as those of a [bytearray]. *)
Fixpoint rewrap_each (h : Heap) (vs : list Value) : list Value * Heap :=
  match vs with
  | [] => ([], h)
  | v :: vs =>
      let (v, h) := match v with VBytes b => let (l, h) := shared_bytes h b in (VByteArray l, h) | _ => (v, h) end in
      let (vs, h) := rewrap_each h vs in (v :: vs, h)
  end.
Definition rewrap_bytes_as_bytearray (h : Heap) (v : Value) : Value * Heap :=
  match v with
  | VBytes b => let (l, h) := shared_bytes h b in (VByteArray l, h)
  | VList l => let (vs, h) := rewrap_each h (list_at h l) in let (l, h) := shared_list h vs in (VList l, h)
  | VTuple vs => let (vs, h) := rewrap_each h vs in (VTuple vs, h)
  | _ => (v, h)
  end.

Definition first_arg (message : string) (args : list Value) : EvalResult Value :=
  match args with v :: _ => Ok v | [] => type_error message end.

Definition index_value (message : string) (v : Value) : EvalResult Z :=
  match v with VInt n => Ok n | VBool b => Ok (Z.b2z b) | _ => type_error message end.

Definition bytearray_insert (h : Heap) (l : loc) (args : list Value) : EvalResult (MethodOutcome * Heap) :=
  match args with
  | [idx_v; byte_v] =>
      byte ← byte_arg byte_v;
      raw ← index_value "an integer is required for the index" idx_v;
      let b := bytes_at h l in
      Ok (grew VNone 1, store_bytes l (insert_at (insert_position raw (length b)) byte b) h)
  | _ => type_error "insert() takes exactly two arguments"
  end.

Definition bytearray_remove (h : Heap) (l : loc) (args : list Value) : EvalResult (MethodOutcome * Heap) :=
  v ← first_arg "remove() takes one argument" args;
  byte ← byte_arg v;
  let b := bytes_at h l in
  match find_char (Z.eqb byte) b with
  | Some pos => Ok (shrank VNone 1, store_bytes l (delete pos b) h)
  | None => exception "ValueError" (lit "value not found")
  end.

Definition bytearray_pop (h : Heap) (l : loc) (args : list Value) : EvalResult (MethodOutcome * Heap) :=
  let b := bytes_at h l in
  if is_nil b then exception "IndexError" (lit "pop from empty bytearray")
  else
    let len := Z.of_nat (length b) in
    raw ← match args with [] => Ok (len - 1) | v :: _ => index_value "an integer is required" v end;
    let idx := if raw <? 0 then len + raw else raw in
    if (idx <? 0) || (len <=? idx) then exception "IndexError" (lit "bytearray index out of range")
    else Ok (shrank (VInt (default 0 (b !! Z.to_nat idx))) 1, store_bytes l (delete (Z.to_nat idx) b) h).

Definition dispatch_bytearray_method (h : Heap) (l : loc) (method : string) (args : list Value) (kwargs : Kwargs) :
    EvalResult (MethodOutcome * Heap) :=
  let b := bytes_at h l in
  if String.eqb method "append" then
    v ← first_arg "append() takes one argument" args;
    byte ← byte_arg v;
    Ok (grew VNone 1, store_bytes l (b ++ [byte]) h)
  else if String.eqb method "extend" then
    v ← first_arg "extend() takes one argument" args;
    extra ← extending_bytes h v;
    Ok (grew VNone (Z.of_nat (length extra)), store_bytes l (b ++ extra) h)
  else if String.eqb method "insert" then bytearray_insert h l args
  else if String.eqb method "remove" then bytearray_remove h l args
  else if String.eqb method "pop" then bytearray_pop h l args
  else if String.eqb method "clear" then Ok (shrank VNone (Z.of_nat (length b)), store_bytes l [] h)
  else if String.eqb method "reverse" then Ok (pure_outcome VNone, store_bytes l (rev b) h)
  else if String.eqb method "copy" then let (l, h) := shared_bytes h b in Ok (pure_outcome (VByteArray l), h)
  else
    '(v, h) ← dispatch_bytes_method h b method args kwargs;
    let (v, h) := rewrap_bytes_as_bytearray h v in Ok (pure_outcome v, h).

Definition dispatch_memoryview_method (h : Heap) (raw : list Z) (method : string) : EvalResult (Value * Heap) :=
  if String.eqb method "tobytes" then plain h (Ok (VBytes raw))
  else if String.eqb method "tolist" then new_list h (map VInt raw)
  else if String.eqb method "hex" then plain h (bytes_to_hex raw [])
  else no_attribute "memoryview" method.
End Bytes.
