(* ===== verification/Repr.v ===== *)
(** [str] and [repr] of values outside the interpreter's state (value.rs): what messages,
    keys and the containers that no rendering in the state looks into show. *)
From Stdlib Require Import ZArith Lia Ascii String SpecFloat.
From stdpp Require Import base tactics list numbers option strings pretty gmap.
From S2P Require Import Prelude PySet Values Errors F64 Keys Classes Compare Operators State Exceptions Op Syntax Methods Text FloatText StrMethods.

(** What is shown of allocations this library does not hold the contents of, of
    chrono's values, and of a frozen set used as a key, which lists its members in the
    order of their hash table. *)
Class Shown `{External} : Type := {
  function_name : loc -> text;
  tool_name : loc -> text;
  generic_name : loc -> text;
  date_ymd : NaiveDate -> Z * Z * Z;
  (** hour, minute, second, nanosecond *)
  time_fields : NaiveTime -> Z * Z * Z * Z;
  datetime_fields : NaiveDateTime -> (Z * Z * Z) * (Z * Z * Z * Z);
  date_iso : NaiveDate -> text;
  datetime_iso : NaiveDateTime -> text;
  (** [None] for a specifier chrono does not know *)
  date_format : NaiveDate -> text -> option text;
  time_format : NaiveTime -> text -> option text;
  datetime_format : NaiveDateTime -> text -> option text;
  frozen_order : list ValueKey -> list nat
}.

Definition is_builtin_type_name (name : string) : bool :=
  existsb (String.eqb name)
    ["int"; "float"; "complex"; "bool"; "str"; "bytes"; "bytearray"; "list"; "tuple"; "dict"; "set"; "frozenset";
     "range"; "type"; "object"; "slice"; "memoryview"; "enumerate"; "zip"; "map"; "filter"; "reversed"; "property";
     "super"; "staticmethod"; "classmethod"]%string.

Definition comma : text := lit ", ".
Definition wrapped (before after : string) (inner : text) : text := lit before ++ inner ++ lit after.

(** ** Times *)

Definition two (z : Z) : text := padded_digits 2 z.

Definition tz_offset_text (secs : Z) : text :=
  let a := Z.abs secs in
  [if secs <? 0 then 45 else 43] ++ two (a / 3600) ++ [58] ++ two (a mod 3600 / 60).

Definition fraction_text (micros : Z) : text := if micros =? 0 then [] else [46] ++ padded_digits 6 micros.

(** Days, seconds and microseconds, the last two not negative. *)
Definition timedelta_fields (micros : Z) : Z * Z * Z :=
  let secs := micros / 1000000 in (secs / 86400, secs mod 86400, micros mod 1000000).

Definition timedelta_text (micros : Z) : text :=
  let '(days, secs, us) := timedelta_fields micros in
  (if days =? 0 then []
   else int_text days ++ lit " day" ++ (if (days =? 1) || (days =? -1) then [] else lit "s") ++ comma) ++
  int_text (secs / 3600) ++ [58] ++ two (secs mod 3600 / 60) ++ [58] ++ two (secs mod 60) ++ fraction_text us.

Definition timedelta_repr (micros : Z) : text :=
  let '(days, secs, us) := timedelta_fields micros in
  let part (name : string) z := if z =? 0 then [] else [lit name ++ int_text z] in
  let parts := part "days=" days ++ part "seconds=" secs ++ part "microseconds=" us in
  wrapped "datetime.timedelta(" ")" (match parts with [] => lit "0" | _ => join comma parts end).

Definition timezone_text (secs : Z) : text := lit "UTC" ++ (if secs =? 0 then [] else tz_offset_text secs).
Definition timezone_repr (secs : Z) : text :=
  if secs =? 0 then lit "datetime.timezone.utc" else wrapped "datetime.timezone(" ")" (timedelta_repr (secs * 1000000)).

(** The fields of a time that are shown: seconds when one of the last two is not zero,
    microseconds when they are not. *)
Definition clock_args (hmsn : Z * Z * Z * Z) : list Z :=
  let '(h, m, s, n) := hmsn in
  let us := n / 1000 in
  [h; m] ++ (if (s =? 0) && (us =? 0) then [] else s :: (if us =? 0 then [] else [us])).
Definition int_list (zs : list Z) : text := join comma (map int_text zs).

Definition clock_text (hmsn : Z * Z * Z * Z) : text :=
  let '(h, m, s, n) := hmsn in two h ++ [58] ++ two m ++ [58] ++ two s ++ fraction_text (n / 1000).

(** ** Strings, bytes and decimals *)

Section Text.
Context `{!Unicode}.

Definition quote_of (s : list Z) : Z := if existsb (Z.eqb 39) s && negb (existsb (Z.eqb 34) s) then 34 else 39.

Definition repr_char (quote c : Z) : text :=
  if c =? 92 then lit "\\" else if c =? 10 then lit "\n" else if c =? 13 then lit "\r" else if c =? 9 then lit "\t"
  else if c =? quote then [92; c]
  else if char_is_printable c then [c]
  else escape_hex c.

Definition python_str_repr (s : text) : text :=
  let quote := quote_of s in [quote] ++ flat_map (repr_char quote) s ++ [quote].
End Text.

Definition literal_byte (quote c : Z) : text :=
  if c =? 92 then lit "\\" else if c =? 10 then lit "\n" else if c =? 13 then lit "\r" else if c =? 9 then lit "\t"
  else if c =? quote then [92; c]
  else if between 32 126 c then [c]
  else lit "\x" ++ hex_digits 2 c.
Definition bytes_literal (b : list Z) : text :=
  let quote := quote_of b in [98; quote] ++ flat_map (literal_byte quote) b ++ [quote].

Definition special_str (kind : DecimalKind) : option text :=
  match kind with
  | PosInf => Some (lit "Infinity") | NegInf => Some (lit "-Infinity") | Nan => Some (lit "NaN") | _ => None
  end.

(** The digits of [mantissa * 10 ^ - scale] in CPython's to-scientific-string. *)
Definition decimal_text (mantissa scale : Z) (kind : DecimalKind) : text :=
  match special_str kind with
  | Some s => s
  | None =>
      let negative := (mantissa <? 0) || match kind with NegZero => true | _ => false end in
      let ds := digits 10 (Z.abs mantissa) in
      let n := Z.of_nat (length ds) in
      let exp := - scale in
      let left := exp + n in
      sign_text negative ++
      (if (exp <=? 0) && (-6 <? left) then
         if exp =? 0 then ds
         else if 0 <? left then take (Z.to_nat left) ds ++ [46] ++ drop (Z.to_nat left) ds
         else lit "0." ++ zeros (Z.to_nat (- left)) ++ ds
       else
         mantissa_text ds ++ lit "E" ++ [if left - 1 <? 0 then 45 else 43] ++ digits 10 (Z.abs (left - 1)))
  end.

(** The last part of a dotted name. *)
Definition short_type_name (name : text) : text := List.last (split_on [46] name None) name.

(** ** Values *)

Definition counter_value_as_i64 `{External} (v : Value) : Z :=
  match v with VInt n => n | VBool b => Z.b2z b | _ => 0 end.

(** A stable sort by decreasing count. *)
Fixpoint insert_by_count `{External} (e : ValueKey * Value) (es : list (ValueKey * Value)) : list (ValueKey * Value) :=
  match es with
  | [] => [e]
  | e' :: es' => if counter_value_as_i64 e'.2 <? counter_value_as_i64 e.2 then e :: es else e' :: insert_by_count e es'
  end.
Definition by_count `{External} (es : list (ValueKey * Value)) : list (ValueKey * Value) := foldl (fun acc e => insert_by_count e acc) [] es.

(** What is shown: a value as [str] or [repr] shows it, or a key. *)
Inductive Subject `{External} : Type := AsStr (v : Value) | AsRepr (v : Value) | AsKey (k : ValueKey).

(** The lists being shown, which [cycle.rs] tracks, and the dictionaries locked while
    their entries are. *)
Record Held : Type := mkHeld { shown_lists : list loc; locked_dicts : list loc }.
Definition holding (l : loc) (ls : list loc) : bool := existsb (Nat.eqb l) ls.

Section Repr.
Context `{External} `{!ExternalOrder} `{!Platform} `{!Unicode} `{!Shown}.

(** A case whose [repr] is not its [str]. *)
Definition own_repr (v : Value) : bool :=
  match v with
  | VString _ | VDate _ | VException _ | VEnumMember _ _ _ _ | VDecimal _ _ | VFraction _ | VTime _ | VDateTime _ _
  | VTimeDelta _ | VTimeZone _ => true
  | _ => false
  end.

Section Cases.
(** The rest of the recursion, with what is held. *)
Variable shown : Heap -> Held -> Subject -> option text.
Variable h : Heap.
Variable held : Held.

Definition reprs (vs : list Value) : option text := join comma <$> mapM (fun v => shown h held (AsRepr v)) vs.

Definition entry (held : Held) (e : ValueKey * Value) : option text :=
  k ← shown h held (AsKey e.1); v ← shown h held (AsRepr e.2); Some (k ++ lit ": " ++ v).
Definition entries (held : Held) (es : list (ValueKey * Value)) : option text := join comma <$> mapM (entry held) es.

(** The entries of a dictionary that is locked meanwhile: a second lock never
    returns. *)
Definition locked {A} (l : loc) (k : Held -> option A) : option A :=
  if holding l (locked_dicts held) then None else k (mkHeld (shown_lists held) (l :: locked_dicts held)).

Definition view_entry (kind : DictViewKind) (held : Held) (e : ValueKey * Value) : option text :=
  let key := '(v, h) ← to_value set_elem e.1 h; shown h held (AsRepr v) in
  match kind with
  | Keys => key
  | DValues => shown h held (AsRepr e.2)
  | Items => k ← key; v ← shown h held (AsRepr e.2); Some (wrapped "(" ")" (k ++ comma ++ v))
  end.

Definition tuple_text (items : list Value) : option text :=
  inner ← reprs items; Some (wrapped "(" ")" (inner ++ match items with [_] => lit "," | _ => [] end)).

Definition name_of (s : string) : text := name_text s.
Definition tagged (before : string) (name : text) (after : string) : option text := Some (lit before ++ name ++ lit after).

Definition getter_text (g : OperatorGetter) : option text :=
  match g with
  | ItemGetter keys => wrapped "operator.itemgetter(" ")" <$> reprs keys
  | AttrGetter paths =>
      tagged "operator.attrgetter(" (join comma (map (fun p => wrapped "'" "'" (name_of (String.concat "." p))) paths)) ")"
  | MethodCaller name _ _ => tagged "operator.methodcaller('" (name_of name) "')"
  end.

Definition type_text (n : string) : text :=
  let s := name_of n in
  if starts_with (lit "typing.") s || existsb (Z.eqb 91) s || starts_with (lit "~") s then s
  else wrapped "<class '" "'>" s.

(** [Display] of a value, in three parts: from chain maps on, from functions to default
    dictionaries, and the rest. *)
Definition display_last (v : Value) : option text :=
  match v with
  | VChainMap maps => wrapped "ChainMap(" ")" <$> (join comma <$> mapM (fun m => shown h held (AsStr m)) maps)
  | VTemplate _ => Some (lit "<string.Template object>")
  | VDictView l kind =>
      locked l (fun held =>
        inner ← join comma <$> mapM (view_entry kind held) (dict_at h l);
        Some (lit (DictViewKind_type_name kind) ++ lit "([" ++ inner ++ lit "])"))
  | VCounter [] => Some (lit "Counter()")
  | VCounter items => wrapped "Counter({" "})" <$> entries held (by_count items)
  | VDecimal d kind => let (mantissa, scale) := decimal_bigint_and_exponent d in Some (decimal_text mantissa scale kind)
  | VFraction f =>
      Some (int_text (rational_numer f) ++ (if rational_denom f =? 1 then [] else lit "/" ++ int_text (rational_denom f)))
  | VBoundMethod (Snapshot v) method =>
      Some (lit "<built-in method " ++ name_of method ++ lit " of " ++ name_of (python_type_name v) ++ lit " object>")
  | VBoundMethod (Place root _) method =>
      Some (lit "<built-in method " ++ name_of method ++ lit " of " ++ name_of root ++ lit ">")
  | VBuiltinTypeMethod type_name method =>
      Some (lit "<method '" ++ name_of method ++ lit "' of '" ++ name_of type_name ++ lit "' objects>")
  | VToolName name => tagged "<tool " (name_of name) ">"
  | VExceptionType name => tagged "<class '" (name_of name) "'>"
  | VUnboundClassMethod class method => Some (lit "<bound method " ++ name_of class ++ lit "." ++ name_of method ++ lit ">")
  | VLazy _ _ kind => tagged "<" (name_of (LazyKind_type_name kind)) " object>"
  | VGenerator _ => Some (lit "<generator object>")
  | VBuiltinIter _ kind => tagged "<" (name_of (BuiltinIterName_type_name kind)) " object>"
  | VPartial func _ _ => wrapped "functools.partial(" ")" <$> shown h held (AsStr func)
  | VOperatorGetter g => getter_text g
  | VLruCache _ => Some (lit "<functools._lru_cache_wrapper>")
  | VSingleDispatch l => tagged "<function " (generic_name l) ">"
  | VRePattern p => tagged "re.compile(" (python_str_repr p) ")"
  | VSlice start stop step =>
      a ← shown h held (AsStr start); b ← shown h held (AsStr stop); c ← shown h held (AsStr step);
      Some (wrapped "slice(" ")" (join comma [a; b; c]))
  | VMemoryView _ => Some (lit "<memory>")
  | VStringIO _ => Some (lit "<_io.StringIO object>")
  | VProperty _ _ => Some (lit "<property object>")
  | VCoroutine func _ _ _ => tagged "<coroutine object " (function_name func) ">"
  | _ => None
  end.

Definition display_object (v : Value) : option text :=
  match v with
  | VFunction l => tagged "<function " (function_name l) ">"
  | VLambda _ => Some (lit "<function <lambda>>")
  | VRange start stop step =>
      tagged "range(" (int_list (if step =? 1 then [start; stop] else [start; stop; step])) ")"
  | VException e => Some (exc_message e)
  | VExceptionMethod method e =>
      Some (lit "<bound method " ++ name_of method ++ lit " of " ++ name_of (exc_type_name e) ++ lit ">")
  | VLazyProxy l => tagged "<LazyProxy tool=" (tool_name l) ">"
  | VType n => Some (type_text n)
  | VClass n => tagged "<class '__main__." (name_of n) "'>"
  | VModule n => tagged "<module '" (name_of n) "'>"
  | VInstance class _ => tagged "<" (name_of class) " object>"
  | VBuiltinName name =>
      if is_builtin_type_name name then tagged "<class '" (name_of name) "'>"
      else tagged "<built-in function " (name_of name) ">"
  | VModuleFunction _ name => tagged "<built-in function " (name_of name) ">"
  | VDate d => Some (date_iso d)
  | VReMatch m =>
      match mv_groups m with
      | Some g :: _ =>
          Some (lit "<re.Match object; span=(" ++ int_list [mg_start g; mg_end g] ++ lit "), match='" ++ mg_text g ++ lit "'>")
      | _ => Some (lit "<re.Match object>")
      end
  | VSuper class instance _ | VSuperClass class instance =>
      Some (lit "<super: <class '" ++ name_of class ++ lit "'>, <" ++ name_of instance ++ lit " object>>")
  | VDateTime dt tz =>
      let '(_, (_, _, _, n)) := datetime_fields dt in
      Some (datetime_iso dt ++ fraction_text (n / 1000) ++
            match tz with Some secs => tz_offset_text secs | None => [] end)
  | VTime t => Some (clock_text (time_fields t))
  | VTimeDelta micros => Some (timedelta_text micros)
  | VTimeZone secs => Some (timezone_text secs)
  | VHashDigest algo b =>
      Some (lit "<" ++ name_of algo ++ lit " HASH object, len=" ++ int_text (Z.of_nat (length b)) ++ lit ">")
  | VDeque items maxlen =>
      inner ← reprs items;
      Some (lit "deque([" ++ inner ++ lit "]" ++ match maxlen with Some n => lit ", maxlen=" ++ int_text n | None => [] end ++ lit ")")
  | VEnumMember class member value kind =>
      match kind with
      | EInt | EStr | EIntFlag => shown h held (AsStr value)
      | Plain | EFlag => Some (name_of class ++ lit "." ++ name_of member)
      end
  | VDefaultDict items factory =>
      f ← shown h held (AsStr factory); inner ← entries held items;
      Some (lit "defaultdict(" ++ f ++ lit ", {" ++ inner ++ lit "})")
  | _ => display_last v
  end.

Definition display_case (v : Value) : option text :=
  match v with
  | VNone => Some (lit "None") | VNotImplemented => Some (lit "NotImplemented") | VEllipsis => Some (lit "Ellipsis")
  | VBool b => Some (if b then lit "True" else lit "False")
  | VInt i | VBigInt i => Some (int_text i)
  | VFloat f => Some (python_float f)
  | VComplex re im => Some (format_complex re im)
  | VString s => Some s
  | VBytes b => Some (bytes_literal b)
  | VByteArray l => tagged "bytearray(" (bytes_literal (bytes_at h l)) ")"
  | VList l =>
      if holding l (shown_lists held) then Some (lit "[...]")
      else
        let held := mkHeld (l :: shown_lists held) (locked_dicts held) in
        wrapped "[" "]" <$> (join comma <$> mapM (fun v => shown h held (AsRepr v)) (list_at h l))
  | VArray typecode l =>
      match list_at h l with
      | [] => tagged "array('" [typecode] "')"
      | items => inner ← reprs items; Some (lit "array('" ++ [typecode] ++ lit "', [" ++ inner ++ lit "])")
      end
  | VTuple items => tuple_text items
  | VDict l => locked l (fun held => wrapped "{" "}" <$> entries held (dict_at h l))
  | VOrderedDict l =>
      locked l (fun held =>
        match dict_at h l with
        | [] => Some (lit "OrderedDict()")
        | es => wrapped "OrderedDict({" "})" <$> entries held es
        end)
  | VSet l => wrapped "{" "}" <$> reprs (set_at h l)
  | VFrozenset l =>
      match set_at h l with
      | [] => Some (lit "frozenset()")
      | items => wrapped "frozenset({" "})" <$> reprs items
      end
  | _ => display_object v
  end.

(** [Value::repr]. *)
Definition repr_case (v : Value) : option text :=
  match v with
  | VString s => Some (python_str_repr s)
  | VDate d => let '(y, m, day) := date_ymd d in tagged "datetime.date(" (int_list [y; m; day]) ")"
  | VException e =>
      inner ← reprs (exc_args e); Some (short_type_name (name_of (exc_type_name e)) ++ wrapped "(" ")" inner)
  | VEnumMember class member value _ =>
      r ← shown h held (AsRepr value); Some (lit "<" ++ name_of class ++ lit "." ++ name_of member ++ lit ": " ++ r ++ lit ">")
  | VDecimal _ _ => wrapped "Decimal('" "')" <$> shown h held (AsStr v)
  | VFraction f => tagged "Fraction(" (int_list [rational_numer f; rational_denom f]) ")"
  | VTime t => tagged "datetime.time(" (int_list (clock_args (time_fields t))) ")"
  | VDateTime dt tz =>
      let '((y, m, d), clock) := datetime_fields dt in
      Some (wrapped "datetime.datetime(" ")"
              (int_list ([y; m; d] ++ clock_args clock) ++
               match tz with Some secs => lit ", tzinfo=" ++ timezone_repr secs | None => [] end))
  | VTimeDelta micros => Some (timedelta_repr micros)
  | VTimeZone secs => Some (timezone_repr secs)
  | _ => shown h held (AsStr v)
  end.

(** [Display] of a key. *)
Definition key_case (k : ValueKey) : option text :=
  let keys ks := join comma <$> mapM (fun k => shown h held (AsKey k)) ks in
  match k with
  | KNone => Some (lit "None") | KEllipsis => Some (lit "Ellipsis")
  | KBool b => Some (if b then lit "True" else lit "False")
  | KInt i | KBigInt i => Some (int_text i)
  | KFloat f => Some (python_float f)
  | KComplex re im => Some (format_complex re im)
  | KString s => Some (wrapped "'" "'" s)
  | KTuple items => inner ← keys items; Some (wrapped "(" ")" (inner ++ match items with [_] => lit "," | _ => [] end))
  | KFrozenset [] => Some (lit "frozenset()")
  | KFrozenset items =>
      wrapped "frozenset({" "})" <$> keys (omap (fun i => items !! i) (frozen_order items))
  | KInstance _ v => shown h held (AsStr v)
  | KDate _ | KTime _ | KDateTime _ _ | KTimeDelta _ | KDecimal _ | KFraction _ =>
      '(v, h) ← to_value set_elem k h; shown h held (AsStr v)
  end.
End Cases.

Definition show_case (shown : Heap -> Held -> Subject -> option text) (h : Heap) (held : Held) (s : Subject) : option text :=
  match s with
  | AsStr v => display_case shown h held v
  | AsRepr v => repr_case shown h held v
  | AsKey k => key_case shown h held k
  end.

(** To a depth of [fuel]; [None] is also a lock taken twice. *)
Fixpoint show (fuel : nat) (h : Heap) (held : Held) (s : Subject) : option text :=
  match fuel with O => None | S fuel => show_case (show fuel) h held s end.

Definition none_shown : Held := mkHeld [] [].
Definition value_str (fuel : nat) (h : Heap) (v : Value) : option text := show fuel h none_shown (AsStr v).
Definition value_repr (fuel : nat) (h : Heap) (v : Value) : option text := show fuel h none_shown (AsRepr v).
End Repr.
