(* ===== verification/Format.v ===== *)
(** Format specifications and [%] formatting (eval/strings.rs). *)
From Stdlib Require Import ZArith Lia Ascii String SpecFloat.
From stdpp Require Import base tactics list numbers option strings pretty gmap.
From S2P Require Import Prelude PySet Values Errors F64 Keys Arith Classes Compare Operators State Exceptions Op Syntax Methods Text FloatText StrMethods Repr.

(** What formatting uses of bigdecimal and num-rational. *)
Class DecimalFormats `{External} : Type := {
  decimal_to_f64 : BigDecimal -> option f64;
  rational_to_f64 : BigRational -> option f64;
  decimal_hundredfold : BigDecimal -> BigDecimal;
  (** rounded half to even, in plain notation *)
  decimal_fixed : BigDecimal -> Z -> text
}.

Definition MAX_FORMAT_WIDTH : Z := 10000.
Definition spec_usize (n default : Z) : Z := if n <? 0 then default else n.

(** ** Specifications *)

Definition parse_fill_align (chars : text) : option Z * option Z * text :=
  let is_align c := existsb (Z.eqb c) (lit "<>^=") in
  match chars with
  | fill :: align :: rest =>
      if is_align align then (Some fill, Some align, rest)
      else if is_align fill then (None, Some fill, align :: rest)
      else (None, None, chars)
  | [align] => if is_align align then (None, Some align, []) else (None, None, chars)
  | [] => (None, None, [])
  end.

Definition parse_sign (chars : text) : option Z * text :=
  match chars with
  | c :: rest => if (c =? 43) || (c =? 45) || (c =? 32) then (Some c, rest) else (None, chars)
  | [] => (None, [])
  end.

(** The digits at the front, and what follows. *)
Fixpoint leading_digits (chars : text) : text * text :=
  match chars with
  | c :: rest => if ascii_digit c then let (ds, rest) := leading_digits rest in (c :: ds, rest) else ([], chars)
  | [] => ([], [])
  end.
Definition decimal_value (ds : text) : Z := foldl (fun acc c => 10 * acc + (c - 48)) 0 ds.
Definition parse_i64 (ds : text) : option Z :=
  match ds with [] => None | _ => let n := decimal_value ds in if n <=? i64_max then Some n else None end.
Definition parse_number (chars : text) : option Z * text :=
  let (ds, rest) := leading_digits chars in (parse_i64 ds, rest).

(** A character that is accepted or passed over. *)
Definition take_flag (flag : Z) (chars : text) : bool * text :=
  match chars with c :: rest => if c =? flag then (true, rest) else (false, chars) | [] => (false, []) end.

Record FormatSpec : Type := mkFormatSpec {
  fs_fill : option Z; fs_align : option Z; fs_sign : option Z; fs_alternate : bool; fs_zero_pad : bool;
  fs_width : option Z; fs_grouping : option Z; fs_precision : option Z; fs_type : option Z
}.

(** The parts of a specification; the number is the width that is too large. *)
Inductive ParsedSpec : Type := Parsed (s : FormatSpec) | TooWide (width : Z) | Malformed.

Definition parse_spec (chars : text) : ParsedSpec :=
  let '(fill, align, rest) := parse_fill_align chars in
  let (sign, rest) := parse_sign rest in
  let (alternate, rest) := take_flag 35 rest in
  let (zero_pad, rest) := take_flag 48 rest in
  let (width, rest) := parse_number rest in
  if MAX_FORMAT_WIDTH <? default 0 width then TooWide (default 0 width)
  else
    let (grouping, rest) :=
      match rest with c :: rest' => if (c =? 44) || (c =? 95) then (Some c, rest') else (None, rest) | [] => (None, []) end in
    let (precision, rest) := match rest with 46 :: rest' => parse_number rest' | _ => (None, rest) end in
    match rest with
    | [] => Parsed (mkFormatSpec fill align sign alternate zero_pad width grouping precision None)
    | [c] => Parsed (mkFormatSpec fill align sign alternate zero_pad width grouping precision (Some c))
    | _ => Malformed
    end.

Definition type_in (codes : string) (c : Z) : bool := existsb (Z.eqb c) (lit codes).

(** ** Digits in groups *)

Fixpoint group_digits (sep : Z) (grp : nat) (ds : text) : text :=
  match ds with
  | [] => []
  | [c] => [c]
  | c :: ds' => c :: (if (length ds' mod grp =? 0)%nat then [sep] else []) ++ group_digits sep grp ds'
  end.

Definition int_end (s : text) : nat := default (length s) (find_char (fun c => (c =? 46) || (c =? 101) || (c =? 69)) s).

Definition radix_prefix (s : text) : text :=
  match s with 48 :: c :: _ => if type_in "xXoObB" c then [48; c] else [] | _ => [] end.
Definition sign_prefix (signs : string) (s : text) : text := match s with c :: _ => if type_in signs c then [c] else [] | [] => [] end.

Definition apply_thousands_separator (raw : text) (sep : Z) (grp : nat) : text :=
  let sign := sign_prefix "-+" raw in
  let rest := drop (length sign) raw in
  let prefix := radix_prefix rest in
  let rest := drop (length prefix) rest in
  let int_part := take (int_end rest) rest in
  let valid c := if (grp =? 4)%nat then match digit_value c with Some _ => true | None => false end else ascii_digit c in
  if is_nil int_part || negb (forallb valid int_part) then raw
  else sign ++ prefix ++ group_digits sep grp int_part ++ drop (int_end rest) rest.

(** The least number of digits from [d] whose groups fill [avail]. *)
Fixpoint enough_digits (fuel : nat) (grp avail d : nat) : nat :=
  match fuel with
  | O => d
  | S fuel => if (d + (d - 1) / grp <? avail)%nat then enough_digits fuel grp avail (S d) else d
  end.
Definition pad_and_group_zero (ds : text) (avail grp : nat) (sep : Z) : text :=
  let d := enough_digits avail grp avail (Nat.max (length ds) 1) in
  group_digits sep grp (zeros (d - length ds) ++ ds).

(** ** Floats *)

(** A precision beyond [u16] panics in Rust's [fmt]. *)
Definition fmt_precision {E} (p : Z) : Outcome E nat := if 65535 <? p then Panic else Ok (Z.to_nat p).

Section Format.
Context `{External} `{!ExternalOrder} `{!Platform} `{!Formats} `{!Unicode} `{!Shown} `{!DecimalFormats}.

Definition fixed_format (f : f64) (p : Z) : EvalResult text := n ← fmt_precision p; Ok (fixed_text n f).

Definition format_scientific (f : f64) (p : Z) (upper : bool) : EvalResult text :=
  n ← fmt_precision p;
  Ok match scientific_parts n f with
     | inr s => s
     | inl (m, x) => m ++ [if upper then 69 else 101] ++ exponent_text x
     end.

Definition strip_general_zeros (s : text) : text :=
  let e := default (length s) (find_char (fun c => (c =? 101) || (c =? 69)) s) in
  let m := take e s in
  (if existsb (Z.eqb 46) m then trim_end (Z.eqb 46) (trim_end (Z.eqb 48) m) else m) ++ drop e s.

Definition upper_if (upper : bool) (s : text) : text := if upper then map to_ascii_upper s else s.

Definition format_general (f : f64) (precision : Z) (upper alternate : bool) : EvalResult text :=
  match f with
  | S754_nan => Ok (upper_if upper (lit "nan"))
  | S754_infinity s => Ok (upper_if upper (sign_text s ++ lit "inf"))
  | _ =>
      let p := Z.max precision 1 in
      rendered ← match f with
        | S754_finite _ _ _ =>
            n ← fmt_precision (p - 1);
            let x := match scientific_parts n f with inl (_, x) => x | inr _ => 0 end in
            if (x <? -4) || (p <=? x) then format_scientific f (p - 1) upper else fixed_format f (p - 1 - x)
        | _ => fixed_format f (p - 1)
        end;
      Ok (if alternate then rendered else strip_general_zeros rendered)
  end.

Definition unknown_format_code {A} (code : Z) (v : Value) : EvalResult A :=
  fail (ValueError ("Unknown format code '" ++ text_name [code] ++ "' for object of type '" ++ type_name v ++ "'")).

(** ** Bodies *)

Definition value_text_of (h : Heap) (v : Value) : EvalResult text := or_panic (value_str nesting h v).
Definition value_repr_of (h : Heap) (v : Value) : EvalResult text := or_panic (value_repr nesting h v).

(** A radix form: the sign, the prefix of the alternate form, the magnitude. *)
Definition radix_text (base : Z) (prefix : string) (upper alternate : bool) (z : Z) : text :=
  sign_text (z <? 0) ++ (if alternate then lit prefix else []) ++ upper_if upper (digits base (Z.abs z)).

Definition overflow_char {A} : EvalResult A := exception "OverflowError" (lit "%c arg not in range(0x110000)").
Definition char_of (z : Z) : EvalResult text := if scalar z then Ok [z] else overflow_char.

Definition format_integer (v : Value) (z : Z) (type_char precision : option Z) (alternate : bool) : EvalResult text :=
  let prec := spec_usize (default 6 precision) 6 in
  let f := default (f64_inf false) (bigint_to_f64 z) in
  if match precision with Some _ => match type_char with None => true | Some c => type_in "dnboxXc" c end | None => false end
  then fail (ValueError "Precision not allowed in integer format specifier")
  else
    match type_char with
    | None => Ok (int_text z)
    | Some c =>
        if type_in "dn" c then Ok (int_text z)
        else if c =? 98 then Ok (radix_text 2 "0b" false alternate z)
        else if c =? 111 then Ok (radix_text 8 "0o" false alternate z)
        else if c =? 120 then Ok (radix_text 16 "0x" false alternate z)
        else if c =? 88 then Ok (radix_text 16 "0X" true alternate z)
        else if c =? 99 then char_of z
        else if type_in "fF" c then fixed_format f prec
        else if type_in "eE" c then format_scientific f prec (c =? 69)
        else if type_in "gG" c then format_general f prec (c =? 71) alternate
        else if c =? 37 then s ← fixed_format (f64_mul f (f64_of_Z 100)) prec; Ok (s ++ lit "%")
        else unknown_format_code c v
    end.

Definition non_finite_text (f : f64) (c : Z) : text :=
  upper_if (ascii_upper c) (match f with S754_infinity s => sign_text s ++ lit "inf" | _ => lit "nan" end) ++
  (if c =? 37 then lit "%" else []).

Definition format_float (f : f64) (type_char precision : option Z) (alternate : bool) : EvalResult text :=
  let prec := spec_usize (default 6 precision) 6 in
  match type_char with
  | None =>
      match precision with
      | None => Ok (python_float f)
      | Some p =>
          s ← format_general f (spec_usize p 6) false alternate;
          Ok (if existsb (type_in ".eE") s then s else s ++ lit ".0")
      end
  | Some c =>
      if type_in "fFeEgGn%" c && negb (f64_is_finite f) then Ok (non_finite_text f c)
      else if type_in "fF" c then fixed_format f prec
      else if type_in "eE" c then format_scientific f prec (c =? 69)
      else if type_in "gGn" c then format_general f prec (c =? 71) alternate
      else if c =? 37 then s ← fixed_format (f64_mul f (f64_of_Z 100)) prec; Ok (s ++ lit "%")
      else unknown_format_code c (VFloat f)
  end.

Definition format_complex_body (re im : f64) (type_char precision : option Z) (alternate : bool) : EvalResult text :=
  a ← format_float re type_char precision alternate;
  b ← format_float (f64_abs im) type_char precision alternate;
  Ok (a ++ (if is_sign_negative im then lit "-" else lit "+") ++ b ++ lit "j").

Definition minimize_exponent_digits (s : text) : text :=
  match find_char (type_in "eE") s with
  | None => s
  | Some i =>
      match drop i s with
      | marker :: sign :: (_ :: _) as ds =>
          if type_in "+-" sign
          then take i s ++ [marker; sign] ++ match trim_start (Z.eqb 48) ds with [] => [48] | ds => ds end
          else s
      | _ => s
      end
  end.

Definition format_decimal (v : Value) (d : BigDecimal) (type_char precision : option Z) (alternate : bool) : option (EvalResult text) :=
  let prec := spec_usize (default 6 precision) 6 in
  c ← type_char;
  if type_in "fF" c then Some (Ok (decimal_fixed d prec))
  else if c =? 37 then Some (Ok (decimal_fixed (decimal_hundredfold d) prec ++ lit "%"))
  else if type_in "eEgGn" c then
    Some (s ← format_float (default f64_nan (decimal_to_f64 d)) type_char precision alternate; Ok (minimize_exponent_digits s))
  else None.

Definition format_value_body (h : Heap) (v : Value) (type_char precision : option Z) (alternate : bool) : EvalResult text :=
  let other := match type_char with None => value_text_of h v | Some c => unknown_format_code c v end in
  match v with
  | VInt z | VBigInt z => format_integer v z type_char precision alternate
  | VBool b =>
      match type_char with
      | None => Ok (if b then lit "True" else lit "False")
      | Some _ => format_integer (VInt (Z.b2z b)) (Z.b2z b) type_char precision alternate
      end
  | VFloat f => format_float f type_char precision alternate
  | VString s => Ok match precision with Some p => take (Z.to_nat (spec_usize p 0)) s | None => s end
  | VComplex re im =>
      if match type_char with Some c => type_in "fFeEgGn%" c | None => false end
      then format_complex_body re im type_char precision alternate
      else other
  | VDecimal d _ => default other (format_decimal v d type_char precision alternate)
  | _ => other
  end.

(** ** Signs and padding *)

Definition numeric_value (v : Value) : bool :=
  match v with
  | VInt _ | VBigInt _ | VFloat _ | VBool _ | VComplex _ _ | VDecimal _ _ | VFraction _ => true
  | _ => false
  end.

Definition with_sign (v : Value) (sign : option Z) (s : text) : text :=
  let signed c := if starts_with minus s then s else c :: s in
  match sign with
  | Some c => if c =? 32 then signed c else if (c =? 43) && numeric_value v then signed c else s
  | None => s
  end.

(** Padding after the sign and the prefix of a radix. *)
Definition pad_after_sign (s : text) (width : nat) (fill : Z) (grouping : option Z) (grp : nat) : text :=
  let sign := sign_prefix "-+ " s in
  let head := sign ++ radix_prefix (drop (length sign) s) in
  let rest := drop (length head) s in
  match grouping with
  | Some sep =>
      if fill =? 48 then
        let bare := List.filter (fun c => negb (c =? sep)) (take (int_end rest) rest) in
        let tail := drop (int_end rest) rest in
        head ++ pad_and_group_zero bare (width - (length head + length tail)) grp sep ++ tail
      else head ++ replicate (width - length s) fill ++ rest
  | None => head ++ replicate (width - length s) fill ++ rest
  end.

Definition pad_text (v : Value) (spec : FormatSpec) (grp : nat) (s : text) : text :=
  let width := Z.to_nat (spec_usize (default 0 (fs_width spec)) 0) in
  if (width <=? length s)%nat then s
  else
    let fill := default (if fs_zero_pad spec then 48 else 32) (fs_fill spec) in
    let align := default (if fs_zero_pad spec then 61 else if numeric_value v then 62 else 60) (fs_align spec) in
    if align =? 60 then ljust fill width s
    else if align =? 62 then rjust fill width s
    else if align =? 94 then center fill width s
    else pad_after_sign s width fill (fs_grouping spec) grp.

Definition group_of (type_char : option Z) : nat := match type_char with Some c => if type_in "boxX" c then 4 else 3 | None => 3 end.

Definition format_parsed (h : Heap) (v : Value) (spec : FormatSpec) : EvalResult text :=
  let grp := group_of (fs_type spec) in
  raw ← format_value_body h v (fs_type spec) (fs_precision spec) (fs_alternate spec);
  let grouped := match fs_grouping spec with Some sep => apply_thousands_separator raw sep grp | None => raw end in
  Ok (pad_text v spec grp (with_sign v (fs_sign spec) grouped)).

(** [to_string] of a chrono format panics on a wrong specifier. *)
Fixpoint apply_format_spec (h : Heap) (v : Value) (spec : text) : EvalResult text :=
  match spec with
  | [] => value_text_of h v
  | _ =>
      match v with
      | VEnumMember _ _ inner (EInt | EStr | EIntFlag) => apply_format_spec h inner spec
      | VDate d => or_panic (date_format d spec)
      | VDateTime dt _ => or_panic (datetime_format dt spec)
      | VTime t => or_panic (time_format t spec)
      | VInstance class _ => fail (TypeError ("unsupported format string passed to " ++ class ++ ".__format__"))
      | _ =>
          match parse_spec spec with
          | TooWide w =>
              fail (LimitExceeded ("format width " ++ pretty w ++ " exceeds maximum (" ++ pretty MAX_FORMAT_WIDTH ++ ")"))
          | Malformed =>
              fail (ValueError ("Invalid format specifier '" ++ text_name spec ++ "' for object of type '" ++
                                python_type_name v ++ "'"))
          | Parsed spec => format_parsed h v spec
          end
      end
  end.
End Format.
