(* ===== verification/Percent.v ===== *)
(** [%] formatting of strings and bytes, and [string.Template] (eval/strings.rs). *)
From Stdlib Require Import ZArith Lia Ascii String SpecFloat.
From stdpp Require Import base tactics list numbers option strings pretty gmap.
From S2P Require Import Prelude PySet Values Errors F64 Keys Arith Classes Compare Operators State Exceptions Op Syntax Methods Text FloatText StrMethods Repr Format.

(** ** Conversions *)

Record PercentSpec : Type := mkPercentSpec {
  ps_minus : bool; ps_sign : option Z; ps_zero : bool; ps_alt : bool;
  ps_width : option Z; ps_precision : option Z; ps_conv : Z
}.

Inductive PercentPiece `{External} : Type := Literal (s : text) | Conv (spec : PercentSpec) (v : Value).

Record Flags : Type := mkFlags { fl_minus : bool; fl_plus : bool; fl_space : bool; fl_zero : bool; fl_alt : bool }.
Definition no_flags : Flags := mkFlags false false false false false.

Fixpoint parse_flags (fl : Flags) (chars : text) : Flags * text :=
  match chars with
  | c :: rest =>
      let '(mkFlags minus plus space zero alt) := fl in
      if c =? 45 then parse_flags (mkFlags true plus space zero alt) rest
      else if c =? 43 then parse_flags (mkFlags minus true space zero alt) rest
      else if c =? 32 then parse_flags (mkFlags minus plus true zero alt) rest
      else if c =? 48 then parse_flags (mkFlags minus plus space true alt) rest
      else if c =? 35 then parse_flags (mkFlags minus plus space zero true) rest
      else (fl, chars)
  | [] => (fl, [])
  end.

(** A mapping key in parentheses. *)
Fixpoint until_paren (chars : text) : option (text * text) :=
  match chars with
  | [] => None
  | c :: rest => if c =? 41 then Some ([], rest) else '(key, rest) ← until_paren rest; Some (c :: key, rest)
  end.

Fixpoint skip_length_modifiers (chars : text) : text :=
  match chars with c :: rest => if type_in "lhL" c then skip_length_modifiers rest else chars | [] => [] end.

Section Percent.
Context `{External} `{!ExternalOrder} `{!Platform} `{!Formats} `{!Unicode} `{!Shown} `{!DecimalFormats}.
Abbreviation key_eq := (key_eqb structural_eq).

Definition not_enough {A} : EvalResult A := fail (TypeError "not enough arguments for format string").

(** The next positional argument. *)
Definition next_argument (args : list Value) : EvalResult (Value * list Value) :=
  match args with v :: args => Ok (v, args) | [] => not_enough end.

Definition percent_star_arg (args : list Value) : EvalResult (Z * list Value) :=
  '(v, args) ← next_argument args;
  match v with
  | VInt n => Ok (n, args)
  | VBool b => Ok (Z.b2z b, args)
  | other => fail (TypeError ("* wants int, not " ++ type_name other))
  end.

(** [checked_neg] of the least integer fails. *)
Definition negated_width (w : Z) : Z := Z.min (- w) i64_max.

(** The width: whether it turns the alignment to the left, its value, the rest. *)
Definition parse_width (args : list Value) (chars : text) : EvalResult (bool * option Z * list Value * text) :=
  match chars with
  | 42 :: rest =>
      '(w, args) ← percent_star_arg args;
      Ok (if w <? 0 then (true, Some (negated_width w), args, rest) else (false, Some w, args, rest))
  | _ => let (w, rest) := parse_number chars in Ok (false, w, args, rest)
  end.

(** A point without digits is the precision 0; a negative [*] is none. *)
Definition parse_precision (args : list Value) (chars : text) : EvalResult (option Z * list Value * text) :=
  match chars with
  | 46 :: 42 :: rest =>
      '(p, args) ← percent_star_arg args; Ok (if p <? 0 then None else Some p, args, rest)
  | 46 :: rest => let (p, rest) := parse_number rest in Ok (Some (default 0 p), args, rest)
  | _ => Ok (None, args, chars)
  end.

Definition parse_key (chars : text) : EvalResult (option text * text) :=
  match chars with
  | 40 :: rest =>
      match until_paren rest with
      | Some (key, rest) => Ok (Some key, rest)
      | None => fail (ValueError "incomplete format key")
      end
  | _ => Ok (None, chars)
  end.

(** The value a conversion consumes. *)
Definition conversion_value (mapping : option (list (ValueKey * Value))) (key : option text) (args : list Value) :
    EvalResult (Value * list Value) :=
  match key with
  | Some key =>
      match mapping with
      | None => fail (TypeError "format requires a mapping")
      | Some entries =>
          match im_get key_eq entries (KString key) with
          | Some v => Ok (v, args)
          | None => exception "KeyError" (lit "'" ++ key ++ lit "'")
          end
      end
  | None => next_argument args
  end.

(** One conversion, after its [%]. *)
Definition parse_conversion (mapping : option (list (ValueKey * Value))) (args : list Value) (chars : text) :
    EvalResult (PercentPiece * list Value * text) :=
  '(key, chars) ← parse_key chars;
  let (fl, chars) := parse_flags no_flags chars in
  '(leftwards, width, args, chars) ← parse_width args chars;
  '(precision, args, chars) ← parse_precision args chars;
  match skip_length_modifiers chars with
  | [] => fail (ValueError "incomplete format")
  | conv :: chars =>
      '(v, args) ← conversion_value mapping key args;
      let sign := if fl_plus fl then Some 43 else if fl_space fl then Some 32 else None in
      Ok (Conv (mkPercentSpec (fl_minus fl || leftwards) sign (fl_zero fl) (fl_alt fl) width precision conv) v, args, chars)
  end.

Definition flush (literal : text) (pieces : list PercentPiece) : list PercentPiece :=
  match literal with [] => pieces | _ => Literal (rev literal) :: pieces end.

(** The pieces of a template and the arguments left over; each round consumes a
    character. *)
Fixpoint percent_pieces (fuel : nat) (mapping : option (list (ValueKey * Value))) (literal : text) (args : list Value)
    (chars : text) : EvalResult (list PercentPiece * list Value) :=
  match fuel, chars with
  | _, [] => Ok (flush literal [], args)
  | O, _ => Panic
  | S fuel, c :: rest =>
      if negb (c =? 37) then percent_pieces fuel mapping (c :: literal) args rest
      else
        match rest with
        | 37 :: rest => percent_pieces fuel mapping (37 :: literal) args rest
        | _ =>
            '(piece, args, rest) ← parse_conversion mapping args rest;
            '(pieces, args) ← percent_pieces fuel mapping [] args rest;
            Ok (flush literal (piece :: pieces), args)
        end
  end.

Definition parse_percent_pieces (h : Heap) (template : text) (arg : Value) : EvalResult (list PercentPiece) :=
  let positional := match arg with VTuple items => items | VDict _ => [] | other => [other] end in
  let mapping := dict_at h <$> as_dict arg in
  '(pieces, unused) ← percent_pieces (length template) mapping [] positional template;
  match mapping, unused with
  | None, _ :: _ => fail (TypeError "not all arguments converted during string formatting")
  | _, _ => Ok pieces
  end.

(** ** Rendering a conversion *)

Definition opt_text (prefix : text) (n : option Z) : text := match n with Some n => prefix ++ int_text n | None => [] end.

Definition build_brace_spec (spec : PercentSpec) (type_char : Z) : text :=
  (if ps_minus spec then [60] else if ps_zero spec then [] else [62]) ++
  match ps_sign spec with Some c => [c] | None => [] end ++
  (if ps_alt spec then [35] else []) ++
  (if ps_zero spec && negb (ps_minus spec) then [48] else []) ++
  opt_text [] (ps_width spec) ++ opt_text [46] (ps_precision spec) ++ [type_char].

Definition percent_trunc (f : f64) : Z := f64_as_i64 f.

(** [Value::as_float]; [None] for what is no number. *)
Definition as_float (v : Value) : option f64 :=
  match v with
  | VFloat f => Some f
  | VInt i => Some (f64_of_Z i)
  | VBigInt i => bigint_to_f64 i
  | VBool b => Some (f64_of_Z (Z.b2z b))
  | VDecimal d _ => decimal_to_f64 d
  | VFraction f => rational_to_f64 f
  | _ => None
  end.
Fixpoint value_as_float (v : Value) : option f64 :=
  match v with
  | VEnumMember _ _ inner (EInt | EIntFlag) => value_as_float inner
  | _ => as_float v
  end.

Definition ascii_char (c : Z) : text := if c <? 128 then [c] else escape_hex c.
Definition ascii_escape (s : text) : text := flat_map ascii_char s.

Definition char_operand (v : Value) : EvalResult text :=
  match v with
  | VString [c] => Ok [c]
  | VInt z | VBigInt z => char_of z
  | VBool b => Ok [Z.b2z b]
  | _ => fail (TypeError "%c requires int or char")
  end.

Definition integer_operand (conv : Z) (v : Value) : EvalResult Value :=
  match v with
  | VInt _ | VBigInt _ => Ok v
  | VBool b => Ok (VInt (Z.b2z b))
  | VFloat f => Ok (VInt (percent_trunc f))
  | _ =>
      fail (TypeError ("%" ++ text_name [conv] ++ " format: " ++
                       (if type_in "oxX" conv then "an integer" else "a real number") ++
                       " is required, not " ++ type_name v))
  end.

(** The operand as the conversion takes it. *)
Definition percent_operand (h : Heap) (v : Value) (conv : Z) : EvalResult Value :=
  if conv =? 99 then VString <$> char_operand v
  else if type_in "diuoxX" conv then integer_operand conv v
  else if type_in "eEfFgG" conv then
    match value_as_float v with
    | Some f => Ok (VFloat f)
    | None => fail (TypeError ("must be real number, not " ++ type_name v))
    end
  else if conv =? 115 then VString <$> value_text_of h v
  else if conv =? 114 then VString <$> value_repr_of h v
  else if conv =? 97 then s ← value_repr_of h v; Ok (VString (ascii_escape s))
  else fail (ValueError ("unsupported format character '" ++ text_name [conv] ++ "'")).

(** The type of the specification; [%r] keeps its letter, which is of no consequence to
    a string. *)
Definition brace_type (conv : Z) : Z := if type_in "iu" conv then 100 else if type_in "ac" conv then 115 else conv.

Definition format_percent_conversion (h : Heap) (v : Value) (spec : PercentSpec) : EvalResult text :=
  operand ← percent_operand h v (ps_conv spec);
  apply_format_spec h operand (build_brace_spec spec (brace_type (ps_conv spec))).

Fixpoint format_pieces (h : Heap) (pieces : list PercentPiece) : EvalResult text :=
  match pieces with
  | [] => Ok []
  | piece :: pieces =>
      s ← match piece with Literal s => Ok s | Conv spec v => format_percent_conversion h v spec end;
      rest ← format_pieces h pieces;
      Ok (s ++ rest)
  end.

(** [str % arg]. *)
Definition str_percent (h : Heap) (template : text) (arg : Value) : EvalResult text :=
  pieces ← parse_percent_pieces h template arg; format_pieces h pieces.

(** ** [bytes % arg] *)

(** The rest of a conversion: [b] becomes [s]. *)
Fixpoint copy_conversion (b : list Z) : text * list Z :=
  match b with
  | [] => ([], [])
  | c :: b =>
      if ascii_alpha c && negb (type_in "lhL" c) then ([if c =? 98 then 115 else c], b)
      else let (s, b) := copy_conversion b in (c :: s, b)
  end.
Fixpoint copy_key (b : list Z) : text * list Z :=
  match b with
  | [] => ([], [])
  | c :: b => if c =? 41 then ([c], b) else let (s, b) := copy_key b in (c :: s, b)
  end.

Fixpoint normalize_template (fuel : nat) (b : list Z) : text :=
  match fuel, b with
  | _, [] => []
  | O, _ => []
  | S fuel, c :: rest =>
      if negb (c =? 37) then c :: normalize_template fuel rest
      else
        match rest with
        | 37 :: rest => 37 :: 37 :: normalize_template fuel rest
        | _ =>
            let (key, rest) := match rest with 40 :: _ => copy_key rest | _ => ([], rest) end in
            let (conv, rest) := copy_conversion rest in
            37 :: key ++ conv ++ normalize_template fuel rest
        end
  end.
Definition decode_and_normalize_bytes_template (b : list Z) : text := normalize_template (length b) b.

Definition latin1_bytes (h : Heap) (v : Value) : Value :=
  match v with
  | VBytes b => VString b
  | VByteArray l => VString (bytes_at h l)
  | other => other
  end.
Definition latin1_bytes_args (h : Heap) (arg : Value) : Value :=
  match arg with
  | VTuple items => VTuple (map (latin1_bytes h) items)
  | VDict _ => arg
  | other => latin1_bytes h other
  end.

(** [c as u8] cuts a character off. *)
Definition bytes_percent (h : Heap) (template : list Z) (arg : Value) : EvalResult (list Z) :=
  s ← str_percent h (decode_and_normalize_bytes_template template) (latin1_bytes_args h arg);
  Ok (map (fun c => c mod 256) s).

(** ** [string.Template] *)

Definition ident_start (c : Z) : bool := ascii_alpha c || (c =? 95).
Definition ident_cont (c : Z) : bool := ascii_alnum c || (c =? 95).

Fixpoint leading_while (p : Z -> bool) (chars : text) : text * text :=
  match chars with
  | c :: rest => if p c then let (ds, rest) := leading_while p rest in (c :: ds, rest) else ([], chars)
  | [] => ([], [])
  end.

Definition valid_placeholder (name : text) : bool :=
  match name with c :: _ => ident_start c && forallb ident_cont name | [] => false end.

Section Template.
Variable h : Heap.
Variable lookup : text -> option Value.
Variable safe : bool.

(** A name found is replaced by its value; else it is kept or an error. *)
Definition placeholder (name kept : text) : EvalResult text :=
  match lookup name with
  | Some v => value_text_of h v
  | None => if safe then Ok kept else exception "KeyError" (lit "'" ++ name ++ lit "'")
  end.

Fixpoint substitute_from (fuel : nat) (chars : text) : EvalResult text :=
  match fuel, chars with
  | _, [] => Ok []
  | O, _ => Panic
  | S fuel, c :: rest =>
      let next s rest := t ← substitute_from fuel rest; Ok (s ++ t) in
      let invalid := if safe then next [36] rest else fail (ValueError "Invalid placeholder in string") in
      if negb (c =? 36) then next [c] rest
      else
        match rest with
        | [] => invalid
        | d :: rest' =>
            if d =? 36 then next [36] rest'
            else if d =? 123 then
              let (name, tail) := leading_while (fun c => negb (c =? 125)) rest' in
              match tail with
              | _ :: tail =>
                  if valid_placeholder name
                  then s ← placeholder name ([36; 123] ++ name ++ [125]); next s tail
                  else invalid
              | [] => invalid
              end
            else if ident_start d then
              let (name, tail) := leading_while ident_cont rest in
              s ← placeholder name (36 :: name); next s tail
            else invalid
        end
  end.
End Template.

Definition template_substitute (h : Heap) (template : text) (args : list Value) (kwargs : list (string * Value)) (safe : bool) :
    EvalResult text :=
  let positional := match args with VDict l :: _ => dict_at h l | _ => [] end in
  let lookup name :=
    match im_get String.eqb kwargs (text_name name) with
    | Some v => Some v
    | None => im_get key_eq positional (KString name)
    end in
  substitute_from h lookup safe (length template) template.
End Percent.
