(* ===== verification/Attributes.v ===== *)
(** The attributes of builtin values (types.rs): their special names, their methods
    and data, [dir], and the attribute slots of the type objects. *)
From Stdlib Require Import ZArith Lia Ascii String SpecFloat.
From stdpp Require Import base tactics list numbers option strings gmap.
From S2P Require Import Prelude PySet Values Errors F64 Keys Classes Compare Operators State Exceptions Op Syntax Methods Text FloatText StrMethods Repr.

(** The attribute functions of the modules datetime and hashlib. *)
Class ModuleAttributes `{External} : Type := {
  date_attribute : NaiveDate -> string -> EvalResult Value;
  datetime_attribute : NaiveDateTime -> option Z -> string -> EvalResult Value;
  time_attribute : NaiveTime -> string -> EvalResult Value;
  timedelta_attribute : Z -> string -> EvalResult Value;
  hash_attribute : string -> list Z -> string -> EvalResult Value
}.

(** ** Tables *)

Definition COMMON_DUNDERS : list string :=
  ["__delattr__"; "__dir__"; "__doc__"; "__eq__"; "__format__"; "__ge__"; "__getattribute__"; "__getstate__";
   "__gt__"; "__hash__"; "__init__"; "__init_subclass__"; "__le__"; "__lt__"; "__ne__"; "__new__"; "__reduce__";
   "__reduce_ex__"; "__repr__"; "__setattr__"; "__sizeof__"; "__str__"; "__subclasshook__"]%string.
Definition INT_DUNDERS : list string :=
  ["__abs__"; "__add__"; "__and__"; "__bool__"; "__ceil__"; "__divmod__"; "__float__"; "__floor__";
   "__floordiv__"; "__getnewargs__"; "__index__"; "__int__"; "__invert__"; "__lshift__"; "__mod__"; "__mul__";
   "__neg__"; "__or__"; "__pos__"; "__pow__"; "__radd__"; "__rand__"; "__rdivmod__"; "__rfloordiv__";
   "__rlshift__"; "__rmod__"; "__rmul__"; "__ror__"; "__round__"; "__rpow__"; "__rrshift__"; "__rshift__";
   "__rsub__"; "__rtruediv__"; "__rxor__"; "__sub__"; "__truediv__"; "__trunc__"; "__xor__"]%string.
Definition FLOAT_DUNDERS : list string :=
  ["__abs__"; "__add__"; "__bool__"; "__ceil__"; "__divmod__"; "__float__"; "__floor__"; "__floordiv__";
   "__getformat__"; "__getnewargs__"; "__int__"; "__mod__"; "__mul__"; "__neg__"; "__pos__"; "__pow__";
   "__radd__"; "__rdivmod__"; "__rfloordiv__"; "__rmod__"; "__rmul__"; "__round__"; "__rpow__"; "__rsub__";
   "__rtruediv__"; "__sub__"; "__truediv__"; "__trunc__"]%string.
Definition COMPLEX_DUNDERS : list string :=
  ["__abs__"; "__add__"; "__bool__"; "__complex__"; "__getnewargs__"; "__mul__"; "__neg__"; "__pos__"; "__pow__";
   "__radd__"; "__rmul__"; "__rpow__"; "__rsub__"; "__rtruediv__"; "__sub__"; "__truediv__"]%string.
Definition STR_DUNDERS : list string :=
  ["__add__"; "__contains__"; "__getitem__"; "__getnewargs__"; "__iter__"; "__len__"; "__mod__"; "__mul__";
   "__rmod__"; "__rmul__"]%string.
Definition BYTES_DUNDERS : list string :=
  ["__add__"; "__buffer__"; "__bytes__"; "__contains__"; "__getitem__"; "__getnewargs__"; "__iter__"; "__len__";
   "__mod__"; "__mul__"; "__rmod__"; "__rmul__"]%string.
Definition BYTEARRAY_DUNDERS : list string :=
  ["__add__"; "__alloc__"; "__buffer__"; "__contains__"; "__delitem__"; "__getitem__"; "__iadd__"; "__imul__";
   "__iter__"; "__len__"; "__mod__"; "__mul__"; "__release_buffer__"; "__rmod__"; "__rmul__";
   "__setitem__"]%string.
Definition LIST_DUNDERS : list string :=
  ["__add__"; "__class_getitem__"; "__contains__"; "__delitem__"; "__getitem__"; "__iadd__"; "__imul__";
   "__iter__"; "__len__"; "__mul__"; "__reversed__"; "__rmul__"; "__setitem__"]%string.
Definition TUPLE_DUNDERS : list string :=
  ["__add__"; "__class_getitem__"; "__contains__"; "__getitem__"; "__getnewargs__"; "__iter__"; "__len__";
   "__mul__"; "__rmul__"]%string.
Definition DICT_DUNDERS : list string :=
  ["__class_getitem__"; "__contains__"; "__delitem__"; "__getitem__"; "__ior__"; "__iter__"; "__len__"; "__or__";
   "__reversed__"; "__ror__"; "__setitem__"]%string.
Definition SET_DUNDERS : list string :=
  ["__and__"; "__class_getitem__"; "__contains__"; "__iand__"; "__ior__"; "__isub__"; "__iter__"; "__ixor__";
   "__len__"; "__or__"; "__rand__"; "__ror__"; "__rsub__"; "__rxor__"; "__sub__"; "__xor__"]%string.
Definition FROZENSET_DUNDERS : list string :=
  ["__and__"; "__class_getitem__"; "__contains__"; "__iter__"; "__len__"; "__or__"; "__rand__"; "__ror__";
   "__rsub__"; "__rxor__"; "__sub__"; "__xor__"]%string.
Definition RANGE_DUNDERS : list string :=
  ["__bool__"; "__contains__"; "__getitem__"; "__iter__"; "__len__"; "__reversed__"]%string.
Definition NONE_DUNDERS : list string :=
  ["__bool__"]%string.
Definition ITER_DUNDERS : list string :=
  ["__iter__"; "__length_hint__"; "__next__"; "__setstate__"]%string.

Definition BYTES_METHODS : list string :=
  ["decode"; "hex"; "startswith"; "endswith"; "split"; "rsplit"; "replace"; "find"; "rfind"; "index"; "rindex";
   "count"; "upper"; "lower"; "swapcase"; "capitalize"; "title"; "isdigit"; "isalpha"; "isalnum"; "isspace";
   "isupper"; "islower"; "istitle"; "isascii"; "strip"; "lstrip"; "rstrip"; "join"; "removeprefix";
   "removesuffix"; "translate"; "partition"; "rpartition"; "center"; "ljust"; "rjust"; "zfill"; "splitlines";
   "expandtabs"; "fromhex"; "maketrans"]%string.
Definition MEMORYVIEW_METHODS : list string :=
  ["tobytes"; "tolist"; "hex"]%string.
Definition INT_METHODS : list string :=
  ["bit_length"; "bit_count"; "to_bytes"; "from_bytes"; "as_integer_ratio"; "conjugate"; "is_integer"]%string.
Definition FLOAT_METHODS : list string :=
  ["is_integer"; "as_integer_ratio"; "hex"; "fromhex"; "conjugate"]%string.
Definition COMPLEX_METHODS : list string :=
  ["conjugate"]%string.
Definition RANGE_METHODS : list string :=
  ["count"; "index"]%string.
Definition DICT_METHODS : list string :=
  ["keys"; "values"; "items"; "get"; "pop"; "popitem"; "update"; "setdefault"; "copy"; "clear";
   "fromkeys"]%string.
Definition STR_METHODS : list string :=
  ["upper"; "lower"; "strip"; "lstrip"; "rstrip"; "split"; "rsplit"; "join"; "replace"; "startswith"; "endswith";
   "removeprefix"; "removesuffix"; "casefold"; "encode"; "expandtabs"; "partition"; "rpartition"; "find"; "rfind";
   "index"; "count"; "format"; "isdigit"; "isalpha"; "isalnum"; "isspace"; "isupper"; "islower"; "title";
   "capitalize"; "swapcase"; "center"; "ljust"; "rjust"; "zfill"; "splitlines"; "isidentifier"; "istitle";
   "isprintable"; "isascii"; "isdecimal"; "isnumeric"; "translate"; "format_map"; "maketrans"; "rindex"]%string.
Definition LIST_METHODS : list string :=
  ["append"; "extend"; "insert"; "pop"; "remove"; "sort"; "reverse"; "index"; "count"; "copy"; "clear"]%string.
Definition TUPLE_METHODS : list string :=
  ["count"; "index"]%string.
Definition BYTEARRAY_METHODS : list string :=
  ["append"; "extend"; "insert"; "remove"; "pop"; "clear"; "reverse"; "copy"; "decode"; "hex"; "upper"; "lower";
   "swapcase"; "capitalize"; "title"; "isdigit"; "isalpha"; "isalnum"; "isspace"; "isupper"; "islower"; "strip";
   "lstrip"; "rstrip"; "split"; "replace"; "find"; "rfind"; "index"; "rindex"; "count"; "startswith"; "endswith";
   "removeprefix"; "removesuffix"; "join"; "isascii"; "istitle"; "expandtabs"; "rsplit"; "translate"; "partition";
   "rpartition"; "center"; "ljust"; "rjust"; "zfill"; "splitlines"; "fromhex"; "maketrans"]%string.
Definition SET_METHODS : list string :=
  ["add"; "remove"; "discard"; "pop"; "clear"; "copy"; "union"; "intersection"; "difference";
   "symmetric_difference"; "issubset"; "issuperset"; "isdisjoint"; "update"; "intersection_update";
   "difference_update"; "symmetric_difference_update"]%string.
Definition FROZENSET_METHODS : list string :=
  ["copy"; "union"; "intersection"; "difference"; "symmetric_difference"; "issubset"; "issuperset";
   "isdisjoint"]%string.
Definition COUNTER_METHODS : list string :=
  ["keys"; "values"; "items"; "get"; "pop"; "copy"; "clear"; "setdefault"; "most_common"; "elements"; "subtract";
   "update"; "total"]%string.
Definition DEQUE_METHODS : list string :=
  ["append"; "appendleft"; "pop"; "popleft"; "extend"; "extendleft"; "rotate"; "clear"; "copy"; "index"; "count";
   "insert"; "remove"; "reverse"]%string.

Definition listed (name : string) (names : list string) : bool := bool_decide (name ∈ names).

Definition ends_with_dunder (name : string) : bool := String.prefix "__" (String.rev name).
Definition is_dunder_name (name : string) : bool :=
  (4 <? String.length name)%nat && String.prefix "__" name && ends_with_dunder name.

Definition int_data : list string := ["denominator"; "imag"; "numerator"; "real"]%string.
Definition complex_data : list string := ["imag"; "real"]%string.
Definition range_data : list string := ["start"; "step"; "stop"]%string.

(** The special names, methods and data of a type, by its name. *)
Definition type_tables (type_name : string) : option (list string * list string * list string) :=
  if listed type_name ["int"; "bool"]%string then Some (INT_DUNDERS, INT_METHODS, int_data)
  else if String.eqb type_name "float" then Some (FLOAT_DUNDERS, FLOAT_METHODS, complex_data)
  else if String.eqb type_name "complex" then Some (COMPLEX_DUNDERS, COMPLEX_METHODS, complex_data)
  else if String.eqb type_name "str" then Some (STR_DUNDERS, STR_METHODS, [])
  else if String.eqb type_name "bytes" then Some (BYTES_DUNDERS, BYTES_METHODS, [])
  else if String.eqb type_name "bytearray" then Some (BYTEARRAY_DUNDERS, BYTEARRAY_METHODS, [])
  else if String.eqb type_name "list" then Some (LIST_DUNDERS, LIST_METHODS, [])
  else if String.eqb type_name "tuple" then Some (TUPLE_DUNDERS, TUPLE_METHODS, [])
  else if String.eqb type_name "dict" then Some (DICT_DUNDERS, DICT_METHODS, [])
  else if String.eqb type_name "set" then Some (SET_DUNDERS, SET_METHODS, [])
  else if String.eqb type_name "frozenset" then Some (FROZENSET_DUNDERS, FROZENSET_METHODS, [])
  else if String.eqb type_name "range" then Some (RANGE_DUNDERS, RANGE_METHODS, range_data)
  else if String.eqb type_name "NoneType" then Some (NONE_DUNDERS, [], [])
  else if String.eqb type_name "object" then Some ([], [], [])
  else None.

Definition builtin_type_attr_present (type_name attr : string) : bool :=
  listed attr ["__name__"; "__qualname__"; "__call__"]%string ||
  match type_tables type_name with
  | Some (dunders, methods, data) => listed attr (COMMON_DUNDERS ++ dunders ++ methods ++ data)
  | None => false
  end.

Fixpoint insert_sorted (x : string) (l : list string) : list string :=
  match l with
  | [] => [x]
  | y :: l' => if String.eqb x y then l else if String.leb x y then x :: l else y :: insert_sorted x l'
  end.

Section Attributes.
Context `{External} `{!ModuleAttributes}.

(** The tables of a value. *)
Definition value_tables (v : Value) : option (list string * list string * list string) :=
  match v with
  | VInt _ | VBigInt _ | VBool _ => Some (INT_DUNDERS, INT_METHODS, int_data)
  | VFloat _ => Some (FLOAT_DUNDERS, FLOAT_METHODS, complex_data)
  | VComplex _ _ => Some (COMPLEX_DUNDERS, COMPLEX_METHODS, complex_data)
  | VString _ => Some (STR_DUNDERS, STR_METHODS, [])
  | VBytes _ => Some (BYTES_DUNDERS, BYTES_METHODS, [])
  | VByteArray _ => Some (BYTEARRAY_DUNDERS, BYTEARRAY_METHODS, [])
  | VList _ => Some (LIST_DUNDERS, LIST_METHODS, [])
  | VTuple _ => Some (TUPLE_DUNDERS, TUPLE_METHODS, [])
  | VDict _ => Some (DICT_DUNDERS, DICT_METHODS, [])
  | VSet _ => Some (SET_DUNDERS, SET_METHODS, [])
  | VFrozenset _ => Some (FROZENSET_DUNDERS, FROZENSET_METHODS, [])
  | VRange _ _ _ => Some (RANGE_DUNDERS, RANGE_METHODS, range_data)
  | VNone => Some (NONE_DUNDERS, [], [])
  | _ => None
  end.

Definition builtin_dir (v : Value) : option (list string) :=
  '(dunders, methods, data) ← value_tables v;
  Some (foldr insert_sorted [] (COMMON_DUNDERS ++ dunders ++ methods ++ data ++ ["__class__"]%string)).

Definition builtin_dunder_present (v : Value) (name : string) : bool :=
  let extras := match v with
    | VLazy _ _ _ | VGenerator _ | VBuiltinIter _ _ => Some ITER_DUNDERS
    | _ => (fun t => t.1.1) <$> value_tables v
    end in
  match extras with Some extras => listed name (COMMON_DUNDERS ++ extras) | None => false end.

Definition instance_classmethod (v : Value) (method : string) : option (string * string) :=
  let among names ty := if listed method names then Some (ty, method) else None in
  match v with
  | VDict _ => among ["fromkeys"] "dict"
  | VBytes _ => among ["fromhex"; "maketrans"] "bytes"
  | VByteArray _ => among ["fromhex"; "maketrans"] "bytearray"
  | _ => None
  end%string.

Definition type_object_of (v : Value) : Value :=
  match v with
  | VInstance class _ => VClass class
  | VException e => VExceptionType (exc_type_name e)
  | VEnumMember class _ _ _ => VClass class
  | VType _ | VClass _ | VExceptionType _ => VType "type"
  | VModule _ => VType "module"
  | VBuiltinName n => if is_builtin_type_name n then VType "type" else VType (type_name v)
  | other => VType (type_name other)
  end.

Definition resolve_object_attr (v : Value) (name : string) : option Value :=
  if String.eqb name "__class__" then Some (type_object_of v) else None.
Definition is_object_attr (name : string) : bool := String.eqb name "__class__".

(** ** Slots *)

Definition bound_method (v : Value) (name : string) : Value := VBoundMethod (Snapshot v) name.

Definition attribute_error {A} (type_name name : string) : EvalResult A :=
  fail (AttributeError ("'" ++ type_name ++ "' object has no attribute '" ++ name ++ "'")).

(** Data, then the methods of a table, then an error in the name given. *)
Definition data_or_method (v : Value) (type : string) (methods : list string) (data : list (string * Value)) (name : string) :
    EvalResult Value :=
  match im_get String.eqb data name with
  | Some d => Ok d
  | None => if listed name methods then Ok (bound_method v name) else attribute_error type name
  end.

Definition tower (n : Value) : list (string * Value) :=
  [("real", n); ("numerator", n); ("imag", VInt 0); ("denominator", VInt 1)]%string.

Definition memoryview_get_attr (h : Heap) (v inner : Value) (name : string) : EvalResult Value :=
  let len := VInt (Z.of_nat (length (default [] (bytes_view h v)))) in
  let readonly := match inner with VBytes _ => true | _ => false end in
  data_or_method v "memoryview" MEMORYVIEW_METHODS
    [("nbytes", len); ("itemsize", VInt 1); ("ndim", VInt 1); ("format", VString (lit "B"));
     ("shape", VTuple [len]); ("strides", VTuple [VInt 1]); ("suboffsets", VTuple []);
     ("readonly", VBool readonly); ("contiguous", VBool true); ("c_contiguous", VBool true);
     ("f_contiguous", VBool true); ("obj", inner)]%string name.

(** [maps], the list of the maps, and [parents], a chain without the first. *)
Definition chainmap_get_attr (h : Heap) (maps : list Value) (name : string) : EvalResult (Value * Heap) :=
  if String.eqb name "maps" then let (l, h) := shared_list h maps in Ok (VList l, h)
  else if String.eqb name "parents" then
    match tail maps with
    | [] => let (l, h) := shared_dict h [] in Ok (VChainMap [VDict l], h)
    | rest => Ok (VChainMap rest, h)
    end
  else attribute_error "ChainMap" name.

(** The attribute slot of the value's type; [None] without one. *)
Definition get_attr_slot (h : Heap) (v : Value) (name : string) : option (EvalResult (Value * Heap)) :=
  let here (r : EvalResult Value) := Some (a ← r; Ok (a, h)) in
  let from type methods data := here (data_or_method v type methods data name) in
  match v with
  | VNone => here (attribute_error (type_name v) name)
  | VBool b => from "bool" INT_METHODS (tower (VInt (Z.b2z b)))
  | VInt _ | VBigInt _ => from "int" INT_METHODS (tower v)
  | VFloat _ => from "float" FLOAT_METHODS [("real", v); ("imag", VFloat f64_zero)]
  | VComplex re im => from "complex" COMPLEX_METHODS [("real", VFloat re); ("imag", VFloat im)]
  | VString _ => from "str" STR_METHODS []
  | VBytes _ => from "bytes" BYTES_METHODS []
  | VByteArray _ => from "bytearray" BYTEARRAY_METHODS []
  | VMemoryView inner => here (memoryview_get_attr h v inner name)
  | VList _ => from "list" LIST_METHODS []
  | VTuple _ => from "tuple" TUPLE_METHODS []
  | VDict _ | VOrderedDict _ | VDefaultDict _ _ => from "dict" DICT_METHODS []
  | VSet _ => from "set" SET_METHODS []
  | VFrozenset _ => from "frozenset" FROZENSET_METHODS []
  | VRange start stop step => from "range" RANGE_METHODS [("start", VInt start); ("stop", VInt stop); ("step", VInt step)]
  | VCounter _ => from "Counter" COUNTER_METHODS []
  | VDeque _ maxlen =>
      from "deque" DEQUE_METHODS [("maxlen", match maxlen with Some n => VInt (Z.min n i64_max) | None => VNone end)]
  | VChainMap maps => Some (chainmap_get_attr h maps name)
  | VFraction f =>
      from "Fraction" [] [("numerator", int_from_bigint (rational_numer f)); ("denominator", int_from_bigint (rational_denom f))]
  | VDate d => here (date_attribute d name)
  | VDateTime dt tz => here (datetime_attribute dt tz name)
  | VTime t => here (time_attribute t name)
  | VTimeDelta micros => here (timedelta_attribute micros name)
  | VHashDigest algo b => here (hash_attribute algo b name)
  | VEnumMember class member inner _ =>
      here (if String.eqb name "name" then Ok (VString (name_text member))
            else if String.eqb name "value" then Ok inner
            else fail (AttributeError ("'" ++ class ++ "." ++ member ++ "' enum member has no attribute '" ++ name ++ "'")))
  | _ => None
  end%string.

(** Special names first, then the methods of an iterator, then the slot. *)
Definition dispatch_getattr_opt (h : Heap) (v : Value) (name : string) : EvalResult (option (Value * Heap)) :=
  let bound := Ok (Some (bound_method v name, h)) in
  let iterator := match v with VGenerator _ | VLazy _ _ _ | VBuiltinIter _ _ => true | _ => false end in
  if is_dunder_name name && builtin_dunder_present v name then bound
  else if iterator && listed name ["send"; "throw"; "close"]%string then bound
  else
    match get_attr_slot h v name with
    | None => Ok None
    | Some r => a ← r; Ok (Some a)
    end.

(** No type object has a slot for writing attributes. *)
Definition dispatch_setattr {A} (v : Value) (name : string) : EvalResult A := attribute_error (type_object_name (type_of v)) name.
End Attributes.
