(* ===== verification/Targets.v ===== *)
(** Assignment, augmented assignment and deletion of attributes and items
    (eval/statements.rs, eval/delete.rs, eval/place.rs): what the evaluator hands over to
    places, to the methods of user classes and to the class registry; the [del]
    statement. *)
From Stdlib Require Import ZArith Lia Ascii String SpecFloat.
From stdpp Require Import base tactics list numbers option strings pretty gmap.
From S2P Require Import Prelude PySet Values Errors F64 Keys Classes Slices Compare Operators State Exceptions Op Methods Containers Places.
From S2P Require Import Syntax Host Displays Eval Stmts Attributes.

(** ** Classes *)

Section Classes.
Context `{External}.

Definition lookup_property (registry : gmap string ClassValue) (class_name attr : string) : option PropertyDef :=
  class ← registry !! class_name; snd <$> first_in_mro registry (fun c => properties c !! attr) (mro class).

(** A class attribute that is an instance: a descriptor, when its class says so. *)
Definition lookup_class_attr_instance (registry : gmap string ClassValue) (class_name attr : string) : option (string * loc) :=
  class ← registry !! class_name;
  snd <$> first_in_mro registry
            (fun c => match class_attrs c !! attr with Some (VInstance n l) => Some (n, l) | _ => None end) (mro class).

Definition with_class_attr (c : ClassValue) (attr : string) (v : Value) : ClassValue :=
  mkClass (c_name c) (methods c) (<[attr := v]> (class_attrs c)) (bases c) (mro c) (properties c) (static_methods c)
    (class_methods c) (enum_kind c) (enum_members c) (annotations c) (dataclass_fields c) (frozen c) (order c)
    (total_ordering c) (has_slots c) (slot_names c) (abstract_methods c) (metaclass c) (c_qualname c) (is_generic c)
    (initvar_fields c).

Fixpoint assoc_remove {A} (fs : list (string * A)) (name : string) : option (list (string * A)) :=
  match fs with
  | [] => None
  | (n, v) :: fs => if String.eqb n name then Some fs else cons (n, v) <$> assoc_remove fs name
  end.

Definition shared_fields (h : Heap) (fields : list (string * Value)) : loc * Heap :=
  let l := fresh (dom (instance_fields h)) in (l, put_fields l fields h).

Definition allocate_instance (s : InterpreterState) (fields : list (string * Value)) : loc * InterpreterState :=
  let (l, h) := shared_fields (heap s) fields in (l, set_heap h s).

Definition register_class (name : string) (c : ClassValue) (s : InterpreterState) : InterpreterState :=
  set_program (<[name := c]> (classes s)) (function_bodies s) (lambda_bodies s) s.
End Classes.

Section Targets.
Context `{External} `{!ExternalOrder} `{!Platform} `{!Formats} `{!Calls} `{!Estimates} `{!Environment} `{!Host}.

(** The evaluation of an expression, the call of a user function or class without
    arguments, and a key as messages show it. *)
Variable eval : InterpreterState -> PyExpr -> Eval Value.
Variable call_factory : InterpreterState -> Value -> Eval Value.
Variable shown_key : Heap -> ValueKey -> text.

Definition error {A} (s : InterpreterState) (e : InterpreterError) : Eval A := done s (fail e).
Definition unsupported {A} (s : InterpreterState) (what : string) : Eval A :=
  error s (Runtime (what ++ " (see CONFORMANCE.md#unsupported-language-features)")).

Definition eval_opt (s : InterpreterState) (e : option PyExpr) : Eval (option Value) :=
  match e with Some e => let? (s, v) := eval s e in done s (Ok (Some v)) | None => done s (Ok None) end.

Definition eval_slice_spec (s : InterpreterState) (lo up st : option PyExpr) : Eval SliceSpec :=
  let? (s, lo) := eval_opt s lo in
  let? (s, up) := eval_opt s up in
  let? (s, st) := eval_opt s st in
  done s (Ok (mkSliceSpec lo up st)).

(** ** Resolving a place *)

Definition present (v : Value) : option Value := match v with VNone => None | _ => Some v end.

(** The step of a subscript; a slice object is a slice. *)
Definition subscript_step (s : InterpreterState) (slice : PyExpr) : Eval PlaceStep :=
  match slice with
  | ESlice lo up st => let? (s, spec) := eval_slice_spec s lo up st in done s (Ok (SliceStep spec))
  | _ =>
      let? (s, key) := eval s slice in
      done s (Ok match key with
                 | VSlice a b c => SliceStep (mkSliceSpec (present a) (present b) (present c))
                 | _ => Index key
                 end)
  end.

Definition is_class_name (s : InterpreterState) (e : PyExpr) : bool :=
  match e with EName n => match variables s !! n with Some (VClass _) => true | _ => false end | _ => false end.

Definition push_step (p : PlaceOf) (st : PlaceStep) : PlaceOf := mkPlace (root p) (steps p ++ [st]).

Fixpoint eval_place (s : InterpreterState) (e : PyExpr) : Eval (option PlaceOf) :=
  guarded s (fun s =>
    match e with
    | EName id => done s (Ok (Some (mkPlace id [])))
    | ESubscript value slice =>
        let? (s, p) := eval_place s value in
        match p with
        | None => done s (Ok None)
        | Some p => let? (s, st) := subscript_step s slice in done s (Ok (Some (push_step p st)))
        end
    | EAttribute value attr =>
        let? (s, _) := done s (if is_object_attr attr then Ok () else validate_attribute attr) in
        if is_class_name s value then done s (Ok None)
        else
          let? (s, p) := eval_place s value in
          done s (Ok ((fun p => push_step p (Attr attr)) <$> p))
    | _ => done s (Ok None)
    end).

(** ** Methods of user classes *)

(** [op::setitem], [op::delitem]: the receiver after the call. *)
Definition setitem (s : InterpreterState) (container key value : Value) : Eval (option Value) :=
  match instance_slot s container "__setitem__" with
  | None => done s (Ok None)
  | Some method => let? (s, out) := invoke_slot s container method [key; value] in done s (Ok (Some out.2))
  end.
Definition delitem (s : InterpreterState) (container key : Value) : Eval (option Value) :=
  match instance_slot s container "__delitem__" with
  | None => done s (Ok None)
  | Some method => let? (s, out) := invoke_slot s container method [key] in done s (Ok (Some out.2))
  end.

(** A call for its effect on the receiver, which the variable takes. *)
Definition call_and_rebind (s : InterpreterState) (name : string) (method : FunctionDef) (receiver : Value) (args : list Value) :
    Eval () :=
  let? (s, out) := call_method s method receiver args in
  lift_call (set_variable size name out.2 s).

Definition call_for_effect (s : InterpreterState) (method : FunctionDef) (receiver : Value) (args : list Value) : Eval () :=
  let? (s, _) := call_method s method receiver args in done s (Ok ()).

(** ** Assigning to an attribute *)

Definition CONTEXT_CLASS : string := "decimal.Context".

(** The precision of a decimal context is also the state's. *)
Definition sync_prec (class_name attr : string) (value : Value) (s : InterpreterState) : InterpreterState :=
  if String.eqb attr "prec" && String.eqb class_name CONTEXT_CLASS then
    match value with VInt n => if 1 <=? n then set_decimal_prec n s else s | _ => s end
  else s.

Definition is_frozen (s : InterpreterState) (class_name : string) : bool :=
  match classes s !! class_name with Some c => frozen c | None => false end.
Definition frozen_field {A} (attr : string) : EvalResult A :=
  Err (Exception (ExceptionValue_new "FrozenInstanceError" (lit "cannot assign to field '" ++ name_text attr ++ lit "'"))).

Definition slot_refused (s : InterpreterState) (class_name attr : string) : bool :=
  match classes s !! class_name with
  | Some c =>
      has_slots c && negb (bool_decide (attr ∈ slot_names c)) &&
      negb (existsb (fun f => String.eqb (df_name f) attr) (default [] (dataclass_fields c)))
  | None => false
  end.

(** A new value of a field, whoever holds the instance. *)
Definition put_field (l : loc) (attr : string) (value : Value) (s : InterpreterState) : InterpreterState :=
  set_heap (put_fields l (bt_insert (fields_at (heap s) l) attr value) (heap s)) s.

Definition class_assign (s : InterpreterState) (class_name attr : string) (value : Value) : option InterpreterState :=
  c ← classes s !! class_name; Some (register_class class_name (with_class_attr c attr value) s).

Definition function_assign (key attr : string) (value : Value) (s : InterpreterState) : InterpreterState :=
  set_function_attrs (<[key := im_insert String.eqb (default [] (function_attrs s !! key)) attr value]> (function_attrs s)) s.

(** A descriptor, a property or [__setattr__] takes the assignment; [None] when the
    instance's class leaves it to the place. *)
Definition hooked_assign (s : InterpreterState) (name class_name : string) (obj : Value) (attr : string) (value : Value) :
    option (Eval ()) :=
  let described := '(desc_class, desc) ← lookup_class_attr_instance (classes s) class_name attr;
                   '(_, method) ← lookup_method_in_mro (classes s) desc_class "__set__";
                   Some (method, VInstance desc_class desc) in
  if is_frozen s class_name then Some (done s (frozen_field attr))
  else if slot_refused s class_name attr then Some (done s (no_attr class_name attr))
  else
    match described with
    | Some (method, desc) => Some (call_for_effect s method desc [obj; value])
    | None =>
        match lookup_property (classes s) class_name attr with
        | Some prop =>
            Some match setter prop with
                 | Some setter => call_and_rebind s name setter obj [value]
                 | None =>
                     error s (AttributeError ("property '" ++ attr ++ "' of '" ++ class_name ++ "' object has no setter"))
                 end
        | None =>
            '(_, method) ← lookup_method_in_mro (classes s) class_name "__setattr__";
            Some (call_and_rebind s name method obj [VString (name_text attr); value])
        end
    end.

(** What a variable's value does with the assignment, but for places. *)
Definition named_assign (s : InterpreterState) (name attr : string) (value : Value) : option (Eval ()) :=
  match variables s !! name with
  | Some (VInstance class_name l as obj) => hooked_assign s name class_name obj attr value
  | Some (VClass class_name) => (fun s => done s (Ok ())) <$> class_assign s class_name attr value
  | Some (VFunction l) =>
      f ← functions s !! l; Some (done (function_assign (body_cache_key f) attr value s) (Ok ()))
  | Some (VException e) =>
      Some (let? (s, _) := done s (validate_attribute attr) in
            let e := with_fields e (bt_insert (exc_fields e) attr value) in
            done (set_variables (<[name := VException e]> (variables s)) s) (Ok ()))
  | _ => None
  end.

Definition no_target {A} (s : InterpreterState) : Eval A := error s (Runtime "cannot assign to this expression").

(** The place of a target apart from its last step. *)
Definition split_place {A} (s : InterpreterState) (p : PlaceOf) (k : list PlaceStep -> PlaceStep -> Eval A) : Eval A :=
  match split_last (steps p) with
  | Some (prefix, last) => k prefix last
  | None => error s (Runtime "assignment target resolved to a bare name unexpectedly")
  end.

Definition assign_at_place (s : InterpreterState) (target : PyExpr) (value : Value) : Eval () :=
  let? (s, p) := eval_place s target in
  match p with
  | None => no_target s
  | Some p =>
      split_place s p (fun prefix last =>
        let? (s, delta) := store_at s (root p) prefix last value in
        let? (s, _) := apply_mem_delta s delta in
        done (match prefix, last, variables s !! root p with
              | [], Attr attr, Some (VInstance class_name _) => sync_prec class_name attr value s
              | _, _, _ => s
              end) (Ok ()))
  end.

Definition assign_attribute (s : InterpreterState) (base : PyExpr) (attr : string) (value : Value) : Eval () :=
  match base with
  | EName name =>
      match named_assign s name attr value with
      | Some m => m
      | None => assign_at_place s (EAttribute base attr) value
      end
  | _ =>
      let? (s, obj) := eval s base in
      match obj with
      | VInstance class_name l =>
          if is_frozen s class_name then done s (frozen_field attr)
          else done (sync_prec class_name attr value (put_field l attr value s)) (Ok ())
      | _ => no_target s
      end
  end.

(** ** Assigning to an item *)

(** A receiver that no variable holds. *)
Definition assign_computed (s : InterpreterState) (base slice : PyExpr) (value : Value) : Eval () :=
  let? (s, receiver) := eval s base in
  match receiver with
  | VInstance _ _ =>
      let? (s, key) := eval s slice in
      let? (s, updated) := setitem s receiver key value in
      match updated with
      | Some _ => done s (Ok ())
      | None => error s (TypeError ("'" ++ type_name receiver ++ "' object does not support item assignment"))
      end
  | _ =>
      let? (s, st) :=
        match slice with
        | ESlice lo up st => let? (s, spec) := eval_slice_spec s lo up st in done s (Ok (SliceStep spec))
        | _ => let? (s, key) := eval s slice in done s (Ok (Index key))
        end in
      in_heap s ('(_, _, h) ← assign_terminal [] (heap s) receiver st value; Ok ((), h))
  end.

(** The instance, if the slot holds one. *)
Definition instance_slot_at (s : InterpreterState) (name : string) (prefix : list PlaceStep) : Eval (option Value) :=
  at_place s name prefix (looking (fun _ v => Ok (if is_instance v then Some v else None))).

(** [__setitem__] of the instance in the slot, which takes the receiver afterwards. *)
Definition assign_by_method (s : InterpreterState) (name : string) (prefix : list PlaceStep) (key value : Value) : Eval bool :=
  let? (s, receiver) := instance_slot_at s name prefix in
  match receiver with
  | None => done s (Ok false)
  | Some receiver =>
      let? (s, updated) := setitem s receiver key value in
      match updated with
      | None => done s (Ok false)
      | Some updated =>
          let? (s, delta) := at_place s name prefix (overwrite size updated) in
          let? (s, _) := apply_mem_delta s delta in
          done s (Ok true)
      end
  end.

(** An instance as the key of a dictionary goes by its hash and [__eq__]. *)
Definition assign_instance_key (s : InterpreterState) (name : string) (prefix : list PlaceStep) (key value : Value) : Eval bool :=
  if is_instance key then
    let? (s, dict) := at_place s name prefix (looking (fun _ v => Ok match v with VDict l => Some l | _ => None end)) in
    match dict with
    | None => done s (Ok false)
    | Some l =>
        let? (s, es) := dict_insert_instance_key s (dict_at (heap s) l) key value in
        done (set_heap (put_dict l es (heap s)) s) (Ok true)
    end
  else done s (Ok false).

Definition slice_value (spec : SliceSpec) : Value :=
  VSlice (default VNone (lower spec)) (default VNone (upper spec)) (default VNone (step spec)).

Definition assign_subscript (s : InterpreterState) (base slice : PyExpr) (value : Value) : Eval () :=
  let? (s, p) := eval_place s (ESubscript base slice) in
  match p with
  | None => assign_computed s base slice value
  | Some p =>
      split_place s p (fun prefix last =>
        let? (s, taken) :=
          match last with
          | Index key =>
              let? (s, taken) := assign_instance_key s (root p) prefix key value in
              if taken : bool then done s (Ok true) else assign_by_method s (root p) prefix key value
          | SliceStep spec => assign_by_method s (root p) prefix (slice_value spec) value
          | Attr _ => done s (Ok false)
          end in
        if taken : bool then done s (Ok ())
        else let? (s, delta) := store_at s (root p) prefix last value in apply_mem_delta s delta)
  end.

(** [assign_target] on an attribute or a subscript. *)
Definition assign_slot (s : InterpreterState) (target : PyExpr) (value : Value) : Eval () :=
  match target with
  | EAttribute base attr => assign_attribute s base attr value
  | ESubscript base slice => assign_subscript s base slice value
  | _ => error s (Runtime ("unsupported assignment target: " ++ discriminant (inl target)))
  end.

(** ** Missing entries of a default dictionary *)

Definition zero_arg_builtins (name : string) (s : InterpreterState) : option (Value * InterpreterState) :=
  let plain v := Some (v, s) in
  let no_items := @from_items _ (set_elem (heap s)) [] in
  let shared {A} (p : A * Heap) (mk : A -> Value) := Some (mk p.1, set_heap p.2 s) in
  if String.eqb name "int" then plain (VInt 0)
  else if String.eqb name "float" then plain (VFloat f64_zero)
  else if String.eqb name "bool" then plain (VBool false)
  else if String.eqb name "str" then plain (VString [])
  else if String.eqb name "bytes" then plain (VBytes [])
  else if String.eqb name "list" then shared (shared_list (heap s) []) VList
  else if String.eqb name "tuple" then plain (VTuple [])
  else if String.eqb name "dict" then shared (shared_dict (heap s) []) VDict
  else if String.eqb name "set" then body ← no_items; shared (shared_set (heap s) body) VSet
  else if String.eqb name "frozenset" then body ← no_items; shared (shared_set (heap s) body) VFrozenset
  else None.

Definition invoke_factory (s : InterpreterState) (factory : Value) : Eval Value :=
  match factory with
  | VFunction _ | VLambda _ | VClass _ => call_factory s factory
  | VNone => done s (Ok VNone)
  | VBuiltinName name =>
      match zero_arg_builtins name s with
      | Some (v, s) => done s (Ok v)
      | None => error s (TypeError ("defaultdict factory builtin '" ++ name ++ "' is not zero-arg constructable"))
      end
  | other => error s (TypeError ("defaultdict factory must be callable (got '" ++ type_name other ++ "')"))
  end.

Abbreviation key_eq := (key_eqb structural_eq).
Abbreviation Visitor A := (list Lock -> Heap -> Value -> Heap * Value * EvalResult A).

(** The factory of the default dictionary in the slot, when it lacks the key. *)
Definition absent_entry (k : ValueKey) : Visitor (option Value) :=
  looking (fun _ v => Ok match v with
                         | VDefaultDict items factory => if im_contains key_eq items k then None else Some factory
                         | _ => None
                         end).
Definition add_entry (k : ValueKey) (v : Value) : Visitor Z :=
  fun _ h slot =>
    match slot with
    | VDefaultDict items factory =>
        (h, VDefaultDict (im_insert key_eq items k v) factory, Ok (to_isize (key_size k + size h v)))
    | _ => (h, slot, Ok 0)
    end.

(** The entries along a chain of subscripts, the innermost first; seventeen levels. *)
Fixpoint pretouch (levels : nat) (s : InterpreterState) (target : PyExpr) : Eval () :=
  match levels, target with
  | S levels, ESubscript base slice =>
      let? (s, _) := pretouch levels s base in
      match slice with
      | ESlice _ _ _ => done s (Ok ())
      | _ =>
          let? (s, p) := eval_place s base in
          match p with
          | None => done s (Ok ())
          | Some p =>
              if negb (is_navigable p) then done s (Ok ())
              else
                let? (s, key) := eval s slice in
                let? (s, k) := done s (key_of (heap s) key) in
                let? (s, factory) := at_place s (root p) (steps p) (absent_entry k) in
                match factory with
                | None => done s (Ok ())
                | Some factory =>
                    let? (s, v) := invoke_factory s factory in
                    let? (s, delta) := at_place s (root p) (steps p) (add_entry k v) in
                    apply_mem_delta s delta
                end
          end
      end
  | _, _ => done s (Ok ())
  end.
Definition pretouch_defaultdict : InterpreterState -> PyExpr -> Eval () := pretouch 17.

(** ** Augmented assignment *)

(** The operation on a value read elsewhere, whose result [store] takes. *)
Definition update_with (s : InterpreterState) (op : Operator) (current : Value) (value : PyExpr)
    (store : InterpreterState -> Value -> Eval ()) : Eval () :=
  let? (s, rhs) := eval s value in
  let? (s, new_value) := aug_binop nesting s op current rhs in
  store s new_value.

Definition class_attribute_value (s : InterpreterState) (class_name attr : string) : option Value :=
  c ← classes s !! class_name;
  match class_attrs c !! attr with
  | Some v => Some v
  | None => snd <$> first_in_mro (classes s) (fun c => class_attrs c !! attr) (mro c)
  end.

(** The class a base names, or evaluates to. *)
Definition base_class (s : InterpreterState) (base : PyExpr) : Eval (option string) :=
  match base with
  | EName n => done s (Ok match variables s !! n with Some (VClass c) => Some c | _ => None end)
  | _ => let? (s, v) := eval s base in done s (Ok match v with VClass c => Some c | _ => None end)
  end.

Definition aug_assign_class (s : InterpreterState) (class_name attr : string) (op : Operator) (value : PyExpr) :
    option (Eval ()) :=
  current ← class_attribute_value s class_name attr;
  Some (update_with s op current value (fun s v => done (default s (class_assign s class_name attr v)) (Ok ()))).

Definition aug_assign_function (s : InterpreterState) (base : PyExpr) (attr : string) (op : Operator) (value : PyExpr) :
    option (Eval ()) :=
  match base with
  | EName n =>
      match variables s !! n with
      | Some (VFunction l) =>
          f ← functions s !! l;
          attrs ← function_attrs s !! body_cache_key f;
          current ← im_get String.eqb attrs attr;
          Some (update_with s op current value (fun s v => done (function_assign (body_cache_key f) attr v s) (Ok ())))
      | _ => None
      end
  | _ => None
  end.

(** [None]: the attribute is in a place. *)
Definition aug_assign_registry (s : InterpreterState) (target : PyExpr) (op : Operator) (value : PyExpr) :
    Eval bool :=
  match target with
  | EAttribute base attr =>
      let? (s, class_name) := base_class s base in
      let found := match class_name with Some c => aug_assign_class s c attr op value | None => None end in
      match found with
      | Some m => let? (s, _) := m in done s (Ok true)
      | None =>
          match aug_assign_function s base attr op value with
          | Some m => let? (s, _) := m in done s (Ok true)
          | None => done s (Ok false)
          end
      end
  | _ => done s (Ok false)
  end.

(** [a[i:j] op= v]: the slice is read, combined and written. *)
Definition aug_assign_slice (s : InterpreterState) (name : string) (prefix : list PlaceStep) (spec : SliceSpec)
    (op : Operator) (value : PyExpr) : Eval () :=
  let? (s, items) := at_place s name prefix (fun held h v => (h, v, get_slice held h v spec)) in
  let (l, h) := shared_list (heap s) items in
  update_with (set_heap h s) op (VList l) value (fun s v =>
    let? (s, delta) := at_place s name prefix (writing (fun held h slot => set_slice held h slot spec v)) in
    apply_mem_delta s delta).

(** The variable's capture cell follows a bare name. *)
Definition aug_assign_slot (s : InterpreterState) (p : PlaceOf) (op : Operator) (value : PyExpr) : Eval () :=
  let? (s, current) := at_place s (root p) (steps p) read_slot in
  let old_size := size (heap s) current in
  update_with s op current value (fun s v =>
    let? (s, delta) := at_place s (root p) (steps p) (overwrite (fun _ _ => old_size) v) in
    let? (s, _) := apply_mem_delta s delta in
    done (if is_nil (steps p) then write_through (root p) v s else s) (Ok ())).

Definition aug_assign_place (s : InterpreterState) (target : PyExpr) (op : Operator) (value : PyExpr) : Eval () :=
  let? (s, _) := pretouch_defaultdict s target in
  let? (s, p) := eval_place s target in
  match p with
  | None => unsupported s "unsupported augmented assignment target"
  | Some p =>
      match split_last (steps p) with
      | Some (prefix, SliceStep spec) =>
          if forallb (fun st => negb (is_slice_step st)) prefix
          then aug_assign_slice s (root p) prefix spec op value
          else unsupported s "augmented assignment to a nested slice target is not supported"
      | _ =>
          if is_navigable p then aug_assign_slot s p op value
          else unsupported s "augmented assignment to a slice target is not supported"
      end
  end.

(** [eval_aug_assign]. *)
Definition eval_aug_assign (s : InterpreterState) (target : PyExpr) (op : Operator) (value : PyExpr) : Eval Value :=
  let? (s, taken) := aug_assign_registry s target op value in
  let? (s, _) := if taken : bool then done s (Ok ()) else aug_assign_place s target op value in
  done s (Ok VNone).
End Targets.

Section Deletes.
Context `{External} `{!ExternalOrder} `{!Platform} `{!Formats} `{!Calls} `{!Estimates} `{!Environment} `{!Host}.
Variable eval : InterpreterState -> PyExpr -> Eval Value.
Variable shown_key : Heap -> ValueKey -> text.

(** ** Attributes *)

(** The field of an instance removed, for every holder of the instance. *)
Definition drop_field (held : list Lock) (h : Heap) (class_name : string) (l : loc) (attr : string) : EvalResult Heap :=
  acquire held (LFields l)
    match assoc_remove (fields_at h l) attr with
    | Some fs => Ok (put_fields l fs h)
    | None => no_attr class_name attr
    end.

(** [del name.attr] of an instance: a descriptor, a property, [__delattr__], the field. *)
Definition delete_instance_attr (s : InterpreterState) (name class_name : string) (l : loc) (obj : Value) (attr : string) :
    Eval () :=
  let described := '(desc_class, desc) ← lookup_class_attr_instance (classes s) class_name attr;
                   '(_, method) ← lookup_method_in_mro (classes s) desc_class "__delete__";
                   Some (method, VInstance desc_class desc) in
  match described with
  | Some (method, desc) => call_for_effect s method desc [obj]
  | None =>
      match lookup_property (classes s) class_name attr with
      | Some prop =>
          match deleter prop with
          | Some deleter => call_and_rebind s name deleter obj []
          | None =>
              error s (AttributeError ("property '" ++ attr ++ "' of '" ++ class_name ++ "' object has no deleter"))
          end
      | None =>
          match lookup_method_in_mro (classes s) class_name "__delattr__" with
          | Some (_, method) => call_and_rebind s name method obj [VString (name_text attr)]
          | None => in_heap s (h ← drop_field [] (heap s) class_name l attr; Ok ((), h))
          end
      end
  end.

Definition complex_target {A} (s : InterpreterState) : Eval A :=
  unsupported s "complex delete attribute target not supported".

(** The field of the instance in the slot before the last step. *)
Definition delete_attr_at_place (s : InterpreterState) (target : PyExpr) : Eval () :=
  let? (s, p) := eval_place eval s target in
  match p with
  | None => complex_target s
  | Some p =>
      if negb (is_navigable p) then complex_target s
      else
        match split_last (steps p) with
        | Some (prefix, Attr attr) =>
            at_place s (root p) prefix (fun held h v =>
              match v with
              | VInstance class_name l =>
                  match drop_field held h class_name l attr with
                  | Ok h => (h, v, Ok ()) | Err e => (h, v, Err e) | Panic => (h, v, Panic)
                  end
              | _ => (h, v, fail (AttributeError ("'" ++ type_name v ++ "' object attribute deletion not supported")))
              end)
        | _ => complex_target s
        end
  end.

Definition delete_attribute (s : InterpreterState) (base : PyExpr) (attr : string) : Eval () :=
  let? (s, _) := done s (validate_attribute attr) in
  match base with
  | EName name =>
      match variables s !! name with
      | None => done s (fail (name_not_defined name))
      | Some (VInstance class_name l as obj) => delete_instance_attr s name class_name l obj attr
      | Some _ => delete_attr_at_place s (EAttribute base attr)
      end
  | _ => delete_attr_at_place s (EAttribute base attr)
  end.

(** ** Items *)

(** The receiver after [__delitem__] goes back where it came from. *)
Definition writeback_receiver (s : InterpreterState) (receiver : PyExpr) (updated : Value) : Eval () :=
  match receiver with
  | EName name => lift_call (set_variable size name updated s)
  | EAttribute (EName owner) attr =>
      match variables s !! owner with
      | Some (VInstance class_name l) =>
          lift_call (set_variable size owner (VInstance class_name l) (put_field l attr updated s))
      | _ => done s (Ok ())
      end
  | _ => done s (Ok ())
  end.

Definition deleting (index : Value) : list Lock -> Heap -> Value -> Heap * Value * EvalResult Z :=
  writing (fun held h v => dispatch_delitem (shown_key h) held h v index).

Definition delete_item (s : InterpreterState) (base slice : PyExpr) : Eval () :=
  let? (s, receiver) := eval s base in
  let? (s, index) := eval s slice in
  let? (s, updated) := delitem s receiver index in
  match updated with
  | Some updated => writeback_receiver s base updated
  | None =>
      let freed s (m : Eval Z) := let? (s, delta) := m in done (release_allocation (Z.abs delta) s) (Ok ()) in
      match base with
      | EName name => freed s (at_place s name [] (deleting index))
      | _ =>
          let? (s, p) := eval_place eval s base in
          match p with
          | None => error s (Runtime "cannot resolve delete-subscript receiver")
          | Some p => freed s (at_place s (root p) (steps p) (deleting index))
          end
      end
  end.

(** ** Slices *)

(** The sizes of what [delete_slice] removes. *)
Definition removed_size (h : Heap) (items : list Value) (start stop : option Value) (step : Z) : option Z :=
  let len := Z.of_nat (length items) in
  if step =? 1 then
    let a := contiguous_bound start len 0 in
    let b := contiguous_bound stop len len in
    Some (if (a <? b) && (a <? len) then total_size h (take (Z.to_nat (Z.min b len - a)) (drop (Z.to_nat a) items)) else 0)
  else
    indices ← strided_indices start stop step len;
    Some (total_size h (omap (fun i => items !! i) indices)).

Definition delete_slice_of (s : InterpreterState) (name : string) (lo up st : option PyExpr) : Eval () :=
  let? (s, spec) := eval_slice_spec eval s lo up st in
  let? (s, step) := done s (deletion_step (default VNone (step spec))) in
  match variables s !! name with
  | None => done s (fail (name_not_defined name))
  | Some (VList l) =>
      let items := list_at (heap s) l in
      match delete_slice items (lower spec) (upper spec) step, removed_size (heap s) items (lower spec) (upper spec) step with
      | Some kept, Some freed => done (release_allocation freed (set_heap (put_list l kept (heap s)) s)) (Ok ())
      | _, _ => (s, Panic)
      end
  | Some v => error s (TypeError ("'" ++ type_name v ++ "' object does not support item deletion"))
  end.

(** A bound for a user class. *)
Definition method_bound (s : InterpreterState) (e : option PyExpr) : Eval Value :=
  match e with
  | Some e => let? (s, v) := eval s e in coerce_index s v
  | None => done s (Ok VNone)
  end.

(** An instance is asked first; the bounds are evaluated again when its class has no
    [__delitem__]. *)
Definition delete_slice_target (s : InterpreterState) (base : PyExpr) (lo up st : option PyExpr) : Eval () :=
  match base with
  | EName name =>
      let? (s, taken) :=
        match variables s !! name with
        | Some (VInstance _ _) =>
            let? (s, a) := method_bound s lo in
            let? (s, b) := method_bound s up in
            let? (s, c) := method_bound s st in
            let? (s, receiver) := eval s base in
            let? (s, updated) := delitem s receiver (VSlice a b c) in
            match updated with
            | Some updated => let? (s, _) := writeback_receiver s base updated in done s (Ok true)
            | None => done s (Ok false)
            end
        | _ => done s (Ok false)
        end in
      if taken : bool then done s (Ok ()) else delete_slice_of s name lo up st
  | _ => error s (Runtime "slice deletion supported only on bare-name targets")
  end.

(** ** Targets *)

Fixpoint delete_target (s : InterpreterState) (target : PyExpr) {struct target} : Eval () :=
  let fix delete_each (s : InterpreterState) (targets : list PyExpr) : Eval () :=
    match targets with
    | [] => done s (Ok ())
    | t :: targets => let? (s, _) := delete_target s t in delete_each s targets
    end in
  match target with
  | EName name =>
      if is_tool name then error s (Security ("cannot delete static tool '" ++ name ++ "'"))
      else lift_call (delete_variable size name s)
  | EAttribute base attr => delete_attribute s base attr
  | ESubscript base (ESlice lo up st) => delete_slice_target s base lo up st
  | ESubscript base slice => delete_item s base slice
  | ETuple elts | EList elts => delete_each s elts
  | _ => error s (Runtime ("cannot delete target: " ++ discriminant (inl target)))
  end.

Fixpoint delete_targets (s : InterpreterState) (targets : list PyExpr) : Eval () :=
  match targets with
  | [] => done s (Ok ())
  | t :: targets => let? (s, _) := delete_target s t in delete_targets s targets
  end.

Definition eval_delete (s : InterpreterState) (targets : list PyExpr) : Eval Value :=
  let? (s, _) := delete_targets s targets in done s (Ok VNone).
End Deletes.
