(* ===== verification/Render.v ===== *)
(** Rendering in the interpreter's state (eval/render.rs, eval/strings.rs): [str] and [repr]
    with the methods of user classes, f-strings, [str.format], and [%] on instances. *)
From Stdlib Require Import ZArith Lia Ascii String SpecFloat.
From stdpp Require Import base tactics list numbers option strings pretty gmap.
From S2P Require Import Prelude PySet Values Errors F64 Keys Arith Classes Compare Operators State Exceptions Op Syntax Methods Text FloatText StrMethods Repr Format Percent.
From S2P Require Import Host Attributes.

Inductive RenderMode : Type := ModeDisplay | ModeRepr | ModeAscii.

Definition render_slot (mode : RenderMode) : string := match mode with ModeDisplay => "__str__" | _ => "__repr__" end.
Definition in_mode (mode : RenderMode) (s : text) : text := match mode with ModeAscii => ascii_escape s | _ => s end.

Section Render.
Context `{External} `{!ExternalOrder} `{!Platform} `{!Formats} `{!Calls} `{!Estimates} `{!Environment} `{!Host}.
Context `{!Unicode} `{!Shown} `{!DecimalFormats} `{!ModuleAttributes}.

(** A value outside the state's classes. *)
Definition render_plain (h : Heap) (v : Value) (mode : RenderMode) : EvalResult text :=
  match mode with
  | ModeDisplay => value_text_of h v
  | ModeRepr => value_repr_of h v
  | ModeAscii => ascii_escape <$> value_repr_of h v
  end.

(** ** Instances without a method of their own *)

Definition field_or_none (h : Heap) (l : loc) (name : string) : Value := default VNone (field_get (fields_at h l) name).

Definition equation (name : text) (shown : text) : text := name ++ lit "=" ++ shown.

(** [render_dataclass]: no method of a user class runs. *)
Fixpoint render_dataclass (fuel : nat) (s : InterpreterState) (class_name : string) (l : loc) (fields : list DataclassField) :
    option text :=
  match fuel with
  | O => None
  | S fuel =>
      let shown (v : Value) :=
        match v with
        | VInstance nested nl =>
            match classes s !! nested ≫= dataclass_fields with
            | Some fs => render_dataclass fuel s nested nl fs
            | None => value_repr nesting (heap s) v
            end
        | _ => value_repr nesting (heap s) v
        end in
      parts ← mapM (fun f => equation (name_text (df_name f)) <$> shown (field_or_none (heap s) l (df_name f)))
                (List.filter (fun f => df_repr f && negb (df_init_only f)) fields);
      Some (name_text class_name ++ lit "(" ++ join comma parts ++ lit ")")
  end.

(** The declared names of a named tuple's fields. *)
Definition namedtuple_names (c : ClassValue) : option (list text) :=
  match class_attrs c !! "_fields" with
  | Some (VTuple names) => Some (omap (fun n => match n with VString t => Some t | _ => None end) names)
  | _ => None
  end.

Section Cases.
Variable render : InterpreterState -> Value -> RenderMode -> Eval text.

Fixpoint render_each (s : InterpreterState) (items : list Value) : Eval (list text) :=
  match items with
  | [] => done s (Ok [])
  | v :: items =>
      let? (s, t) := render s v ModeRepr in
      let? (s, ts) := render_each s items in
      done s (Ok (t :: ts))
  end.

Definition render_sequence (s : InterpreterState) (items : list Value) (before after : string) : Eval text :=
  let? (s, ts) := render_each s items in done s (Ok (wrapped before after (join comma ts))).

Fixpoint render_entries (s : InterpreterState) (es : list (ValueKey * Value)) : Eval (list text) :=
  match es with
  | [] => done s (Ok [])
  | (k, v) :: es =>
      match to_value set_elem k (heap s) with
      | None => (s, Panic)
      | Some (key, h) =>
          let? (s, kt) := render (set_heap h s) key ModeRepr in
          let? (s, vt) := render s v ModeRepr in
          let? (s, ts) := render_entries s es in
          done s (Ok ((kt ++ lit ": " ++ vt) :: ts))
      end
  end.
Definition render_mapping (s : InterpreterState) (es : list (ValueKey * Value)) : Eval text :=
  let? (s, ts) := render_entries s es in done s (Ok (wrapped "{" "}" (join comma ts))).

(** A container that is being rendered already shows as dots. The mark goes away
    however the rendering ends. *)
Definition once (s : InterpreterState) (container : loc + loc) (again : string) (k : InterpreterState -> Eval text) : Eval text :=
  if bool_decide (container ∈ repr_active s) then done s (Ok (lit again))
  else
    let (s, r) := k (set_repr_active ({[container]} ∪ repr_active s) s) in
    (set_repr_active (repr_active s ∖ {[container]}) s, r).

(** The result of a user's method must be a string. *)
Definition method_text (s : InterpreterState) (method : FunctionDef) (v : Value) (class_name : string) (mode : RenderMode) :
    Eval text :=
  let? (s, out) := call_method s method v [] in
  match out.1 with
  | VString t => done s (Ok (in_mode mode t))
  | other =>
      done s (fail (TypeError (class_name ++ "." ++ render_slot mode ++ " returned non-string (type " ++ type_name other ++ ")")))
  end.

(** [__repr__] in the place of [__str__]; a result that is no string is passed over. *)
Definition repr_fallback (s : InterpreterState) (v : Value) (class_name : string) (mode : RenderMode) : Eval (option text) :=
  match mode, lookup_method_in_mro (classes s) class_name "__repr__" with
  | ModeDisplay, Some (_, method) =>
      let? (s, out) := call_method s method v [] in
      done s (Ok match out.1 with VString t => Some t | _ => None end)
  | _, _ => done s (Ok None)
  end.

Fixpoint render_fields (s : InterpreterState) (l : loc) (names : list text) : Eval (list text) :=
  match names with
  | [] => done s (Ok [])
  | name :: names =>
      let? (s, t) := render s (field_or_none (heap s) l (text_name name)) ModeRepr in
      let? (s, ts) := render_fields s l names in
      done s (Ok (equation name t :: ts))
  end.

Definition plain_instance (class_name : string) : text := lit "<" ++ name_text class_name ++ lit " object>".

Definition render_synthesized (s : InterpreterState) (class_name : string) (l : loc) : Eval text :=
  match classes s !! class_name with
  | None => done s (Ok (plain_instance class_name))
  | Some c =>
      match dataclass_fields c with
      | Some fields => done s (or_panic (render_dataclass nesting s class_name l fields))
      | None =>
          match namedtuple_names c with
          | Some names =>
              let? (s, ts) := render_fields s l names in
              done s (Ok (name_text class_name ++ wrapped "(" ")" (join comma ts)))
          | None => done s (Ok (plain_instance class_name))
          end
      end
  end.

Definition render_instance (s : InterpreterState) (v : Value) (class_name : string) (l : loc) (mode : RenderMode) : Eval text :=
  match lookup_method_in_mro (classes s) class_name (render_slot mode) with
  | Some (_, method) => method_text s method v class_name mode
  | None =>
      let? (s, shown) := repr_fallback s v class_name mode in
      match shown with
      | Some t => done s (Ok t)
      | None => render_synthesized s class_name l
      end
  end.

(** [str] of an exception: its arguments. *)
Definition render_exception (s : InterpreterState) (e : ExceptionValue) : Eval text :=
  match exc_args e with
  | [] => done s (Ok [])
  | [v] => if String.eqb (exc_type_name e) "KeyError" then done s (Ok (exc_message e)) else render s v ModeDisplay
  | vs => let? (s, t) := render_sequence s vs "(" "" in done s (Ok (t ++ lit ")"))
  end.

Definition class_text (s : InterpreterState) (name : string) : text :=
  let shown := match classes s !! name with
    | Some c => if String.eqb (c_qualname c) "" then c_name c else c_qualname c
    | None => name
    end in
  lit "<class '__main__." ++ name_text shown ++ lit "'>".

Definition render_case (s : InterpreterState) (v : Value) (mode : RenderMode) : Eval text :=
  match v with
  | VInstance class_name l => render_instance s v class_name l mode
  | VList l => once s (inl l) "[...]" (fun s => render_sequence s (list_at (heap s) l) "[" "]")
  | VTuple items => render_sequence s items "(" (match items with [_] => ",)" | _ => ")" end)
  | VSet l =>
      match set_at (heap s) l with [] => done s (Ok (lit "set()")) | items => render_sequence s items "{" "}" end
  | VFrozenset l =>
      match set_at (heap s) l with
      | [] => done s (Ok (lit "frozenset()"))
      | items => let? (s, t) := render_sequence s items "{" "}" in done s (Ok (wrapped "frozenset(" ")" t))
      end
  | VDict l => once s (inr l) "{...}" (fun s => render_mapping s (dict_at (heap s) l))
  | VException e =>
      match lookup_method_in_mro (classes s) (exc_type_name e) (render_slot mode) with
      | Some (_, method) => method_text s method v (exc_type_name e) mode
      | None => match mode with ModeDisplay => render_exception s e | _ => done s (render_plain (heap s) v mode) end
      end
  | VClass name => done s (Ok (class_text s name))
  | _ => done s (render_plain (heap s) v mode)
  end.
End Cases.

(** To a depth of [fuel]. *)
Fixpoint render (fuel : nat) (s : InterpreterState) (v : Value) (mode : RenderMode) : Eval text :=
  match fuel with O => (s, Panic) | S fuel => render_case (render fuel) s v mode end.

Abbreviation rendered := (render nesting).

(** ** Replacement fields *)

Definition call_format_slot (s : InterpreterState) (v : Value) (spec : text) : Eval (option text) :=
  match v with
  | VInstance class_name _ =>
      match lookup_method_in_mro (classes s) class_name "__format__" with
      | None => done s (Ok None)
      | Some (_, method) =>
          let? (s, out) := call_method s method v [VString spec] in
          done s match out.1 with
                 | VString t => Ok (Some t)
                 | other => fail (TypeError ("__format__ must return str, not " ++ type_name other))
                 end
      end
  | _ => done s (Ok None)
  end.

Definition convert (s : InterpreterState) (conversion : option RenderMode) (v : Value) : Eval Value :=
  match conversion with
  | None => done s (Ok v)
  | Some mode => let? (s, t) := rendered s v mode in done s (Ok (VString t))
  end.

(** [__format__], else the specification; an empty one is [str]. *)
Definition format_field (s : InterpreterState) (v : Value) (spec : text) : Eval text :=
  let? (s, own) := call_format_slot s v spec in
  match own with
  | Some t => done s (Ok t)
  | None => match spec with [] => rendered s v ModeDisplay | _ => done s (apply_format_spec (heap s) v spec) end
  end.

(** The text of a value in a string: of a string, itself. *)
Definition display_of (h : Heap) (v : Value) : EvalResult text :=
  match v with VString t => Ok t | _ => value_text_of h v end.

Section Strings.
Variable eval : InterpreterState -> PyExpr -> Eval Value.

Definition conversion_mode (c : Conversion) : option RenderMode :=
  match c with
  | NoConversion => None | ConvertStr => Some ModeDisplay | ConvertRepr => Some ModeRepr | ConvertAscii => Some ModeAscii
  end.

Definition eval_formatted_value (s : InterpreterState) (value : PyExpr) (conversion : Conversion) (format_spec : option PyExpr) :
    Eval Value :=
  let? (s, v) := eval s value in
  let? (s, v) := resolve_proxy s v in
  let? (s, v) := convert s (conversion_mode conversion) v in
  let? (s, spec) :=
    match format_spec with
    | Some e => let? (s, spec) := eval s e in done s (display_of (heap s) spec)
    | None => done s (Ok [])
    end in
  let? (s, t) := format_field s v spec in
  done s (Ok (VString t)).

Fixpoint joined_parts (s : InterpreterState) (values : list PyExpr) : Eval text :=
  match values with
  | [] => done s (Ok [])
  | e :: values =>
      let? (s, v) :=
        match e with
        | EConstant c => done s (Ok (eval_constant c))
        | EFormattedValue value conversion spec => eval_formatted_value s value conversion spec
        | _ => eval s e
        end in
      let? (s, t) := done s (display_of (heap s) v) in
      let? (s, ts) := joined_parts s values in
      done s (Ok (t ++ ts))
  end.

Definition eval_joined_str (s : InterpreterState) (values : list PyExpr) : Eval Value :=
  let? (s, t) := joined_parts s values in done s (Ok (VString t)).
End Strings.

(** ** [str.format] *)

Abbreviation Kwargs := (list (string * Value)).

Definition accessor (c : Z) : bool := (c =? 46) || (c =? 91).

(** The text before the first accessor, and the rest. *)
Definition split_accessor (t : text) : text * text :=
  let n := default (length t) (find_char accessor t) in (take n t, drop n t).

Definition value_error_message {A} (message : string) : EvalResult A := fail (ValueError message).

(** [str::parse] of digits into a [usize]. *)
Definition parse_usize (ds : text) : option Z := let n := decimal_value ds in if n <=? usize_max then Some n else None.

Definition argument_at (args : list Value) (i : Z) : EvalResult Value :=
  match args !! Z.to_nat i with
  | Some v => Ok v
  | None =>
      exception "IndexError" (lit "Replacement index " ++ int_text i ++ lit " out of range for positional args tuple")
  end.

Definition all_digits (t : text) : bool := forallb ascii_digit t.

(** The argument a field names and the next automatic index. *)
Definition base_argument (args : list Value) (kwargs : Kwargs) (auto : Z) (base : text) : EvalResult (Value * Z) :=
  match base with
  | [] => v ← argument_at args auto; Ok (v, auto + 1)
  | _ =>
      if all_digits base then
        match parse_usize base with
        | Some i => v ← argument_at args i; Ok (v, auto)
        | None => value_error_message ("invalid positional field '" ++ text_name base ++ "'")
        end
      else
        match im_get String.eqb kwargs (text_name base) with
        | Some v => Ok (v, auto)
        | None => exception "KeyError" (lit "'" ++ base ++ lit "'")
        end
  end.

Abbreviation key_eq := (key_eqb structural_eq).

Definition dict_key_at (h : Heap) (l : loc) (k : ValueKey) (shown : string) : EvalResult Value :=
  match im_get key_eq (dict_at h l) k with
  | Some v => Ok v
  | None => value_error_message ("dict has no key " ++ shown)
  end.

Definition format_get_attr (h : Heap) (v : Value) (attr : text) : EvalResult (Value * Heap) :=
  let name := text_name attr in
  match resolve_object_attr v name with
  | Some r => Ok (r, h)
  | None =>
      _ ← validate_attribute name;
      let slot :=
        r ← dispatch_getattr_opt h v name;
        match r with
        | Some r => Ok r
        | None => fail (AttributeError ("'" ++ type_name v ++ "' object has no attribute '" ++ name ++ "'"))
        end in
      match v with
      | VDict l => r ← dict_key_at h l (KString attr) ("'" ++ name ++ "'"); Ok (r, h)
      | VInstance _ l => match field_get (fields_at h l) name with Some r => Ok (r, h) | None => slot end
      | _ => slot
      end
  end.

Definition format_get_item (h : Heap) (v : Value) (key : text) : EvalResult Value :=
  let unsubscriptable := fail (TypeError ("'" ++ type_name v ++ "' object is not subscriptable")) in
  if all_digits key && negb (is_nil key) then
    match parse_usize key with
    | None => value_error_message ("bad index '" ++ text_name key ++ "'")
    | Some i =>
        let item items := match items !! Z.to_nat i with Some v => Ok v | None => value_error_message "format index out of range" end in
        match v with
        | VList l => item (list_at h l)
        | VTuple items => item items
        | VDict l =>
            if i <=? i64_max then dict_key_at h l (KInt i) (text_name (int_text i))
            else value_error_message "format index overflows i64"
        | _ => unsubscriptable
        end
    end
  else
    match v with
    | VDict l => dict_key_at h l (KString key) ("'" ++ text_name key ++ "'")
    | _ => unsubscriptable
    end.

(** The accessors after the base, each of which consumes a character. *)
Fixpoint walk_accessors (fuel : nat) (h : Heap) (v : Value) (rest : text) : EvalResult (Value * Heap) :=
  match fuel, rest with
  | _, [] => Ok (v, h)
  | O, _ => Panic
  | S fuel, c :: after =>
      if c =? 46 then
        let (attr, tail) := split_accessor after in
        '(v, h) ← format_get_attr h v attr; walk_accessors fuel h v tail
      else if c =? 91 then
        match find_char (Z.eqb 93) after with
        | None => value_error_message "expected ']' in format field"
        | Some n => v ← format_get_item h v (take n after); walk_accessors fuel h v (drop (S n) after)
        end
      else value_error_message ("invalid format field accessor '" ++ text_name rest ++ "'")
  end.

Definition resolve_format_arg (h : Heap) (args : list Value) (kwargs : Kwargs) (auto : Z) (name : text) :
    EvalResult (Value * Z * Heap) :=
  let (base, rest) := split_accessor name in
  '(v, auto) ← base_argument args kwargs auto base;
  '(v, h) ← walk_accessors (length rest) h v rest;
  Ok (v, auto, h).

(** A field before and after its first colon. *)
Definition split_colon (field : text) : text * option text :=
  match find_char (Z.eqb 58) field with
  | Some n => (take n field, Some (drop (S n) field))
  | None => (field, None)
  end.

(** A conversion is one character after the last exclamation mark. *)
Definition split_conversion (head : text) : text * option Z :=
  match rev head with
  | c :: 33 :: name => if c =? 33 then (head, None) else (rev name, Some c)
  | _ => (head, None)
  end.

Definition conversion_of (c : Z) : EvalResult RenderMode :=
  if c =? 115 then Ok ModeDisplay else if c =? 114 then Ok ModeRepr else if c =? 97 then Ok ModeAscii
  else value_error_message ("Unknown conversion specifier " ++ text_name [c]).

(** The end of the field that starts after a brace: its text and the rest. *)
Fixpoint matching_brace (depth : nat) (chars : text) : option (text * text) :=
  match chars with
  | [] => None
  | c :: rest =>
      if (c =? 125) && (depth =? 1)%nat then Some ([], rest)
      else
        let depth := if c =? 123 then S depth else if c =? 125 then (depth - 1)%nat else depth in
        '(field, rest) ← matching_brace depth rest; Some (c :: field, rest)
  end.

Section Fields.
Variable args : list Value.
Variable kwargs : Kwargs.

(** The text of a field and the next automatic index. *)
Abbreviation FieldText := (Eval (text * Z)).

Section Nested.
Variable render_field : InterpreterState -> Z -> text -> FieldText.

(** [resolve_nested_spec]: the fields inside a specification. *)
Fixpoint resolve_nested_spec (fuel : nat) (s : InterpreterState) (auto : Z) (spec : text) : FieldText :=
  match fuel, spec with
  | _, [] => done s (Ok ([], auto))
  | O, _ => (s, Panic)
  | S fuel, c :: rest =>
      if c =? 123 then
        match find_char (Z.eqb 125) rest with
        | None => done s (value_error_message "unmatched '{' in format spec")
        | Some n =>
            let? (s, out) := render_field s auto (take n rest) in
            let? (s, tail) := resolve_nested_spec fuel s out.2 (drop (S n) rest) in
            done s (Ok (out.1 ++ tail.1, tail.2))
        end
      else
        let? (s, tail) := resolve_nested_spec fuel s auto rest in
        done s (Ok (c :: tail.1, tail.2))
  end.
End Nested.

(** A field nested in a specification is shorter: [fuel] bounds the levels. *)
Fixpoint render_format_field (fuel : nat) (s : InterpreterState) (auto : Z) (field : text) : FieldText :=
  match fuel with
  | O => (s, Panic)
  | S fuel =>
      let (head, spec) := split_colon field in
      let (name, conversion) := split_conversion head in
      let? (s, arg) := in_heap s (resolve_format_arg (heap s) args kwargs auto name) in
      let? (s, mode) := done s (match conversion with Some c => m ← conversion_of c; Ok (Some m) | None => Ok None end) in
      let? (s, v) := convert s mode arg.1 in
      let? (s, spec) :=
        match spec with
        | None => done s (Ok ([], arg.2))
        | Some spec =>
            if existsb (Z.eqb 123) spec
            then resolve_nested_spec (render_format_field fuel) (length spec) s arg.2 spec
            else done s (Ok (spec, arg.2))
        end in
      let? (s, t) := format_field s v spec.1 in
      done s (Ok (t, spec.2))
  end.

Fixpoint format_from (fuel : nat) (s : InterpreterState) (auto : Z) (chars : text) : Eval text :=
  match fuel, chars with
  | _, [] => done s (Ok [])
  | O, _ => (s, Panic)
  | S fuel, c :: rest =>
      let literal rest := let? (s, t) := format_from fuel s auto rest in done s (Ok (c :: t)) in
      let doubled := match rest with d :: _ => d =? c | [] => false end in
      if ((c =? 123) || (c =? 125)) && doubled then literal (tail rest)
      else if c =? 123 then
        match matching_brace 1 rest with
        | None => done s (value_error_message "Single '{' encountered in format string")
        | Some (field, rest) =>
            let? (s, out) := render_format_field (S (length field)) s auto field in
            let? (s, t) := format_from fuel s out.2 rest in
            done s (Ok (out.1 ++ t))
        end
      else if c =? 125 then done s (value_error_message "Single '}' encountered in format string")
      else literal rest
  end.
End Fields.

Definition str_format (s : InterpreterState) (template : text) (args : list Value) (kwargs : Kwargs) : Eval Value :=
  let? (s, t) := format_from args kwargs (length template) s 0 template in done s (Ok (VString t)).

(** ** [%] on instances *)

(** The first of the slots the class has. *)
Fixpoint coerce_via (s : InterpreterState) (v : Value) (slots : list string) (accepted : Value -> bool) (wanted : string) :
    Eval Value :=
  match slots with
  | [] => done s (Ok v)
  | slot :: slots =>
      match instance_slot s v slot with
      | None => coerce_via s v slots accepted wanted
      | Some method =>
          let? (s, r) := returned s v method [] in
          done s (if accepted r then Ok r
                  else fail (TypeError (slot ++ " returned non-" ++ wanted ++ " (type " ++ type_name r ++ ")")))
      end
  end.

Definition is_int_value (v : Value) : bool := match v with VInt _ | VBigInt _ | VBool _ => true | _ => false end.
Definition is_real_value (v : Value) : bool := match v with VFloat _ => true | _ => is_int_value v end.

Definition coerce_percent_operand (s : InterpreterState) (v : Value) (conv : Z) : Eval Value :=
  let shown mode := let? (s, t) := rendered s v mode in done s (Ok (VString t)) in
  if negb (is_instance v) then done s (Ok v)
  else if conv =? 115 then shown ModeDisplay
  else if conv =? 114 then shown ModeRepr
  else if conv =? 97 then shown ModeAscii
  else if type_in "diu" conv then coerce_via s v ["__index__"; "__int__"] is_int_value "int"
  else if type_in "xXoc" conv then coerce_via s v ["__index__"] is_int_value "int"
  else if type_in "eEfFgG" conv then coerce_via s v ["__float__"; "__index__"] is_real_value "float"
  else done s (Ok v).

(** What was rendered is not rendered again. *)
Definition effective_spec (v : Value) (spec : PercentSpec) : PercentSpec :=
  if is_instance v && type_in "sra" (ps_conv spec) then
    mkPercentSpec (ps_minus spec) (ps_sign spec) (ps_zero spec) (ps_alt spec) (ps_width spec) (ps_precision spec) 115
  else spec.

Fixpoint percent_text (s : InterpreterState) (pieces : list PercentPiece) : Eval text :=
  match pieces with
  | [] => done s (Ok [])
  | piece :: pieces =>
      let? (s, t) :=
        match piece with
        | Literal t => done s (Ok t)
        | Conv spec v =>
            let? (s, operand) := coerce_percent_operand s v (ps_conv spec) in
            done s (format_percent_conversion (heap s) operand (effective_spec v spec))
        end in
      let? (s, ts) := percent_text s pieces in
      done s (Ok (t ++ ts))
  end.

Definition percent_format_async (s : InterpreterState) (template : text) (arg : Value) : Eval Value :=
  let? (s, pieces) := done s (parse_percent_pieces (heap s) template arg) in
  let? (s, t) := percent_text s pieces in
  done s (Ok (VString t)).

(** The result as bytes: Latin-1, a character beyond it cut off. *)
Definition bytes_format_async (s : InterpreterState) (template : list Z) (arg : Value) : Eval Value :=
  let? (s, out) := percent_format_async s (decode_and_normalize_bytes_template template) (latin1_bytes_args (heap s) arg) in
  done s (Ok match out with VString t => VBytes (map (fun c => c mod 256) t) | other => other end).
End Render.
