(* ===== verification/Dataclasses.v ===== *)
(** The module [dataclasses] (eval/modules/dataclasses.rs): what [@dataclass] records in a
    class, [field], and the functions on instances. *)
From Stdlib Require Import ZArith Lia Ascii String SpecFloat.
From stdpp Require Import base tactics list numbers option strings pretty gmap.
From S2P Require Import Prelude PySet Values Errors F64 Keys Classes Compare Operators State Exceptions Op Containers Places.
From S2P Require Import Syntax Host Displays Eval Stmts Attributes Targets.

Section Dataclasses.
Context `{External} `{!ExternalOrder} `{!Platform} `{!Formats} `{!Calls} `{!Estimates} `{!Environment} `{!Host}.
Abbreviation Kwargs := (list (string * Value)).
Abbreviation key_eq := (key_eqb structural_eq).

(** ** The marker of [field(...)] *)

Definition FIELD_SENTINEL : string := "__interpretthis_dataclasses_field__".
Definition FIELD_CLASS : string := "dataclasses.Field".

Definition text_key (n : string) : ValueKey := KString (name_text n).

(** A dictionary marked as such, with the arguments that matter. *)
Definition sentinel_entries (kwargs : Kwargs) : list (ValueKey * Value) :=
  let given n := match field_get kwargs n with Some v => [(n, v)] | None => [] end in
  let flags := List.filter (fun kv => listed kv.1 ["init"; "repr"; "compare"]) kwargs in
  fold_left (fun m kv => im_insert key_eq m (text_key kv.1) kv.2)
    ((("__interpretthis_kind__", VString (name_text FIELD_SENTINEL)) :: given "default" ++ given "default_factory" ++ flags)%string) [].

Definition build_field_sentinel (s : InterpreterState) (kwargs : Kwargs) : Eval Value :=
  let (l, h) := shared_dict (heap s) (sentinel_entries kwargs) in done (set_heap h s) (Ok (VDict l)).

Record FieldSentinel : Type := mkFieldSentinel {
  fs_default : option Value;
  fs_default_factory : option Value;
  fs_init : bool;
  fs_repr : bool;
  fs_compare : bool
}.

Definition unpack_field_sentinel (h : Heap) (v : Value) : option FieldSentinel :=
  match v with
  | VDict l =>
      let entry n := im_get key_eq (dict_at h l) (text_key n) in
      let flag n := match entry n with Some v => is_truthy h v | None => true end in
      match entry "__interpretthis_kind__" with
      | Some (VString t) =>
          if bool_decide (t = name_text FIELD_SENTINEL)
          then Some (mkFieldSentinel (entry "default") (entry "default_factory") (flag "init") (flag "repr") (flag "compare"))
          else None
      | _ => None
      end
  | _ => None
  end%string.

Definition build_field (h : Heap) (name : string) (class_attr : option Value) (init_only : bool) : DataclassField :=
  match class_attr with
  | None => mkDataclassField name None None true true true init_only
  | Some v =>
      match unpack_field_sentinel h v with
      | Some f => mkDataclassField name (fs_default f) (fs_default_factory f) (fs_init f) (fs_repr f) (fs_compare f) init_only
      | None => mkDataclassField name (Some v) None true true true init_only
      end
  end.

(** ** The decorator *)

(** A field keeps the position of an earlier one of its name. *)
Fixpoint push_or_update (fields : list DataclassField) (f : DataclassField) : list DataclassField :=
  match fields with
  | [] => [f]
  | g :: fields => if String.eqb (df_name g) (df_name f) then f :: fields else g :: push_or_update fields f
  end.

Definition inherited_fields (registry : gmap string ClassValue) (class : ClassValue) : list DataclassField :=
  concat (omap (fun ancestor => registry !! ancestor ≫= dataclass_fields) (rev (tail (mro class)))).

Definition declared_fields (h : Heap) (class : ClassValue) : list DataclassField :=
  map (fun n => build_field h n (class_attrs class !! n) (bool_decide (n ∈ initvar_fields class))) (annotations class).

Definition all_fields (h : Heap) (registry : gmap string ClassValue) (class : ClassValue) : list DataclassField :=
  fold_left push_or_update (inherited_fields registry class ++ declared_fields h class) [].

Definition has_default (f : DataclassField) : bool :=
  match df_default f, df_default_factory f with None, None => false | _, _ => true end.

(** A parameter without a default behind one that has one, with the one before it. *)
Fixpoint misplaced (seen : option string) (fields : list DataclassField) : option (string * string) :=
  match fields with
  | [] => None
  | f :: fields =>
      if has_default f then misplaced (Some (df_name f)) fields
      else match seen with Some prior => Some (df_name f, prior) | None => misplaced None fields end
  end.

Definition names_tuple (names : list string) : Value := VTuple (map (fun n => VString (name_text n)) names).

Definition match_args (fields : list DataclassField) : Value :=
  names_tuple (df_name <$> List.filter (fun f => df_init f && negb (df_init_only f)) fields).

Definition as_dataclass (c : ClassValue) (fields : list DataclassField) (is_frozen is_ordered slots : bool) : ClassValue :=
  let names := df_name <$> fields in
  let attrs := <["__match_args__" := match_args fields]> (class_attrs c) in
  mkClass (c_name c) (methods c) (if slots then <["__slots__" := names_tuple names]> attrs else attrs) (bases c) (mro c)
    (properties c) (static_methods c) (class_methods c) (enum_kind c) (enum_members c) (annotations c) (Some fields)
    is_frozen is_ordered (total_ordering c) slots (if slots then names else slot_names c) (abstract_methods c) (metaclass c)
    (c_qualname c) (is_generic c) (initvar_fields c).

Definition apply_dataclass (s : InterpreterState) (class_name : string) (kwargs : Kwargs) : Eval () :=
  let flag n := match field_get kwargs n with Some v => is_truthy (heap s) v | None => false end in
  match classes s !! class_name with
  | None => error s (name_not_defined class_name)
  | Some class =>
      let fields := all_fields (heap s) (classes s) class in
      match misplaced None (List.filter df_init fields) with
      | Some (name, prior) =>
          error s (TypeError ("non-default argument '" ++ name ++ "' follows default argument '" ++ prior ++ "'"))
      | None =>
          done (register_class class_name (as_dataclass class fields (flag "frozen") (flag "order") (flag "slots")) s) (Ok ())
      end
  end.

(** ** Dictionaries and tuples of fields *)

Definition dataclass_of (s : InterpreterState) (class_name : string) : option (list DataclassField) :=
  classes s !! class_name ≫= dataclass_fields.

Definition stored_names (fields : list DataclassField) : list string :=
  df_name <$> List.filter (fun f => negb (df_init_only f)) fields.

Section Convert.
(** How the converted fields of an instance are put together. *)
Variable together : InterpreterState -> list (string * Value) -> Eval Value.

Fixpoint each_value (f : InterpreterState -> Value -> Eval Value) (s : InterpreterState) (vs : list Value) : Eval (list Value) :=
  match vs with
  | [] => done s (Ok [])
  | v :: vs => let? (s, v) := f s v in let? (s, vs) := each_value f s vs in done s (Ok (v :: vs))
  end.

Fixpoint each_field (f : InterpreterState -> Value -> Eval Value) (s : InterpreterState) (l : loc) (names : list string) :
    Eval (list (string * Value)) :=
  match names with
  | [] => done s (Ok [])
  | n :: names =>
      let? (s, v) := f s (default VNone (field_get (fields_at (heap s) l) n)) in
      let? (s, rest) := each_field f s l names in
      done s (Ok ((n, v) :: rest))
  end.

(** The source descends as deep as the values go. *)
Fixpoint convert (levels : nat) (s : InterpreterState) (v : Value) : Eval Value :=
  match levels with
  | O => (s, Panic)
  | S levels =>
      match v with
      | VInstance class_name l =>
          match dataclass_of s class_name with
          | Some fields =>
              let? (s, out) := each_field (convert levels) s l (stored_names fields) in together s out
          | None => done s (Ok v)
          end
      | VList l =>
          let? (s, out) := each_value (convert levels) s (list_at (heap s) l) in
          let (l, h) := shared_list (heap s) out in
          done (set_heap h s) (Ok (VList l))
      | VTuple items => let? (s, out) := each_value (convert levels) s items in done s (Ok (VTuple out))
      | VDict l =>
          let entries := dict_at (heap s) l in
          let? (s, out) := each_value (convert levels) s entries.*2 in
          let m := fold_left (fun m kv => im_insert key_eq m kv.1 kv.2) (combine entries.*1 out) [] in
          let (l, h) := shared_dict (heap s) m in
          done (set_heap h s) (Ok (VDict l))
      | _ => done s (Ok v)
      end
  end.

(** Of a dataclass instance only. *)
Definition convert_instance (who : string) (s : InterpreterState) (class_name : string) (l : loc) : Eval Value :=
  match classes s !! class_name with
  | None => error s (name_not_defined class_name)
  | Some class =>
      match dataclass_fields class with
      | None =>
          error s (TypeError (who ++ "() should be called on dataclass instances; '" ++ class_name ++ "' is not a dataclass"))
      | Some fields => let? (s, out) := each_field (convert nesting) s l (stored_names fields) in together s out
      end
  end.
End Convert.

Definition fields_dict (s : InterpreterState) (fields : list (string * Value)) : Eval Value :=
  let m := fold_left (fun m kv => im_insert key_eq m (text_key kv.1) kv.2) fields [] in
  let (l, h) := shared_dict (heap s) m in
  done (set_heap h s) (Ok (VDict l)).

Definition fields_tuple (s : InterpreterState) (fields : list (string * Value)) : Eval Value :=
  done s (Ok (VTuple fields.*2)).

Definition asdict_recursive : InterpreterState -> string -> loc -> Eval Value := convert_instance fields_dict "asdict".
Definition astuple_recursive : InterpreterState -> string -> loc -> Eval Value := convert_instance fields_tuple "astuple".

(** ** The functions of the module *)

Definition ensure_field_class (s : InterpreterState) : InterpreterState :=
  match classes s !! FIELD_CLASS with Some _ => s | None => register_class FIELD_CLASS (ClassValue_new FIELD_CLASS) s end.

Fixpoint field_objects (s : InterpreterState) (fields : list DataclassField) : InterpreterState * list Value :=
  match fields with
  | [] => (s, [])
  | f :: fields =>
      let (l, s) := allocate_instance s
        [("default", default VNone (df_default f)); ("name", VString (name_text (df_name f)))]%string in
      let (s, vs) := field_objects s fields in
      (s, VInstance FIELD_CLASS l :: vs)
  end.

Definition class_or_instance (v : option Value) : option string :=
  match v with Some (VClass n) | Some (VInstance n _) => Some n | _ => None end.

Definition dataclasses_fields (s : InterpreterState) (argument : option Value) : Eval Value :=
  match class_or_instance argument with
  | None => error s (TypeError "fields() expects a dataclass class or instance")
  | Some class_name =>
      match classes s !! class_name with
      | None => error s (name_not_defined class_name)
      | Some class =>
          match dataclass_fields class with
          | None =>
              error s (TypeError ("fields() requires a dataclass instance or class; '" ++ class_name ++ "' is not a dataclass"))
          | Some fields =>
              let (s, vs) := field_objects s (List.filter (fun f => negb (df_init_only f)) fields) in
              done (ensure_field_class s) (Ok (VTuple vs))
          end
      end
  end.

Definition dataclasses_replace (s : InterpreterState) (argument : option Value) (kwargs : Kwargs) : Eval Value :=
  match argument with
  | Some (VInstance class_name l) =>
      match dataclass_of s class_name with
      | None =>
          error s (TypeError ("replace() should be called on dataclass instances; '" ++ class_name ++ "' is not a dataclass"))
      | Some fields =>
          match find (fun k => negb (listed k (df_name <$> fields))) kwargs.*1 with
          | Some k => error s (TypeError ("replace() got an unexpected keyword argument '" ++ k ++ "'"))
          | None =>
              let (l, s) := allocate_instance s
                (fold_left (fun m kv => bt_insert m kv.1 kv.2) kwargs (fields_at (heap s) l)) in
              done s (Ok (VInstance class_name l))
          end
      end
  | _ => error s (TypeError "replace() should be called on dataclass instances")
  end.

(** [@dataclass], or its call on a class or with keywords. *)
Definition dataclasses_dataclass (s : InterpreterState) (argument : option Value) (kwargs : Kwargs) : Eval Value :=
  let this := VModuleFunction "dataclasses" "dataclass" in
  match argument with
  | Some (VClass class_name) => let? (s, _) := apply_dataclass s class_name kwargs in done s (Ok (VClass class_name))
  | _ => done s (Ok match kwargs with [] => this | _ => VPartial this [] kwargs end)
  end.

Definition dataclasses_convert (s : InterpreterState) (who : string)
    (recursive : InterpreterState -> string -> loc -> Eval Value) (argument : option Value) : Eval Value :=
  match argument with
  | Some (VInstance class_name l) => recursive s class_name l
  | _ => error s (TypeError (who ++ "() should be called on dataclass instances"))
  end.

Definition dataclasses_call (s : InterpreterState) (func : string) (argv : list Value) (kwargs : Kwargs) : Eval Value :=
  let argument := head argv in
  match func with
  | "dataclass" => dataclasses_dataclass s argument kwargs
  | "field" => build_field_sentinel s kwargs
  | "is_dataclass" =>
      match argument with
      | None => error s (TypeError "is_dataclass() missing required argument")
      | Some _ =>
          done s (Ok (VBool match class_or_instance argument ≫= dataclass_of s with Some _ => true | None => false end))
      end
  | "fields" => dataclasses_fields s argument
  | "asdict" => dataclasses_convert s "asdict" asdict_recursive argument
  | "astuple" => dataclasses_convert s "astuple" astuple_recursive argument
  | "replace" => dataclasses_replace s argument kwargs
  | _ => error s (AttributeError ("module 'dataclasses' has no attribute '" ++ func ++ "'"))
  end%string.
End Dataclasses.
