(* ===== verification/Objects.v ===== *)
(** Instances and classes at run time (eval/classes.rs, eval/names.rs): calls of methods
    with their frames, the protocol that looks up attributes, [super()], and the
    construction of instances. *)
From Stdlib Require Import ZArith Lia Ascii String SpecFloat.
From stdpp Require Import base tactics list numbers option strings pretty gmap.
From S2P Require Import Prelude PySet Values Errors F64 Keys Classes Compare Operators State Exceptions Op Methods Containers Places.
From S2P Require Import Syntax Host Displays Eval Params Definitions Stmts Functions Text StrMethods Repr Attributes Targets.

(** What attribute access and construction take from the other components: the call of a
    value, the functions and members of modules, the methods of an exit stack, and the
    contents of cached and dispatching wrappers. *)
Class Library `{External} : Type := {
  call_value_as_function : InterpreterState -> Value -> list Value -> list (string * Value) -> Eval Value;
  call_module_function : InterpreterState -> string -> string -> list Value -> Eval Value;
  try_exitstack_method :
    InterpreterState -> Value -> string -> list Value -> InterpreterState * option (EvalResult Value);
  module_member : string -> string -> EvalResult Value;
  type_attribute : string -> string -> string -> option Value;
  type_classmethod : string -> string -> string -> option string;
  cached_function : loc -> Value;
  dispatcher : loc -> string * Value
}.

(** ** Lookups in the registry *)

Section Lookups.
Context `{External}.

Definition lookup_static_method (registry : gmap string ClassValue) (class_name name : string) : option FunctionDef :=
  class ← registry !! class_name; snd <$> first_in_mro registry (fun c => static_methods c !! name) (mro class).

Definition lookup_class_method (registry : gmap string ClassValue) (class_name name : string) : option FunctionDef :=
  class ← registry !! class_name; snd <$> first_in_mro registry (fun c => class_methods c !! name) (mro class).

Definition method_of (registry : gmap string ClassValue) (class_name name : string) : option FunctionDef :=
  snd <$> lookup_method_in_mro registry class_name name.

Definition class_mro_is_exception (class : ClassValue) : bool :=
  existsb (fun b => String.eqb b "Exception" || String.eqb b "BaseException" || is_exception_type_name b) (mro class).

(** The classes after the first occurrence of one. *)
Fixpoint after (name : string) (order : list string) : option (list string) :=
  match order with
  | [] => None
  | c :: order => if String.eqb c name then Some order else after name order
  end.

(** The entries of a map in the order of their keys. *)
Definition in_key_order {A} (m : gmap string A) : list (string * A) :=
  foldr (fun kv acc => bt_insert acc kv.1 kv.2) [] (map_to_list m).
End Lookups.

Section Objects.
Context `{External} `{!ExternalOrder} `{!Platform} `{!Formats} `{!Calls} `{!Estimates} `{!Environment} `{!Host}
        `{!ModuleAttributes} `{!Library}.
Variable eval : InterpreterState -> PyExpr -> Eval Value.
Variable exec : InterpreterState -> PyStmt -> Eval Value.
Abbreviation Kwargs := (list (string * Value)).

Definition no_object_attr {A} (s : InterpreterState) (class_name attr : string) : Eval A :=
  error s (AttributeError ("'" ++ class_name ++ "' object has no attribute '" ++ attr ++ "'")).

(** ** Calls of methods *)

(** The class a method's name starts with. *)
Definition class_of_method (name : string) : string :=
  match String.index 0 "." name with Some i => String.substring 0 i name | None => name end.

Definition first_param (f : FunctionDef) : option string := head (p_name <$> args (params f)).

Definition is_receiver (v : Value) : bool := match v with VInstance _ _ | VClass _ => true | _ => false end.

Definition push_method (f : FunctionDef) (self_value : Value) (s : InterpreterState) : InterpreterState :=
  if is_receiver self_value
  then set_method_frames (method_frames s ++ [mkMethodFrame (class_of_method (f_name f)) self_value (first_param f)]) s
  else s.
Definition pop_method (self_value : Value) (s : InterpreterState) : InterpreterState :=
  if is_receiver self_value then set_method_frames (removelast (method_frames s)) s else s.

Definition leave_method (self_value : Value) (s : InterpreterState) : InterpreterState :=
  exit_call (pop_owners (pop_method self_value s)).

Definition method_touched (f : FunctionDef) : list string :=
  List.filter (fun n => negb (bool_decide (n ∈ global_names f))) (scope_names (params f) ++ assigned_names f).

(** A method with [yield] runs to its end, and its values become a buffer. *)
Definition collect_yields (s : InterpreterState) (body : list PyStmt) : Eval Value :=
  match execute_body exec (set_yields (yield_stack s ++ [[]]) s) body with
  | (s, Panic) => (s, Panic)
  | (s, r) =>
      let collected := default [] (list.last (yield_stack s)) in
      let s := set_yields (removelast (yield_stack s)) s in
      match r with
      | Ok _ | Err (Signal (Return _)) => let (v, s) := alloc_lazy collected s in done s (Ok v)
      | r => (s, r)
      end
  end.

Definition run_method_body (s : InterpreterState) (f : FunctionDef) : Eval Value :=
  match function_bodies s !! f_name f with
  | Some body => if is_generator f then collect_yields s body else execute_body exec s body
  | None => done s (Ok VNone)
  end.

(** The value a method returns, and its receiver afterwards. *)
Definition call_method_inner (s : InterpreterState) (f : FunctionDef) (self_value : Value) (argv : list Value)
    (kwargs : Kwargs) : Eval (Value * Value) :=
  let? (s, _) := lift_call (enter_call s) in
  let s := push_method f self_value (push_owners s) in
  match bind_params_named eval (params f) (display_qualname f) (self_value :: argv) kwargs s with
  | (s, Panic) => (s, Panic)
  | (s, Err e) => done (leave_method self_value s) (Err e)
  | (s, Ok local_scope) =>
      let checkpoint := capture s (method_touched f) in
      match set_each s (map_to_list local_scope) with
      | (s, Panic) => (s, Panic)
      | (s, Err e) => done (leave_method self_value (restore checkpoint s)) (Err e)
      | (s, Ok _) =>
          match run_method_body s f with
          | (s, Panic) => (s, Panic)
          | (s, r) =>
              let configured_self := default VNone (first_param f ≫= fun n => variables s !! n) in
              let s := leave_method self_value (restore checkpoint s) in
              match r with
              | Ok v | Err (Signal (Return v)) => done s (Ok (v, configured_self))
              | Err e => done s (Err e)
              | Panic => (s, Panic)
              end
          end
      end
  end.
Abbreviation call_with := call_method_inner.

(** The returned value alone. *)
Definition call_returned (s : InterpreterState) (f : FunctionDef) (self_value : Value) (argv : list Value)
    (kwargs : Kwargs) : Eval Value :=
  let? (s, out) := call_with s f self_value argv kwargs in done s (Ok out.1).

(** A function as a value. *)
Definition function_value (s : InterpreterState) (f : FunctionDef) : Eval Value :=
  let (v, s) := alloc_function f s in done s (Ok v).

(** ** Attributes of instances and classes *)

Definition instance_attribute (s : InterpreterState) (class_name : string) (l : loc) (attr : string) : Eval Value :=
  match field_get (fields_at (heap s) l) attr with
  | Some v => done s (Ok v)
  | None =>
      match lookup_class_attr (classes s) class_name attr with
      | Some v => done s (Ok v)
      | None => no_object_attr s class_name attr
      end
  end.

(** A getter runs each time, unless its value is kept in the instance ([cache_key]). *)
Definition invoke_property_getter (s : InterpreterState) (getter : FunctionDef) (class_name : string) (l : loc)
    (cache_key : option string) : Eval Value :=
  match cache_key ≫= fun key => field_get (fields_at (heap s) l) key with
  | Some v => done s (Ok v)
  | None =>
      let? (s, v) := call_returned s getter (VInstance class_name l) [] [] in
      done (match cache_key with Some key => put_field l key v s | None => s end) (Ok v)
  end.

Definition invoke_property_setter (s : InterpreterState) (setter : FunctionDef) (instance value : Value) : Eval Value :=
  let? (s, out) := call_with s setter instance [value] [] in done s (Ok out.2).

Definition invoke_property_deleter (s : InterpreterState) (deleter : FunctionDef) (instance : Value) : Eval Value :=
  let? (s, out) := call_with s deleter instance [] [] in done s (Ok out.2).

Definition cache_key (p : PropertyDef) (attr : string) : option string := if cached p then Some attr else None.

(** The class that owns a property, nearest first. *)
Definition property_owner (registry : gmap string ClassValue) (class_name attr : string) : option string :=
  class ← registry !! class_name; fst <$> first_in_mro registry (fun c => properties c !! attr) (mro class).

(** What the metaclass adds: its attributes, then its methods. *)
Definition metaclass_attribute (s : InterpreterState) (class_name attr : string) : option (Eval Value) :=
  meta ← classes s !! class_name ≫= metaclass;
  match lookup_class_attr (classes s) meta attr with
  | Some v => Some (done s (Ok v))
  | None => function_value s <$> method_of (classes s) meta attr
  end.

Definition class_qualname (s : InterpreterState) (class_name : string) : string :=
  match classes s !! class_name with
  | Some c => if bool_decide (c_qualname c = "") then class_name else c_qualname c
  | None => class_name
  end.

Definition class_attribute (s : InterpreterState) (class_name attr : string) : Eval Value :=
  if String.eqb attr "__name__" then done s (Ok (VString (name_text class_name)))
  else if String.eqb attr "__qualname__" then done s (Ok (VString (name_text (class_qualname s class_name))))
  else
    match lookup_static_method (classes s) class_name attr with
    | Some f => function_value s f
    | None =>
    match lookup_class_method (classes s) class_name attr with
    | Some _ => done s (Ok (VUnboundClassMethod class_name attr))
    | None =>
    match lookup_class_attr (classes s) class_name attr with
    | Some v => done s (Ok v)
    | None =>
    match property_owner (classes s) class_name attr with
    | Some owner => done s (Ok (VProperty owner attr))
    | None =>
    match method_of (classes s) class_name attr with
    | Some f => function_value s f
    | None =>
    match metaclass_attribute s class_name attr with
    | Some m => m
    | None => error s (AttributeError ("type object '" ++ class_name ++ "' has no attribute '" ++ attr ++ "'"))
    end end end end end end.

(** ** Attributes of the other values *)

Definition name_value (n : string) : Value := VString (name_text n).
Definition doc_value (d : option string) : Value := match d with Some d => name_value d | None => VNone end.

(** The members of an exception: the ones every exception has, those of [StopIteration],
    [SystemExit] and [OSError], and its own fields. *)
Definition os_argument (argv : list Value) (attr : string) : Value :=
  let n := length argv in
  let arg i := default VNone (argv !! i) in
  let two_to_five := (2 <=? n)%nat && (n <=? 5)%nat in
  if String.eqb attr "errno" && two_to_five then arg 0%nat
  else if String.eqb attr "strerror" && two_to_five then arg 1%nat
  else if String.eqb attr "filename" && (3 <=? n)%nat then arg 2%nat
  else if String.eqb attr "filename2" && (5 <=? n)%nat then arg 4%nat
  else VNone.

Definition exception_attribute (e : ExceptionValue) (attr : string) : EvalResult Value :=
  let own := field_get (exc_fields e) attr in
  let named n := String.eqb attr n in
  if named "exceptions" then Ok (VTuple (map VException (default [] (exc_exceptions e))))
  else if listed attr ["subgroup"; "split"; "with_traceback"] then Ok (VExceptionMethod attr e)
  else if named "__traceback__" then Ok VNone
  else if named "args" then Ok (VTuple (exc_args e))
  else if named "value" && listed (exc_type_name e) ["StopIteration"; "StopAsyncIteration"]
  then Ok (default VNone (head (exc_args e)))
  else if named "code" && String.eqb (exc_type_name e) "SystemExit" && negb (bt_contains (exc_fields e) "code") then
    Ok match exc_args e with [] => VNone | [a] => a | many => VTuple many end
  else if named "__cause__" then Ok match e with mkException _ _ (Some c) _ _ _ _ => VException c | _ => VNone end
  else if named "__context__" then Ok (default VNone own)
  else if named "__suppress_context__" then Ok (default (VBool false) own)
  else if listed attr ["errno"; "strerror"; "filename"; "filename2"] && negb (bt_contains (exc_fields e) attr) &&
          builtin_exception_issubclass (exc_type_name e) "OSError"
  then Ok (os_argument (exc_args e) attr)
  else match own with Some v => Ok v | None => attribute_error (exc_type_name e) attr end.

Definition itemsize (typecode : Z) : Z :=
  let one_of s := bool_decide (typecode ∈ lit s) in
  if one_of "bB" then 1 else if one_of "hH" then 2 else if one_of "iIf" then 4 else if one_of "u" then 4 else 8.

(** The dictionary of names and values a function shows. *)
Definition names_dict (s : InterpreterState) (entries : list (string * Value)) : Eval Value :=
  let m := fold_left (fun m kv => im_insert (key_eqb structural_eq) m (KString (name_text kv.1)) kv.2) entries [] in
  let (l, h) := shared_dict (heap s) m in
  done (set_heap h s) (Ok (VDict l)).

Definition kw_default_entries (p : FunctionParams) : list (string * Value) :=
  omap (fun pv => (fun v => (p_name pv.1, v)) <$> pv.2) (combine (kwonlyargs p) (kw_default_values p)).

Definition last_component (n : string) : text := short_type_name (name_text n).

Definition function_attribute (s : InterpreterState) (v : Value) (f : FunctionDef) (attr : string) : Eval Value :=
  let named n := String.eqb attr n in
  match function_attrs s !! body_cache_key f ≫= fun m => im_get String.eqb m attr with
  | Some v => done s (Ok v)
  | None =>
      if named "__qualname__" then done s (Ok (name_value (default (display_qualname f) (wraps_name f))))
      else if named "__name__" then
        done s (Ok (VString match wraps_name f with Some n => name_text n | None => last_component (display_qualname f) end))
      else if named "__doc__" then done s (Ok (doc_value (docstring f)))
      else if named "__call__" then done s (Ok v)
      else if named "__annotations__" then names_dict s (f_annotations f)
      else if named "__defaults__" then
        done s (Ok match default_values (params f) with [] => VNone | vs => VTuple vs end)
      else if named "__kwdefaults__" then
        match kw_default_entries (params f) with [] => done s (Ok VNone) | es => names_dict s es end
      else done s (attribute_error "function" attr)
  end.

Definition lambda_attribute (v : Value) (l : LambdaDef) (attr : string) : EvalResult Value :=
  if String.eqb attr "__name__" then Ok (VString (lit "<lambda>"))
  else if String.eqb attr "__qualname__" then Ok (name_value (lambda_name l))
  else if String.eqb attr "__call__" then Ok v
  else if String.eqb attr "__doc__" then Ok VNone
  else attribute_error "function" attr.

Definition place_step (st : BoundMethodStep) : PlaceStep :=
  match st with StepIndex v => Index v | StepAttr n => Attr n end.

(** The slot of a place, read from a copy of its variable. *)
Definition peek (s : InterpreterState) (name : string) (sts : list PlaceStep) : EvalResult Value :=
  match variables s !! name with
  | None => fail (name_not_defined name)
  | Some v => let '(_, _, r) := nav_recurse read_slot sts [] (heap s) v in r
  end.

Definition receiver_value (s : InterpreterState) (r : BoundMethodReceiver) : EvalResult Value :=
  match r with
  | Snapshot v => Ok v
  | Place root sts => peek s root (map place_step sts)
  end.

Definition bound_method_attribute (s : InterpreterState) (r : BoundMethodReceiver) (method attr : string) : EvalResult Value :=
  if String.eqb attr "__name__" then Ok (name_value method)
  else if String.eqb attr "__self__" then receiver_value s r
  else if String.eqb attr "__qualname__" then
    v ← receiver_value s r; Ok (name_value (python_type_name v ++ "." ++ method))
  else attribute_error "builtin_function_or_method" attr.

Definition property_attribute (s : InterpreterState) (class_name name attr : string) : Eval Value :=
  match classes s !! class_name ≫= fun c => properties c !! name with
  | None => done s (attribute_error "property" attr)
  | Some p =>
      let func f := match f with Some f => function_value s f | None => done s (Ok VNone) end in
      if String.eqb attr "fget" then function_value s (getter p)
      else if String.eqb attr "fset" then func (setter p)
      else if String.eqb attr "fdel" then func (deleter p)
      else if String.eqb attr "__doc__" then done s (Ok (doc_value (docstring (getter p))))
      else if String.eqb attr "__isabstractmethod__" then done s (Ok (VBool false))
      else done s (attribute_error "property" attr)
  end.

(** Wrappers around wrappers descend at most [levels] times. *)
Fixpoint legacy_attribute (levels : nat) (s : InterpreterState) (obj : Value) (attr : string) : Eval Value :=
  let named n := String.eqb attr n in
  let inner f := match levels with O => (s, Panic) | S levels => legacy_attribute levels s f attr end in
  match obj with
  | VException e => done s (exception_attribute e attr)
  | VArray typecode _ =>
      done s (if named "typecode" then Ok (VString [typecode])
              else if named "itemsize" then Ok (VInt (itemsize typecode))
              else attribute_error "array.array" attr)
  | VInstance class_name l => instance_attribute s class_name l attr
  | VClass class_name => class_attribute s class_name attr
  | VProperty class_name name => property_attribute s class_name name attr
  | VType n | VExceptionType n =>
      done s (if listed attr ["__name__"; "__qualname__"] then Ok (VString (last_component n)) else attribute_error "type" attr)
  | VFunction l =>
      match functions s !! l with Some f => function_attribute s obj f attr | None => (s, Panic) end
  | VLambda l => match lambdas s !! l with Some d => done s (lambda_attribute obj d attr) | None => (s, Panic) end
  | VBoundMethod r method => done s (bound_method_attribute s r method attr)
  | VLruCache l =>
      if listed attr ["__name__"; "__qualname__"; "__doc__"] then inner (cached_function l)
      else if named "__wrapped__" then done s (Ok (cached_function l))
      else done s (attribute_error "functools._lru_cache_wrapper" attr)
  | VSingleDispatch l =>
      if named "register" then done s (Ok (VPartial (VModuleFunction "functools" "_sd_register") [obj] []))
      else if listed attr ["__name__"; "__qualname__"] then done s (Ok (name_value (dispatcher l).1))
      else if named "__doc__" then inner (dispatcher l).2
      else if named "__wrapped__" then done s (Ok (dispatcher l).2)
      else done s (attribute_error "function" attr)
  | VBuiltinTypeMethod type method =>
      done s (if named "__name__" then Ok (name_value method)
              else if named "__qualname__" then Ok (name_value (type ++ "." ++ method))
              else attribute_error "method_descriptor" attr)
  | VModule m => done s (module_member m attr)
  | VSlice start stop step =>
      done s (if named "start" then Ok start else if named "stop" then Ok stop else if named "step" then Ok step
              else attribute_error "slice" attr)
  | VRePattern p => done s (if named "pattern" then Ok (VString p) else attribute_error "re.Pattern" attr)
  | VTemplate t => done s (if named "template" then Ok (VString t) else attribute_error "string.Template" attr)
  | VModuleFunction module name =>
      done s match type_attribute module name attr with
             | Some v => Ok v
             | None =>
                 match type_classmethod module name attr with
                 | Some func => Ok (VModuleFunction module func)
                 | None => attribute_error (type_name obj) attr
                 end
             end
  | _ => done s (attribute_error (type_name obj) attr)
  end.

(** ** The lookup protocol *)

Definition bound_step (st : PlaceStep) : option BoundMethodStep :=
  match st with Index v => Some (StepIndex v) | Attr n => Some (StepAttr n) | SliceStep _ => None end.

(** A method read off a place is bound to the place. *)
Definition upgrade_bound_method_place (v : Value) (place : option PlaceOf) : Value :=
  match v, place with
  | VBoundMethod (Snapshot _) method, Some p => VBoundMethod (Place (root p) (omap bound_step (steps p))) method
  | _, _ => v
  end.

(** The descriptor of an instance's class, called if it is a data descriptor or the
    instance has no such field. *)
Definition descriptor_get (s : InterpreterState) (class_name : string) (l : loc) (attr : string) : option (Eval Value) :=
  '(desc_class, desc) ← lookup_class_attr_instance (classes s) class_name attr;
  get ← method_of (classes s) desc_class "__get__";
  let has n := match method_of (classes s) desc_class n with Some _ => true | None => false end in
  let is_data := has "__set__" || has "__delete__" in
  match (if is_data then None else field_get (fields_at (heap s) l) attr) with
  | Some v => Some (done s (Ok v))
  | None => Some (call_returned s get (VInstance desc_class desc) [VInstance class_name l; VClass class_name] [])
  end.

(** Properties and descriptors, which come before everything else. *)
Definition overriding_attribute (s : InterpreterState) (obj : Value) (attr : string) : option (Eval Value) :=
  match obj with
  | VInstance class_name l =>
      match lookup_property (classes s) class_name attr with
      | Some p => Some (invoke_property_getter s (getter p) class_name l (cache_key p attr))
      | None => descriptor_get s class_name l attr
      end
  | _ => None
  end.

Definition type_method (s : InterpreterState) (type attr : string) : Eval Value :=
  if listed attr ["__name__"; "__qualname__"] then done s (Ok (name_value type))
  else if builtin_type_attr_present type attr then done s (Ok (VBuiltinTypeMethod type attr))
  else error s (AttributeError ("type object '" ++ type ++ "' has no attribute '" ++ attr ++ "'")).

(** A method of an instance without such a field, and those of an iterator. *)
Definition binds_method (s : InterpreterState) (obj : Value) (attr : string) : bool :=
  match obj with
  | VInstance class_name l =>
      (if field_get (fields_at (heap s) l) attr is None then true else false) &&
      (if method_of (classes s) class_name attr is Some _ then true else false)
  | VGenerator _ | VLazy _ _ _ | VBuiltinIter _ _ => listed attr ["send"; "throw"; "close"; "__next__"; "__iter__"]
  | _ => false
  end.

Definition is_attribute_error (e : EvalError) : bool :=
  match e with Interpreter (AttributeError _) => true | _ => false end.

(** [__getattr__] of an instance answers when nothing else does. *)
Definition missing_attribute (s : InterpreterState) (obj : Value) (attr : string) (e : EvalError) : Eval Value :=
  match obj with
  | VInstance class_name _ =>
      match method_of (classes s) class_name "__getattr__" with
      | Some method => call_returned s method obj [name_value attr] []
      | None => done s (Err e)
      end
  | _ => done s (Err e)
  end.

Definition plain_attribute (s : InterpreterState) (obj : Value) (attr : string) (place : option PlaceOf) : Eval Value :=
  match dispatch_getattr_opt (heap s) obj attr with
  | Panic => (s, Panic)
  | Err e => done s (Err e)
  | Ok (Some (v, h)) => done (set_heap h s) (Ok (upgrade_bound_method_place v place))
  | Ok None =>
      if binds_method s obj attr then done s (Ok (bound_method obj attr))
      else
        match legacy_attribute nesting s obj attr with
        | (s, Err e) => if is_attribute_error e then missing_attribute s obj attr e else done s (Err e)
        | r => r
        end
  end.

Definition getattr_normal_lookup (s : InterpreterState) (obj : Value) (attr : string) (place : option PlaceOf) : Eval Value :=
  let? (s, _) := done s (validate_attribute attr) in
  match overriding_attribute s obj attr with
  | Some m => m
  | None =>
      match obj with
      | VBuiltinName type => type_method s type attr
      | _ => plain_attribute s obj attr place
      end
  end.

Definition getattr_on_value (s : InterpreterState) (obj : Value) (attr : string) (place : option PlaceOf) : Eval Value :=
  match resolve_object_attr obj attr with
  | Some v => done s (Ok v)
  | None =>
      match (match obj with VInstance class_name _ => method_of (classes s) class_name "__getattribute__" | _ => None end) with
      | Some method =>
          let? (s, _) := done s (validate_attribute attr) in call_returned s method obj [name_value attr] []
      | None => getattr_normal_lookup s obj attr place
      end
  end.

(** ** [super()] *)

(** What an attribute of [super()] is: a property or a value, until a method of that
    name hides the rest. *)
Fixpoint super_lookup (registry : gmap string ClassValue) (attr : string) (order : list string) :
    option (PropertyDef + Value) :=
  match order with
  | [] => None
  | ancestor :: order =>
      match registry !! ancestor with
      | None => super_lookup registry attr order
      | Some c =>
          match properties c !! attr, class_attrs c !! attr with
          | Some p, _ => Some (inl p)
          | None, Some v => Some (inr v)
          | None, None => if methods c !! attr is Some _ then None else super_lookup registry attr order
          end
      end
  end.

Definition not_in_mro {A} (s : InterpreterState) (defining_class class_name : string) : Eval A :=
  error s (TypeError ("super(): '" ++ defining_class ++ "' is not in MRO of '" ++ class_name ++ "'")).
Definition no_super_attr {A} (s : InterpreterState) (attr : string) : Eval A :=
  error s (AttributeError ("'super' object has no attribute '" ++ attr ++ "'")).

(** The classes [super()] searches, of an instance of a registered class. *)
Definition super_order (s : InterpreterState) (defining_class class_name : string) : Eval (list string) :=
  match classes s !! class_name with
  | None => error s (Runtime ("super(): instance's class '" ++ class_name ++ "' is not registered"))
  | Some c =>
      match after defining_class (mro c) with
      | Some order => done s (Ok order)
      | None => not_in_mro s defining_class class_name
      end
  end.

Definition super_attribute (s : InterpreterState) (defining_class class_name : string) (l : loc) (attr : string) : Eval Value :=
  let? (s, order) := super_order s defining_class class_name in
  match super_lookup (classes s) attr order with
  | Some (inl p) => invoke_property_getter s (getter p) class_name l (cache_key p attr)
  | Some (inr v) => done s (Ok v)
  | None => no_super_attr s attr
  end.

Definition caller_self_name (s : InterpreterState) : option string :=
  list.last (method_frames s) ≫= self_local_name.

(** The variable of the running method that holds its receiver. *)
Definition rebind_self (s : InterpreterState) (updated : Value) : Eval () :=
  match caller_self_name s with Some n => set_named s n updated | None => done s (Ok ()) end.

Definition text_argument (s : InterpreterState) (argv : list Value) (message : string) : Eval string :=
  match argv with
  | VString t :: _ => done s (Ok (text_name t))
  | _ => error s (TypeError message)
  end.

Definition object_setattr (s : InterpreterState) (class_name : string) (l : loc) (argv : list Value) : Eval (Value * Value) :=
  let? (s, attr) := text_argument s argv "object.__setattr__: first argument must be str" in
  match argv !! 1%nat with
  | None => error s (TypeError "object.__setattr__: missing value argument")
  | Some value =>
      let? (s, _) := done s (validate_attribute attr) in
      let s := put_field l attr value s in
      let? (s, _) := rebind_self s (VInstance class_name l) in
      done s (Ok (VNone, VInstance class_name l))
  end.

Definition object_delattr (s : InterpreterState) (class_name : string) (l : loc) (argv : list Value) : Eval (Value * Value) :=
  let? (s, attr) := text_argument s argv "object.__delattr__: argument must be str" in
  let? (s, _) := done s (validate_attribute attr) in
  match assoc_remove (fields_at (heap s) l) attr with
  | None => no_object_attr s class_name attr
  | Some fs =>
      let s := set_heap (put_fields l fs (heap s)) s in
      let? (s, _) := rebind_self s (VInstance class_name l) in
      done s (Ok (VNone, VInstance class_name l))
  end.

(** Of an exception class, the constructor's arguments are kept as [args]. *)
Definition object_init (s : InterpreterState) (class_name : string) (l : loc) (argv : list Value) : Eval (Value * Value) :=
  let is_exc := match classes s !! class_name with Some c => class_mro_is_exception c | None => false end in
  let s := if is_exc then put_field l "args" (VTuple argv) s else s in
  let? (s, _) := rebind_self s (VInstance class_name l) in
  done s (Ok (VNone, VInstance class_name l)).

Definition object_getattribute (s : InterpreterState) (class_name : string) (l : loc) (argv : list Value) :
    Eval (Value * Value) :=
  let? (s, attr) := text_argument s argv "object.__getattribute__: argument must be str" in
  let? (s, v) := getattr_normal_lookup s (VInstance class_name l) attr None in
  done s (Ok (v, VInstance class_name l)).

Definition object_method (s : InterpreterState) (class_name : string) (l : loc) (name : string) (argv : list Value) :
    Eval (Value * Value) :=
  if String.eqb name "__setattr__" then object_setattr s class_name l argv
  else if String.eqb name "__delattr__" then object_delattr s class_name l argv
  else if String.eqb name "__init__" then object_init s class_name l argv
  else if String.eqb name "__getattribute__" then object_getattribute s class_name l argv
  else no_super_attr s name.

Definition super_method_call (s : InterpreterState) (defining_class class_name : string) (l : loc) (name : string)
    (argv : list Value) (kwargs : Kwargs) : Eval (Value * Value) :=
  let? (s, order) := super_order s defining_class class_name in
  match first_in_mro (classes s) (fun c => methods c !! name) order with
  | None => object_method s class_name l name argv
  | Some (_, f) =>
      let caller := caller_self_name s in
      let? (s, out) := call_with s f (VInstance class_name l) argv kwargs in
      done (match caller with Some n => (set_variable size n out.2 s).1 | None => s end) (Ok out)
  end.

(** ** Calls of an instance's methods *)

Definition keep_instance (s : InterpreterState) (instance : Value) (m : Eval Value) : Eval (Value * Value) :=
  let? (s, v) := m in done s (Ok (v, instance)).

(** The values of a named tuple's fields. *)
Definition namedtuple_values (s : InterpreterState) (class_name : string) (l : loc) : option (list Value) :=
  match classes s !! class_name ≫= fun c => class_attrs c !! "_fields" with
  | Some (VTuple names) =>
      Some (omap (fun n => match n with
                           | VString f => Some (default VNone (field_get (fields_at (heap s) l) (text_name f)))
                           | _ => None
                           end) names)
  | _ => None
  end.

(** A name no class of the instance has a method for: a field, a function among the class
    attributes, [__getattr__], the methods of a named tuple. *)
Definition instance_attr_call_fallback (s : InterpreterState) (class_name : string) (l : loc) (name : string)
    (argv : list Value) (kwargs : Kwargs) : Eval (Value * Value) :=
  let instance := VInstance class_name l in
  match field_get (fields_at (heap s) l) name with
  | Some f => keep_instance s instance (call_value_as_function s f argv kwargs)
  | None =>
  match lookup_class_attr (classes s) class_name name with
  | Some (VFunction _ as f | VLambda _ as f) => keep_instance s instance (call_value_as_function s f (instance :: argv) kwargs)
  | _ =>
  match method_of (classes s) class_name "__getattr__" with
  | Some getattr =>
      let? (s, f) := call_returned s getattr instance [name_value name] [] in
      keep_instance s instance (call_value_as_function s f argv kwargs)
  | None =>
  match (if listed name ["count"; "index"] then namedtuple_values s class_name l else None) with
  | Some items => keep_instance s instance (dispatch_tuple_method s items name argv kwargs)
  | None => no_object_attr s class_name name
  end end end end.

Definition EXITSTACK_CLASS : string := "contextlib.ExitStack".

Definition instance_method (s : InterpreterState) (class_name : string) (l : loc) (name : string) (argv : list Value)
    (kwargs : Kwargs) : Eval (Value * Value) :=
  let instance := VInstance class_name l in
  match lookup_static_method (classes s) class_name name with
  | Some f => keep_instance s instance (call_user_function eval exec s f argv kwargs)
  | None =>
  match lookup_class_method (classes s) class_name name with
  | Some f => keep_instance s instance (call_returned s f (VClass class_name) argv kwargs)
  | None =>
  match method_of (classes s) class_name name with
  | Some f => call_with s f instance argv kwargs
  | None => instance_attr_call_fallback s class_name l name argv kwargs
  end end end.

Definition instance_method_call (s : InterpreterState) (instance : Value) (name : string) (argv : list Value)
    (kwargs : Kwargs) : Eval (Value * Value) :=
  match instance with
  | VInstance class_name l =>
      let '(s, taken) := if String.eqb class_name EXITSTACK_CLASS then try_exitstack_method s instance name argv else (s, None) in
      match taken with
      | Some r => keep_instance s instance (done s r)
      | None => instance_method s class_name l name argv kwargs
      end
  | _ => error s (Runtime "instance_method_call on a non-instance")
  end.

(** ** Construction *)

Definition exception_message_from_args (h : Heap) (argv : list Value) : text :=
  match argv with [] => [] | [single] => display h single | many => display h (VTuple many) end.

Definition exception_of (h : Heap) (class_name : string) (argv : list Value) : ExceptionValue :=
  with_args (ExceptionValue_new class_name (exception_message_from_args h argv)) argv.

Definition instance_to_exception (h : Heap) (class_name : string) (l : loc) : ExceptionValue :=
  let fields := fields_at h l in
  let argv := match field_get fields "args" with
              | Some (VTuple items) => items
              | Some (VList items) => list_at h items
              | _ => []
              end in
  let others := List.filter (fun f => negb (String.eqb f.1 "args")) fields in
  let e := exception_of h class_name argv in
  with_fields e (fold_left (fun m f => bt_insert m f.1 f.2) others (exc_fields e)).

Definition empty_for_builtin_factory (s : InterpreterState) (name : string) : Eval Value :=
  let shared {A} (p : A * Heap) (mk : A -> Value) := done (set_heap p.2 s) (Ok (mk p.1)) in
  let empty_set (mk : loc -> Value) :=
    match @from_items _ (set_elem (heap s)) [] with
    | Some body => shared (shared_set (heap s) body) mk
    | None => (s, Panic)
    end in
  if String.eqb name "list" then shared (shared_list (heap s) []) VList
  else if String.eqb name "dict" then shared (shared_dict (heap s) []) VDict
  else if String.eqb name "set" then empty_set VSet
  else if String.eqb name "frozenset" then empty_set VFrozenset
  else if String.eqb name "tuple" then done s (Ok (VTuple []))
  else if String.eqb name "str" then done s (Ok (VString []))
  else error s (TypeError ("default_factory '" ++ name ++ "' is not callable")).

Section Construct.
(** The construction of an instance by a default factory. *)
Variable construct : InterpreterState -> string -> list Value -> Kwargs -> Eval Value.

Definition invoke_default_factory (s : InterpreterState) (factory : Value) : Eval Value :=
  match factory with
  | VFunction l =>
      match functions s !! l with Some f => call_user_function eval exec s f [] [] | None => (s, Panic) end
  | VLambda l => match lambdas s !! l with Some d => call_lambda eval s d [] [] | None => (s, Panic) end
  | VClass name => construct s name [] []
  | VModuleFunction module name => call_module_function s module name []
  | VType name | VBuiltinName name => empty_for_builtin_factory s name
  | other => error s (TypeError ("default_factory is not callable (got '" ++ type_name other ++ "')"))
  end.

(** A field nobody gave a value: its default, or what its factory makes. *)
Definition field_default (s : InterpreterState) (f : DataclassField) : option (Eval Value) :=
  match df_default f, df_default_factory f with
  | Some d, _ => Some (done s (Ok d))
  | None, Some factory => Some (invoke_default_factory s factory)
  | None, None => None
  end.

Definition field_value (s : InterpreterState) (class_name : string) (f : DataclassField) (positional keyword : option Value) :
    Eval Value :=
  match positional, keyword with
  | Some _, Some _ => error s (TypeError (class_name ++ "() got multiple values for argument '" ++ df_name f ++ "'"))
  | Some v, None | None, Some v => done s (Ok v)
  | None, None =>
      match field_default s f with
      | Some m => m
      | None => error s (TypeError (class_name ++ "() missing required argument: '" ++ df_name f ++ "'"))
      end
  end.

(** The fields of [__init__], by position; an [InitVar] is kept aside. *)
Fixpoint bind_init_fields (s : InterpreterState) (class_name : string) (index : nat) (fields : list DataclassField)
    (argv : list Value) (kwargs : Kwargs) (out : list (string * Value) * list Value) :
    Eval (list (string * Value) * list Value) :=
  match fields with
  | [] => done s (Ok out)
  | f :: fields =>
      let? (s, v) := field_value s class_name f (argv !! index) (field_get kwargs (df_name f)) in
      bind_init_fields s class_name (S index) fields argv kwargs
        (if df_init_only f then (out.1, out.2 ++ [v]) else (bt_insert out.1 (df_name f) v, out.2))
  end.

Fixpoint bind_other_fields (s : InterpreterState) (fields : list DataclassField) (out : list (string * Value)) :
    Eval (list (string * Value)) :=
  match fields with
  | [] => done s (Ok out)
  | f :: fields =>
      match field_default s f with
      | Some m => let? (s, v) := m in bind_other_fields s fields (bt_insert out (df_name f) v)
      | None => bind_other_fields s fields out
      end
  end.

Definition init_fields (fields : list DataclassField) : list DataclassField := List.filter df_init fields.

Definition unexpected_keyword (fields : list DataclassField) (kwargs : Kwargs) : option string :=
  find (fun k => negb (existsb (fun f => String.eqb (df_name f) k) (init_fields fields))) kwargs.*1.

Definition dataclass_instantiate (s : InterpreterState) (class_name : string) (fields : list DataclassField)
    (argv : list Value) (kwargs : Kwargs) : Eval Value :=
  if (length (init_fields fields) <? length argv)%nat then
    error s (TypeError (class_name ++ "() takes " ++ pretty (length (init_fields fields)) ++ " positional arguments but " ++
                        pretty (length argv) ++ " were given"))
  else
    match unexpected_keyword fields kwargs with
    | Some k => error s (TypeError (class_name ++ "() got an unexpected keyword argument '" ++ k ++ "'"))
    | None =>
        let? (s, bound) := bind_init_fields s class_name 0 (init_fields fields) argv kwargs ([], []) in
        let? (s, values) := bind_other_fields s (List.filter (fun f => negb (df_init f)) fields) bound.1 in
        let (l, s) := allocate_instance s values in
        match method_of (classes s) class_name "__post_init__" with
        | Some post => let? (s, out) := call_with s post (VInstance class_name l) bound.2 [] in done s (Ok out.2)
        | None => done s (Ok (VInstance class_name l))
        end
    end.

Definition abstract_error (class_name : string) (names : list string) : EvalError :=
  Exception (ExceptionValue_new "TypeError" (name_text
    ("Can't instantiate abstract class " ++ class_name ++ " without an implementation for abstract " ++
     (if (length names =? 1)%nat then "method" else "methods") ++ " " ++ Op.join ", " (map quoted names)))).

(** The member of an enumeration with a value, in the order of the members' names. *)
Fixpoint member_of (s : InterpreterState) (members : list (string * Value)) (needle : Value) : Eval (option Value) :=
  match members with
  | [] => done s (Ok None)
  | (_, VEnumMember _ _ value _ as m) :: members =>
      let? (s, same) := walked s (values_equal structural_eq EQ_RECURSION_LIMIT none_held (heap s) value needle) in
      if same : bool then done s (Ok (Some m)) else member_of s members needle
  | _ :: members => member_of s members needle
  end.

Definition enum_construct (s : InterpreterState) (class_name : string) (class : ClassValue) (needle : Value) : Eval Value :=
  let? (s, m) := member_of s (in_key_order (class_attrs class)) needle in
  done s match m with
         | Some v => Ok v
         | None =>
             Err (Exception (ExceptionValue_new "ValueError"
                    (display (heap s) needle ++ lit " is not a valid " ++ name_text class_name)))
         end.

(** An exception is built from the instance its [__init__] configures, which starts with
    the arguments as [args]. *)
Definition exception_construct (s : InterpreterState) (class_name : string) (argv : list Value) (kwargs : Kwargs) :
    Eval Value :=
  match method_of (classes s) class_name "__init__" with
  | None => done s (Ok (VException (exception_of (heap s) class_name argv)))
  | Some init =>
      let (l, s) := allocate_instance s [("args", VTuple argv)] in
      let? (s, out) := call_with s init (VInstance class_name l) argv kwargs in
      done s (Ok (VException match out.2 with
                             | VInstance _ l => instance_to_exception (heap s) class_name l
                             | _ => exception_of (heap s) class_name argv
                             end))
  end.

(** [__init__] runs on what [__new__] returns if that is an instance of the class. *)
Definition returns_cls (s : InterpreterState) (class_name : string) (obj : Value) : bool :=
  match obj with
  | VInstance other _ =>
      String.eqb other class_name ||
      match classes s !! other with Some c => existsb (String.eqb class_name) (mro c) | None => false end
  | _ => false
  end.

Definition new_construct (s : InterpreterState) (class_name : string) (new_def : FunctionDef) (argv : list Value)
    (kwargs : Kwargs) : Eval Value :=
  let? (s, obj) := call_returned s new_def (VClass class_name) argv kwargs in
  match (if returns_cls s class_name obj then method_of (classes s) class_name "__init__" else None) with
  | Some init => let? (s, out) := call_with s init obj argv kwargs in done s (Ok out.2)
  | None => done s (Ok obj)
  end.

Definition synthesized_fields (class : ClassValue) : option (list DataclassField) :=
  if methods class !! "__init__" is Some _ then None else dataclass_fields class.

Definition plain_construct (s : InterpreterState) (class_name : string) (argv : list Value) (kwargs : Kwargs) : Eval Value :=
  let (l, s) := allocate_instance s [] in
  match classes s !! class_name ≫= synthesized_fields with
  | Some fields => dataclass_instantiate s class_name fields argv kwargs
  | None =>
      match method_of (classes s) class_name "__init__" with
      | Some init => let? (s, out) := call_with s init (VInstance class_name l) argv kwargs in done s (Ok out.2)
      | None =>
          if is_nil argv && is_nil kwargs then done s (Ok (VInstance class_name l))
          else error s (TypeError (class_name ++ "() takes no arguments"))
      end
  end.

Definition is_enum (class : ClassValue) : bool := if enum_kind class is Some _ then true else false.

Definition instantiate_default (s : InterpreterState) (class_name : string) (argv : list Value) (kwargs : Kwargs) :
    Eval Value :=
  let ordinary :=
    match method_of (classes s) class_name "__new__" with
    | Some new_def => new_construct s class_name new_def argv kwargs
    | None => plain_construct s class_name argv kwargs
    end in
  match classes s !! class_name with
  | None => ordinary
  | Some class =>
      if negb (is_nil (abstract_methods class)) then done s (Err (abstract_error class_name (abstract_methods class)))
      else
        match argv, kwargs with
        | [needle], [] =>
            if is_enum class then enum_construct s class_name class needle
            else if class_mro_is_exception class then exception_construct s class_name argv kwargs else ordinary
        | _, _ => if class_mro_is_exception class then exception_construct s class_name argv kwargs else ordinary
        end
  end.

(** [__call__] of the metaclass takes the construction over. *)
Definition instantiate_with (s : InterpreterState) (class_name : string) (argv : list Value) (kwargs : Kwargs) : Eval Value :=
  match (class ← classes s !! class_name; meta ← metaclass class; method_of (classes s) meta "__call__") with
  | Some call => call_returned s call (VClass class_name) argv kwargs
  | None => instantiate_default s class_name argv kwargs
  end.
End Construct.

(** Classes as default factories construct further instances: nothing in the source
    bounds how deep. *)
Fixpoint instantiate (levels : nat) (s : InterpreterState) (class_name : string) (argv : list Value) (kwargs : Kwargs) :
    Eval Value :=
  match levels with
  | O => (s, Panic)
  | S levels => instantiate_with (instantiate levels) s class_name argv kwargs
  end.

(** ** [super()] in class methods *)

Definition is_metaclass (s : InterpreterState) (class_name : string) : bool :=
  match classes s !! class_name with Some c => existsb (String.eqb "type") (bases c) | None => false end.

Definition class_callable (c : ClassValue) (name : string) : option FunctionDef :=
  match class_methods c !! name, static_methods c !! name with
  | Some f, _ | None, Some f => Some f
  | None, None => methods c !! name
  end.

(** [type.__new__]: the entries of the namespace become attributes of the class. *)
Definition type_new (s : InterpreterState) (argv : list Value) : Eval Value :=
  match argv !! 1%nat with
  | Some (VString t) =>
      let new_name := text_name t in
      let s := match argv !! 3%nat ≫= as_dict with
               | Some l =>
                   let entries := omap (fun e => match e.1 with KString k => Some (text_name k, e.2) | _ => None end)
                                    (dict_at (heap s) l) in
                   let target := default (ClassValue_new new_name) (classes s !! new_name) in
                   let target := fold_left (fun c e => with_class_attr c e.1 e.2) entries target in
                   register_class new_name target s
               | None => s
               end in
      done s (Ok (VClass new_name))
  | _ => error s (TypeError "type.__new__() argument 1 (name) must be str")
  end.

(** [object.__new__]: a blank instance. *)
Definition object_new (s : InterpreterState) (class_name : string) (argv : list Value) : Eval Value :=
  let target := match argv with VClass c :: _ => c | _ => class_name end in
  let (l, s) := allocate_instance s [] in
  done s (Ok (VInstance target l)).

Definition super_class_method_call (levels : nat) (s : InterpreterState) (defining_class class_name name : string)
    (argv : list Value) (kwargs : Kwargs) : Eval Value :=
  match classes s !! class_name with
  | None => error s (Runtime ("super(): class '" ++ class_name ++ "' is not registered"))
  | Some class =>
      let? (s, order) :=
        match after defining_class (mro class) with
        | Some order => done s (Ok order)
        | None => if is_metaclass s defining_class then done s (Ok []) else not_in_mro s defining_class class_name
        end in
      match first_in_mro (classes s) (fun c => class_callable c name) order with
      | Some (_, f) => call_returned s f (VClass class_name) argv kwargs
      | None =>
          if String.eqb name "__new__" then
            if is_metaclass s class_name && (4 <=? length argv)%nat then type_new s argv else object_new s class_name argv
          else if String.eqb name "__call__" then instantiate_default (instantiate levels) s class_name argv kwargs
          else if listed name ["__init_subclass__"; "__set_name__"; "__init__"] then done s (Ok VNone)
          else no_super_attr s name
      end
  end.

(** ** Attribute expressions *)

Definition usable_place (s : InterpreterState) (p : option PlaceOf) : option PlaceOf :=
  match p with
  | Some p => if is_navigable p && bool_decide (root p ∈ dom (variables s)) then Some p else None
  | None => None
  end.

(** The receiver: read off its place when it has one that can be walked, and evaluated
    otherwise. *)
Definition attribute_receiver (s : InterpreterState) (value : PyExpr) : Eval (Value * option PlaceOf) :=
  let? (s, place) := eval_place eval s value in
  let place := usable_place s place in
  let evaluated := let? (s, v) := eval s value in done s (Ok (v, None)) in
  match place with
  | None => evaluated
  | Some p =>
      match peek s (root p) (steps p) with
      | Ok v => done s (Ok (v, place))
      | Err _ => evaluated
      | Panic => (s, Panic)
      end
  end.

Definition eval_attribute (s : InterpreterState) (value : PyExpr) (attr : string) : Eval Value :=
  guarded s (fun s =>
    let? (s, _) := done s (if is_object_attr attr then Ok () else validate_attribute attr) in
    let? (s, receiver) := attribute_receiver s value in
    let? (s, obj) := resolve_proxy s receiver.1 in
    match obj with
    | VSuper defining_class class_name l => super_attribute s defining_class class_name l attr
    | _ => getattr_on_value s obj attr receiver.2
    end).
End Objects.
