(* ===== verification/Samples.v ===== *)
(** Concrete surroundings for the evaluator, at which its theorems are
    instantiated: no tools, methods that compare instances by identity, sizes of
    numbers and strings only. *)
From Stdlib Require Import ZArith Lia Ascii String SpecFloat.
From stdpp Require Import base tactics list numbers option strings gmap.
From S2P Require Import Prelude PySet Values Errors F64 Keys Classes Compare CompareThms Operators State Exceptions Op Syntax Host Displays Eval Stmts.

#[export] Existing Instance sample_external.
#[export] Existing Instance sample_order.

#[export] Instance sample_platform : Platform := {|
  address := fun l => Z.of_nat l;
  structural_eq := fun _ _ => false;
  set_elem := sample_elem;
  nesting := 50;
  powf := fun x _ => x; cos := fun x => x; sin := fun x => x; atan2 := fun x _ => x;
  strerror_erange := "Numerical result out of range";
  c_mul := fun a _ => a; c_div := fun a _ => a; c_powc := fun a _ => a; c_powi := fun a _ => a
|}.

#[export] Instance sample_formats : Formats := {|
  str_percent_format := fun _ t _ => Ok (VString t);
  bytes_percent_format := fun _ b _ => Ok (VBytes b);
  other_arith := fun _ _ _ _ => None
|}.

#[export] Instance sample_calls : Calls := {|
  call_method := fun s f self args =>
    (s, Ok (match self, args with
            | VInstance _ a, [VInstance _ b] =>
                if String.eqb (f_name f) "__lt__" then VBool (a <? b)%nat
                else if String.eqb (f_name f) "__eq__" then VBool (a =? b)%nat
                else VNotImplemented
            | _, _ => VNotImplemented
            end, self));
  generator_next := fun s _ => (s, raise "StopIteration" "");
  str_percent_format_async := fun s t _ => (s, Ok (VString t));
  bytes_percent_format_async := fun s b _ => (s, Ok (VBytes b));
  dispatch_hash := fun _ _ => Ok 0;
  dispatch_getitem := fun _ _ _ => Ok VNone;
  key_error := fun _ => ExceptionValue_new "KeyError" [];
  drain_bound := 50
|}.

#[export] Instance sample_estimates : Estimates := {|
  size := fun _ v => match v with VInt _ => 8 | VString t => 24 + Z.of_nat (length t) | _ => 0 end;
  key_size := fun k => match k with KInt _ => 8 | KBool _ => 1 | KString t => Z.of_nat (length t) | _ => 0 end;
  repr := fun _ _ => [];
  display := fun _ _ => []
|}.

#[export] Instance sample_environment : Environment := {|
  clock := fun n => n;
  show_duration := fun _ => "1s";
  show_float := fun _ => "1.5";
  discriminant := fun _ => "";
  utf8_lossy := fun b => text_name b;
  is_tool := fun _ => false;
  suite_parse := fun _ => inl "";
  function_stop := fun _ => 0;
  expr_start := fun _ => 0;
  expr_stop := fun _ => 0
|}.

#[export] Instance sample_host : Host := {|
  host_expr := fun s _ => (s, Ok (VLazyProxy 0));
  host_stmt := fun s _ => (s, Ok VNone);
  host_assign := fun s _ _ => (s, Ok ());
  host_aug_assign := fun s _ _ _ => (s, Ok VNone);
  host_resolve := fun s _ => (s, Ok (VBool false));
  host_match_attribute := fun _ _ _ => Ok VNone;
  host_context_method := fun s _ _ _ => (s, Ok VNone);
  apply_decorator := fun s _ v => (s, Ok v)
|}.

Definition fresh_state : InterpreterState := new_state default_config.

Definition sample_method (name : string) : FunctionDef :=
  mkFunctionDef name "" (mkParams [] [] [] None [] [] [] None 0) [] "" [] false None None [] [] false
    None [] name [] false.

(** A state with one class, "P", that is totally ordered by the methods given. *)
Definition sample_class (names : list string) : ClassValue :=
  mkClass "P" (list_to_map (map (fun n => (n, sample_method n)) names)) ∅ [] ["P"] ∅ ∅ ∅ None [] [] None
    false false true false [] [] None "P" false [].

Definition ordered_state (names : list string) : InterpreterState :=
  set_program {["P" := sample_class names]} ∅ ∅ fresh_state.
