(* ===== verification/MethodsThms.v ===== *)
(** Properties of the list, range and deque methods (Methods.v, SetMethods.v). *)
From Stdlib Require Import ZArith Lia Ascii String SpecFloat.
From stdpp Require Import base tactics list numbers option strings pretty gmap.
From S2P Require Import Prelude PySet Values Errors F64 Keys Arith Classes Slices SlicesThms Compare Operators State Exceptions Op Methods SetMethods Samples.

(** ** Lists of items *)

Section Items.
Context {A : Type}.
Implicit Types (xs : list A) (x : A).

Lemma insert_at_lookup i x xs : (i <= length xs)%nat -> insert_at i x xs !! i = Some x.
Proof.
  intros Hi. unfold insert_at. rewrite lookup_app_r; rewrite length_take; [|lia].
  by replace (i - i `min` length xs)%nat with 0%nat by lia.
Qed.

Lemma insert_at_delete i x xs : (i <= length xs)%nat -> delete i (insert_at i x xs) = xs.
Proof.
  intros Hi. unfold insert_at.
  rewrite <- (take_drop i xs) at 3. set (a := take i xs).
  assert (length a = i) as Ha by (subst a; rewrite length_take; lia).
  rewrite <- Ha at 1. by rewrite delete_middle.
Qed.

Lemma length_insert_at i x xs : length (insert_at i x xs) = S (length xs).
Proof. unfold insert_at. rewrite length_app, length_take. simpl. rewrite length_drop. lia. Qed.

Lemma rotate_right_length k xs : length (rotate_right k xs) = length xs.
Proof. unfold rotate_right. rewrite length_app, length_drop, length_take. lia. Qed.

Lemma rotate_right_app xs ys : rotate_right (length ys) (xs ++ ys) = ys ++ xs.
Proof.
  unfold rotate_right. rewrite length_app.
  replace (length xs + length ys - length ys)%nat with (length xs) by lia.
  by rewrite drop_app_length, take_app_length.
Qed.

(** Item [j] of the rotated list was item [j - k] (cyclically). *)
Lemma rotate_right_lookup k xs j : (k <= length xs)%nat -> (j < length xs)%nat ->
  rotate_right k xs !! j = xs !! (if (j <? k)%nat then length xs - k + j else j - k)%nat.
Proof.
  intros Hk Hj. unfold rotate_right. destruct (Nat.ltb_spec j k).
  - rewrite lookup_app_l by (rewrite length_drop; lia). by rewrite lookup_drop.
  - rewrite lookup_app_r by (rewrite length_drop; lia). rewrite length_drop, lookup_take_lt by lia. f_equal. lia.
Qed.
End Items.

(** [xs] without its first items, [cap] left. *)
Definition lastn {A} (cap : nat) (xs : list A) : list A := drop (length xs - cap) xs.

Lemma lastn_app {A} cap (xs ys : list A) : lastn cap (lastn cap xs ++ ys) = lastn cap (xs ++ ys).
Proof.
  unfold lastn. destruct (decide (length xs <= cap)%nat) as [Hl|Hl].
  - by replace (length xs - cap)%nat with 0%nat by lia.
  - rewrite !length_app, length_drop.
    replace (length xs - (length xs - cap) + length ys - cap)%nat with (length ys) by lia.
    replace (length xs + length ys - cap)%nat with (length xs - cap + length ys)%nat by lia.
    rewrite <- drop_drop, (drop_app_le xs) by lia. done.
Qed.

Section Deques.
Context `{External} `{!ExternalOrder} `{!Platform} `{!Formats} `{!Trees} `{!Calls} `{!Estimates}.
Implicit Types (h : Heap) (items : list Value).

Definition bytes (h : Heap) (vs : list Value) : Z := foldr (fun v n => size h v + n) 0 vs.

Lemma bytes_app h xs ys : bytes h (xs ++ ys) = bytes h xs + bytes h ys.
Proof. induction xs; simpl; lia. Qed.

Lemma bytes_nonneg h vs : (forall v, 0 <= size h v) -> 0 <= bytes h vs.
Proof. intros Hs. induction vs as [|v vs IH]; simpl; [lia|]. specialize (Hs v). lia. Qed.

Lemma to_isize_id n : n <= i64_max -> to_isize n = n.
Proof. unfold to_isize. lia. Qed.

Lemma trim_front_lastn h cap items delta : 0 <= cap ->
  (trim_front h cap items delta).1 = lastn (Z.to_nat cap) items.
Proof.
  intros Hc. revert delta. induction items as [|x xs IH]; intros delta; [by unfold lastn; rewrite drop_nil|].
  cbn [trim_front]. unfold lastn. destruct (Z.gtb_spec (Z.of_nat (length (x :: xs))) cap) as [Hg|Hg].
  - rewrite IH. unfold lastn. cbn [length] in *.
    by replace (S (length xs) - Z.to_nat cap)%nat with (S (length xs - Z.to_nat cap)) by lia.
  - by replace (length (x :: xs) - Z.to_nat cap)%nat with 0%nat by lia.
Qed.

Lemma trim_front_bytes h cap items delta : (forall v, 0 <= size h v) -> bytes h items <= i64_max ->
  i64_min + bytes h items <= delta <= i64_max ->
  (trim_front h cap items delta).2 = delta - bytes h items + bytes h (trim_front h cap items delta).1.
Proof.
  intros Hs. revert delta. induction items as [|x xs IH]; intros delta Hb Hd; [simpl; lia|].
  cbn [trim_front]. destruct (_ >? cap); [|simpl; lia].
  pose proof (bytes_nonneg h xs Hs). specialize (Hs x). cbn [bytes foldr] in Hb, Hd. fold (bytes h xs) in Hb, Hd.
  rewrite to_isize_id by lia. unfold isize_sub. rewrite IH by lia. cbn [bytes foldr]. fold (bytes h xs). lia.
Qed.

(** [f] is the push without the account. *)
Definition back_pushed (maxlen : option Z) items v : list Value :=
  match maxlen with Some cap => lastn (Z.to_nat cap) (items ++ [v]) | None => items ++ [v] end.
Definition front_pushed (maxlen : option Z) items v : list Value :=
  match maxlen with Some cap => take (Z.to_nat cap) (v :: items) | None => v :: items end.

Definition bounded (maxlen : option Z) items : Prop :=
  match maxlen with Some cap => Z.of_nat (length items) <= cap | None => True end.

Definition accounted (h : Heap) (push : list Value -> Value -> Z -> list Value * Z)
    (f : list Value -> Value -> list Value) : Prop :=
  forall items v delta, bytes h items + size h v <= i64_max ->
    i64_min + (bytes h items + size h v) <= delta <= i64_max ->
    push items v delta = (f items v, delta - (bytes h items + size h v) + bytes h (f items v)).

Section Account.
Context (h : Heap) (Hs : forall v, 0 <= size h v).

Lemma bytes_lastn cap xs : bytes h (lastn cap xs) <= bytes h xs.
Proof.
  unfold lastn. rewrite <- (take_drop (length xs - cap) xs) at 3. rewrite bytes_app.
  pose proof (bytes_nonneg h (take (length xs - cap) xs) Hs). lia.
Qed.

Lemma bytes_take cap xs : bytes h (take cap xs) <= bytes h xs.
Proof.
  rewrite <- (take_drop cap xs) at 2. rewrite bytes_app. pose proof (bytes_nonneg h (drop cap xs) Hs). lia.
Qed.

Lemma bytes_rev xs : bytes h (rev xs) = bytes h xs.
Proof. induction xs as [|x xs IH]; [done|]. simpl. rewrite bytes_app, IH. simpl. lia. Qed.

Lemma rev_lastn cap (xs : list Value) : rev (lastn cap xs) = take cap (rev xs).
Proof.
  unfold lastn. rewrite <- (take_drop (length xs - cap) xs) at 3. rewrite rev_app_distr.
  destruct (decide (length xs <= cap)%nat) as [Hl|Hl].
  - replace (length xs - cap)%nat with 0%nat by lia. cbn [take drop]. rewrite app_nil_r.
    rewrite take_ge; [done|]. by rewrite length_rev.
  - rewrite take_app_le by (rewrite length_rev, length_drop; lia).
    rewrite take_ge; [done|]. rewrite length_rev, length_drop. lia.
Qed.

Lemma push_back_accounted maxlen : match maxlen with Some cap => 0 <= cap | None => True end ->
  accounted h (push_back h maxlen) (back_pushed maxlen).
Proof.
  intros Hc items v delta Hb Hd. unfold push_back, back_pushed.
  assert (bytes h (items ++ [v]) = bytes h items + size h v) as Hv by (rewrite bytes_app; simpl; lia).
  destruct maxlen as [cap|]; [|f_equal; lia].
  rewrite (surjective_pairing (trim_front _ _ _ _)), trim_front_bytes, trim_front_lastn by (done || lia).
  f_equal. lia.
Qed.

Lemma push_front_accounted maxlen : match maxlen with Some cap => 0 <= cap | None => True end ->
  accounted h (push_front h maxlen) (front_pushed maxlen).
Proof.
  intros Hc items v delta Hb Hd. unfold push_front.
  rewrite push_back_accounted by (done || rewrite bytes_rev; done). rewrite bytes_rev.
  unfold back_pushed, front_pushed. destruct maxlen as [cap|].
  - rewrite <- (bytes_rev (lastn _ _)), rev_lastn, rev_app_distr, rev_involutive. done.
  - rewrite <- (bytes_rev (rev items ++ [v])), rev_app_distr, rev_involutive. done.
Qed.

Lemma push_all_accounted push f new items base : accounted h push f ->
  (forall items v, bytes h (f items v) <= bytes h items + size h v) ->
  bytes h items + bytes h new <= i64_max -> 0 <= base <= i64_max ->
  push_all push h items new (bytes h items - base) = (foldl f items new, bytes h (foldl f items new) - base).
Proof.
  intros Hp Hf Hb Hbase. revert items Hb. induction new as [|v new IH]; intros items Hb; [done|].
  cbn [push_all foldl]. cbn [bytes foldr] in Hb. fold (bytes h new) in Hb.
  pose proof (bytes_nonneg h items Hs). pose proof (bytes_nonneg h new Hs). pose proof (Hs v).
  rewrite to_isize_id by lia. unfold i64_min, i64_max in *.
  rewrite Hp by (unfold i64_min, i64_max in *; lia).
  replace (_ - (bytes h items + size h v) + bytes h (f items v)) with (bytes h (f items v) - base) by lia.
  apply IH. specialize (Hf items v). lia.
Qed.
End Account.

Lemma foldl_back_pushed maxlen items new : bounded maxlen items ->
  foldl (back_pushed maxlen) items new =
    match maxlen with Some cap => lastn (Z.to_nat cap) (items ++ new) | None => items ++ new end.
Proof.
  destruct maxlen as [cap|]; simpl.
  - revert items. induction new as [|v new IH]; intros items Hl; cbn [foldl].
    + rewrite app_nil_r. unfold lastn. by replace (length items - Z.to_nat cap)%nat with 0%nat by lia.
    + rewrite IH by (unfold back_pushed, lastn; rewrite length_drop, length_app; simpl; lia).
      unfold back_pushed. rewrite lastn_app. by rewrite <- app_assoc.
  - intros _. revert items. induction new as [|v new IH]; intros items; cbn [foldl]; [by rewrite app_nil_r|].
    rewrite IH. simpl. by rewrite <- app_assoc.
Qed.

Lemma foldl_front_pushed maxlen items new : bounded maxlen items ->
  foldl (front_pushed maxlen) items new =
    match maxlen with Some cap => take (Z.to_nat cap) (rev new ++ items) | None => rev new ++ items end.
Proof.
  destruct maxlen as [cap|]; simpl.
  - revert items. induction new as [|v new IH]; intros items Hl; cbn [foldl]; [simpl; rewrite take_ge; [done|lia]|].
    rewrite IH by (unfold front_pushed; rewrite length_take; lia).
    simpl. rewrite <- app_assoc. simpl. unfold front_pushed.
    rewrite !take_app. f_equal. rewrite take_take. f_equal. lia.
  - intros _. revert items. induction new as [|v new IH]; intros items; cbn [foldl]; [done|].
    rewrite IH. simpl. by rewrite <- app_assoc.
Qed.
End Deques.

Section Theorems.
Context `{External} `{!ExternalOrder} `{!Platform} `{!Formats} `{!Trees} `{!Calls} `{!Estimates}.
Implicit Types (s : InterpreterState) (items : list Value).

(** [extend] and [extendleft] of a deque. A bounded deque keeps the last
    (first) [maxlen] items, an unbounded one all of them, and the reported
    change of size is exactly the difference of the items' bytes. *)
Theorem deque_extend_bounded s items maxlen arg new s'
    (Hnew : in_heap s (dispatch_iter structural_eq set_elem (heap s) arg) = (s', Ok new))
    (Hs : forall v, 0 <= size (heap s') v) (Hm : bounded maxlen items)
    (Hb : bytes (heap s') (items ++ new) <= i64_max) :
  let extends method kept :=
    dispatch_deque_method s items maxlen method [arg] [] =
      (s', kept, Ok (mkOutcome VNone (bytes (heap s') kept - bytes (heap s') items))) in
  let keep cut all := match maxlen with Some cap => cut (Z.to_nat cap) all | None => all end in
  extends "extend"%string (keep lastn (items ++ new)) /\
  extends "extendleft"%string (keep take (rev new ++ items)).
Proof.
  intros extends keep. rewrite bytes_app in Hb.
  assert (match maxlen with Some cap => 0 <= cap | None => True end) as Hc
    by (destruct maxlen; [unfold bounded in Hm; lia|done]).
  pose proof (bytes_nonneg (heap s') items Hs). pose proof (bytes_nonneg (heap s') new Hs).
  assert (forall push f, accounted (heap s') push f ->
    (forall items v, bytes (heap s') (f items v) <= bytes (heap s') items + size (heap s') v) ->
    push_all push (heap s') items new 0 =
      (foldl f items new, bytes (heap s') (foldl f items new) - bytes (heap s') items)) as Hall.
  { intros push f Hp Hf.
    pose proof (push_all_accounted (heap s') Hs push f new items (bytes (heap s') items) Hp Hf) as E.
    rewrite Z.sub_diag in E. apply E; lia. }
  unfold extends, dispatch_deque_method. cbn -[in_heap push_all push_back push_front].
  rewrite Hnew.
  rewrite (Hall _ (back_pushed maxlen)), (Hall _ (front_pushed maxlen)), foldl_back_pushed, foldl_front_pushed;
    try done.
  - by apply push_front_accounted.
  - intros vs v. unfold front_pushed. destruct maxlen; [rewrite bytes_take by done|]; simpl; lia.
  - by apply push_back_accounted.
  - intros vs v. unfold back_pushed. destruct maxlen; [rewrite bytes_lastn by done|]; rewrite bytes_app; simpl; lia.
Qed.

Lemma rotate_lookup n items j : (j < length items)%nat ->
  rotate n items !! j = items !! Z.to_nat ((Z.of_nat j - n) mod Z.of_nat (length items)).
Proof.
  intros Hj. unfold rotate. destruct items as [|x xs] eqn:E; [simpl in Hj; lia|]. rewrite <- E in *.
  clear E x xs. set (len := Z.of_nat (length items)).
  pose proof (Z.mod_pos_bound n len ltac:(lia)) as Hn.
  rewrite rotate_right_lookup by lia. f_equal. rewrite Zminus_mod, (Z.mod_small (Z.of_nat j)) by lia.
  set (m := n mod len) in *. destruct (Nat.ltb_spec j (Z.to_nat m)).
  - rewrite <- (Z.mod_unique_pos (Z.of_nat j - m) len (-1) (len - m + Z.of_nat j)); lia.
  - rewrite Z.mod_small by lia. lia.
Qed.

Lemma rotate_length n items : length (rotate n items) = length items.
Proof. unfold rotate. destruct items; [done|]. apply rotate_right_length. Qed.

(** Rotating a deque. [rotate(n)] moves every item [n] places to the right,
    cyclically, for every integer; so rotations add up, and [rotate(n)] followed
    by [rotate(-n)] gives the deque back. *)
Theorem deque_rotations s items maxlen (a b : Z) :
  let rotated n items := dispatch_deque_method s items maxlen "rotate" [VInt n] [] in
  (exists items', rotated a items = (s, items', Ok (pure_outcome VNone)) /\
    (forall j, (j < length items)%nat ->
       items' !! j = items !! Z.to_nat ((Z.of_nat j - a) mod Z.of_nat (length items))) /\
    rotated b items' = rotated (a + b) items) /\
  rotated (a - a) items = (s, items, Ok (pure_outcome VNone)).
Proof.
  intros rotated.
  assert (forall n items, rotated n items = (s, rotate n items, Ok (pure_outcome VNone))) as Hr by done.
  split; [exists (rotate a items); split_and!|]; [by rewrite Hr|intros; by apply rotate_lookup| |];
    rewrite !Hr; do 2 f_equal.
  - apply list_eq_same_length with (length items); [by rewrite rotate_length|by rewrite !rotate_length|].
    intros j x y Hj. pose proof (Z.mod_pos_bound (Z.of_nat j - b) (Z.of_nat (length items)) ltac:(lia)).
    rewrite (rotate_lookup b), rotate_length, (rotate_lookup a), (rotate_lookup (a + b))
      by (rewrite ?rotate_length; lia).
    rewrite Z2Nat.id, Zminus_mod_idemp_l by lia.
    replace (Z.of_nat j - b - a) with (Z.of_nat j - (a + b)) by lia. congruence.
  - apply list_eq_same_length with (length items); [done|by rewrite rotate_length|].
    intros j x y Hj. rewrite rotate_lookup by lia.
    replace (Z.of_nat j - (a - a)) with (Z.of_nat j) by lia.
    rewrite Z.mod_small, Nat2Z.id by lia. congruence.
Qed.

Lemma list_pop_at s l i v : list_at (heap s) l !! i = Some v ->
  list_pop s l [VInt (Z.of_nat i)] =
    (store_list l (delete i (list_at (heap s) l)) s, Ok (shrank v (size (heap s) v))).
Proof.
  intros Hi. unfold list_pop. pose proof (lookup_lt_Some _ _ _ Hi) as Hl.
  destruct (list_at (heap s) l) as [|x xs] eqn:E; [done|]. rewrite <- E in *. clear E.
  cbn -[pop_position]. unfold pop_position.
  destruct (Z.ltb_spec (Z.of_nat i) 0); [lia|].
  destruct (Z.ltb_spec (Z.of_nat i) 0), (Z.geb_spec (Z.of_nat i) (Z.of_nat (length (list_at (heap s) l)))); try lia.
  cbn. by rewrite Nat2Z.id, Hi.
Qed.

(** [insert] and [pop] of a list. An insertion before index [idx] (clamped
    into the list, negative ones counted from its end) puts the item there, and
    popping that position returns the item and gives the list back; both report
    the same number of bytes. *)
Theorem list_insert_then_pop s l idx v (Hl : Z.of_nat (length (list_at (heap s) l)) < i64_max) :
  let items := list_at (heap s) l in
  let len := Z.of_nat (length items) in
  let i := Z.to_nat (Z.max 0 (Z.min len (if idx <? 0 then idx + len else idx))) in
  exists s1, list_methods s l "insert" [VInt idx; v] [] = (s1, Ok (grew VNone (size (heap s) v))) /\
    list_at (heap s1) l = take i items ++ v :: drop i items /\
    exists s2, list_methods s1 l "pop" [VInt (Z.of_nat i)] [] = (s2, Ok (shrank v (size (heap s1) v))) /\
      list_at (heap s2) l = items.
Proof.
  intros items len i.
  assert (insert_position idx (length items) = i) as Hi.
  { unfold insert_position, i. destruct (Z.ltb_spec idx 0); lia. }
  assert (i <= length items)%nat as Hle by lia.
  eexists. split; [reflexivity|]. cbn -[insert_at insert_position]. fold items. rewrite Hi.
  unfold list_at at 1. cbn -[insert_at insert_position]. rewrite lookup_insert_eq.
  cbn -[insert_at insert_position]. split; [done|].
  eexists. split.
  - change (list_methods ?s ?l "pop" ?args []) with (list_pop s l args).
    apply list_pop_at. unfold list_at. cbn -[insert_at]. rewrite lookup_insert_eq. by apply insert_at_lookup.
  - unfold list_at at 1. cbn -[insert_at]. rewrite lookup_insert_eq. cbn -[insert_at]. unfold list_at. cbn -[insert_at].
    rewrite lookup_insert_eq. by apply insert_at_delete.
Qed.

Lemma range_position_ok start stop step n : step <> 0 ->
  i64_min < n - start <= i64_max ->
  exists o, range_position start stop step (VInt n) = Some o /\
    match o with
    | Some q => on_slice start stop step n /\ n = start + q * step
    | None => ~ on_slice start stop step n
    end.
Proof.
  intros Hs Hd. unfold range_position. destruct (Z.eqb_spec step 0); [done|].
  rewrite swrap64_id by lia. set (b := if step >? 0 then _ else _ : bool).
  assert (b = true <-> if step >? 0 then start <= n < stop else stop < n <= start) as Hb
    by (unfold b; destruct (step >? 0); lia).
  destruct b; cbn [negb].
  2:{ eexists. split; [done|]. intros [Hin _]. apply Hb in Hin. done. }
  destruct (Z.eqb_spec (n - start) i64_min); [lia|]. cbn [andb]. eexists. split; [done|].
  destruct (Z.eqb_spec (Z.rem (n - start) step) 0) as [Hr|Hr].
  - pose proof (Z.quot_rem (n - start) step Hs). split; [|lia].
    split; [by apply Hb|]. by apply Z.rem_divide.
  - intros [_ Hdiv]. apply Hr. by apply Z.rem_divide.
Qed.

(** [index] and [count] of a range. Where the distance of the start to the
    item fits 64 bits, [index] gives the position of the item among the members
    of the range and raises [ValueError] for an integer that is no member, and
    [count] says which of the two it is. *)
Theorem range_index_is_position s start stop step n
    (Hs : step <> 0) (Hd : in_i64 (n - start) = true) (Hmin : n - start <> i64_min) :
  let members := progression start step (steps start stop step) in
  let r := VRange start stop step in
  (forall i, members !! i = Some n ->
     range_methods s start stop step "index" [VInt n] [] = (s, Ok (VInt (Z.of_nat i))) /\
     range_methods s start stop step "count" [VInt n] [] = (s, Ok (VInt 1))) /\
  (n ∉ members ->
     (exists message, range_methods s start stop step "index" [VInt n] [] = (s, fail (ValueError message))) /\
     range_methods s start stop step "count" [VInt n] [] = (s, Ok (VInt 0))).
Proof.
  intros members r. apply in_i64_spec in Hd.
  destruct (range_position_ok start stop step n) as (o & Hp & Ho); [done|lia|].
  assert (forall m, range_methods s start stop step m [VInt n] [] =
    match m with
    | "index" => (s, match o with
                     | Some i => Ok (VInt i)
                     | None => fail (ValueError (text_name (display (heap s) (VInt n)) ++ " is not in range")) end)
    | "count" => (s, Ok (VInt (if o is Some _ then 1 else 0)))
    | _ => (s, no_attribute "range" m)
    end%string) as Hr.
  { intros m. unfold range_methods. cbn -[range_position]. by rewrite !Hp. }
  rewrite !Hr. split.
  - intros i Hi. pose proof Hi as Hk. apply progression_lookup in Hk as [_ Hk].
    apply list_elem_of_lookup_2, elem_of_progression in Hi; [|done].
    destruct o as [q|]; [|done]. destruct Ho as [_ Ho]. assert (q = Z.of_nat i) as -> by nia. done.
  - intros Hn. unfold members in Hn. rewrite elem_of_progression in Hn by done.
    destruct o as [q|]; [by destruct Ho|]. split; [by eexists|done].
Qed.
End Theorems.

(** ** Witnesses *)

Lemma deque_extend_bounded_witness :
  let extends method := dispatch_deque_method fresh_state [VInt 1; VInt 2] (Some 3) method
    [VTuple [VInt 3; VString [97]]] [] in
  extends "extend"%string = (fresh_state, [VInt 2; VInt 3; VString [97]], Ok (mkOutcome VNone 25)) /\
  extends "extendleft"%string = (fresh_state, [VString [97]; VInt 3; VInt 1], Ok (mkOutcome VNone 25)).
Proof.
  destruct (deque_extend_bounded fresh_state [VInt 1; VInt 2] (Some 3) (VTuple [VInt 3; VString [97]])
    [VInt 3; VString [97]] fresh_state) as [Hr Hl]; [reflexivity|intros []; cbn; lia|cbn; lia|cbn; unfold i64_max; lia|].
  split; [rewrite Hr|rewrite Hl]; reflexivity.
Defined.

Lemma list_insert_then_pop_witness :
  let s := store_list 0 [VInt 1; VInt 2] fresh_state in
  exists s1, list_methods s 0 "insert" [VInt (-1); VNone] [] = (s1, Ok (grew VNone 0)) /\
    list_at (heap s1) 0 = [VInt 1; VNone; VInt 2] /\
    exists s2, list_methods s1 0 "pop" [VInt 1] [] = (s2, Ok (shrank VNone 0)) /\
      list_at (heap s2) 0 = [VInt 1; VInt 2].
Proof.
  intros s. assert (list_at (heap s) 0 = [VInt 1; VInt 2]) as Hl
    by (unfold list_at; cbn; by rewrite lookup_insert_eq).
  assert (Z.of_nat (length (list_at (heap s) 0)) < i64_max) as Hb by (rewrite Hl; reflexivity).
  pose proof (list_insert_then_pop s 0 (-1) VNone Hb) as E. rewrite Hl in E. exact E.
Defined.

Lemma range_index_is_position_witness :
  range_methods fresh_state 10 0 (-3) "index" [VInt 4] [] = (fresh_state, Ok (VInt 2)) /\
  range_methods fresh_state 10 0 (-3) "count" [VInt 5] [] = (fresh_state, Ok (VInt 0)).
Proof.
  split.
  - destruct (range_index_is_position fresh_state 10 0 (-3) 4) as [Hin _]; [lia|reflexivity|unfold i64_min; lia|].
    by destruct (Hin 2%nat) as [-> _].
  - destruct (range_index_is_position fresh_state 10 0 (-3) 5) as [_ Hout]; [lia|reflexivity|unfold i64_min; lia|].
    destruct Hout as [_ ->]; [|done]. apply (bool_decide_unpack _). vm_compute. exact I.
Defined.
