(* ===== verification/MapMethodsThms.v ===== *)
(** Properties of the dictionary and counter methods (MapMethods.v): what a
    merge leaves under every key and what it reports to the memory account, the
    entry an ordered dictionary pops, and counts. *)
From Stdlib Require Import ZArith Lia Ascii String SpecFloat Sorting.Sorted Sorting.Permutation.
From stdpp Require Import base tactics list numbers option strings pretty gmap.
From S2P Require Import Prelude PySet Values Errors F64 Keys Arith Classes Slices Compare Operators State Exceptions Op Methods MapMethods Samples.

Section Entries.
Context `{External} `{!ExternalOrder} `{!Platform} `{!Formats} `{!Trees} `{!Calls} `{!Estimates}.
Abbreviation key_eq := (key_eqb structural_eq).
Context (P : ValueKey -> Prop) `{!KeyLaws key_eq P}.
Implicit Types (es new : list (ValueKey * Value)) (h : Heap) (k : ValueKey) (v : Value).

Abbreviation keys_ok := (Forall (fun e : ValueKey * Value => P e.1)).
Abbreviation get := (im_get key_eq).

(** The bytes of the entries, unbounded. *)
Definition entry_bytes h es : Z := foldr (fun kv n => entry_size h kv + n) 0 es.

Lemma entry_bytes_app h xs ys : entry_bytes h (xs ++ ys) = entry_bytes h xs + entry_bytes h ys.
Proof. induction xs; simpl; lia. Qed.

Lemma im_insert_bytes h es k v : entry_bytes h (im_insert key_eq es k v) =
  entry_bytes h es + match get es k with None => key_size k + size h v | Some old => size h v - size h old end.
Proof.
  induction es as [|[k' v'] es IH]; simpl; [unfold entry_size; simpl; lia|].
  destruct (key_eq k' k); simpl; unfold entry_size in *; simpl in *; [lia|]. rewrite IH. lia.
Qed.

Lemma insert_entries_get h es new d k : keys_ok es -> keys_ok new -> P k ->
  get (insert_entries h es new d).1 k = match get (rev new) k with Some v => Some v | None => get es k end.
Proof.
  intros Hes Hnew Hk. revert es d Hes. induction Hnew as [|[k0 v0] new Hk0 Hnew IH]; intros es d Hes; [done|].
  cbn [insert_entries insert_entry]. rewrite IH by (by apply im_insert_keys). simpl.
  assert (forall xs, get (xs ++ [(k0, v0)]) k =
    match get xs k with Some v => Some v | None => if key_eq k0 k then Some v0 else None end) as ->.
  { induction xs as [|[k1 v1] xs IHx]; simpl; [done|]. by destruct (key_eq k1 k). }
  destruct (get (rev new) k); [done|]. rewrite (im_get_insert key_eq P) by done. by destruct (key_eq k0 k).
Qed.

Lemma im_insert_prefix es k v : exists added, (im_insert key_eq es k v).*1 = es.*1 ++ added.
Proof.
  induction es as [|[k' v'] es [added IH]]; simpl; [by exists [k]|].
  destruct (key_eq k' k); [exists []; by rewrite app_nil_r|]. exists added. cbn. f_equal. exact IH.
Qed.

Lemma insert_entries_prefix h es new d : exists added, (insert_entries h es new d).1.*1 = es.*1 ++ added.
Proof.
  revert es d. induction new as [|[k v] new IH]; intros es d; [exists []; by rewrite app_nil_r|].
  cbn [insert_entries insert_entry]. destruct (im_insert_prefix es k v) as [a Ha].
  edestruct IH as [b ->]. rewrite Ha. exists (a ++ b). by rewrite app_assoc.
Qed.

Section Account.
Context (h : Heap) (Hv : forall v, 0 <= size h v) (Hk : forall k, 0 <= key_size k).

Lemma entry_bytes_nonneg es : 0 <= entry_bytes h es.
Proof.
  induction es as [|[k v] es IH]; simpl; [lia|]. unfold entry_size. simpl. specialize (Hv v). specialize (Hk k). lia.
Qed.

Lemma get_bytes es k v : get es k = Some v -> size h v <= entry_bytes h es.
Proof.
  induction es as [|[k' v'] es IH]; simpl; [done|]. unfold entry_size. simpl.
  pose proof (entry_bytes_nonneg es). pose proof (Hv v'). pose proof (Hk k').
  destruct (key_eq k' k); [intros [= ->]; lia|]. intros E. specialize (IH E). lia.
Qed.

Lemma insert_entries_accounted new es base :
  entry_bytes h es + entry_bytes h new <= i64_max -> 0 <= base <= i64_max ->
  (insert_entries h es new (entry_bytes h es - base)).2 =
    entry_bytes h (insert_entries h es new (entry_bytes h es - base)).1 - base.
Proof.
  intros Hb Hbase. revert es Hb. induction new as [|[k v] new IH]; intros es Hb; [done|].
  cbn [insert_entries insert_entry]. simpl in Hb. unfold entry_size in Hb. simpl in Hb. 
  pose proof (entry_bytes_nonneg es). pose proof (entry_bytes_nonneg new). pose proof (Hv v). pose proof (Hk k).
  pose proof (im_insert_bytes h es k v) as Hi.
  pose proof (entry_bytes_nonneg (im_insert key_eq es k v)).
  assert (isize_add (entry_bytes h es - base)
    match get es k with None => to_isize (key_size k + size h v) | Some old => size_delta (size h old) (size h v) end =
    entry_bytes h (im_insert key_eq es k v) - base) as ->.
  { rewrite Hi. unfold isize_add, size_delta, to_isize. unfold i64_min, i64_max in *.
    destruct (get es k) as [old|] eqn:E; [pose proof (get_bytes _ _ _ E); pose proof (Hv old)|]; lia. }
  apply IH. rewrite Hi. destruct (get es k) as [old|]; [pose proof (Hv old)|]; lia.
Qed.
End Account.
(** Removing an entry. *)
Lemma im_remove_split es k v : get es k = Some v ->
  exists k' a b, es = a ++ (k', v) :: b /\ key_eq k' k = true /\
    Forall (fun e => key_eq e.1 k = false) a /\ im_remove es k = Some (k', v, a ++ b).
Proof.
  induction es as [|[k0 v0] es IH]; [done|]. simpl. destruct (key_eq k0 k) eqn:E.
  - intros [= ->]. by exists k0, [], es.
  - intros Hg. destruct (IH Hg) as (k' & a & b & -> & Hk & Ha & ->). exists k', ((k0, v0) :: a), b. by repeat constructor.
Qed.

Lemma get_app es es' k : get (es ++ es') k = match get es k with Some v => Some v | None => get es' k end.
Proof. induction es as [|[k0 v0] es IH]; simpl; [done|]. by destruct (key_eq k0 k). Qed.

Lemma get_none es k : Forall (fun e => key_eq e.1 k = false) es -> get es k = None.
Proof. induction 1 as [|[k0 v0] es Hk0 _ IH]; simpl in *; [done|]. by rewrite Hk0. Qed.

Lemma key_apart k' k x : P k' -> P k -> P x -> key_eq k' k = true -> key_eq k' x = false -> key_eq x k = false.
Proof.
  intros Hk' Hk Hx E N. destruct (key_eq x k) eqn:F; [|done]. rewrite <- N. symmetry.
  apply (key_trans (P := P) k' k x); try done. by apply (key_sym (P := P)).
Qed.

(** Where keys are distinct, an entry's key is not among the others. *)
Lemma get_removed (a b : list (ValueKey * Value)) k' v k : keys_ok (a ++ (k', v) :: b) -> distinct_keys key_eq (a ++ (k', v) :: b) -> P k ->
  get (a ++ b) k = if key_eq k' k then None else get (a ++ (k', v) :: b) k.
Proof.
  intros Hok Hd Hk. rewrite !get_app. simpl. destruct (key_eq k' k) eqn:E; [|done].
  apply Forall_app in Hok as [Ha Hb]. apply Forall_cons in Hb as [Hk' Hb]. simpl in Hk'.
  assert (Forall (fun e => key_eq e.1 k = false) a /\ Forall (fun e => key_eq e.1 k = false) b) as [Na Nb].
  { induction a as [|e a IH]; simpl in Hd; inversion_clear Hd as [|? ? He Hd'].
    - split; [done|]. rewrite List.Forall_forall in He, Hb |- *. intros x Hx.
      apply (key_apart k'); try done; [by apply Hb|by apply He].
    - apply Forall_cons in Ha as [He' Ha]. destruct (IH Ha Hd') as [Na Nb]. split; [constructor|]; try done.
      apply Forall_app in He as [_ He]. apply Forall_cons in He as [He _]. simpl in He.
      apply (key_apart k'); try done. by rewrite (key_sym_eq key_eq P). }
  by rewrite !get_none by done.
Qed.

(** ** Counts *)

Abbreviation count := (Keys.count key_eq).

Lemma count_insert es k z k' : keys_ok es -> P k -> P k' ->
  count (im_insert key_eq es k (VInt z)) k' = if key_eq k k' then z else count es k'.
Proof. intros. unfold Keys.count. rewrite (im_get_insert key_eq P) by done. by destruct (key_eq k k'). Qed.

Lemma count_key_value h es k op n : (count_key h es k op n).1 =
  im_insert key_eq es k (VInt (swrap64 (op (count es k) n))).
Proof. unfold count_key, Keys.count. simpl. by destruct (get es k). Qed.

Lemma count_entries_keys h op new es d : keys_ok es -> keys_ok new -> keys_ok (count_entries h es op new d).1.
Proof.
  intros Hes Hnew. revert es d Hes. induction Hnew as [|[k v] new Hk Hnew IH]; intros es d Hes; [done|].
  cbn [count_entries]. rewrite (surjective_pairing (count_key _ _ _ _ _)). apply IH.
  rewrite count_key_value. by apply im_insert_keys.
Qed.

(** Where the keys of [new] are distinct, each count changes once. *)
Lemma count_entries_count h op new es d k : keys_ok es -> keys_ok new -> distinct_keys key_eq new -> P k ->
  count (count_entries h es op new d).1 k =
    match get new k with Some v => swrap64 (op (count es k) (counter_int v)) | None => count es k end.
Proof.
  intros Hes Hnew Hd Hk. revert es d Hes. induction Hnew as [|[k0 v0] new Hk0 Hnew IH]; intros es d Hes; [done|].
  inversion_clear Hd as [|? ? Hne Hd']. specialize (IH Hd'). simpl in Hk0.
  cbn [count_entries]. rewrite (surjective_pairing (count_key _ _ _ _ _)), count_key_value.
  rewrite IH by (by apply im_insert_keys). rewrite count_insert by done. simpl.
  destruct (key_eq k0 k) eqn:E.
  - assert (get new k = None) as ->.
    { apply get_none, List.Forall_forall. intros x Hx. rewrite List.Forall_forall in Hne, Hnew.
      apply (key_apart k0); try done; [by apply Hnew|by apply Hne]. }
    unfold Keys.count. by rewrite (im_get_congr key_eq P es k0 k).
  - done.
Qed.
End Entries.

Lemma swrap64_add_sub c n : in_i64 c = true -> swrap64 (swrap64 (c + n) - n) = c.
Proof.
  intros Hc%in_i64_spec. unfold swrap64, i64_min, i64_max in *.
  replace ((c + n + 2 ^ 63) mod 2 ^ 64 - 2 ^ 63 - n + 2 ^ 63) with ((c + n + 2 ^ 63) mod 2 ^ 64 - n) by lia.
  rewrite Zminus_mod_idemp_l. replace (c + n + 2 ^ 63 - n) with (c + 2 ^ 63) by lia.
  rewrite Z.mod_small; lia.
Qed.

(** ** Sorting by count *)

Definition by_count `{External} (a b : ValueKey * Z) : Prop := b.2 <= a.2.

Lemma insert_count_perm `{External} e es : Permutation (e :: es) (insert_count e es).
Proof.
  induction es as [|e' es IH]; simpl; [done|]. destruct (_ <=? _); [done|].
  rewrite perm_swap. by constructor.
Qed.

Lemma insert_count_sorted `{External} e es : StronglySorted by_count es -> StronglySorted by_count (insert_count e es).
Proof.
  induction 1 as [|e' es Hs IH Hall]; simpl; [by repeat constructor|]. destruct (Z.leb_spec e'.2 e.2).
  - constructor; [by constructor|]. constructor; [done|]. eapply List.Forall_impl; [|exact Hall].
    unfold by_count. intros. lia.
  - constructor; [done|]. apply (Permutation_Forall (insert_count_perm e es)). constructor; [unfold by_count; lia|done].
Qed.

(** Entries of one count keep their order. *)
Lemma insert_count_stable `{External} (c : Z) e es : StronglySorted by_count es ->
  List.filter (fun x => x.2 =? c) (insert_count e es) = List.filter (fun x => x.2 =? c) (e :: es).
Proof.
  induction 1 as [|e' es Hs IH Hall]; simpl; [done|]. destruct (Z.leb_spec e'.2 e.2); [done|].
  simpl in *. rewrite IH. destruct (Z.eqb_spec e.2 c), (Z.eqb_spec e'.2 c); (done || lia).
Qed.

Lemma sort_counts_spec `{External} es :
  Permutation es (sort_counts es) /\ StronglySorted by_count (sort_counts es) /\
  forall c, List.filter (fun x => x.2 =? c) (sort_counts es) = List.filter (fun x => x.2 =? c) es.
Proof.
  induction es as [|e es (Hp & Hs & Hf)]; [by repeat constructor|]. cbn [sort_counts foldr]. fold (sort_counts es).
  split_and!.
  - rewrite <- insert_count_perm. by constructor.
  - by apply insert_count_sorted.
  - intros c. rewrite insert_count_stable by done. simpl. by rewrite Hf.
Qed.

Section Theorems.
Context `{External} `{!ExternalOrder} `{!Platform} `{!Formats} `{!Trees} `{!Calls} `{!Estimates}.
Abbreviation key_eq := (key_eqb structural_eq).
Context (P : ValueKey -> Prop) `{!KeyLaws key_eq P}.
Implicit Types (s : InterpreterState) (es : list (ValueKey * Value)) (k : ValueKey) (v : Value).
Abbreviation keys_ok := (Forall (fun e : ValueKey * Value => P e.1)).
Abbreviation get := (im_get key_eq).

Lemma dict_at_store l es h : dict_at (store_dict l es h) l = es.
Proof. unfold dict_at, store_dict. cbn. by rewrite lookup_insert_eq. Qed.

Lemma snapshot_reads h l l2 : is_Some (dicts h !! l) ->
  exists l3 h', snapshot_dicts h l [VDict l2] = ([VDict l3], h') /\
    l3 <> l /\ dict_at h' l3 = dict_at h l2 /\ dict_at h' l = dict_at h l.
Proof.
  intros Hl. cbn. case_bool_decide as E.
  - injection E as ->. do 2 eexists. split; [reflexivity|]. set (l' := fresh _).
    assert (l' <> l) as Hne.
    { intros Hl'. apply (is_fresh (dom (dicts h))). fold l'. rewrite Hl'. by apply elem_of_dom. }
    split; [done|]. unfold dict_at. cbn. by rewrite lookup_insert_eq, lookup_insert_ne.
  - exists l2, h. split_and!; [done|congruence|done..].
Qed.

(** C26: [update] of a shared dictionary by another one and by keywords. Every
    key then has the value the last entry given for it, or else its old one; the
    old entries keep their places and new keys follow in the order given; and
    the change of size reported is exactly that of the entries. The argument may
    be the receiver itself. *)
Theorem dict_update_merges s l l2 kwargs
    (Hl : is_Some (dicts (heap s) !! l))
    (Hok : keys_ok (dict_at (heap s) l)) (Hnew : keys_ok (dict_at (heap s) l2 ++ keyword_entries kwargs))
    (Hv : forall h v, 0 <= size h v) (Hk : forall k, 0 <= key_size k)
    (Hb : forall h, entry_bytes h (dict_at (heap s) l) +
                    entry_bytes h (dict_at (heap s) l2 ++ keyword_entries kwargs) <= i64_max) :
  let old := dict_at (heap s) l in
  let new := dict_at (heap s) l2 ++ keyword_entries kwargs in
  let h := (snapshot_dicts (heap s) l [VDict l2]).2 in
  exists s' es, dict_methods s l "update" [VDict l2] kwargs =
      (s', Ok (mkOutcome VNone (entry_bytes h es - entry_bytes h old))) /\
    dict_at (heap s') l = es /\
    (forall k, P k -> get es k = match get (rev new) k with Some v => Some v | None => get old k end) /\
    exists added, es.*1 = old.*1 ++ added.
Proof.
  intros old new h. destruct (snapshot_reads (heap s) l l2 Hl) as (l3 & h' & E & Hne & Hl3 & Hh).
  subst h. unfold dict_methods. cbn [view_kind]. rewrite (bool_decide_true _ eq_refl), E. cbn [snd].
  unfold locked_dict_method. cbn [dispatch_dict_method]. unfold dict_update. cbn [length Nat.ltb Nat.leb].
  unfold update_entries. cbn [as_dict]. rewrite bool_decide_false by congruence.
  cbn -[insert_entries store_dict dict_at entry_bytes keyword_entries].
  rewrite Hl3, Hh. fold old new.
  pose proof (insert_entries_accounted h' (Hv h') Hk new old (entry_bytes h' old)) as Hd.
  rewrite Z.sub_diag in Hd.
  pose proof (insert_entries_get P h' old new 0) as Hget.
  destruct (insert_entries_prefix h' old new 0) as [added Hadd].
  destruct (insert_entries h' old new 0) as [es d]. cbn [fst snd] in *.
  rewrite Hd; first last.
  { specialize (Hb h'). pose proof (entry_bytes_nonneg h' (Hv h') Hk new).
    pose proof (entry_bytes_nonneg h' (Hv h') Hk old). fold old new in Hb. lia. }
  { apply Hb. }
  do 2 eexists. split; [reflexivity|]. cbn [heap set_heap]. rewrite dict_at_store. split; [done|].
  split; [intros; by apply Hget|by exists added].
Qed.

(** [move_to_end] and [popitem]. Moving a key to the end changes no lookup
    and puts its entry last, so [popitem] takes that entry and every other key
    keeps its value; [move_to_end(k, last=False)] with [popitem(last=False)]
    is the same at the front. *)
Theorem move_to_end_then_popitem holder s es kv key v s' kval (last : bool)
    (Hok : keys_ok es) (Hd : distinct_keys key_eq es)
    (Hkey : key_of s kv = (s, Ok key)) (HP : P key) (Hget : get es key = Some v)
    (Hval : forall k', key_eq k' key = true -> key_value s k' = (s', Ok kval)) :
  exists es' rest freed,
    dispatch_dict_method holder s es "move_to_end" [kv] [("last"%string, VBool last)] =
      (s, es', Ok (pure_outcome VNone)) /\
    (forall k, P k -> get es' k = get es k) /\
    dispatch_dict_method holder s es' "popitem" [] [("last"%string, VBool last)] =
      (s', rest, Ok (shrank (VTuple [kval; v]) freed)) /\
    (forall k, P k -> get rest k = if key_eq key k then None else get es k).
Proof.
  destruct (im_remove_split es key v Hget) as (k' & a & b & -> & Hk' & Ha & Hr).
  pose proof Hok as [Hoka [Hokk Hokb]%Forall_cons]%Forall_app. simpl in Hokk.
  assert (forall k, P k -> get (a ++ b) k = if key_eq key k then None else get (a ++ (k', v) :: b) k) as Hrest.
  { intros k Hk. rewrite (get_removed P a b k' v k) by done. by rewrite (key_congr key_eq P k' key k). }
  exists (if last then (a ++ b) ++ [(k', v)] else (k', v) :: (a ++ b)), (a ++ b), (key_size k' + size (heap s) v).
  assert (forall xs : list (ValueKey * Value), removelast (xs ++ [(k', v)]) = xs) as Hrl by (intros; apply removelast_last).
  split_and!.
  - cbn [dispatch_dict_method]. unfold dict_move_to_end.
    change (bind_method_params _ _ _ _) with (Ok [Some kv; Some (VBool last)] : EvalResult (list (option Value))).
    cbn -[im_remove key_of]. rewrite Hkey. cbn -[im_remove]. rewrite Hr. by destruct last.
  - intros k Hk. specialize (Hrest k Hk).
    assert (key_eq key k = true -> get (a ++ (k', v) :: b) k = Some v) as Heq.
    { intros E. by rewrite <- (im_get_congr key_eq P _ key k). }
    pose proof (key_congr key_eq P k' key k Hokk HP Hk Hk') as Hc.
    assert (get (if last then (a ++ b) ++ [(k', v)] else (k', v) :: a ++ b) k =
      if key_eq key k then Some v else get (a ++ b) k) as ->.
    { destruct last; [rewrite get_app|]; simpl; rewrite Hc; [rewrite Hrest|done].
      destruct (key_eq key k); [done|]. by case_match. }
    rewrite Hrest. destruct (key_eq key k); [by rewrite Heq|done].
  - cbn [dispatch_dict_method]. unfold dict_popitem. cbn -[key_value pop_last pop_first].
    destruct last; cbn [pop_last pop_first].
    + unfold pop_last. rewrite last_snoc, Hrl. cbn -[key_value]. by rewrite Hval.
    + by rewrite Hval.
  - exact Hrest.
Qed.

(** [update] and [subtract] of a counter. Counting the entries of another
    counter adds each of its counts, wrapping in 64 bits; subtracting them again
    gives every key the count it had. *)
Theorem counter_update_then_subtract s es m
    (Hok : keys_ok es) (Hm : keys_ok m) (Hd : distinct_keys key_eq m) :
  exists es1 es2 d1 d2,
    dispatch_counter_method s es "update" [VCounter m] [] = (s, es1, Ok (mkOutcome VNone d1)) /\
    dispatch_counter_method s es1 "subtract" [VCounter m] [] = (s, es2, Ok (mkOutcome VNone d2)) /\
    forall k, P k ->
      Keys.count key_eq es1 k =
        match get m k with Some n => swrap64 (Keys.count key_eq es k + counter_int n) | None => Keys.count key_eq es k end /\
      (in_i64 (Keys.count key_eq es k) = true -> Keys.count key_eq es2 k = Keys.count key_eq es k).
Proof.
  assert (forall es op, counter_count s es [VCounter m] [] op =
    changed s (count_entries (heap s) es op m 0).1
      (mkOutcome VNone (swrap64 ((count_entries (heap s) es op m 0).2 + 0)))) as Hc.
  { intros es0 op. unfold counter_count. cbn. by destruct (count_entries (heap s) es0 op m 0). }
  cbn [dispatch_counter_method]. rewrite Hc. do 4 eexists. split; [reflexivity|].
  rewrite Hc. split; [reflexivity|]. intros k Hk.
  pose proof (count_entries_count P (heap s) Z.add m es 0 k Hok Hm Hd Hk) as H1'.
  split; [exact H1'|]. intros Hi.
  rewrite (count_entries_count P) by (done || by apply count_entries_keys).
  rewrite H1'. destruct (get m k); [by apply swrap64_add_sub|done].
Qed.

(** [most_common]. The list holds the entries in an order of decreasing
    counts in which those of one count keep their places, cut to the first [n]
    (none for a negative [n]). *)
Theorem most_common_sorted s es (n : Z) :
  let counts := map (fun kv => (kv.1, counter_int kv.2)) es in
  let sorted := sort_counts counts in
  Permutation counts sorted /\ StronglySorted by_count sorted /\
  (forall c, List.filter (fun x => x.2 =? c) sorted = List.filter (fun x => x.2 =? c) counts) /\
  let top := take (Z.to_nat (Z.max n 0)) sorted in
    forall s' ks, rebuild_keys s top.*1 = (s', Ok ks) ->
      exists s'' l, dispatch_counter_method s es "most_common" [VInt n] [] = (s'', es, Ok (pure_outcome (VList l))) /\
        list_at (heap s'') l = zip_with (fun x c => VTuple [x; VInt c]) ks top.*2.
Proof.
  intros counts sorted. destruct (sort_counts_spec counts) as (Hp & Hs & Hf).
  split_and!; [done..|]. intros top s' ks Hks.
  cbn [dispatch_counter_method]. unfold most_common. cbn [most_common_limit]. fold counts sorted.
  cbn -[rebuild_keys sort_counts take]. fold top. rewrite Hks. cbn -[shared_list].
  do 2 eexists. split; [reflexivity|]. unfold list_at. cbn. by rewrite lookup_insert_eq.
Qed.
End Theorems.

(** The lock a method holds: [d.update(d.items())], and any [update] of [d] with
    a view of it, waits for a lock its own call holds. *)
Lemma update_with_own_view_blocks `{External} `{!ExternalOrder} `{!Platform} `{!Formats} `{!Trees} `{!Calls} `{!Estimates}
    s l kind : (dict_methods s l "update" [VDictView l kind] []).2 = Panic.
Proof.
  unfold dict_methods. cbn [view_kind]. rewrite (bool_decide_true _ eq_refl).
  cbn [snapshot_dicts as_dict]. rewrite (bool_decide_false (None = Some l)) by done.
  cbn [app]. unfold locked_dict_method. cbn -[iterate_held]. unfold iterate_held. cbn -[Nat.eqb]. by rewrite Nat.eqb_refl.
Qed.

Lemma chainmap_update_with_first_map_blocks `{External} `{!ExternalOrder} `{!Platform} `{!Formats} `{!Trees} `{!Calls}
    `{!Estimates} s l maps : (chainmap_methods s (VDict l :: maps) "update" [VDict l] []).2 = Panic.
Proof.
  cbn. unfold locked_dict_method. cbn. by rewrite bool_decide_true.
Qed.

(** ** Witnesses *)

Definition letters (ns : list (Z * Z)) : list (ValueKey * Value) := map (fun x => (KString [x.1], VInt x.2)) ns.

Lemma letters_text ns : Forall (fun e => is_text_key e.1) (letters ns).
Proof. induction ns; constructor; [by eexists|done]. Qed.

Definition letters_state : InterpreterState :=
  set_heap (store_dict 0 (letters [(97, 1); (98, 2)]) (heap fresh_state)) fresh_state.

Lemma dict_update_merges_witness :
  exists s' es, dict_methods letters_state 0 "update" [VDict 0] [("c"%string, VInt 3); ("a"%string, VNone)] =
      (s', Ok (mkOutcome VNone (entry_bytes (heap letters_state) es - 18))) /\
    dict_at (heap s') 0 = es /\ im_get (key_eqb structural_eq) es (KString [97]) = Some VNone.
Proof.
  assert (dict_at (heap letters_state) 0 = letters [(97, 1); (98, 2)]) as El by (apply dict_at_store).
  destruct (dict_update_merges is_text_key letters_state 0 0 [("c"%string, VInt 3); ("a"%string, VNone)])
    as (s' & es & Hr & He & Hg & _).
  - eexists. unfold letters_state, store_dict. cbn. apply lookup_insert_eq.
  - rewrite El. apply letters_text.
  - rewrite El. apply Forall_app. split; [apply letters_text|]. repeat (constructor; [by eexists|]). constructor.
  - intros h []; cbn -[Z.of_nat Z.add]; lia.
  - intros []; cbn -[Z.of_nat]; lia.
  - intros h. rewrite El. vm_compute. discriminate.
  - exists s', es. rewrite El in Hr. rewrite Hr. split; [done|]. split; [done|].
    rewrite Hg by (by eexists). by rewrite El.
Defined.

Lemma move_to_end_then_popitem_witness :
  let es := letters [(97, 1); (98, 2)] in
  exists es' rest freed,
    dispatch_dict_method None fresh_state es "move_to_end" [VString [97]] [("last"%string, VBool true)] =
      (fresh_state, es', Ok (pure_outcome VNone)) /\
    dispatch_dict_method None fresh_state es' "popitem" [] [("last"%string, VBool true)] =
      (fresh_state, rest, Ok (shrank (VTuple [VString [97]; VInt 1]) freed)) /\
    im_get (key_eqb structural_eq) rest (KString [97]) = None.
Proof.
  intros es. destruct (move_to_end_then_popitem is_text_key None fresh_state es (VString [97]) (KString [97]) (VInt 1)
    fresh_state (VString [97]) true) as (es' & rest & freed & H1 & _ & H2 & H3).
  - apply letters_text.
  - repeat constructor.
  - reflexivity.
  - by eexists.
  - reflexivity.
  - intros [] E; try discriminate E. cbn in E. case_bool_decide; [|done]. by simplify_eq.
  - exists es', rest, freed. rewrite H1, H2, H3 by (by eexists). done.
Defined.

Lemma counter_update_then_subtract_witness :
  let es := letters [(97, i64_max)] in
  exists es1 es2 d1 d2,
    dispatch_counter_method fresh_state es "update" [VCounter (letters [(97, 5)])] [] =
      (fresh_state, es1, Ok (mkOutcome VNone d1)) /\
    dispatch_counter_method fresh_state es1 "subtract" [VCounter (letters [(97, 5)])] [] =
      (fresh_state, es2, Ok (mkOutcome VNone d2)) /\
    Keys.count (key_eqb structural_eq) es2 (KString [97]) = i64_max.
Proof.
  intros es. destruct (counter_update_then_subtract is_text_key fresh_state es (letters [(97, 5)]))
    as (es1 & es2 & d1 & d2 & H1 & H2 & H3).
  - apply letters_text.
  - apply letters_text.
  - repeat constructor.
  - exists es1, es2, d1, d2. split; [done|]. split; [done|].
    destruct (H3 (KString [97])) as [_ ->]; [by eexists|reflexivity..].
Defined.

Lemma most_common_sorted_witness :
  exists s l, dispatch_counter_method fresh_state (letters [(97, 1); (98, 2); (99, 1)]) "most_common" [VInt 2] [] =
      (s, letters [(97, 1); (98, 2); (99, 1)], Ok (pure_outcome (VList l))) /\
    list_at (heap s) l = [VTuple [VString [98]; VInt 2]; VTuple [VString [97]; VInt 1]].
Proof.
  destruct (most_common_sorted fresh_state (letters [(97, 1); (98, 2); (99, 1)]) 2) as (_ & _ & _ & Hr).
  exact (Hr fresh_state [VString [98]; VString [97]] eq_refl).
Defined.
