(* ===== verification/MatchThms.v ===== *)
(** Properties of structural pattern matching (Match.v): how a sequence pattern
    divides its subject, and which case of a [match] statement runs. *)
From Stdlib Require Import ZArith Lia Ascii String SpecFloat.
From stdpp Require Import base tactics list numbers option strings pretty gmap.
From S2P Require Import Prelude PySet Values Errors F64 Keys Arith Classes Slices Compare Operators State Exceptions Op Syntax Host Displays Eval Match Stmts Samples.

Section Sequences.
Context `{External} `{!ExternalOrder} `{!Platform} `{!Formats} `{!Calls} `{!Estimates} `{!Environment} `{!Host}.
Implicit Types (s : InterpreterState) (items : list Value) (names : list string).

Definition capture (name : string) : Pattern := PAs None (Some name).

Lemma capture_not_star names : existsb is_star (map capture names) = false.
Proof. induction names; simpl; auto. Qed.

Lemma match_items_captures s names items share : length names = length items ->
  match_items pattern_matches s (map capture names) items share = matched s (zip names items).
Proof.
  revert items. induction names as [|n names IH]; intros [|v items] E; try discriminate E; [by destruct share|].
  injection E as E. cbn [map match_items capture]. cbn -[match_items]. by rewrite IH.
Qed.

Lemma both_matched s b (k : InterpreterState -> Eval (option (list (string * Value)))) :
  both (matched s b) k = (let? (s', b') := k s in done s' (Ok (app b <$> b'))).
Proof. reflexivity. Qed.

(** Captures, a star, captures: the items from both ends, then the rest. *)
Lemma match_items_star s before after rest items : (length before + length after <= length items)%nat ->
  let n := (length items - length after - length before)%nat in
  let middle := take n (drop (length before) items) in
  match_items pattern_matches s (map capture before ++ PStar rest :: map capture after) items (Some n) =
    (let? (s', b) := bind_star s rest middle in
     match b with
     | Some b => matched s' (zip before (take (length before) items) ++
                             zip after (drop (length items - length after) items) ++ b)
     | None => no_match s'
     end).
Proof.
  intros Hl. cbv zeta. 
  remember (length items - length after - length before)%nat as n eqn:En.
  revert items Hl En. induction before as [|x before IH]; intros items Hl En.
  - cbn [map app match_items length] in *. rewrite match_items_captures by (rewrite length_drop; lia).
    cbn [both]. unfold both. cbn -[bind_star]. rewrite drop_0.
    replace (length items - length after)%nat with n by lia.
    unfold bind_star. destruct rest; reflexivity.
  - destruct items as [|v items]; [simpl in Hl; lia|]. cbn [map app match_items capture].
    simpl in Hl, En. change (pattern_matches s (capture x) v) with (matched s [(x, v)]).
    rewrite both_matched. cbv beta. rewrite IH by lia.
    replace (length (v :: items) - length after)%nat with (S (length items - length after)) by (simpl; lia).
    cbn -[bind_star match_items]. unfold bind_star. destruct rest; reflexivity.
Qed.

Lemma star_pattern before after rest :
  existsb is_star (map capture before ++ PStar rest :: map capture after) = true /\
  length (map capture before ++ PStar rest :: map capture after) = (length before + S (length after))%nat.
Proof.
  split; [rewrite existsb_app; simpl; apply orb_true_r|]. rewrite length_app. simpl. by rewrite !length_map.
Qed.

Lemma tuple_pattern_captures s before after rest items :
  let ps := map capture before ++ PStar (Some rest) :: map capture after in
  if (length before + length after <=? length items)%nat then
    exists s' first middle final l,
      items = first ++ middle ++ final /\ length first = length before /\ length final = length after /\
      match_sequence pattern_matches s ps (VTuple items) =
        (s', Ok (Some (zip before first ++ zip after final ++ [(rest, VList l)]))) /\
      list_at (heap s') l = middle
  else match_sequence pattern_matches s ps (VTuple items) = no_match s.
Proof.
  intros ps. destruct (star_pattern before after (Some rest)) as [Hs Hl]. unfold match_sequence, ps. rewrite Hs, Hl.
  destruct (Nat.leb_spec (length before + length after) (length items)) as [Hle|Hle];
    destruct (Nat.ltb_spec (length items) (length before + S (length after) - 1)); try lia; [|done].
  replace (length items - (length before + S (length after) - 1))%nat
    with (length items - length after - length before)%nat by lia.
  rewrite match_items_star by done. set (n := (length items - length after - length before)%nat).
  do 2 eexists. exists (take n (drop (length before) items)). do 2 eexists. split_and!; [| | |reflexivity|].
  - unfold n. rewrite <- (take_drop (length before) items) at 1. f_equal.
    rewrite <- (take_drop (length items - length after - length before) (drop (length before) items)) at 1.
    f_equal. rewrite drop_drop. f_equal. lia.
  - rewrite length_take. lia.
  - rewrite length_drop. lia.
  - unfold list_at. cbn. by rewrite lookup_insert_eq.
Qed.

(** C27: A sequence pattern [[a, b, *rest, c]] against a tuple or a list. With
    enough items the captures before the star get the first ones, those after it
    the last ones, and [rest] a new list of what lies between, so that the
    values captured put the subject together again; with fewer items, and for
    strings and every other kind of value, the pattern does not match. *)
Theorem sequence_pattern_captures s before after rest subject :
  let pattern := PSequence (map capture before ++ PStar (Some rest) :: map capture after) in
  match match subject with VTuple items => Some items | VList l => Some (list_at (heap s) l) | _ => None end with
  | None => pattern_matches s pattern subject = no_match s
  | Some items =>
      if (length before + length after <=? length items)%nat then
        exists s' first middle final l,
          items = first ++ middle ++ final /\ length first = length before /\ length final = length after /\
          pattern_matches s pattern subject = (s', Ok (Some (zip before first ++ zip after final ++ [(rest, VList l)]))) /\
          list_at (heap s') l = middle
      else pattern_matches s pattern subject = no_match s
  end.
Proof.
  intros pattern. pose proof (tuple_pattern_captures s before after rest) as Ht.
  destruct subject; try reflexivity; [apply (Ht (list_at (heap s) _))|apply Ht].
Qed.
End Sequences.

(** ** The statement *)

Section Cases.
Context `{External} `{!ExternalOrder} `{!Platform} `{!Formats} `{!Calls} `{!Estimates} `{!Environment} `{!Host}.
Variable body_of : InterpreterState -> list PyStmt -> Eval Value.
Implicit Types (s : InterpreterState).

(** A case does not run: its pattern does not match, or its guard is false. *)
Inductive passed_over : InterpreterState -> MatchCase -> Value -> InterpreterState -> Prop :=
| pattern_fails s s' pattern guard body subject :
    pattern_matches s pattern subject = (s', Ok None) -> passed_over s (mkCase pattern guard body) subject s'
| guard_fails s s1 s2 s3 s4 pattern guard body subject b v :
    pattern_matches s pattern subject = (s1, Ok (Some b)) -> bind_all s1 b = (s2, Ok ()) ->
    eval_expr s2 guard = (s3, Ok v) -> truthy s3 v = (s4, Ok false) ->
    passed_over s (mkCase pattern (Some guard) body) subject s4.

Inductive all_passed_over : InterpreterState -> list MatchCase -> Value -> InterpreterState -> Prop :=
| none_passed s subject : all_passed_over s [] subject s
| one_passed s s1 s2 c cs subject :
    passed_over s c subject s1 -> all_passed_over s1 cs subject s2 -> all_passed_over s (c :: cs) subject s2.

(** It runs its body in the state its captures and its guard leave. *)
Inductive selected : InterpreterState -> MatchCase -> Value -> InterpreterState -> list PyStmt -> Prop :=
| no_guard s s1 s2 pattern body subject b :
    pattern_matches s pattern subject = (s1, Ok (Some b)) -> bind_all s1 b = (s2, Ok ()) ->
    selected s (mkCase pattern None body) subject s2 body
| guard_holds s s1 s2 s3 s4 pattern guard body subject b v :
    pattern_matches s pattern subject = (s1, Ok (Some b)) -> bind_all s1 b = (s2, Ok ()) ->
    eval_expr s2 guard = (s3, Ok v) -> truthy s3 v = (s4, Ok true) ->
    selected s (mkCase pattern (Some guard) body) subject s4 body.

Lemma passed_over_skips s c cs subject s1 : passed_over s c subject s1 ->
  eval_cases body_of s (c :: cs) subject = eval_cases body_of s1 cs subject.
Proof.
  destruct 1 as [s s' p g body subject Hp|s s1 s2 s3 s4 p g body subject b v Hp Hb Hg Ht];
    cbn [eval_cases]; rewrite Hp; cbn [and_then]; [done|].
  rewrite Hb. cbn [and_then]. rewrite Hg. cbn [and_then]. rewrite Ht. done.
Qed.

Lemma selected_runs s c cs subject s1 body : selected s c subject s1 body ->
  eval_cases body_of s (c :: cs) subject = body_of s1 body.
Proof.
  destruct 1 as [s s1 s2 p body subject b Hp Hb|s s1 s2 s3 s4 p g body subject b v Hp Hb Hg Ht];
    cbn [eval_cases]; rewrite Hp; cbn [and_then]; rewrite Hb; cbn [and_then]; [done|].
  rewrite Hg. cbn [and_then]. rewrite Ht. done.
Qed.

Lemma all_passed_over_skips s pre cs subject s1 : all_passed_over s pre subject s1 ->
  eval_cases body_of s (pre ++ cs) subject = eval_cases body_of s1 cs subject.
Proof.
  induction 1 as [|s s1 s2 c pre subject Hc _ IH]; [done|].
  cbn [app]. by rewrite (passed_over_skips s c (pre ++ cs) subject s1) by done.
Qed.

(** A case that raises nothing is passed over or selected. *)
Lemma case_outcome s c cs subject s' r : eval_cases body_of s (c :: cs) subject = (s', Ok r) ->
  (exists s1, passed_over s c subject s1) \/ (exists s1 body, selected s c subject s1 body).
Proof.
  destruct c as [p g body]. cbn [eval_cases].
  destruct (pattern_matches s p subject) as [s1 [[b|]|e|]] eqn:Hp; cbn [and_then]; try done;
    [|intros _; left; exists s1; by apply pattern_fails].
  destruct (bind_all s1 b) as [s2 [[]|e|]] eqn:Hb; cbn [and_then]; try done.
  destruct g as [g|]; [|intros _; right; do 2 eexists; by eapply no_guard].
  destruct (eval_expr s2 g) as [s3 [v|e|]] eqn:Hg; cbn [and_then]; try done.
  destruct (truthy s3 v) as [s4 [[]|e|]] eqn:Ht; cbn [and_then]; try done; intros _.
  - right. do 2 eexists. by eapply guard_holds.
  - left. exists s4. by eapply guard_fails.
Qed.

(** C25: The first case that is selected runs. Where the cases before one are
    passed over (with the captures of a failed guard left in place) and that one
    is selected, the statement is its body; where all are passed over it is
    [None]; and a [match] statement that returns has done one of the two. *)
Theorem match_runs_first_case s cases subject :
  (forall pre c post s1 s2 body, cases = pre ++ c :: post -> all_passed_over s pre subject s1 ->
     selected s1 c subject s2 body -> eval_cases body_of s cases subject = body_of s2 body) /\
  (forall s1, all_passed_over s cases subject s1 -> eval_cases body_of s cases subject = (s1, Ok VNone)) /\
  (forall s' r, eval_cases body_of s cases subject = (s', Ok r) ->
     (r = VNone /\ all_passed_over s cases subject s') \/
     exists pre c post s1 s2 body, cases = pre ++ c :: post /\ all_passed_over s pre subject s1 /\
       selected s1 c subject s2 body /\ body_of s2 body = (s', Ok r)).
Proof.
  split_and!.
  - intros pre c post s1 s2 body -> Hpre Hc.
    rewrite (all_passed_over_skips s pre (c :: post) subject s1) by done. by apply selected_runs.
  - intros s1 Hall. rewrite <- (app_nil_r cases). by rewrite (all_passed_over_skips s cases [] subject s1).
  - revert s. induction cases as [|c cases IH]; intros s s' r Hr.
    + left. injection Hr as <- <-. split; [done|constructor].
    + destruct (case_outcome s c cases subject s' r Hr) as [[s1 Hc]|(s1 & body & Hc)].
      * rewrite (passed_over_skips s c cases subject s1) in Hr by done.
        destruct (IH s1 s' r Hr) as [[-> Hall]|(pre & c' & post & s2 & s3 & body & -> & Hpre & Hsel & Hbody)].
        -- left. split; [done|]. by econstructor.
        -- right. exists (c :: pre), c', post, s2, s3, body. split_and!; [done| |done..]. by econstructor.
      * rewrite (selected_runs s c cases subject s1 body Hc) in Hr.
        right. exists [], c, cases, s, s1, body. split_and!; [done|constructor|done..].
Qed.
End Cases.

(** ** Witnesses *)

Lemma sequence_pattern_captures_witness :
  exists s' l, pattern_matches fresh_state (PSequence [capture "a"; PStar (Some "r"%string); capture "c"])
      (VTuple [VInt 1; VInt 2; VInt 3; VInt 4]) =
    (s', Ok (Some [("a"%string, VInt 1); ("c"%string, VInt 4); ("r"%string, VList l)])) /\
    list_at (heap s') l = [VInt 2; VInt 3].
Proof.
  destruct (sequence_pattern_captures fresh_state ["a"%string] ["c"%string] "r" (VTuple [VInt 1; VInt 2; VInt 3; VInt 4]))
    as (s' & first & middle & final & l & E & Hf & Hl & Hm & Hi).
  destruct first as [|x [|]]; try discriminate Hf. injection E as <- E.
  destruct final as [|t [|]]; try discriminate Hl.
  apply (app_inj_tail [VInt 2; VInt 3] middle (VInt 4) t) in E as [<- <-]. exists s', l. by split.
Defined.

Lemma match_runs_first_case_witness :
  let cases := [mkCase (PSequence []) None []; mkCase (PAs None None) None [At 0 SPass]] in
  eval_cases (fun s b => (s, Ok (VInt (Z.of_nat (length b))))) fresh_state cases (VInt 5) = (fresh_state, Ok (VInt 1)).
Proof.
  intros cases.
  destruct (match_runs_first_case (fun s b => (s, Ok (VInt (Z.of_nat (length b))))) fresh_state cases (VInt 5)) as [Hrun _].
  apply (Hrun [mkCase (PSequence []) None []] (mkCase (PAs None None) None [At 0 SPass]) [] fresh_state fresh_state [At 0 SPass]).
  - reflexivity.
  - econstructor; [|constructor]. by apply pattern_fails.
  - by eapply no_guard.
Defined.
