(* ===== verification/EvalThms.v ===== *)
(** Properties of expression evaluation: numeric values keep their canonical
    form, and the numeric fast path agrees with the general one. *)
From Stdlib Require Import ZArith Lia Ascii String SpecFloat.
From stdpp Require Import base tactics list numbers option strings pretty gmap.
From S2P Require Import Prelude PySet Values Errors F64 Keys Arith ArithThms Classes Slices Compare Operators State Exceptions Op Syntax Host Displays Eval Stmts Samples.

(** * Canonical numbers *)

Section Canonical.
Context `{External} `{!ExternalOrder} `{!Platform} `{!Formats}.

(** An integer is a machine integer exactly when it fits one. *)
Definition canonical (v : Value) : Prop :=
  match v with
  | VInt i => in_i64 i = true
  | VBigInt i => in_i64 i = false
  | VBool _ | VFloat _ | VComplex _ _ => True
  | _ => False
  end.

Definition canonical_result (h : Heap) (r : EvalResult (Value * Heap)) : Prop :=
  match r with Ok (v, h') => canonical v /\ h' = h | _ => True end.

Lemma int_from_bigint_canonical n : canonical (int_from_bigint n).
Proof. unfold int_from_bigint. by destruct (in_i64 n) eqn:E. Qed.

Lemma canonical_int_ok v : canonical v -> int_ok v = true.
Proof. by destruct v. Qed.

(** Two numbers are integers, or reals of which one is a float, or one of them
    is complex. *)
Definition is_complex (v : Value) : bool := match v with VComplex _ _ => true | _ => false end.

Lemma canonical_kinds l r : canonical l -> canonical r ->
  (exists a b, value_as_bigint l = Some a /\ value_as_bigint r = Some b) \/
  (either_is_float l r = true /\ is_numeric l = true /\ is_numeric r = true) \/
  is_complex l || is_complex r = true.
Proof.
  destruct l; try done; destruct r; try done; intros _ _; eauto.
Qed.

Lemma pure_canonical h r : (forall v, r = Ok v -> canonical v) -> canonical_result h (pure h r).
Proof. intros C. destruct r as [v|e|]; cbn; auto. Qed.

(** The integers behind two numbers of which none is a float. *)
Lemma integers l r : is_numeric l = true -> is_numeric r = true -> either_is_float l r = false ->
  exists a b, value_as_bigint l = Some a /\ value_as_bigint r = Some b.
Proof. destruct l; try done; destruct r; try done; eauto. Qed.

(** A kernel on floats, or on integers of any width. *)
Lemma arm_canonical h l r (f : f64 -> f64 -> EvalResult Value) (g : EvalResult Value) :
  is_numeric l = true -> is_numeric r = true ->
  (forall x y v, f x y = Ok v -> canonical v) ->
  (forall a b v, value_as_bigint l = Some a -> value_as_bigint r = Some b -> g = Ok v -> canonical v) ->
  canonical_result h (pure h (if either_is_float l r then x ← to_float l; y ← to_float r; f x y else g)).
Proof.
  intros L R F G. apply pure_canonical. intros v. destruct (either_is_float l r) eqn:E.
  - destruct (to_float l); [|done..]. cbn. destruct (to_float r); [|done..]. apply F.
  - destruct (integers l r L R E) as (a & b & A & B). by apply G with a b.
Qed.

Ltac float_arm := let v := fresh "v" in intros ? ? v; cbv zeta; repeat case_match; intros; simplify_eq; exact I.

Lemma int_op_canonical op l r v :
  (exists a b, value_as_bigint l = Some a /\ value_as_bigint r = Some b) ->
  int_op op l r = Ok v -> canonical v.
Proof.
  intros (a & b & A & B). rewrite (int_op_exact _ _ _ _ _ A B). intros [= <-]. apply int_from_bigint_canonical.
Qed.

Lemma add_canonical h l r : is_numeric l = true -> is_numeric r = true -> canonical_result h (add_values h l r).
Proof.
  intros L R. assert (add_values h l r = pure h (if either_is_float l r then x ← to_float l; y ← to_float r; Ok (VFloat (f64_add x y)) else int_add l r)) as ->
    by (destruct l; try done; by destruct r).
  apply arm_canonical; [done..|float_arm|]. intros a b v A B. apply (int_op_canonical Z.add). by exists a, b.
Qed.

Lemma sub_canonical h l r : is_numeric l = true -> is_numeric r = true -> canonical_result h (sub_values set_elem h l r).
Proof.
  intros L R. assert (sub_values set_elem h l r = pure h (if either_is_float l r then x ← to_float l; y ← to_float r; Ok (VFloat (f64_sub x y)) else int_sub l r)) as ->
    by (destruct l; try done; by destruct r).
  apply arm_canonical; [done..|float_arm|]. intros a b v A B. apply (int_op_canonical Z.sub). by exists a, b.
Qed.

Lemma mult_canonical h l r : is_numeric l = true -> is_numeric r = true -> canonical_result h (mult_values h l r).
Proof.
  intros L R. assert (mult_values h l r = pure h (if either_is_float l r then x ← to_float l; y ← to_float r; Ok (VFloat (f64_mul x y)) else int_mul l r)) as ->
    by (destruct l; try done; by destruct r).
  apply arm_canonical; [done..|float_arm|]. intros a b v A B. apply (int_op_canonical Z.mul). by exists a, b.
Qed.

Lemma div_canonical h l r : canonical_result h (pure h (div_values l r)).
Proof.
  apply pure_canonical. intros v. unfold div_values. destruct (to_float l); [|done..]. cbn.
  destruct (to_float r); [|done..]. cbn. case_match; [done|]. by intros [= <-].
Qed.

Lemma floordiv_canonical h l r : is_numeric l = true -> is_numeric r = true -> canonical l -> canonical r ->
  canonical_result h (pure h (floordiv_values l r)).
Proof.
  intros L R Cl Cr. apply arm_canonical; [done..|float_arm|]. intros a b v A B E.
  pose proof (floordiv_exact l r a b A B (canonical_int_ok l Cl) (canonical_int_ok r Cr)) as X.
  unfold floordiv_values in X. rewrite (not_float _ _ a b A B) in X. cbv zeta in E. rewrite X in E.
  destruct (b =? 0); [done|]. injection E as <-. apply int_from_bigint_canonical.
Qed.

Lemma mod_canonical h l r : is_numeric l = true -> is_numeric r = true -> canonical l -> canonical r ->
  canonical_result h (pure h (mod_numeric l r)).
Proof.
  intros L R Cl Cr. apply arm_canonical; [done..|float_arm|]. intros a b v A B E.
  pose proof (mod_exact l r a b A B (canonical_int_ok l Cl) (canonical_int_ok r Cr)) as X.
  unfold mod_numeric in X. rewrite (not_float _ _ a b A B) in X. cbv zeta in E. rewrite X in E.
  destruct (b =? 0); [done|]. injection E as <-. apply int_from_bigint_canonical.
Qed.

Lemma limited_canonical n m v : limited n m = Ok v -> canonical v.
Proof.
  destruct (limited_spec n m) as [A B]. destruct (Z_le_gt_dec (bits n) m) as [L|L].
  - rewrite A by lia. intros [= <-]. apply int_from_bigint_canonical.
  - destruct B as [msg ->]; [lia|done].
Qed.

Lemma pow_canonical h l r m : is_numeric l = true -> is_numeric r = true ->
  canonical_result h (pure h (pow_values l r m)).
Proof.
  intros L R. apply arm_canonical; [done..|float_arm|]. intros a b v A B. unfold pow_integers.
  rewrite A, B. cbn [mbind Outcome_bind]. repeat case_match; first [done | apply limited_canonical | by intros [= <-]].
Qed.

Lemma shift_canonical h l r m :
  canonical_result h (pure h (lshift_values l r m)) /\ canonical_result h (pure h (rshift_values l r m)).
Proof.
  split; apply pure_canonical; intros v; unfold lshift_values, rshift_values;
    (destruct (require_int_operands _ l r); [|done..]; cbn);
    (destruct (to_bigint l); [|done..]); cbn; (destruct (to_bigint r); [|done..]); cbn;
    repeat case_match; try done; apply limited_canonical.
Qed.

Lemma bits_canonical h l r name op bop :
  (forall x y, in_i64 x = true -> in_i64 y = true -> in_i64 (op x y) = true) ->
  canonical l -> canonical r -> canonical_result h (pure h (bit_scalars name op bop l r)).
Proof.
  intros Hop Cl Cr. apply pure_canonical. intros v. unfold bit_scalars, int_bitop.
  destruct l; try done; destruct r; try done; cbn; try done;
    try (intros [= <-]; cbn; auto; fail); intros [= <-]; apply int_from_bigint_canonical.
Qed.

(** ** Dispatch *)

Lemma numeric_dispatch op h l r : is_numeric l = true -> is_numeric r = true ->
  dispatch_binop op h l r = apply_binop_builtin op h l r.
Proof. intros L R. destruct l; try done; destruct r; try done. Qed.

Lemma builtin_canonical op h l r : is_numeric l = true -> is_numeric r = true -> canonical l -> canonical r ->
  canonical_result h (apply_binop_builtin op h l r).
Proof.
  intros L R Cl Cr. assert (unwrap_enum l = l) as El by by destruct l. assert (unwrap_enum r = r) as Er by by destruct r.
  unfold apply_binop_builtin. rewrite El, Er. cbv zeta. destruct op;
    auto using add_canonical, sub_canonical, mult_canonical, div_canonical, floordiv_canonical, pow_canonical.
  assert (mod_values h l r = pure h (mod_numeric l r)) as -> by by destruct l. by apply mod_canonical.
Qed.

Lemma complex_dispatch op h l r : canonical l -> canonical r -> is_complex l || is_complex r = true ->
  canonical_result h (dispatch_binop op h l r).
Proof.
  intros Cl Cr C.
  assert (dispatch_binop op h l r = fail (unsupported_binop op l r) \/
    exists res, dispatch_binop op h l r = res /\ (complex_arith op h l r = Some res)) as D.
  { assert (numeric_arith op h l r = None) as N by (destruct l; try done; destruct r; try done; by destruct op).
    destruct l; try done; destruct r; try done; unfold dispatch_binop; cbn [unwrap_enum array_arith type_of arith_slot];
      rewrite ?N; (destruct (complex_arith op h _ _) eqn:E; [right; eexists; by split|by left]). }
  destruct D as [->|(res & -> & D)]; [done|]. unfold complex_arith in D.
  assert (forall z : f64 * f64, canonical_result h (Ok (VComplex z.1 z.2, h))) as M by done.
  destruct l; try done; destruct r; try done; cbn in D;
    repeat (match type of D with context [bigint_to_f64 ?x] => destruct (bigint_to_f64 x) end; cbn in D; try done);
    injection D as <-; destruct op; try apply M; try done; case_match; done.
Qed.

Lemma numeric_or_complex v : canonical v -> is_numeric v = true \/ is_complex v = true.
Proof. destruct v; auto. Qed.

Lemma dispatch_canonical op h l r : canonical l -> canonical r -> canonical_result h (dispatch_binop op h l r).
Proof.
  intros Cl Cr. destruct (numeric_or_complex l Cl) as [L|L];
    [destruct (numeric_or_complex r Cr) as [R|R]|].
  - rewrite numeric_dispatch by done. by apply builtin_canonical.
  - apply complex_dispatch; [done..|]. by rewrite R, orb_true_r.
  - apply complex_dispatch; [done..|]. by rewrite L.
Qed.

(** The operators without a slot, on numbers. *)
Lemma direct_canonical h l r : canonical l -> canonical r ->
  bitor_values set_elem (key_eqb structural_eq) h l r = pure h (bit_scalars "|" Z.lor orb l r) /\
  bitxor_values set_elem h l r = pure h (bit_scalars "^" Z.lxor xorb l r) /\
  bitand_values set_elem (key_eqb structural_eq) h l r = pure h (bit_scalars "&" Z.land andb l r) /\
  (exists e, matmult_values h l r = fail e).
Proof. destruct l; try done; intros _; destruct r; try done; intros _; eauto. Qed.

Lemma apply_canonical h l r op m : canonical l -> canonical r -> canonical_result h (apply_binop h l r op m).
Proof.
  intros Cl Cr. destruct (direct_canonical h l r Cl Cr) as (Eo & Ex & Ea & e & Em).
  assert (forall v, canonical v -> dictview_as_set h v = Ok (v, h)) as D by (intros v; by destruct v).
  unfold apply_binop. rewrite (D l Cl). cbn [mbind Outcome_bind]. rewrite (D r Cr). cbn [mbind Outcome_bind].
  destruct op; try (by apply dispatch_canonical); rewrite ?Eo, ?Ex, ?Ea, ?Em; try done;
    try (by apply shift_canonical); try (apply bits_canonical; auto using in_i64_lor, in_i64_lxor, in_i64_land; fail).
  destruct (is_numeric l && is_numeric r) eqn:N; [|by apply dispatch_canonical].
  apply andb_true_iff in N as []. by apply pow_canonical.
Qed.

(** C19: arithmetic on numbers yields numbers in canonical form - an integer is a
    machine integer exactly when it fits one - and allocates nothing, for every
    operator and every mix of booleans, integers, floats and complex numbers. *)
Theorem arithmetic_canonical h l r op m v h' :
  canonical l -> canonical r -> apply_binop h l r op m = Ok (v, h') -> canonical v /\ h' = h.
Proof. intros Cl Cr E. pose proof (apply_canonical h l r op m Cl Cr) as C. by rewrite E in C. Qed.
End Canonical.

(** * The numeric fast path *)

Section Numeric.
Context `{External} `{!ExternalOrder} `{!Platform} `{!Formats}.

Lemma sync_bind_ok {A B} (m : Sync A) (k : A -> Sync B) flag f b :
  sync_bind m k flag = (f, Some (Ok b)) <->
  exists f1 a, m flag = (f1, Some (Ok a)) /\ k a f1 = (f, Some (Ok b)).
Proof.
  unfold sync_bind. destruct (m flag) as [f1 [[a|e|]|]]; split; try done; try (by intros (? & ? & [= ] & ?)).
  - eauto.
  - by intros (? & ? & [= <- <-] & ?).
Qed.

Lemma sync_ret_ok {A} (r : Outcome (EvalError * Z) A) flag f b :
  sync_ret r flag = (f, Some (Ok b)) <-> f = flag /\ r = Ok b.
Proof. unfold sync_ret. split; [by intros [= -> ->]|by intros [-> ->]]. Qed.

(** Every numeric variable is in canonical form. *)
Definition variables_canonical (s : InterpreterState) : Prop :=
  forall id v, variables s !! id = Some v -> is_sync_numeric v = true -> canonical v.

Lemma constant_canonical c : is_sync_numeric (eval_constant c) = true -> canonical (eval_constant c).
Proof. destruct c; try done. intros _. apply int_from_bigint_canonical. Qed.

Definition good (o : Value * Z) : Prop := canonical o.1 /\ 1 <= o.2.

Lemma numeric_leaf_good v flag f o :
  (is_sync_numeric v = true -> canonical v) -> numeric_leaf v flag = (f, Some (Ok o)) -> good o.
Proof. unfold numeric_leaf. destruct (is_sync_numeric v); [|done]. intros C [= <- <-]. split; [by apply C|cbn; lia]. Qed.

Lemma numeric_chain_good s (numeric : PyExpr -> Sync (Value * Z)) es :
  (forall e, e ∈ es -> forall flag f o, numeric e flag = (f, Some (Ok o)) -> good o) ->
  forall ops v count flag f o, 1 <= count ->
  numeric_chain s numeric ops es v count flag = (f, Some (Ok o)) -> good o.
Proof.
  induction es as [|e es IH]; intros G ops v count flag f o Hc E; destruct ops as [|op ops]; cbn in E;
    try (injection E as <- <-; split; [exact I|cbn; lia]).
  apply sync_bind_ok in E as (f1 & [rhs n] & E1 & E). apply G in E1 as [_ Hn]; [|left]. cbn in Hn.
  apply sync_bind_ok in E as (f2 & b & _ & E). destruct b.
  - eapply IH; [|..|exact E]; [|cbn; lia]. intros e' Hin. apply G. by right.
  - apply sync_ret_ok in E as [-> [= <-]]. split; [exact I|cbn; lia].
Qed.

Lemma numeric_good s : variables_canonical s -> forall e d flag f o,
  eval_numeric_unmetered s e d flag = (f, Some (Ok o)) -> good o.
Proof.
  intros V. assert (forall k e, (expr_height e <= k)%nat -> forall d flag f o,
    eval_numeric_unmetered s e d flag = (f, Some (Ok o)) -> good o) as Hk; [|intros e; by apply (Hk (expr_height e))].
  induction k as [|k IH]; intros e L d flag f o E; [destruct e; cbn in L; lia|].
  destruct e; cbn in L; apply le_S_n in L; cbn [eval_numeric_unmetered] in E;
    (destruct (_ >=? _); [done|]); cbv zeta in E; try done.
  - eapply numeric_leaf_good; [|done]. apply constant_canonical.
  - destruct (get_variable id s) eqn:G; [|done]. eapply numeric_leaf_good; [|done]. by apply (V id).
  - apply sync_bind_ok in E as (f1 & [lhs n1] & E1 & E). apply sync_bind_ok in E as (f2 & [rhs n2] & E2 & E).
    apply IH in E1 as [C1 N1]; [|lia]. apply IH in E2 as [C2 N2]; [|lia]. cbn in *.
    apply sync_ret_ok in E as [-> E].
    pose proof (apply_canonical (heap s) lhs rhs op (max_int_bits (config s)) C1 C2) as C.
    destruct (apply_binop _ _ _ _ _) as [[v h]|e|]; try done. injection E as <-. split; [apply C|cbn; lia].
  - destruct (existsb _ ops); [done|].
    apply sync_bind_ok in E as (f1 & [lhs n1] & E1 & E). apply IH in E1 as [C1 N1]; [|lia]. cbn in *.
    eapply numeric_chain_good; [|exact N1|exact E]. intros e' Hin flag' f' o'. apply IH.
    eapply max_of_le; [|done]. unfold max_of in *. lia.
Qed.

(** A success needs no more depth than it had. *)
Lemma numeric_chain_depth s (num1 num2 : PyExpr -> Sync (Value * Z)) es :
  (forall e, e ∈ es -> forall flag f o, num1 e flag = (f, Some (Ok o)) -> num2 e flag = (f, Some (Ok o))) ->
  forall ops v count flag f o,
  numeric_chain s num1 ops es v count flag = (f, Some (Ok o)) ->
  numeric_chain s num2 ops es v count flag = (f, Some (Ok o)).
Proof.
  induction es as [|e es IH]; intros G ops v count flag f o E; destruct ops as [|op ops]; try done.
  cbn in *. apply sync_bind_ok in E as (f1 & [rhs n] & E1 & E). apply G in E1; [|left].
  apply sync_bind_ok. exists f1, (rhs, n). split; [done|].
  apply sync_bind_ok in E as (f2 & b & E2 & E). apply sync_bind_ok. exists f2, b. split; [done|].
  destruct b; [|done]. apply IH; [|done]. intros e' Hin. apply G. by right.
Qed.

Lemma numeric_depth s d' : forall e d, d' <= d -> forall flag f o,
  eval_numeric_unmetered s e d flag = (f, Some (Ok o)) ->
  eval_numeric_unmetered s e d' flag = (f, Some (Ok o)).
Proof.
  assert (forall k e, (expr_height e <= k)%nat -> forall d d', d' <= d -> forall flag f o,
    eval_numeric_unmetered s e d flag = (f, Some (Ok o)) ->
    eval_numeric_unmetered s e d' flag = (f, Some (Ok o))) as Hk; [|intros e d; by apply (Hk (expr_height e))].
  clear d'. induction k as [|k IH]; intros e L d d' Hd flag f o E; [destruct e; cbn in L; lia|].
  destruct e; cbn in L; apply le_S_n in L; cbn [eval_numeric_unmetered] in *;
    (destruct (Z.geb_spec d (max_recursion_depth (config s))); [done|]);
    (destruct (Z.geb_spec d' (max_recursion_depth (config s))); [lia|]); cbv zeta in *; try done.
  - apply sync_bind_ok in E as (f1 & [lhs n1] & E1 & E). apply sync_bind_ok in E as (f2 & [rhs n2] & E2 & E).
    apply sync_bind_ok. exists f1, (lhs, n1). split; [eapply IH; [lia| |exact E1]; lia|].
    apply sync_bind_ok. exists f2, (rhs, n2). split; [eapply IH; [lia| |exact E2]; lia|done].
  - destruct (existsb _ ops); [done|]. apply sync_bind_ok in E as (f1 & [lhs n1] & E1 & E).
    apply sync_bind_ok. exists f1, (lhs, n1). split; [eapply IH; [lia| |exact E1]; lia|].
    eapply numeric_chain_depth; [|exact E]. intros e' Hin flag' f' o'. apply IH; [|lia].
    eapply max_of_le; [|done]. unfold max_of in *. lia.
Qed.
End Numeric.

(** * The fast path against the general one *)

Section Agreement.
Context `{External} `{!ExternalOrder} `{!Platform} `{!Formats} `{!Calls} `{!Estimates} `{!Environment} `{!Host}.

(** What the fast path reads of a state. *)
Definition same_reading (s1 s2 : InterpreterState) : Prop :=
  variables s1 = variables s2 /\ heap s1 = heap s2 /\ config s1 = config s2 /\ classes s1 = classes s2.

(** Syntactically equal sides: conversion on the evaluator would unfold it. *)
Ltac same := match goal with |- ?a = ?b => constr_eq a b; reflexivity end.

Lemma sync_bind_ext {A B} (m1 m2 : Sync A) (k1 k2 : A -> Sync B) flag :
  m1 flag = m2 flag -> (forall a f, k1 a f = k2 a f) -> sync_bind m1 k1 flag = sync_bind m2 k2 flag.
Proof. intros E K. unfold sync_bind. rewrite E. destruct (m2 flag) as [f [[a|e|]|]]; [apply K|reflexivity..]. Qed.

Lemma compare_step_ext s1 s2 : same_reading s1 s2 -> compare_step s1 = compare_step s2.
Proof. intros (_ & Eh & _ & Ec). unfold compare_step. rewrite Eh, Ec. reflexivity. Qed.

Lemma numeric_chain_ext s1 s2 (num1 num2 : PyExpr -> Sync (Value * Z)) es :
  same_reading s1 s2 -> (forall e, e ∈ es -> forall flag, num1 e flag = num2 e flag) ->
  forall ops v count flag,
  numeric_chain s1 num1 ops es v count flag = numeric_chain s2 num2 ops es v count flag.
Proof.
  intros S. induction es as [|e es IH]; intros G ops v count flag; (destruct ops as [|op ops]; [reflexivity|]);
    cbn [numeric_chain]; [reflexivity|].
  apply sync_bind_ext; [apply G; left|]. intros [rhs n] f1.
  rewrite (compare_step_ext s1 s2 S). apply sync_bind_ext; [reflexivity|].
  intros [] f2; [|reflexivity]. apply IH. intros e' Hin. apply G. by right.
Qed.

Lemma numeric_ext s1 s2 : same_reading s1 s2 -> forall e d flag,
  eval_numeric_unmetered s1 e d flag = eval_numeric_unmetered s2 e d flag.
Proof.
  intros S. assert (forall k e, (expr_height e <= k)%nat -> forall d flag,
    eval_numeric_unmetered s1 e d flag = eval_numeric_unmetered s2 e d flag) as Hk;
    [|intros e d flag; exact (Hk (expr_height e) e (le_n _) d flag)].
  pose proof S as (Ev & Eh & Ec & _).
  induction k as [|k IH]; intros e L d flag; [destruct e; cbn in L; lia|].
  destruct e; cbn in L; apply le_S_n in L; cbn [eval_numeric_unmetered]; rewrite Ec;
    (destruct (_ >=? _); [reflexivity|]); cbv zeta; try same.
  - unfold get_variable. rewrite Ev. reflexivity.
  - apply sync_bind_ext; [apply IH; lia|]. intros [lhs n1] f1.
    apply sync_bind_ext; [apply IH; lia|]. intros [rhs n2] f2. rewrite Eh. reflexivity.
  - destruct (existsb _ ops); [reflexivity|]. apply sync_bind_ext; [apply IH; lia|]. intros [lhs n] f1.
    apply numeric_chain_ext; [exact S|]. intros e' Hin flag'. apply IH.
    eapply max_of_le; [|exact Hin]. unfold max_of in *. lia.
Qed.

(** Room for [n] more operations. *)
Definition room (s : InterpreterState) (n : Z) : Prop :=
  0 <= operations_count s /\ operations_count s + n < max_operations (config s) < 2 ^ 64 /\
  over_memory s = None /\ max_execution_time (config s) = None.

Lemma tick_room s n : room s n -> 1 <= n ->
  tick s = (set_operations (operations_count s + 1) s, Ok ()) /\ room (set_operations (operations_count s + 1) s) (n - 1).
Proof.
  intros (O & M & E & T) Hn. unfold tick, increment_ops. rewrite wrap64_small by lia. cbv zeta. cbn [operations_count set_operations config].
  destruct (Z.geb_spec (operations_count s + 1) (max_operations (config s))); [lia|].
  assert (over_memory (set_operations (operations_count s + 1) s) = None) as E' by exact E.
  rewrite E', T. split; [by destruct (_ =? 0)|].
  repeat split; cbn [operations_count set_operations config]; try done; lia.
Qed.

Lemma charge_room k : forall s n, room s n -> Z.of_nat k <= n ->
  charge k s = (set_operations (operations_count s + Z.of_nat k) s, Ok ()).
Proof.
  induction k as [|k IH]; intros s n R Hk; cbn [charge].
  - unfold done. rewrite Z.add_0_r. by destruct s.
  - destruct (tick_room s n R) as [-> R']; [lia|]. cbn [and_then].
    rewrite (IH _ (n - 1)) by (try done; lia). cbn [operations_count set_operations].
    unfold set_operations. cbn. do 2 f_equal. lia.
Qed.

(** An operand that is a name is checked by the general path alone. *)
Definition leaf_allowed (e : PyExpr) : Prop :=
  match e with EName id => is_name_allowed id = true | _ => True end.

Definition after (s : InterpreterState) (n : Z) (flag : bool) : InterpreterState :=
  set_operations (operations_count s + n) (set_overflow flag s).

Lemma after_same s : set_overflow (eq_overflow s) s = s.
Proof. by destruct s. Qed.

(** A numeric operand, on the general path. *)
Lemma operand_numeric s e d f v n :
  eval_numeric_unmetered s e d (eq_overflow s) = (f, Some (Ok (v, n))) -> 0 <= d ->
  variables_canonical s -> leaf_allowed e -> room s n ->
  operand eval_expr s e = (after s n f, Ok v).
Proof.
  intros E Hd V A R. destruct (numeric_good s V _ _ _ _ _ E) as [C N]. cbn in C, N.
  assert (forall s, resolve_proxy s v = (s, Ok v)) as P by (intros s'; by destruct v).
  assert (try_eval_expr_sync s e = (after s n f, Some (Ok v))) as T.
  2:{ unfold operand. rewrite T. cbn. apply P. }
  assert (try_eval_numeric_expr_sync s e = (after s n f, Some (Ok v))) as T'.
  { unfold try_eval_numeric_expr_sync. rewrite (numeric_depth s 0 e d Hd _ _ _ E).
    unfold taken. rewrite (charge_room _ _ n) by (try exact R; lia). rewrite Z2Nat.id by lia. done. }
  assert (forall r : EvalResult Value, n = 1 -> f = eq_overflow s -> r = Ok v ->
    taken (and_then (tick s) (fun s _ => done s r)) = (after s n f, Some (Ok v))) as L.
  { intros r -> -> ->. destruct (tick_room s 1 R) as [-> _]; [lia|]. unfold after. by rewrite after_same. }
  destruct e; cbn [eval_numeric_unmetered] in E; (destruct (d >=? _); [done|]); cbv zeta in E; try done.
  - unfold numeric_leaf in E. destruct (is_sync_numeric _); [|done]. injection E as <- <- <-. by apply L.
  - destruct (get_variable id s) eqn:G; [|done]. unfold numeric_leaf in E.
    destruct (is_sync_numeric _); [|done]. injection E as <- <- <-. cbn [try_eval_expr_sync].
    destruct (tick_room s 1 R) as [-> _]; [lia|]. cbn [and_then done]. unfold after, taken. rewrite after_same. cbn [fst snd].
    unfold eval_name, validate_name. unfold leaf_allowed, is_name_allowed in A.
    destruct (bool_decide (id ∈ DANGEROUS_NAMES)); [done|]. cbn [mbind Outcome_bind].
    change (get_variable id (set_operations _ s)) with (get_variable id s). by rewrite G.
Qed.

Lemma binop_canonical s op l r : canonical l -> canonical r -> binop s op l r = apply s op l r.
Proof.
  intros Cl Cr. assert (binop_slots s op l r = apply s op l r) as B.
  { destruct l; try done; destruct r; try done; by destruct op. }
  unfold binop. assert (flag_bitwise s op l r = None) as F by (by destruct l).
  destruct op; rewrite ?F; try done; by destruct l.
Qed.

(** The checked machine operations of the general path. *)
Lemma apply_small h op f a b m :
  (op = Add /\ f = Z.add \/ op = Sub /\ f = Z.sub \/ op = Mult /\ f = Z.mul) ->
  apply_binop h (VInt a) (VInt b) op m =
  Ok (match checked (f a b) with Some v => VInt v | None => int_from_bigint (f a b) end, h).
Proof.
  intros Hop. rewrite checked_int.
  assert (pure h (int_op f (VInt a) (VInt b)) = Ok (int_from_bigint (f a b), h)) as P by (by rewrite (int_op_exact f _ _ a b)).
  by destruct Hop as [[-> ->]|[[-> ->]|[-> ->]]].
Qed.

(** C17: a binary operation whose operands are numeric has the same outcome - the
    same value or the same error - on the numeric fast path and on the general
    path, which evaluates the operands one by one, resolves and dispatches them,
    provided the operation budget suffices for the tree. (The fast path alone
    does not check the names it reads.) *)
Theorem numeric_fast_path_agrees s l op r f1 f2 lhs rhs n1 n2 :
  eval_numeric_unmetered s l 1 (eq_overflow s) = (f1, Some (Ok (lhs, n1))) ->
  eval_numeric_unmetered s r 1 f1 = (f2, Some (Ok (rhs, n2))) ->
  variables_canonical s -> leaf_allowed l -> leaf_allowed r ->
  room s (n1 + n2 + 1) -> expr_depth s < max_recursion_depth (config s) ->
  (eval_expr s (EBinOp l op r)).2 = (eval_binop eval_expr s l op r).2.
Proof.
  intros E1 E2 V A1 A2 R D.
  destruct (numeric_good s V _ _ _ _ _ E1) as [C1 N1]. destruct (numeric_good s V _ _ _ _ _ E2) as [C2 N2].
  cbn in C1, N1, C2, N2.
  assert (0 < max_recursion_depth (config s)) as Dpos.
  { destruct l; cbn [eval_numeric_unmetered] in E1; (destruct (Z.geb_spec 1 (max_recursion_depth (config s))); [done|lia]). }
  set (out := fst <$> apply_binop (heap s) lhs rhs op (max_int_bits (config s))).
  trans out.
  - cbn [eval_expr try_eval_expr_sync]. unfold try_eval_numeric_expr_sync. cbn [eval_numeric_unmetered].
    destruct (Z.geb_spec 0 (max_recursion_depth (config s))); [lia|]. cbv zeta. change (0 + 1) with 1. unfold sync_bind.
    rewrite E1, E2. unfold sync_ret, counted. fold out.
    destruct out as [v|err|]; cbn [fst snd taken];
      rewrite ?(charge_room _ _ (n1 + n2 + 1)) by (try exact R; lia); done.
  - unfold eval_binop, guarded. unfold enter_expr. destruct (Z.geb_spec (expr_depth s) (max_recursion_depth (config s))); [lia|].
    cbn [lift_call and_then]. set (s0 := set_depths _ _ _ s).
    assert (same_reading s0 s) as S0 by (by repeat split).
    assert (room s0 (n1 + n2 + 1)) as R0 by exact R.
    unfold eval_binop_inner. rewrite (operand_numeric s0 l 1 f1 lhs n1); try done.
    2:{ rewrite (numeric_ext s0 s S0). exact E1. }
    2:{ destruct R0 as (? & ? & ? & ?). repeat split; try done; lia. }
    cbn [and_then]. set (s1 := after s0 n1 f1).
    rewrite (operand_numeric s1 r 1 f2 rhs n2); try done.
    2:{ rewrite (numeric_ext s1 s); [exact E2|by repeat split]. }
    2:{ destruct R0 as (? & ? & ? & ?). repeat split; try done; cbn in *; lia. }
    cbn [and_then]. set (s2 := after s1 n2 f2).
    assert ((apply s2 op lhs rhs).2 = out) as G.
    { unfold apply, out. change (heap s2) with (heap s). change (config s2) with (config s).
      by destruct (apply_binop _ _ _ _ _) as [[]|err|]. }
    assert (forall f a b, lhs = VInt a -> rhs = VInt b ->
      (op = Add /\ f = Z.add \/ op = Sub /\ f = Z.sub \/ op = Mult /\ f = Z.mul) ->
      Ok (match checked (f a b) with Some v => VInt v | None => int_from_bigint (f a b) end) = out) as Small.
    { intros f a b -> -> Hop. unfold out. by rewrite (apply_small _ op f). }
    assert ((binop s2 op lhs rhs).2 = out) as B by (by rewrite binop_canonical).
    assert (forall m : Eval Value, (let (s, r) := m in (exit_expr s, r)).2 = m.2) as -> by (by intros []).
    clear G. symmetry. destruct lhs; try exact B; destruct rhs; try exact B; destruct op; try exact B;
      (eapply Small; [reflexivity|reflexivity|tauto]).
Qed.
End Agreement.

(** ** Witnesses *)

Lemma arithmetic_canonical_witness :
  canonical (VInt i64_max) /\ canonical (VBool true) /\
  canonical (VBigInt (2 ^ 63)) /\ empty_heap = empty_heap.
Proof.
  split; [reflexivity|]. split; [exact I|].
  exact (arithmetic_canonical empty_heap (VInt i64_max) (VBool true) Add 1000 (VBigInt (2 ^ 63)) empty_heap
    ltac:(reflexivity) I ltac:(reflexivity)).
Defined.

Lemma numeric_fast_path_agrees_witness :
  (eval_expr fresh_state (EBinOp (EConstant (CInt 7)) FloorDiv (EConstant (CInt (-2))))).2 =
  (eval_binop eval_expr fresh_state (EConstant (CInt 7)) FloorDiv (EConstant (CInt (-2)))).2.
Proof.
  apply (numeric_fast_path_agrees fresh_state (EConstant (CInt 7)) FloorDiv (EConstant (CInt (-2)))
    false false (VInt 7) (VInt (-2)) 1 1); try exact I; try reflexivity; [|repeat split; reflexivity || discriminate].
  intros id v E. cbn in E. apply lookup_singleton_Some in E as [_ <-]. discriminate.
Defined.
