(* ===== verification/StmtsThms.v ===== *)
(** Properties of statements: the fuel of the dispatcher is irrelevant once it
    covers the nesting, the walk over a range is the walk over its items, and an
    endless loop is stopped. *)
From Stdlib Require Import ZArith Lia Ascii String SpecFloat.
From stdpp Require Import base tactics list numbers option strings pretty gmap.
From S2P Require Import Prelude PySet Values Errors F64 Keys Arith Classes Slices SlicesThms Compare Operators State Exceptions Op Syntax Host Displays Eval Match Stmts Samples.

Section Bind.
Context `{External} `{!Trees}.

Lemma and_then_ext {A B} (m : Eval A) (f g : InterpreterState -> A -> Eval B) :
  (forall s a, f s a = g s a) -> and_then m f = and_then m g.
Proof. intros E. destruct m as [s [a|e|]]; simpl; auto. Qed.
End Bind.

(** Binds with the same first step agree when their continuations do. *)
Ltac bind_ext := apply and_then_ext; intros ? ?.

Section Blocks.
Context `{External} `{!ExternalOrder} `{!Platform} `{!Formats} `{!Calls} `{!Estimates} `{!Environment} `{!Host}.
Variables exec1 exec2 : InterpreterState -> PyStmt -> Eval Value.

Definition agree (body : list PyStmt) : Prop := forall st, st ∈ body -> forall s, exec1 s st = exec2 s st.

Lemma agree_cons st body : agree (st :: body) -> (forall s, exec1 s st = exec2 s st) /\ agree body.
Proof. intros E. split; [apply E; left|]. intros st' Hin. apply E. by right. Qed.

Lemma eval_block_ext body : agree body -> forall s r, eval_block exec1 s body r = eval_block exec2 s body r.
Proof.
  induction body as [|st body IH]; intros E s r; [done|]. apply agree_cons in E as [E1 E2].
  simpl. rewrite E1. bind_ext. auto.
Qed.

Lemma run_round_ext body : agree body -> forall s r, run_round exec1 s body r = run_round exec2 s body r.
Proof.
  induction body as [|st body IH]; intros E s r; [done|]. apply agree_cons in E as [E1 E2].
  simpl. rewrite E1. destruct (exec2 s st) as [s' [v|[|[]|]|]]; auto.
Qed.

Lemma eval_if_ext t b o : agree b -> agree o -> forall s, eval_if exec1 s t b o = eval_if exec2 s t b o.
Proof. intros Eb Eo s. unfold eval_if, eval_body. bind_ext. destruct (_ : bool); apply eval_block_ext; done. Qed.

Section Rounds.
Variables round1 round2 : InterpreterState -> Value -> Value -> Eval (Value * bool).
Hypothesis Hround : forall s item r, round1 s item r = round2 s item r.

Lemma for_items_ext items : forall s r, for_items round1 s items r = for_items round2 s items r.
Proof.
  induction items as [|i items IH]; intros s r; [done|]. simpl. rewrite Hround. bind_ext.
  destruct (_.2); auto.
Qed.

Lemma for_range_ext fuel stop step : forall s i r,
  for_range round1 fuel s stop step i r = for_range round2 fuel s stop step i r.
Proof.
  induction fuel as [|fuel IH]; intros s i r; [done|]. simpl. destruct (_ || _); [|done].
  rewrite Hround. bind_ext. destruct (_.2); [done|]. destruct (checked _); auto.
Qed.

Lemma for_iterator_ext it bound : forall s r,
  for_iterator round1 bound s it r = for_iterator round2 bound s it r.
Proof.
  induction bound as [|n IH]; intros s r; [done|]. simpl. destruct (next_item s it) as [s' [v|[]|]]; try done.
  rewrite Hround. bind_ext. destruct (_.2); auto.
Qed.

Lemma for_loop_ext s it : for_loop round1 s it = for_loop round2 s it.
Proof.
  unfold for_loop. destruct it; auto using for_range_ext, for_iterator_ext; bind_ext; apply for_items_ext.
Qed.
End Rounds.

Lemma loop_else_ext o : agree o -> forall s out, loop_else exec1 s o out = loop_else exec2 s o out.
Proof. intros E s out. unfold loop_else. destruct out.2; auto using eval_block_ext. Qed.

Lemma eval_for_ext t i b o : agree b -> agree o -> forall s, eval_for exec1 s t i b o = eval_for exec2 s t i b o.
Proof.
  intros Eb Eo s. unfold eval_for. bind_ext.
  rewrite (for_loop_ext (run_for_body exec1 t b) (run_for_body exec2 t b)).
  { bind_ext. by apply loop_else_ext. }
  intros s' item r. unfold run_for_body. bind_ext. by apply run_round_ext.
Qed.

Lemma while_rounds_ext b t m : agree b -> forall n s r,
  while_rounds exec1 n m s t b r = while_rounds exec2 n m s t b r.
Proof.
  intros E. induction n as [|n IH]; intros s r; [done|]. simpl. bind_ext. destruct (negb _); [done|].
  rewrite (run_round_ext b E). bind_ext. destruct (_.2); auto.
Qed.

Lemma eval_while_ext t b o : agree b -> agree o -> forall s, eval_while exec1 s t b o = eval_while exec2 s t b o.
Proof.
  intros Eb Eo s. unfold eval_while. rewrite (while_rounds_ext b t _ Eb). bind_ext. by apply loop_else_ext.
Qed.

Lemma eval_with_ext items b : agree b -> forall s, eval_with exec1 s items b = eval_with exec2 s items b.
Proof. intros E s. unfold eval_with. bind_ext. unfold eval_body. by rewrite (eval_block_ext b E). Qed.

Lemma eval_match_ext cases : (forall p g b, mkCase p g b ∈ cases -> agree b) -> forall s subject,
  eval_match (eval_body exec1) s subject cases = eval_match (eval_body exec2) s subject cases.
Proof.
  intros E s subject. unfold eval_match. apply and_then_ext. intros s1 v. clear s.
  revert s1. induction cases as [|[p g b] cases IH]; intros s; [done|]. cbn [eval_cases].
  assert (forall s, eval_body exec1 s b = eval_body exec2 s b) as B.
  { intros s'. apply eval_block_ext, (E p g). left. }
  assert (forall s, eval_cases (eval_body exec1) s cases v = eval_cases (eval_body exec2) s cases v) as R.
  { apply IH. intros p' g' b' Hin. apply (E p' g'). by right. }
  apply and_then_ext. intros s1 [m|]; [|apply R]. apply and_then_ext. intros s2 [].
  destruct g; [|apply B]. do 2 (apply and_then_ext; intros ? ?). destruct (_ : bool); [apply B|apply R].
Qed.
End Blocks.

(** ** [try] statements over agreeing evaluators *)

Section Try.
Context `{External} `{!Trees}.
Variables ev1 ev2 : Evaluator.
Variable size : Heap -> Value -> Z.
Variable structural : Value -> Value -> bool.
Variable fuel : nat.
Hypothesis Hexpr : forall s e, @Exceptions.eval_expr _ _ ev1 s e = @Exceptions.eval_expr _ _ ev2 s e.

Definition agree_on (b : list Stmt) : Prop :=
  forall s, @Exceptions.eval_body _ _ ev1 s b = @Exceptions.eval_body _ _ ev2 s b.

Lemma matches_handler_ext s exc h :
  @matches_handler _ _ ev1 s exc h = @matches_handler _ _ ev2 s exc h.
Proof. unfold matches_handler. destruct (type_ h); [|done]. by rewrite Hexpr. Qed.

Lemma run_handler_ext h : agree_on (h_body h) -> forall s exc,
  @run_handler _ _ ev1 size structural fuel s exc h = @run_handler _ _ ev2 size structural fuel s exc h.
Proof. intros E s exc. unfold run_handler, run_body. bind_ext. bind_ext. by rewrite E. Qed.

Lemma try_match_handlers_ext hs : (forall h, h ∈ hs -> agree_on (h_body h)) -> forall s exc,
  @try_match_handlers _ _ ev1 size structural fuel s exc hs =
  @try_match_handlers _ _ ev2 size structural fuel s exc hs.
Proof.
  induction hs as [|h hs IH]; intros E s exc; [done|]. simpl. rewrite matches_handler_ext. bind_ext.
  destruct (_ : bool).
  - rewrite run_handler_ext; [done|]. apply E. left.
  - apply IH. intros h' Hin. apply E. by right.
Qed.

Lemma split_leaves_ext h leaves : forall s,
  @split_leaves _ _ ev1 s h leaves = @split_leaves _ _ ev2 s h leaves.
Proof.
  induction leaves as [|leaf leaves IH]; intros s; [done|]. simpl. rewrite matches_handler_ext. bind_ext.
  by rewrite IH.
Qed.

Lemma star_loop_ext hs : (forall h, h ∈ hs -> agree_on (h_body h)) -> forall s m remaining any_matched v,
  @star_loop _ _ ev1 size structural fuel s m hs remaining any_matched v =
  @star_loop _ _ ev2 size structural fuel s m hs remaining any_matched v.
Proof.
  induction hs as [|h hs IH]; intros E s m remaining any_matched v; [done|]. cbn [star_loop].
  destruct (match remaining with [] => true | _ => false end); [done|].
  rewrite split_leaves_ext. apply and_then_ext. intros s' [matched unmatched].
  assert (forall h, h ∈ hs -> agree_on (h_body h)) as Ehs. { intros h' Hin. apply E. by right. }
  destruct matched; [by apply IH|]. destruct (alloc_group _ _ _) as [s2 group]. bind_ext.
  unfold run_body. rewrite (E h) by left.
  destruct (Exceptions.eval_body _ _) as [s3 [v'|err|]]; try done. by apply IH.
Qed.

Lemma finish_ext node : agree_on (finalbody node) -> forall s r pending,
  @finish _ _ ev1 s node r pending = @finish _ _ ev2 s node r pending.
Proof. intros E s r pending. unfold finish. destruct (finalbody node) eqn:F; [done|]. by rewrite E. Qed.

Lemma try_with_ext mh1 mh2 node :
  agree_on (body node) -> agree_on (orelse node) -> agree_on (finalbody node) ->
  (forall s exc, mh1 s exc (handlers node) = mh2 s exc (handlers node)) -> forall s,
  @try_with _ _ ev1 mh1 s node = @try_with _ _ ev2 mh2 s node.
Proof.
  intros Eb Eo Ef Eh s. unfold try_with, handle. rewrite Eb.
  destruct (Exceptions.eval_body s (body node)) as [s' [v|[ie|[]|exc]|]]; try done;
    rewrite ?Eo, ?Eh;
    try (apply and_then_ext; intros s2 [[]|]; by apply finish_ext);
    try by apply finish_ext.
  destruct (Exceptions.eval_body s' (orelse node)) as [s2 []]; try done; by apply finish_ext.
Qed.
End Try.

(** ** Termination *)

Section Fuel.
Context `{External} `{!ExternalOrder} `{!Platform} `{!Formats} `{!Calls} `{!Estimates} `{!Environment} `{!Host}.

Lemma handler_body_le hs n : (max_of handler_height hs <= n)%nat ->
  forall h, h ∈ map except_handler hs -> (max_of stmt_height (h_body h) <= n)%nat.
Proof.
  intros Hle h Hin. apply list_elem_of_In, in_map_iff in Hin as ([t nm b] & <- & Hin).
  apply list_elem_of_In in Hin. pose proof (max_of_le handler_height hs n Hle _ Hin) as L. cbn in L. change (max_of stmt_height b <= n)%nat. lia.
Qed.

Lemma case_body_le p g b cases n : (max_of case_height cases <= n)%nat -> mkCase p g b ∈ cases ->
  (max_of stmt_height b <= n)%nat.
Proof.
  intros Hle Hin. pose proof (max_of_le case_height cases n Hle _ Hin) as L. cbn in L.
  change (max_of stmt_height b <= n)%nat. lia.
Qed.

Lemma block_ext line (k1 k2 : InterpreterState -> Eval Value) s :
  (forall s, k1 s = k2 s) ->
  guarded s (fun s => stamped line (k1 s)) = guarded s (fun s => stamped line (k2 s)).
Proof. intros E. unfold guarded. bind_ext. by rewrite E. Qed.

(** The fuel of the dispatcher: the depth of the blocks of a statement is enough. With more
    fuel it does the same, and what would be done without fuel is never reached. (This
    is about the recursion over the syntax; whether the loops end is another matter, and
    some statements of the program never do.) *)
Lemma statement_fuel_suffices ex1 ex2 f1 f2 s st :
  (stmt_height st <= f1)%nat -> (stmt_height st <= f2)%nat ->
  eval_stmt_or ex1 f1 s st = eval_stmt_or ex2 f2 s st.
Proof.
  revert f2 s st. induction f1 as [|f1 IH]; intros f2 s st L1 L2.
  { destruct st; cbn in L1; lia. }
  destruct f2 as [|f2]. { destruct st; cbn in L2; lia. }
  destruct st as [start node]. cbn [eval_stmt_or]. cbn in L1, L2.
  assert (forall body, (max_of stmt_height body <= f1)%nat -> (max_of stmt_height body <= f2)%nat ->
    agree (eval_stmt_or ex1 f1) (eval_stmt_or ex2 f2) body) as Hagree.
  { intros body B1 B2 st Hin s'. apply IH; eapply max_of_le; eauto; lia. }
  bind_ext. destruct node; try done; cbn in L1, L2.
  - apply block_ext. intros s2. apply eval_if_ext; apply Hagree; lia.
  - apply block_ext. intros s2. apply eval_for_ext; apply Hagree; lia.
  - apply block_ext. intros s2. apply eval_while_ext; apply Hagree; lia.
  - apply block_ext. intros s2.
    assert (forall h, h ∈ map except_handler handlers ->
      agree_on {| Exceptions.eval_body := Stmts.eval_body (eval_stmt_or ex1 f1) : _ -> list Stmt -> _; Exceptions.eval_expr := eval_expr : _ -> Expr -> _ |}
               {| Exceptions.eval_body := Stmts.eval_body (eval_stmt_or ex2 f2) : _ -> list Stmt -> _; Exceptions.eval_expr := eval_expr : _ -> Expr -> _ |}
        (h_body h)) as Hh.
    { intros h Hin s'. apply eval_block_ext, Hagree; eapply handler_body_le; eauto; lia. }
    destruct star; apply try_with_ext;
      try (intros s'; apply eval_block_ext, Hagree; cbn [Exceptions.body Exceptions.orelse Exceptions.finalbody try_node]; lia);
      intros s1x exc; [apply star_loop_ext|apply try_match_handlers_ext]; done.
  - apply block_ext. intros s2. apply eval_with_ext; apply Hagree; lia.
  - apply block_ext. intros s2. apply eval_match_ext. intros p g b Hin.
    apply Hagree; eapply (case_body_le p g); eauto; lia.
Qed.
End Fuel.

(** ** The walk over a range *)

Section Range.
Context `{External} `{!ExternalOrder} `{!Platform} `{!Formats} `{!Calls}.
Variable round : InterpreterState -> Value -> Value -> Eval (Value * bool).

Lemma steps_next b e s m : s <> 0 -> steps b e s = S m -> steps (b + s) e s = m.
Proof.
  intros Hs Hm. pose proof (steps_spec b e s (S (steps (b + s) e s)) Hs) as U.
  pose proof (steps_spec (b + s) e s (steps (b + s) e s) Hs) as V.
  pose proof (steps_spec b e s (S m) Hs) as U'. pose proof (steps_spec (b + s) e s m Hs) as V'.
  rewrite Hm in U, U'. destruct (Z.gtb_spec s 0); nia.
Qed.

Lemma in_range_steps i stop step : step <> 0 ->
  ((step >? 0) && (i <? stop)) || ((step <? 0) && (i >? stop)) = (0 <? steps i stop step)%nat.
Proof.
  intros Hs. apply eq_true_iff_eq. rewrite Nat.ltb_lt, (steps_spec i stop step 0 Hs). cbn.
  destruct (Z.gtb_spec step 0), (Z.ltb_spec step 0), (Z.ltb_spec i stop), (Z.gtb_spec i stop); cbn; lia.
Qed.

Lemma for_range_members stop step : step <> 0 -> in_i64 stop = true ->
  forall n fuel i s r, steps i stop step = n -> (n < fuel)%nat -> in_i64 i = true ->
  for_range round fuel s stop step i r = for_items round s (map VInt (progression i step n)) r.
Proof.
  intros Hstep Hstop. induction n as [|n IH]; intros fuel i s r Hn Hf Hi;
    (destruct fuel as [|fuel]; [lia|]); cbn [for_range]; rewrite in_range_steps, Hn by done; [done|].
  rewrite progression_S. cbn [map for_items Nat.ltb Nat.leb]. apply and_then_ext. intros s' [v broke]. cbn [snd fst].
  destruct broke; [done|]. unfold checked. destruct (in_i64 (i + step)) eqn:Hin.
  - apply IH; [by apply steps_next|lia|done].
  - apply steps_next in Hn; [|done]. destruct n as [|n]; [done|].
    pose proof (steps_spec (i + step) stop step 0 Hstep) as U. rewrite Hn in U.
    apply in_i64_spec in Hi, Hstop. apply not_true_iff_false in Hin. rewrite in_i64_spec in Hin.
    destruct (Z.gtb_spec step 0); lia.
Qed.

(** C20: a [for] loop over a range visits the range's members in order, each once,
    for all 64-bit bounds and steps, exactly as the loop over the list of those
    members would; a step past the last integer ends it. *)
Theorem range_loop_visits_members s start stop step :
  step <> 0 -> in_i64 start = true -> in_i64 stop = true ->
  for_loop round s (VRange start stop step) =
  for_items round s (map VInt (progression start step (steps start stop step))) VNone.
Proof.
  intros Hstep Hstart Hstop. unfold for_loop. apply for_range_members; try done.
  rewrite range_count_ok, Nat2Z.id by done. lia.
Qed.
End Range.

(** ** Endless loops *)

Section Endless.
Context `{External} `{!ExternalOrder} `{!Platform} `{!Formats} `{!Calls} `{!Estimates} `{!Environment} `{!Host}.

Definition is_limit (e : EvalError) : bool :=
  match e with Interpreter (LimitExceeded _ | RecursionLimitExceeded _) => true | _ => false end.

(** Succeeds, or reports a limit. *)
Definition limited {A} (P : A -> Prop) (m : Eval A) : Prop :=
  match m.2 with Ok a => P a | Err e => is_limit e = true | Panic => False end.

Lemma limited_bind {A B} (P : A -> Prop) (Q : B -> Prop) (m : Eval A) (f : InterpreterState -> A -> Eval B) :
  limited P m -> (forall s a, P a -> limited Q (f s a)) -> limited Q (and_then m f).
Proof. intros M F. destruct m as [s [a|e|]]; [by apply F|exact M|exact M]. Qed.

Lemma tick_limited s : limited (fun _ => True) (tick s).
Proof.
  unfold tick, increment_ops, over_memory. cbv zeta.
  destruct (_ >=? _); [done|]. destruct (_ =? 0); [|done]. destruct (_ >? _); [done|].
  destruct (max_execution_time _); [|done]. by destruct (_ >? _).
Qed.

(** Statements that do nothing but count themselves. *)
Definition passive (st : PyStmt) : bool :=
  match st with At _ (SPass | SContinue | SExpr (EConstant _)) => true | _ => false end.

Lemma run_round_passive fuel body : (0 < fuel)%nat -> forallb passive body = true ->
  forall s r, limited (fun out => out.2 = false) (run_round (eval_stmt fuel) s body r).
Proof.
  intros Hf. destruct fuel as [|fuel]; [lia|]. induction body as [|[start node] body IH]; intros P s r; [done|].
  cbn [forallb] in P. apply andb_true_iff in P as [P Ps]. cbn [run_round]. unfold eval_stmt. cbn [eval_stmt_or].
  pose proof (tick_limited s) as T. destruct (tick s) as [s1 [[]|e|]]; [|destruct e as [[]|?|?]; done|done].
  cbn [and_then]. destruct node; try done; try (destruct value; try done); apply (IH Ps).
Qed.

Lemma true_condition s : limited (fun b => b = true) (eval_condition eval_expr s (EConstant (CBool true))).
Proof.
  unfold eval_condition, eval_resolved. cbn [eval_expr try_eval_expr_sync].
  pose proof (tick_limited s) as T. by destruct (tick s) as [s1 [[]|e|]].
Qed.

Lemma endless_rounds fuel body m : (0 < fuel)%nat -> forallb passive body = true ->
  forall n s r, limited (fun _ => False) (while_rounds (eval_stmt fuel) n m s (EConstant (CBool true)) body r).
Proof.
  intros Hf P. induction n as [|n IH]; intros s r; [done|]. cbn [while_rounds].
  eapply limited_bind; [apply true_condition|]. intros s1 ? ->. cbn [negb].
  eapply limited_bind; [by apply run_round_passive|]. intros s2 [v b] E. simpl in E. subst. apply IH.
Qed.

(** C21: a loop that never ends by itself is stopped, in every state: whatever the
    limits are, [while True] over a body of passive statements ends in an error
    that reports one of them, never in a value and never in a hang. *)
Theorem endless_while_is_stopped fuel s start body orelse :
  (1 < fuel)%nat -> forallb passive body = true ->
  exists e, (eval_stmt fuel s (At start (SWhile (EConstant (CBool true)) body orelse))).2 = Err e /\
            is_limit e = true.
Proof.
  intros Hf P. assert (limited (fun _ => False) (eval_stmt fuel s (At start (SWhile (EConstant (CBool true)) body orelse)))) as L.
  2:{ unfold limited in L. destruct (_ .2) as [|e|]; [done|by exists e|done]. }
  destruct fuel as [|fuel]; [lia|]. unfold eval_stmt. cbn [eval_stmt_or]. fold (eval_stmt fuel).
  eapply limited_bind; [apply tick_limited|]. intros s1 [] _. unfold guarded, enter_expr.
  destruct (_ >=? _); [done|]. cbn [lift_call and_then]. set (s2 := set_depths _ _ _ _).
  unfold eval_while. pose proof (endless_rounds fuel body (max_while_iterations (config s2)) ltac:(lia) P
    (Z.to_nat (max_while_iterations (config s2))) s2 VNone) as R.
  destruct (while_rounds _ _ _ _ _ _ _) as [s3 [v|e|]]; [done| |done].
  cbn. unfold limited in *. cbn in *. by destruct e as [[]|?|?].
Qed.
End Endless.

(** ** Pending tool results *)

(** A pending result that resolves to [False] fails an [if] but passes an
    [assert], which tests the proxy itself. *)
Lemma assert_tests_the_proxy :
  (eval_stmt 2 fresh_state (At 0 (SAssert (ECall (EName "f") [] []) None))).2 = Ok VNone /\
  (eval_condition eval_expr fresh_state (ECall (EName "f") [] [])).2 = Ok false.
Proof. split; reflexivity. Qed.

(** Unpacking a pending result is refused, whatever it resolves to. *)
Lemma unpacking_refuses_the_proxy :
  (eval_stmt 1 fresh_state (At 0 (SAssign [ETuple []] (ECall (EName "f") [] [])))).2 =
  Err (stamp_line (Interpreter (TypeError "cannot unpack non-iterable LazyProxy object")) 1).
Proof. vm_compute. reflexivity. Qed.

(** ** Witnesses *)

Lemma range_loop_visits_members_witness :
  steps 10 0 (-3) = 4%nat /\
  for_loop (fun s i _ => (s, Ok (i, false))) fresh_state (VRange 10 0 (-3)) =
  for_items (fun s i _ => (s, Ok (i, false))) fresh_state [VInt 10; VInt 7; VInt 4; VInt 1] VNone.
Proof.
  split; [reflexivity|].
  exact (range_loop_visits_members (fun s i _ => (s, Ok (i, false))) fresh_state 10 0 (-3)
           ltac:(lia) ltac:(reflexivity) ltac:(reflexivity)).
Defined.

Lemma endless_while_is_stopped_witness :
  forallb passive [At 0 SPass] = true /\
  exists e, (eval_stmt 2 fresh_state (At 0 (SWhile (EConstant (CBool true)) [At 0 SPass] []))).2 = Err e /\
            is_limit e = true.
Proof. split; [reflexivity|]. apply endless_while_is_stopped; [lia|reflexivity]. Defined.
