(* ===== verification/Lines.v ===== *)
(** Line numbers on escaping errors (eval/mod.rs [stamp_line], and
    eval/exceptions.rs [strip_line_marker]): an error is stamped once, with the
    innermost line, and a handler sees the message without the stamp. Before that, the
    operator protocol (eval/op.rs): the comparisons a [total_ordering] class gets from
    its root method, and when they never answer. *)
From Stdlib Require Import ZArith Lia Ascii String SpecFloat.
From stdpp Require Import base tactics list numbers option strings pretty gmap.
From S2P Require Import Prelude PySet Values Errors F64 Keys Arith Classes Compare Operators State Exceptions Op Syntax Host Displays Eval Stmts.
From S2P Require Import Samples.

(** What a comparison operator says of an order. *)
Definition says (op : CmpOp) (c : comparison) : bool :=
  match op, c with
  | OpEq, Datatypes.Eq | OpLtE, (Lt | Datatypes.Eq) | OpLt, Lt | OpGt, Gt | OpGtE, (Gt | Datatypes.Eq)
  | OpNotEq, (Lt | Gt) => true
  | _, _ => false
  end.

Section TotalOrdering.
Context `{External} `{!ExternalOrder} `{!Platform} `{!Formats} `{!Trees} `{!Calls}.

Lemma derived_answer_says root op c : is_ordering op = true -> is_ordering root = true -> root <> op ->
  derived_answer root op (says root c) (says OpEq c) = Some (says op c).
Proof. destruct root, op, c; done. Qed.

Lemma ordering_root_ordering s op left root : ordering_root s op left = Some root ->
  is_ordering op = true /\ is_ordering root = true.
Proof.
  unfold ordering_root. destruct left; try done. intros E. apply bind_Some in E as (class & _ & E).
  destruct (is_ordering op); [|done]. destruct (negb (total_ordering class)); [done|]. cbn in E.
  split; [done|]. repeat (destruct (methods class !! _); [by injection E as <-|]). done.
Qed.

Lemma ordering_root_any s op op' left root : ordering_root s op left = Some root -> is_ordering op' = true ->
  ordering_root s op' left = Some root.
Proof.
  intros E O. destruct (ordering_root_ordering _ _ _ _ E) as [O' _]. unfold ordering_root in *. destruct left; try done.
  apply bind_Some in E as (class & L & E). rewrite L. cbn [mbind option_bind]. by rewrite O' in E; rewrite O.
Qed.

(** The operator that asks the same of the operands swapped. *)
Definition mirrored (op : CmpOp) : CmpOp :=
  match op with OpLt => OpGt | OpLtE => OpGtE | OpGt => OpLt | OpGtE => OpLtE | op => op end.

Lemma reflected_slot op : reflected_compare_slot op = forward_compare_slot (mirrored op).
Proof. by destruct op. Qed.

Lemma says_mirrored op c : says (mirrored op) (CompOpp c) = says op c.
Proof. by destruct op, c. Qed.

#[global] Instance cmp_op_decision : EqDecision CmpOp.
Proof. solve_decision. Defined.

(** A class whose instances have one ordering method, that of [root]; a dataclass
    compares no fields of them. *)
Record orders_by (s : InterpreterState) (root : CmpOp) (method : FunctionDef) (left right : Value) : Prop := {
  total : ordering_root s root left = Some root;
  no_dataclass op : dataclass_order_compare s op left right = None;
  left_slots op : is_ordering op = true -> instance_slot s left (forward_compare_slot op) = if decide (op = root) then Some method else None;
  right_slots op : is_ordering op = true -> instance_slot s right (forward_compare_slot op) = if decide (op = root) then Some method else None
}.

(** The method answers [b] for [self] and the other operand. *)
Definition slot_answers (s s' : InterpreterState) (method : FunctionDef) (self other : Value) (b : bool) : Prop :=
  exists v self', invoke_slot s self method [other] = (s', Ok (v, self')) /\ v <> VNotImplemented /\ is_truthy (heap s') v = b.

Lemma forward_answers fuel s s' op left right method b :
  instance_slot s left (forward_compare_slot op) = Some method -> is_ordering op = true ->
  slot_answers s s' method left right b -> exists l r, compare (S fuel) s op left right = (s', Ok (b, l, r)).
Proof.
  intros L O (v & l & I & N & <-). cbn [compare]. rewrite L, I.
  destruct op; try discriminate; cbn [and_then fst snd]; destruct v; try done; by eexists _, _.
Qed.

Lemma reflected_answers fuel s s' op left right method b :
  instance_slot s left (forward_compare_slot op) = None ->
  instance_slot s right (reflected_compare_slot op) = Some method -> is_ordering op = true ->
  slot_answers s s' method right left b -> exists l r, compare (S fuel) s op left right = (s', Ok (b, l, r)).
Proof.
  intros L R O (v & l & I & N & <-). cbn [compare]. rewrite L, R, I.
  destruct op; try discriminate; cbn [and_then fst snd]; destruct v; try done; by eexists _, _.
Qed.

(** C24: a [total_ordering] class with one ordering method, whichever of the four it is:
    when the method and the equality answer for two of its instances as an order
    does that puts them as [c] says, all four comparisons of them answer as that order.
    The method's own operator asks the method, the mirrored one asks the method of the
    other operand, and the two others combine its answer with that of the equality. *)
Theorem total_ordering_answers fuel s s1 s2 s3 root method left right c x y op :
  orders_by s root method left right ->
  slot_answers s s1 method left right (says root c) ->
  slot_answers s s2 method right left (says root (CompOpp c)) ->
  compare (S fuel) s1 OpEq left right = (s3, Ok (says OpEq c, x, y)) ->
  is_ordering op = true ->
  exists l r, compare (S (S fuel)) s op left right =
    (if decide (op = root) then s1 else if decide (mirrored op = root) then s2 else s3, Ok (says op c, l, r)).
Proof.
  intros [Root D Ls Rs] A1 A2 E O. destruct (ordering_root_ordering _ _ _ _ Root) as [Or _].
  pose proof (Ls op O) as L. destruct (decide (op = root)) as [->|Ne]; [by eapply forward_answers|].
  assert (is_ordering (mirrored op) = true) as Om by (by destruct op). pose proof (Rs _ Om) as R. rewrite <- reflected_slot in R.
  destruct (decide (mirrored op = root)) as [<-|Nm]; [rewrite says_mirrored in A2; by eapply reflected_answers|].
  destruct (forward_answers fuel s s1 root left right method _ ltac:(by rewrite Ls, decide_True by done) Or A1) as (l & r & F).
  set (n := S fuel) in *. clearbody n. cbn [compare]. rewrite L, R. unfold compare_without_slots, total_ordering_derive.
  rewrite D, (ordering_root_any _ _ _ _ _ Root O), F. cbn [and_then fst snd]. rewrite E. cbn [and_then fst snd done].
  rewrite derived_answer_says by (try done; by auto). eauto.
Qed.

(** The root method itself answering [NotImplemented] sends the comparison back
    to the root method, without end. *)
Lemma total_ordering_never_answers s root left right method :
  ordering_root s root left = Some root -> dataclass_order_compare s root left right = None ->
  instance_slot s right (reflected_compare_slot root) = None ->
  instance_slot s left (forward_compare_slot root) = Some method ->
  (forall self args, call_method s method self args = (s, Ok (VNotImplemented, self))) ->
  forall fuel, compare fuel s root left right = (s, Panic).
Proof.
  intros Root D R L M. induction fuel as [|fuel IH]; [done|].
  cbn [compare]. rewrite L. unfold invoke_slot. rewrite M. cbn [and_then fst]. rewrite R.
  unfold compare_without_slots, total_ordering_derive. by rewrite D, Root, IH.
Qed.
End TotalOrdering.

(** ** Witnesses *)

Lemma total_ordering_answers_witness :
  let s := ordered_state ["__lt__"; "__eq__"] in
  exists l r, compare 2 s OpGtE (VInstance "P" 2) (VInstance "P" 5) = (s, Ok (false, l, r)).
Proof.
  set (s := ordered_state ["__lt__"; "__eq__"]).
  refine (total_ordering_answers 0 s s s s OpLt (sample_method "__lt__") (VInstance "P" 2) (VInstance "P" 5) Lt
    (Some (VInstance "P" 2)) None OpGtE _ _ _ _ _); try reflexivity.
  - split; [reflexivity|..]; intros []; reflexivity || discriminate.
  - by eexists _, _.
  - by eexists _, _.
Defined.

(** A root method the sample methods do not answer. *)
Example total_ordering_hangs fuel :
  compare fuel (ordered_state ["__gt__"]) OpGt (VInstance "P" 0) (VInstance "P" 0) = (ordered_state ["__gt__"], Panic).
Proof.
  apply (total_ordering_never_answers _ OpGt _ _ (sample_method "__gt__")); try reflexivity.
  intros self args. destruct self; try reflexivity. destruct args as [|[] []]; reflexivity.
Qed.

(** ** The last occurrence of a pattern *)

Lemma rfind_app pat m rest i : rfind pat rest = Some i -> rfind pat (m ++ rest) = Some (String.length m + i)%nat.
Proof. intros E. induction m as [|c m IH]; [exact E|]. simpl. rewrite IH. reflexivity. Qed.

Lemma prefix_app_l a b s : String.prefix (a ++ b) s = true -> String.prefix a s = true.
Proof.
  revert s. induction a as [|c a IH]; intros s Hp; [by destruct s|]. destruct s as [|d s]; [done|]. simpl in *.
  destruct (Ascii.ascii_dec c d); [by apply IH|done].
Qed.

Lemma prefix_app_same a b s : String.prefix (a ++ b) (a ++ s) = String.prefix b s.
Proof. induction a as [|c a IH]; [done|]. simpl. by destruct (Ascii.ascii_dec c c). Qed.

Lemma prefix_self a s : String.prefix a (a ++ s) = true.
Proof.
  induction a as [|c a IH]; [by destruct s|]. simpl. by destruct (Ascii.ascii_dec c c).
Qed.

Lemma rfind_cons_none pat c s : rfind pat (String c s) = None ->
  rfind pat s = None /\ String.prefix pat (String c s) = false.
Proof. cbn [rfind]. destruct (rfind pat s); [done|]. by destruct (String.prefix pat (String c s)). Qed.

Lemma rfind_cons pat c s : rfind pat s = None -> String.prefix pat (String c s) = false ->
  rfind pat (String c s) = None.
Proof. intros E P. cbn [rfind]. by rewrite E, P. Qed.

Lemma prefix_mismatch c d p s : c <> d -> String.prefix (String c p) (String d s) = false.
Proof. intros E. simpl. by destruct (Ascii.ascii_dec c d). Qed.

(** A longer pattern occurs less often. *)
Lemma rfind_longer c pat s : rfind pat s = None -> pat <> EmptyString -> rfind (String c pat) s = None.
Proof.
  intros E Hp. induction s as [|d s IH]; [done|]. apply rfind_cons_none in E as [E _]. simpl.
  rewrite IH by done. destruct (Ascii.ascii_dec c d); [|done].
  destruct (String.prefix pat s) eqn:P; [|done]. exfalso. destruct s as [|x s]; [by destruct pat|].
  cbn [rfind] in E. rewrite P in E. by destruct (rfind pat s).
Qed.

Lemma substring_app m rest : substring 0 (String.length m) (m ++ rest) = m.
Proof. induction m as [|c m IH]; simpl; [by destruct rest|by rewrite IH]. Qed.

(** ** Numerals *)

Fixpoint all_chars (P : ascii -> bool) (s : string) : bool :=
  match s with EmptyString => true | String c s => P c && all_chars P s end.

(** A character of a numeral: never a space or a parenthesis. *)
Definition numeral_char (c : ascii) : bool := negb (Ascii.eqb c " ") && negb (Ascii.eqb c "(").

Lemma pretty_N_go_chars x : forall s, all_chars numeral_char s = true -> all_chars numeral_char (pretty_N_go x s) = true.
Proof.
  induction (N.lt_wf_0 x) as [x _ IH]. intros s Hs.
  destruct (decide (x = 0)%N) as [->|]; [by rewrite pretty_N_go_0|].
  rewrite pretty_N_go_step by lia. apply IH; [apply N.div_lt; lia|]. simpl. rewrite Hs, andb_true_r.
  unfold pretty_N_char. by repeat case_match.
Qed.

Lemma pretty_chars (z : Z) : all_chars numeral_char (pretty z) = true.
Proof.
  assert (forall x : N, all_chars numeral_char (pretty x) = true) as N.
  { intros x. unfold pretty, pretty_N. destruct (decide _); [done|]. by apply pretty_N_go_chars. }
  destruct z as [|p|p]; [done|apply (N (Npos p))|]. simpl. apply (N (Npos p)).
Qed.

(** ** The marker *)

Definition marker (line : Z) : string := " (at line " ++ pretty line ++ ")".

Lemma no_marker_in_numeral pat n : all_chars numeral_char n = true ->
  (exists p, pat = String " " p) \/ (exists p, pat = String "(" p) -> rfind pat (n ++ ")") = None.
Proof.
  intros Hn Hpat. induction n as [|c n IH].
  { by destruct Hpat as [[p ->]|[p ->]]. }
  cbn [all_chars] in Hn. apply andb_true_iff in Hn as [Hc Hn].
  unfold numeral_char in Hc. apply andb_true_iff in Hc as [C1 C2]. apply negb_true_iff, Ascii.eqb_neq in C1, C2.
  change (String c n +:+ ")") with (String c (n +:+ ")")). apply rfind_cons; [by apply IH|].
  destruct Hpat as [[p ->]|[p ->]]; apply prefix_mismatch; congruence.
Qed.

Lemma rfind_marker line : rfind " (at line " (marker line) = Some 0%nat.
Proof.
  unfold marker. pose proof (pretty_chars line) as C. set (n := pretty line) in *. clearbody n.
  pose proof (no_marker_in_numeral " (at line " n C (or_introl (ex_intro _ _ eq_refl))) as E.
  assert (String.prefix "(at line " (n ++ ")") = false) as P.
  { destruct n as [|c n]; [done|]. cbn [all_chars] in C. apply andb_true_iff in C as [C _]. unfold numeral_char in C.
    apply andb_true_iff in C as [_ C]. apply negb_true_iff, Ascii.eqb_neq in C. by apply prefix_mismatch. }
  assert (rfind " (at line " ("(at line " ++ n ++ ")") = None) as T.
  { do 8 (apply rfind_cons; [|reflexivity]). apply rfind_cons; [exact E|exact P]. }
  change (rfind " (at line " (String " " ("(at line " ++ n ++ ")")) = Some 0%nat).
  cbn [rfind]. rewrite T.
  assert (String.prefix " (at line " (String " " ("(at line " ++ n ++ ")")) = true) as ->; [|done].
  exact (prefix_self " (at line " (n +:+ ")")).
Qed.

Lemma string_app_assoc (a b c : string) : ((a ++ b) ++ c = a ++ (b ++ c))%string.
Proof. induction a as [|x a IH]; [done|]. exact (f_equal (String x) IH). Qed.

Lemma ends_with_paren_app m s : ends_with_paren s = true -> ends_with_paren (m ++ s) = true.
Proof.
  intros E. induction m as [|c m IH]; [exact E|].
  change (ends_with_paren (String c (m ++ s)) = true). destruct (m ++ s)%string; [done|exact IH].
Qed.

(** Stripping finds the last marker, whatever precedes it. *)
Lemma strip_stamped m line : strip_line_marker (m ++ marker line) = m.
Proof.
  unfold strip_line_marker. rewrite (rfind_app _ m _ _ (rfind_marker line)), Nat.add_0_r, substring_app.
  assert (ends_with_paren (marker line) = true) as E; [|by rewrite ends_with_paren_app].
  unfold marker. rewrite <- string_app_assoc. by apply ends_with_paren_app.
Qed.

(** An unmarked message, behind a prefix that ends in a space, is not stripped. *)
Lemma unmarked_prefix_free m : already_stamped m = false -> rfind " (at line " m = None.
Proof.
  unfold already_stamped. destruct (rfind "at line " m) eqn:E; [done|]. intros _.
  do 2 (apply rfind_longer; [|done]). exact E.
Qed.

Lemma already_stamped_app m rest : already_stamped rest = true -> already_stamped (m ++ rest) = true.
Proof.
  unfold already_stamped. destruct (rfind "at line " rest) as [i|] eqn:E; [|done]. by rewrite (rfind_app _ m _ _ E).
Qed.

Lemma marker_stamped m line : already_stamped (m ++ marker line) = true.
Proof.
  apply already_stamped_app. change (already_stamped (" (" ++ ("at line " ++ pretty line ++ ")")) = true).
  apply already_stamped_app. unfold already_stamped. set (rest := (pretty line ++ ")")%string).
  destruct (rfind "at line " ("at line " ++ rest)) eqn:E; [done|].
  apply (rfind_cons_none _ "a" ("t line " ++ rest)) in E as [_ E].
  pose proof (prefix_self "at line " rest) as P. simpl in P, E. congruence.
Qed.

Lemma stamp_message_strip line m : already_stamped m = false -> strip_line_marker (stamp_message line m) = strip_line_marker m.
Proof.
  intros A. unfold stamp_message. rewrite A. change (strip_line_marker (m ++ marker line) = strip_line_marker m).
  rewrite strip_stamped. unfold strip_line_marker. by rewrite unmarked_prefix_free.
Qed.

Lemma stamp_message_once line line' m : stamp_message line' (stamp_message line m) = stamp_message line m.
Proof.
  unfold stamp_message at 1. assert (already_stamped (stamp_message line m) = true) as ->; [|done].
  unfold stamp_message. destruct (already_stamped m) eqn:A; [done|]. apply marker_stamped.
Qed.

(** ** Errors *)

(** The message a stamp would extend. *)
Definition stampable (err : InterpreterError) : option string :=
  match err with
  | Errors.Syntax _ | RecursionLimitExceeded _ | StateFormatSuperseded _ _ | PythonException _ _ => None
  | Security m | Runtime m | LimitExceeded m | NameError m | TypeError m | ValueError m | AttributeError m
  | AssertionError m | ToolError _ m => Some m
  end.

Lemma stripped_prefix p m : already_stamped m = false -> already_stamped (p ++ m) = false ->
  forall line, strip_line_marker (p ++ stamp_message line m) = strip_line_marker (p ++ m).
Proof.
  intros A B line. unfold stamp_message. rewrite A.
  change (strip_line_marker (p ++ (m ++ marker line)) = strip_line_marker (p ++ m)).
  rewrite <- string_app_assoc, strip_stamped. unfold strip_line_marker. by rewrite unmarked_prefix_free.
Qed.

Section Errors.
Context `{External} `{!ExternalOrder} `{!Platform} `{!Formats} `{!Calls} `{!Estimates} `{!Environment} `{!Host}.

(** C23: an error leaving nested statements carries the line of the innermost
    one only, and the exception a handler sees is that of the error without any
    line: stamping again changes nothing, and converting strips the stamp. *)
Theorem line_stamp_invisible err line line' :
  (forall m, stampable err = Some m -> already_stamped (display_error err) = false) ->
  stamp_line (stamp_line (Interpreter err) line) line' = stamp_line (Interpreter err) line /\
  error_exception (stamp_line (Interpreter err) line) = error_exception (Interpreter err).
Proof.
  intros A. split.
  { destruct err; cbn [stamp_line]; rewrite ?stamp_message_once; reflexivity. }
  assert (forall p m, stampable err = Some m -> display_error err = (p ++ m)%string -> already_stamped m = false /\
     already_stamped (p ++ m) = false) as U.
  { intros p m E D. specialize (A m E). rewrite D in A. split; [|done].
    destruct (already_stamped m) eqn:S; [|done]. by rewrite already_stamped_app in A. }
  destruct err; cbn [stamp_line error_exception interpreter_error_to_exception]; try reflexivity;
    try (edestruct U as [U1 U2]; [reflexivity..|];
         unfold interpreter_error_to_exception; rewrite ?stamp_message_strip by exact U1; try reflexivity).
  all: try (do 3 f_equal; exact (stripped_prefix _ _ U1 U2 line)).
  destruct (U ("ToolError in '" +:+ (tool_name +:+ "': "))%string message) as [U1 _]; [done| |by rewrite stamp_message_strip].
  cbn [display_error]. by rewrite !string_app_assoc.
Qed.
End Errors.

Lemma line_stamp_invisible_witness :
  (forall m, stampable (TypeError "bad operand") = Some m -> already_stamped (display_error (TypeError "bad operand")) = false) /\
  stamp_line (stamp_line (Interpreter (TypeError "bad operand")) 12) 3 =
    Interpreter (TypeError "bad operand (at line 12)").
Proof.
  assert (forall m, stampable (TypeError "bad operand") = Some m ->
    already_stamped (display_error (TypeError "bad operand")) = false) as A by (intros; vm_compute; reflexivity).
  split; [exact A|]. rewrite (proj1 (line_stamp_invisible _ 12 3 A)). vm_compute. reflexivity.
Defined.
