(* ===== verification/Frame.v ===== *)
(** The frame of the interpreter state: what every evaluation leaves as it found
    it. The depth counters, the saved depths, the stacks of sources, qualified names,
    running generators and running methods and the configuration are restored however an
    evaluation ends, provided the components behind the interfaces restore them too. The
    stack of handled exceptions is not: a generator suspended in a handler leaves its own. *)
From Stdlib Require Import ZArith Lia Ascii String SpecFloat.
From stdpp Require Import base tactics list numbers option strings pretty gmap.
From S2P Require Import Prelude PySet Values Errors F64 Keys Arith Classes Slices Compare Operators State Exceptions Op Syntax Names Host Displays Eval Params Definitions Match Stmts Samples.

Section Frame.
Context `{External} `{!Trees}.

(** Two stacks that differ at most in their innermost entry. *)
Definition same_outer {A} (l l' : list A) : Prop := length l' = length l /\ removelast l' = removelast l.

#[export] Instance same_outer_equivalence {A} : Equivalence (@same_outer A).
Proof.
  split; unfold same_outer; [done|by intros ?? [-> ->]|].
  intros ??? [-> ->] [-> ->]. done.
Qed.

Lemma same_outer_push {A} (l l' : list A) x : same_outer (l ++ [x]) l' -> removelast l' = l.
Proof. intros [_ E]. by rewrite removelast_last in E. Qed.

Lemma same_outer_last {A} (l : list A) x : l <> [] -> same_outer l (removelast l ++ [x]).
Proof.
  intros N. rewrite (app_removelast_last x N) at 1. split; [by rewrite !length_app|].
  by rewrite !removelast_last.
Qed.

Record frame (s s' : InterpreterState) : Prop := {
  frame_config : config s' = config s;
  frame_call_depth : call_depth s' = call_depth s;
  frame_expr_depth : expr_depth s' = expr_depth s;
  frame_saved : saved_expr_depth s' = saved_expr_depth s;
  frame_qualnames : qualname_stack s' = qualname_stack s;
  frame_source : current_source s' = current_source s;
  frame_sources : body_source_stack s' = body_source_stack s;
  frame_active : active_generator_stack s' = active_generator_stack s;
  frame_methods : method_frames s' = method_frames s;
  frame_owners : same_outer (frame_cell_owners s) (frame_cell_owners s');
  frame_yields : same_outer (yield_stack s) (yield_stack s')
}.

#[export] Instance frame_preorder : PreOrder frame.
Proof.
  split; [split; reflexivity|]. intros s1 s2 s3 [] []. split; try congruence; etrans; eassumption.
Qed.

(** The counters are unsigned 32-bit. *)
Definition counters_ok (s : InterpreterState) : Prop :=
  0 <= expr_depth s /\ 0 <= call_depth s /\ max_recursion_depth (config s) <= u32_max.

(** A call that keeps the frame, unless it never returns. *)
Definition framed {A} (s : InterpreterState) (m : Eval A) : Prop :=
  counters_ok s -> m.2 = Panic \/ frame s m.1.

Lemma framed_refl {A} s (r : EvalResult A) : framed s (s, r).
Proof. intros _. by right. Qed.

Lemma framed_step {A} s s' (r : EvalResult A) : frame s s' -> framed s (s', r).
Proof. intros F _. by right. Qed.

Lemma framed_panic {A} s s' : framed s (s', @Panic EvalError A).
Proof. intros _. by left. Qed.

Lemma framed_weaken {A} s s' (m : Eval A) : frame s s' -> framed s' m -> framed s m.
Proof.
  intros F M O. destruct M as [P|F']; [|by left|right; by trans s'].
  unfold counters_ok. by rewrite (frame_expr_depth _ _ F), (frame_call_depth _ _ F), (frame_config _ _ F).
Qed.

Lemma framed_bind {A B} s (m : Eval A) (f : InterpreterState -> A -> Eval B) :
  framed s m -> (forall s' a, framed s' (f s' a)) -> framed s (and_then m f).
Proof.
  intros M F O. destruct (M O) as [P|F']; destruct m as [s' [a|e|]]; simpl in *; try done; auto.
  exact (framed_weaken _ _ _ F' (F s' a) O).
Qed.

Lemma framed_match {A B} s (m : Eval A) (k : InterpreterState -> EvalResult A -> Eval B) :
  framed s m -> (forall s', (k s' Panic).2 = Panic) -> (forall s' r, framed s' (k s' r)) ->
  framed s (let (s', r) := m in k s' r).
Proof.
  intros M P F O. destruct (M O) as [Q|F']; destruct m as [s' r]; simpl in *; [subst; left; apply P|].
  exact (framed_weaken _ _ _ F' (F s' r) O).
Qed.
End Frame.

Create HintDb frame discriminated.
#[export] Hint Resolve framed_refl framed_panic : frame.
#[export] Hint Extern 2 (framed ?s (?s', _)) => apply framed_step; split; reflexivity : frame.

(** Follow the structure of an evaluation: its binds, its cases, the calls the
    database knows. *)
Ltac frame_step :=
  match goal with
  | |- framed _ (and_then _ _) => apply framed_bind; [|intros ? ?]
  | |- framed _ (done _ _) => apply framed_refl
  | |- framed _ (let (_, _) := ?m in _) =>
      apply (framed_match _ m); [|intros ?; reflexivity|intros ? ?]
  | |- framed _ (match ?x with _ => _ end) => destruct x
  end.
Ltac frames := cbv zeta; repeat (first [progress intros | frame_step | solve [eauto 4 with frame]]; cbv zeta beta).

(** * What the interfaces have to keep *)

Class FrameLaws `{External} `{!Calls} `{!Host} : Prop := {
  call_method_framed s m v vs : framed s (call_method s m v vs);
  generator_next_framed s g : framed s (generator_next s g);
  str_format_framed s t v : framed s (str_percent_format_async s t v);
  bytes_format_framed s b v : framed s (bytes_percent_format_async s b v);
  host_expr_framed s n : framed s (host_expr s n);
  host_stmt_framed s n : framed s (host_stmt s n);
  host_assign_framed s n v : framed s (host_assign s n v);
  host_aug_assign_framed s n op e : framed s (host_aug_assign s n op e);
  host_resolve_framed s l : framed s (host_resolve s l);
  host_context_method_framed s v m vs : framed s (host_context_method s v m vs);
  apply_decorator_framed s d v : framed s (apply_decorator s d v)
}.
#[export] Hint Resolve call_method_framed generator_next_framed str_format_framed bytes_format_framed
  host_expr_framed host_stmt_framed host_assign_framed
  host_aug_assign_framed host_resolve_framed host_context_method_framed apply_decorator_framed : frame.

Section Evaluation.
Context `{External} `{!ExternalOrder} `{!Platform} `{!Formats} `{!Calls} `{!Estimates} `{!Environment} `{!Host}.
Context `{!FrameLaws}.

(** ** State operations *)

Lemma create_generator_framed s f b ls ns : frame s (create_generator s f b ls ns).1.
Proof. split; reflexivity. Qed.

Lemma in_heap_framed {A} s (r : EvalResult (A * Heap)) : framed s (in_heap s r).
Proof. unfold in_heap. frames. Qed.

Lemma walk_framed {A} s (w : Walk (EvalError + A)) : framed s (walk s w).
Proof. unfold walk. frames. Qed.

Lemma increment_ops_frame show elapsed s : frame s (increment_ops show elapsed s).1.
Proof.
  unfold increment_ops. cbv zeta. repeat case_match; split; reflexivity.
Qed.

Lemma lift_call_framed s c : frame s c.1 -> framed s (lift_call c).
Proof. destruct c as [s' [e|]]; apply framed_step. Qed.

Lemma tick_framed s : framed s (tick s).
Proof. apply lift_call_framed, increment_ops_frame. Qed.

Lemma set_variable_frame name v s : frame s (set_variable size name v s).1.
Proof.
  unfold set_variable, write_through, check_memory. cbn [fst]. destruct (variables s !! name);
    (destruct (list.last _) as [owners|]; [destruct (owners !! name)|]); split; reflexivity.
Qed.

Lemma set_variable_framed name v s : framed s (lift_call (set_variable size name v s)).
Proof. apply lift_call_framed, set_variable_frame. Qed.

Lemma guarded_framed {A} s (k : InterpreterState -> Eval A) :
  (forall s, framed s (k s)) -> framed s (guarded s k).
Proof.
  intros K O. unfold guarded, lift_call, enter_expr. destruct (_ >=? _) eqn:D; [by right|].
  simpl. set (s1 := set_depths _ _ _ s). pose proof (K s1) as F.
  reflect D. destruct O as (O1 & O3 & O2). assert (expr_depth s + 1 <= u32_max) as D' by lia.
  destruct F as [P|F].
  - unfold counters_ok, s1, saturating_add. simpl. lia.
  - destruct (k s1) as [s2 r]. left. done.
  - destruct (k s1) as [s2 r]. right. destruct F. simpl in *. split; simpl; try congruence.
    unfold saturating_sub, saturating_add in *. lia.
Qed.
End Evaluation.
#[export] Hint Resolve in_heap_framed walk_framed tick_framed set_variable_framed : frame.

(** * Operations that may run user code *)

Section Ops.
Context `{External} `{!ExternalOrder} `{!Platform} `{!Formats} `{!Calls} `{!Host} `{!FrameLaws}.

Lemma returned_framed s v m vs : framed s (returned s v m vs).
Proof. unfold returned, invoke_slot. frames. Qed.
#[local] Hint Resolve returned_framed : frame.

Lemma truthy_framed s v : framed s (truthy s v).
Proof. unfold truthy. frames. Qed.
#[local] Hint Resolve truthy_framed : frame.

Lemma apply_framed s op l r : framed s (apply s op l r).
Proof. unfold apply. frames. Qed.
#[local] Hint Resolve apply_framed : frame.

Lemma binop_slots_framed s op l r : framed s (binop_slots s op l r).
Proof. unfold binop_slots. frames. Qed.
#[local] Hint Resolve binop_slots_framed : frame.

Lemma binop_framed s op l r : framed s (binop s op l r).
Proof. unfold binop. frames. Qed.
#[local] Hint Resolve binop_framed : frame.

Lemma unaryop_framed s op v : framed s (unaryop s op v).
Proof. unfold unaryop, apply_unaryop. frames. Qed.
End Ops.
#[export] Hint Resolve returned_framed truthy_framed apply_framed binop_framed unaryop_framed : frame.

Section MoreOps.
Context `{External} `{!ExternalOrder} `{!Platform} `{!Formats} `{!Calls} `{!Host} `{!FrameLaws}.

Lemma dataclass_order_compare_framed s op l r m : dataclass_order_compare s op l r = Some m -> framed s m.
Proof.
  unfold dataclass_order_compare. destruct l, r; try done. case_match; [done|].
  destruct (classes s !! _) as [c|]; [|done]. cbn. case_match; [done|].
  destruct (dataclass_fields c); [|done]. cbn. intros [= <-]. apply walk_framed.
Qed.

Lemma total_ordering_derive_framed cmp s op l r :
  (forall s op l r, framed s (cmp s op l r)) -> framed s (total_ordering_derive cmp s op l r).
Proof. intros C. unfold total_ordering_derive. frames. Qed.

Lemma compare_without_slots_framed cmp s op l r :
  (forall s op l r, framed s (cmp s op l r)) -> framed s (compare_without_slots cmp s op l r).
Proof.
  intros C. unfold compare_without_slots, builtin_compare. cbv zeta.
  destruct (dataclass_order_compare s op l r) eqn:E.
  - apply framed_bind; [by eapply dataclass_order_compare_framed|]. frames.
  - apply framed_bind; [by apply total_ordering_derive_framed|]. frames.
Qed.

Lemma compare_framed fuel s op l r : framed s (compare fuel s op l r).
Proof.
  revert s op l r. induction fuel as [|fuel IH]; intros s op l r; cbn [compare]; [apply framed_panic|].
  pose proof (fun s op l r => compare_without_slots_framed _ s op l r IH) as W.
  unfold invoke_slot. frames.
Qed.
#[local] Hint Resolve compare_framed : frame.

Lemma eq_framed fuel s l r : framed s (eq fuel s l r).
Proof. unfold eq. frames. Qed.
#[local] Hint Resolve eq_framed : frame.

Lemma hash_framed s v : framed s (hash s v).
Proof. unfold hash. frames. Qed.
#[local] Hint Resolve hash_framed : frame.

Lemma key_framed s v : framed s (key s v).
Proof. unfold key. frames. Qed.
#[local] Hint Resolve key_framed : frame.

Lemma find_instance_key_framed fuel s h n es : framed s (find_instance_key fuel s h n es).
Proof. revert s. induction es as [|[k v] es IH]; intros s; cbn [find_instance_key]; frames. Qed.
#[local] Hint Resolve find_instance_key_framed : frame.

Lemma dict_get_instance_key_framed fuel s m n : framed s (dict_get_instance_key fuel s m n).
Proof. unfold dict_get_instance_key. frames. Qed.
#[local] Hint Resolve dict_get_instance_key_framed : frame.

Lemma coerce_index_framed s v : framed s (coerce_index s v).
Proof. unfold coerce_index. frames. Qed.
#[local] Hint Resolve coerce_index_framed : frame.

Lemma getitem_framed fuel s c i : framed s (getitem fuel s c i).
Proof. unfold getitem. frames. Qed.
#[local] Hint Resolve getitem_framed : frame.

(** Stepping an iterator until it stops. *)
Lemma drain_framed n s g : framed s (drain n s g).
Proof. revert s. induction n as [|n IH]; intros s; cbn [drain]; frames. Qed.
#[local] Hint Resolve drain_framed : frame.

Lemma step_builtin_iter_frame id s : frame s (step_builtin_iter id s).2.
Proof. unfold step_builtin_iter. destruct (builtin_iters s !! id); [case_match|]; split; reflexivity. Qed.

Lemma drain_cursor_framed n s id : framed s (drain_cursor n s id).
Proof.
  revert s. induction n as [|n IH]; intros s; cbn [drain_cursor]; [apply framed_panic|].
  pose proof (step_builtin_iter_frame id s) as F. destruct (step_builtin_iter id s) as [[v|] s'];
    apply (framed_weaken s s' _ F); frames.
Qed.
#[local] Hint Resolve drain_cursor_framed : frame.

Lemma iter_builtin_framed s v : framed s (iter_builtin s v).
Proof. unfold iter_builtin. frames; apply framed_step; split; reflexivity. Qed.
#[local] Hint Resolve iter_builtin_framed : frame.

Lemma step_next_framed n s it m : framed s (step_next n s it m).
Proof. revert s it. induction n as [|n IH]; intros s it; cbn [step_next]; unfold invoke_slot; frames. Qed.
#[local] Hint Resolve step_next_framed : frame.

Lemma getitem_iterate_framed fuel n s v i : framed s (getitem_iterate fuel n s v i).
Proof. revert s i. induction n as [|n IH]; intros s i; cbn [getitem_iterate]; frames. Qed.
#[local] Hint Resolve getitem_iterate_framed : frame.

Lemma iter_framed fuel s v : framed s (iter fuel s v).
Proof. unfold iter. frames. Qed.
#[local] Hint Resolve iter_framed : frame.

Lemma any_eq_framed fuel s i vs : framed s (any_eq fuel s i vs).
Proof. revert s. induction vs as [|v vs IH]; intros s; cbn [any_eq]; frames. Qed.
#[local] Hint Resolve any_eq_framed : frame.

Lemma contains_framed fuel s c i : framed s (contains fuel s c i).
Proof. unfold contains. frames. Qed.

Lemma aug_binop_framed fuel s op l r : framed s (aug_binop fuel s op l r).
Proof. unfold aug_binop. frames; apply framed_step; split; reflexivity. Qed.
End MoreOps.
#[export] Hint Resolve compare_framed eq_framed hash_framed any_eq_framed iter_framed contains_framed aug_binop_framed : frame.

(** * Expressions *)

Section Expressions.
Context `{External} `{!ExternalOrder} `{!Platform} `{!Formats} `{!Calls} `{!Estimates} `{!Environment} `{!Host}.
Context `{!FrameLaws}.

Lemma resolve_proxy_framed s v : framed s (resolve_proxy s v).
Proof. unfold resolve_proxy. frames. Qed.
#[local] Hint Resolve resolve_proxy_framed : frame.

Lemma condition_framed s v : framed s (condition s v).
Proof. unfold condition. frames. Qed.
#[local] Hint Resolve condition_framed : frame.

Lemma charge_framed n s : framed s (charge n s).
Proof. revert s. induction n as [|n IH]; intros s; cbn [charge]; frames. Qed.
#[local] Hint Resolve charge_framed : frame.

(** The fast path, and what is done when it does not take the node. *)
Lemma try_framed s e (k : InterpreterState -> Eval Value) :
  (forall s, framed s (k s)) ->
  framed s (match try_eval_expr_sync s e with (s, Some r) => done s r | (s, None) => k s end).
Proof.
  intros K. assert (forall s m, framed s m ->
    framed s (match taken m with (s, Some r) => done s r | (s, None) => k s end)) as T.
  { by intros s' [s'' r]. }
  unfold try_eval_expr_sync. destruct e; try apply K; try (solve [apply T; frames]).
  all: unfold try_eval_numeric_expr_sync; destruct (eval_numeric_unmetered _ _ _ _) as [flag o].
  all: apply (framed_weaken s (set_overflow flag s)); [split; reflexivity|].
  all: destruct o as [[[v n]|[err n]|]|]; [apply T; frames|apply T; frames|apply framed_panic|apply K].
Qed.

Section Children.
Variable eval : InterpreterState -> PyExpr -> Eval Value.
Abbreviation ok e := (forall s, framed s (eval s e)).

Lemma operand_framed s e : ok e -> framed s (operand eval s e).
Proof. intros E. unfold operand. apply framed_bind; [by apply try_framed|]. frames. Qed.

Lemma eval_resolved_framed s e : ok e -> framed s (eval_resolved eval s e).
Proof. intros E. unfold eval_resolved. frames. Qed.

Lemma eval_condition_framed s e : ok e -> framed s (eval_condition eval s e).
Proof. intros E. unfold eval_condition. pose proof eval_resolved_framed. frames. Qed.

Lemma eval_binop_framed s l op r : ok l -> ok r -> framed s (eval_binop eval s l op r).
Proof.
  intros L R. unfold eval_binop. apply guarded_framed. intros s'. unfold eval_binop_inner.
  apply framed_bind; [by apply operand_framed|intros s2 lhs].
  apply framed_bind; [by apply operand_framed|intros s3 rhs]. frames.
Qed.

Lemma eval_unaryop_framed s op e : ok e -> framed s (eval_unaryop eval s op e).
Proof.
  intros E. unfold eval_unaryop. apply guarded_framed. intros s'.
  apply framed_bind; [by apply eval_resolved_framed|]. frames.
Qed.

Lemma compare_pair_framed s op l r lv rv : framed s (compare_pair s op l r lv rv).
Proof. unfold compare_pair, write_back. frames. Qed.

Lemma compare_chain_framed es : (forall e, e ∈ es -> ok e) -> forall s ops v lv,
  framed s (compare_chain eval s ops es v lv).
Proof.
  induction es as [|e es IH]; intros E s ops v lv; cbn [compare_chain]; [destruct ops; frames|].
  destruct ops as [|op ops]; [frames|].
  apply framed_bind; [apply operand_framed, E; left|intros s1 rhs].
  apply framed_bind; [apply compare_pair_framed|intros s2 []]; [|frames].
  apply IH. intros e' Hin. apply E. by right.
Qed.

Lemma eval_compare_framed s l ops es : ok l -> (forall e, e ∈ es -> ok e) ->
  framed s (eval_compare eval s l ops es).
Proof.
  intros L E. unfold eval_compare. apply framed_bind; [by apply operand_framed|].
  intros. by apply compare_chain_framed.
Qed.

Lemma bool_chain_framed stop es : (forall e, e ∈ es -> ok e) -> forall s v,
  framed s (bool_chain eval s stop es v).
Proof.
  induction es as [|e es IH]; intros E s v; cbn [bool_chain]; [frames|].
  apply framed_bind; [apply eval_resolved_framed, E; left|intros s1 v1].
  apply framed_bind; [frames|intros s2 c]. destruct (Bool.eqb c stop); [frames|].
  apply IH. intros e' Hin. apply E. by right.
Qed.

Lemma eval_ifexp_framed s t b o : ok t -> ok b -> ok o -> framed s (eval_ifexp eval s t b o).
Proof.
  intros T B O. unfold eval_ifexp. apply guarded_framed. intros s'.
  apply framed_bind; [by apply eval_condition_framed|]. frames.
Qed.

Lemma eval_named_expr_framed s t v : ok v -> framed s (eval_named_expr eval s t v).
Proof. intros V. unfold eval_named_expr. apply guarded_framed. frames. Qed.

Lemma eval_display_elements_framed es :
  (forall e, e ∈ es -> ok e) -> (forall e, EStarred e ∈ es -> ok e) -> forall s,
  framed s (eval_display_elements eval s es).
Proof.
  induction es as [|e es IH]; intros E E' s; cbn [eval_display_elements]; [frames|].
  assert (ok e) as Ee by (apply E; left).
  assert (forall s, framed s (eval_display_elements eval s es)) as IH'.
  { apply IH; intros e' Hin; [apply E|apply E']; by right. }
  destruct e; frames. apply E'. left.
Qed.

Lemma find_instance_entry_framed h n es : forall s i, framed s (find_instance_entry s h n i es).
Proof. induction es as [|[k v] es IH]; intros s i; cbn [find_instance_entry]; frames. Qed.
#[local] Hint Resolve find_instance_entry_framed : frame.

Lemma insert_evaluated_framed s m k v : framed s (insert_evaluated s m k v).
Proof. unfold insert_evaluated, dict_insert_instance_key. frames. Qed.
#[local] Hint Resolve insert_evaluated_framed : frame.

Lemma distinct_framed cs : forall s items seen, framed s (distinct s items seen cs).
Proof. induction cs as [|c cs IH]; intros s items seen; cbn [distinct]; frames. Qed.
#[local] Hint Resolve distinct_framed : frame.

Lemma build_set_framed s cs c : framed s (build_set s cs c).
Proof. unfold build_set. frames; apply framed_step; split; reflexivity. Qed.

Lemma alloc_dict_framed s es : framed s (alloc_dict s es).
Proof. apply framed_step. split; reflexivity. Qed.
#[local] Hint Resolve build_set_framed alloc_dict_framed : frame.

Lemma eval_dict_items_framed items :
  (forall k v, (Some k, v) ∈ items -> ok k) -> (forall k v, (k, v) ∈ items -> ok v) ->
  forall s m, framed s (eval_dict_items eval s items m).
Proof.
  induction items as [|[[k|] v] items IH]; intros K V s m; cbn [eval_dict_items]; [frames| |].
  - assert (ok k) by (apply (K k v); left). assert (ok v) by (apply (V (Some k) v); left).
    assert (forall s m, framed s (eval_dict_items eval s items m)) by
      (apply IH; intros; [eapply K|eapply V]; right; eassumption). frames.
  - assert (ok v) by (apply (V None v); left).
    assert (forall s m, framed s (eval_dict_items eval s items m)) by
      (apply IH; intros; [eapply K|eapply V]; right; eassumption). frames.
Qed.

(** ** Comprehensions *)

Lemma set_comprehension_target_framed t : forall s v, framed s (set_comprehension_target s t v).
Proof.
  assert (forall n t, (expr_height t <= n)%nat -> forall s v, framed s (set_comprehension_target s t v)) as Hn;
    [|by apply (Hn (expr_height t))].
  intros n. induction n as [|n IH]; intros e L s v; [destruct e; cbn in L; lia|].
  destruct e; cbn in L; apply le_S_n in L; cbn [set_comprehension_target]; try solve [frames].
  - apply framed_step. unfold write_through. repeat case_match; split; reflexivity.
  - apply framed_bind; [frames|intros s1 items]. destruct (negb _); [frames|].
    revert s1 items. induction elts as [|x elts IHe]; intros s1 items; [frames|].
    destruct items as [|w items]; [frames|]. apply framed_bind.
    + apply IH. eapply max_of_le; [exact L|left].
    + intros s2 _. apply IHe. cbn in L. unfold max_of in *. lia.
Qed.
#[local] Hint Resolve set_comprehension_target_framed : frame.

Lemma eval_filters_framed ifs : (forall e, e ∈ ifs -> ok e) -> forall s, framed s (eval_filters eval s ifs).
Proof.
  induction ifs as [|e ifs IH]; intros E s; cbn [eval_filters]; [frames|].
  apply framed_bind; [apply eval_resolved_framed, E; left|intros s1 c].
  apply framed_bind; [frames|intros s2 []]; [|frames]. apply IH. intros. apply E. by right.
Qed.

Lemma next_item_framed s it : framed s (next_item s it).
Proof.
  unfold next_item. destruct it; try solve [frames].
  match goal with |- context [step_builtin_iter ?i s] => pose proof (step_builtin_iter_frame i s) as F;
    destruct (step_builtin_iter i s) as [[v|] s'] end; by apply framed_step.
Qed.
#[local] Hint Resolve next_item_framed : frame.

Section Loops.
Context {A : Type} (visit : InterpreterState -> Value -> A -> Eval A).
Hypothesis visit_framed : forall s v acc, framed s (visit s v acc).

Lemma visit_items_framed items : forall s acc, framed s (visit_items visit s items acc).
Proof. induction items as [|i items IH]; intros s acc; cbn [visit_items]; frames. Qed.
#[local] Hint Resolve visit_items_framed : frame.

Lemma visit_range_framed n stop step : forall s i acc, framed s (visit_range visit n s stop step i acc).
Proof. induction n as [|n IH]; intros s i acc; cbn [visit_range]; frames. Qed.

Lemma visit_iterator_framed n it : forall s acc, framed s (visit_iterator visit n s it acc).
Proof. induction n as [|n IH]; intros s acc; cbn [visit_iterator]; frames. Qed.

Lemma visit_iterable_framed st s it acc : framed s (visit_iterable visit st s it acc).
Proof.
  unfold visit_iterable. cbv zeta.
  assert (framed s (and_then (iter nesting s it) (fun s items => visit_items visit s items acc))) as D by frames.
  destruct it; try exact D; try apply visit_range_framed; destruct st; try exact D; apply visit_iterator_framed.
Qed.
End Loops.

Definition comp_ok (g : Comprehension) : Prop :=
  match g with mkComprehension _ i ifs _ => ok i /\ forall e, e ∈ ifs -> ok e end.

Lemma in_own_scope_framed {A} st (leaf : InterpreterState -> A -> Eval A) gens s acc :
  (forall s acc, framed s (leaf s acc)) -> (forall g, g ∈ gens -> comp_ok g) ->
  framed s (in_own_scope eval st leaf gens s acc).
Proof.
  intros L G. unfold in_own_scope. cbv zeta.
  assert (forall s acc, framed s (eval_generators eval st leaf gens s acc)) as E.
  { induction gens as [|[t i ifs a] gens IH]; intros s' acc'; cbn [eval_generators]; [apply L|].
    destruct (G (mkComprehension t i ifs a)) as [Oi Oifs]; [left|].
    assert (forall s acc, framed s (eval_generators eval st leaf gens s acc)) as IH' by
      (apply IH; intros; apply G; by right).
    apply framed_bind; [by apply eval_resolved_framed|intros s1 it]. apply visit_iterable_framed.
    intros s2 v acc2. apply framed_bind; [frames|intros s3 _].
    apply framed_bind; [by apply eval_filters_framed|intros s4 []]; [apply IH'|frames]. }
  apply (framed_match _ (eval_generators eval st leaf gens s acc)); [apply E|done|].
  intros s1 r. apply framed_step. split; reflexivity.
Qed.

Lemma append_element_framed e : ok e -> forall s acc, framed s (append_element eval e s acc).
Proof. intros O s acc. unfold append_element. frames. Qed.

Lemma insert_pair_framed k v : ok k -> ok v -> forall s acc, framed s (insert_pair eval k v s acc).
Proof. intros K V s acc. unfold insert_pair. frames. Qed.

Lemma eval_list_comp_framed s e gens : ok e -> (forall g, g ∈ gens -> comp_ok g) ->
  framed s (eval_list_comp eval s e gens).
Proof.
  intros E G. unfold eval_list_comp. apply framed_bind; [frames|intros s1 _].
  apply framed_bind; [|frames]. apply in_own_scope_framed; [by apply append_element_framed|done].
Qed.

Lemma eval_set_comp_framed s e gens : ok e -> (forall g, g ∈ gens -> comp_ok g) ->
  framed s (eval_set_comp eval s e gens).
Proof.
  intros E G. unfold eval_set_comp. apply framed_bind; [frames|intros s1 _].
  apply framed_bind; [|frames]. apply in_own_scope_framed; [by apply append_element_framed|done].
Qed.

Lemma eval_dict_comp_framed s k v gens : ok k -> ok v -> (forall g, g ∈ gens -> comp_ok g) ->
  framed s (eval_dict_comp eval s k v gens).
Proof.
  intros K V G. unfold eval_dict_comp. apply framed_bind; [frames|intros s1 _].
  apply framed_bind; [|frames]. apply in_own_scope_framed; [by apply insert_pair_framed|done].
Qed.

Lemma eager_genexp_framed s e gens : ok e -> (forall g, g ∈ gens -> comp_ok g) ->
  framed s (eager_genexp eval s e gens).
Proof.
  intros E G. unfold eager_genexp. apply framed_bind.
  - apply in_own_scope_framed; [by apply append_element_framed|done].
  - intros s1 rs. unfold alloc_lazy, alloc_lazy_kind. cbv zeta beta. apply framed_step. split; reflexivity.
Qed.

Lemma try_lazy_genexp_framed s e t i ifs : ok i -> framed s (try_lazy_genexp eval s e t i ifs).
Proof.
  intros I. unfold try_lazy_genexp. apply framed_bind; [by apply eval_resolved_framed|intros s1 v].
  destruct (_ && _); [frames|]. destruct (negb _); [frames|].
  match goal with |- context [create_generator ?s ?f ?b ?l ?n] =>
    pose proof (create_generator_framed s f b l n) as F; destruct (create_generator s f b l n) as [s2 g] end.
  by apply framed_step.
Qed.

Lemma eval_generator_exp_framed s e gens : ok e -> (forall g, g ∈ gens -> comp_ok g) ->
  framed s (eval_generator_exp eval s e gens).
Proof.
  intros E G. unfold eval_generator_exp. apply framed_bind; [frames|intros s1 _].
  assert (forall s, framed s (eager_genexp eval s e gens)) by (intros; by apply eager_genexp_framed).
  destruct gens as [|[t i ifs []] [|g gens]]; try done.
  destruct (G (mkComprehension t i ifs false)) as [I _]; [left|].
  apply framed_bind; [by apply try_lazy_genexp_framed|intros s2 [g|]]; frames.
Qed.
End Children.

Lemma starred_height {es : list PyExpr} {n} : (max_of expr_height es <= n)%nat ->
  forall e, EStarred e ∈ es -> (expr_height e <= n)%nat.
Proof. intros L e Hin. pose proof (max_of_le _ _ _ L _ Hin) as L'. cbn in L'. lia. Qed.

Lemma comp_height_ok (eval : InterpreterState -> PyExpr -> Eval Value) gens n :
  (forall e, (expr_height e <= n)%nat -> forall s, framed s (eval s e)) -> (max_of comp_height gens <= n)%nat ->
  forall g, g ∈ gens -> comp_ok eval g.
Proof.
  intros E L [t i ifs a] G. pose proof (max_of_le _ _ _ L _ G) as L'. cbn in L'.
  split; [apply E; lia|]. intros e He. apply E.
  pose proof (max_of_elem expr_height ifs e He). lia.
Qed.

Lemma dict_height_ok (items : list (option PyExpr * PyExpr)) n :
  (max_of (fun kv => Nat.max (opt_max expr_height kv.1) (expr_height kv.2)) items <= n)%nat ->
  forall k v, (k, v) ∈ items -> (opt_max expr_height k <= n /\ expr_height v <= n)%nat.
Proof. intros L k v Hin. pose proof (max_of_le _ _ _ L _ Hin) as L'. cbn in L'. lia. Qed.

Lemma eval_expr_framed s e : framed s (eval_expr s e).
Proof.
  assert (forall n e, (expr_height e <= n)%nat -> forall s, framed s (eval_expr s e)) as Hn.
  { clear s e. induction n as [|n IH]; intros e L s; [destruct e; cbn in L; lia|].
    destruct e; cbn in L; apply le_S_n in L; cbn [eval_expr]; apply try_framed; intros s1;
      (apply framed_bind; [apply tick_framed|intros s2 []]); try solve [frames].
    - apply eval_binop_framed; intros; apply IH; lia.
    - apply eval_unaryop_framed; intros; apply IH; lia.
    - apply eval_compare_framed; intros; apply IH; [lia|]. eapply max_of_le; [|done]. unfold max_of in *. lia.
    - unfold eval_boolop. destruct op; apply bool_chain_framed; intros; apply IH; eapply max_of_le; eauto.
    - apply eval_ifexp_framed; intros; apply IH; lia.
    - apply eval_named_expr_framed; intros; apply IH; lia.
    - unfold eval_tuple. apply framed_bind; [|frames].
      apply eval_display_elements_framed; intros; apply IH; [eapply max_of_le|eapply starred_height]; eauto.
    - unfold eval_list. apply framed_bind; [|frames].
      apply eval_display_elements_framed; intros; apply IH; [eapply max_of_le|eapply starred_height]; eauto.
    - unfold eval_set. apply framed_bind; [|intros; apply build_set_framed].
      apply eval_display_elements_framed; intros; apply IH; [eapply max_of_le|eapply starred_height]; eauto.
    - unfold eval_dict. apply framed_bind; [|intros; apply alloc_dict_framed].
      apply eval_dict_items_framed; [intros k v Hin s3|intros k v Hin s3]; apply IH;
        destruct (dict_height_ok _ _ L _ _ Hin); assumption.
    - apply eval_list_comp_framed; [intros; apply IH; lia|apply (comp_height_ok _ _ n IH); lia].
    - apply eval_set_comp_framed; [intros; apply IH; lia|apply (comp_height_ok _ _ n IH); lia].
    - apply eval_dict_comp_framed; [intros; apply IH; lia..|apply (comp_height_ok _ _ n IH); lia].
    - apply eval_generator_exp_framed; [intros; apply IH; lia|apply (comp_height_ok _ _ n IH); lia]. }
  by apply (Hn (expr_height e)).
Qed.
End Expressions.
#[export] Hint Resolve resolve_proxy_framed condition_framed eval_expr_framed next_item_framed : frame.

(** ** Patterns *)

Section Patterns.
Context `{External} `{!ExternalOrder} `{!Platform} `{!Formats} `{!Calls} `{!Estimates} `{!Environment} `{!Host}.
Context `{!FrameLaws}.

Lemma both_framed s m k : framed s m -> (forall s, framed s (k s)) -> framed s (both m k).
Proof. intros M K. unfold both. frames. Qed.

Lemma same_value_framed s v w : framed s (same_value s v w).
Proof. apply walk_framed. Qed.

Section Parts.
Variable matches : InterpreterState -> Pattern -> Value -> Eval (option (list (string * Value))).
Abbreviation ok p := (forall s v, framed s (matches s p v)).

Lemma match_any_framed ps v : (forall p, p ∈ ps -> ok p) -> forall s, framed s (match_any matches s ps v).
Proof.
  induction ps as [|p ps IH]; intros E s; [apply framed_refl|]. cbn [match_any].
  apply framed_bind; [apply E; left|intros s1 [b|]]; [apply framed_refl|].
  apply IH. intros q Hin. apply E. by right.
Qed.

Lemma match_items_framed ps : (forall p, p ∈ ps -> ok p) -> forall s vs share,
  framed s (match_items matches s ps vs share).
Proof.
  induction ps as [|p ps IH]; intros E s vs share; [apply framed_refl|].
  assert (forall s vs share, framed s (match_items matches s ps vs share)) as R.
  { apply IH. intros q Hin. apply E. by right. }
  assert (framed s match vs with
                   | v :: vs => both (matches s p v) (fun s => match_items matches s ps vs share)
                   | [] => matched s []
                   end) as Step.
  { destruct vs; [apply framed_refl|]. apply both_framed; [apply E; left|auto]. }
  cbn [match_items]. destruct p; try exact Step. destruct share; [|exact Step].
  apply both_framed; [apply R|]. intros s'. unfold bind_star. destruct name; [|apply framed_refl].
  destruct (shared_list _ _). apply framed_step. by split.
Qed.

Lemma match_sequence_framed s ps v : (forall p, p ∈ ps -> ok p) -> framed s (match_sequence matches s ps v).
Proof.
  intros E. pose proof (match_items_framed ps E) as I. unfold match_sequence, no_match. cbv zeta.
  destruct v; try apply framed_refl; repeat case_match; try apply framed_refl; apply I.
Qed.

Lemma match_entries_framed ps : (forall p, p ∈ ps -> ok p) -> forall s es keys,
  framed s (match_entries matches s es keys ps).
Proof.
  induction ps as [|p ps IH]; intros E s es keys; (destruct keys as [|k keys]; [apply framed_refl|]);
    cbn [match_entries]; [apply framed_refl|].
  apply framed_bind; [apply eval_expr_framed|intros s1 kv]. apply framed_bind; [apply framed_refl|intros s2 key].
  destruct (im_get _ es key); [|apply framed_refl]. apply framed_bind; [apply E; left|intros s3 [b|]]; [|apply framed_refl].
  apply framed_bind; [apply IH; intros q Hin; apply E; by right|]. intros. apply framed_refl.
Qed.

Lemma match_mapping_framed s keys ps rest v : (forall p, p ∈ ps -> ok p) ->
  framed s (match_mapping matches s keys ps rest v).
Proof.
  intros E. unfold match_mapping. destruct v; try apply framed_refl. cbv zeta.
  apply framed_bind; [by apply match_entries_framed|]. intros s1 [[b used]|]; [|apply framed_refl].
  destruct rest; [|apply framed_refl]. destruct (shared_dict _ _). apply framed_step. by split.
Qed.

Lemma match_positional_framed cls kwd ps v : (forall p, p ∈ ps -> ok p) -> forall s names,
  framed s (match_positional matches s cls names kwd ps v).
Proof.
  induction ps as [|p ps IH]; intros E s names; (destruct names as [|n names]; [apply framed_refl|]);
    cbn [match_positional]; [apply framed_refl|].
  case_match; [apply framed_refl|]. apply framed_bind; [apply framed_refl|intros s1 a].
  apply both_framed; [apply E; left|]. intros. apply IH. intros q Hin. apply E. by right.
Qed.

Lemma match_keywords_framed ps v : (forall p, p ∈ ps -> ok p) -> forall s names,
  framed s (match_keywords matches s names ps v).
Proof.
  induction ps as [|p ps IH]; intros E s names; (destruct names as [|n names]; [apply framed_refl|]);
    cbn [match_keywords]; [apply framed_refl|].
  apply framed_bind; [apply framed_refl|intros s1 a].
  apply both_framed; [apply E; left|]. intros. apply IH. intros q Hin. apply E. by right.
Qed.

Lemma match_class_framed s cls ps attrs ks v : (forall p, p ∈ ps -> ok p) -> (forall p, p ∈ ks -> ok p) ->
  framed s (match_class matches s cls ps attrs ks v).
Proof.
  intros E K. pose proof (match_keywords_framed ks v K) as KW. unfold match_class.
  destruct cls as [cls|]; [|apply framed_refl]. cbv zeta. case_match; [apply framed_refl|].
  case_match.
  - destruct ps as [|p [|q ps]]; [apply KW| |apply framed_refl].
    apply both_framed; [apply E; left|]. intros. apply KW.
  - destruct ps as [|p ps]; [apply KW|]. apply framed_bind; [apply framed_refl|intros s1 names].
    case_match; [apply framed_refl|]. apply both_framed; [by apply match_positional_framed|]. intros. apply KW.
Qed.
End Parts.

Lemma pattern_matches_framed p : forall s v, framed s (pattern_matches s p v).
Proof.
  assert (forall n p, (pattern_height p <= n)%nat -> forall s v, framed s (pattern_matches s p v)) as Hn.
  { clear p. induction n as [|n IH]; intros p L s v; [destruct p; cbn in L; lia|].
    destruct p; cbn in L; apply le_S_n in L; cbn [pattern_matches].
    - apply framed_bind; [apply eval_expr_framed|]. intros. apply framed_bind; [apply same_value_framed|].
      intros s2 []; apply framed_refl.
    - apply framed_bind; [apply same_value_framed|]. intros s2 []; apply framed_refl.
    - apply both_framed; [|intros; apply framed_refl]. destruct pattern; [|apply framed_refl]. apply IH. lia.
    - apply match_any_framed. intros p Hin. apply IH. eapply max_of_le; eauto.
    - apply match_sequence_framed. intros p Hin. apply IH. eapply max_of_le; eauto.
    - apply match_mapping_framed. intros p Hin. apply IH. eapply max_of_le; eauto.
    - apply framed_refl.
    - apply match_class_framed; intros p Hin; apply IH; (eapply max_of_le; [|exact Hin]); unfold max_of in *; lia. }
  by apply (Hn (pattern_height p)).
Qed.

Lemma eval_match_framed (body_of : InterpreterState -> list PyStmt -> Eval Value) s subject cases :
  (forall s b, framed s (body_of s b)) -> framed s (eval_match body_of s subject cases).
Proof.
  intros B. unfold eval_match. apply framed_bind; [apply eval_resolved_framed; intros; apply eval_expr_framed|].
  intros s1 v. revert s1. induction cases as [|[p g b] cases IH]; intros s1; [apply framed_refl|]. cbn [eval_cases].
  apply framed_bind; [apply pattern_matches_framed|]. intros s2 [m|]; [|apply IH].
  apply framed_bind.
  { clear IH. revert s2. induction m as [|[n w] m IHm]; intros s2; [apply framed_refl|]. cbn [bind_all].
    apply framed_bind; [apply set_variable_framed|]. intros s3 []. apply IHm. }
  intros s3 []. destruct g; [|apply B]. apply framed_bind; [apply eval_expr_framed|].
  intros s4 w. apply framed_bind; [apply truthy_framed|]. intros s5 []; [apply B|apply IH].
Qed.
End Patterns.

(** * [try] statements *)

Section Try.
Context `{External} `{!Trees} `{!Evaluator}.
Variable size : Heap -> Value -> Z.
Variable structural : Value -> Value -> bool.
Variable fuel : nat.
Hypothesis body_framed : forall s b, framed s (Exceptions.eval_body s b).
Hypothesis expr_framed : forall s e, framed s (Exceptions.eval_expr s e).
#[local] Hint Resolve body_framed expr_framed : frame.

Lemma bind_name_framed s name exc : framed s (bind_name size s name exc).
Proof.
  unfold bind_name. destruct name as [name|]; [|frames]. destruct (set_variable _ _ _ _) as [s' o] eqn:E.
  assert (frame s s') as F.
  { replace s' with (set_variable size name (VException exc) s).1 by (by rewrite E).
    unfold set_variable, write_through, check_memory. cbn [fst]. repeat case_match; split; reflexivity. }
  destruct o; by apply framed_step.
Qed.

Lemma unbind_name_frame s name : frame s (unbind_name size s name).
Proof.
  unfold unbind_name, delete_variable. destruct name; [|done]. case_match; split; reflexivity.
Qed.

Lemma run_body_framed s exc b : framed s (run_body s exc b).
Proof.
  intros O. unfold run_body. destruct (Exceptions.eval_body (push_exception exc s) b) as [s' r] eqn:E.
  destruct (body_framed (push_exception exc s) b O) as [P|F]; rewrite E in *; [by left|].
  right. by destruct F; split.
Qed.

Lemma matches_handler_framed s exc h : framed s (matches_handler s exc h).
Proof. unfold matches_handler. frames. Qed.

Lemma run_handler_framed s exc h : framed s (run_handler size structural fuel s exc h).
Proof.
  unfold run_handler. apply framed_bind; [frames|intros s1 exc1].
  apply framed_bind; [apply bind_name_framed|intros s2 _].
  apply (framed_match _ (run_body s2 exc1 (h_body h))); [apply run_body_framed|done|intros s3 r].
  apply framed_bind; [frames|intros s4 out]. apply framed_step, unbind_name_frame.
Qed.

Lemma try_match_handlers_framed hs : forall s exc, framed s (try_match_handlers size structural fuel s exc hs).
Proof.
  induction hs as [|h hs IH]; intros s exc; cbn [try_match_handlers]; [frames|].
  apply framed_bind; [apply matches_handler_framed|intros s1 m]. destruct m; [|apply IH].
  apply framed_bind; [apply run_handler_framed|frames].
Qed.

Lemma split_leaves_framed h leaves : forall s, framed s (split_leaves s h leaves).
Proof.
  induction leaves as [|x leaves IH]; intros s; cbn [split_leaves]; [frames|].
  apply framed_bind; [apply matches_handler_framed|intros s1 m].
  apply framed_bind; [apply IH|intros s2 []]. frames.
Qed.

Lemma star_loop_framed m hs : forall s remaining b v,
  framed s (star_loop size structural fuel s m hs remaining b v).
Proof.
  assert (forall s remaining b v, framed s (reraise_remaining s m remaining b v)) as R.
  { intros s remaining b v. unfold reraise_remaining, alloc_group. repeat case_match; simplify_eq; frames. }
  induction hs as [|h hs IH]; intros s remaining b v; cbn [star_loop]; [apply R|].
  destruct (match remaining with [] => true | _ => false end); [apply R|].
  apply framed_bind; [apply split_leaves_framed|intros s1 [matched unmatched]].
  destruct (match matched with [] => true | _ => false end); [apply IH|].
  destruct (alloc_group s1 m matched) as [s2 group] eqn:G.
  apply (framed_weaken s1 s2).
  { unfold alloc_group in G. case_match. simplify_eq. split; reflexivity. }
  apply framed_bind; [apply bind_name_framed|intros s3 _].
  apply (framed_match _ (run_body s3 group (h_body h)));
    [apply run_body_framed|done|intros s4 r]. destruct r as [v'|err|]; [| |apply framed_panic].
  - apply (framed_weaken _ _ _ (unbind_name_frame s4 (h_name h))), IH.
  - frames.
Qed.

Lemma try_with_framed mh s node :
  (forall s exc hs, framed s (mh s exc hs)) -> framed s (try_with mh s node).
Proof.
  intros M. assert (forall s r p, framed s (finish s node r p)) as F.
  { intros s' r p. unfold finish. destruct (finalbody node); [frames|].
    apply (framed_match _ (Exceptions.eval_body s' _)); [apply body_framed|by destruct p|intros s2 []]; frames. }
  unfold try_with, handle.
  apply (framed_match _ (Exceptions.eval_body s (body node))); [apply body_framed|done|intros s1 r].
  destruct r as [v|[ie|[]|exc]|]; try apply framed_panic; try apply framed_refl; try apply F;
    try (apply framed_bind; [apply M|intros s2 [[]|]; apply F]).
  apply (framed_match _ (Exceptions.eval_body s1 (orelse node)));
    [apply body_framed|done|intros s2 []]; first [apply F|apply framed_panic].
Qed.
End Try.

(** ** Definitions *)

Section Definitions.
Context `{External} `{!ExternalOrder} `{!Platform} `{!Formats} `{!Calls} `{!Estimates} `{!Environment} `{!Host}.
Context `{!FrameLaws}.

Lemma own_frame names id s : frame s (own names id s).
Proof.
  unfold own. destruct (frame_cell_owners s) as [|o os] eqn:E; [done|].
  rewrite <- E. split; try reflexivity.
  apply (same_outer_last (frame_cell_owners s)). by rewrite E.
Qed.

Lemma ensure_cell_frame s n : frame s (ensure_cell s n).1.
Proof.
  unfold ensure_cell. destruct (variables s !! n); [|reflexivity].
  destruct (owners_of s !! n); [reflexivity|]. cbn. etrans; [|apply own_frame]. split; reflexivity.
Qed.

Lemma ensure_capture_cells_frame s ns : frame s (ensure_capture_cells s ns).1.
Proof.
  unfold ensure_capture_cells. destruct (frame_cell_owners s); [reflexivity|].
  assert (forall acc, frame s acc.1 -> frame s (fold_left (fun acc n => let (s, new) := ensure_cell acc.1 n in
    (s, acc.2 ++ new)) ns acc).1) as L; [|by apply L].
  induction ns as [|n ns IH]; intros acc A; [done|]. cbn. apply IH.
  pose proof (ensure_cell_frame acc.1 n) as F. destruct (ensure_cell acc.1 n). cbn in *. by etrans.
Qed.

Lemma self_recursion_cell_frame s n ns b : frame s (self_recursion_cell s n ns b).1.
Proof.
  unfold self_recursion_cell. destruct (_ && _); [|reflexivity].
  destruct (owners_of s !! n) as [id|]; cbn; (destruct (_ !! n); (etrans; [|apply own_frame || (etrans; [apply own_frame|split; reflexivity])]);
    split; reflexivity).
Qed.

Lemma resolve_closure_cells_frame s b c : frame s (resolve_closure_cells s b c).1.
Proof.
  unfold resolve_closure_cells. destruct (is_nil _); [reflexivity|].
  destruct (head _) as [id|]; cbn; (etrans; [|apply own_frame]); split; reflexivity.
Qed.

Lemma eval_default_source_framed s src : framed s (eval_default_source eval_expr s src).
Proof. unfold eval_default_source. frames. Qed.
#[local] Hint Resolve eval_default_source_framed : frame.

Lemma eval_default_sources_framed srcs : forall s, framed s (eval_default_sources eval_expr s srcs).
Proof. induction srcs as [|src srcs IH]; intros s; cbn [eval_default_sources]; frames. Qed.

Lemma eval_kw_default_sources_framed srcs : forall s, framed s (eval_kw_default_sources eval_expr s srcs).
Proof. induction srcs as [|src srcs IH]; intros s; cbn [eval_kw_default_sources]; frames. Qed.
#[local] Hint Resolve eval_default_sources_framed eval_kw_default_sources_framed : frame.

Lemma evaluate_param_defaults_framed s p : framed s (evaluate_param_defaults eval_expr s p).
Proof. unfold evaluate_param_defaults. frames. Qed.

Lemma eval_annotations_framed specs : forall s, framed s (eval_annotations s specs).
Proof.
  induction specs as [|[n [e|]] specs IH]; intros s; cbn [eval_annotations]; [frames| |apply IH].
  apply (framed_match _ (eval_expr s e)); [frames|done|]. intros s1 []; frames.
Qed.

Lemma apply_decorators_framed ds : forall s f, framed s (apply_decorators s ds f).
Proof. induction ds as [|d ds IH]; intros s f; cbn [apply_decorators]; frames. Qed.
#[local] Hint Resolve evaluate_param_defaults_framed eval_annotations_framed apply_decorators_framed : frame.

Lemma eval_function_def_framed s start d a : framed s (eval_function_def_with s start d a).
Proof.
  unfold eval_function_def_with. destruct d as [n args body ds ret]. cbv zeta.
  apply framed_bind; [frames|intros s1 _]. destruct (is_tool n); [frames|].
  apply framed_bind; [frames|intros s2 p0]. apply framed_bind; [frames|intros s3 p].
  set (s4 := set_program _ _ _ _). apply (framed_weaken s3 s4); [split; reflexivity|]. clearbody s4.
  set (free := Names.collect_free_names _ _). clearbody free.
  pose proof (ensure_capture_cells_frame s4 free) as F1. destruct (ensure_capture_cells s4 free) as [s5 rs].
  apply (framed_weaken s4 s5); [exact F1|].
  pose proof (self_recursion_cell_frame s5 n free body) as F2. destruct (self_recursion_cell s5 n free body) as [s6 sc].
  apply (framed_weaken s5 s6); [exact F2|].
  pose proof (resolve_closure_cells_frame s6 body (snapshot s4)) as F3.
  destruct (resolve_closure_cells s6 body (snapshot s4)) as [s7 [[nl id] refreshes]].
  apply (framed_weaken s6 s7); [exact F3|]. destruct (Names.collect_assigned_names body) as [asg gl].
  apply framed_bind; [frames|intros s8 anns]. unfold alloc_function.
  apply (framed_weaken s8 (set_functions
    (<[fresh (dom (functions s8)) := mkFunctionDef n (n ++ "#" ++ pretty (next_cursor_id s3)) p (snapshot s4)
       (source_slice (current_source s4) start (function_stop (mkFunction n args body ds ret)) ("def " ++ n ++ "(): pass"))
       nl (Names.contains_yield_stmts body) None id
       (List.filter (fun n => negb (bool_decide (n ∈ nl)) && negb (bool_decide (n ∈ gl))) asg) gl (call_depth s7 =? 0)
       (extract_docstring body)
       (match sc with Some c => if has_cell refreshes c.1 then refreshes else refreshes ++ [c] | None => refreshes end)
       (qualname_for s7 n) anns a]> (functions s8)) s8)); [split; reflexivity|].
  unfold set_named. frames.
Qed.
End Definitions.
#[export] Hint Resolve eval_function_def_framed : frame.

(** * Statements *)

Section Statements.
Context `{External} `{!ExternalOrder} `{!Platform} `{!Formats} `{!Calls} `{!Estimates} `{!Environment} `{!Host}.
Context `{!FrameLaws}.

Lemma stamped_framed {A} s line (m : Eval A) : framed s m -> framed s (stamped line m).
Proof. intros M O. destruct (M O) as [P|F]; destruct m as [s' [a|e|]]; cbn in *; try done; first [by left|by right]. Qed.

Lemma assign_name_framed s name v : framed s (assign_name s name v).
Proof. unfold assign_name. frames. Qed.

Lemma unpacked_items_framed s v : framed s (unpacked_items s v).
Proof. unfold unpacked_items. frames. Qed.

Lemma assign_elements_framed assign elts :
  (forall e, e ∈ elts -> forall s v, framed s (assign s e v)) ->
  (forall e, EStarred e ∈ elts -> forall s v, framed s (assign s e v)) ->
  forall s items share, framed s (assign_elements assign s elts items share).
Proof.
  induction elts as [|e elts IH]; intros E E' s items share; cbn [assign_elements]; [frames|].
  assert (forall s items share, framed s (assign_elements assign s elts items share)) as IH'.
  { apply IH; intros e' Hin; [apply E|apply E']; by right. }
  assert (framed s (match items with
    | v :: items => and_then (assign s e v) (fun s _ => assign_elements assign s elts items share)
    | [] => done s (Ok ()) end)) as G.
  { destruct items; [frames|]. apply framed_bind; [apply E; left|auto]. }
  destruct e; try exact G. destruct (shared_list _ _) as [l h].
  apply (framed_weaken s (set_heap h s)); [split; reflexivity|].
  apply framed_bind; [apply E'; left|auto].
Qed.

Lemma assign_target_framed s e v : framed s (assign_target s e v).
Proof.
  assert (forall n e, (expr_height e <= n)%nat -> forall s v, framed s (assign_target s e v)) as Hn.
  { clear s e v. intros n. induction n as [|n IH]; intros e L s v; [destruct e; cbn in L; lia|].
    destruct e; cbn in L; apply le_S_n in L; cbn [assign_target]; try solve [frames].
    - apply assign_name_framed.
    - unfold assign_unpacking. apply framed_bind; [apply unpacked_items_framed|intros s1 items].
      apply framed_bind; [frames|intros s2 share].
      apply assign_elements_framed; intros; apply IH; [eapply max_of_le|eapply starred_height]; eauto.
    - unfold assign_unpacking. apply framed_bind; [apply unpacked_items_framed|intros s1 items].
      apply framed_bind; [frames|intros s2 share].
      apply assign_elements_framed; intros; apply IH; [eapply max_of_le|eapply starred_height]; eauto. }
  by apply (Hn (expr_height e)).
Qed.
#[local] Hint Resolve assign_target_framed : frame.

Lemma assign_targets_framed ts : forall s v, framed s (assign_targets s ts v).
Proof. induction ts as [|t ts IH]; intros s v; cbn [assign_targets]; frames. Qed.
#[local] Hint Resolve assign_targets_framed : frame.

Lemma write_through_keeps_frame name v s : frame s (write_through name v s).
Proof. unfold write_through. repeat case_match; split; reflexivity. Qed.

Lemma aug_assign_name_framed s name op v : framed s (aug_assign_name s name op v).
Proof.
  unfold aug_assign_name. apply framed_bind; [apply guarded_framed; frames|intros s1 _].
  destruct (get_variable name s1); [|frames].
  apply framed_bind; [frames|intros s2 rhs]. apply framed_bind; [frames|intros s3 nv].
  destruct (get_variable name s3); [|frames]. cbv zeta.
  set (s4 := set_variables _ s3). apply (framed_weaken s3 s4); [split; reflexivity|].
  apply framed_bind; [|intros s5 _; apply framed_step, write_through_keeps_frame].
  unfold apply_mem_delta. case_match; [apply lift_call_framed|apply framed_step]; split; reflexivity.
Qed.

Lemma eval_aug_assign_framed s t op v : framed s (eval_aug_assign s t op v).
Proof.
  unfold eval_aug_assign. destruct t; try apply aug_assign_name_framed; try solve [frames].
  all: apply framed_bind; [apply guarded_framed; frames|frames].
Qed.

Lemma eval_opt_framed s e : framed s (eval_opt s e).
Proof. unfold eval_opt. frames. Qed.
#[local] Hint Resolve eval_opt_framed : frame.

Lemma eval_raise_framed s e c : framed s (eval_raise s e c).
Proof. unfold eval_raise. frames. Qed.

Lemma eval_assert_framed s t m : framed s (eval_assert s t m).
Proof. unfold eval_assert. frames. Qed.

(** ** Blocks, over statements that keep the frame *)

Section Blocks.
Variable exec : InterpreterState -> PyStmt -> Eval Value.
Hypothesis exec_framed : forall s st, framed s (exec s st).

Lemma eval_block_framed b : forall s v, framed s (eval_block exec s b v).
Proof. induction b as [|st b IH]; intros s v; cbn [eval_block]; frames. Qed.
#[local] Hint Resolve eval_block_framed : frame.

Lemma eval_if_framed s t b o : framed s (eval_if exec s t b o).
Proof.
  unfold eval_if, eval_body. apply framed_bind; [apply eval_condition_framed|]; frames.
Qed.

Lemma run_round_framed b : forall s v, framed s (run_round exec s b v).
Proof. induction b as [|st b IH]; intros s v; cbn [run_round]; frames. Qed.

Lemma run_for_body_framed t b s i v : framed s (run_for_body exec t b s i v).
Proof. unfold run_for_body. apply framed_bind; [frames|intros]. apply run_round_framed. Qed.

Section Rounds.
Variable round : InterpreterState -> Value -> Value -> Eval (Value * bool).
Hypothesis round_framed : forall s i v, framed s (round s i v).

Lemma for_items_framed items : forall s v, framed s (for_items round s items v).
Proof. induction items as [|i items IH]; intros s v; cbn [for_items]; frames. Qed.

Lemma for_range_framed n stop step : forall s i v, framed s (for_range round n s stop step i v).
Proof. induction n as [|n IH]; intros s i v; cbn [for_range]; frames. Qed.

Lemma for_iterator_framed n it : forall s v, framed s (for_iterator round n s it v).
Proof. pose proof next_item_framed. induction n as [|n IH]; intros s v; cbn [for_iterator]; frames. Qed.

Lemma for_loop_framed s it : framed s (for_loop round s it).
Proof.
  unfold for_loop. destruct it; try apply for_range_framed; try apply for_iterator_framed;
    (apply framed_bind; [frames|intros; apply for_items_framed]).
Qed.
End Rounds.

Lemma loop_else_framed s o out : framed s (loop_else exec s o out).
Proof. unfold loop_else. frames. Qed.

Lemma eval_for_framed s t i b o : framed s (eval_for exec s t i b o).
Proof.
  unfold eval_for. apply framed_bind; [apply eval_resolved_framed; frames|intros s1 it].
  apply framed_bind; [apply for_loop_framed, run_for_body_framed|intros; apply loop_else_framed].
Qed.

Lemma while_rounds_framed m t b n : forall s v, framed s (while_rounds exec n m s t b v).
Proof.
  induction n as [|n IH]; intros s v; cbn [while_rounds]; [frames|].
  apply framed_bind; [apply eval_condition_framed; frames|intros s1 c]. destruct (negb c); [frames|].
  apply framed_bind; [apply run_round_framed|frames].
Qed.

Lemma eval_while_framed s t b o : framed s (eval_while exec s t b o).
Proof.
  unfold eval_while. apply framed_bind; [apply while_rounds_framed|intros; apply loop_else_framed].
Qed.

Lemma call_context_method_framed s v m vs : framed s (call_context_method s v m vs).
Proof.
  unfold call_context_method. cbv zeta. destruct v; try solve [frames].
  repeat case_match; try solve [frames]; apply framed_step; split; reflexivity.
Qed.
#[local] Hint Resolve call_context_method_framed : frame.

Lemma enter_managers_framed items : forall s, framed s (enter_managers s items).
Proof.
  induction items as [|i items IH]; intros s; cbn [enter_managers]; [frames|].
  apply framed_bind; [apply eval_resolved_framed; frames|frames].
Qed.

Lemma exit_each_framed ms : forall s e, framed s (exit_each s ms e).
Proof.
  induction ms as [|m ms IH]; intros s e; cbn [exit_each]; [frames|]. destruct (build_exit_args e) as [b args].
  apply (framed_match _ (call_context_method s m "__exit__" args)); [frames|done|frames].
Qed.

Lemma exit_context_managers_framed s ms e : framed s (exit_context_managers s ms e).
Proof. unfold exit_context_managers. apply framed_bind; [apply exit_each_framed|frames]. Qed.
#[local] Hint Resolve exit_context_managers_framed : frame.

Lemma eval_with_framed s items b : framed s (eval_with exec s items b).
Proof.
  unfold eval_with, eval_body. apply framed_bind; [apply enter_managers_framed|intros s1 ms].
  apply (framed_match _ (eval_block exec s1 b VNone)); [frames|done|intros s2 [v|e|]]; frames.
Qed.
End Blocks.

Lemma statements_framed fuel : forall s st, framed s (eval_stmt fuel s st).
Proof.
  induction fuel as [|fuel IH]; intros s [start node]; [apply framed_panic|].
  unfold eval_stmt. cbn [eval_stmt_or]. fold (eval_stmt fuel).
  set (line := line_of (active_source s) start). clearbody line.
  apply framed_bind; [frames|intros s1 _]. clear s.
  assert (forall k : InterpreterState -> Eval Value, (forall s, framed s (k s)) ->
    framed s1 (guarded s1 (fun s => stamped line (k s)))) as Block.
  { intros k K. apply guarded_framed. intros. by apply stamped_framed. }
  assert (forall m : Eval Value, framed s1 m -> framed s1 (stamped line m)) as Plain by (intros; by apply stamped_framed).
  pose proof eval_opt_framed as Opt.
  destruct node; try solve [frames]; try (apply Plain; solve [unfold eval_assign, eval_ann_assign, eval_return; frames]).
  - apply Plain, eval_aug_assign_framed.
  - apply Block. intros. by apply eval_if_framed.
  - apply Block. intros. by apply eval_for_framed.
  - apply Block. intros. by apply eval_while_framed.
  - apply Plain, eval_raise_framed.
  - apply Plain, eval_assert_framed.
  - apply Block. intros s2.
    assert (forall s b, framed s (eval_block (eval_stmt fuel) s b VNone)) as B
      by (intros; by apply eval_block_framed).
    destruct star; apply try_with_framed; try exact B; intros s3 exc hs;
      [apply star_loop_framed|apply try_match_handlers_framed]; try exact B; intros; apply eval_expr_framed.
  - apply Block. intros. by apply eval_with_framed.
  - apply Block. intros. apply eval_match_framed. intros. by apply eval_block_framed.
Qed.
(** C8: a statement leaves the state's frame as it found it, whether it returns a
    value, a signal or an error: the expression depth and the call depth, the
    saved depths, the stack of running generators, the qualified-name stack,
    the cells' owners and the configuration. The components behind the interfaces
    are assumed to do the same. *)
Theorem statements_restore_frame fuel s st :
  counters_ok s -> (eval_stmt fuel s st).2 = Panic \/ frame s (eval_stmt fuel s st).1.
Proof. apply statements_framed. Qed.
End Statements.

(** ** Witness *)

#[export] Instance sample_frame_laws : FrameLaws.
Proof. split; intros; first [apply framed_refl | reflexivity]. Qed.

Lemma statements_restore_frame_witness :
  counters_ok fresh_state /\
  ((eval_stmt 2 fresh_state (At 0 (SIf (EConstant (CBool true)) [At 0 (SRaise None None)] []))).2 = Panic \/
   frame fresh_state (eval_stmt 2 fresh_state (At 0 (SIf (EConstant (CBool true)) [At 0 (SRaise None None)] []))).1).
Proof.
  assert (counters_ok fresh_state) as C by (repeat split; discriminate).
  split; [exact C|]. exact (statements_restore_frame 2 fresh_state _ C).
Defined.
