(* ===== verification/ParamsThms.v ===== *)
(** The binding of arguments (eval/functions/params.rs): what each parameter is
    bound to, and exactly when a call is accepted. *)
From Stdlib Require Import ZArith Lia Ascii String SpecFloat.
From stdpp Require Import base tactics list numbers option strings pretty gmap.
From S2P Require Import Prelude PySet Values Errors F64 Keys Classes Compare Operators State Exceptions Op Syntax Mangle Params Host Displays Eval Definitions Match Stmts Functions Samples.

Section Binding.
Context `{External} `{!Environment}.
Variable eval : InterpreterState -> PyExpr -> Eval Value.
Variable p : FunctionParams.
Variable func_name : string.
Variable argv : list Value.
Variable kwargs : list (string * Value).

(** ** The specification *)

(** Every default was evaluated when the function was defined. *)
Definition defaults_ready : bool :=
  (length (defaults p) <=? length (default_values p))%nat &&
  forallb (fun i => match kw_defaults p !! i with
                    | Some (Some _) => if kw_default_values p !! i is Some (Some _) then true else false
                    | _ => true
                    end) (seq 0 (length (kw_defaults p))).

(** The value of the [i]th positional parameter: its argument, else the keyword
    of its name unless it is positional-only, else its default. *)
Definition positional_value (i : nat) (name : string) : option Value :=
  match argv !! i with
  | Some v => Some v
  | None =>
      match (if (i <? posonly p)%nat then None else keyword kwargs name) with
      | Some v => Some v
      | None => if (i <? first_default p)%nat then None else default_values p !! (i - first_default p)%nat
      end
  end.

Definition keyword_only_value (i : nat) (name : string) : option Value :=
  match keyword kwargs name with
  | Some v => Some v
  | None => match kw_default_values p !! i with Some (Some v) => Some v | _ => None end
  end.

(** A parameter given both by position and by keyword. *)
Definition filled_twice (i : nat) (name : string) : bool :=
  (i <? length argv)%nat && negb (i <? posonly p)%nat && has_keyword kwargs name.

Record acceptable : Prop := {
  not_too_many : vararg p = None -> (length argv <= num_params p)%nat;
  no_positional_only_keyword : kwarg p = None -> positional_only_clashes p kwargs = [];
  once : forall i x, args p !! i = Some x -> filled_twice i (p_name x) = false;
  all_given : forall i x, args p !! i = Some x -> is_Some (positional_value i (p_name x));
  all_keywords_given : forall i x, kwonlyargs p !! i = Some x -> is_Some (keyword_only_value i (p_name x));
  no_unknown_keyword : kwarg p = None -> forall k, k ∈ kwargs.*1 -> claimed p k = true
}.

Hypothesis ready : defaults_ready = true.

Lemma ready_positional i : default_values p !! i = None -> defaults p !! i = None.
Proof.
  intros E. apply andb_true_iff in ready as [R _]. apply Nat.leb_le in R.
  apply lookup_ge_None in E. apply lookup_ge_None. lia.
Qed.

Lemma ready_keyword i src : kw_defaults p !! i = Some (Some src) -> exists v, kw_default_values p !! i = Some (Some v).
Proof.
  intros E. apply andb_true_iff in ready as [_ R]. rewrite forallb_forall in R.
  assert (i < length (kw_defaults p))%nat as L by (apply lookup_lt_is_Some_1; eauto).
  specialize (R i). rewrite E in R.
  destruct (kw_default_values p !! i) as [[v|]|]; [by exists v|..]; (assert (false = true); [apply R, in_seq; lia|done]).
Qed.

(** ** Positional parameters *)

Lemma positional_default_ready s i :
  positional_default eval p s i =
  done s (Ok (if (i <? first_default p)%nat then None else default_values p !! (i - first_default p)%nat)).
Proof.
  unfold positional_default. destruct (i <? first_default p)%nat; [done|]. cbv zeta.
  destruct (default_values p !! _) eqn:E; [done|]. by rewrite (ready_positional _ E).
Qed.

Fixpoint first_twice (i : nat) (ps : list Param) : option Param :=
  match ps with
  | [] => None
  | x :: ps => if filled_twice i (p_name x) then Some x else first_twice (S i) ps
  end.

Fixpoint missing_from (i : nat) (ps : list Param) : list string :=
  match ps with
  | [] => []
  | x :: ps => if positional_value i (p_name x) is Some _ then missing_from (S i) ps else p_name x :: missing_from (S i) ps
  end.

Fixpoint bound_from (i : nat) (ps : list Param) (sc : gmap string Value) : gmap string Value :=
  match ps with
  | [] => sc
  | x :: ps => bound_from (S i) ps (match positional_value i (p_name x) with Some v => <[p_name x := v]> sc | None => sc end)
  end.

Lemma bind_positional_spec ps : forall s i sc ms,
  bind_positional eval p argv kwargs s i ps sc ms =
  done s match first_twice i ps with
         | Some x => fail (TypeError ("got multiple values for argument '" ++ p_name x ++ "'"))
         | None => Ok (bound_from i ps sc, ms ++ missing_from i ps)
         end.
Proof.
  induction ps as [|x ps IH]; intros s i sc ms; [by rewrite app_nil_r|].
  cbn [bind_positional first_twice bound_from missing_from]. unfold filled_twice, positional_value.
  destruct (argv !! i) as [v|] eqn:A.
  - pose proof (lookup_lt_Some _ _ _ A) as L. apply Nat.ltb_lt in L. rewrite L. cbn [andb].
    destruct (negb (i <? posonly p)%nat && has_keyword kwargs (p_name x)); [done|]. apply IH.
  - apply lookup_ge_None in A. apply Nat.ltb_ge in A. rewrite A. cbn [andb].
    destruct (if (i <? posonly p)%nat then None else keyword kwargs (p_name x)) as [v|]; [apply IH|].
    rewrite positional_default_ready. cbn [and_then done].
    destruct (if (i <? first_default p)%nat then None else _) as [v|]; rewrite IH; [done|].
    by rewrite <- app_assoc.
Qed.

Lemma first_twice_None i ps : first_twice i ps = None <->
  forall j x, ps !! j = Some x -> filled_twice (i + j) (p_name x) = false.
Proof.
  revert i. induction ps as [|x ps IH]; intros i; cbn; [done|]. destruct (filled_twice i (p_name x)) eqn:E.
  - split; [done|]. intros F. specialize (F 0%nat x eq_refl). rewrite Nat.add_0_r in F. congruence.
  - rewrite IH. split; intros F j y; [|intros Y; specialize (F (S j) y Y); by rewrite Nat.add_succ_r in F].
    destruct j as [|j]; [intros [= <-]; by rewrite Nat.add_0_r|]. rewrite Nat.add_succ_r. apply F.
Qed.

Lemma missing_from_nil i ps : missing_from i ps = [] <->
  forall j x, ps !! j = Some x -> is_Some (positional_value (i + j) (p_name x)).
Proof.
  revert i. induction ps as [|x ps IH]; intros i; cbn; [done|].
  destruct (positional_value i (p_name x)) as [v|] eqn:E.
  - rewrite IH. split; intros F j y; [|intros Y; specialize (F (S j) y Y); by rewrite Nat.add_succ_r in F].
    destruct j as [|j]; [intros [= <-]; rewrite Nat.add_0_r; by exists v|]. rewrite Nat.add_succ_r. apply F.
  - split; [done|]. intros F. specialize (F 0%nat x eq_refl). rewrite Nat.add_0_r, E in F. by destruct F.
Qed.

Lemma bound_from_other n ps : forall i sc, n ∉ p_name <$> ps -> bound_from i ps sc !! n = sc !! n.
Proof.
  induction ps as [|x ps IH]; intros i sc N; cbn; [done|]. cbn in N. apply not_elem_of_cons in N as [N1 N2].
  rewrite IH by done. destruct (positional_value i (p_name x)); [|done]. by rewrite lookup_insert_ne.
Qed.

Lemma bound_from_lookup ps : forall i sc j x, NoDup (p_name <$> ps) -> ps !! j = Some x ->
  (forall j x, ps !! j = Some x -> is_Some (positional_value (i + j) (p_name x))) ->
  bound_from i ps sc !! p_name x = positional_value (i + j) (p_name x).
Proof.
  induction ps as [|y ps IH]; intros i sc j x D L S; [done|]. cbn in D. apply NoDup_cons in D as [Ny D].
  destruct j as [|j].
  - injection L as ->. cbn. rewrite bound_from_other by done. rewrite Nat.add_0_r.
    destruct (S 0%nat x eq_refl) as [v V]. rewrite Nat.add_0_r in V. rewrite V. apply lookup_insert_eq.
  - cbn in L |- *. rewrite <- Nat.add_succ_comm. apply IH; [done|done|].
    intros k z Z. rewrite Nat.add_succ_comm. by apply (S (Datatypes.S k)).
Qed.

(** ** Keyword-only parameters *)

Fixpoint kw_bound (i : nat) (ps : list Param) (sc : gmap string Value) : option (gmap string Value) :=
  match ps with
  | [] => Some sc
  | x :: ps =>
      match keyword_only_value i (p_name x) with
      | Some v => kw_bound (S i) ps (<[p_name x := v]> sc)
      | None => None
      end
  end.

Lemma bind_keyword_only_spec ps : forall s i sc,
  match kw_bound i ps sc with
  | Some sc' => bind_keyword_only eval p kwargs s i ps sc = done s (Ok sc')
  | None => exists m, bind_keyword_only eval p kwargs s i ps sc = done s (fail (TypeError m))
  end.
Proof.
  induction ps as [|x ps IH]; intros s i sc; [done|]. cbn [kw_bound bind_keyword_only]. unfold keyword_only_value.
  destruct (keyword kwargs (p_name x)) as [v|]; [apply IH|].
  destruct (kw_default_values p !! i) as [[v|]|] eqn:E; [apply IH|..].
  all: destruct (kw_defaults p !! i) as [[src|]|] eqn:D; try (by eexists).
  all: destruct (ready_keyword _ _ D) as [v V]; congruence.
Qed.

Lemma kw_bound_Some ps : forall i sc, (exists sc', kw_bound i ps sc = Some sc') <->
  forall j x, ps !! j = Some x -> is_Some (keyword_only_value (i + j) (p_name x)).
Proof.
  induction ps as [|x ps IH]; intros i sc; cbn; [split; [done|by exists sc]|].
  destruct (keyword_only_value i (p_name x)) as [v|] eqn:E.
  - rewrite IH. split; intros F j y; [|intros Y; specialize (F (S j) y Y); by rewrite Nat.add_succ_r in F].
    destruct j as [|j]; [intros [= <-]; rewrite Nat.add_0_r; by exists v|]. rewrite Nat.add_succ_r. apply F.
  - split; [by intros []|]. intros F. specialize (F 0%nat x eq_refl). rewrite Nat.add_0_r, E in F. by destruct F.
Qed.

Lemma kw_bound_other n ps : forall i sc sc', n ∉ p_name <$> ps -> kw_bound i ps sc = Some sc' -> sc' !! n = sc !! n.
Proof.
  induction ps as [|x ps IH]; intros i sc sc' N; cbn; [by intros [= ->]|]. cbn in N.
  apply not_elem_of_cons in N as [N1 N2]. destruct (keyword_only_value i (p_name x)); [|done]. intros E.
  rewrite (IH _ _ _ N2 E). by rewrite lookup_insert_ne.
Qed.

Lemma kw_bound_lookup ps : forall i sc sc' j x, NoDup (p_name <$> ps) -> kw_bound i ps sc = Some sc' ->
  ps !! j = Some x -> sc' !! p_name x = keyword_only_value (i + j) (p_name x).
Proof.
  induction ps as [|y ps IH]; intros i sc sc' j x D E L; [done|]. cbn in D, E. apply NoDup_cons in D as [Ny D].
  destruct (keyword_only_value i (p_name y)) as [v|] eqn:V; [|done]. destruct j as [|j].
  - injection L as ->. rewrite (kw_bound_other _ _ _ _ _ Ny E), Nat.add_0_r, V. apply lookup_insert_eq.
  - cbn in L. rewrite <- Nat.add_succ_comm. by apply (IH (S i) _ _ _ _ D E).
Qed.

(** ** The whole binding *)

(** The scope once every parameter but [**kwargs] is bound. *)
Definition with_vararg (sc : gmap string Value) : gmap string Value :=
  match vararg p with Some name => <[name := VTuple (drop (num_params p) argv)]> sc | None => sc end.

Abbreviation bound := (bind_params_named eval p func_name argv kwargs).

Lemma bind_params_Ok s : acceptable ->
  exists sc, kw_bound 0 (kwonlyargs p) (with_vararg (bound_from 0 (args p) ∅)) = Some sc /\
  bound s = match kwarg p with
            | Some name => let (l, h) := shared_dict (heap s) (extra_keywords p kwargs) in
                           (set_heap h s, Ok (<[name := VDict l]> sc))
            | None => (s, Ok sc)
            end.
Proof.
  intros []. destruct (kw_bound_Some (kwonlyargs p) 0 (with_vararg (bound_from 0 (args p) ∅))) as [_ K].
  destruct K as [sc K]; [done|]. exists sc. split; [done|]. unfold bind_params_named.
  replace (_ && _) with false; [|destruct (vararg p); [done|]; cbn; symmetry; apply Nat.ltb_ge; auto].
  replace (_ && _) with false; cycle 1.
  { destruct (kwarg p); [by rewrite andb_false_r|]. rewrite no_positional_only_keyword0 by done.
    by rewrite andb_false_r. }
  rewrite bind_positional_spec. destruct (first_twice_None 0 (args p)) as [_ ->]; [|done].
  destruct (missing_from_nil 0 (args p)) as [_ ->]; [|done]. cbn [and_then done is_nil negb app].
  pose proof (bind_keyword_only_spec (kwonlyargs p) s 0 (with_vararg (bound_from 0 (args p) ∅))) as B.
  rewrite K in B. unfold with_vararg in B. rewrite B. cbn [and_then done]. unfold bind_rest.
  destruct (kwarg p); [by destruct (shared_dict _ _)|].
  destruct (find _ _) as [k|] eqn:F; [|done]. apply find_some in F as [Hk Hn]. apply list_elem_of_In in Hk.
  by rewrite (no_unknown_keyword0 eq_refl k Hk) in Hn.
Qed.

Lemma bind_params_acceptable s s' sc : bound s = (s', Ok sc) -> acceptable.
Proof.
  unfold bind_params_named. destruct (_ && (num_params p <? length argv)%nat) eqn:T; [done|].
  destruct (_ && negb (is_nil (positional_only_clashes p kwargs))) eqn:C; [done|].
  rewrite bind_positional_spec. destruct (first_twice 0 (args p)) eqn:D; [done|]. cbn [and_then done app].
  destruct (missing_from 0 (args p)) eqn:M; [|done]. cbn [is_nil negb].
  pose proof (bind_keyword_only_spec (kwonlyargs p) s 0 (with_vararg (bound_from 0 (args p) ∅))) as B.
  unfold with_vararg in B. destruct (kw_bound 0 _ _) as [sc'|] eqn:K; [|by destruct B as [m ->]].
  rewrite B. cbn [and_then done]. unfold bind_rest. intros R. split.
  - intros V. rewrite V in T. by apply Nat.ltb_ge in T.
  - intros V. rewrite V, andb_true_r in C. destruct (posonly p) eqn:P; cbn in C.
    + unfold positional_only_clashes. by rewrite P, take_0.
    + by destruct (positional_only_clashes p kwargs).
  - exact (proj1 (first_twice_None 0 (args p)) D).
  - exact (proj1 (missing_from_nil 0 (args p)) M).
  - exact (proj1 (kw_bound_Some _ 0 _) (ex_intro _ sc' K)).
  - intros V k Hk. rewrite V in R. destruct (find _ _) eqn:F; [done|].
    apply list_elem_of_In, (find_none _ _ F), negb_false_iff in Hk. done.
Qed.

(** With its defaults evaluated, a binding only allocates. *)
Lemma bind_params_variables s : variables (bound s).1 = variables s.
Proof.
  unfold bind_params_named. destruct (_ && (num_params p <? length argv)%nat); [done|].
  destruct (_ && negb _); [done|]. rewrite bind_positional_spec. destruct (first_twice _ _); [done|].
  cbn [and_then done app]. destruct (negb _); [done|].
  pose proof (bind_keyword_only_spec (kwonlyargs p) s 0 (with_vararg (bound_from 0 (args p) ∅))) as B.
  unfold with_vararg in B. destruct (kw_bound _ _ _); [rewrite B|by destruct B as [m ->]].
  cbn [and_then done]. unfold bind_rest. by destruct (kwarg p); [destruct (shared_dict _ _)|].
Qed.

(** C14: a call is accepted exactly when its arguments fit the parameters: no more
    positional arguments than parameters without [*args], no positional-only
    parameter named without [**kwargs], none filled by position and by keyword,
    every parameter given or defaulted, and without [**kwargs] no keyword that no
    parameter claims. *)
Theorem call_accepted_iff s : (exists s' sc, bound s = (s', Ok sc)) <-> acceptable.
Proof.
  split; [intros (s' & sc & E); by eapply bind_params_acceptable|].
  intros A. destruct (bind_params_Ok s A) as (sc & _ & ->). destruct (kwarg p); [|by eexists _, _].
  destruct (shared_dict _ _). by eexists _, _.
Qed.

(** C13: an accepted call binds every parameter of distinct names to its value: a
    positional one to its argument, the keyword of its name or its default,
    [*args] to the arguments left over, a keyword-only one to its keyword or
    default, [**kwargs] to a new dictionary of the keywords nothing else takes; and
    it binds nothing else. *)
Theorem call_binds_parameters s s' sc (distinct : NoDup (scope_names p)) (Hbound : bound s = (s', Ok sc)) :
  (forall i x, args p !! i = Some x -> sc !! p_name x = positional_value i (p_name x)) /\
  (forall name, vararg p = Some name -> sc !! name = Some (VTuple (drop (num_params p) argv))) /\
  (forall i x, kwonlyargs p !! i = Some x -> sc !! p_name x = keyword_only_value i (p_name x)) /\
  (forall name, kwarg p = Some name ->
     exists l, sc !! name = Some (VDict l) /\ dict_at (heap s') l = extra_keywords p kwargs) /\
  (forall name, name ∉ scope_names p -> sc !! name = None).
Proof.
  pose proof (bind_params_acceptable _ _ _ Hbound) as A. destruct (bind_params_Ok s A) as (sc1 & K & E).
  rewrite E in Hbound. clear E. set (sc0 := with_vararg (bound_from 0 (args p) ∅)) in *.
  unfold scope_names in distinct. apply NoDup_app in distinct as (Dp & Xp & D).
  apply NoDup_app in D as (_ & Xv & D). apply NoDup_app in D as (Dk & Xk & _).
  assert (forall name, kwarg p <> Some name -> sc !! name = sc1 !! name) as Rest.
  { intros name N. destruct (kwarg p) as [k|]; [|by injection Hbound as <- <-].
    destruct (shared_dict _ _). injection Hbound as <- <-. rewrite lookup_insert_ne; congruence. }
  assert (forall i x, args p !! i = Some x -> p_name x ∈ p_name <$> args p) as Ip
    by (intros ? ? L; eapply list_elem_of_lookup_2; by rewrite list_lookup_fmap, L).
  assert (forall i x, kwonlyargs p !! i = Some x -> p_name x ∈ p_name <$> kwonlyargs p) as Ik
    by (intros ? ? L; eapply list_elem_of_lookup_2; by rewrite list_lookup_fmap, L).
  split; [|split; [|split; [|split]]].
  - intros i x L. specialize (Xp _ (Ip _ _ L)). rewrite !elem_of_app in Xp.
    rewrite Rest by (intros V; apply Xp; rewrite V; cbn; set_solver).
    rewrite (kw_bound_other (p_name x) _ _ _ _ (fun N => Xp (or_intror (or_introl N))) K). unfold sc0, with_vararg.
    assert (bound_from 0 (args p) ∅ !! p_name x = positional_value i (p_name x)) as B.
    { apply (bound_from_lookup _ 0 _ i x Dp L). exact (all_given A). }
    destruct (vararg p) as [v|] eqn:V; [|exact B]. rewrite lookup_insert_ne; [exact B|].
    intros ->. apply Xp. left. cbn. set_solver.
  - intros name V. specialize (Xv name). rewrite V in Xv. cbn in Xv. rewrite elem_of_app in Xv.
    rewrite Rest by (intros W; apply Xv; [set_solver|]; right; rewrite W; cbn; set_solver).
    rewrite (kw_bound_other name _ _ _ _ (fun N => Xv ltac:(set_solver) (or_introl N)) K).
    unfold sc0, with_vararg. rewrite V. apply lookup_insert_eq.
  - intros i x L. specialize (Xk _ (Ik _ _ L)).
    rewrite Rest by (intros W; apply Xk; rewrite W; cbn; set_solver).
    exact (kw_bound_lookup _ 0 _ _ i x Dk K L).
  - intros name W. rewrite W in Hbound. destruct (shared_dict _ _) as [l h] eqn:Sd. injection Hbound as <- <-.
    exists l. split; [apply lookup_insert_eq|]. unfold shared_dict in Sd. injection Sd as <- <-.
    unfold dict_at. cbn. by rewrite lookup_insert_eq.
  - intros name N. unfold scope_names in N. rewrite !elem_of_app in N.
    rewrite Rest by (intros W; apply N; rewrite W; cbn; set_solver).
    assert (name ∉ p_name <$> kwonlyargs p) as Nk by tauto.
    rewrite (kw_bound_other name _ _ _ _ Nk K). unfold sc0, with_vararg.
    assert (bound_from 0 (args p) ∅ !! name = None) as B.
    { rewrite bound_from_other; [apply lookup_empty|tauto]. }
    destruct (vararg p) as [v|] eqn:V; [|exact B]. rewrite lookup_insert_ne; [exact B|].
    intros ->. apply N. cbn. set_solver.
Qed.
End Binding.

(** ** Witnesses: [def f(a, /, b, c=5, *rest, k, **kw)] called [f(1, 2, k=3, z=4)] *)

Definition sample_params : FunctionParams :=
  mkParams [mkParam "a" None; mkParam "b" None; mkParam "c" None] ["5"] [VInt 5] (Some "rest")
    [mkParam "k" None] [None] [None] (Some "kw") 1.
Definition sample_kwargs : list (string * Value) := [("k", VInt 3); ("z", VInt 4)]%string.

Lemma sample_acceptable : acceptable sample_params [VInt 1; VInt 2] sample_kwargs.
Proof.
  split; try done.
  - intros [|[|[|i]]] x; cbn; [intros [= <-]..|done]; reflexivity.
  - intros [|[|[|i]]] x; cbn; [intros [= <-]..|done]; by eexists.
  - intros [|i] x; cbn; [intros [= <-]|done]; by eexists.
Qed.

Lemma sample_names_distinct : NoDup (scope_names sample_params).
Proof. apply (bool_decide_unpack _). by vm_compute. Qed.

Lemma call_accepted_iff_witness :
  exists s' sc, bind_params_named eval_expr sample_params "f" [VInt 1; VInt 2] sample_kwargs fresh_state = (s', Ok sc).
Proof.
  apply (call_accepted_iff eval_expr sample_params "f" [VInt 1; VInt 2] sample_kwargs); [reflexivity|].
  exact sample_acceptable.
Defined.

Lemma call_binds_parameters_witness :
  exists s' sc l, bind_params_named eval_expr sample_params "f" [VInt 1; VInt 2] sample_kwargs fresh_state = (s', Ok sc) /\
    sc !! "a"%string = Some (VInt 1) /\ sc !! "c"%string = Some (VInt 5) /\ sc !! "rest"%string = Some (VTuple []) /\
    sc !! "k"%string = Some (VInt 3) /\ sc !! "kw"%string = Some (VDict l) /\
    dict_at (heap s') l = [(KString (lit "z"), VInt 4)].
Proof.
  destruct (bind_params_Ok eval_expr sample_params "f" [VInt 1; VInt 2] sample_kwargs eq_refl fresh_state sample_acceptable)
    as (sc & _ & E).
  cbn [kwarg sample_params] in E. destruct (shared_dict _ _) as [l h] eqn:Sd.
  destruct (call_binds_parameters eval_expr sample_params "f" [VInt 1; VInt 2] sample_kwargs eq_refl fresh_state
              _ _ sample_names_distinct E) as (P & V & K & W & _).
  exists (set_heap h fresh_state), (<["kw"%string := VDict l]> sc), l.
  destruct (W _ eq_refl) as (l' & El & Ed). rewrite lookup_insert_eq in El. injection El as <-.
  split; [exact E|]. split; [exact (P 0%nat _ eq_refl)|]. split; [exact (P 2%nat _ eq_refl)|].
  split; [exact (V _ eq_refl)|]. split; [exact (K 0%nat _ eq_refl)|]. split; [apply lookup_insert_eq|]. exact Ed.
Defined.
