(* ===== verification/CallsThms.v ===== *)
(** Calls of functions and lambdas (eval/functions/dispatch.rs): a call leaves the
    caller's frame and the names it touches as it found them, and the fast path
    is the general one. *)
From Stdlib Require Import ZArith Lia Ascii String SpecFloat.
From stdpp Require Import base tactics list numbers option strings pretty gmap.
From S2P Require Import Prelude PySet Values Errors F64 Keys Arith ValueEq Classes Slices Compare Operators State Exceptions Op Syntax.
From S2P Require Import Names Unparse Mangle Params Host Displays Eval Definitions Match Stmts Functions Samples Frame ParamsThms.

(** ** The frame of the caller *)

Section Frames.
Context `{External} `{!ExternalOrder} `{!Platform} `{!Formats} `{!Calls} `{!Estimates} `{!Environment} `{!Host}.
Context `{!FrameLaws}.
Variable eval : InterpreterState -> PyExpr -> Eval Value.
Variable exec : InterpreterState -> PyStmt -> Eval Value.
Hypothesis eval_framed : forall s e, framed s (eval s e).
Hypothesis exec_framed : forall s st, framed s (exec s st).

Lemma set_named_framed s n v : framed s (set_named s n v).
Proof. unfold set_named. frames. Qed.
#[local] Hint Resolve set_named_framed : frame.

Lemma set_each_framed bs : forall s, framed s (set_each s bs).
Proof. induction bs as [|[n v] bs IH]; intros s; cbn [set_each]; frames. Qed.
#[local] Hint Resolve set_each_framed : frame.

Lemma overlay_closure_framed skip rs m sc c : forall s, framed s (overlay_closure s skip rs m sc c).
Proof.
  induction c as [|[n v] c IH]; intros s; cbn [overlay_closure]; cbv zeta; [frames|].
  destruct (_ || _); [apply IH|]. destruct (same_live s n v) as [[]|]; [apply IH| |apply framed_panic]. frames.
Qed.

Lemma apply_cell_refreshes_framed rs sc : forall s, framed s (apply_cell_refreshes s rs sc).
Proof. induction rs as [|[n id] rs IH]; intros s; cbn [apply_cell_refreshes]; frames. Qed.
#[local] Hint Resolve overlay_closure_framed apply_cell_refreshes_framed : frame.

Lemma apply_nonlocal_cell_framed s f sc : framed s (apply_nonlocal_cell s f sc).
Proof. unfold apply_nonlocal_cell. frames. Qed.
#[local] Hint Resolve apply_nonlocal_cell_framed : frame.

Lemma apply_function_scope_framed s f sc : framed s (apply_function_scope s f sc).
Proof. unfold apply_function_scope. frames. Qed.

Lemma apply_lambda_scope_framed s l sc : framed s (apply_lambda_scope s l sc).
Proof. unfold apply_lambda_scope. frames. Qed.

Lemma default_source_framed s src : framed s (eval_default_source eval s src).
Proof. unfold eval_default_source. frames. Qed.

Lemma sourced_framed s src : framed s (sourced eval s src).
Proof.
  unfold sourced. apply (framed_match _ (eval_default_source eval s src));
    [apply default_source_framed|done|]. intros s1 []; frames.
Qed.
#[local] Hint Resolve sourced_framed : frame.

Lemma positional_default_framed p s i : framed s (positional_default eval p s i).
Proof. unfold positional_default. frames. Qed.
#[local] Hint Resolve positional_default_framed : frame.

Lemma bind_positional_framed p argv kw ps : forall s i sc ms, framed s (bind_positional eval p argv kw s i ps sc ms).
Proof. induction ps as [|q ps IH]; intros s i sc ms; cbn [bind_positional]; frames. Qed.

Lemma bind_keyword_only_framed p kw ps : forall s i sc, framed s (bind_keyword_only eval p kw s i ps sc).
Proof. induction ps as [|q ps IH]; intros s i sc; cbn [bind_keyword_only]; frames. Qed.

Lemma bind_rest_framed p kw s sc : framed s (bind_rest p kw s sc).
Proof.
  unfold bind_rest. destruct (kwarg p); [|frames]. apply framed_step. split; reflexivity.
Qed.

Lemma bind_params_framed p n argv kw s : framed s (bind_params_named eval p n argv kw s).
Proof.
  unfold bind_params_named. destruct (_ && _); [frames|]. destruct (_ && _); [frames|].
  apply framed_bind; [apply bind_positional_framed|intros s1 [sc ms]]. destruct (negb _); [frames|].
  apply framed_bind; [apply bind_keyword_only_framed|intros s2 sc2]. apply bind_rest_framed.
Qed.

Lemma execute_body_framed s b : framed s (execute_body exec s b).
Proof.
  unfold execute_body. generalize VNone. revert s.
  induction b as [|st b IH]; intros s v; cbn [execute_from]; [frames|].
  apply (framed_match _ (exec s st)); [apply exec_framed|done|]. intros s1 [v1|[ie|[]|e]|]; frames.
Qed.
#[local] Hint Resolve execute_body_framed : frame.

(** *** Entering and leaving *)

(** What the caller gets back from a state that a callee kept. *)
Lemma enter_call_framed s : counters_ok s ->
  (exists e, enter_call s = (s, Some e)) \/
  (exists s1, enter_call s = (s1, None) /\ counters_ok s1 /\ (forall s2, frame s1 s2 -> frame s (exit_call s2)) /\
     variables s1 = variables s /\ frame_cell_owners s1 = frame_cell_owners s /\ heap s1 = heap s).
Proof.
  intros (O1 & O2 & O3). unfold enter_call. destruct (_ >=? _) eqn:D; [left; by eexists|right].
  eexists. split; [done|]. reflect D. split; [|split; [|done]].
  { unfold counters_ok, saturating_add. cbn. lia. }
  intros s2 []. unfold exit_call. cbn in *. rewrite frame_saved, list.last_snoc.
  split; cbn; try congruence; try done.
  - unfold saturating_sub, saturating_add in *. lia.
  - by rewrite removelast_last.
Qed.

Lemma pop_owners_framed s s2 : frame (push_owners s) s2 -> frame s (pop_owners s2).
Proof. intros []. split; try done; cbn in *. by rewrite (same_outer_push _ _ _ frame_owners). Qed.

Lemma pop_source_framed src q s s2 : frame (push_source src q s) s2 -> frame s (pop_source s2).
Proof.
  intros []. split; try done; cbn in *; [rewrite frame_qualnames|rewrite frame_sources]; by rewrite removelast_last.
Qed.

Lemma restore_framed cp s : frame s (restore cp s).
Proof. split; reflexivity. Qed.

Lemma writeback_framed s f : frame s (writeback_nonlocal_cell s f).
Proof. unfold writeback_nonlocal_cell. repeat case_match; split; reflexivity. Qed.

(** Leaving does the same in whatever order the stacks are popped. *)
Lemma exit_pop_source s : pop_source (exit_call s) = exit_call (pop_source s).
Proof. unfold exit_call. cbn. by destruct (list.last (saved_expr_depth s)). Qed.

Lemma frame_counters s s' : frame s s' -> counters_ok s -> counters_ok s'.
Proof. intros []. unfold counters_ok. congruence. Qed.

Lemma catch_return_fst m : (catch_return m).1 = m.1.
Proof. by destruct m as [s [v|[ie|[]|e]|]]. Qed.

Lemma catch_return_panic m : m.2 = Panic -> (catch_return m).2 = Panic.
Proof. destruct m as [s r]. by intros [= ->]. Qed.

Lemma run_eager_framed s b : framed s (run_eager exec s b).
Proof.
  intros O. unfold run_eager. set (s1 := set_yields (yield_stack s ++ [[]]) s).
  assert (counters_ok s1) as O1 by exact O.
  pose proof (execute_body_framed s1 b O1) as F. destruct (execute_body exec s1 b) as [s2 r].
  destruct F as [P|F]; cbn [fst snd] in *; [subst; by left|].
  assert (frame s (set_yields (removelast (yield_stack s2)) s2)) as F2.
  { destruct F. split; try done. cbn in *. by rewrite (same_outer_push _ _ _ frame_yields). }
  destruct r as [v|[ie|[]|e]|]; cbn; first [by left|right]; try exact F2;
    (etrans; [exact F2|]); split; reflexivity.
Qed.

(** What follows the entry of a frame: nothing is left of it. *)
Definition outcome_framed (s : InterpreterState) (m : Eval Value) : Prop := m.2 = Panic \/ frame s m.1.

Lemma run_frame_framed s s1 f touched cp :
  counters_ok s1 -> (forall s2, frame s1 s2 -> frame s (exit_call (pop_owners s2))) ->
  outcome_framed s (run_frame exec s1 f touched cp).
Proof.
  intros O L. unfold run_frame. cbv zeta. set (s2 := push_source _ _ s1).
  assert (counters_ok s2) as O2 by exact O.
  assert (forall m : Eval Value, framed s2 m -> outcome_framed s
    (match m with (s3, Panic) => (s3, Panic) | (s3, r) => catch_return (leave_frame f cp s3, r) end)) as K.
  { intros m M. destruct (M O2) as [P|F]; destruct m as [s3 r]; cbn [fst snd] in *; [subst; by left|].
    assert (frame s (leave_frame f cp s3)) as F'.
    { unfold leave_frame. rewrite exit_pop_source.
      change (frame s (exit_call (pop_owners (restore cp (pop_source (writeback_nonlocal_cell s3 f)))))).
      apply L. etrans; [|apply restore_framed].
      apply (pop_source_framed _ _ _ _ (transitivity F (writeback_framed s3 f))). }
    destruct r; [right; by rewrite catch_return_fst..|by left]. }
  apply K. destruct (function_bodies s1 !! body_cache_key f) as [b|]; [|frames].
  destruct (_ || _); [|apply execute_body_framed]. destruct (generator_suspendable b); [|apply run_eager_framed].
  pose proof (create_generator_framed s2 f b (locals_of s2 touched) touched) as G.
  destruct (create_generator s2 f b (locals_of s2 touched) touched) as [s3 g]. by apply framed_step.
Qed.

Lemma call_general_framed s s1 f argv kw :
  counters_ok s1 -> (forall s2, frame s1 s2 -> frame s (exit_call s2)) ->
  outcome_framed s (call_general eval exec s1 f argv kw).
Proof.
  intros O L. unfold call_general. cbv zeta. set (s2 := push_owners s1).
  assert (counters_ok s2) as O2 by exact O.
  assert (forall s3, frame s2 s3 -> frame s (exit_call (pop_owners s3))) as L2
    by (intros; by apply L, pop_owners_framed).
  destruct (bind_params_framed (params f) (display_qualname f) argv kw s2 O2) as [P|F];
    destruct (bind_params_named _ _ _ _ _ _) as [s3 [sc|e|]]; cbn [fst snd] in *; try (by left);
    [|right; by apply L2].
  destruct (touched_names s3 f) as [touched|]; [|by left].
  destruct (apply_function_scope_framed s3 f sc (frame_counters _ _ F O2)) as [P|F4];
    destruct (apply_function_scope s3 f sc) as [s4 [u|e|]]; cbn [fst snd] in *; try (by left).
  - apply run_frame_framed.
    + by apply (frame_counters _ _ (transitivity F F4)).
    + intros s5 F5. apply L2. etrans; [exact F|]. by etrans.
  - right. apply L2. etrans; [exact F|]. etrans; [exact F4|apply restore_framed].
Qed.

Lemma call_trivial_framed s s1 f :
  counters_ok s1 -> (forall s2, frame s1 s2 -> frame s (exit_call s2)) -> outcome_framed s (call_trivial exec s1 f).
Proof.
  intros O L. unfold call_trivial.
  set (body := function_bodies s1 !! body_cache_key f). cbv zeta.
  destruct (body ≫= try_eval_trivial_body); [right; by apply L|].
  set (s2 := push_owners _). assert (counters_ok s2) as O2 by exact O.
  assert (framed s2 (run_optional exec s2 body)) as R by (unfold run_optional; frames).
  destruct (R O2) as [P|F]; destruct (run_optional exec s2 body) as [s3 r]; cbn [fst snd] in *; [subst; by left|].
  destruct r; [right; rewrite catch_return_fst..|by left];
    exact (L _ (pop_source_framed _ _ _ _ (pop_owners_framed _ _ F))).
Qed.

Lemma call_user_function_framed s f argv kw : framed s (call_user_function eval exec s f argv kw).
Proof.
  intros O. unfold call_user_function. destruct (_ && _); [right; split; reflexivity|].
  unfold call_user_function_inner, lift_call.
  destruct (enter_call_framed s O) as [[e ->]|(s1 & -> & O1 & L & _)]; [by right|]. cbn [and_then].
  destruct (trivial_frame f argv kw); [by apply call_trivial_framed|by apply call_general_framed].
Qed.

Lemma call_lambda_framed s l argv kw : framed s (call_lambda eval s l argv kw).
Proof.
  intros O. unfold call_lambda, lift_call.
  destruct (enter_call_framed s O) as [[e ->]|(s1 & -> & O1 & L & _)]; [by right|]. cbn [and_then].
  destruct (bind_params_framed (l_params l) (lambda_name l) argv kw s1 O1) as [P|F];
    destruct (bind_params_named _ _ _ _ _ _) as [s3 [sc|e|]]; cbn [fst snd] in *; try (by left);
    [|right; by apply L].
  destruct (lambda_touched s3 l) as [touched|]; [|by left].
  destruct (apply_lambda_scope_framed s3 l sc (frame_counters _ _ F O1)) as [P|F4];
    destruct (apply_lambda_scope s3 l sc) as [s4 [u|e|]]; cbn [fst snd] in *; try (by left);
    [|right; apply L; etrans; [exact F|]; etrans; [exact F4|apply restore_framed]].
  pose proof (transitivity F F4) as F'.
  assert (framed (push_source (lambda_source l) (lambda_name l) s4) (run_lambda_body eval s4 l)) as R.
  { unfold run_lambda_body. destruct (lambda_bodies s4 !! lambda_id l); [|frames].
    apply stamped_framed. apply eval_framed. }
  destruct (R (frame_counters _ _ F' O1)) as [P|F5]; destruct (run_lambda_body eval s4 l) as [s5 r];
    cbn [fst snd] in *; [subst; by left|].
  assert (frame s (exit_call (restore (capture s3 touched) (pop_source s5)))) as G.
  { apply L. etrans; [exact F'|]. etrans; [|apply restore_framed]. exact (pop_source_framed _ _ _ _ F5). }
  destruct r; [by right..|by left].
Qed.
End Frames.

Section Interpreted.
Context `{External} `{!ExternalOrder} `{!Platform} `{!Formats} `{!Calls} `{!Estimates} `{!Environment} `{!Host}.
Context `{!FrameLaws}.

Lemma eval_stmt_framed fuel s st : framed s (eval_stmt fuel s st).
Proof. intros O. by apply statements_framed. Qed.

(** A call of a function leaves the state's frame as it found it, however it
    ends: the depths, the stacks of sources, qualified names, running
    generators and saved depths, and the cell owners of every frame around the caller's. *)
Theorem call_keeps_frame fuel s f argv kwargs :
  counters_ok s ->
  (call_user_function eval_expr (eval_stmt fuel) s f argv kwargs).2 = Panic \/
  frame s (call_user_function eval_expr (eval_stmt fuel) s f argv kwargs).1.
Proof.
  apply call_user_function_framed; [intros; apply eval_expr_framed|intros; apply eval_stmt_framed].
Qed.
End Interpreted.

(** ** The names a call touches *)

Section Names.
Context `{External} `{!ExternalOrder} `{!Platform} `{!Formats} `{!Calls} `{!Estimates} `{!Environment} `{!Host}.

Lemma restore_lookup cp : forall vars n, n ∉ cp.*1 -> fold_left restore_name cp vars !! n = vars !! n.
Proof.
  induction cp as [|[m v] cp IH]; intros vars n N; [done|]. cbn in N |- *.
  apply not_elem_of_cons in N as [N1 N2]. rewrite IH by done. unfold restore_name. cbn.
  destruct v; [by rewrite lookup_insert_ne|by rewrite lookup_delete_ne].
Qed.

(** Restoring gives every captured name its value at the capture, absent or
    present. *)
Lemma restore_captured s s' names n : n ∈ names -> variables (restore (capture s names) s') !! n = variables s !! n.
Proof.
  unfold restore, capture. cbn. generalize (variables s'). revert n.
  induction names as [|m names IH]; intros n vars N; [by apply not_elem_of_nil in N|]. cbn.
  destruct (decide (n ∈ names)) as [I|I]; [by apply IH|].
  rewrite restore_lookup.
  - apply elem_of_cons in N as [->|N]; [|done]. unfold restore_name. cbn.
    destruct (variables s !! m) eqn:E; [by rewrite lookup_insert_eq|by rewrite lookup_delete_eq].
  - by rewrite list_fmap_compose || (rewrite <- list_fmap_compose; cbn; by rewrite list_fmap_id) || (intros C; apply I;
      apply list_elem_of_fmap in C as ([x v] & -> & C); apply list_elem_of_fmap in C as (y & [= -> _] & C); done).
Qed.

Variable eval : InterpreterState -> PyExpr -> Eval Value.
Variable exec : InterpreterState -> PyStmt -> Eval Value.

(** The names a frame binds for itself. *)
Definition own_names (f : FunctionDef) : list string :=
  List.filter (fun n => negb (bool_decide (n ∈ global_names f)) && negb (bool_decide (n ∈ nonlocal_names f)))
    (scope_names (params f) ++ assigned_names f).

Lemma own_names_touched s f touched n : touched_names s f = Some touched -> n ∈ own_names f -> n ∈ touched.
Proof.
  unfold touched_names, own_names. destruct (closure_touched _ _ _) as [names|]; [|done]. cbn. intros [= <-].
  rewrite !list_elem_of_In, !filter_In, <- !list_elem_of_In, !elem_of_app. tauto.
Qed.

Lemma leave_frame_variables f cp s : variables (leave_frame f cp s) = variables (restore cp (writeback_nonlocal_cell s f)).
Proof. unfold leave_frame, exit_call, pop_source, pop_owners. by repeat case_match. Qed.

Lemma run_frame_variables s f touched cp n :
  (run_frame exec s f touched cp).2 = Panic \/
  exists s', variables (run_frame exec s f touched cp).1 !! n = variables (restore cp s') !! n.
Proof.
  unfold run_frame. cbv zeta. destruct (match function_bodies s !! body_cache_key f with Some _ => _ | None => _ end) as [s' r].
  destruct r; [right; exists (writeback_nonlocal_cell s' f)..|by left]; cbv beta iota; rewrite catch_return_fst; unfold fst; by rewrite leave_frame_variables.
Qed.

(** C10: after a call of a function whose defaults were evaluated at its
    definition, each name the frame binds for itself (its parameters, and the names
    its body assigns and does not declare [global] or [nonlocal]) has in the caller
    the value it had before, or none, whether the call returned or failed. *)
Theorem call_leaves_callers_names s f argv kwargs n (sync : is_async f = false)
    (ready : defaults_ready (params f) = true) (Hn : n ∈ own_names f) :
  let out := call_user_function eval exec s f argv kwargs in
  out.2 = Panic \/ variables out.1 !! n = variables s !! n.
Proof.
  unfold call_user_function. rewrite sync. cbn [andb]. unfold call_user_function_inner, lift_call, enter_call.
  destruct (_ >=? _); [by right|]. cbn [and_then]. set (s1 := set_depths _ _ _ s).
  destruct (trivial_frame f argv kwargs) eqn:T.
  { exfalso. unfold trivial_frame in T. unfold own_names, scope_names in Hn. repeat (apply andb_prop in T as [T ?]).
    destruct (args (params f)), (vararg (params f)), (kwonlyargs (params f)), (kwarg (params f)), (assigned_names f);
      try done. by apply not_elem_of_nil in Hn. }
  unfold call_general. cbv zeta.
  pose proof (bind_params_variables eval (params f) (display_qualname f) argv kwargs ready (push_owners s1)) as V.
  destruct (bind_params_named _ _ _ _ _ _) as [s3 [sc|e|]]; cbn [fst snd] in *; [| |by left].
  2: { right. cbn. unfold exit_call. case_match; cbn; by rewrite V. }
  destruct (touched_names s3 f) as [touched|] eqn:Et; [|by left].
  pose proof (own_names_touched _ _ _ _ Et Hn) as It.
  assert (forall s', variables (restore (capture s3 touched) s') !! n = variables s !! n) as R.
  { intros s'. rewrite restore_captured by done. by rewrite V. }
  destruct (apply_function_scope s3 f sc) as [s4 [u|e|]]; [| |by left].
  - destruct (run_frame_variables s4 f touched (capture s3 touched) n) as [P|[s' E]]; [by left|right]. by rewrite E.
  - right. cbn [fst done]. unfold exit_call. case_match; cbn; apply R.
Qed.
End Names.

(** ** The fast path *)

Section FastPath.
Context `{External} `{!ExternalOrder} `{!Platform} `{!Formats} `{!Calls} `{!Estimates} `{!Environment} `{!Host}.
Variable eval : InterpreterState -> PyExpr -> Eval Value.
Variable exec : InterpreterState -> PyStmt -> Eval Value.

Lemma bind_nothing p name s :
  args p = [] -> vararg p = None -> kwonlyargs p = [] -> kwarg p = None ->
  bind_params_named eval p name [] [] s = done s (Ok ∅).
Proof.
  intros A V K W. unfold bind_params_named, num_params, positional_only_clashes, bind_rest. rewrite A, V, K, W.
  rewrite take_nil. cbn. by rewrite andb_false_r.
Qed.

(** The closure of a function at module level adds nothing while its names are
    still globals. *)
Lemma overlay_live skip rs sc c : forall s, (forall n v, (n, v) ∈ c -> n ∈ dom (variables s)) ->
  overlay_closure s skip rs true sc c = done s (Ok ()).
Proof.
  induction c as [|[n v] c IH]; intros s L; [done|]. cbn [overlay_closure]. cbv zeta.
  rewrite (bool_decide_eq_true_2 (n ∈ dom (variables s))) by (apply (L n v); left).
  rewrite !orb_true_r. apply IH. intros m w I. apply (L m w). by right.
Qed.

Lemma restore_nothing s : restore [] s = s.
Proof. by destruct s. Qed.

(** The way out of a frame that captured nothing and has no [nonlocal] cell. *)
Lemma leave_trivial_frame f s : nonlocal_cell_id f = None -> leave_frame f [] s = exit_call (pop_source (pop_owners s)).
Proof.
  intros N. unfold leave_frame, writeback_nonlocal_cell. rewrite N, restore_nothing. destruct s.
  unfold exit_call, pop_source, pop_owners. cbn. by destruct (list.last _).
Qed.

Lemma trivial_frame_fields f argv kwargs : trivial_frame f argv kwargs = true ->
  argv = [] /\ kwargs = [] /\ args (params f) = [] /\ vararg (params f) = None /\ kwonlyargs (params f) = [] /\
  kwarg (params f) = None /\ nonlocal_names f = [] /\ assigned_names f = [] /\ global_names f = [] /\
  is_generator f = false /\ (closure f = [] \/ is_module_level f = true).
Proof.
  unfold trivial_frame. intros T. repeat (apply andb_prop in T as [T ?]).
  destruct argv, kwargs, (args (params f)), (vararg (params f)), (kwonlyargs (params f)), (kwarg (params f)),
    (nonlocal_names f), (assigned_names f), (global_names f), (is_generator f), (closure f); try done;
    repeat split; auto.
Qed.

Lemma trivial_touched s f argv kwargs : trivial_frame f argv kwargs = true -> touched_names s f = Some [].
Proof.
  intros (_ & _ & A & V & K & W & _ & As & _ & _ & C)%trivial_frame_fields.
  unfold touched_names, scope_names. rewrite A, V, K, W, As.
  destruct C as [-> | ->]; [done|]. by destruct (closure f) as [|[]].
Qed.

Lemma trivial_scope s f argv kwargs : trivial_frame f argv kwargs = true ->
  (forall n v, (n, v) ∈ closure f -> n ∈ dom (variables s)) -> nonlocal_cell_id f = None -> cell_refreshes f = [] ->
  apply_function_scope s f ∅ = done s (Ok ()).
Proof.
  intros (_ & _ & _ & _ & _ & _ & _ & _ & _ & _ & C)%trivial_frame_fields L N R.
  unfold apply_function_scope, apply_nonlocal_cell. rewrite N, R.
  assert (overlay_closure s (global_names f) [] (is_module_level f) ∅ (closure f) = done s (Ok ())) as ->.
  { destruct C as [-> | ->]; [done|by apply overlay_live]. }
  cbn. by rewrite map_to_list_empty.
Qed.

(** A tick counts an operation, and stops the program only at a limit. *)
Lemma tick_counts s : exists n r, tick s = (set_operations n s, r) /\
  (r = Ok () \/ exists m, r = Err (Interpreter (LimitExceeded m))).
Proof.
  unfold tick, lift_call, increment_ops. cbv zeta. set (t := set_operations _ s).
  destruct (_ >=? _); [by do 2 eexists; eauto|]. destruct (_ =? 0); [|by do 2 eexists; eauto].
  unfold over_memory. destruct (_ >? _); [by do 2 eexists; eauto|].
  destruct (max_execution_time _); [|by do 2 eexists; eauto]. destruct (_ >? _); by do 2 eexists; eauto.
Qed.

(** What running a trivial body does: it is answered as the fast path answers it. *)
Lemma run_trivial_body depth s b v : try_eval_trivial_body b = Some v -> exists n r,
  execute_body (eval_stmt (S depth)) s b = (set_operations n s, r) /\
  (r = Ok v \/ r = Err (Signal (Return v)) \/ exists m, r = Err (Interpreter (LimitExceeded m))).
Proof.
  unfold try_eval_trivial_body. destruct b as [|[start node] [|]]; [done| |by destruct node as [| | | | | | | | |[[]|]| | | | | | | | | | | | | | | | |]].
  unfold execute_body, eval_stmt. cbn [execute_from eval_stmt_or].
  destruct (tick_counts s) as (n & r & -> & [->|[m ->]]).
  2: { intros _. exists n. eexists. split; [by destruct node|eauto]. }
  cbn [and_then]. destruct node as [| | | | | | | | |[e|]| | | | | | | | | | | | | | | | |]; try done.
  - destruct e; try done. intros [= <-]. unfold eval_return, eval_opt. cbn [eval_expr try_eval_expr_sync].
    destruct (tick_counts (set_operations n s)) as (n' & r & -> & [->|[m ->]]); cbn; eexists n', _; (split; [reflexivity|eauto]).
  - intros [= <-]. exists n. eexists. split; [reflexivity|eauto].
  - intros [= <-]. exists n. eexists. split; [reflexivity|eauto].
Qed.

Lemma leave_after_ops src q n s :
  exit_call (pop_source (pop_owners (set_operations n (push_owners (push_source src q s))))) = set_operations n (exit_call s).
Proof.
  assert (pop_source (pop_owners (set_operations n (push_owners (push_source src q s)))) = set_operations n s) as ->.
  { unfold pop_source, pop_owners, push_owners, push_source. destruct s. cbn. by rewrite !removelast_last. }
  unfold exit_call. destruct s. cbn. by case_match.
Qed.

(** C15: the fast path of a call (no arguments, no parameters, nothing bound) agrees with
    the general path, when the function has no cells to refresh, the names of its closure
    are still bound and its body has no [yield] the flag misses. A body that is run
    gives the same state and outcome. A body answered without running it ([pass], a
    [return] of nothing or of a constant) gives the value the general path gives, in
    the same state but for the count of operations, which the fast path does not
    raise; so the general path can stop at a limit where the fast path answers. *)
Theorem fast_path_is_general depth s f argv kwargs :
  trivial_frame f argv kwargs = true ->
  nonlocal_cell_id f = None -> cell_refreshes f = [] ->
  (forall n v, (n, v) ∈ closure f -> n ∈ dom (variables s)) ->
  (forall b, function_bodies s !! body_cache_key f = Some b -> contains_yield_stmts b = false) ->
  let fast := call_trivial (eval_stmt (S depth)) s f in
  let general := call_general eval (eval_stmt (S depth)) s f argv kwargs in
  match function_bodies s !! body_cache_key f ≫= try_eval_trivial_body with
  | None => fast = general
  | Some v =>
      fast = (exit_call s, Ok v) /\
      exists count, general.1 = set_operations count (exit_call s) /\
        (general.2 = Ok v \/ exists m, general.2 = Err (Interpreter (LimitExceeded m)))
  end.
Proof.
  intros T N R L B. pose proof (trivial_frame_fields _ _ _ T) as (-> & -> & A & V & K & W & _ & _ & _ & G & _).
  cbv zeta. unfold call_general, call_trivial. cbv zeta. rewrite bind_nothing by done. cbn [done].
  rewrite (trivial_touched _ _ _ _ T). rewrite (trivial_scope _ _ _ _ T) by done.
  cbn [done]. unfold run_frame. cbv zeta. rewrite G. cbn [orb].
  change (function_bodies (push_owners s)) with (function_bodies s).
  change (push_source (source f) (display_qualname f) (push_owners s))
    with (push_owners (push_source (source f) (display_qualname f) s)).
  destruct (function_bodies s !! body_cache_key f) as [b|] eqn:F; cbn [option_bind mbind run_optional].
  - rewrite (B b eq_refl). destruct (try_eval_trivial_body b) as [v|] eqn:E.
    + split; [done|]. destruct (run_trivial_body depth (push_owners (push_source (source f) (display_qualname f) s)) b v E)
        as (n & r & -> & Hr). exists n. unfold capture. cbn [map].
      destruct Hr as [->|[->|[m ->]]]; rewrite leave_trivial_frame, leave_after_ops by done; cbn; eauto.
    + set (s2 := push_owners _). destruct (execute_body (eval_stmt (S depth)) s2 b) as [s3 []]; unfold capture; cbn [map];
        by rewrite ?leave_trivial_frame.
  - set (s2 := push_owners _). unfold done, capture. cbn [map]. by rewrite leave_trivial_frame.
Qed.
End FastPath.

(** ** Witnesses *)

(** [def f(a, b, c=5, ...): x = ...] and [def g(): ...]. *)
Definition sample_function (ps : FunctionParams) (assigned : list string) : FunctionDef :=
  mkFunctionDef "f" "f#0" ps [] "" [] false None None assigned [] true None [] "f" [] false.

Lemma call_keeps_frame_witness :
  counters_ok fresh_state /\
  ((call_user_function eval_expr (eval_stmt 3) fresh_state (sample_function sample_params []) [VInt 1; VInt 2]
      sample_kwargs).2 = Panic \/
   frame fresh_state (call_user_function eval_expr (eval_stmt 3) fresh_state (sample_function sample_params [])
      [VInt 1; VInt 2] sample_kwargs).1).
Proof.
  assert (counters_ok fresh_state) as C by (repeat split; discriminate).
  split; [exact C|]. exact (call_keeps_frame 3 fresh_state _ _ _ C).
Defined.

Lemma call_leaves_callers_names_witness :
  let f := sample_function sample_params ["x"]%string in
  let s := set_variables {["x"%string := VInt 7]} fresh_state in
  "x"%string ∈ own_names f /\
  ((call_user_function eval_expr (eval_stmt 3) s f [VInt 1; VInt 2] sample_kwargs).2 = Panic \/
   variables (call_user_function eval_expr (eval_stmt 3) s f [VInt 1; VInt 2] sample_kwargs).1 !! "x"%string
   = variables s !! "x"%string).
Proof.
  cbv zeta. assert ("x"%string ∈ own_names (sample_function sample_params ["x"]%string)) as I
    by (apply (bool_decide_unpack _); by vm_compute).
  split; [exact I|]. apply (call_leaves_callers_names eval_expr (eval_stmt 3)); [done|done|exact I].
Defined.

Lemma fast_path_is_general_witness :
  let f := sample_function (mkParams [] [] [] None [] [] [] None 0) [] in
  let s := set_program ∅ {["f#0"%string := [At 0 (SReturn (Some (EConstant (CInt 7))))]]} ∅ fresh_state in
  call_trivial (eval_stmt 3) s f = (exit_call s, Ok (VInt 7)) /\
  (call_general eval_expr (eval_stmt 3) s f [] []).2 = Ok (VInt 7).
Proof.
  cbv zeta. set (f := sample_function _ _). set (s := set_program _ _ _ _).
  destruct (fast_path_is_general eval_expr 2 s f [] []) as [E _]; [reflexivity..| | |split; [exact E|reflexivity]].
  - intros n v I. by apply not_elem_of_nil in I.
  - intros b F. cbn in F. rewrite lookup_singleton_eq in F. by injection F as <-.
Defined.
