(* ===== verification/ClassDef.v ===== *)
(** Class statements (eval/classes.rs): bases, the namespace of the body, decorated
    methods, members of enumerations, slots and abstract methods, the hooks of metaclasses
    and descriptors, and the decorators of classes. Then that calls of methods, attribute
    access, construction and class statements keep the frame of the interpreter state. *)
From Stdlib Require Import ZArith Lia Ascii String SpecFloat.
From stdpp Require Import base tactics list numbers option strings pretty gmap.
From S2P Require Import Prelude PySet Values Errors F64 Keys Classes ClassesThms ValueEq Compare Operators State Exceptions Op Methods Containers.
From S2P Require Import Places Syntax Names Unparse Params Host Displays Eval Definitions Stmts Functions StrMethods Repr Attributes Targets.
From S2P Require Import Dataclasses Objects Samples Frame CallsThms.

(** The builder of named tuples and the wrapper of [functools.lru_cache]. *)
Class Builders `{External} : Type := {
  call_namedtuple : InterpreterState -> Value -> list Value -> Eval Value;
  make_lru_cache : InterpreterState -> Value -> option Z -> InterpreterState * Value
}.

Section ClassDef.
Context `{External} `{!ExternalOrder} `{!Platform} `{!Formats} `{!Calls} `{!Estimates} `{!Environment} `{!Host}
        `{!ModuleAttributes} `{!Library} `{!Unicode} `{!Builders}.
Variable eval : InterpreterState -> PyExpr -> Eval Value.
Variable exec : InterpreterState -> PyStmt -> Eval Value.
Abbreviation Kwargs := (list (string * Value)).
Abbreviation Registry := (gmap string ClassValue).

Abbreviation call_with := (call_method_inner eval exec).

(** ** Keywords and bases *)

(** [metaclass=]: [type] and the abstract base classes add none. *)
Definition metaclass_named (v : Value) (current : option string) : EvalResult (option string) :=
  match v with
  | VBuiltinName "type" | VType "type" | VType "abc.ABCMeta" | VType "abc.ABC" => Ok current
  | VClass n => Ok (Some n)
  | other => fail (TypeError ("metaclass must be a type, not '" ++ type_name other ++ "'"))
  end.

Fixpoint class_keywords (s : InterpreterState) (keywords : list (option string * PyExpr)) (out : option string * Kwargs) :
    Eval (option string * Kwargs) :=
  match keywords with
  | [] => done s (Ok out)
  | (key, e) :: keywords =>
      let? (s, v) := eval s e in
      let? (s, out) :=
        match key with
        | Some "metaclass" => let? (s, m) := done s (metaclass_named v out.1) in done s (Ok (m, out.2))
        | Some n => done s (Ok (out.1, im_insert String.eqb out.2 n v))
        | None => done s (Ok out)
        end in
      class_keywords s keywords out
  end.

(** What the bases say of a class. *)
Record BaseInfo : Type := mkBaseInfo {
  base_names : list string;
  base_enum : option EnumKind;
  base_namedtuple : bool;
  base_generic : bool
}.

(** The name of a base, and its value when there is one. *)
Definition resolve_base (s : InterpreterState) (base : PyExpr) : Eval (string * option Value) :=
  match base with
  | EName n => done s (Ok (n, variables s !! n))
  | other =>
      let? (s, v) := eval s other in
      done s match v with
             | VClass n | VExceptionType n | VType n => Ok (n, Some v)
             | _ => fail (TypeError ("bases must be types, not '" ++ type_name v ++ "'"))
             end
  end.

(** The marker types of other modules, which are not bases themselves. *)
Definition marker_base (n : string) (i : BaseInfo) : BaseInfo :=
  let enum k := mkBaseInfo (base_names i) (Some k) (base_namedtuple i) (base_generic i) in
  if String.eqb n "enum.Enum" then enum Plain
  else if String.eqb n "enum.IntEnum" then enum EInt
  else if String.eqb n "enum.Flag" then enum EFlag
  else if String.eqb n "enum.IntFlag" then enum EIntFlag
  else if String.eqb n "enum.StrEnum" then enum EStr
  else if String.eqb n "typing.NamedTuple" then mkBaseInfo (base_names i) (base_enum i) true (base_generic i)
  else if String.eqb n "typing.Generic" || String.prefix "typing.Generic[" n
  then mkBaseInfo (base_names i) (base_enum i) (base_namedtuple i) true
  else i.

Definition class_base (s : InterpreterState) (i : BaseInfo) (n : string) (resolved : option Value) : EvalResult BaseInfo :=
  let registered := bool_decide (n ∈ dom (classes s)) in
  if String.eqb n "object" then Ok i
  else
    match resolved with
    | Some (VType t) => Ok (marker_base t i)
    | Some (VModuleFunction _ _) => Ok i
    | _ =>
        let is_exception := is_exception_type_name n || match resolved with Some (VExceptionType _) => true | _ => false end in
        let is_type := String.eqb n "type" && match resolved with None => true | _ => false end && negb registered in
        if registered || is_exception || is_type
        then Ok (mkBaseInfo (base_names i ++ [n]) (base_enum i) (base_namedtuple i) (base_generic i))
        else fail (name_not_defined n)
    end.

Fixpoint class_bases (s : InterpreterState) (bases : list PyExpr) (i : BaseInfo) : Eval BaseInfo :=
  match bases with
  | [] => done s (Ok i)
  | base :: bases =>
      let? (s, r) := resolve_base s base in
      let? (s, i) := done s (class_base s i r.1 r.2) in
      class_bases s bases i
  end.

Definition inherited_metaclass (registry : Registry) (bases : list string) : option string :=
  head (omap (fun b => registry !! b ≫= metaclass) bases).

(** ** Members of enumerations *)

Definition is_auto_sentinel (v : Value) : bool :=
  match v with VModuleFunction m n => String.eqb m "enum" && String.eqb n "__auto__" | _ => false end.

Definition u64_max : Z := 2 ^ 64 - 1.
Definition next_power_of_two (n : Z) : Z := if n <=? 1 then 1 else 2 ^ Z.log2_up n.

(** The value of [auto()], and the next one. *)
Definition auto_value (kind : EnumKind) (member : string) (next : Z) : Value * Z :=
  match kind with
  | EStr => (VString (str_to_lowercase (name_text member)), next)
  | EFlag | EIntFlag =>
      let n := next_power_of_two (Z.max next 1) in
      (VInt (Z.min n i64_max), Z.min (saturating_add u64_max n n) i64_max)
  | _ => (VInt next, swrap64 (next + 1))
  end.

Definition wrap_enum_member (kind : option EnumKind) (class_name member : string) (v : Value) (next : Z) : Value * Z :=
  match kind with
  | None => (v, next)
  | Some kind =>
      match v with
      | VFunction _ | VLambda _ | VEnumMember _ _ _ _ => (v, next)
      | _ =>
          if String.prefix "_" member then (v, next)
          else
            let '(inner, next) :=
              if is_auto_sentinel v then auto_value kind member next
              else (v, match v with VInt i => Z.max next (Z.min (i + 1) i64_max) | _ => next end) in
            (VEnumMember class_name member inner kind, next)
      end
  end.

(** ** The namespace of a class body *)

Record ClassBody : Type := mkClassBody {
  cb_methods : gmap string FunctionDef;
  cb_attrs : gmap string Value;
  cb_properties : gmap string PropertyDef;
  cb_static : gmap string FunctionDef;
  cb_class : gmap string FunctionDef;
  cb_annotations : list string;
  cb_initvars : list string;
  cb_members : list string;
  cb_auto_next : Z;
  cb_abstract : list string
}.

Definition empty_body (attrs : gmap string Value) : ClassBody := mkClassBody ∅ attrs ∅ ∅ ∅ [] [] [] 1 [].

Definition with_methods ms b :=
  mkClassBody ms (cb_attrs b) (cb_properties b) (cb_static b) (cb_class b) (cb_annotations b) (cb_initvars b) (cb_members b)
    (cb_auto_next b) (cb_abstract b).
Definition with_attrs attrs next b :=
  mkClassBody (cb_methods b) attrs (cb_properties b) (cb_static b) (cb_class b) (cb_annotations b) (cb_initvars b)
    (cb_members b) next (cb_abstract b).
Definition with_properties ps b :=
  mkClassBody (cb_methods b) (cb_attrs b) ps (cb_static b) (cb_class b) (cb_annotations b) (cb_initvars b) (cb_members b)
    (cb_auto_next b) (cb_abstract b).
Definition with_static ms b :=
  mkClassBody (cb_methods b) (cb_attrs b) (cb_properties b) ms (cb_class b) (cb_annotations b) (cb_initvars b) (cb_members b)
    (cb_auto_next b) (cb_abstract b).
Definition with_class ms b :=
  mkClassBody (cb_methods b) (cb_attrs b) (cb_properties b) (cb_static b) ms (cb_annotations b) (cb_initvars b) (cb_members b)
    (cb_auto_next b) (cb_abstract b).
Definition with_names annotations initvars members abstract b :=
  mkClassBody (cb_methods b) (cb_attrs b) (cb_properties b) (cb_static b) (cb_class b) annotations initvars members
    (cb_auto_next b) abstract.

Definition bind_attr (enum : option EnumKind) (class_name attr : string) (v : Value) (b : ClassBody) : ClassBody :=
  let (v, next) := wrap_enum_member enum class_name attr v (cb_auto_next b) in
  with_attrs (<[attr := v]> (cb_attrs b)) next b.

Definition push_once (n : string) (ns : list string) : list string := if listed n ns then ns else ns ++ [n].

(** Assignment to names and to nested tuples of names; other targets bind nothing. *)
Definition class_unpack (h : Heap) (v : Value) : EvalResult (list Value) :=
  match v with
  | VTuple items => Ok items
  | VList l => Ok (list_at h l)
  | VString t => Ok (map (fun c => VString [c]) t)
  | _ => fail (TypeError ("cannot unpack non-iterable " ++ type_name v ++ " object"))
  end.

Definition class_arity (expected given : nat) : EvalResult () :=
  if (given =? expected)%nat then Ok ()
  else if (expected <? given)%nat
  then fail (ValueError ("too many values to unpack (expected " ++ pretty expected ++ ")"))
  else fail (ValueError ("not enough values to unpack (expected " ++ pretty expected ++ ", got " ++ pretty given ++ ")")).

Fixpoint bind_class_target (enum : option EnumKind) (class_name : string) (h : Heap) (target : PyExpr) (v : Value)
    (b : ClassBody) : EvalResult ClassBody :=
  match target with
  | EName n => Ok (bind_attr enum class_name n v b)
  | ETuple elts | EList elts =>
      items ← class_unpack h v;
      _ ← class_arity (length elts) (length items);
      (fix each elts items b :=
         match elts, items with
         | e :: elts, i :: items => b ← bind_class_target enum class_name h e i b; each elts items b
         | _, _ => Ok b
         end) elts items b
  | _ => Ok b
  end.

(** A name whose attribute became a member is a member, in the order of the targets. *)
Definition note_member (enum : option EnumKind) (target : PyExpr) (b : ClassBody) : ClassBody :=
  match enum, target with
  | Some _, EName n =>
      match cb_attrs b !! n with
      | Some (VEnumMember _ _ _ _) =>
          with_names (cb_annotations b) (cb_initvars b) (push_once n (cb_members b)) (cb_abstract b) b
      | _ => b
      end
  | _, _ => b
  end.

Fixpoint bind_class_targets (enum : option EnumKind) (class_name : string) (h : Heap) (targets : list PyExpr) (v : Value)
    (b : ClassBody) : EvalResult ClassBody :=
  match targets with
  | [] => Ok b
  | t :: targets =>
      b ← bind_class_target enum class_name h t v b;
      bind_class_targets enum class_name h targets v (note_member enum t b)
  end.

Fixpoint annotation_head_name (e : PyExpr) : option string :=
  match e with
  | EName n => Some n
  | EAttribute _ attr => Some attr
  | ESubscript value _ => annotation_head_name value
  | _ => None
  end.

(** An annotated name is a field, unless it is a [ClassVar]. *)
Definition note_annotation (attr : string) (annotation : PyExpr) (b : ClassBody) : ClassBody :=
  let marked n := bool_decide (annotation_head_name annotation = Some n) in
  with_names (if marked "ClassVar" then cb_annotations b else push_once attr (cb_annotations b))
    (if marked "InitVar" then push_once attr (cb_initvars b) else cb_initvars b) (cb_members b) (cb_abstract b) b.

(** ** Methods *)

Definition ABSTRACT_DECORATORS : list string :=
  ["abstractmethod"; "abstractproperty"; "abstractclassmethod"; "abstractstaticmethod"]%string.

Definition is_abstractmethod_decorator (d : PyExpr) : bool :=
  match d with EName n | EAttribute _ n => listed n ABSTRACT_DECORATORS | _ => false end.

Definition is_builtin_method_decorator (d : PyExpr) (properties : gmap string PropertyDef) : bool :=
  match d with
  | EName n => listed n ["property"; "cached_property"; "staticmethod"; "classmethod"]
  | EAttribute value attr =>
      String.eqb attr "cached_property" ||
      (listed attr ["setter"; "deleter"] &&
       match value with EName base => bool_decide (base ∈ dom properties) | _ => false end)
  | _ => false
  end.

(** The record of a method, whose body is stored under its key. *)
Definition build_plain_method_def (s : InterpreterState) (key : string) (p : FunctionParams) (body : list PyStmt)
    (src qualname : string) (is_async : bool) : FunctionDef * InterpreterState :=
  let (assigned, globals) := collect_assigned_names body in
  let assigned := List.filter (fun n => negb (bool_decide (n ∈ globals))) assigned in
  (mkFunctionDef key "" p [] src [] (contains_yield_stmts body) None None assigned globals false (extract_docstring body) []
     qualname [] is_async,
   set_program (classes s) (<[key := body : list Stmt]> (function_bodies s)) (lambda_bodies s) s).

(** The table a method goes to. *)
Inductive MethodKind : Type :=
| Regular | StaticMethod | ClassMethod
| Getter (is_cached : bool)
| Setter (prop : string) | Deleter (prop : string).

Definition method_kind (decorators : list PyExpr) (properties : gmap string PropertyDef) : option MethodKind :=
  match decorators with
  | [] => Some Regular
  | [EName "property"] => Some (Getter false)
  | [EName "cached_property"] | [EAttribute _ "cached_property"] => Some (Getter true)
  | [EName "staticmethod"] => Some StaticMethod
  | [EName "classmethod"] => Some ClassMethod
  | [EAttribute (EName prop) attr] =>
      if bool_decide (prop ∈ dom properties) then
        if String.eqb attr "setter" then Some (Setter prop)
        else if String.eqb attr "deleter" then Some (Deleter prop) else None
      else None
  | _ => None
  end.

Definition method_key (class_name method_name : string) (kind : MethodKind) : string :=
  class_name ++ "." ++
  match kind with
  | Regular => method_name
  | StaticMethod => method_name ++ "__static"
  | ClassMethod => method_name ++ "__class"
  | Getter _ => method_name ++ "__get"
  | Setter prop => prop ++ "__set"
  | Deleter prop => prop ++ "__del"
  end.

Definition file_method (method_name : string) (kind : MethodKind) (f : FunctionDef) (b : ClassBody) : ClassBody :=
  let accessor prop (update : PropertyDef -> PropertyDef) :=
    match cb_properties b !! prop with
    | Some p => with_properties (<[prop := update p]> (cb_properties b)) b
    | None => b
    end in
  match kind with
  | Regular => with_methods (<[method_name := f]> (cb_methods b)) b
  | StaticMethod => with_static (<[method_name := f]> (cb_static b)) b
  | ClassMethod => with_class (<[method_name := f]> (cb_class b)) b
  | Getter is_cached => with_properties (<[method_name := mkPropertyDef f None None is_cached]> (cb_properties b)) b
  | Setter prop => accessor prop (fun p => mkPropertyDef (getter p) (Some f) (deleter p) (cached p))
  | Deleter prop => accessor prop (fun p => mkPropertyDef (getter p) (setter p) (Some f) (cached p))
  end.

Definition unsupported_stack (method_name : string) : InterpreterError :=
  Security ("method-level decorator stack on '" ++ method_name ++ "' is not one of the supported " ++
            "shapes (@property, @<name>.setter, @<name>.deleter, @staticmethod, @classmethod). " ++
            "See CONFORMANCE.md#unsupported-language-features.").

Definition classify_decorated_method (s : InterpreterState) (decorators : list PyExpr) (class_name method_name : string)
    (p : FunctionParams) (body : list PyStmt) (src : string) (b : ClassBody) : Eval ClassBody :=
  match method_kind decorators (cb_properties b) with
  | None => error s (unsupported_stack method_name)
  | Some kind =>
      let (f, s) := build_plain_method_def s (method_key class_name method_name kind) p body src
                      (qualname_for s method_name) false in
      done s (Ok (file_method method_name kind f b))
  end.

(** The mark of an [async def], on the method of that name. *)
Definition set_async (f : FunctionDef) : FunctionDef :=
  mkFunctionDef (f_name f) (body_key f) (params f) (closure f) (source f) (nonlocal_names f) (is_generator f)
    (wraps_name f) (nonlocal_cell_id f) (assigned_names f) (global_names f) (is_module_level f) (docstring f)
    (cell_refreshes f) (f_qualname f) (f_annotations f) true.

Definition mark_async (name : string) (b : ClassBody) : ClassBody :=
  match cb_methods b !! name, cb_static b !! name, cb_class b !! name with
  | Some f, _, _ => with_methods (<[name := set_async f]> (cb_methods b)) b
  | None, Some f, _ => with_static (<[name := set_async f]> (cb_static b)) b
  | None, None, Some f => with_class (<[name := set_async f]> (cb_class b)) b
  | None, None, None => b
  end.

(** A decorator of another kind is called on the method, and what it returns is an
    attribute. The flag says that nothing is harvested. *)
Definition class_method_def (s : InterpreterState) (class_name : string) (start : Z) (node : FunctionNode) (is_async : bool)
    (b : ClassBody) : Eval (ClassBody * bool) :=
  let '(mkFunction name a body decorator_list returns) := node in
  let? (s, p) := done s (build_function_params a) in
  let? (s, p) := evaluate_param_defaults eval s p in
  let src := source_slice (current_source s) start (function_stop node) ("def " ++ name ++ "(): pass") in
  let b := if existsb is_abstractmethod_decorator decorator_list
           then with_names (cb_annotations b) (cb_initvars b) (cb_members b) (cb_abstract b ++ [name]) b else b in
  let decorators := List.filter (fun d => negb (is_abstractmethod_decorator d)) decorator_list in
  let filed :=
    let? (s, b) := classify_decorated_method s decorators class_name name p body src b in
    done s (Ok (if is_async then mark_async name b else b, true)) in
  match decorators with
  | [d] =>
      if is_builtin_method_decorator d (cb_properties b) then filed
      else
        let (f, s) := build_plain_method_def s (method_key class_name name Regular) p body src (qualname_for s name) is_async in
        let (func, s) := alloc_function f s in
        let? (s, dec) := eval s d in
        let? (s, decorated) := call_value_as_function s dec [func] [] in
        done s (Ok (with_attrs (<[name := decorated]> (cb_attrs b)) (cb_auto_next b) b, false))
  | _ => filed
  end.

(** ** The body *)

(** Whether a variable has a value a namespace does not have under the name; [None] for a
    comparison that does not return. *)
Definition differs (s : InterpreterState) (space : gmap string Value) (name : string) (v : Value) : option bool :=
  match space !! name with
  | Some v' => negb <$> value_eqb structural_eq nesting (heap s) v' v
  | None => Some true
  end.

(** The variables a statement bound or changed. *)
Fixpoint changed_names (s : InterpreterState) (attrs saved : gmap string Value) (vars : list (string * Value)) :
    option (list (string * Value)) :=
  match vars with
  | [] => Some []
  | (n, v) :: vars =>
      new ← differs s attrs n v;
      bound ← (if new : bool then differs s saved n v else Some false);
      rest ← changed_names s attrs saved vars;
      Some (if bound : bool then (n, v) :: rest else rest)
  end.

Definition harvest (enum : option EnumKind) (class_name : string) (saved : gmap string Value) (s : InterpreterState)
    (b : ClassBody) : Eval ClassBody :=
  match changed_names s (cb_attrs b) saved (map_to_list (variables s)) with
  | None => (s, Panic)
  | Some changed => done s (Ok (fold_left (fun b nv => bind_attr enum class_name nv.1 nv.2 b) changed b))
  end.

Definition class_stmt (enum : option EnumKind) (class_name : string) (s : InterpreterState) (stmt : PyStmt) (b : ClassBody) :
    Eval (ClassBody * bool) :=
  let '(At start node) := stmt in
  match node with
  | SFunctionDef f => class_method_def s class_name start f false b
  | SAsyncFunctionDef f => class_method_def s class_name start f true b
  | SAssign targets value =>
      let? (s, v) := eval s value in
      let? (s, b) := done s (bind_class_targets enum class_name (heap s) targets v b) in
      done s (Ok (b, true))
  | SAnnAssign (EName attr) annotation value =>
      let b := note_annotation attr annotation b in
      match value with
      | Some e => let? (s, v) := eval s e in done s (Ok (bind_attr enum class_name attr v b, true))
      | None => done s (Ok (b, true))
      end
  | SIf _ _ _ | SFor _ _ _ _ | SWhile _ _ _ | SClassDef _ _ _ _ _ =>
      let? (s, _) := exec s stmt in done s (Ok (b, true))
  | _ => done s (Ok (b, true))
  end.

(** Each statement sees the attributes so far as variables. *)
Fixpoint class_body (enum : option EnumKind) (class_name : string) (saved : gmap string Value) (s : InterpreterState)
    (body : list PyStmt) (b : ClassBody) : Eval ClassBody :=
  match body with
  | [] => done s (Ok b)
  | stmt :: body =>
      let s := set_variables (cb_attrs b ∪ variables s) s in
      let? (s, out) := class_stmt enum class_name s stmt b in
      let? (s, b) := (if out.2 : bool then harvest enum class_name saved s out.1 else done s (Ok out.1)) in
      class_body enum class_name saved s body b
  end.

(** The body runs in a scope of its own. *)
Definition run_class_body (enum : option EnumKind) (class_name qualname : string) (s : InterpreterState) (body : list PyStmt)
    (attrs : gmap string Value) : Eval ClassBody :=
  let saved := variables s in
  match class_body enum class_name saved (set_qualnames (qualname_stack s ++ [qualname]) s) body (empty_body attrs) with
  | (s, Panic) => (s, Panic)
  | (s, r) => (set_qualnames (removelast (qualname_stack s)) (set_variables saved s), r)
  end.

(** ** Slots and abstract methods *)

Definition slot_strings (vs : list Value) : list string :=
  omap (fun v => match v with VString t => Some (text_name t) | _ => None end) vs.

Definition parse_slots_attr (h : Heap) (attr : option Value) : bool * list string :=
  let names ns := (negb (listed "__dict__" ns), ns) in
  match attr with
  | Some (VString t) => names [text_name t]
  | Some (VTuple items) => names (slot_strings items)
  | Some (VList l) => names (slot_strings (list_at h l))
  | _ => (false, [])
  end.

Definition inherit_slots (registry : Registry) (bases : list string) (slots : bool * list string) : bool * list string :=
  fold_left (fun acc b => match registry !! b with
                          | Some c => if has_slots c then (true, fold_left (fun ns n => push_once n ns) (slot_names c) acc.2) else acc
                          | None => acc
                          end) bases slots.

(** A set of names, in order. *)
Definition name_set (ns : list string) : list string := (foldr (fun n acc => bt_insert acc n tt) [] ns).*1.

Definition defines (b : ClassBody) (n : string) : bool :=
  bool_decide (n ∈ dom (cb_methods b)) || bool_decide (n ∈ dom (cb_properties b)) || bool_decide (n ∈ dom (cb_static b)) ||
  bool_decide (n ∈ dom (cb_class b)) || bool_decide (n ∈ dom (cb_attrs b)).

Definition unresolved_methods (registry : Registry) (bases : list string) (b : ClassBody) : list string :=
  let inherited := concat (omap (fun c => abstract_methods <$> registry !! c) bases) in
  List.filter (fun n => listed n (cb_abstract b) || negb (defines b n)) (name_set (cb_abstract b ++ inherited)).

(** ** Hooks *)

Definition name_argument (n : string) : Value := VString (name_text n).
Definition class_tuple (names : list string) : Value := VTuple (map VClass names).

Definition class_attr_entries (c : ClassValue) : list (ValueKey * Value) :=
  map (fun kv => (KString (name_text kv.1), kv.2)) (in_key_order (class_attrs c)).

Definition metaclass_hook (registry : Registry) (meta hook : string) : option FunctionDef :=
  snd <$> lookup_method_or_classmethod registry meta hook.

Definition invoke_metaclass_prepare (s : InterpreterState) (meta class_name : string) (bases : list string) :
    Eval (list (ValueKey * Value)) :=
  match metaclass_hook (classes s) meta "__prepare__" with
  | None => done s (Ok [])
  | Some f =>
      let? (s, v) := call_user_function eval exec s f [name_argument class_name; class_tuple bases] [] in
      done s match v with
             | VDict l => Ok (dict_at (heap s) l)
             | VNone => Ok []
             | other => fail (TypeError ("__prepare__() must return a mapping, not '" ++ type_name other ++ "'"))
             end
  end.

(** The name, the bases and the namespace a metaclass is given. *)
Definition metaclass_arguments (s : InterpreterState) (class_name : string) : Eval (list Value) :=
  match classes s !! class_name with
  | None => error s (name_not_defined class_name)
  | Some c =>
      let (l, h) := shared_dict (heap s) (class_attr_entries c) in
      done (set_heap h s) (Ok [name_argument class_name; class_tuple (bases c); VDict l])
  end.

Definition invoke_metaclass_new (s : InterpreterState) (class_name meta : string) : Eval () :=
  match metaclass_hook (classes s) meta "__new__" with
  | None => done s (Ok ())
  | Some f =>
      let? (s, argv) := metaclass_arguments s class_name in
      let? (s, out) := call_with s f (VClass meta) argv [] in
      match out.1 with
      | VNone => done s (Ok ())
      | v => set_named s class_name v
      end
  end.

Definition invoke_metaclass_init (s : InterpreterState) (class_name meta : string) : Eval () :=
  match metaclass_hook (classes s) meta "__init__" with
  | None => done s (Ok ())
  | Some f =>
      let? (s, argv) := metaclass_arguments s class_name in
      let? (s, _) := call_with s f (VClass class_name) argv [] in
      done s (Ok ())
  end.

(** [__new__] may have registered the class anew without its methods. *)
Definition keep_methods (before : option ClassValue) (class_name : string) (s : InterpreterState) : InterpreterState :=
  match before, classes s !! class_name with
  | Some old, Some c =>
      if bool_decide (methods c = ∅) && negb (bool_decide (methods old = ∅)) then
        register_class class_name
          (mkClass (c_name c) (methods old) (class_attrs c) (bases c) (mro c) (properties old) (static_methods old)
             (class_methods old) (enum_kind c) (enum_members c) (annotations c) (dataclass_fields c) (frozen c) (order c)
             (total_ordering c) (has_slots c) (slot_names c) (abstract_methods c) (metaclass c) (c_qualname c) (is_generic c)
             (initvar_fields c)) s
      else s
  | _, _ => s
  end.

Definition run_metaclass (s : InterpreterState) (class_name : string) (meta : option string) : Eval () :=
  match meta with
  | None => done s (Ok ())
  | Some meta =>
      let before := classes s !! class_name in
      let? (s, _) := invoke_metaclass_new s class_name meta in
      invoke_metaclass_init (keep_methods before class_name s) class_name meta
  end.

Fixpoint invoke_set_name (s : InterpreterState) (class_name : string) (attrs : list (string * Value)) : Eval () :=
  match attrs with
  | [] => done s (Ok ())
  | (name, v) :: attrs =>
      let? (s, _) :=
        match instance_slot s v "__set_name__" with
        | Some f => let? (s, _) := call_with s f v [VClass class_name; name_argument name] [] in done s (Ok ())
        | None => done s (Ok ())
        end in
      invoke_set_name s class_name attrs
  end.

Definition init_subclass_of (registry : Registry) (base : string) : option FunctionDef :=
  match lookup_class_method registry base "__init_subclass__" with
  | Some f => Some f
  | None => method_of registry base "__init_subclass__"
  end.

(** The first base that has the hook is the only one called. *)
Definition invoke_init_subclass (s : InterpreterState) (class_name : string) (bases : list string) (kwargs : Kwargs) : Eval () :=
  match head (omap (init_subclass_of (classes s)) bases) with
  | Some f => let? (s, _) := call_with s f (VClass class_name) [] kwargs in done s (Ok ())
  | None => done s (Ok ())
  end.

(** ** Named tuples *)

(** What the builder registered, with the methods of the class body and its defaults. *)
Definition namedtuple_init (f : FunctionDef) (values : list Value) : FunctionDef :=
  let p := params f in
  mkFunctionDef (f_name f) (body_key f)
    (mkParams (args p) (replicate (length values) "None") values (vararg p) (kwonlyargs p) (kw_defaults p) (kw_default_values p)
       (kwarg p) (posonly_count p))
    (closure f) (source f) (nonlocal_names f) (is_generator f) (wraps_name f) (nonlocal_cell_id f) (assigned_names f)
    (global_names f) (is_module_level f) (docstring f) (cell_refreshes f) (f_qualname f) (f_annotations f) (is_async f).

Definition with_class_methods (ms : gmap string FunctionDef) (c : ClassValue) : ClassValue :=
  mkClass (c_name c) ms (class_attrs c) (bases c) (mro c) (properties c) (static_methods c) (class_methods c) (enum_kind c)
    (enum_members c) (annotations c) (dataclass_fields c) (frozen c) (order c) (total_ordering c) (has_slots c) (slot_names c)
    (abstract_methods c) (metaclass c) (c_qualname c) (is_generic c) (initvar_fields c).

Definition finalize_typing_namedtuple (s : InterpreterState) (class_name : string) : Eval () :=
  match classes s !! class_name with
  | None => error s (name_not_defined class_name)
  | Some class =>
      let fields := annotations class in
      let values := omap (fun f => class_attrs class !! f) fields in
      let? (s, _) := call_namedtuple s (name_argument class_name) (map name_argument fields) in
      done match classes s !! class_name with
           | None => s
           | Some c =>
               let ms := methods c ∪ methods class in
               let ms := match ms !! "__init__" with
                         | Some init => <["__init__" := namedtuple_init init values]> ms
                         | None => ms
                         end in
               register_class class_name (with_class_methods ms c) s
           end (Ok ())
  end.

(** ** Decorators of functions and classes *)

Definition dataclass_target (s : InterpreterState) (target : Value) (kwargs : Kwargs) : Eval Value :=
  match target with
  | VClass n => let? (s, _) := apply_dataclass s n kwargs in done s (Ok (VClass n))
  | other => error s (TypeError ("@dataclass requires a class target (got '" ++ type_name other ++ "')"))
  end.

Definition is_dataclass_decorator (module name : string) : bool :=
  String.eqb module "dataclasses" && String.eqb name "dataclass".

Definition decorate (s : InterpreterState) (decorator target : Value) : Eval Value :=
  match decorator with
  | VFunction l =>
      match functions s !! l with Some f => call_user_function eval exec s f [target] [] | None => (s, Panic) end
  | VLambda l => match lambdas s !! l with Some d => call_lambda eval s d [target] [] | None => (s, Panic) end
  | VModuleFunction module name =>
      if is_dataclass_decorator module name then dataclass_target s target []
      else if String.eqb module "functools" && listed name ["lru_cache"; "cache"] then
        let (s, v) := make_lru_cache s target (if String.eqb name "cache" then None else Some 128) in done s (Ok v)
      else call_module_function s module name [target]
  | VPartial func argv keywords =>
      match func with
      | VModuleFunction module name =>
          if is_dataclass_decorator module name then dataclass_target s target keywords
          else call_value_as_function s func (argv ++ [target]) []
      | _ => call_value_as_function s func (argv ++ [target]) []
      end
  | other => error s (TypeError ("decorator is not callable (got '" ++ type_name other ++ "')"))
  end.

Fixpoint decorate_all (s : InterpreterState) (decorators : list PyExpr) (v : Value) : Eval Value :=
  match decorators with
  | [] => done s (Ok v)
  | d :: decorators =>
      let? (s, dec) := eval s d in
      let? (s, v) := decorate s dec v in
      decorate_all s decorators v
  end.

(** ** The statement *)

Definition prepared_attrs (entries : list (ValueKey * Value)) : gmap string Value :=
  fold_left (fun m e => match e.1 with KString k => <[text_name k := e.2]> m | _ => m end) entries ∅.

Definition build_class (registry : Registry) (h : Heap) (class_name qualname : string) (i : BaseInfo) (order : list string)
    (meta : option string) (b : ClassBody) : ClassValue :=
  let slots := inherit_slots registry (base_names i) (parse_slots_attr h (cb_attrs b !! "__slots__")) in
  mkClass class_name (cb_methods b) (cb_attrs b) (base_names i) order (cb_properties b) (cb_static b) (cb_class b) (base_enum i)
    (cb_members b) (cb_annotations b) None false false false slots.1 slots.2
    (unresolved_methods registry (base_names i) b) meta qualname (base_generic i) (cb_initvars b).

Definition eval_class_def (s : InterpreterState) (class_name : string) (bases : list PyExpr)
    (keywords : list (option string * PyExpr)) (body : list PyStmt) (decorator_list : list PyExpr) : Eval Value :=
  let? (s, _) := done s (validate_name Assignment class_name) in
  let? (s, kw) := class_keywords s keywords (None, []) in
  let? (s, i) := class_bases s bases (mkBaseInfo [] None false false) in
  let meta := match kw.1 with Some m => Some m | None => inherited_metaclass (classes s) (base_names i) end in
  let? (s, prepared) :=
    match meta with Some m => invoke_metaclass_prepare s m class_name (base_names i) | None => done s (Ok []) end in
  let qualname := qualname_for s class_name in
  let? (s, b) := run_class_body (base_enum i) class_name qualname s body (prepared_attrs prepared) in
  let? (s, order) := done s (build_mro class_name (base_names i) (classes s)) in
  let s := register_class class_name (build_class (classes s) (heap s) class_name qualname i order meta b) s in
  let? (s, _) := set_named s class_name (VClass class_name) in
  let? (s, _) := (if base_namedtuple i then finalize_typing_namedtuple s class_name else done s (Ok ())) in
  let? (s, _) := run_metaclass s class_name meta in
  let? (s, _) := invoke_set_name s class_name (in_key_order (cb_attrs b)) in
  let? (s, _) := invoke_init_subclass s class_name (base_names i) kw.2 in
  let? (s, _) :=
    match decorator_list with
    | [] => done s (Ok ())
    | _ => let? (s, v) := decorate_all s (rev decorator_list) (VClass class_name) in set_named s class_name v
    end in
  done s (Ok VNone).

(** ** [type(name, bases, dict)] *)

Fixpoint dynamic_bases (bases : list Value) : EvalResult (list string) :=
  match bases with
  | [] => Ok []
  | VClass n :: bases | VExceptionType n :: bases => rest ← dynamic_bases bases; Ok (n :: rest)
  | (VType n as b) :: bases | (VBuiltinName n as b) :: bases =>
      if listed n ["object"; "type"] then dynamic_bases bases
      else fail (TypeError ("type() bases must be types, not '" ++ type_name b ++ "'"))
  | b :: _ => fail (TypeError ("type() bases must be types, not '" ++ type_name b ++ "'"))
  end.

Definition with_layout (attrs : gmap string Value) (bases order : list string) (slots : bool * list string) (c : ClassValue) :
    ClassValue :=
  mkClass (c_name c) (methods c) attrs bases order (properties c) (static_methods c) (class_methods c) (enum_kind c)
    (enum_members c) (annotations c) (dataclass_fields c) (frozen c) (Classes.order c) (total_ordering c) slots.1 slots.2
    (abstract_methods c) (metaclass c) (c_qualname c) (is_generic c) (initvar_fields c).

Definition dynamic_type_new (s : InterpreterState) (name_v bases_v dict_v : Value) : Eval Value :=
  match name_v with
  | VString t =>
      let class_name := text_name t in
      let? (s, items) :=
        done s match bases_v with
               | VTuple items => Ok items
               | VList l => Ok (list_at (heap s) l)
               | _ => fail (TypeError "type() argument 2 must be a tuple")
               end in
      let? (s, bases) := done s (dynamic_bases items) in
      match dict_v with
      | VDict l =>
          let attrs := prepared_attrs (dict_at (heap s) l) in
          let? (s, order) := done s (build_mro class_name bases (classes s)) in
          let c := with_layout attrs bases order (parse_slots_attr (heap s) (attrs !! "__slots__")) (ClassValue_new class_name) in
          done (register_class class_name c s) (Ok (VClass class_name))
      | _ => error s (TypeError "type() argument 3 must be a dict")
      end
  | _ => error s (TypeError "type() argument 1 must be str")
  end.
End ClassDef.

(** What the components behind attribute access and construction have to keep. *)
Class LibraryLaws `{External} `{!Calls} `{!Host} `{!Library} `{!Builders} : Prop := {
  call_value_framed s f argv kw : framed s (call_value_as_function s f argv kw);
  call_module_framed s m n argv : framed s (call_module_function s m n argv);
  exitstack_frame s v n argv : frame s (try_exitstack_method s v n argv).1;
  call_namedtuple_framed s v vs : framed s (call_namedtuple s v vs);
  make_lru_cache_frame s v n : frame s (make_lru_cache s v n).1
}.
#[export] Hint Resolve call_value_framed call_module_framed call_namedtuple_framed : frame.

Section Frames.
Context `{External} `{!ExternalOrder} `{!Platform} `{!Formats} `{!Calls} `{!Estimates} `{!Environment} `{!Host}
        `{!ModuleAttributes} `{!Library} `{!Unicode} `{!Builders}.
Context `{!FrameLaws} `{!LibraryLaws}.
Variable eval : InterpreterState -> PyExpr -> Eval Value.
Variable exec : InterpreterState -> PyStmt -> Eval Value.
Hypothesis eval_framed : forall s e, framed s (eval s e).
Hypothesis exec_framed : forall s st, framed s (exec s st).
#[local] Hint Resolve eval_framed exec_framed : frame.

(** ** Calls of methods *)

Lemma pop_method_frame f v s s2 : frame (push_method f v s) s2 -> frame s (pop_method v s2).
Proof.
  unfold push_method, pop_method. destruct (is_receiver v); [|done]. intros []. split; try done.
  cbn in *. by rewrite frame_methods, removelast_last.
Qed.

Lemma collect_yields_framed s b : framed s (collect_yields exec s b).
Proof.
  intros O. unfold collect_yields. set (s1 := set_yields (yield_stack s ++ [[]]) s).
  pose proof (execute_body_framed exec exec_framed s1 b O) as F. destruct (execute_body exec s1 b) as [s2 r].
  destruct F as [P|F]; cbn [fst snd] in *; [subst; by left|].
  assert (frame s (set_yields (removelast (yield_stack s2)) s2)) as F2.
  { destruct F. split; try done. cbn in *. by rewrite (same_outer_push _ _ _ frame_yields). }
  destruct r as [v|[ie|[]|e]|]; cbn; first [by left|right]; try exact F2;
    (etrans; [exact F2|]); split; reflexivity.
Qed.

Lemma run_method_body_framed s f : framed s (run_method_body exec s f).
Proof.
  unfold run_method_body. destruct (_ !! _) as [b|]; [|frames]. destruct (is_generator f); [apply collect_yields_framed|].
  by apply execute_body_framed.
Qed.

Lemma call_method_inner_framed s f v argv kw : framed s (call_method_inner eval exec s f v argv kw).
Proof.
  intros O. unfold call_method_inner, lift_call.
  destruct (enter_call_framed s O) as [[e ->]|(s1 & -> & O1 & L & _)]; [by right|]. cbn [and_then].
  set (s2 := push_method f v (push_owners s1)).
  assert (counters_ok s2) as O2 by (unfold s2, push_method; destruct (is_receiver v); exact O1).
  assert (forall s3, frame s2 s3 -> frame s (leave_method v s3)) as L2.
  { intros s3 F. apply L, pop_owners_framed. exact (pop_method_frame _ _ _ _ F). }
  destruct (bind_params_framed eval eval_framed (params f) (display_qualname f) (v :: argv) kw s2 O2) as [P|F];
    destruct (bind_params_named _ _ _ _ _ _) as [s3 [sc|e|]]; cbn [fst snd] in *; try (by left); [|right; by apply L2].
  destruct (set_each_framed (map_to_list sc) s3 (frame_counters _ _ F O2)) as [P|F4];
    destruct (set_each s3 (map_to_list sc)) as [s4 [u|e|]]; cbn [fst snd] in *; try (by left);
    [|right; apply L2; etrans; [exact F|]; etrans; [exact F4|apply restore_framed]].
  pose proof (transitivity F F4) as F'.
  destruct (run_method_body_framed s4 f (frame_counters _ _ F' O2)) as [P|F5];
    destruct (run_method_body exec s4 f) as [s5 r]; cbn [fst snd] in *; [subst; by left|].
  assert (frame s (leave_method v (restore (capture s3 (method_touched f)) s5))) as G.
  { apply L2. etrans; [exact F'|]. etrans; [exact F5|apply restore_framed]. }
  destruct r as [w|[ie|[]|e]|]; first [by left|by right].
Qed.
#[local] Hint Resolve call_method_inner_framed : frame.

Lemma call_returned_framed s f v argv kw : framed s (call_returned eval exec s f v argv kw).
Proof. unfold call_returned. frames. Qed.
#[local] Hint Resolve call_returned_framed : frame.

Lemma function_value_framed s f : framed s (function_value s f).
Proof. unfold function_value. destruct (alloc_function f s) eqn:E. apply framed_step. unfold alloc_function in E. injection E as <- <-. split; reflexivity. Qed.
#[local] Hint Resolve function_value_framed : frame.

(** ** Attributes *)

Lemma put_field_frame l n v s : frame s (put_field l n v s).
Proof. split; reflexivity. Qed.

Lemma register_class_frame n c s : frame s (register_class n c s).
Proof. split; reflexivity. Qed.

Lemma invoke_property_getter_framed s f c l k : framed s (invoke_property_getter eval exec s f c l k).
Proof.
  unfold invoke_property_getter. destruct (_ ≫= _); [frames|]. apply framed_bind; [frames|]. intros s1 v.
  destruct k; [apply framed_step, put_field_frame|frames].
Qed.
#[local] Hint Resolve invoke_property_getter_framed : frame.

Lemma instance_attribute_framed s c l n : framed s (instance_attribute s c l n).
Proof. unfold instance_attribute, no_object_attr, error. frames. Qed.

Lemma metaclass_attribute_framed s c n m : metaclass_attribute s c n = Some m -> framed s m.
Proof.
  unfold metaclass_attribute. destruct (_ ≫= metaclass) as [meta|]; [|done]. cbn.
  destruct (lookup_class_attr _ _ _); [intros [= <-]; frames|].
  destruct (method_of _ _ _); [intros [= <-]|done]. frames.
Qed.

Lemma class_attribute_framed s c n : framed s (class_attribute s c n).
Proof.
  unfold class_attribute, error. do 7 (case_match; [frames|]).
  destruct (metaclass_attribute s c n) eqn:E; [by eapply metaclass_attribute_framed|frames].
Qed.

Lemma names_dict_framed s es : framed s (names_dict s es).
Proof. unfold names_dict. destruct (shared_dict _ _). apply framed_step. split; reflexivity. Qed.
#[local] Hint Resolve instance_attribute_framed class_attribute_framed names_dict_framed : frame.

Lemma function_attribute_framed s v f n : framed s (function_attribute s v f n).
Proof. unfold function_attribute. frames. Qed.

Lemma property_attribute_framed s c p n : framed s (property_attribute s c p n).
Proof. unfold property_attribute. frames. Qed.
#[local] Hint Resolve function_attribute_framed property_attribute_framed : frame.

Lemma legacy_attribute_framed n : forall s v a, framed s (legacy_attribute n s v a).
Proof. induction n as [|n IH]; intros s v a; destruct v; cbn [legacy_attribute]; cbv zeta; frames. Qed.
#[local] Hint Resolve legacy_attribute_framed : frame.

Lemma overriding_attribute_framed s v n m : overriding_attribute eval exec s v n = Some m -> framed s m.
Proof.
  unfold overriding_attribute, descriptor_get. destruct v; try done. destruct (lookup_property _ _ _); [intros [= <-]; frames|].
  destruct (lookup_class_attr_instance _ _ _) as [[dc d]|]; [|done]. cbn.
  destruct (method_of (classes s) dc "__get__"); [|done]. cbn. case_match; intros [= <-]; frames.
Qed.

Lemma missing_attribute_framed s v n e : framed s (missing_attribute eval exec s v n e).
Proof. unfold missing_attribute. frames. Qed.
#[local] Hint Resolve missing_attribute_framed : frame.

Lemma plain_attribute_framed s v n p : framed s (plain_attribute eval exec s v n p).
Proof.
  unfold plain_attribute. destruct (dispatch_getattr_opt _ _ _) as [[[w h]|]|e|]; [|..|frames|frames].
  { apply framed_step. split; reflexivity. }
  destruct (binds_method s v n); [frames|].
  apply (framed_match _ (legacy_attribute nesting s v n)); [frames|done|]. intros s1 []; frames.
Qed.
#[local] Hint Resolve plain_attribute_framed : frame.

Lemma getattr_normal_lookup_framed s v n p : framed s (getattr_normal_lookup eval exec s v n p).
Proof.
  unfold getattr_normal_lookup. apply framed_bind; [frames|]. intros s1 _.
  destruct (overriding_attribute eval exec s1 v n) eqn:E; [by eapply overriding_attribute_framed|].
  destruct v; try frames. unfold type_method, error. frames.
Qed.
#[local] Hint Resolve getattr_normal_lookup_framed : frame.

Lemma getattr_on_value_framed s v n p : framed s (getattr_on_value eval exec s v n p).
Proof. unfold getattr_on_value. destruct (resolve_object_attr v n); [frames|]. case_match; frames. Qed.
#[local] Hint Resolve getattr_on_value_framed : frame.

(** ** [super()] and calls of an instance's methods *)

Lemma super_order_framed s d c : framed s (super_order s d c).
Proof. unfold super_order, not_in_mro, error. frames. Qed.
#[local] Hint Resolve super_order_framed : frame.

Lemma super_attribute_framed s d c l n : framed s (super_attribute eval exec s d c l n).
Proof. unfold super_attribute, no_super_attr, error. frames. Qed.

Lemma rebind_self_framed s v : framed s (rebind_self s v).
Proof. unfold rebind_self. destruct (caller_self_name s); [apply set_named_framed|frames]. Qed.
#[local] Hint Resolve super_attribute_framed rebind_self_framed : frame.

Lemma text_argument_framed s argv m : framed s (text_argument s argv m).
Proof. unfold text_argument, error. frames. Qed.
#[local] Hint Resolve text_argument_framed : frame.

Lemma object_method_framed s c l n argv : framed s (object_method eval exec s c l n argv).
Proof.
  unfold object_method. repeat case_match; [| | | |unfold no_super_attr, error; frames].
  - unfold object_setattr, error. apply framed_bind; [frames|]. intros s1 a. destruct (argv !! 1%nat); [|frames].
    apply framed_bind; [frames|]. intros s2 _. apply (framed_weaken _ (put_field l a v s2)); [apply put_field_frame|]. frames.
  - unfold object_delattr, no_object_attr, error. apply framed_bind; [frames|]. intros s1 a.
    apply framed_bind; [frames|]. intros s2 _. destruct (assoc_remove _ _) as [fs|]; [|frames].
    cbv zeta. apply (framed_weaken _ (set_heap (put_fields l fs (heap s2)) s2)); [split; reflexivity|]. frames.
  - unfold object_init. cbv zeta. apply (framed_weaken _ (if match classes s !! c with Some c => class_mro_is_exception c | None => false end then put_field l "args" (VTuple argv) s else s)); [case_match; [apply put_field_frame|done]|]. frames.
  - unfold object_getattribute. frames.
Qed.
#[local] Hint Resolve object_method_framed : frame.

Lemma super_method_call_framed s d c l n argv kw : framed s (super_method_call eval exec s d c l n argv kw).
Proof.
  unfold super_method_call. apply framed_bind; [frames|]. intros s1 order. destruct (first_in_mro _ _ _) as [[dc f]|]; [|frames].
  apply framed_bind; [frames|]. intros s2 out. destruct (caller_self_name s1); [apply framed_step, set_variable_frame|frames].
Qed.

Lemma keep_instance_framed s v m : framed s m -> framed s (keep_instance s v m).
Proof. intros M. unfold keep_instance. frames. Qed.

Lemma walked_framed {A} s (w : Walk A) : framed s (walked s w).
Proof. unfold walked. frames. Qed.
#[local] Hint Resolve walked_framed : frame.

Lemma dispatch_tuple_method_framed s vs n argv kw : framed s (dispatch_tuple_method s vs n argv kw).
Proof.
  unfold dispatch_tuple_method. apply framed_bind; [frames|]. intros s1 _. unfold find_between, found.
  repeat case_match; frames.
Qed.
#[local] Hint Resolve dispatch_tuple_method_framed : frame.

Lemma instance_attr_call_fallback_framed s c l n argv kw :
  framed s (instance_attr_call_fallback eval exec s c l n argv kw).
Proof.
  pose proof keep_instance_framed as K. unfold instance_attr_call_fallback, no_object_attr, error.
  destruct (field_get _ _); [apply K; frames|].
  assert (forall m, framed s m -> framed s (match method_of (classes s) c "__getattr__" with
    | Some g => and_then (call_returned eval exec s g (VInstance c l) [name_value n] [])
                  (fun s f => keep_instance s (VInstance c l) (call_value_as_function s f argv kw))
    | None => m end)) as G.
  { intros m M. destruct (method_of _ _ _); [|done]. apply framed_bind; [frames|]. intros. apply K. frames. }
  assert (forall m, framed s m -> framed s (match (if listed n ["count"; "index"] then namedtuple_values s c l else None) with
    | Some items => keep_instance s (VInstance c l) (dispatch_tuple_method s items n argv kw) | None => m end)) as T.
  { intros m M. destruct (if listed n _ then _ else _); [apply K; frames|done]. }
  destruct (lookup_class_attr _ _ _) as [[]|]; first [apply K; frames|apply G, T; frames].
Qed.

Lemma instance_method_framed s c l n argv kw : framed s (instance_method eval exec s c l n argv kw).
Proof.
  unfold instance_method. destruct (lookup_static_method _ _ _).
  { by apply keep_instance_framed, call_user_function_framed. }
  destruct (lookup_class_method _ _ _); [apply keep_instance_framed; frames|].
  destruct (method_of _ _ _); [frames|]. apply instance_attr_call_fallback_framed.
Qed.

Lemma instance_method_call_framed s v n argv kw : framed s (instance_method_call eval exec s v n argv kw).
Proof.
  unfold instance_method_call. destruct v; try solve [unfold error; frames]. destruct (String.eqb _ _).
  - pose proof (exitstack_frame s (VInstance class_name fields) n argv) as F.
    destruct (try_exitstack_method _ _ _ _) as [s1 [r|]]; (eapply framed_weaken; [exact F|]);
      [apply keep_instance_framed; frames|apply instance_method_framed].
  - apply instance_method_framed.
Qed.

(** ** Construction *)

Lemma allocate_instance_frame s fs : frame s (allocate_instance s fs).2.
Proof. unfold allocate_instance. destruct (shared_fields _ _) eqn:E. split; reflexivity. Qed.

Lemma with_instance_framed {A} s fs (k : loc -> InterpreterState -> Eval A) :
  (forall l s, framed s (k l s)) -> framed s (let (l, s) := allocate_instance s fs in k l s).
Proof.
  intros K. pose proof (allocate_instance_frame s fs) as F. destruct (allocate_instance s fs) as [l s1].
  eapply framed_weaken; [exact F|apply K].
Qed.

Lemma empty_for_builtin_factory_framed s n : framed s (empty_for_builtin_factory s n).
Proof.
  unfold empty_for_builtin_factory, error. cbv zeta. repeat case_match; try frames; apply framed_step; split; reflexivity.
Qed.
#[local] Hint Resolve empty_for_builtin_factory_framed : frame.

Section Construct.
Variable construct : InterpreterState -> string -> list Value -> list (string * Value) -> Eval Value.
Hypothesis construct_framed : forall s n argv kw, framed s (construct s n argv kw).
#[local] Hint Resolve construct_framed : frame.

Lemma invoke_default_factory_framed s v : framed s (invoke_default_factory eval exec construct s v).
Proof.
  unfold invoke_default_factory, error. destruct v; try frames;
    first [by apply call_user_function_framed|by apply call_lambda_framed].
Qed.
#[local] Hint Resolve invoke_default_factory_framed : frame.

Lemma field_default_framed s f m : field_default eval exec construct s f = Some m -> framed s m.
Proof. unfold field_default. repeat case_match; intros [= <-]; frames. Qed.

Lemma field_value_framed s c f p k : framed s (field_value eval exec construct s c f p k).
Proof.
  unfold field_value, error. destruct p, k; try solve [frames].
  destruct (field_default _ _ _ _ _) eqn:E; [by eapply field_default_framed|frames].
Qed.
#[local] Hint Resolve field_value_framed : frame.

Lemma bind_init_fields_framed c fs : forall s i argv kw out,
  framed s (bind_init_fields eval exec construct s c i fs argv kw out).
Proof. induction fs as [|f fs IH]; intros s i argv kw out; cbn [bind_init_fields]; frames. Qed.

Lemma bind_other_fields_framed fs : forall s out, framed s (bind_other_fields eval exec construct s fs out).
Proof.
  induction fs as [|f fs IH]; intros s out; cbn [bind_other_fields]; [frames|].
  destruct (field_default _ _ _ _ _) eqn:E; [|apply IH]. apply framed_bind; [by eapply field_default_framed|]. intros. apply IH.
Qed.

Lemma dataclass_instantiate_framed s c fs argv kw : framed s (dataclass_instantiate eval exec construct s c fs argv kw).
Proof.
  unfold dataclass_instantiate, error. destruct (_ <? _)%nat; [frames|]. destruct (unexpected_keyword _ _); [frames|].
  apply framed_bind; [apply bind_init_fields_framed|]. intros s1 out.
  apply framed_bind; [apply bind_other_fields_framed|]. intros s2 vs. apply with_instance_framed. intros l s3.
  destruct (method_of _ _ _); frames.
Qed.

Lemma member_of_framed ms : forall s v, framed s (member_of s ms v).
Proof. induction ms as [|[n m] ms IH]; intros s v; cbn [member_of]; [frames|]. destruct m; try apply IH. frames. Qed.
#[local] Hint Resolve member_of_framed : frame.

Lemma instantiate_default_framed s c argv kw : framed s (instantiate_default eval exec construct s c argv kw).
Proof.
  unfold instantiate_default. cbv zeta.
  assert (framed s (exception_construct eval exec s c argv kw)) as X.
  { unfold exception_construct. destruct (method_of _ _ _); [|frames]. apply with_instance_framed. intros; frames. }
  assert (framed s match method_of (classes s) c "__new__" with
    | Some n => new_construct eval exec s c n argv kw | None => plain_construct eval exec construct s c argv kw end) as P.
  { destruct (method_of _ _ _); [unfold new_construct; apply framed_bind; [frames|]; intros; case_match; frames|].
    unfold plain_construct. apply with_instance_framed. intros l s1.
    destruct (_ ≫= _); [apply dataclass_instantiate_framed|]. unfold error. destruct (method_of _ _ _); frames. }
  destruct (classes s !! c) as [class|]; [|exact P]. destruct (negb _); [frames|].
  assert (framed s (if class_mro_is_exception class then exception_construct eval exec s c argv kw else
    match method_of (classes s) c "__new__" with
    | Some n => new_construct eval exec s c n argv kw | None => plain_construct eval exec construct s c argv kw end)) as D
    by (by destruct (class_mro_is_exception class)).
  destruct argv as [|v []]; [exact D| |exact D]. destruct kw; [|exact D]. destruct (is_enum class); [|exact D].
  unfold enum_construct. frames.
Qed.

Lemma instantiate_with_framed s c argv kw : framed s (instantiate_with eval exec construct s c argv kw).
Proof. unfold instantiate_with. case_match; [frames|apply instantiate_default_framed]. Qed.
End Construct.

Lemma instantiate_framed n : forall s c argv kw, framed s (instantiate eval exec n s c argv kw).
Proof.
  induction n as [|n IH]; intros s c argv kw; cbn [instantiate]; [apply framed_panic|]. by apply instantiate_with_framed.
Qed.
#[local] Hint Resolve instantiate_framed : frame.

Lemma super_class_method_call_framed n s d c name argv kw :
  framed s (super_class_method_call eval exec n s d c name argv kw).
Proof.
  unfold super_class_method_call, error. destruct (classes s !! c) as [class|]; [|frames].
  apply framed_bind; [unfold not_in_mro, error; frames|]. intros s1 order.
  destruct (first_in_mro _ _ _) as [[dc f]|]; [frames|]. destruct (String.eqb name "__new__").
  { destruct (_ && _).
    - unfold type_new, error. repeat case_match; try solve [frames]; apply framed_step; split; reflexivity.
    - unfold object_new. apply with_instance_framed. intros; frames. }
  destruct (String.eqb _ _); [apply instantiate_default_framed; intros; apply instantiate_framed|].
  unfold no_super_attr, error. frames.
Qed.

(** ** Attribute expressions *)

Lemma eval_slice_spec_framed s a b c : framed s (eval_slice_spec eval s a b c).
Proof. unfold eval_slice_spec, Targets.eval_opt. frames. Qed.
#[local] Hint Resolve eval_slice_spec_framed : frame.

Lemma subscript_step_framed s e : framed s (subscript_step eval s e).
Proof. unfold subscript_step. frames. Qed.
#[local] Hint Resolve subscript_step_framed : frame.

Lemma eval_place_framed e : forall s, framed s (eval_place eval s e).
Proof.
  assert (forall n e, (expr_height e <= n)%nat -> forall s, framed s (eval_place eval s e)) as Hn; [|by apply (Hn (expr_height e))].
  clear e. intros n. induction n as [|n IH]; intros e L s; [destruct e; cbn in L; lia|].
  destruct e; cbn in L; apply le_S_n in L; cbn [eval_place]; apply guarded_framed; intros s1; try solve [frames].
  apply framed_bind; [apply IH; lia|]. intros s2 []; frames.
Qed.
#[local] Hint Resolve eval_place_framed : frame.

Lemma eval_attribute_framed s e n : framed s (eval_attribute eval exec s e n).
Proof.
  unfold eval_attribute. apply guarded_framed. intros s1. apply framed_bind; [frames|]. intros s2 _.
  apply framed_bind; [|intros s3 r; apply framed_bind; [apply resolve_proxy_framed|]; intros s4 []; frames].
  unfold attribute_receiver. apply framed_bind; [frames|]. intros s3 p. frames.
Qed.

(** ** Class statements *)

Lemma class_keywords_framed ks : forall s out, framed s (class_keywords eval s ks out).
Proof.
  induction ks as [|[k e] ks IH]; intros s out; cbn [class_keywords]; [frames|].
  apply framed_bind; [frames|]. intros s1 v. apply framed_bind; [|intros; apply IH]. frames.
Qed.

Lemma resolve_base_framed s e : framed s (resolve_base eval s e).
Proof. unfold resolve_base. frames. Qed.
#[local] Hint Resolve resolve_base_framed : frame.

Lemma class_bases_framed bs : forall s i, framed s (class_bases eval s bs i).
Proof. induction bs as [|b bs IH]; intros s i; cbn [class_bases]; frames. Qed.

Lemma build_method_frame s k p b src q a : frame s (build_plain_method_def s k p b src q a).2.
Proof. unfold build_plain_method_def. destruct (Names.collect_assigned_names b). split; reflexivity. Qed.

Lemma classify_framed s ds c n p b src cb : framed s (classify_decorated_method s ds c n p b src cb).
Proof.
  unfold classify_decorated_method, error. destruct (method_kind _ _) as [k|]; [|frames].
  pose proof (build_method_frame s (method_key c n k) p b src (qualname_for s n) false) as F.
  destruct (build_plain_method_def _ _ _ _ _ _ _) as [f s1]. by apply framed_step.
Qed.
#[local] Hint Resolve classify_framed : frame.

Lemma param_default_sources_framed srcs : forall s, framed s (eval_default_sources eval s srcs).
Proof. pose proof (default_source_framed eval eval_framed). induction srcs as [|src srcs IH]; intros s; cbn [eval_default_sources]; frames. Qed.

Lemma param_kw_default_sources_framed srcs : forall s, framed s (eval_kw_default_sources eval s srcs).
Proof. pose proof (default_source_framed eval eval_framed). induction srcs as [|src srcs IH]; intros s; cbn [eval_kw_default_sources]; frames. Qed.

Lemma param_defaults_framed s p : framed s (evaluate_param_defaults eval s p).
Proof.
  pose proof param_default_sources_framed. pose proof param_kw_default_sources_framed.
  unfold evaluate_param_defaults. frames.
Qed.
#[local] Hint Resolve param_defaults_framed : frame.

Lemma class_method_def_framed s c start d a b : framed s (class_method_def eval s c start d a b).
Proof.
  unfold class_method_def. destruct d as [n ar body ds ret]. apply framed_bind; [frames|]. intros s1 p0.
  apply framed_bind; [frames|]. intros s2 p. cbv zeta.
  match goal with |- context [classify_decorated_method ?s ?ds ?c ?n ?p ?b ?src ?cb] =>
    set (cb' := cb); set (ds' := ds); assert (forall s, framed s (and_then (classify_decorated_method s ds' c n p b src cb')
      (fun s b => done s (Ok (if a then mark_async n b else b, true))))) as G by (intros; frames) end.
  clearbody cb' ds'. destruct ds' as [|d []]; [apply G| |apply G].
  destruct (is_builtin_method_decorator _ _); [apply G|].
  match goal with |- context [build_plain_method_def ?s ?k ?p ?b ?src ?q ?a] =>
    pose proof (build_method_frame s k p b src q a) as F; destruct (build_plain_method_def s k p b src q a) as [f s3] end.
  eapply framed_weaken; [exact F|]. unfold alloc_function.
  apply (framed_weaken _ (set_functions (<[fresh (dom (functions s3)) := f]> (functions s3)) s3)); [split; reflexivity|].
  frames.
Qed.
#[local] Hint Resolve class_method_def_framed : frame.

Lemma class_stmt_framed k c s st b : framed s (class_stmt eval exec k c s st b).
Proof. destruct st as [start []]; cbn [class_stmt]; try solve [frames]; try (destruct target; frames). Qed.

Lemma class_body_framed k c saved body : forall s b, framed s (class_body eval exec k c saved s body b).
Proof.
  induction body as [|st body IH]; intros s b; cbn [class_body]; [frames|]. cbv zeta.
  apply (framed_weaken _ (set_variables (cb_attrs b ∪ variables s) s)); [split; reflexivity|].
  apply framed_bind; [apply class_stmt_framed|]. intros s1 out. apply framed_bind; [|intros; apply IH].
  unfold harvest. frames.
Qed.

Lemma run_class_body_framed k c q s body attrs : framed s (run_class_body eval exec k c q s body attrs).
Proof.
  intros O. unfold run_class_body. cbv zeta. set (s1 := set_qualnames (qualname_stack s ++ [q]) s).
  pose proof (class_body_framed k c (variables s) body s1 (empty_body attrs) O) as F.
  destruct (class_body _ _ _ _ _ _ _ _) as [s2 r]. destruct F as [P|F]; cbn [fst snd] in *; [subst; by left|].
  assert (frame s (set_qualnames (removelast (qualname_stack s2)) (set_variables (variables s) s2))) as G.
  { destruct F. split; try done; cbn in *. rewrite frame_qualnames. by rewrite removelast_last. }
  destruct r; [by right..|by left].
Qed.

Lemma metaclass_arguments_framed s c : framed s (metaclass_arguments s c).
Proof.
  unfold metaclass_arguments, error. destruct (classes s !! c) as [k|]; [|frames]. destruct (shared_dict (heap s) _) as [l h].
  apply (framed_weaken _ (set_heap h s)); [split; reflexivity|]. frames.
Qed.
#[local] Hint Resolve metaclass_arguments_framed : frame.

Lemma run_metaclass_framed s c m : framed s (run_metaclass eval exec s c m).
Proof.
  unfold run_metaclass. destruct m as [m|]; [|frames]. cbv zeta. apply framed_bind.
  - unfold invoke_metaclass_new. pose proof set_named_framed. frames.
  - intros s1 _. apply (framed_weaken _ (keep_methods (classes s !! c) c s1)).
    { unfold keep_methods. repeat case_match; done || (split; reflexivity). }
    unfold invoke_metaclass_init. frames.
Qed.

Lemma invoke_set_name_framed c attrs : forall s, framed s (invoke_set_name eval exec s c attrs).
Proof. induction attrs as [|[n v] attrs IH]; intros s; cbn [invoke_set_name]; frames. Qed.

Lemma apply_dataclass_framed s c kw : framed s (apply_dataclass s c kw).
Proof. unfold apply_dataclass, error. repeat case_match; first [apply framed_step, register_class_frame|frames]. Qed.
#[local] Hint Resolve apply_dataclass_framed : frame.

Lemma dataclass_target_framed s v kw : framed s (dataclass_target s v kw).
Proof. unfold dataclass_target, error. frames. Qed.
#[local] Hint Resolve dataclass_target_framed : frame.

Lemma decorate_framed s d v : framed s (decorate eval exec s d v).
Proof.
  unfold decorate, error. destruct d; try solve [frames].
  - destruct (functions s !! f); [by apply call_user_function_framed|frames].
  - destruct (lambdas s !! f); [by apply call_lambda_framed|frames].
  - destruct (is_dataclass_decorator _ _); [frames|]. destruct (_ && _); [|frames].
    match goal with |- context [make_lru_cache ?s ?v ?n] => pose proof (make_lru_cache_frame s v n) as F;
      destruct (make_lru_cache s v n) as [s1 w] end. by apply framed_step.
Qed.
#[local] Hint Resolve decorate_framed : frame.

Lemma decorate_all_framed ds : forall s v, framed s (decorate_all eval exec s ds v).
Proof. induction ds as [|d ds IH]; intros s v; cbn [decorate_all]; frames. Qed.

Lemma finalize_typing_namedtuple_framed s c : framed s (finalize_typing_namedtuple s c).
Proof.
  unfold finalize_typing_namedtuple, error. destruct (classes s !! c) as [class|]; [|frames]. cbv zeta.
  apply framed_bind; [frames|]. intros s1 _. apply framed_step. case_match; [apply register_class_frame|done].
Qed.

Lemma eval_class_def_framed s c bs ks body ds : framed s (eval_class_def eval exec s c bs ks body ds).
Proof.
  pose proof set_named_framed as N.
  unfold eval_class_def. apply framed_bind; [frames|]. intros s1 _.
  apply framed_bind; [apply class_keywords_framed|]. intros s2 kw.
  apply framed_bind; [apply class_bases_framed|]. intros s3 i. cbv zeta.
  apply framed_bind.
  { unfold invoke_metaclass_prepare. destruct (match kw.1 with Some _ => _ | None => _ end); [|frames].
    destruct (metaclass_hook _ _ _); [|frames]. apply framed_bind; [by apply call_user_function_framed|frames]. }
  intros s4 prepared. apply framed_bind; [apply run_class_body_framed|]. intros s5 b.
  apply framed_bind; [frames|]. intros s6 order. eapply framed_weaken; [apply register_class_frame|].
  apply framed_bind; [apply N|]. intros s7 _.
  apply framed_bind; [destruct (base_namedtuple i); [apply finalize_typing_namedtuple_framed|frames]|]. intros s8 _.
  apply framed_bind; [apply run_metaclass_framed|]. intros s9 _.
  apply framed_bind; [apply invoke_set_name_framed|]. intros s10 _.
  apply framed_bind; [unfold invoke_init_subclass; frames|]. intros s11 _.
  apply framed_bind; [|frames]. destruct ds; [frames|]. apply framed_bind; [apply decorate_all_framed|]. intros; apply N.
Qed.
End Frames.

(** ** Construction of dataclasses *)

Section Dataclass.
Context `{External} `{!ExternalOrder} `{!Platform} `{!Formats} `{!Calls} `{!Estimates} `{!Environment} `{!Host}
        `{!ModuleAttributes} `{!Library}.
Variable eval : InterpreterState -> PyExpr -> Eval Value.
Variable exec : InterpreterState -> PyStmt -> Eval Value.
Variable construct : InterpreterState -> string -> list Value -> list (string * Value) -> Eval Value.

(** The value of the [i]-th parameter of the constructor: the argument in its position or
    that of its name, but not both, and else its default. *)
Definition chosen (argv : list Value) (kwargs : list (string * Value)) (i : nat) (f : DataclassField) : option Value :=
  match argv !! i, field_get kwargs (df_name f) with
  | Some _, Some _ => None
  | Some v, None | None, Some v => Some v
  | None, None => df_default f
  end.

(** The arguments fit: not too many of them, no unknown names, and a value for each
    parameter. *)
Record dataclass_accepts (fields : list DataclassField) (argv : list Value) (kwargs : list (string * Value)) : Prop := {
  not_too_many : (length argv <= length (init_fields fields))%nat;
  names_known k : k ∈ kwargs.*1 -> k ∈ df_name <$> init_fields fields;
  all_chosen i f : init_fields fields !! i = Some f -> is_Some (chosen argv kwargs i f)
}.

Lemma bt_insert_get {A} (m : list (string * A)) k v n : field_get (bt_insert m k v) n = if decide (n = k) then Some v else field_get m n.
Proof.
  induction m as [|[k' v'] m IH]; cbn [bt_insert field_get].
  - case_bool_decide; case_decide; congruence.
  - destruct (String.eqb_spec k k') as [->|Hk]; [|destruct (String.ltb k k')]; cbn [field_get]; rewrite ?IH;
      repeat case_bool_decide; repeat case_decide; congruence.
Qed.

Lemma same_name fields f g : NoDup (df_name <$> fields) -> f ∈ fields -> g ∈ fields -> df_name f = df_name g -> f = g.
Proof.
  intros N (i & Hi)%list_elem_of_lookup (j & Hj)%list_elem_of_lookup E.
  assert (i = j) as ->; [|congruence].
  apply (proj1 (NoDup_alt _) N i j (df_name f)); rewrite list_lookup_fmap; [by rewrite Hi|].
  rewrite Hj. cbn. by rewrite E.
Qed.

Lemma filtered_names (p : DataclassField -> bool) fields : NoDup (df_name <$> fields) -> NoDup (df_name <$> List.filter p fields).
Proof.
  induction fields as [|f fields IH]; [done|]. cbn. intros [I N]%NoDup_cons. destruct (p f); [|by apply IH]. cbn.
  apply NoDup_cons. split; [|by apply IH]. intros (g & E & J)%list_elem_of_fmap. apply I, list_elem_of_fmap. exists g.
  split; [done|]. apply list_elem_of_In, filter_In in J as [J _]. by apply list_elem_of_In.
Qed.

Lemma in_filtered (p : DataclassField -> bool) fields f : f ∈ List.filter p fields <-> f ∈ fields /\ p f = true.
Proof. by rewrite !list_elem_of_In, filter_In. Qed.

Section Fields.
Variables (class_name : string) (argv : list Value) (kwargs : list (string * Value)).
Abbreviation bind := (bind_init_fields eval exec construct).
Abbreviation bind_other := (bind_other_fields eval exec construct).

Lemma field_value_chosen s i f : df_default_factory f = None ->
  match chosen argv kwargs i f with
  | Some v => field_value eval exec construct s class_name f (argv !! i) (field_get kwargs (df_name f)) = (s, Ok v)
  | None => exists m, field_value eval exec construct s class_name f (argv !! i) (field_get kwargs (df_name f)) = (s, fail (TypeError m))
  end.
Proof.
  intros D. unfold chosen, field_value, field_default. rewrite D.
  destruct (argv !! i), (field_get kwargs (df_name f)), (df_default f); try done; by eexists.
Qed.

Lemma bind_init_ok fields : NoDup (df_name <$> fields) -> (forall f, f ∈ fields -> df_default_factory f = None) ->
  forall s i out, (forall j f, fields !! j = Some f -> is_Some (chosen argv kwargs (i + j) f)) ->
  exists out', bind s class_name i fields argv kwargs out = (s, Ok out') /\
    (forall j f, fields !! j = Some f -> df_init_only f = false -> field_get out'.1 (df_name f) = chosen argv kwargs (i + j) f) /\
    (forall n, (forall f, f ∈ fields -> df_init_only f = false -> df_name f <> n) -> field_get out'.1 n = field_get out.1 n).
Proof.
  induction fields as [|f fields IH]; intros N D s i out C; cbn [bind_init_fields].
  { exists out. by split_and!. }
  apply NoDup_cons in N as [Nf N]. destruct (C 0%nat f eq_refl) as [v V]. rewrite Nat.add_0_r in V.
  pose proof (field_value_chosen s i f (D f ltac:(left))) as F. rewrite V in F. rewrite F. cbn [and_then].
  destruct (IH N ltac:(intros; apply D; by right) s (S i)
              (if df_init_only f then (out.1, out.2 ++ [v]) else (bt_insert out.1 (df_name f) v, out.2)))
    as (out' & -> & Hj & Hn).
  { intros j g Hg. rewrite Nat.add_succ_comm. by apply C. }
  exists out'. split; [done|]. split.
  - intros [|j] g Hg O.
    + injection Hg as <-. rewrite Nat.add_0_r, V, Hn; [rewrite O; cbn; by rewrite bt_insert_get, decide_True|].
      intros g Ig _ E. apply Nf. rewrite <- E. by apply list_elem_of_fmap_2.
    + rewrite <- Nat.add_succ_comm. by apply Hj.
  - intros n Nn. rewrite Hn by (intros; apply Nn; [by right|done]). destruct (df_init_only f) eqn:O; [done|]. cbn.
    rewrite bt_insert_get, decide_False; [done|]. intros ->. by apply (Nn f ltac:(left)).
Qed.

Lemma bind_init_fails fields : (forall f, f ∈ fields -> df_default_factory f = None) ->
  forall s i out j f, fields !! j = Some f -> chosen argv kwargs (i + j) f = None ->
  exists m, bind s class_name i fields argv kwargs out = (s, fail (TypeError m)).
Proof.
  induction fields as [|g fields IH]; intros D s i out j f Hj C; [done|]. cbn [bind_init_fields].
  pose proof (field_value_chosen s i g (D g ltac:(left))) as F.
  destruct (chosen argv kwargs i g) as [v|] eqn:V; [|destruct F as [m ->]; by exists m]. rewrite F. cbn [and_then].
  destruct j as [|j]; [injection Hj as ->; rewrite Nat.add_0_r in C; congruence|].
  eapply IH; [intros; apply D; by right|exact Hj|]. by rewrite Nat.add_succ_comm.
Qed.

Lemma bind_other_ok fields : NoDup (df_name <$> fields) -> (forall f, f ∈ fields -> df_default_factory f = None) ->
  forall s out, exists out', bind_other s fields out = (s, Ok out') /\
    (forall f, f ∈ fields -> is_Some (df_default f) -> field_get out' (df_name f) = df_default f) /\
    (forall n, (forall f, f ∈ fields -> is_Some (df_default f) -> df_name f <> n) -> field_get out' n = field_get out n).
Proof.
  induction fields as [|f fields IH]; intros N D s out; cbn [bind_other_fields].
  { exists out. split; [done|]. split; [|done]. intros f I. by apply not_elem_of_nil in I. }
  apply NoDup_cons in N as [Nf N]. assert (forall g, g ∈ fields -> df_name g <> df_name f) as Other.
  { intros g Ig E. apply Nf. rewrite <- E. by apply list_elem_of_fmap_2. }
  unfold field_default. rewrite (D f ltac:(left)). destruct (df_default f) as [v|] eqn:V; cbn [and_then done].
  - destruct (IH N ltac:(intros; apply D; by right) s (bt_insert out (df_name f) v)) as (out' & -> & Hf & Hn).
    exists out'. split; [done|]. split.
    + intros g [->|I]%elem_of_cons S; [|by apply Hf]. rewrite V, Hn by auto. by rewrite bt_insert_get, decide_True.
    + intros n Nn. rewrite Hn by (intros; apply Nn; [by right|done]). rewrite bt_insert_get, decide_False; [done|].
      intros ->. apply (Nn f); [left|by rewrite V|done].
  - destruct (IH N ltac:(intros; apply D; by right) s out) as (out' & -> & Hf & Hn).
    exists out'. split; [done|]. split.
    + intros g [->|I]%elem_of_cons S; [|by apply Hf]. rewrite V in S. by destruct S.
    + intros n Nn. apply Hn. intros g Ig. apply Nn. by right.
Qed.

Lemma chosen_or_not (fields : list DataclassField) i : (forall j f, fields !! j = Some f -> is_Some (chosen argv kwargs (i + j) f)) \/
  exists j f, fields !! j = Some f /\ chosen argv kwargs (i + j) f = None.
Proof.
  revert i. induction fields as [|f fields IH]; intros i; [by left|].
  destruct (chosen argv kwargs i f) as [v|] eqn:V; [|right; exists 0%nat, f; by rewrite Nat.add_0_r].
  destruct (IH (S i)) as [A|(j & g & Hj & C)].
  - left. intros [|j] g Hg; [injection Hg as <-; rewrite Nat.add_0_r; by exists v|]. rewrite <- Nat.add_succ_comm. by apply A.
  - right. exists (S j), g. by rewrite <- Nat.add_succ_comm.
Qed.

Lemma keywords_known fields : match unexpected_keyword fields kwargs with
  | Some k => k ∈ kwargs.*1 /\ k ∉ df_name <$> init_fields fields
  | None => forall k, k ∈ kwargs.*1 -> k ∈ df_name <$> init_fields fields
  end.
Proof.
  assert (forall k, existsb (fun f => String.eqb (df_name f) k) (init_fields fields) = true <-> k ∈ df_name <$> init_fields fields) as K.
  { intros k. rewrite existsb_exists, list_elem_of_fmap. setoid_rewrite list_elem_of_In. setoid_rewrite String.eqb_eq.
    split; intros (f & A & B); exists f; auto. }
  unfold unexpected_keyword. destruct (find _ _) as [k|] eqn:F.
  - apply find_some in F as [I F]. apply negb_true_iff in F. split; [by apply list_elem_of_In|]. rewrite <- K. congruence.
  - intros k I. apply list_elem_of_In in I. apply (find_none _ _ F) in I. apply negb_false_iff in I. by apply K.
Qed.
End Fields.

(** C18: what the constructor of a dataclass does, for fields of distinct names without
    factories and without a [__post_init__]: arguments that fit give a new instance, whose
    field of each parameter holds the argument in its position or of its name, or the
    default; a field that is no parameter holds its default, and there are no other
    fields (an [InitVar] leaves none); the objects and variables there were stay. Any
    other arguments raise a TypeError and change nothing. *)
Theorem dataclass_binds_fields s class_name fields argv kwargs :
  NoDup (df_name <$> fields) -> (forall f, f ∈ fields -> df_default_factory f = None) ->
  method_of (classes s) class_name "__post_init__" = None ->
  let result := dataclass_instantiate eval exec construct s class_name fields argv kwargs in
  (dataclass_accepts fields argv kwargs ->
     exists l s', result = (s', Ok (VInstance class_name l)) /\ (l ∉ dom (instance_fields (heap s))) /\
       (forall l', l' <> l -> fields_at (heap s') l' = fields_at (heap s) l') /\ variables s' = variables s /\
       (forall i f, init_fields fields !! i = Some f -> df_init_only f = false ->
          field_get (fields_at (heap s') l) (df_name f) = chosen argv kwargs i f) /\
       (forall f, f ∈ fields -> df_init f = false -> field_get (fields_at (heap s') l) (df_name f) = df_default f) /\
       (forall n v, field_get (fields_at (heap s') l) n = Some v ->
          exists f, f ∈ fields /\ df_name f = n /\ (df_init f = true -> df_init_only f = false))) /\
  (~ dataclass_accepts fields argv kwargs -> exists m, result = (s, fail (TypeError m))).
Proof.
  intros N D P. cbv zeta. unfold dataclass_instantiate. pose proof (keywords_known kwargs fields) as K.
  assert (NoDup (df_name <$> init_fields fields)) as Ni by by apply filtered_names.
  assert (forall f, f ∈ init_fields fields -> df_default_factory f = None) as Di by (intros f [I _]%in_filtered; by apply D).
  set (others := List.filter (fun f => negb (df_init f)) fields).
  assert (NoDup (df_name <$> others)) as No by by apply filtered_names.
  assert (forall f, f ∈ others -> df_default_factory f = None) as Do by (intros f [I _]%in_filtered; by apply D).
  assert (forall f g, f ∈ init_fields fields -> g ∈ others -> df_name g <> df_name f) as Apart.
  { intros f g [If Bf]%in_filtered [Ig Bg]%in_filtered E. rewrite (same_name fields g f N Ig If E), Bf in Bg. done. }
  split.
  - intros [L Kn C]. rewrite (proj2 (Nat.ltb_ge _ _) L). destruct (unexpected_keyword fields kwargs) as [k|]; [by destruct K as [I []]; auto|].
    destruct (bind_init_ok class_name argv kwargs (init_fields fields) Ni Di s 0 ([], []) C) as (out & -> & Hi & Hn). cbn [and_then].
    destruct (bind_other_ok others No Do s out.1) as (values & -> & Ho & Hm). cbn [and_then].
    unfold allocate_instance, shared_fields. set (l := fresh _). cbn [classes set_heap]. rewrite P.
    eexists l, _. split; [reflexivity|]. split; [apply is_fresh|]. split_and!.
    + intros l' Hl. unfold fields_at. cbn. by rewrite lookup_insert_ne.
    + done.
    + intros i f Hf O. unfold fields_at. cbn. rewrite lookup_insert_eq. cbn. apply list_elem_of_lookup_2 in Hf as If.
      rewrite Hm by (intros g Ig _; by apply Apart). by apply (Hi i f).
    + intros f If Nf. unfold fields_at. cbn. rewrite lookup_insert_eq. cbn.
      assert (f ∈ others) as Io by (apply in_filtered; by rewrite Nf).
      destruct (df_default f) as [v|] eqn:V; [rewrite Ho by (try done; by rewrite V); done|].
      rewrite Hm, Hn; [done| |].
      * intros g Ig _ E. by apply (Apart g f).
      * intros g Ig [w W] E. apply in_filtered in Ig as [Ig _]. rewrite (same_name fields g f N Ig If E) in W. congruence.
    + intros n v. unfold fields_at. cbn. rewrite lookup_insert_eq. cbn. intros G.
      destruct (decide (Exists (fun f => df_name f = n /\ (df_init f = true -> df_init_only f = false)) fields)) as [X|X].
      { apply Exists_exists in X as (f & If & A & B). by exists f. }
      exfalso. rewrite <- Forall_Exists_neg, Forall_forall in X. rewrite Hm, Hn in G; [done| |].
      * intros f If O E. apply in_filtered in If as [If _]. by apply (X f If).
      * intros f [If Bf]%in_filtered _ E. apply (X f If). split; [done|]. intros Bt. by rewrite Bt in Bf.
  - intros R. destruct (length (init_fields fields) <? length argv)%nat eqn:L; [by eexists|]. apply Nat.ltb_ge in L.
    destruct (unexpected_keyword fields kwargs) as [k|]; [by eexists|].
    destruct (chosen_or_not argv kwargs (init_fields fields) 0) as [C|(j & f & Hj & C)]; [by destruct R; split|].
    destruct (bind_init_fails class_name argv kwargs (init_fields fields) Di s 0 ([], []) j f Hj C) as [m ->]. by exists m.
Qed.
End Dataclass.

(** ** Witnesses *)

#[export] Instance sample_module_attributes : ModuleAttributes := {|
  date_attribute := fun _ _ => Ok VNone;
  datetime_attribute := fun _ _ _ => Ok VNone;
  time_attribute := fun _ _ => Ok VNone;
  timedelta_attribute := fun _ _ => Ok VNone;
  hash_attribute := fun _ _ _ => Ok VNone
|}.

#[export] Instance sample_library : Library := {|
  call_value_as_function := fun s _ _ _ => (s, Ok VNone);
  call_module_function := fun s _ _ _ => (s, Ok VNone);
  try_exitstack_method := fun s _ _ _ => (s, None);
  module_member := fun _ _ => Ok VNone;
  type_attribute := fun _ _ _ => None;
  type_classmethod := fun _ _ _ => None;
  cached_function := fun _ => VNone;
  dispatcher := fun _ => (""%string, VNone)
|}.

(** [class Point: x; y = 5], constructed as [Point(1)] and as [Point()]. *)
Definition sample_fields : list DataclassField :=
  [mkDataclassField "x" None None true true true false; mkDataclassField "y" (Some (VInt 5)) None true true true false].

Lemma dataclass_binds_fields_witness :
  let make := dataclass_instantiate eval_expr (eval_stmt 3) (instantiate eval_expr (eval_stmt 3) 3) fresh_state "Point" sample_fields in
  (exists l s', make [VInt 1] [] = (s', Ok (VInstance "Point" l)) /\
     field_get (fields_at (heap s') l) "x" = Some (VInt 1) /\ field_get (fields_at (heap s') l) "y" = Some (VInt 5)) /\
  exists m, make [] [] = (fresh_state, fail (TypeError m)).
Proof.
  cbv zeta.
  assert (NoDup (df_name <$> sample_fields)) as N by (apply (bool_decide_unpack _); vm_compute; exact I).
  assert (forall f, f ∈ sample_fields -> df_default_factory f = None) as D.
  { intros f [->|[->|I]%elem_of_cons]%elem_of_cons; [done..|]. by apply not_elem_of_nil in I. }
  pose proof (dataclass_binds_fields eval_expr (eval_stmt 3) (instantiate eval_expr (eval_stmt 3) 3) fresh_state "Point" sample_fields) as T.
  split.
  - destruct (proj1 (T [VInt 1] [] N D eq_refl)) as (l & s' & E & _ & _ & _ & F & _).
    + split; [cbn; lia|intros k I; by apply not_elem_of_nil in I|]. intros [|[|i]] f Hf; try discriminate Hf; injection Hf as <-; by eexists.
    + exists l, s'. split; [exact E|]. split; [exact (F 0%nat _ eq_refl eq_refl)|exact (F 1%nat _ eq_refl eq_refl)].
  - apply (proj2 (T [] [] N D eq_refl)). intros [_ _ C]. destruct (C 0%nat _ eq_refl) as [v V]. discriminate V.
Defined.
