(* ===== verification/GeneratorsThms.v ===== *)
(** Suspended generators: the protocol keeps the frame of the state, as its clients
    assume; the gate admits only bodies whose yields the steppers resume; a
    generator that has ended stays so; and what the records get wrong. *)
From Stdlib Require Import ZArith Lia Ascii String SpecFloat.
From stdpp Require Import base tactics list numbers option strings pretty gmap.
From S2P Require Import Prelude PySet Values Errors F64 Keys Arith ValueEq Classes Slices Compare Operators State Exceptions Op Syntax.
From S2P Require Import Names Host Displays Eval Params Definitions Match Stmts Generators Samples Frame.

(** ** The frame *)

Section Frames.
Context `{External} `{!ExternalOrder} `{!Platform} `{!Formats} `{!Calls} `{!Estimates} `{!Environment} `{!Host}.
Context `{!FrameLaws}.
Variable exec : InterpreterState -> PyStmt -> Eval Value.
Hypothesis exec_framed : forall s st, framed s (exec s st).
Variable dispatch : InterpreterState -> Value -> string -> list Value -> Eval Value.
Hypothesis dispatch_framed : forall s v m vs, framed s (dispatch s v m vs).
Variable bound : nat.

Lemma update_frame_frame id f s : frame s (update_frame id f s).
Proof. unfold update_frame. case_match; split; reflexivity. Qed.

Lemma update_active_frame f s : frame s (update_active f s).
Proof. unfold update_active. case_match; [apply update_frame_frame|split; reflexivity]. Qed.

Lemma updated_framed {A} f s (r : EvalResult A) : framed s (update_active f s, r).
Proof. apply framed_step, update_active_frame. Qed.

Lemma after_update_framed {A} f s (m : Eval A) : framed (update_active f s) m -> framed s m.
Proof. apply framed_weaken, update_active_frame. Qed.

Lemma frame_updated f s s' : frame s s' -> frame s (update_active f s').
Proof. intros F. etrans; [exact F|apply update_active_frame]. Qed.

Section Nested.
Variable nested : InterpreterState -> PyStmt -> Eval ().
Hypothesis nested_framed : forall s st, framed s (nested s st).

Lemma exec_unit_framed s st : framed s (let? (s, _) := exec s st in done s (Ok ())).
Proof. apply framed_bind; [done|intros; apply framed_refl]. Qed.

Lemma step_block_framed delegated record stmts : (forall i s, frame s (record i s)) ->
  forall s i, framed s (step_block exec nested delegated record s i stmts).
Proof.
  intros R. induction stmts as [|st stmts IH]; intros s i; cbn [step_block]; [apply framed_refl|].
  set (m := if delegated st then _ else _).
  assert (framed s m) as M by (unfold m; destruct (delegated st); [done|apply exec_unit_framed]).
  intros O. destruct (M O) as [P|F]; destruct m as [s1 [v|[e|[]|e]|]]; cbn in *; try (by left); try (by right).
  - destruct (after_update_framed _ s1 _ (IH (clear_resume_at_yield s1) (S i))
      ltac:(by unfold counters_ok; rewrite (frame_expr_depth _ _ F), (frame_call_depth _ _ F), (frame_config _ _ F))) as [P|F']; [by left|right; by etrans].
  - right. destruct (delegated st); [by etrans|]. apply frame_updated. by etrans.
Qed.

Lemma loop_pass_framed delegated record body s i : (forall i s, frame s (record i s)) ->
  framed s (loop_pass exec nested delegated record s i body).
Proof.
  intros R. unfold loop_pass. pose proof (step_block_framed delegated record (drop i body) R s i) as B.
  intros O. destruct (B O) as [P|F]; destruct (step_block _ _ _ _ _ _ _) as [s1 [v|[e|[]|e]|]]; cbn in *;
    try (by left); by right.
Qed.

Lemma for_rounds_framed target t body items rest : forall s pos i,
  framed s (for_rounds exec nested s target t body items rest pos i).
Proof.
  induction rest as [|item rest IH]; intros s pos i; cbn [for_rounds]; [apply updated_framed|].
  apply framed_bind; [destruct (i =? 0)%nat; [apply assign_target_framed|apply framed_refl]|intros s1 _].
  apply framed_bind; [apply loop_pass_framed; intros; apply update_active_frame|intros s2 []]; [apply updated_framed|].
  eapply after_update_framed, IH.
Qed.

Lemma lazy_rounds_framed n target t body source : forall s current i,
  framed s (lazy_rounds exec dispatch nested n s target t body source current i).
Proof.
  induction n as [|n IH]; intros s current i; cbn [lazy_rounds]; [apply framed_panic|]. cbv zeta.
  assert (forall s item i, framed s
    (let? (s, broke) := loop_pass exec nested loop_delegated
         (fun i => record_for (mkForState [] 0 i target (Some source) (Some item))) s i body in
     if broke : bool then done (forget_for target s) (Ok ())
     else lazy_rounds exec dispatch nested n s target t body source None 0)) as Work.
  { intros s1 item j. apply framed_bind; [apply loop_pass_framed; intros; apply update_active_frame|intros s2 []];
      [apply updated_framed|apply IH]. }
  destruct current as [item|]; [apply Work|]. intros O.
  destruct (dispatch_framed s source "__next__" [] O) as [P|F]; destruct (dispatch s source "__next__" []) as [s1 [v|[e|c|e]|]];
    cbn [fst snd] in *; try (by left); try (by right).
  - refine (framed_weaken _ _ _ F _ O). apply framed_bind; [apply assign_target_framed|intros; apply Work].
  - destruct (String.eqb _ _); right; [by apply frame_updated|done].
Qed.

Lemma run_for_framed s t i body target : framed s (run_for_suspendable exec dispatch bound nested s t i body target).
Proof.
  unfold run_for_suspendable. destruct (for_resume s target) as [fs|].
  - destruct (fs_lazy_source fs); [apply lazy_rounds_framed|apply for_rounds_framed].
  - apply framed_bind; [apply eval_resolved_framed; intros; apply eval_expr_framed|intros s1 v].
    destruct v; try apply lazy_rounds_framed;
      (apply framed_bind; [apply iter_framed|intros; apply for_rounds_framed]).
Qed.

Lemma while_passes_framed n key test body : forall s resuming i,
  framed s (while_passes exec nested n s key test body resuming i).
Proof.
  induction n as [|n IH]; intros s resuming i; cbn [while_passes]; [apply framed_panic|].
  apply framed_bind; [destruct resuming; [apply framed_refl|]|intros s1 []]; [frames| |apply updated_framed].
  apply framed_bind; [apply loop_pass_framed; intros; apply update_active_frame|intros s2 []];
    [apply updated_framed|apply IH].
Qed.

Lemma run_if_framed s test body orelse : framed s (run_if_suspendable exec nested s test body orelse).
Proof.
  unfold run_if_suspendable, pop_if_resume. eapply after_update_framed. apply framed_bind.
  - destruct (_ ≫= _); [apply framed_refl|frames].
  - intros s1 [b i]. apply step_block_framed. intros. apply update_active_frame.
Qed.

Lemma try_phase_framed phase s i stmts : framed s (step_try_phase exec nested phase s i stmts).
Proof. apply step_block_framed. intros. apply update_active_frame. Qed.

Lemma after_phase_framed s r finish : framed s r -> (forall s' e, framed s' (finish s' e)) -> framed s (after_phase r finish).
Proof.
  intros M F O. unfold after_phase. destruct (M O) as [P|Fr]; destruct r as [s1 [v|[e|[]|e]|]]; cbn [fst snd] in *;
    try (by left); try (by right); exact (framed_weaken _ _ _ Fr (F _ _) O).
Qed.

Lemma finish_try_framed s f p : framed s (finish_try exec nested s f p).
Proof. unfold finish_try. apply framed_bind; [apply try_phase_framed|frames]. Qed.

Lemma finish_handler_framed f n s p : framed s (finish_handler exec nested f n s p).
Proof.
  unfold finish_handler, cleanup_handler. refine (framed_weaken _ _ _ _ (finish_try_framed _ f p)).
  etrans; [|apply unbind_name_frame]. split; reflexivity.
Qed.

Lemma enter_handler_framed exc err f hs : forall s h, framed s (enter_handler exec nested s exc err f h hs).
Proof.
  induction hs as [|[ty name body] hs IH]; intros s h; cbn [enter_handler]; [apply finish_try_framed|].
  apply framed_bind; [apply matches_handler_framed; intros; apply eval_expr_framed|intros s1 []]; cbn [negb]; [|apply IH].
  apply framed_bind; [apply bind_name_framed|intros s2 _].
  refine (framed_weaken s2 (push_exception exc s2) _ _ _); [split; reflexivity|].
  apply after_phase_framed; [apply try_phase_framed|intros; apply finish_handler_framed].
Qed.

Lemma run_try_body_framed s i b hs o f : framed s (run_try_body exec nested s i b hs o f).
Proof.
  unfold run_try_body. apply after_phase_framed; [apply try_phase_framed|intros s1 [e|]].
  - unfold enter_or_propagate. destruct (error_exception e); [apply enter_handler_framed|apply finish_try_framed].
  - apply after_phase_framed; [apply try_phase_framed|intros; apply finish_try_framed].
Qed.

Lemma run_try_framed s b hs o f : framed s (run_try_suspendable exec nested s b hs o f).
Proof.
  unfold run_try_suspendable, pop_try_resume. eapply after_update_framed.
  destruct (_ ≫= _) as [[[] i]|]; try apply run_try_body_framed.
  - destruct (hs !! index) as [[ty name hb]|]; [|apply framed_panic].
    apply after_phase_framed; [apply try_phase_framed|intros; apply finish_handler_framed].
  - apply after_phase_framed; [apply try_phase_framed|intros; apply finish_try_framed].
  - apply try_phase_framed.
Qed.

Lemma run_with_framed s items b : framed s (run_with_suspendable exec nested s items b).
Proof.
  unfold run_with_suspendable, pop_with_resume. eapply after_update_framed. apply framed_bind.
  - destruct (_ ≫= _); [apply framed_refl|]. apply framed_bind; [apply enter_managers_framed|frames].
  - intros s1 [i ms]. apply after_phase_framed; [apply step_block_framed; intros; apply update_active_frame|].
    intros. apply exit_context_managers_framed.
Qed.

Lemma run_compound_framed s st : framed s (run_compound exec dispatch bound nested s st).
Proof.
  destruct st as [start []]; cbn [run_compound]; try apply framed_panic.
  - apply run_if_framed.
  - apply run_for_framed.
  - unfold run_while_suspendable. destruct (while_saved s start); apply while_passes_framed.
  - destruct star; [apply framed_panic|apply run_try_framed].
  - apply run_with_framed.
Qed.
End Nested.

Lemma run_suspendable_framed fuel : forall s st, framed s (run_suspendable exec dispatch bound fuel s st).
Proof. induction fuel as [|n IH]; intros s st; [apply framed_panic|]. by apply run_compound_framed. Qed.

Lemma generator_body_framed stmts : forall s i, framed s (run_generator_body exec dispatch bound s i stmts).2.
Proof.
  induction stmts as [|st stmts IH]; intros s i; cbn [run_generator_body]; [apply framed_refl|].
  destruct (top_delegated st).
  - pose proof (run_suspendable_framed (stmt_height st) s st) as R. intros O.
    destruct (R O) as [P|F]; destruct (run_suspendable _ _ _ _ _ _) as [s1 [v|e|]]; cbn [fst snd] in *; try (by left); try (by right).
    exact (framed_weaken _ _ _ F (IH s1 (S i)) O).
  - intros O. destruct (exec_framed s st O) as [P|F]; destruct (exec s st) as [s1 [v|[e|[]|e]|]]; cbn [fst snd] in *;
      try (by left); try (by right).
    + exact (framed_weaken _ _ _ (frame_updated _ _ _ F) (IH _ (S i)) O).
    + right. by apply frame_updated.
Qed.

Lemma bind_locals_frame locals s : frame s (bind_locals locals s).
Proof.
  unfold bind_locals. generalize (map_to_list locals). intros l. revert s. induction l as [|[n v] l IH]; intros s; [reflexivity|].
  cbn. etrans; [apply set_variable_frame|apply IH].
Qed.

Lemma enter_frame_framed s id f : framed s (enter_frame exec dispatch bound s id f).
Proof.
  unfold enter_frame. cbv zeta. set (s1 := bind_locals (g_locals f) s).
  set (s2 := set_active _ _). pose proof (generator_body_framed (drop (g_stmt_index f) (g_body f)) s2 (g_stmt_index f)) as R.
  intros O. assert (frame s s1) as F1 by apply bind_locals_frame.
  assert (counters_ok s2) as O2 by (unfold counters_ok; cbn; by rewrite (frame_expr_depth _ _ F1), (frame_call_depth _ _ F1), (frame_config _ _ F1)).
  destruct (R O2) as [P|F]; destruct (run_generator_body _ _ _ _ _ _) as [i [s3 r]]; cbn [fst snd] in *; [subst; by left|].
  assert (frame s (set_sources (removelast (body_source_stack s3)) (set_active (removelast (active_generator_stack s3)) s3))) as F3.
  { etrans; [exact F1|]. pose proof (frame_sources _ _ F) as Fs. pose proof (frame_active _ _ F) as Fa.
    destruct F; split; cbn in *; try congruence; [rewrite Fs|rewrite Fa]; apply removelast_last. }
  set (s4 := set_sources (removelast _) _) in *.
  assert (forall g h, frame s (update_frame id g s4) /\ frame s (update_frame id h (update_frame id g s4))) as U
    by (intros g h; split; repeat (etrans; [|apply update_frame_frame]); exact F3).
  destruct r as [v|[e|[]|e]|]; [..|by left]; right; apply U; exact (put_finished true).
Qed.

Lemma set_generators_frame g s : frame s (set_generators g s).
Proof. split; reflexivity. Qed.

Lemma step_generator_framed s id v : framed s (step_generator exec dispatch bound s id v).
Proof.
  unfold step_generator, frame_missing. destruct (generators s !! id) as [f|]; [|apply framed_refl].
  destruct (_ || _); [apply framed_refl|].
  destruct (drain_top f) as [[[x|] f']|]; [apply framed_step, set_generators_frame|..];
    (eapply framed_weaken; [apply set_generators_frame|apply enter_frame_framed]).
Qed.

Lemma throw_framed s id args : framed s (throw_into_generator exec dispatch bound s id args).
Proof.
  unfold throw_into_generator. apply framed_bind; [apply framed_refl|intros s1 e].
  destruct (is_live s1 id); cbn [negb]; [|apply framed_step, update_frame_frame].
  eapply framed_weaken; [apply update_frame_frame|apply step_generator_framed].
Qed.

Lemma forward_framed s id sub method args : framed s (forward_to_delegate exec dispatch bound s id sub method args).
Proof.
  unfold forward_to_delegate. intros O. destruct (dispatch_framed s (VGenerator sub) method args O) as [P|F];
    destruct (dispatch _ _ _ _) as [s1 [v|[e|c|e]|]]; cbn [fst snd] in *; try (by left); try (by right).
  refine (framed_weaken s _ _ _ (step_generator_framed _ id VNone) O). etrans; [exact F|apply update_frame_frame].
Qed.

Lemma close_framed s id : framed s (close_generator exec dispatch bound s id).
Proof.
  unfold close_generator. apply framed_bind.
  - destruct (_ ≫= _); [|apply framed_refl]. apply framed_bind; [apply dispatch_framed|].
    intros. apply framed_step, update_frame_frame.
  - intros s1 _. destruct (is_live s1 id); [|apply framed_step, update_frame_frame]. intros O.
    destruct (throw_framed s1 id [VException (ExceptionValue_new "GeneratorExit" [])] O) as [P|F];
      destruct (throw_into_generator _ _ _ _ _ _) as [s2 [v|e|]]; cbn [fst snd] in *; try (by left);
      right; (etrans; [exact F|apply update_frame_frame]).
Qed.

Lemma suspended_framed s id method args : framed s (dispatch_suspended exec dispatch bound s id method args).
Proof.
  unfold dispatch_suspended, frame_missing. cbv zeta.
  repeat case_match; first [apply framed_refl|apply forward_framed|apply step_generator_framed|apply throw_framed|apply close_framed].
Qed.

Lemma dispatch_generator_method_framed s v method args kwargs :
  framed s (dispatch_generator_method exec dispatch bound s v method args kwargs).
Proof.
  unfold dispatch_generator_method. destruct kwargs as [|[] ?]; [|apply framed_refl].
  destruct v; try apply framed_refl; [..|apply suspended_framed|].
  - unfold dispatch_lazy. cbv zeta. repeat case_match; first [apply framed_refl|apply framed_step; split; reflexivity].
  - unfold dispatch_builtin_iter. pose proof (step_builtin_iter_frame id s) as B.
    destruct (step_builtin_iter id s) as [[x|] s1]; repeat case_match; try apply framed_refl; by apply framed_step.
Qed.
End Frames.

(** The protocol keeps the frame, as the clients of [Calls] assume. *)
Lemma generator_method_framed `{External} `{!ExternalOrder} `{!Platform} `{!Formats} `{!Calls} `{!Estimates}
    `{!Environment} `{!Host} `{!FrameLaws} exec bound :
  (forall s st, framed s (exec s st)) ->
  forall fuel s v m vs, framed s (generator_method exec bound fuel s v m vs).
Proof.
  intros E fuel. induction fuel as [|n IH]; intros s v m vs; [apply framed_panic|].
  by apply dispatch_generator_method_framed.
Qed.

(** A method of a generator, whatever its body did before it yielded, returned or
    raised, leaves the frame of the state as it found it: the stack of running
    generators, the sources, the depths and the saved depths, the buffers of eager
    bodies. The components behind the interfaces are assumed to do the same; their
    [generator_next] is one of these methods. *)
Theorem generator_methods_keep_frame `{External} `{!ExternalOrder} `{!Platform} `{!Formats} `{!Calls} `{!Estimates}
    `{!Environment} `{!Host} `{!FrameLaws} depth bound fuel s v m vs :
  counters_ok s ->
  let r := generator_method (eval_stmt depth) bound fuel s v m vs in r.2 = Panic \/ frame s r.1.
Proof. apply generator_method_framed, statements_framed. Qed.

(** ** The gate

    Where yields stand, read off Python's syntax: the operands that an expression
    evaluates in the scope it stands in (a comprehension its first iterable, a lambda the
    defaults of its parameters), the expressions of a statement outside its blocks, and
    its blocks. The flags mark the sites the scan of a body looks at; patterns hold no
    yields. *)

Definition scanned {A} : list A -> list (bool * A) := map (pair true).
Definition unscanned {A} : list A -> list (bool * A) := map (pair false).
Definition defaults (args : Arguments) : list PyExpr :=
  let '(mkArguments posonly args kwonly _ _) := args in
  omap (fun a => let '(mkArgument _ _ default) := a in default) (posonly ++ args ++ kwonly).
Definition first_iterable (generators : list Comprehension) : list PyExpr :=
  match generators with mkComprehension _ iter _ _ :: _ => [iter] | [] => [] end.

Definition is_yield (e : PyExpr) : bool := match e with EYield _ | EYieldFrom _ => true | _ => false end.

Definition operands (e : PyExpr) : list (bool * PyExpr) :=
  match e with
  | EConstant _ | EName _ | EYield _ | EYieldFrom _ => []
  | EBinOp l _ r | ESubscript l r => scanned [l; r]
  | EUnaryOp _ e | EAttribute e _ | EStarred e => scanned [e]
  | ECompare l _ es => scanned (l :: es)
  | EBoolOp _ es | ETuple es | EList es | ESet es | EJoinedStr es => scanned es
  | EIfExp test body orelse => scanned [test; body; orelse]
  | ENamedExpr target value => unscanned [target] ++ scanned [value]
  | EDict items => scanned (map snd items ++ omap fst items)
  | ECall f es ks => scanned (f :: es ++ map snd ks)
  | EFormattedValue e _ spec => scanned [e] ++ unscanned (option_list spec)
  | ELambda args _ => unscanned (defaults args)
  | EListComp _ gs | ESetComp _ gs | EDictComp _ _ gs | EGeneratorExp _ gs => unscanned (first_iterable gs)
  | EAwait e => unscanned [e]
  | ESlice l u t => unscanned (option_list l ++ option_list u ++ option_list t)
  end.

Definition with_exprs (items : list WithItem) : list PyExpr :=
  flat_map (fun item => context_expr item :: option_list (optional_vars item)) items.

Definition headers (st : PyStmt) : list (bool * PyExpr) :=
  let '(At _ node) := st in
  match node with
  | SExpr e => scanned [e]
  | SAssign targets value => scanned (value :: targets)
  | SAugAssign target _ value => scanned [value; target]
  | SAnnAssign target annotation value => unscanned [target; annotation] ++ scanned (option_list value)
  | SReturn value => scanned (option_list value)
  | SIf test _ _ | SWhile test _ _ => scanned [test]
  | SFor target iter _ _ => unscanned [target] ++ scanned [iter]
  | SAsyncFor target iter _ _ => unscanned [target; iter]
  | SRaise exc cause => scanned (option_list exc ++ option_list cause)
  | SAssert test msg => unscanned (test :: option_list msg)
  | STry _ _ handlers _ _ => unscanned (omap (fun h => let '(mkExceptHandler type_ _ _) := h in type_) handlers)
  | SWith items _ | SAsyncWith items _ => unscanned (with_exprs items)
  | SMatch subject cases => unscanned (subject :: omap (fun c => let '(mkCase _ guard _) := c in guard) cases)
  | SFunctionDef (mkFunction _ args _ decorators returns) | SAsyncFunctionDef (mkFunction _ args _ decorators returns) =>
      unscanned (decorators ++ defaults args ++ option_list returns)
  | SClassDef _ bases keywords _ decorators => unscanned (decorators ++ bases ++ map snd keywords)
  | SDelete targets => unscanned targets
  | STypeAlias name value => unscanned [name; value]
  | SBreak | SContinue | SImport _ | SImportFrom _ _ _ | SGlobal _ | SNonlocal _ | SPass => []
  end.

Definition blocks (st : PyStmt) : list (bool * list PyStmt) :=
  let '(At _ node) := st in
  match node with
  | SIf _ body orelse | SFor _ _ body orelse | SWhile _ body orelse => scanned [body; orelse]
  | SAsyncFor _ _ body orelse => unscanned [body; orelse]
  | STry star body handlers orelse finalbody =>
      (if star then unscanned else scanned)
        (body :: orelse :: finalbody :: map (fun h => let '(mkExceptHandler _ _ body) := h in body) handlers)
  | SWith _ body => scanned [body]
  | SAsyncWith _ body => unscanned [body]
  | SMatch _ cases => scanned (map (fun c => let '(mkCase _ _ body) := c in body) cases)
  | _ => []
  end.

(** A yield somewhere in the scope of an expression or a statement. *)
Inductive yields_expr : PyExpr -> Prop :=
| yields_itself e : is_yield e = true -> yields_expr e
| yields_operand e at_ x : List.In (at_, x) (operands e) -> yields_expr x -> yields_expr e.

Inductive yields : PyStmt -> Prop :=
| yields_header st at_ e : List.In (at_, e) (headers st) -> yields_expr e -> yields st
| yields_block st at_ stmts x : List.In (at_, stmts) (blocks st) -> List.In x stmts -> yields x -> yields st.

(** A yield at a site that the scan does not look at. *)
Inductive hides_expr : PyExpr -> Prop :=
| hides_operand e x : List.In (false, x) (operands e) -> yields_expr x -> hides_expr e
| hides_below e at_ x : List.In (at_, x) (operands e) -> hides_expr x -> hides_expr e.

Inductive hides : PyStmt -> Prop :=
| hides_header st e : List.In (false, e) (headers st) -> yields_expr e -> hides st
| hides_in_header st at_ e : List.In (at_, e) (headers st) -> hides_expr e -> hides st
| hides_block st stmts x : List.In (false, stmts) (blocks st) -> List.In x stmts -> yields x -> hides st
| hides_in_block st at_ stmts x : List.In (at_, stmts) (blocks st) -> List.In x stmts -> hides x -> hides st.

(** What the evaluator of statements may be handed: anything that does not yield, and
    statements without blocks. *)
Definition whole (st : PyStmt) : Prop := ~ yields st \/ blocks st = [].

Lemma in_flagged {A} (b b' : bool) (x : A) xs : List.In (b, x) (map (pair b') xs) -> b = b' /\ List.In x xs.
Proof. intros (y & [= -> ->] & I)%in_map_iff. done. Qed.

Ltac sites I := unfold scanned, unscanned in I;
  repeat match type of I with
  | List.In _ (_ ++ _) => apply in_app_or in I as [I|I]
  | List.In (_, _) (map (pair _) _) => apply in_flagged in I as [? I]
  | List.In _ (option_list ?o) => destruct o; [destruct I as [I|[]]|destruct I]
  | List.In _ (_ :: _) => destruct I as [I|I]
  | List.In _ [] => destruct I
  end; try discriminate; subst.

Lemma existsb_in {A} (p : A -> bool) x xs : List.In x xs -> p x = true -> existsb p xs = true.
Proof. intros I Q. apply existsb_exists. eauto. Qed.

Lemma in_omap {A B} (f : A -> option B) y xs : List.In y (omap f xs) -> exists x, List.In x xs /\ f x = Some y.
Proof. intros (x & I & E)%list_elem_of_In%list_elem_of_omap. exists x. by rewrite <- list_elem_of_In. Qed.

(** The scan sees the yields of the sites marked. *)
Lemma operand_seen e x : List.In (true, x) (operands e) -> contains_yield_expr x = true -> contains_yield_expr e = true.
Proof.
  intros I Y. destruct e; cbn [operands] in I; try done; sites I; cbn [contains_yield_expr];
    try (by rewrite Y, ?orb_true_r); try (by rewrite (existsb_in _ _ _ I Y), ?orb_true_r).
  - apply in_map_iff in I as (kv & <- & I). by rewrite (existsb_in (fun kv => contains_yield_expr kv.2) _ _ I Y).
  - apply in_omap in I as (kv & I & E). apply orb_true_iff. right. eapply existsb_in; [exact I|]. cbn. by rewrite E.
  - apply in_map_iff in I as (kv & <- & I). by rewrite (existsb_in (fun kv => contains_yield_expr kv.2) _ _ I Y), ?orb_true_r.
Qed.

Lemma yield_seen e : yields_expr e -> ~ hides_expr e -> contains_yield_expr e = true.
Proof.
  induction 1 as [[] Q|e [] x I Y IH]; intros Hidden; try done.
  - apply (operand_seen e x I), IH. intros Hx. apply Hidden. by eapply hides_below.
  - destruct Hidden. by eapply hides_operand.
Qed.

Lemma header_seen st e : List.In (true, e) (headers st) -> contains_yield_expr e = true -> contains_yield_stmt st = true.
Proof.
  intros I Y. destruct st as [start node]. destruct node; try destruct def; cbn [headers] in I; try done; sites I;
    cbn [contains_yield_stmt opt_yields]; try (by rewrite Y, ?orb_true_r); try (by rewrite (existsb_in _ _ _ I Y), ?orb_true_r).
Qed.

Lemma block_seen st stmts x : List.In (true, stmts) (blocks st) -> List.In x stmts -> contains_yield_stmt x = true ->
  contains_yield_stmt st = true.
Proof.
  intros I Ix Y. pose proof (existsb_in _ _ _ Ix Y) as E. destruct st as [start node].
  destruct node; try destruct star; cbn [blocks] in I; try done; sites I; cbn [contains_yield_stmt];
    try (by rewrite E, ?orb_true_r).
  - apply orb_true_iff. right. apply in_map_iff in I as ([] & <- & I). by eapply existsb_in.
  - apply in_map_iff in I as ([] & <- & I). by eapply existsb_in.
Qed.

Lemma yields_seen st : yields st -> ~ hides st -> contains_yield_stmt st = true.
Proof.
  induction 1 as [st [] e I Y|st [] stmts x I Ix Y IH]; intros H.
  - apply (header_seen st e I), (yield_seen e Y). intros He. apply H. by eapply hides_in_header.
  - destruct H. by eapply hides_header.
  - apply (block_seen st stmts x I Ix), IH. intros Hx. apply H. by eapply hides_in_block.
  - destruct H. by eapply hides_block.
Qed.

(** What the steppers hand over, as the scan sees it. *)
Definition scanned_whole (st : PyStmt) : bool :=
  negb (contains_yield_stmt st) ||
  match st with
  | At _ (SIf _ _ _) | At _ (SFor _ _ _ _) | At _ (SWhile _ _ _) | At _ (STry _ _ _ _ _) | At _ (SWith _ _)
  | At _ (SMatch _ _) => false
  | _ => true
  end.

Lemma scanned_is_whole st : ~ hides st -> scanned_whole st = true -> whole st.
Proof.
  intros H W. unfold scanned_whole in W. destruct (contains_yield_stmt st) eqn:Y.
  - right. by destruct st as [start []].
  - left. intros C. by rewrite (yields_seen st C H) in Y.
Qed.

Lemma block_visible st at_ stmts x : ~ hides st -> List.In (at_, stmts) (blocks st) -> List.In x stmts -> ~ hides x.
Proof. intros H I Ix Hx. apply H. by eapply hides_in_block. Qed.

Lemma max_of_le_in {A} (f : A -> nat) xs x : List.In x xs -> (f x <= max_of f xs)%nat.
Proof. intros I. apply max_of_elem. by apply list_elem_of_In. Qed.

(** Induction on statements by the depth of their blocks. *)
Lemma stmt_depth_ind (P : PyStmt -> Prop) :
  (forall st, (forall st', (stmt_height st' < stmt_height st)%nat -> P st') -> P st) -> forall st, P st.
Proof.
  intros Step st. assert (forall n st, (stmt_height st <= n)%nat -> P st) as All; [|by apply (All (stmt_height st))].
  induction n as [|n IH]; intros st' L; apply Step; intros st'' L'; [lia|]. apply IH. lia.
Qed.

Lemma forallb_mono {A} (p q : A -> bool) xs :
  (forall x, List.In x xs -> p x = true -> q x = true) -> forallb p xs = true -> forallb q xs = true.
Proof. rewrite !forallb_forall. auto. Qed.

Lemma none_yields {A} (p : A -> bool) (q : A -> bool) xs :
  (forall x, List.In x xs -> p x = false -> q x = true) -> existsb p xs = false -> forallb q xs = true.
Proof.
  intros M N. apply forallb_forall. intros x I. apply M; [done|]. destruct (p x) eqn:E; [|done].
  assert (existsb p xs = true) as C by (apply existsb_exists; eauto). congruence.
Qed.

Ltac heights := cbn [stmt_height node_height];
  repeat match goal with I : List.In ?x ?xs |- context [max_of ?f ?xs] =>
    pose proof (max_of_le_in f xs x I); clear I end; lia.

(** A statement without yields passes every gate, and the gate of loops is the
    stricter one. *)
Lemma quiet_loop_nest st : contains_yield_stmt st = false -> loop_nest_stmt st = true.
Proof.
  induction st as [[start node] IH] using stmt_depth_ind. intros Q. destruct node; try done; cbn [loop_nest_stmt];
    try (rewrite Q; done).
  cbn [contains_yield_stmt] in Q. apply orb_false_elim in Q as [Q Q2]. apply orb_false_elim in Q as [_ Q1].
  apply andb_true_intro. split; (eapply none_yields; [|eassumption]); intros x I; apply IH; heights.
Qed.

Lemma loop_nest_if_branch st : loop_nest_stmt st = true -> if_branch_stmt st = true.
Proof.
  induction st as [[start node] IH] using stmt_depth_ind. intros Q. destruct node; try done.
  - cbn [loop_nest_stmt if_branch_stmt] in *. apply andb_prop in Q as [Q1 Q2].
    apply andb_true_intro. split; (eapply forallb_mono; [|eassumption]); intros x I; apply IH; heights.
  - destruct star; [done|]. cbn [loop_nest_stmt] in Q. apply negb_true_iff in Q. cbn [contains_yield_stmt if_branch_stmt] in *.
    repeat (apply orb_false_elim in Q as [Q ?]). repeat (apply andb_true_intro; split);
      (eapply none_yields; [|eassumption]).
    1-3: intros x I N; apply IH; [heights|by apply quiet_loop_nest].
    intros [ty name b] I N. eapply none_yields; [|exact N]. intros x Ix Nx.
    apply IH; [|by apply quiet_loop_nest].
    pose proof (max_of_le_in handler_height _ _ I) as Hh. pose proof (max_of_le_in stmt_height _ _ Ix) as Hx.
    cbn [handler_height] in Hh. clear I Ix. heights.
Qed.

Lemma quiet_if_branch st : contains_yield_stmt st = false -> if_branch_stmt st = true.
Proof. intros Q. by apply loop_nest_if_branch, quiet_loop_nest. Qed.

(** A compound statement the gate admits for stepping. *)
Definition admitted (st : PyStmt) : bool :=
  match st with At _ (SWith _ body) => if_branch_suspendable body | _ => if_branch_stmt st end.

Lemma if_branch_admitted st : if_branch_stmt st = true -> admitted st = true.
Proof.
  destruct st as [start []]; try done. cbn [if_branch_stmt admitted]. intros Q. apply negb_true_iff in Q.
  cbn [contains_yield_stmt] in Q. eapply none_yields; [|exact Q]. intros. by apply quiet_if_branch.
Qed.

(** What each block executes in one go, given what the gate admits there. *)
Lemma loop_executes st : loop_nest_stmt st = true -> loop_delegated st = false -> scanned_whole st = true.
Proof.
  destruct st as [start node]. unfold loop_delegated, contains_yield_stmts, scanned_whole. cbn [existsb]. rewrite orb_false_r.
  destruct (contains_yield_stmt _) eqn:Y; [|done]. intros G D.
  destruct node; try done; cbn [loop_nest_stmt] in G; rewrite ?Y in G; try done; exfalso;
    apply andb_prop in G as [G1 G2]; cbn in D; unfold loop_nest_suspendable in D; rewrite ?G1, ?G2 in D; done.
Qed.

Lemma phase_executes st : if_branch_stmt st = true -> phase_delegated st = false -> scanned_whole st = true.
Proof.
  destruct st as [start node]. unfold phase_delegated, loop_delegated, contains_yield_stmts, scanned_whole. cbn [existsb].
  rewrite orb_false_r. destruct (contains_yield_stmt _) eqn:Y; [|done]. intros G D.
  destruct node; try destruct star; try done; cbn [if_branch_stmt] in G; rewrite ?Y in G; try done; exfalso;
    apply andb_prop in G as [G1 G2]; cbn in D; unfold if_branch_suspendable in D; rewrite ?G1, ?G2 in D; done.
Qed.

Lemma branch_executes st : if_branch_stmt st = true -> branch_delegated st = false -> scanned_whole st = true.
Proof.
  destruct st as [start node]. unfold branch_delegated, loop_delegated, contains_yield_stmts, scanned_whole. cbn [existsb].
  rewrite orb_false_r. destruct (contains_yield_stmt _) eqn:Y; [|done]. intros G D.
  destruct node; try destruct star; try done; cbn [if_branch_stmt] in G; rewrite ?Y in G; try done; exfalso;
    apply andb_prop in G as [G1 G2]; cbn in D; rewrite ?G1, ?G2 in D; done.
Qed.

Lemma while_executes st : loop_nest_stmt st = true -> while_body_delegated st = false -> scanned_whole st = true.
Proof.
  intros G D. apply loop_executes; [done|]. destruct st as [start []]; try done; unfold loop_delegated; by rewrite andb_false_r.
Qed.

Lemma with_executes st : if_branch_stmt st = true -> with_delegated st = false -> scanned_whole st = true.
Proof.
  intros G D. apply phase_executes; [done|]. by destruct st as [start []].
Qed.

Lemma in_drop {A} (x : A) i xs : List.In x (drop i xs) -> List.In x xs.
Proof. intros I. rewrite <- (take_drop i xs). apply in_or_app. by right. Qed.

Lemma quiet_block q stmts : (forall st, contains_yield_stmt st = false -> q st = true) ->
  existsb contains_yield_stmt stmts = false -> forall st, List.In st stmts -> q st = true.
Proof. intros Q N st I. exact (proj1 (forallb_forall q stmts) (none_yields _ _ _ (fun x _ => Q x) N) st I). Qed.

(** The statements of a loop that the gate admits in a branch. *)
Lemma for_body_nest start target it b o : if_branch_stmt (At start (SFor target it b o)) = true ->
  forall st, List.In st b -> loop_nest_stmt st = true.
Proof.
  cbn [if_branch_stmt]. intros G. apply orb_prop in G as [Q|G].
  - apply negb_true_iff in Q. cbn [contains_yield_stmt] in Q. apply orb_false_elim in Q as [Q _].
    apply orb_false_elim in Q as [_ Q]. by apply (quiet_block _ _ quiet_loop_nest).
  - apply andb_prop in G as [_ G]. by apply forallb_forall.
Qed.

Lemma while_body_nest start test b o : if_branch_stmt (At start (SWhile test b o)) = true ->
  forall st, List.In st b -> loop_nest_stmt st = true.
Proof.
  cbn [if_branch_stmt]. intros G. apply orb_prop in G as [Q|G].
  - apply negb_true_iff in Q. cbn [contains_yield_stmt] in Q. apply orb_false_elim in Q as [Q _].
    apply orb_false_elim in Q as [_ Q]. by apply (quiet_block _ _ quiet_loop_nest).
  - apply andb_prop in G as [_ G]. by apply forallb_forall.
Qed.

Section Agreement.
Context `{External} `{!ExternalOrder} `{!Platform} `{!Formats} `{!Calls} `{!Estimates} `{!Environment} `{!Host}.
Variables exec exec' : InterpreterState -> PyStmt -> Eval Value.
(** What the scan sees of the statements that are run: any statement when nothing is asked. *)
Variable visible : PyStmt -> Prop.
Hypothesis visible_block : forall st at_ stmts x,
  visible st -> List.In (at_, stmts) (blocks st) -> List.In x stmts -> visible x.
Hypothesis exec_agree : forall s st, visible st -> scanned_whole st = true -> exec s st = exec' s st.
Variable dispatch : InterpreterState -> Value -> string -> list Value -> Eval Value.
Variable bound : nat.

Section Nested.
Variables nested nested' : InterpreterState -> PyStmt -> Eval ().

(** The two runs of a block agree when they do on what is delegated and execute only
    whole statements. *)
Definition block_agrees (delegated : PyStmt -> bool) (stmts : list PyStmt) : Prop :=
  forall st, List.In st stmts ->
    (delegated st = true -> forall s, nested s st = nested' s st) /\ (delegated st = false -> visible st /\ scanned_whole st = true).

Lemma step_block_agree delegated record stmts : block_agrees delegated stmts -> forall s i,
  step_block exec nested delegated record s i stmts = step_block exec' nested' delegated record s i stmts.
Proof.
  induction stmts as [|st stmts IH]; intros B s i; cbn [step_block]; [done|].
  destruct (B st (or_introl eq_refl)) as [Bn Bw].
  assert ((if delegated st then nested s st else let? (s, _) := exec s st in done s (Ok ())) =
          (if delegated st then nested' s st else let? (s, _) := exec' s st in done s (Ok ()))) as E.
  { destruct (delegated st); [by apply Bn|]. destruct (Bw eq_refl). by rewrite exec_agree by done. }
  rewrite E. clear E. destruct (if delegated st then _ else _) as [s1 [v|[e|[]|e]|]]; try done.
  apply IH. intros x I. apply B. by right.
Qed.

Lemma block_agrees_drop delegated i stmts : block_agrees delegated stmts -> block_agrees delegated (drop i stmts).
Proof. intros B st I. by apply B, (in_drop _ i). Qed.

Lemma loop_pass_agree delegated record body : block_agrees delegated body -> forall s i,
  loop_pass exec nested delegated record s i body = loop_pass exec' nested' delegated record s i body.
Proof. intros B s i. unfold loop_pass. by rewrite step_block_agree by by apply block_agrees_drop. Qed.

Lemma for_rounds_agree target t body items rest : block_agrees loop_delegated body -> forall s pos i,
  for_rounds exec nested s target t body items rest pos i = for_rounds exec' nested' s target t body items rest pos i.
Proof.
  intros B. induction rest as [|item rest IH]; intros s pos i; cbn [for_rounds]; [done|].
  destruct (if (i =? 0)%nat then _ else _) as [s1 [v|e|]]; cbn; [|done..].
  rewrite loop_pass_agree by done. destruct (loop_pass _ _ _ _ _ _ _) as [s2 [[]|e|]]; cbn; [done|apply IH|done..].
Qed.

Lemma lazy_rounds_agree target t body source : block_agrees loop_delegated body -> forall n s current i,
  lazy_rounds exec dispatch nested n s target t body source current i =
  lazy_rounds exec' dispatch nested' n s target t body source current i.
Proof.
  intros B n. induction n as [|n IH]; intros s current i; cbn [lazy_rounds]; [done|].
  destruct current as [item|].
  - rewrite loop_pass_agree by done. destruct (loop_pass _ _ _ _ _ _ _) as [s2 [[]|e|]]; cbn; [done|apply IH|done..].
  - destruct (dispatch s source "__next__" []) as [s1 [v|e|]]; [|done..].
    destruct (assign_target s1 t v) as [s2 [u|e|]]; cbn; [|done..].
    rewrite loop_pass_agree by done. destruct (loop_pass _ _ _ _ _ _ _) as [s3 [[]|e|]]; cbn; [done|apply IH|done..].
Qed.

Lemma while_passes_agree key test body : block_agrees while_body_delegated body -> forall n s resuming i,
  while_passes exec nested n s key test body resuming i = while_passes exec' nested' n s key test body resuming i.
Proof.
  intros B n. induction n as [|n IH]; intros s resuming i; cbn [while_passes]; [done|].
  match goal with |- (let? (s, go) := ?m in _) = _ => destruct m as [s1 [[]|e|]] end; cbn; [|done..].
  rewrite loop_pass_agree by done. destruct (loop_pass _ _ _ _ _ _ _) as [s2 [[]|e|]]; cbn; [done|apply IH|done..].
Qed.

Lemma after_phase_agree r finish finish' : (forall s e, finish s e = finish' s e) -> after_phase r finish = after_phase r finish'.
Proof. intros F. unfold after_phase. destruct r as [s [v|[e|[]|e]|]]; try done; apply F. Qed.

Lemma try_phase_agree phase s i stmts : block_agrees phase_delegated stmts ->
  step_try_phase exec nested phase s i stmts = step_try_phase exec' nested' phase s i stmts.
Proof. intros B. by apply step_block_agree, block_agrees_drop. Qed.

Lemma finish_try_agree s f p : block_agrees phase_delegated f ->
  finish_try exec nested s f p = finish_try exec' nested' s f p.
Proof. intros B. unfold finish_try. by rewrite try_phase_agree. Qed.

Lemma finish_handler_agree f name s p : block_agrees phase_delegated f ->
  finish_handler exec nested f name s p = finish_handler exec' nested' f name s p.
Proof. apply finish_try_agree. Qed.

Lemma enter_handler_agree exc err f hs : block_agrees phase_delegated f ->
  (forall h, List.In h hs -> block_agrees phase_delegated match h with mkExceptHandler _ _ b => b end) ->
  forall s h, enter_handler exec nested s exc err f h hs = enter_handler exec' nested' s exc err f h hs.
Proof.
  intros F. induction hs as [|[ty name body] hs IH]; intros B s h; cbn [enter_handler]; [by apply finish_try_agree|].
  match goal with |- context [@matches_handler ?a ?b (walk_evaluator exec) ?c ?d ?e] =>
    change (@matches_handler a b (walk_evaluator exec) c d e) with (@matches_handler a b (walk_evaluator exec') c d e);
    destruct (@matches_handler a b (walk_evaluator exec') c d e) as [s1 [[]|e1|]] end; cbn [and_then negb]; try done.
  - destruct (bind_name size s1 name exc) as [s2 [u|e2|]]; cbn [and_then]; try done.
    rewrite try_phase_agree by exact (B _ (or_introl eq_refl)).
    apply after_phase_agree. intros. by apply finish_handler_agree.
  - apply IH. intros h' I. apply B. by right.
Qed.

Lemma run_try_body_agree s i b hs o f : block_agrees phase_delegated b -> block_agrees phase_delegated o ->
  block_agrees phase_delegated f ->
  (forall h, List.In h hs -> block_agrees phase_delegated match h with mkExceptHandler _ _ b => b end) ->
  run_try_body exec nested s i b hs o f = run_try_body exec' nested' s i b hs o f.
Proof.
  intros B O F Hs. unfold run_try_body, enter_or_propagate. rewrite try_phase_agree by done.
  apply after_phase_agree. intros s1 [e|].
  - destruct (error_exception e); [by apply enter_handler_agree|by apply finish_try_agree].
  - rewrite try_phase_agree by done. apply after_phase_agree. intros. by apply finish_try_agree.
Qed.

Lemma run_try_agree s b hs o f : block_agrees phase_delegated b -> block_agrees phase_delegated o ->
  block_agrees phase_delegated f ->
  (forall h, List.In h hs -> block_agrees phase_delegated match h with mkExceptHandler _ _ b => b end) ->
  run_try_suspendable exec nested s b hs o f = run_try_suspendable exec' nested' s b hs o f.
Proof.
  intros B O F Hs. unfold run_try_suspendable. destruct (pop_try_resume s) as [s1 [[[] i]|]].
  - by apply run_try_body_agree.
  - destruct (hs !! index) as [[ty name hb]|] eqn:L; [|done].
    apply list_elem_of_lookup_2, list_elem_of_In in L. rewrite try_phase_agree by exact (Hs _ L).
    apply after_phase_agree. intros. by apply finish_handler_agree.
  - rewrite try_phase_agree by done. apply after_phase_agree. intros. by apply finish_try_agree.
  - by apply try_phase_agree.
  - by apply run_try_body_agree.
Qed.

Lemma run_if_agree s test body orelse : block_agrees branch_delegated body -> block_agrees branch_delegated orelse ->
  run_if_suspendable exec nested s test body orelse = run_if_suspendable exec' nested' s test body orelse.
Proof.
  intros B O. unfold run_if_suspendable. destruct (pop_if_resume s) as [s1 saved].
  match goal with |- (let? (s, at_) := ?m in _) = _ => destruct m as [s2 [[[] i]|e|]] end; cbn [and_then]; try done;
    by apply step_block_agree, block_agrees_drop.
Qed.

Lemma run_with_agree s items body : block_agrees with_delegated body ->
  run_with_suspendable exec nested s items body = run_with_suspendable exec' nested' s items body.
Proof.
  intros B. unfold run_with_suspendable. destruct (pop_with_resume s) as [s1 saved].
  match goal with |- (let? (s, at_) := ?m in _) = _ => destruct m as [s2 [[i ms]|e|]] end; cbn [and_then]; try done.
  by rewrite step_block_agree by by apply block_agrees_drop.
Qed.

Lemma run_for_agree s t it body target : block_agrees loop_delegated body ->
  run_for_suspendable exec dispatch bound nested s t it body target =
  run_for_suspendable exec' dispatch bound nested' s t it body target.
Proof.
  intros B. unfold run_for_suspendable. destruct (for_resume s target) as [fs|].
  - destruct (fs_lazy_source fs); [by apply lazy_rounds_agree|by apply for_rounds_agree].
  - destruct (eval_resolved eval_expr s it) as [s1 [v|e|]]; cbn [and_then]; try done.
    destruct v; try (by apply lazy_rounds_agree);
      (destruct (iter nesting s1 _) as [s2 [vs|e2|]]; cbn [and_then]; try done; by apply for_rounds_agree).
Qed.

(** The statements of an admitted compound statement are stepped by steppers that
    agree, or executed whole. *)
Lemma run_compound_agree s st : admitted st = true -> visible st ->
  (forall st', (stmt_height st' < stmt_height st)%nat -> admitted st' = true -> visible st' ->
    forall s, nested s st' = nested' s st') ->
  run_compound exec dispatch bound nested s st = run_compound exec' dispatch bound nested' s st.
Proof.
  intros G Vis Below.
  assert (forall q delegated b, (forall x, q x = true -> if_branch_stmt x = true) ->
    (forall x, q x = true -> delegated x = false -> scanned_whole x = true) -> List.In b (map snd (blocks st)) ->
    (forall x, List.In x b -> q x = true) -> (forall x, List.In x b -> (stmt_height x < stmt_height st)%nat) ->
    block_agrees delegated b) as Block.
  { intros q delegated b Q W ([at_ b'] & <- & Ib)%in_map_iff All Low x I. pose proof (visible_block st at_ b' x Vis Ib I) as V.
    split; [intros _; apply Below; [by apply Low|by apply if_branch_admitted, Q, All|done]|].
    intros D. split; [done|]. by apply W; [apply All|]. }
  pose proof (fun x => Block _ phase_delegated x (fun _ H => H) phase_executes) as Phase.
  destruct st as [start node]. destruct node; try destruct star; try done; cbn [run_compound].
  - apply andb_prop in G as [G1 G2].
    apply run_if_agree; (apply (Block _ branch_delegated _ (fun _ H => H) branch_executes);
      [cbn; tauto|by apply forallb_forall|intros x I; heights]).
  - apply run_for_agree, (Block _ loop_delegated _ loop_nest_if_branch loop_executes); [cbn; tauto|by eapply for_body_nest|intros x I; heights].
  - assert (block_agrees while_body_delegated body) as B.
    { apply (Block _ while_body_delegated _ loop_nest_if_branch while_executes); [cbn; tauto|by eapply while_body_nest|intros x I; heights]. }
    unfold run_while_suspendable. destruct (while_saved s start); by apply while_passes_agree.
  - cbn [admitted if_branch_stmt] in G. repeat (apply andb_prop in G as [G ?]).
    apply run_try_agree; [apply Phase..|]; try (cbn; tauto); try (by apply forallb_forall); try (intros x I; heights).
    intros [ty name b] I. apply Phase.
    + cbn [blocks]. unfold scanned. rewrite map_map, (map_ext _ id), map_id by done. do 3 right. exact (in_map (fun h => let '(mkExceptHandler _ _ body) := h in body) _ _ I).
    + apply forallb_forall. exact (proj1 (forallb_forall _ _) ltac:(eassumption) _ I).
    + intros x Ix. pose proof (max_of_le_in handler_height _ _ I) as Hh. pose proof (max_of_le_in stmt_height _ _ Ix) as Hx.
      cbn [handler_height] in Hh. clear I Ix. heights.
  - apply run_with_agree, (Block _ with_delegated _ (fun _ H => H) with_executes); [cbn; tauto|by apply forallb_forall|intros x I; heights].
Qed.
End Nested.

(** The depth of nesting is enough for the steppers, and what they execute is
    whole. *)
Lemma run_suspendable_agree st : admitted st = true -> visible st -> forall n m s, (stmt_height st <= n)%nat -> (stmt_height st <= m)%nat ->
  run_suspendable exec dispatch bound n s st = run_suspendable exec' dispatch bound m s st.
Proof.
  induction st as [st IH] using stmt_depth_ind. intros G Vis n m s Ln Lm.
  assert (0 < stmt_height st)%nat as Pos by (destruct st; cbn; lia).
  destruct n as [|n]; [lia|]. destruct m as [|m]; [lia|]. cbn [run_suspendable].
  apply run_compound_agree; [done..|]. intros st' L G' V' s'. apply IH; [done..|lia|lia].
Qed.

Lemma top_delegated_admitted st : top_level_suspendable st = true -> top_delegated st = true -> admitted st = true.
Proof.
  unfold top_level_suspendable, top_delegated, contains_yield_stmts. cbn [existsb]. rewrite orb_false_r.
  destruct (contains_yield_stmt st) eqn:Y; cbn [negb]; [|intros _ _; by apply if_branch_admitted, quiet_if_branch].
  destruct st as [start node]. destruct node; try destruct star; try done; cbn [admitted]; intros G D; rewrite ?Y, ?andb_true_r in *; try done.
  - apply orb_true_intro. right. unfold for_delegatable. by destruct (for_name_target target).
  - apply orb_true_intro. by right.
Qed.

Lemma top_executes st : top_level_suspendable st = true -> top_delegated st = false -> scanned_whole st = true.
Proof.
  unfold top_level_suspendable, top_delegated, contains_yield_stmts, scanned_whole. cbn [existsb]. rewrite orb_false_r.
  destruct (contains_yield_stmt st) eqn:Y; cbn [negb orb]; [|done].
  destruct st as [start node]. destruct node; try destruct star; try done; rewrite ?Y, ?andb_true_r; try congruence.
  destruct (for_name_target target); done.
Qed.

Lemma run_body_agree stmts : generator_suspendable stmts = true -> Forall visible stmts -> forall s i,
  run_generator_body exec dispatch bound s i stmts = run_generator_body exec' dispatch bound s i stmts.
Proof.
  unfold generator_suspendable. induction stmts as [|st stmts IH]; intros G Vis s i; [done|].
  cbn [forallb] in G. apply andb_prop in G as [G Gs]. apply Forall_cons in Vis as [Vis Viss]. cbn [run_generator_body]. destruct (top_delegated st) eqn:D.
  - rewrite (run_suspendable_agree st) with (m := stmt_height st) by (try done; by apply top_delegated_admitted).
    destruct (run_suspendable _ _ _ _ _ _) as [s1 [v|e|]]; try done. by apply IH.
  - rewrite exec_agree by (try done; by apply top_executes). destruct (exec' s st) as [s1 [v|[e|[]|e]|]]; try done. by apply IH.
Qed.
End Agreement.

(** C7: The gate of suspended generators is sound for the yields its scan can see: when
    no yield of the body stands at a site the scan passes over (below [hides]: the body
    of a [try] with [except*], a [with] header, a [match] subject or guard, an
    [assert], a slice, ...), then from any state and any statement on the body runs the
    same whatever the evaluator does with the compound statements that yield. None of
    them ever reaches the evaluator, which could not resume it: each one goes to its
    stepper, however deep it is nested, and the steppers execute in one go only
    statements without a yield anywhere in them, or without blocks. The lemma after it
    shows that the condition on the sites cannot be dropped. *)
Theorem gate_admits_resumable_bodies `{External} `{!ExternalOrder} `{!Platform} `{!Formats} `{!Calls} `{!Estimates}
    `{!Environment} `{!Host} exec exec' dispatch bound body (i : nat) s :
  generator_suspendable body = true ->
  Forall (fun st => ~ hides st) body ->
  (forall s st, whole st -> exec s st = exec' s st) ->
  run_generator_body exec dispatch bound s i (drop i body) = run_generator_body exec' dispatch bound s i (drop i body).
Proof.
  intros G Vis A. apply (run_body_agree exec exec' (fun st => ~ hides st)); [exact block_visible|..|by apply Forall_drop].
  { intros s' st V W. by apply A, scanned_is_whole. }
  unfold generator_suspendable in *. rewrite forallb_forall in *.
  intros st I. by apply G, (in_drop _ i).
Qed.

(** A [try] with [except*] whose body yields is admitted, and goes to the evaluator. *)
Lemma group_try_reaches_evaluator `{External} `{!ExternalOrder} `{!Platform} `{!Formats} `{!Calls} `{!Estimates}
    `{!Environment} `{!Host} :
  let st := At 0 (STry true [At 0 (SExpr (EYield None))] [] [] []) in
  generator_suspendable [At 0 (SExpr (EYield None)); st] = true /\ yields st /\ blocks st <> [] /\
  forall dispatch bound s, run_generator_body (fun s _ => (s, Panic)) dispatch bound s 0 [st] = (0%nat, (s, Panic)).
Proof.
  cbv zeta. split; [done|]. split; [|done].
  eapply (yields_block _ false [At 0 (SExpr (EYield None))]); [by left|by left|].
  eapply (yields_header _ true); [by left|by apply yields_itself].
Qed.

(** The steppers go no deeper than the blocks of the statement: with any depth at
    least that of its nesting, the stepper of an admitted statement does the same,
    so the depth that a body's run starts it with is enough. *)
Theorem stepper_depth_suffices `{External} `{!ExternalOrder} `{!Platform} `{!Formats} `{!Calls} `{!Estimates}
    `{!Environment} `{!Host} exec dispatch bound st (n : nat) s :
  admitted st = true -> (stmt_height st <= n)%nat ->
  run_suspendable exec dispatch bound n s st = run_suspendable exec dispatch bound (stmt_height st) s st.
Proof. intros G L. by apply (run_suspendable_agree exec exec (fun _ => True)). Qed.

(** ** Generators that have ended *)

Section Ended.
Context `{External} `{!ExternalOrder} `{!Platform} `{!Formats} `{!Calls} `{!Estimates} `{!Environment} `{!Host}.

Definition ended (f : GeneratorFrame) : Prop := g_closed f || g_finished f = true.

Lemma update_frame_lookup id g s f : generators (update_frame id g s) !! id = Some f ->
  exists f0, generators s !! id = Some f0 /\ f = g f0.
Proof.
  unfold update_frame. destruct (generators s !! id) as [f0|] eqn:L; [|congruence]. cbn. rewrite lookup_insert_eq.
  intros [= <-]. eauto.
Qed.

(** A step that does not yield ends the generator. *)
Lemma step_ends exec dispatch bound s id v s1 e f :
  step_generator exec dispatch bound s id v = (s1, Err e) -> generators s1 !! id = Some f -> ended f.
Proof.
  unfold step_generator, frame_missing, ended. destruct (generators s !! id) as [f0|] eqn:L; [|intros [= <- <-]; congruence].
  destruct (_ || _) eqn:E; [intros [= <- <-]; congruence|].
  assert (forall s f0, enter_frame exec dispatch bound s id f0 = (s1, Err e) -> generators s1 !! id = Some f ->
    g_closed f || g_finished f = true) as Enter.
  { intros s2 f2. unfold enter_frame. cbv zeta. destruct (run_generator_body _ _ _ _ _ _) as [i [s3 [u|[e3|[]|e3]|]]]; try done;
      intros [= <- <-] L'; apply update_frame_lookup in L' as (f1 & _ & ->); apply orb_true_r. }
  destruct (drain_top f0) as [[[x|] f1]|]; [discriminate|apply Enter..].
Qed.
End Ended.

(** C9: An ended generator stays ended: after a step that raised, by exhaustion or
    otherwise, [next] and [send] raise StopIteration and change nothing, [throw]
    raises what is thrown, and [close] returns; the body never runs again. *)
Theorem ended_generator_stays_ended `{External} `{!ExternalOrder} `{!Platform} `{!Formats} `{!Calls} `{!Estimates}
    `{!Environment} `{!Host} exec dispatch bound s id v s1 e f exec' dispatch' bound' sent exc :
  step_generator exec dispatch bound s id v = (s1, Err e) ->
  generators s1 !! id = Some f -> g_started f = true -> g_delegating_to f = None ->
  dispatch_suspended exec' dispatch' bound' s1 id "__next__" [] = (s1, Err (Exception stop_iteration)) /\
  dispatch_suspended exec' dispatch' bound' s1 id "send" [sent] = (s1, Err (Exception stop_iteration)) /\
  (dispatch_suspended exec' dispatch' bound' s1 id "throw" [VException exc]).2 = Err (Exception exc) /\
  (dispatch_suspended exec' dispatch' bound' s1 id "close" []).2 = Ok VNone.
Proof.
  intros St L Started D. pose proof (step_ends _ _ _ _ _ _ _ _ _ St L) as E. unfold ended in E.
  assert (is_live s1 id = false) as Dead.
  { unfold is_live, live. rewrite L. destruct (g_closed f), (g_finished f); cbn in *; by rewrite ?andb_false_r. }
  unfold dispatch_suspended. cbn [String.eqb Ascii.eqb Bool.eqb orb is_nil head default]. rewrite L. cbn [mbind option_bind].
  rewrite D. unfold throw_into_generator, close_generator, step_generator, thrown_exception. rewrite L. cbn [mbind option_bind and_then].
  rewrite D, E, Started. cbn [negb andb and_then done]. rewrite Dead. by destruct sent.
Qed.

(** A generator not started yet: [send] takes only [None], and neither [throw] nor
    [close] runs its body; both leave the frame ended, [throw] raising what is
    thrown. *)
Theorem fresh_generator_runs_nothing `{External} `{!ExternalOrder} `{!Platform} `{!Formats} `{!Calls} `{!Estimates}
    `{!Environment} `{!Host} exec dispatch bound s0 func_def body locals touched sent exc :
  sent <> VNone ->
  let s := (create_generator s0 func_def body locals touched).1 in
  let id := next_cursor_id s0 in
  let ended_at s1 := exists f, generators s1 !! id = Some f /\ ended f /\ g_body f = body /\ g_locals f = locals in
  let throw := dispatch_suspended exec dispatch bound s id "throw" [VException exc] in
  let close := dispatch_suspended exec dispatch bound s id "close" [] in
  dispatch_suspended exec dispatch bound s id "send" [sent] =
    (s, fail (TypeError "can't send non-None value to a just-started generator")) /\
  throw.2 = Err (Exception exc) /\ variables throw.1 = variables s0 /\ ended_at throw.1 /\
  close.2 = Ok VNone /\ variables close.1 = variables s0 /\ ended_at close.1.
Proof.
  intros NV. cbv zeta. set (s := (create_generator _ _ _ _ _).1). set (id := next_cursor_id s0).
  assert (exists f, generators s !! id = Some f /\ g_started f = false /\ g_delegating_to f = None /\
    g_body f = body /\ g_locals f = locals) as (f & L & St & D & B & Ls)
    by (eexists; cbn; rewrite lookup_insert_eq; repeat split).
  assert (variables s = variables s0) as V by reflexivity. clearbody s.
  unfold dispatch_suspended. cbn [String.eqb Ascii.eqb Bool.eqb orb is_nil head default]. rewrite L. cbn [mbind option_bind].
  rewrite D. unfold throw_into_generator, close_generator, thrown_exception. rewrite L. cbn [mbind option_bind and_then done].
  rewrite D, St. cbn [and_then done negb andb].
  assert (is_live s id = false) as Dead by (unfold is_live, live; by rewrite L, St). rewrite Dead. cbn [negb].
  unfold mark_generator_closed, update_frame, done. rewrite L. cbn. rewrite lookup_insert_eq.
  split; [by destruct sent|]. rewrite V. repeat split; try done;
    rewrite ?lookup_insert_eq; eexists; (split; [done|]); by unfold ended; cbn; auto.
Qed.

(** ** Sample runs *)

Module Runs.

(** An evaluator of names, constants and tuples of them, in which the yield
    expressions are those of the steppers. *)
Definition leaf_eval (s : InterpreterState) (e : PyExpr) : Eval Value :=
  match e with
  | EName n => (s, match variables s !! n with Some v => Ok v | None => fail (name_not_defined n) end)
  | EConstant c => (s, Ok (eval_constant c))
  | ETuple es => (s, Ok (VTuple (map (fun e => match e with EConstant c => eval_constant c | _ => VNone end) es)))
  | _ => (s, fail (Runtime ""))
  end.

#[local] Instance yielding : Host := {|
  host_expr := fun s e => match e with
    | EYield v => eval_yield leaf_eval s v
    | EYieldFrom v =>
        eval_yield_from leaf_eval (fun s _ => (s, fail (Runtime ""))) (fun s _ => (s, fail (Runtime "")))
          (fun s v => match v with VTuple vs => (s, Ok vs) | _ => (s, fail (Runtime "")) end) s v
    | _ => (s, fail (Runtime ""))
    end;
  host_stmt := fun s _ => (s, Ok VNone);
  host_assign := fun s _ _ => (s, Ok ());
  host_aug_assign := fun s _ _ _ => (s, Ok VNone);
  host_resolve := fun s _ => (s, Ok (VBool false));
  host_match_attribute := fun _ _ _ => Ok VNone;
  host_context_method := fun s _ _ _ => (s, Ok VNone);
  apply_decorator := fun s _ v => (s, Ok v)
|}.

Definition num (z : Z) : PyExpr := EConstant (CInt z).
Definition nums (zs : list Z) : PyExpr := ETuple (map num zs).
Definition yield_ (e : PyExpr) : PyStmt := At 0 (SExpr (EYield (Some e))).
Definition for_ (x : string) (e : PyExpr) (b : list PyStmt) : PyStmt := At 0 (SFor (EName x) e b []).
Definition raise_ (name : string) : PyStmt := At 0 (SRaise (Some (EName name)) None).
Definition catching (body handler final : list PyStmt) : PyStmt :=
  At 0 (STry false body [mkExceptHandler None None handler] [] final).

(** A generator over a body that the gate admits, and a method of it. *)
Definition start (body : list PyStmt) (touched : list string) : InterpreterState :=
  (create_generator (set_variables ∅ fresh_state) (genexp_def fresh_state) body ∅ touched).1.
Definition method (name : string) (args : list Value) (s : InterpreterState) : Eval Value :=
  generator_method (eval_stmt 20) 50 3 s (VGenerator 0) name args.

(** What a caller sees: an integer, or the name of an exception. *)
Inductive outcome : Type := Item (z : Z) | Raises (name : string) | Fails (message : string) | Other.
Definition seen (r : EvalResult Value) : outcome :=
  match r with
  | Ok (VInt z) => Item z
  | Err (Exception e) => Raises (exc_type_name e)
  | Err (Interpreter (Runtime m)) => Fails m
  | _ => Other
  end.

(** The outcomes of [n] calls of [next], and the state after them. *)
Fixpoint nexts (n : nat) (s : InterpreterState) : list outcome :=
  match n with O => [] | S n => seen (method "__next__" [] s).2 :: nexts n (method "__next__" [] s).1 end.
Definition after (n : nat) (s : InterpreterState) : InterpreterState := Nat.iter n (fun s => (method "__next__" [] s).1) s.

Definition stop : outcome := Raises "StopIteration".
End Runs.

Section Findings.
Import Runs.
#[local] Existing Instance Runs.yielding.

(** Two loops over tuples, over different variables and over the same one: the inner
    loop takes the record of the outer one for its own, and the generator never
    ends. *)
Lemma nested_loops_over_one_name :
  let body x y := [for_ x (nums [1; 2]) [for_ y (nums [5; 6]) [yield_ (EName y)]]] in
  nexts 5 (start (body "i"%string "j"%string) ["i"; "j"]%string) = map Item [5; 6; 5; 6] ++ [stop] /\
  generator_suspendable (body "_"%string "_"%string) = true /\
  nexts 5 (start (body "_"%string "_"%string) ["_"]%string) = map Item [5; 2; 2; 2; 2].
Proof. vm_compute. repeat split. Qed.

(** The [else] of a loop that does not yield itself is dropped from the body of a
    generator. *)
Lemma loop_else_dropped :
  let loop := At 0 (SFor (EName "x") (nums []) [At 0 SPass] [At 0 (SAssign [EName "y"] (num 1))]) in
  let body := [At 0 (SAssign [EName "y"] (num 0)); loop; yield_ (EName "y")] in
  generator_suspendable body = true /\ nexts 1 (start body ["x"; "y"]%string) = [Item 0].
Proof. vm_compute. repeat split. Qed.

(** Two yields in one statement: the first one takes whatever is sent, and the second
    is yielded forever. *)
Lemma second_yield_repeats :
  let body := [At 0 (SExpr (EBinOp (EYield (Some (num 1))) Add (EYield (Some (num 2)))))] in
  generator_suspendable body = true /\ nexts 5 (start body []) = map Item [1; 2; 2; 2; 2].
Proof. vm_compute. repeat split. Qed.

(** A yield in the test of an [if] is yielded forever: nothing marks where to
    resume. *)
Lemma yield_in_test_repeats :
  let body := [At 0 (SIf (EYield (Some (num 7))) [At 0 SPass] [])] in
  generator_suspendable body = true /\ nexts 4 (start body []) = map Item [7; 7; 7; 7].
Proof. vm_compute. repeat split. Qed.

(** A yield in [finally] loses the error that was on its way. *)
Lemma finally_yield_loses_error :
  let body := [At 0 (STry false [raise_ "ValueError"] [] [] [yield_ (num 1)]); yield_ (num 2)] in
  generator_suspendable body = true /\ nexts 3 (start body []) = [Item 1; Item 2; stop].
Proof. vm_compute. repeat split. Qed.

(** In the middle of [yield from] a tuple, an exception thrown in is ignored: the next
    item is returned, and [close] fails. *)
Lemma drained_items_ignore_throw :
  let s := after 1 (start [At 0 (SExpr (EYieldFrom (nums [1; 2; 3])))] []) in
  seen (method "throw" [VExceptionType "ValueError"] s).2 = Item 2 /\
  seen (method "close" [] s).2 = Fails "generator ignored GeneratorExit".
Proof. vm_compute. repeat split. Qed.

(** A loop left by an exception keeps its record: the next loop over the same name
    goes on with the items of the first. *)
Lemma abandoned_loop_resumed :
  let body := [catching [for_ "x" (nums [1; 2; 3]) [yield_ (EName "x")]] [At 0 SPass] [];
               for_ "x" (nums [10; 20]) [yield_ (EName "x")]] in
  let r := method "throw" [VExceptionType "ValueError"] (after 1 (start body ["x"]%string)) in
  generator_suspendable body = true /\ seen r.2 = Item 1 /\ nexts 3 r.1 = [Item 2; Item 3; stop].
Proof. vm_compute. repeat split. Qed.

(** A generator suspended in a handler leaves its exception with its caller. *)
Lemma suspended_handler_leaks_exception :
  let s := start [catching [raise_ "ValueError"] [yield_ (num 1)] []] [] in
  length (active_exception_stack s) = 0%nat /\ length (active_exception_stack (after 1 s)) = 1%nat.
Proof. vm_compute. repeat split. Qed.

(** A step binds the generator's locals over the variables of its caller. *)
Lemma locals_overwrite_caller :
  let s := set_variables {["x"%string := VInt 99]} (start [At 0 (SAssign [EName "x"] (num 1)); yield_ (EName "x")] ["x"]%string) in
  option_map (fun v => seen (Ok v)) (variables (after 1 s) !! "x"%string) = Some (Item 1).
Proof. vm_compute. reflexivity. Qed.

(** A generator closed before it started still refuses a value sent to it. *)
Lemma closed_generator_refuses_sent_value :
  (method "send" [VInt 1] (method "close" [] (start [] [])).1).2 =
    fail (TypeError "can't send non-None value to a just-started generator").
Proof. reflexivity. Qed.
End Findings.

(** ** Witnesses *)

Lemma generator_methods_keep_frame_witness :
  counters_ok fresh_state /\
  let r := generator_method (eval_stmt 20) 50 3 fresh_state (VGenerator 0) "__next__" [] in
  r.2 = Panic \/ frame fresh_state r.1.
Proof.
  assert (counters_ok fresh_state) as C by (repeat split; discriminate).
  split; [exact C|]. exact (generator_methods_keep_frame 20 50 3 fresh_state (VGenerator 0) "__next__" [] C).
Defined.

(** A loop over two names in a branch of an [if]. *)
Definition sample_generator_body : list PyStmt :=
  [At 0 (SIf (EConstant (CBool true)) [Runs.for_ "i" (Runs.nums [1; 2]) [Runs.yield_ (EName "i")]] [])].

(** An evaluator that cannot be handed the compound statements of the sample. *)
Definition refusing (s : InterpreterState) (st : PyStmt) : Eval Value :=
  match st with
  | At _ (SIf _ (At _ (SFor _ _ [At _ (SExpr (EYield _))] _) :: _) _) | At _ (SFor _ _ [At _ (SExpr (EYield _))] _) => (s, Panic)
  | _ => eval_stmt 20 s st
  end.

Lemma not_hides st :
  (forall e, List.In (false, e) (headers st) -> ~ yields_expr e) ->
  (forall at_ e, List.In (at_, e) (headers st) -> ~ hides_expr e) ->
  (forall stmts, ~ List.In (false, stmts) (blocks st)) ->
  (forall at_ stmts x, List.In (at_, stmts) (blocks st) -> List.In x stmts -> ~ hides x) -> ~ hides st.
Proof. intros A B C D H. destruct H; [by eapply A|by eapply B|by eapply C|by eapply D]. Qed.

Lemma sample_sites_visible : Forall (fun st => ~ hides st) sample_generator_body.
Proof.
  assert (forall e, operands e = [] -> ~ hides_expr e) as Leaf by (intros e E H; destruct H; by rewrite E in *).
  assert (forall n, ~ hides_expr (Runs.nums n)) as Nums.
  { intros n H. inversion H as [e x I Y E|e a x I Hx E]; subst; cbn [operands Runs.nums] in I; sites I.
    apply in_map_iff in I as (y & <- & _). by apply (Leaf (Runs.num y) eq_refl) in Hx. }
  assert (~ yields_expr (EName "i")) as Name.
  { intros H. inversion H as [e Y|e a x I Y]; subst; [done|destruct I]. }
  assert (~ hides (Runs.yield_ (EName "i"))) as Yield.
  { apply not_hides; cbn [headers blocks Runs.yield_]; [intros e I|intros b e I|intros b I|intros b ss x I Ix]; sites I. by apply Leaf. }
  assert (~ hides (Runs.for_ "i" (Runs.nums [1; 2]) [Runs.yield_ (EName "i")])) as For.
  { apply not_hides; cbn [headers blocks Runs.for_]; [intros e I|intros b e I|intros b I|intros b ss x I Ix]; sites I;
      first [done|by apply Leaf|apply Nums|by sites Ix]. }
  constructor; [|constructor]. apply not_hides; cbn [headers blocks]; [intros e I|intros b e I|intros b I|intros b ss x I Ix]; sites I;
    first [by apply Leaf|by sites Ix].
Qed.

Lemma gate_admits_resumable_bodies_witness :
  generator_suspendable sample_generator_body = true /\
  (forall s, run_generator_body (eval_stmt 20) (generator_method (eval_stmt 20) 50 3) 50 s 0 (drop 0 sample_generator_body) =
     run_generator_body refusing (generator_method (eval_stmt 20) 50 3) 50 s 0 (drop 0 sample_generator_body)).
Proof.
  split; [reflexivity|]. intros s.
  refine (gate_admits_resumable_bodies (eval_stmt 20) refusing
    (generator_method (eval_stmt 20) 50 3) 50 sample_generator_body 0 s eq_refl sample_sites_visible _).
  intros s' st W. unfold refusing. repeat case_match; subst; try done; exfalso; destruct W as [W|W]; try discriminate; apply W.
  - eapply yields_block; [by left|by left|]. eapply yields_block; [by left|by left|]. eapply yields_header; [by left|by apply yields_itself].
  - eapply yields_block; [by left|by left|]. eapply yields_header; [by left|by apply yields_itself].
Defined.

Lemma stepper_depth_suffices_witness :
  let st := hd (At 0 SPass) sample_generator_body in
  admitted st = true /\ (stmt_height st <= 7)%nat /\
  forall s, run_suspendable (eval_stmt 20) (generator_method (eval_stmt 20) 50 3) 50 7 s st =
            run_suspendable (eval_stmt 20) (generator_method (eval_stmt 20) 50 3) 50 (stmt_height st) s st.
Proof.
  cbv zeta. split; [reflexivity|]. assert (stmt_height (hd (At 0 SPass) sample_generator_body) <= 7)%nat as L by (vm_compute; lia).
  split; [exact L|]. intros s.
  exact (stepper_depth_suffices (eval_stmt 20) (generator_method (eval_stmt 20) 50 3) 50
    (hd (At 0 SPass) sample_generator_body) 7 s eq_refl L).
Defined.

Lemma ended_generator_stays_ended_witness :
  exists s1 e f,
    step_generator (eval_stmt 20) (generator_method (eval_stmt 20) 50 3) 50 (Runs.start [] []) 0 VNone = (s1, Err e) /\
    generators s1 !! 0 = Some f /\ g_started f = true /\ g_delegating_to f = None /\
    dispatch_suspended (eval_stmt 20) (generator_method (eval_stmt 20) 50 3) 50 s1 0 "__next__" [] =
      (s1, Err (Exception stop_iteration)).
Proof.
  destruct (step_generator (eval_stmt 20) (generator_method (eval_stmt 20) 50 3) 50 (Runs.start [] []) 0 VNone) as [s1 r] eqn:E.
  assert ((Runs.seen r, option_map (fun f => (g_started f, g_delegating_to f)) (generators s1 !! 0)) =
    (Runs.stop, Some (true, None))) as C.
  { change s1 with (s1, r).1. change (Runs.seen r) with (Runs.seen (s1, r).2). rewrite <- E. vm_compute. reflexivity. }
  injection C as R F. destruct r as [v|e|]; [destruct v; discriminate|..|discriminate].
  destruct (generators s1 !! 0) as [f|] eqn:L; [|discriminate]. injection F as St D.
  exists s1, e, f. do 4 (split; [done|]).
  exact (proj1 (ended_generator_stays_ended (eval_stmt 20) (generator_method (eval_stmt 20) 50 3) 50 (Runs.start [] []) 0 VNone
    s1 e f (eval_stmt 20) (generator_method (eval_stmt 20) 50 3) 50 VNone stop_iteration E L St D)).
Defined.

Lemma fresh_generator_runs_nothing_witness :
  VInt 1 <> VNone /\
  dispatch_suspended (eval_stmt 20) (generator_method (eval_stmt 20) 50 3) 50 (Runs.start [] []) 0 "send" [VInt 1] =
    (Runs.start [] [], fail (TypeError "can't send non-None value to a just-started generator")).
Proof.
  assert (VInt 1 <> VNone) as N by discriminate. split; [exact N|].
  exact (proj1 (fresh_generator_runs_nothing (eval_stmt 20) (generator_method (eval_stmt 20) 50 3) 50
    (set_variables ∅ fresh_state) (genexp_def fresh_state) [] ∅ [] (VInt 1) stop_iteration N)).
Defined.
