(* ===== verification/ClosureThms.v ===== *)
(** Closures (eval/functions/definitions.rs): where a frame finds the value of a
    name, and the cells through which an inner function reads the names it
    captured. *)
From Stdlib Require Import ZArith Lia Ascii String SpecFloat.
From stdpp Require Import base tactics list numbers option strings pretty gmap relations.
From S2P Require Import Prelude PySet Values Errors F64 Keys Arith ValueEq Classes Slices Compare Operators State StateThms Exceptions Op Syntax.
From S2P Require Import Names Unparse Mangle Params Host Displays Eval Definitions Match Stmts Functions Samples.

Section Closures.
Context `{External} `{!ExternalOrder} `{!Platform} `{!Formats} `{!Calls} `{!Estimates} `{!Environment} `{!Host}.

(** ** The parts of the state a scope is made of *)

Lemma owned_owners s n : owned_cell s n = owners_of s !! n.
Proof. unfold owned_cell, owners_of. destruct (list.last (frame_cell_owners s)); cbn; [done|by rewrite lookup_empty]. Qed.

Record same_store (s s' : InterpreterState) : Prop := {
  store_heap : heap s' = heap s;
  store_cells : nonlocal_cells s' = nonlocal_cells s;
  store_owners : frame_cell_owners s' = frame_cell_owners s
}.
#[local] Instance same_store_preorder : PreOrder same_store.
Proof. split; [by split|]. intros s s' s'' [] []. split; congruence. Qed.

(** A frame that owns no cells: the one a call has just entered. *)
Definition owns_nothing (s : InterpreterState) : Prop := owners_of s = ∅.

Lemma owns_nothing_store s s' : same_store s s' -> owns_nothing s -> owns_nothing s'.
Proof. intros []. unfold owns_nothing, owners_of. congruence. Qed.

Lemma set_variable_store n v s : owns_nothing s ->
  let s' := (set_variable size n v s).1 in variables s' = <[n := v]> (variables s) /\ same_store s s'.
Proof.
  intros O. cbv zeta. split; [apply (set_variable_fields size n v s)|].
  assert (owners_of s !! n = None) as N by (rewrite O; apply lookup_empty).
  unfold owners_of in N. unfold set_variable, check_memory, write_through.
  destruct (variables s !! n); cbn in *; destruct (list.last (frame_cell_owners s)) as [o|]; cbn in *;
    rewrite ?N; by split.
Qed.

Lemma set_named_store s n v s' r : owns_nothing s -> set_named s n v = (s', r) ->
  variables s' = <[n := v]> (variables s) /\ same_store s s'.
Proof.
  intros O. unfold set_named, lift_call. pose proof (set_variable_store n v s O) as V.
  destruct (set_variable size n v s) as [t [e|]]; cbn in *; by intros [= <- <-].
Qed.

Lemma set_each_store bs : forall s s', owns_nothing s -> NoDup bs.*1 -> set_each s bs = (s', Ok ()) ->
  same_store s s' /\
  forall n, variables s' !! n = match (list_to_map bs : gmap string Value) !! n with Some v => Some v | None => variables s !! n end.
Proof.
  induction bs as [|[m w] bs IH]; intros s s' O D; cbn [set_each].
  { intros [= <-]. split; [done|]. intros n. by rewrite list_to_map_nil, lookup_empty. }
  apply NoDup_cons in D as [Nm D]. destruct (set_named s m w) as [s1 [[]|e|]] eqn:E; [|done..]. cbn [and_then].
  apply set_named_store in E as [V S]; [|done]. intros R. apply IH in R as [S' V']; [|by eapply owns_nothing_store|done].
  split; [by etrans|]. intros n. rewrite V'. cbn. destruct (decide (n = m)) as [->|Hn].
  - rewrite lookup_insert_eq, not_elem_of_list_to_map_1 by done. by rewrite V, lookup_insert_eq.
  - by rewrite lookup_insert_ne, V, lookup_insert_ne.
Qed.

(** ** What each layer of a scope gives a name *)

(** The closure's layer: its entry, unless the name is skipped, has a cell, is a
    live global of a function at module level, or has the same live value. *)
Definition closure_value (s : InterpreterState) (skip : list string) (refreshes : list (string * Z)) (module_level : bool)
    (local_scope : gmap string Value) (closure : list (string * Value)) (n : string) : option Value :=
  match (list_to_map closure : gmap string Value) !! n with
  | Some v =>
      if bool_decide (n ∈ dom local_scope) || bool_decide (n ∈ skip) || has_cell refreshes n ||
         (module_level && bool_decide (n ∈ dom (variables s)))
      then variables s !! n
      else if same_live s n v is Some true then variables s !! n else Some v
  | None => variables s !! n
  end.

Definition refreshed_value (s : InterpreterState) (refreshes : list (string * Z)) (n : string) : option Value :=
  (list_to_map refreshes : gmap string Z) !! n ≫= fun id => cell_value s id n.

Definition nonlocal_value (s : InterpreterState) (f : FunctionDef) (n : string) : option Value :=
  nonlocal_cell_id f ≫= fun id => cell_value s id n.

(** The value a frame gives a name: its argument, else what the cell it captured
    holds, else what the cell of its [nonlocal] names holds, else the closure's
    layer. *)
Definition scope_value (s : InterpreterState) (f : FunctionDef) (local_scope : gmap string Value) (n : string) :
    option Value :=
  match local_scope !! n with
  | Some v => Some v
  | None =>
      match refreshed_value s (cell_refreshes f) n with
      | Some v => Some v
      | None =>
          match nonlocal_value s f n with
          | Some v => Some v
          | None => closure_value s (global_names f) (cell_refreshes f) (is_module_level f) local_scope (closure f) n
          end
      end
  end.

Lemma same_live_ext s s' n v : heap s' = heap s -> variables s' !! n = variables s !! n -> same_live s' n v = same_live s n v.
Proof. unfold same_live. by intros -> ->. Qed.

Lemma overlay_closure_store skip rs ml sc c : forall s s', owns_nothing s -> NoDup c.*1 ->
  overlay_closure s skip rs ml sc c = (s', Ok ()) ->
  same_store s s' /\ forall n, variables s' !! n = closure_value s skip rs ml sc c n.
Proof.
  induction c as [|[m w] c IH]; intros s s' O D; cbn [overlay_closure]; cbv zeta.
  { intros [= <-]. split; [done|]. intros n. unfold closure_value. by rewrite list_to_map_nil, lookup_empty. }
  apply NoDup_cons in D as [Nm D].
  assert (forall t n, n <> m -> heap t = heap s -> variables t !! n = variables s !! n ->
    closure_value t skip rs ml sc c n = closure_value s skip rs ml sc ((m, w) :: c) n) as Other.
  { intros t n Hn Eh Ev. unfold closure_value. cbn. rewrite lookup_insert_ne by done.
    destruct (list_to_map c !! n) as [v|]; [|done]. rewrite (same_live_ext s t) by done. rewrite Ev.
    replace (bool_decide (n ∈ dom (variables t))) with (bool_decide (n ∈ dom (variables s))); [done|].
    apply bool_decide_ext. by rewrite !elem_of_dom, Ev. }
  assert (forall t, closure_value t skip rs ml sc c m = variables t !! m) as Same.
  { intros t. unfold closure_value. by rewrite not_elem_of_list_to_map_1. }
  destruct (bool_decide (m ∈ dom sc) || _ || _ || _) eqn:B.
  - intros R. destruct (IH _ _ O D R) as [S V]. split; [done|]. intros n. rewrite V.
    destruct (decide (n = m)) as [->|Hn]; [|by apply Other]. rewrite Same. unfold closure_value. cbn.
    by rewrite lookup_insert_eq, B.
  - destruct (same_live s m w) as [[]|] eqn:L; [| |done].
    + intros R. destruct (IH _ _ O D R) as [S V]. split; [done|]. intros n. rewrite V.
      destruct (decide (n = m)) as [->|Hn]; [|by apply Other]. rewrite Same. unfold closure_value. cbn.
      by rewrite lookup_insert_eq, B, L.
    + destruct (set_named s m w) as [s1 [[]|e|]] eqn:E; [|done..]. cbn [and_then].
      apply set_named_store in E as [V1 S1]; [|done]. intros R.
      destruct (IH _ _ (owns_nothing_store _ _ S1 O) D R) as [S V]. split; [by etrans|]. intros n. rewrite V.
      destruct (decide (n = m)) as [->|Hn].
      * rewrite Same, V1, lookup_insert_eq. unfold closure_value. cbn. by rewrite lookup_insert_eq, B, L.
      * apply Other; [done|apply S1|]. by rewrite V1, lookup_insert_ne.
Qed.

Lemma not_local_distinct (sc cell : gmap string Value) : NoDup (not_local sc (map_to_list cell)).*1.
Proof.
  unfold not_local. generalize (NoDup_fst_map_to_list cell). induction (map_to_list cell) as [|[k v] l IH]; [done|].
  cbn. intros [N D]%NoDup_cons. case_match; [|by apply IH]. cbn. apply NoDup_cons. split; [|by apply IH].
  intros I. apply N. apply list_elem_of_fmap in I as (x & -> & I). apply list_elem_of_In, filter_In in I as [I _].
  apply list_elem_of_fmap. exists x. split; [done|]. by apply list_elem_of_In.
Qed.

Lemma not_local_lookup (sc cell : gmap string Value) n :
  (list_to_map (not_local sc (map_to_list cell)) : gmap string Value) !! n = if bool_decide (n ∈ dom sc) then None else cell !! n.
Proof.
  apply option_eq. intros v. rewrite <- elem_of_list_to_map by apply not_local_distinct. unfold not_local.
  rewrite list_elem_of_In, filter_In, <- list_elem_of_In, elem_of_map_to_list. cbn.
  destruct (bool_decide (n ∈ dom sc)); cbn; split; [by intros []|done|by intros []|done].
Qed.

Lemma apply_nonlocal_cell_store s f sc s' : owns_nothing s -> apply_nonlocal_cell s f sc = (s', Ok ()) ->
  same_store s s' /\
  forall n, sc !! n = None -> variables s' !! n = match nonlocal_value s f n with Some v => Some v | None => variables s !! n end.
Proof.
  intros O. unfold apply_nonlocal_cell, nonlocal_value, cell_value.
  destruct (nonlocal_cell_id f) as [id|]; cbn; [|by intros [= <-]].
  destruct (nonlocal_cells s !! id) as [cell|]; cbn; [|by intros [= <-]]. intros R.
  apply set_each_store in R as [S V]; [|done|].
  - split; [done|]. intros n N. rewrite V, not_local_lookup. rewrite bool_decide_eq_false_2; [done|].
    rewrite elem_of_dom, N. by intros [].
  - apply not_local_distinct.
Qed.

Lemma apply_cell_refreshes_store sc rs : forall s s', owns_nothing s -> NoDup rs.*1 ->
  apply_cell_refreshes s rs sc = (s', Ok ()) ->
  same_store s s' /\
  forall n, sc !! n = None -> variables s' !! n = match refreshed_value s rs n with Some v => Some v | None => variables s !! n end.
Proof.
  induction rs as [|[m id] rs IH]; intros s s' O D; cbn [apply_cell_refreshes].
  { intros [= <-]. split; [done|]. intros n _. unfold refreshed_value. by rewrite list_to_map_nil, lookup_empty. }
  apply NoDup_cons in D as [Nm D].
  assert (forall t n, n <> m -> nonlocal_cells t = nonlocal_cells s ->
    refreshed_value t rs n = refreshed_value s ((m, id) :: rs) n) as Other.
  { intros t n Hn Ec. unfold refreshed_value, cell_value. cbn. rewrite lookup_insert_ne by done. by rewrite Ec. }
  assert (forall t, refreshed_value t rs m = None) as Same.
  { intros t. unfold refreshed_value. by rewrite not_elem_of_list_to_map_1. }
  assert (refreshed_value s ((m, id) :: rs) m = cell_value s id m) as Here.
  { unfold refreshed_value. cbn. by rewrite lookup_insert_eq. }
  change (cell ← nonlocal_cells s !! id; cell !! m) with (cell_value s id m).
  destruct (bool_decide (m ∈ dom sc)) eqn:B; [|destruct (cell_value s id m) as [v|] eqn:L].
  - intros R. destruct (IH _ _ O D R) as [S V]. split; [done|]. intros n N. rewrite V by done.
    apply bool_decide_eq_true_1 in B. rewrite (Other s); [done| |done]. intros ->. by apply not_elem_of_dom in N.
  - destruct (set_named s m v) as [s1 [[]|e|]] eqn:E; [|done..]. cbn [and_then].
    apply set_named_store in E as [V1 S1]; [|done]. intros R.
    destruct (IH _ _ (owns_nothing_store _ _ S1 O) D R) as [S V]. split; [by etrans|]. intros n N. rewrite V by done.
    destruct (decide (n = m)) as [->|Hn]; [by rewrite Same, Here, V1, lookup_insert_eq|].
    rewrite (Other s1) by (done || apply S1). by rewrite V1, lookup_insert_ne.
  - intros R. destruct (IH _ _ O D R) as [S V]. split; [done|]. intros n N. rewrite V by done.
    destruct (decide (n = m)) as [->|Hn]; [by rewrite Same, Here|by rewrite (Other s)].
Qed.

(** C11: inside a frame every name has the value its scope gives it: the argument
    bound to it; else what its captured cell holds at the time of the call; else
    what the cell of its [nonlocal] names holds; else the closure's entry where it
    differs from the live value and is not a global; else the live value. *)
Theorem frame_scope_resolution s f sc s' :
  owns_nothing s -> NoDup (closure f).*1 -> NoDup (cell_refreshes f).*1 ->
  apply_function_scope s f sc = (s', Ok ()) ->
  forall n, variables s' !! n = scope_value s f sc n.
Proof.
  intros O Dc Dr. unfold apply_function_scope.
  destruct (overlay_closure _ _ _ _ _ _) as [s1 [[]|e|]] eqn:E1; [|done..]. cbn [and_then].
  apply overlay_closure_store in E1 as [S1 V1]; [|done..]. pose proof (owns_nothing_store _ _ S1 O) as O1.
  destruct (apply_nonlocal_cell _ _ _) as [s2 [[]|e|]] eqn:E2; [|done..]. cbn [and_then].
  apply apply_nonlocal_cell_store in E2 as [S2 V2]; [|done]. pose proof (owns_nothing_store _ _ S2 O1) as O2.
  destruct (apply_cell_refreshes _ _ _) as [s3 [[]|e|]] eqn:E3; [|done..]. cbn [and_then].
  apply apply_cell_refreshes_store in E3 as [S3 V3]; [|done..]. pose proof (owns_nothing_store _ _ S3 O2) as O3.
  intros E4. apply set_each_store in E4 as [_ V4]; [|done|apply NoDup_fst_map_to_list].
  intros n. rewrite V4, list_to_map_to_list. unfold scope_value. destruct (sc !! n) eqn:N; [done|].
  rewrite V3, V2, V1 by done.
  assert (forall t, nonlocal_cells t = nonlocal_cells s -> refreshed_value t (cell_refreshes f) n = refreshed_value s (cell_refreshes f) n) as Hr.
  { intros t Et. unfold refreshed_value, cell_value. by rewrite Et. }
  rewrite (Hr s2) by (etrans; [apply S2|apply S1]).
  unfold nonlocal_value, cell_value. by rewrite (store_cells _ _ S1).
Qed.

(** ** Capture cells *)

(** Every name the frame owns a cell for has its live value in the cell. *)
Definition cells_live (s : InterpreterState) : Prop :=
  forall n id v, owned_cell s n = Some id -> variables s !! n = Some v -> cell_value s id n = Some v.

(** The cell a [nonlocal] definition over [names] gives them. *)
Definition joined_cell (s : InterpreterState) (names : list string) : Z :=
  default (next_nonlocal_cell_id s) (head (omap (fun n => owners_of s !! n) names)).

(** It is the one they have, and holds nothing else of theirs. *)
Definition joins (s : InterpreterState) (names : list string) : Prop :=
  forall n, n ∈ names ->
    match owned_cell s n with
    | Some id => id = joined_cell s names
    | None => cell_value s (joined_cell s names) n = None
    end.

(** The steps of a frame between two statements that write its names, its owned cells
    or what they hold: binding and deleting a name, binding a target of a comprehension,
    putting its targets back at the end when none of them is captured, capturing names
    for a definition, and a definition with [nonlocal] names, when those that have
    cells all have the same one. *)
Inductive frame_step : InterpreterState -> InterpreterState -> Prop :=
| bind_step n v s : frame_step s (set_variable size n v s).1
| delete_step n s : frame_step s (delete_variable size n s).1
| target_step n v s : frame_step s (set_comprehension_target s (EName n) v).1
| restore_step checkpoint s : (forall n old, (n, old) ∈ checkpoint -> owned_cell s n = None) -> frame_step s (restore checkpoint s)
| capture_step names s : frame_step s (ensure_capture_cells s names).1
| nonlocal_step body closure s : joins s (collect_nonlocal_names body) -> frame_step s (resolve_closure_cells s body closure).1.

Lemma write_through_owned n v s m : owned_cell (write_through n v s) m = owned_cell s m.
Proof.
  unfold write_through, owned_cell. destruct (list.last (frame_cell_owners s)) as [o|] eqn:E; [|by rewrite E].
  destruct (o !! n); cbn; by rewrite E.
Qed.

Lemma set_variable_owned n v s m : owned_cell (set_variable size n v s).1 m = owned_cell s m.
Proof.
  rewrite <- (write_through_owned n v s). unfold set_variable, check_memory, write_through, owned_cell.
  destruct (variables s !! n); cbn; destruct (list.last (frame_cell_owners s)) as [o|] eqn:E; cbn; rewrite ?E; try done;
    destruct (o !! n); cbn; by rewrite ?E.
Qed.

(** Publishing a value through the owned cell keeps every other name's cell. *)
Lemma published n v s s' :
  (forall m, owned_cell s' m = owned_cell s m) -> variables s' = <[n := v]> (variables s) ->
  (forall id m, cell_value s' id m = cell_value (write_through n v s) id m) -> cells_live s -> cells_live s'.
Proof.
  intros Ho Ev Ec L m id w Om Vm. destruct (write_through_cells n v s) as [Own Oth]. rewrite Ho in Om. rewrite Ec.
  rewrite Ev in Vm. destruct (decide (m = n)) as [->|Hn].
  - rewrite lookup_insert_eq in Vm. injection Vm as <-. auto.
  - rewrite lookup_insert_ne in Vm by done. rewrite Oth by auto. by apply L.
Qed.

Lemma own_names s names id m : frame_cell_owners s <> [] ->
  owned_cell (own names id s) m = if decide (m ∈ names) then Some id else owned_cell s m.
Proof.
  intros N. unfold own. destruct (frame_cell_owners s) as [|o os] eqn:E; [done|].
  rewrite !owned_owners. unfold owners_of at 1. cbn [set_owners frame_cell_owners]. rewrite last_snoc. cbn [default].
  generalize (owners_of s) as os'. clear E N. induction names as [|n names IH]; intros os'; cbn [fold_left].
  - rewrite decide_False; [done|apply not_elem_of_nil].
  - rewrite IH. destruct (decide (m ∈ names)) as [I|I], (decide (m ∈ n :: names)) as [J|J]; try done.
    + destruct J. by right.
    + apply elem_of_cons in J as [->|J]; [apply lookup_insert_eq|done].
    + apply lookup_insert_ne. intros ->. destruct J. by left.
Qed.

Lemma own_one s name id m : frame_cell_owners s <> [] ->
  owned_cell (own [name] id s) m = if decide (m = name) then Some id else owned_cell s m.
Proof.
  intros N. rewrite own_names by done. by destruct (decide (m ∈ [name])) as [I%list_elem_of_singleton|I], (decide (m = name)) as [D|D];
    try done; destruct I; subst; left.
Qed.

Lemma own_keeps names id s : variables (own names id s) = variables s /\ nonlocal_cells (own names id s) = nonlocal_cells s /\
  (frame_cell_owners s <> [] -> frame_cell_owners (own names id s) <> []).
Proof.
  unfold own. destruct (frame_cell_owners s) as [|o os] eqn:E; [done|]. do 2 (split; [done|]). intros _ C. cbn in C.
  by apply app_eq_nil in C as [].
Qed.

Lemma ensure_cell_live s name : frame_cell_owners s <> [] -> cells_live s ->
  cells_live (ensure_cell s name).1 /\ frame_cell_owners (ensure_cell s name).1 <> [] /\
  (forall m id, owned_cell s m = Some id -> owned_cell (ensure_cell s name).1 m = Some id) /\
  forall m id, (m, id) ∈ (ensure_cell s name).2 -> owned_cell (ensure_cell s name).1 m = Some id.
Proof.
  intros N L. unfold ensure_cell. destruct (variables s !! name) as [v|] eqn:V.
  2: { split_and!; [done..|]. intros m id I. by apply not_elem_of_nil in I. }
  destruct (owners_of s !! name) as [id|] eqn:O.
  { split_and!; [done..|]. intros m i I. apply list_elem_of_singleton in I as [= -> ->]. by rewrite owned_owners. }
  rewrite <- owned_owners in O. cbn [fst snd fresh_cell]. set (id := next_nonlocal_cell_id s).
  set (t := cell_insert _ _ _ _).
  assert (frame_cell_owners t <> []) as Nt by done.
  assert (forall m, owned_cell (own [name] id t) m = if decide (m = name) then Some id else owned_cell s m) as Ow
    by (intros m; by rewrite own_one).
  assert (forall i m, cell_value (own [name] id t) i m = cell_value t i m) as Ec
    by (intros i m; unfold own; by case_match).
  assert (variables (own [name] id t) = variables s) as Ev by (unfold own; by case_match).
  split_and!.
  - intros m i w Om Vm. rewrite Ow in Om. rewrite Ev in Vm. rewrite Ec. unfold t, cell_value, cell_insert. cbn.
    case_decide as D.
    + subst. injection Om as <-. rewrite V in Vm. injection Vm as <-. rewrite lookup_insert_eq. cbn. apply lookup_insert_eq.
    + specialize (L m i w Om Vm). unfold cell_value in L. destruct (decide (i = id)) as [->|Hi].
      * rewrite lookup_insert_eq. cbn. rewrite lookup_insert_ne by done.
        by destruct (nonlocal_cells s !! id).
      * by rewrite lookup_insert_ne.
  - unfold own. destruct (frame_cell_owners t); [done|]. cbn. intros C. by apply app_eq_nil in C as [].
  - intros m i Om. rewrite Ow. case_decide; [|done]. subst. congruence.
  - intros m i I. apply list_elem_of_singleton in I as [= -> ->]. rewrite Ow. by case_decide.
Qed.

Lemma ensure_capture_cells_live s names : frame_cell_owners s <> [] -> cells_live s ->
  let out := ensure_capture_cells s names in
  cells_live out.1 /\ frame_cell_owners out.1 <> [] /\
  (forall m id, owned_cell s m = Some id -> owned_cell out.1 m = Some id) /\
  forall m id, (m, id) ∈ out.2 -> owned_cell out.1 m = Some id.
Proof.
  intros N L. cbv zeta. unfold ensure_capture_cells. destruct (frame_cell_owners s) as [|o os] eqn:E; [done|]. clear N.
  assert (forall acc, (forall m id, (m, id) ∈ acc.2 -> owned_cell acc.1 m = Some id) -> frame_cell_owners acc.1 <> [] ->
    cells_live acc.1 ->
    let out := fold_left (fun acc n => let (s, new) := ensure_cell acc.1 n in (s, acc.2 ++ new)) names acc in
    cells_live out.1 /\ frame_cell_owners out.1 <> [] /\
    (forall m id, owned_cell acc.1 m = Some id -> owned_cell out.1 m = Some id) /\
    forall m id, (m, id) ∈ out.2 -> owned_cell out.1 m = Some id) as K.
  { induction names as [|n names IH]; intros acc R Na La; [done|]. cbn [fold_left].
    destruct (ensure_cell_live acc.1 n Na La) as (L1 & N1 & M1 & R1). destruct (ensure_cell acc.1 n) as [s1 new]. cbn in *.
    destruct (IH (s1, acc.2 ++ new)) as (L2 & N2 & M2 & R2); cbn in *; [|done..|].
    { intros m id [I|I]%elem_of_app; auto. }
    split_and!; auto. }
  apply (K (s, [])); [|cbn; by rewrite E|done]. intros m id I. by apply not_elem_of_nil in I.
Qed.

Lemma capture_unowned s n v : frame_cell_owners s <> [] -> variables s !! n = Some v -> owners_of s !! n = None ->
  exists s1, ensure_capture_cells s [n] = (s1, [(n, next_nonlocal_cell_id s)]).
Proof.
  intros N V O. unfold ensure_capture_cells. destruct (frame_cell_owners s); [done|]. cbn [fold_left fst snd].
  unfold ensure_cell. rewrite V, O. by eexists.
Qed.

Lemma restore_other checkpoint s n : (forall old, (n, old) ∉ checkpoint) -> variables (restore checkpoint s) !! n = variables s !! n.
Proof.
  unfold restore. cbn [set_variables variables]. generalize (variables s) as vars. induction checkpoint as [|[m old] cp IH]; intros vars I; [done|].
  cbn [fold_left]. rewrite IH by (intros o C; apply (I o); by right). unfold restore_name. cbn [fst snd].
  assert (m <> n) as Hn by (intros ->; apply (I old); by left). destruct old; [by apply lookup_insert_ne|by apply lookup_delete_ne].
Qed.

Lemma seeded_value (vars already : gmap string Value) names n : forall cell : gmap string Value,
  fold_left (fun cell n => match already !! n, vars !! n with None, Some v => <[n := v]> cell | _, _ => cell end) names cell !! n =
  if decide (n ∈ names) then match already !! n, vars !! n with None, Some v => Some v | _, _ => cell !! n end else cell !! n.
Proof.
  induction names as [|m names IH]; intros cell; cbn [fold_left].
  { rewrite decide_False; [done|apply not_elem_of_nil]. }
  rewrite IH. destruct (decide (n = m)) as [->|Hn].
  - rewrite (decide_True _ _ (list_elem_of_here m names)). case_decide; destruct (already !! m), (vars !! m); try done; apply lookup_insert_eq.
  - assert (match already !! m, vars !! m with None, Some v => <[m := v]> cell | _, _ => cell end !! n = cell !! n) as ->
      by (destruct (already !! m), (vars !! m); try done; by apply lookup_insert_ne).
    destruct (decide (n ∈ names)) as [I|I].
    + by rewrite decide_True by by right.
    + rewrite decide_False; [done|]. by intros [|]%elem_of_cons.
Qed.

Lemma nonlocal_live s body closure : frame_cell_owners s <> [] -> cells_live s -> joins s (collect_nonlocal_names body) ->
  let s' := (resolve_closure_cells s body closure).1 in
  cells_live s' /\ frame_cell_owners s' <> [] /\ forall m id, owned_cell s m = Some id -> owned_cell s' m = Some id.
Proof.
  intros N L J. cbv zeta. unfold resolve_closure_cells. unfold joins, joined_cell in J. set (names := collect_nonlocal_names body) in *.
  destruct (is_nil names); [done|]. set (existing := head _) in *.
  assert (exists id s0, match existing with Some id => (id, s) | None => fresh_cell s end = (id, s0) /\
    id = default (next_nonlocal_cell_id s) existing /\ variables s0 = variables s /\ nonlocal_cells s0 = nonlocal_cells s /\
    frame_cell_owners s0 = frame_cell_owners s) as (id & s0 & -> & -> & Ev & Ec & Eo) by (destruct existing; by eexists _, _).
  set (id := default _ existing) in *. cbv zeta. cbn [fst]. set (t := set_cells _ s0).
  destruct (own_keeps names id t) as (Vt & Ct & Nt).
  assert (frame_cell_owners t = frame_cell_owners s) as Ot by done. rewrite Ot in Nt.
  assert (forall m, owned_cell (own names id t) m = if decide (m ∈ names) then Some id else owned_cell s m) as Ow.
  { intros m. rewrite own_names by by rewrite Ot. rewrite !owned_owners. unfold owners_of. by rewrite Ot. }
  split_and!; [|by apply Nt|].
  - intros m i v Om Vm. rewrite Ow in Om. rewrite Vt in Vm. change (variables t) with (variables s0) in Vm. rewrite Ev in Vm.
    unfold cell_value. rewrite Ct. unfold t. cbn [set_cells nonlocal_cells]. destruct (decide (i = id)) as [->|Hi].
    + rewrite lookup_insert_eq. cbn [mbind option_bind]. rewrite seeded_value, Ec, Ev, Vm. specialize (J m).
      assert (default ∅ (nonlocal_cells s !! id) !! m = cell_value s id m) as -> by (unfold cell_value; by destruct (nonlocal_cells s !! id)).
      destruct (decide (m ∈ names)) as [I|I].
      * specialize (J I). destruct (owned_cell s m) as [i|] eqn:O; [subst i; by rewrite (L m id v O Vm)|by rewrite J].
      * by apply L.
    + rewrite lookup_insert_ne by done. rewrite Ec. apply L; [|done]. by case_decide; [congruence|].
  - intros m i Om. rewrite Ow. case_decide as I; [|done]. specialize (J m I). rewrite Om in J. by subst.
Qed.

Lemma frame_step_live s s' : frame_step s s' -> frame_cell_owners s <> [] -> cells_live s ->
  cells_live s' /\ frame_cell_owners s' <> [] /\ forall m id, owned_cell s m = Some id -> owned_cell s' m = Some id.
Proof.
  intros F N L. destruct F as [n v s|n s|n v s|cp s C|names s|body closure s J].
  - destruct (set_variable_fields size n v s) as (Ev & _ & _ & Ec & _). split_and!.
    + by apply (published n v s); [apply set_variable_owned|..].
    + unfold set_variable, check_memory, write_through. destruct (variables s !! n); cbn; by repeat case_match.
    + intros m id. by rewrite set_variable_owned.
  - unfold delete_variable. destruct (variables s !! n) as [old|] eqn:V; [|done]. cbn. split_and!; [|done..].
    intros m id w Om Vm. cbn in Vm. apply L; [done|]. by apply lookup_delete_Some in Vm as [_ Vm].
  - cbn [set_comprehension_target fst done]. split_and!.
    + apply (published n v s); [apply write_through_owned| |done|done]. cbn. by destruct (write_through_frame n v s) as [-> _].
    + unfold write_through. cbn. by repeat case_match.
    + intros m id Om. change (owned_cell (write_through n v s) m = Some id). by rewrite write_through_owned.
  - split_and!; [|done..]. intros m id w Om Vm. apply L; [done|]. change (owned_cell s m = Some id) in Om.
    rewrite restore_other in Vm; [done|]. intros old I. by rewrite (C m old I) in Om.
  - destruct (ensure_capture_cells_live s names N L) as (A & B & C & _). auto.
  - by apply nonlocal_live.
Qed.

(** C12: an inner function reads the names it captured as they are when it is
    called: from the definition on, through any number of the steps of [frame_step]
    (the enclosing frame binds and deletes names, runs comprehensions whose targets are
    not captured, captures again, and defines functions with [nonlocal] names that
    share a cell or have none yet), the cell of a captured name holds the name's value
    of the moment, as long as it has one. Other steps can break it: a comprehension
    over a captured name (the first lemma below) and a [nonlocal] over names with
    different cells (the second). Writes by calls into inner functions are not steps. *)
Theorem captured_names_are_live s names s1 refreshes s2 n id v :
  frame_cell_owners s <> [] -> cells_live s ->
  ensure_capture_cells s names = (s1, refreshes) -> rtc frame_step s1 s2 ->
  (n, id) ∈ refreshes -> variables s2 !! n = Some v -> cell_value s2 id n = Some v.
Proof.
  intros N L E R I V. destruct (ensure_capture_cells_live s names N L) as (L1 & N1 & _ & O). rewrite E in *. cbn in *.
  apply O in I. clear E O L N. revert L1 N1 I V.
  induction R as [s1|s1 s3 s2 F _ IH]; intros L1 N1 I V; [by apply (L1 n id)|].
  destruct (frame_step_live _ _ F N1 L1) as (L3 & N3 & M). by apply IH; auto.
Qed.

(** A comprehension over a captured name puts the variable back at its end, but not the
    cell: the function that captured it reads the last item from then on. *)
Lemma comprehension_leaves_last_item s x id v w :
  owned_cell s x = Some id -> variables s !! x = Some v ->
  let s1 := (set_comprehension_target s (EName x) w).1 in
  let s2 := restore (capture s [x]) s1 in
  variables s2 !! x = Some v /\ cell_value s2 id x = Some w.
Proof.
  intros O V. cbv zeta. split.
  - unfold restore, capture. cbn. rewrite V. apply lookup_insert_eq.
  - change (cell_value (write_through x w s) id x = Some w). by apply write_through_cells.
Qed.

(** A [nonlocal] statement over names that had cells of their own moves them all
    to the first one's cell: a function that captured one of the others keeps
    reading its old cell, which later assignments do not reach. *)
Lemma nonlocal_leaves_old_cell s x y a b body v :
  collect_nonlocal_names body = [x; y] -> x <> y -> a <> b ->
  owned_cell s x = Some a -> owned_cell s y = Some b -> 
  let s1 := (resolve_closure_cells s body []).1 in
  cell_value (set_variable size y v s1).1 b y = cell_value s b y.
Proof.
  intros C Nxy Nab Ox Oy. cbv zeta.
  destruct (set_variable_fields size y v (resolve_closure_cells s body []).1) as (_ & _ & _ & -> & _).
  assert (frame_cell_owners s <> []) as N by (intros E; unfold owned_cell in Ox; by rewrite E in Ox).
  unfold resolve_closure_cells. rewrite C. cbn [is_nil omap list_omap]. rewrite owned_owners in Ox. rewrite Ox. cbn [head].
  cbv zeta. cbn [fst]. set (t := set_cells _ _).
  assert (owned_cell (own [x; y] a t) y = Some a) as O.
  { unfold own. change (frame_cell_owners t) with (frame_cell_owners s). destruct (frame_cell_owners s) as [|o os]; [done|].
    unfold owned_cell. cbn [set_owners frame_cell_owners]. rewrite last_snoc. cbn. apply lookup_insert_eq. }
  destruct (write_through_cells y v (own [x; y] a t)) as [_ ->]; [|left; congruence].
  assert (forall u id n, cell_value (own [x; y] a u) id n = cell_value u id n) as -> by (intros; unfold own; by case_match).
  unfold t, cell_value. cbn. by rewrite lookup_insert_ne.
Qed.
End Closures.

(** ** Witnesses *)

(** [def outer(): x = 1; def inner(): return x; x = 2], then [inner()]. *)
Definition outer_frame : InterpreterState := set_owners [∅] (set_variables {["x"%string := VInt 1]} fresh_state).
Definition inner : FunctionDef :=
  mkFunctionDef "inner" "inner#0" (mkParams [] [] [] None [] [] [] None 0) [("x"%string, VInt 1)] "" [] false None None []
    [] false None [("x"%string, 0)] "outer.<locals>.inner" [] false.
Definition cell_with (v : Value) : gmap Z (gmap string Value) := {[0 := {["x"%string := v]}]}.

Lemma outer_frame_live : cells_live outer_frame.
Proof. intros n id v O _. unfold owned_cell, outer_frame in O. cbn in O. by rewrite lookup_empty in O. Qed.

Lemma captured_names_are_live_witness :
  exists s1, ensure_capture_cells outer_frame ["x"%string] = (s1, [("x"%string, 0)]) /\
  cell_value (set_variable size "x" (VInt 2) s1).1 0 "x" = Some (VInt 2).
Proof.
  destruct (capture_unowned outer_frame "x" (VInt 1)) as [s1 E]; [done|done|done|]. exists s1. split; [exact E|].
  refine (captured_names_are_live outer_frame ["x"%string] s1 [("x"%string, 0)] _ "x" 0 (VInt 2) _ outer_frame_live
            E (rtc_once _ _ (bind_step _ _ _)) _ _); [done|left|].
  destruct (set_variable_fields size "x" (VInt 2) s1) as [-> _]. apply lookup_insert_eq.
Defined.

(** The frame of [inner] holds the cell's value, not the snapshot's. *)
Lemma frame_scope_resolution_witness :
  let s := set_cells (cell_with (VInt 2)) outer_frame in
  exists s', apply_function_scope s inner ∅ = (s', Ok ()) /\ variables s' !! "x"%string = Some (VInt 2).
Proof.
  cbv zeta. eexists. split; [reflexivity|].
  rewrite (frame_scope_resolution (set_cells (cell_with (VInt 2)) outer_frame) inner ∅);
    [reflexivity|reflexivity|apply (bool_decide_unpack _); by vm_compute..|reflexivity].
Defined.
