(* ===== verification/ScopeThms.v ===== *)
(** Names and syntax trees (mangle.rs, eval/functions/definitions.rs): the pass
    over private names, what the collectors of a body's names leave out, and what
    printing a default argument loses. *)
From Stdlib Require Import ZArith Lia Ascii String SpecFloat.
From stdpp Require Import base tactics list numbers option strings.
From S2P Require Import Prelude PySet Values Errors Compare Operators State Op Syntax Names Unparse Mangle Samples.

(** ** Private names *)

Lemma trim_head s : trim_underscores s = EmptyString \/ exists c r, trim_underscores s = String c r /\ c <> "_"%char.
Proof.
  induction s as [|c s IH]; [by left|]. cbn. destruct (Ascii.eqb_spec c "_"); [done|]. right. by exists c, s.
Qed.

(** A name of underscores only is not private. *)
Lemma underscores_not_private s : trim_underscores s = EmptyString -> is_private_name s = false.
Proof.
  intros T. unfold is_private_name. destruct (String.prefix "__" s) eqn:P; [|done]. cbn [andb].
  assert (ends_with "__" s = true) as ->; [|done].
  induction s as [|c s IH]; [done|]. cbn [trim_underscores] in T. destruct (Ascii.eqb_spec c "_") as [->|]; [|done].
  destruct s as [|d [|e s]].
  - by vm_compute in P.
  - cbn [trim_underscores] in T. destruct (Ascii.eqb d "_") eqn:D; [|done]. apply Ascii.eqb_eq in D. by subst.
  - cbn [ends_with]. apply orb_true_iff. right. apply IH; [done|]. cbn [trim_underscores] in T.
    destruct (Ascii.eqb d "_") eqn:D; [|done]. apply Ascii.eqb_eq in D. subst d.
    destruct (Ascii.eqb e "_") eqn:E; [|done]. apply Ascii.eqb_eq in E. subst e. by destruct s.
Qed.

Lemma prefixed_not_private c r : c <> "_"%char -> is_private_name (String "_" (String c r)) = false.
Proof.
  intros N. unfold is_private_name. change (String.prefix "__" (String "_" (String c r))) with (String.prefix "_" (String c r)).
  destruct (String.prefix "_" (String c r)) eqn:P; [|done]. exfalso. apply N.
  destruct c as [[] [] [] [] [] [] [] []]; try done; by vm_compute in P.
Qed.

Definition mangle_under (prefix ident : string) : string :=
  if bool_decide (prefix = EmptyString) || negb (is_private_name ident) then ident else ("_" ++ prefix ++ ident)%string.

Lemma mangle_last st p id : mangle_ident (st ++ [p]) id = mangle_under p id.
Proof. unfold mangle_ident, mangle, mangle_under. rewrite last_snoc. cbn. by destruct (_ || _). Qed.

(** The second context leaves alone what the first one has rewritten. *)
Definition settled (st st' : list string) : Prop := forall id, mangle_ident st' (mangle_ident st id) = mangle_ident st id.

Lemma not_private_kept st id : is_private_name id = false -> mangle_ident st id = id.
Proof.
  intros P. unfold mangle_ident, mangle. destruct (list.last st) as [p|]; [|done]. cbn. by rewrite P, orb_true_r.
Qed.

Lemma settled_class st st' name :
  settled (st ++ [trim_underscores name]) (st' ++ [trim_underscores (mangle_ident st name)]).
Proof.
  intros id. rewrite (mangle_last st). destruct (trim_head name) as [E|(c & r & E & N)].
  - rewrite (not_private_kept st name) by (by apply underscores_not_private). rewrite E. unfold mangle_under. cbn.
    rewrite mangle_last. unfold mangle_under. by rewrite bool_decide_true.
  - rewrite E. unfold mangle_under. cbn [bool_decide]. rewrite bool_decide_false by done. cbn [orb].
    destruct (is_private_name id) eqn:P; cbn [negb]; [|by apply not_private_kept].
    apply not_private_kept. by apply prefixed_not_private.
Qed.

Lemma map_settled {A B} (f : B -> B) (g : A -> B) (xs : list A) :
  (forall x, x ∈ xs -> f (g x) = g x) -> map f (map g xs) = map g xs.
Proof. intros F. rewrite map_map. apply map_ext_in. intros x I. apply F. by apply list_elem_of_In. Qed.

(** The pieces of [fold_expr] under their own names. *)
Definition fold_comprehension (st : list string) (g : Comprehension) : Comprehension :=
  match g with
  | mkComprehension t i ifs a => mkComprehension (fold_expr st t) (fold_expr st i) (map (fold_expr st) ifs) a
  end.

Lemma fold_lambda st a body : fold_expr st (ELambda a body) = ELambda (fold_arguments st a) (fold_expr st body).
Proof. by destruct a as [po args ko [] []]. Qed.

Section Settled.
Variables st st' : list string.
Hypothesis S : settled st st'.

Section Pieces.
Variable n : nat.
Hypothesis IH : forall e, (expr_height e <= n)%nat -> fold_expr st' (fold_expr st e) = fold_expr st e.

Lemma exprs_settled es : (max_of expr_height es <= n)%nat ->
  map (fold_expr st') (map (fold_expr st) es) = map (fold_expr st) es.
Proof. intros L. apply map_settled. intros x I. apply IH. by eapply max_of_le. Qed.

Lemma opt_settled o : (opt_max expr_height o <= n)%nat -> fold_opt st' (fold_opt st o) = fold_opt st o.
Proof. destruct o as [x|]; [|done]. cbn. intros L. by rewrite IH. Qed.

Lemma argument_settled a : (arg_height a <= n)%nat -> fold_argument st' (fold_argument st a) = fold_argument st a.
Proof. destruct a as [name ann def]. cbn [arg_height fold_argument]. intros L. by rewrite !opt_settled by lia. Qed.

Lemma arguments_settled a : (args_height a <= n)%nat -> fold_arguments st' (fold_arguments st a) = fold_arguments st a.
Proof.
  destruct a as [po args ko v k]. cbn [args_height fold_arguments]. intros L.
  assert (forall xs, (max_of arg_height xs <= n)%nat ->
    map (fold_argument st') (map (fold_argument st) xs) = map (fold_argument st) xs) as Many.
  { intros xs Lx. apply map_settled. intros x I. apply argument_settled. by eapply max_of_le. }
  assert (forall o, (opt_max arg_height o <= n)%nat ->
    fold_argument st' <$> (fold_argument st <$> o) = fold_argument st <$> o) as Opt.
  { intros [x|] Lx; [|done]. cbn. by rewrite argument_settled. }
  by rewrite !Many, !Opt by lia.
Qed.

Lemma comprehensions_settled gs : (max_of comp_height gs <= n)%nat ->
  map (fold_comprehension st') (map (fold_comprehension st) gs) = map (fold_comprehension st) gs.
Proof.
  intros L. apply map_settled. intros g I. apply (max_of_le _ _ _ L) in I. destruct g as [t i ifs a]. cbn in *.
  by rewrite !IH, exprs_settled by lia.
Qed.

Lemma items_settled items : (max_of (fun kv => Nat.max (opt_max expr_height kv.1) (expr_height kv.2)) items <= n)%nat ->
  let f st (kv : option PyExpr * PyExpr) := (fold_opt st kv.1, fold_expr st kv.2) in
  map (f st') (map (f st) items) = map (f st) items.
Proof.
  intros L f. apply map_settled. intros [k v] I. apply (max_of_le _ _ _ L) in I. cbn in *.
  unfold f. cbn [fst snd]. by rewrite opt_settled, IH by lia.
Qed.

Lemma keywords_settled ks : (max_of (fun k => expr_height (snd k)) ks <= n)%nat ->
  map (fold_keyword st') (map (fold_keyword st) ks) = map (fold_keyword st) ks.
Proof.
  intros L. apply map_settled. intros [k v] I. apply (max_of_le _ _ _ L) in I. unfold fold_keyword. cbn in *. by rewrite IH.
Qed.
End Pieces.

Lemma fold_expr_settled e : fold_expr st' (fold_expr st e) = fold_expr st e.
Proof.
  assert (forall n e, (expr_height e <= n)%nat -> fold_expr st' (fold_expr st e) = fold_expr st e) as Hn; [|by apply (Hn (expr_height e))].
  clear e. induction n as [|n IH]; intros e L; [destruct e; cbn in L; lia|].
  pose proof (exprs_settled n IH) as Many. pose proof (opt_settled n IH) as Opt.
  pose proof (comprehensions_settled n IH) as Comp.
  destruct e; cbn [expr_height] in L; apply le_S_n in L;
    try (cbn [fold_expr]; rewrite ?S, ?IH, ?Many by lia; reflexivity).
  - exact (f_equal EDict (items_settled n IH items L)).
  - rewrite !fold_lambda. by rewrite (arguments_settled n IH), IH by lia.
  - assert (IHe := IH e ltac:(lia)). cbn [fold_expr]. rewrite IHe. exact (f_equal (EListComp _) (Comp generators ltac:(lia))).
  - assert (IHe := IH e ltac:(lia)). cbn [fold_expr]. rewrite IHe. exact (f_equal (ESetComp _) (Comp generators ltac:(lia))).
  - cbn [fold_expr]. rewrite !IH by lia. exact (f_equal (EDictComp _ _) (Comp generators ltac:(lia))).
  - assert (IHe := IH e ltac:(lia)). cbn [fold_expr]. rewrite IHe. exact (f_equal (EGeneratorExp _) (Comp generators ltac:(lia))).
  - exact (f_equal EYield (Opt value L)).
  - cbn [fold_expr]. rewrite IH, Many by lia. exact (f_equal (ECall _ _) (keywords_settled n IH keywords ltac:(lia))).
  - cbn [fold_expr]. rewrite IH by lia. exact (f_equal (EFormattedValue _ _) (Opt format_spec ltac:(lia))).
  - exact (f_equal3 ESlice (Opt lower ltac:(lia)) (Opt upper ltac:(lia)) (Opt step ltac:(lia))).
Qed.

Lemma fold_exprs_settled es : map (fold_expr st') (map (fold_expr st) es) = map (fold_expr st) es.
Proof. apply map_settled. intros. apply fold_expr_settled. Qed.

Lemma fold_opt_settled o : fold_opt st' (fold_opt st o) = fold_opt st o.
Proof. eapply opt_settled; [intros; apply fold_expr_settled|reflexivity]. Qed.

Lemma fold_items_settled items : map (fold_item st') (map (fold_item st) items) = map (fold_item st) items.
Proof.
  apply map_settled. intros [e o] _. unfold fold_item. cbn [context_expr optional_vars].
  by rewrite fold_expr_settled, fold_opt_settled.
Qed.

Lemma fold_pattern_settled p : fold_pattern st' (fold_pattern st p) = fold_pattern st p.
Proof.
  assert (forall n p, (pattern_height p <= n)%nat -> fold_pattern st' (fold_pattern st p) = fold_pattern st p) as Hn;
    [|by apply (Hn (pattern_height p))].
  clear p. induction n as [|n IH]; intros p L; [destruct p; cbn in L; lia|].
  assert (forall ps, (max_of pattern_height ps <= n)%nat ->
    map (fold_pattern st') (map (fold_pattern st) ps) = map (fold_pattern st) ps) as Many.
  { intros ps Lp. apply map_settled. intros x I. apply IH. by eapply max_of_le. }
  destruct p as [e|c|[q|] name|ps|ps|ks ps rest|name|cls ps attrs ks]; cbn [pattern_height] in L; apply le_S_n in L;
    cbn [fold_pattern]; rewrite ?fold_expr_settled, ?fold_exprs_settled, ?IH, ?Many by lia; try done.
  destruct cls as [c|]; cbn; by rewrite ?S.
Qed.
End Settled.

Lemma fold_stmt_settled n : forall s st st', settled st st' -> (stmt_height s <= n)%nat ->
  fold_stmt st' (fold_stmt st s) = fold_stmt st s.
Proof.
  induction n as [|n IH]; intros [start node] st st' S L; [cbn in L; lia|]. cbn [stmt_height] in L. apply le_S_n in L.
  pose proof (fold_expr_settled st st' S) as Expr. pose proof (fold_exprs_settled st st' S) as Exprs.
  pose proof (fold_opt_settled st st' S) as Opt.
  assert (forall b u u', settled u u' -> (max_of stmt_height b <= n)%nat ->
    map (fold_stmt u') (map (fold_stmt u) b) = map (fold_stmt u) b) as Block.
  { intros b u u' Su Lb. apply map_settled. intros x I. apply IH; [done|]. by eapply max_of_le. }
  assert (forall names, map (mangle_ident st') (map (mangle_ident st) names) = map (mangle_ident st) names) as Names.
  { intros names. apply map_settled. intros x _. apply S. }
  destruct node as [| | | |t b o|t i b o|t b o| | | | | |star b hs o f|items b|subj cases|d|d|name bases kws b ds| |t i b o|items b| | | | | |];
    cbn [fold_stmt node_height] in *; f_equal;
    try (f_equal; rewrite ?Expr, ?Exprs, ?Opt, ?Names, ?Block, ?fold_items_settled by (done || lia); reflexivity).
  - rewrite !Block by (done || lia). f_equal. apply map_settled. intros [ty h hb] I.
    assert (handler_height (mkExceptHandler ty h hb) <= n)%nat as Lh by (apply (max_of_le handler_height hs); [lia|done]).
    cbn in Lh. by rewrite Opt, Block by (done || lia).
  - rewrite Expr. f_equal. apply map_settled. intros [q g cb] I.
    assert (case_height (mkCase q g cb) <= n)%nat as Lc by (apply (max_of_le case_height cases); [lia|done]).
    cbn in Lc. by rewrite Opt, fold_pattern_settled, Block by (done || lia).
  - destruct d as [name a b ds ret]. cbn in L |- *. rewrite Exprs, Opt, S, Block by (done || lia).
    by rewrite (arguments_settled st st' (args_height a)) by (done || intros; apply Expr).
  - destruct d as [name a b ds ret]. cbn in L |- *. rewrite Exprs, Opt, S, Block by (done || lia).
    by rewrite (arguments_settled st st' (args_height a)) by (done || intros; apply Expr).
  - rewrite S, !Exprs. rewrite Block by (lia || apply settled_class).
    rewrite (keywords_settled st st' (max_of (fun k => expr_height (snd k)) kws)) by (done || intros; apply Expr). done.
Qed.

(** Mangling is idempotent: a suite whose private names have been rewritten is
    left as it is by a second pass, classes nested in classes included, although
    the second pass sees the rewritten names of the classes. *)
Theorem mangling_idempotent suite : mangle_private_names (mangle_private_names suite) = mangle_private_names suite.
Proof.
  apply map_settled. intros s _. by apply (fold_stmt_settled (stmt_height s)).
Qed.

(** ** What the passes leave out *)

(** The parameter of a method keeps its private name, which its uses lose. *)
Lemma mangling_skips_parameters :
  let method name := At 0 (SFunctionDef (mkFunction "get" (mkArguments [] [mkArgument "__x" None None] [] None None)
                             [At 0 (SReturn (Some (EName name)))] [] None)) in
  mangle_private_names [At 0 (SClassDef "C" [] [] [method "__x"%string] [])] =
  [At 0 (SClassDef "C" [] [] [method "_C__x"%string] [])].
Proof. reflexivity. Qed.

(** A name captured by a pattern is not among the names a body binds. *)
Lemma captures_not_collected : collect_assigned_names
  [At 0 (SMatch (EName "v") [mkCase (PAs None (Some "y"%string)) None [At 0 SPass]])] = ([], []).
Proof. reflexivity. Qed.

(** A [yield] in the header of a [with] does not make a generator. *)
Lemma with_header_yields_not_seen : contains_yield_stmts [At 0 (SWith [mkWithItem (EYield None) None] [At 0 SPass])] = false.
Proof. reflexivity. Qed.

(** Different defaults print alike: [(-x).real] and [-(x.real)], [(lambda: f)()] and
    [lambda: f()], [lambda *, k: k] and [lambda k: k]. *)
Lemma defaults_print_alike :
  unparse_expr (EAttribute (EUnaryOp USub (EName "x")) "real") = unparse_expr (EUnaryOp USub (EAttribute (EName "x") "real")) /\
  unparse_expr (ECall (ELambda (mkArguments [] [] [] None None) (EName "f")) [] []) =
    unparse_expr (ELambda (mkArguments [] [] [] None None) (ECall (EName "f") [] [])) /\
  unparse_expr (ELambda (mkArguments [] [] [mkArgument "k" None None] None None) (EName "k")) =
    unparse_expr (ELambda (mkArguments [] [mkArgument "k" None None] [] None None) (EName "k")).
Proof. repeat split. Qed.
