(* ===== verification/DisplaysThms.v ===== *)
(** Comprehensions (eval/comprehensions.rs): the names they iterate over are put
    back, and a list comprehension is the nested loops it stands for. *)
From Stdlib Require Import ZArith Lia Ascii String SpecFloat.
From stdpp Require Import base tactics list numbers option strings pretty gmap.
From S2P Require Import Prelude PySet Values Errors F64 Keys Arith ValueEq Classes Slices SlicesThms Compare Operators State StateThms Exceptions Op Syntax.
From S2P Require Import Names Unparse Mangle Params Host Displays Eval Definitions Match Stmts Functions Samples StmtsThms CallsThms.

Section Comprehensions.
Context `{External} `{!ExternalOrder} `{!Platform} `{!Formats} `{!Calls} `{!Estimates} `{!Environment} `{!Host}.
Variable eval : InterpreterState -> PyExpr -> Eval Value.

(** ** The names of the targets *)

Lemma in_own_scope_variables {A} stepped (leaf : InterpreterState -> A -> Eval A) gens s acc n :
  n ∈ collect_generator_target_names gens ->
  variables (in_own_scope eval stepped leaf gens s acc).1 !! n = variables s !! n.
Proof.
  intros I. unfold in_own_scope. destruct (eval_generators _ _ _ _ _ _) as [s1 r]. cbn. by apply restore_captured.
Qed.

(** C22: a list or dictionary comprehension leaves every name it iterates over as
    it was, bound to the same value or unbound, whether it returns, fails half way
    or is refused. *)
Theorem comprehension_targets_restored s elt k v gens n :
  n ∈ collect_generator_target_names gens ->
  variables (eval_list_comp eval s elt gens).1 !! n = variables s !! n /\
  variables (eval_dict_comp eval s k v gens).1 !! n = variables s !! n.
Proof.
  intros I. unfold eval_list_comp, eval_dict_comp. split.
  - destruct (check_walrus_rebind gens [elt]) as [[]|e|]; [|done..]. cbn [done and_then].
    pose proof (in_own_scope_variables true (append_element eval elt) gens s [] n I) as V.
    destruct (in_own_scope _ _ _ _ _ _) as [s1 [vs|e|]]; [|exact V..]. cbn [and_then fst] in *.
    unfold in_heap. destruct (new_list (heap s1) vs) as [[]| |]; exact V.
  - destruct (check_walrus_rebind gens [k; v]) as [[]|e|]; [|done..]. cbn [done and_then].
    pose proof (in_own_scope_variables false (insert_pair eval k v) gens s [] n I) as V.
    destruct (in_own_scope _ _ _ _ _ _) as [s1 [vs|e|]]; [|exact V..]. cbn [and_then fst] in *.
    unfold alloc_dict. by destruct (shared_dict (heap s1) vs).
Qed.

(** ** What a comprehension means

    Nested loops, over whatever evaluator the expressions have: no fuel and no
    accumulator, each part running in the state the part before it left. *)

(** What a loop draws its items from: a list drawn beforehand, a range, which counts in
    64 bits, or an iterator stepped at most so many times. *)
Inductive Source : Type :=
| Drawn (items : list Value)
| Counting (i stop step : Z)
| Stepped (iterator : Value) (bound : nat).

Definition opens (s : InterpreterState) (v : Value) (s' : InterpreterState) (src : Source) : Prop :=
  match v with
  | VRange start stop step => s' = s /\ src = Counting start stop step
  | VGenerator _ | VBuiltinIter _ _ => s' = s /\ src = Stepped v (iterator_bound s)
  | _ => exists items, iter nesting s v = (s', Ok items) /\ src = Drawn items
  end.

(** A member is left to count. *)
Definition counts (i stop step : Z) : Prop := if 0 <? step then i < stop else step < 0 /\ stop < i.

Definition counted (i stop step : Z) : Source := if in_i64 (i + step) then Counting (i + step) stop step else Drawn [].

Inductive pull (s : InterpreterState) : Source -> InterpreterState -> option (Value * Source) -> Prop :=
| pull_item item items : pull s (Drawn (item :: items)) s (Some (item, Drawn items))
| pull_none : pull s (Drawn []) s None
| pull_member i stop step : counts i stop step -> pull s (Counting i stop step) s (Some (VInt i, counted i stop step))
| pull_past i stop step : ~ counts i stop step -> pull s (Counting i stop step) s None
| pull_next it n s' item : next_item s it = (s', Ok item) -> pull s (Stepped it (S n)) s' (Some (item, Stepped it n))
| pull_stop it n s' e : next_item s it = (s', Err (Exception e)) -> exc_type_name e = "StopIteration"%string ->
    pull s (Stepped it (S n)) s' None.

(** A loop: the results of its rounds, in order. *)
Inductive loops (round : InterpreterState -> Value -> InterpreterState -> list Value -> Prop) :
    Source -> InterpreterState -> InterpreterState -> list Value -> Prop :=
| loops_end src s s' : pull s src s' None -> loops round src s s' []
| loops_item src s s1 item src' s2 out s' rest :
    pull s src s1 (Some (item, src')) -> round s1 item s2 out -> loops round src' s2 s' rest ->
    loops round src s s' (out ++ rest).

(** The conditions of a generator, in order up to the first that does not hold. *)
Inductive conditions : InterpreterState -> list PyExpr -> InterpreterState -> bool -> Prop :=
| all_hold s : conditions s [] s true
| one_fails s c cs s1 v s2 : eval_resolved eval s c = (s1, Ok v) -> truthy s1 v = (s2, Ok false) -> conditions s (c :: cs) s2 false
| one_holds s c cs s1 v s2 s3 b : eval_resolved eval s c = (s1, Ok v) -> truthy s1 v = (s2, Ok true) ->
    conditions s2 cs s3 b -> conditions s (c :: cs) s3 b.

(** The elements the generators produce, from one state to another. *)
Fixpoint runs (elt : PyExpr) (generators : list Comprehension) (s s' : InterpreterState) (out : list Value) : Prop :=
  match generators with
  | [] => exists v, eval s elt = (s', Ok v) /\ out = [v]
  | mkComprehension target i ifs _ :: generators =>
      exists s1 v s2 src, eval_resolved eval s i = (s1, Ok v) /\ opens s1 v s2 src /\
        loops (fun s item s' out =>
          exists s3 s4 kept, set_comprehension_target s target item = (s3, Ok ()) /\ conditions s3 ifs s4 kept /\
            if kept : bool then runs elt generators s4 s' out else s' = s4 /\ out = []) src s2 s' out
  end.

(** ** The evaluator runs them *)

Lemma bind_ok {A B} (m : Eval A) (k : InterpreterState -> A -> Eval B) s' b :
  (let? (s, a) := m in k s a) = (s', Ok b) <-> exists s a, m = (s, Ok a) /\ k s a = (s', Ok b).
Proof.
  split; [|by intros (s1 & a & -> & E)]. destruct m as [s [a|e|]]; cbn; [eauto|done..].
Qed.

Lemma filters_conditions ifs : forall s s' b, eval_filters eval s ifs = (s', Ok b) <-> conditions s ifs s' b.
Proof.
  induction ifs as [|c cs IH]; intros s s' b; cbn [eval_filters].
  - split; [intros [= <- <-]; constructor|by inversion 1].
  - rewrite bind_ok. split.
    + intros (s1 & v & E1 & (s2 & holds & E2 & E3)%bind_ok). destruct holds.
      * apply IH in E3. exact (one_holds _ _ _ _ _ _ _ _ E1 E2 E3).
      * injection E3 as <- <-. exact (one_fails _ _ _ _ _ _ E1 E2).
    + intros C. inversion C as [|? ? ? s1 v s2 E1 E2|? ? ? s1 v s2 s3 b1 E1 E2 E3]; subst; exists s1, v; (split; [done|]); apply bind_ok.
      * by exists s', false.
      * exists s2, true. split; [done|]. by apply IH.
Qed.

Section Rounds.
Variable visit : InterpreterState -> Value -> list Value -> Eval (list Value).
Variable round : InterpreterState -> Value -> InterpreterState -> list Value -> Prop.
Hypothesis visit_round : forall s item acc s' r,
  visit s item acc = (s', Ok r) <-> exists out, r = acc ++ out /\ round s item s' out.

(** The results after one round and those of the rounds that follow. *)
Lemma round_then s1 item acc src' s' r k :
  (forall s2 acc2, k s2 acc2 = (s', Ok r) <-> exists out, r = acc2 ++ out /\ loops round src' s2 s' out) ->
  (let? (s, acc) := visit s1 item acc in k s acc) = (s', Ok r) <->
  exists s2 out rest, r = acc ++ out ++ rest /\ round s1 item s2 out /\ loops round src' s2 s' rest.
Proof.
  intros K. rewrite bind_ok. split.
  - intros (s2 & acc2 & (out & -> & R)%visit_round & (rest & -> & L)%K). exists s2, out, rest. by rewrite app_assoc.
  - intros (s2 & out & rest & -> & R & L). exists s2, (acc ++ out). split; [apply visit_round; eauto|].
    apply K. exists rest. by rewrite app_assoc.
Qed.

Lemma loops_pull src s s' out s1 item src' : pull s src s1 (Some (item, src')) ->
  (forall s2 o, pull s src s2 o -> s2 = s1 /\ o = Some (item, src')) ->
  (exists s2 out1 rest, out = out1 ++ rest /\ round s1 item s2 out1 /\ loops round src' s2 s' rest) <-> loops round src s s' out.
Proof.
  intros P U. split.
  - intros (s2 & out1 & rest & -> & R & L). by eapply loops_item.
  - inversion 1 as [? ? ? P'|? ? s1' item' src'' s2 out1 ? rest P' R L]; subst; apply U in P' as [-> [=]]; subst; eauto 8.
Qed.

Lemma loops_stop src s s1 s' out : pull s src s1 None -> (forall s2 o, pull s src s2 o -> s2 = s1 /\ o = None) ->
  loops round src s s' out <-> s' = s1 /\ out = [].
Proof.
  intros P U. split; [|intros [-> ->]; by apply loops_end].
  inversion 1 as [? ? ? P'|? ? ? ? ? ? ? ? ? P']; subst; apply U in P' as [? ?]; by subst.
Qed.

Lemma stop_out src s s1 s' (acc r : list Value) : pull s src s1 None -> (forall s2 o, pull s src s2 o -> s2 = s1 /\ o = None) ->
  (s1, @Ok EvalError _ acc) = (s', Ok r) <-> exists out, r = acc ++ out /\ loops round src s s' out.
Proof.
  intros P U. split.
  - intros [= -> ->]. exists []. rewrite app_nil_r. split; [done|]. by apply loops_end.
  - intros (out & -> & (-> & ->)%(loops_stop src s s1)); [|done..]. by rewrite app_nil_r.
Qed.

Lemma item_out src s s1 item src' (acc r : list Value) s' k : pull s src s1 (Some (item, src')) ->
  (forall s2 o, pull s src s2 o -> s2 = s1 /\ o = Some (item, src')) ->
  (forall s2 acc2, k s2 acc2 = (s', Ok r) <-> exists out, r = acc2 ++ out /\ loops round src' s2 s' out) ->
  (let? (s, acc) := visit s1 item acc in k s acc) = (s', Ok r) <-> exists out, r = acc ++ out /\ loops round src s s' out.
Proof.
  intros P U K. rewrite (round_then s1 item acc src' s' r k K). setoid_rewrite <- (loops_pull src s s' _ s1 item src' P U). split.
  - intros (s2 & out & rest & -> & R & L). eauto 8.
  - intros (out & -> & s2 & out1 & rest & -> & R & L). eauto 8.
Qed.

Lemma items_loop items : forall s acc s' r,
  visit_items visit s items acc = (s', Ok r) <-> exists out, r = acc ++ out /\ loops round (Drawn items) s s' out.
Proof.
  induction items as [|item items IH]; intros s acc s' r; cbn [visit_items].
  - apply stop_out; [constructor|]. by inversion 1.
  - apply (item_out _ s s item (Drawn items)); [constructor|by inversion 1|]. intros. apply IH.
Qed.

Lemma counts_spec i stop step : counts i stop step <-> ((step >? 0) && (i <? stop)) || ((step <? 0) && (i >? stop)) = true.
Proof.
  unfold counts. destruct (Z.ltb_spec 0 step), (Z.gtb_spec step 0), (Z.ltb_spec step 0), (Z.ltb_spec i stop), (Z.gtb_spec i stop);
    cbn; intuition (lia || congruence).
Qed.

Lemma range_loop stop step : forall fuel i, (Z.to_nat (range_count i stop step) < fuel)%nat -> forall s acc s' r,
  visit_range visit fuel s stop step i acc = (s', Ok r) <-> exists out, r = acc ++ out /\ loops round (Counting i stop step) s s' out.
Proof.
  induction fuel as [|fuel IH]; intros i F s acc s' r; [lia|]. cbn [visit_range].
  destruct (((step >? 0) && (i <? stop)) || ((step <? 0) && (i >? stop))) eqn:C.
  - pose proof (proj2 (counts_spec i stop step) C) as Cs.
    apply (item_out _ s s (VInt i) (counted i stop step)); [by constructor|by inversion 1|].
    intros s2 acc2. unfold checked, counted. destruct (in_i64 (i + step)); [|apply (items_loop [])].
    apply IH. assert (step <> 0) as Nz by (intros ->; done). rewrite range_count_ok, Nat2Z.id in * by done.
    rewrite in_range_steps in C by done. destruct (steps i stop step) as [|n] eqn:E; [done|]. apply steps_next in E; [|done]. lia.
  - assert (~ counts i stop step) as N by (rewrite counts_spec; congruence).
    apply stop_out; [by apply pull_past|]. by inversion 1.
Qed.

Lemma iterator_loop it : forall n s acc s' r,
  visit_iterator visit n s it acc = (s', Ok r) <-> exists out, r = acc ++ out /\ loops round (Stepped it n) s s' out.
Proof.
  induction n as [|n IH]; intros s acc s' r; cbn [visit_iterator].
  { split; [done|]. intros (out & _ & L). inversion L as [? ? ? P|? ? ? ? ? ? ? ? ? P]; subst; inversion P. }
  destruct (next_item s it) as [s1 [item|e|]] eqn:E.
  - apply (item_out _ s s1 item (Stepped it n)); [exact (pull_next s it n s1 item E)|inversion 1; subst; split; congruence|]. intros. apply IH.
  - assert (forall s2 o, (forall x, e = Exception x -> exc_type_name x <> "StopIteration"%string) -> ~ pull s (Stepped it (S n)) s2 o) as No.
    { intros s2 o N P. inversion P as [| | | |? ? ? ? E'|? ? ? e' E' St]; subst; rewrite E in E'; [done|]. injection E' as _ ->. by apply (N e'). }
    assert ((forall x, e = Exception x -> exc_type_name x <> "StopIteration"%string) -> forall out, ~ loops round (Stepped it (S n)) s s' out) as Nl.
    { intros N out L. inversion L as [? ? ? P|? ? ? ? ? ? ? ? ? P]; subst; by apply No in P. }
    destruct e as [e|c|e]; [split; [done|intros (out & _ & L); by apply Nl in L]..|].
    destruct (bool_decide (exc_type_name e = "StopIteration"%string)) eqn:B.
    + apply bool_decide_eq_true in B. apply stop_out; [exact (pull_stop s it n s1 e E B)|]. inversion 1; subst; split; congruence.
    + apply bool_decide_eq_false in B. split; [done|]. intros (out & _ & L). apply Nl in L; [done|]. intros x [= ->]. done.
  - split; [done|]. intros (out & _ & L). inversion L as [? ? ? P|? ? ? ? ? ? ? ? ? P]; subst; inversion P; congruence.
Qed.

Lemma iterable_loop s v acc s' r :
  visit_iterable visit true s v acc = (s', Ok r) <->
  exists s1 src out, opens s v s1 src /\ r = acc ++ out /\ loops round src s1 s' out.
Proof.
  assert (forall m, (let? (s, items) := m in visit_items visit s items acc) = (s', Ok r) <->
    exists s1 src out, (exists items, m = (s1, Ok items) /\ src = Drawn items) /\ r = acc ++ out /\ loops round src s1 s' out) as Items.
  { intros m. rewrite bind_ok. split.
    - intros (s1 & items & E & (out & -> & L)%items_loop). eauto 10.
    - intros (s1 & src & out & (items & E & ->) & -> & L). exists s1, items. split; [done|]. apply items_loop. eauto. }
  destruct v; try (apply Items); unfold visit_iterable; cbn [opens].
  - rewrite range_loop by lia. split; [intros (out & -> & L); eauto 10|intros (s1 & src & out & (-> & ->) & -> & L); eauto].
  - rewrite iterator_loop. split; [intros (out & -> & L); eauto 10|intros (s1 & src & out & (-> & ->) & -> & L); eauto].
  - rewrite iterator_loop. split; [intros (out & -> & L); eauto 10|intros (s1 & src & out & (-> & ->) & -> & L); eauto].
Qed.
End Rounds.

Lemma generators_run elt gens : forall s acc s' r,
  eval_generators eval true (append_element eval elt) gens s acc = (s', Ok r) <->
  exists out, r = acc ++ out /\ runs elt gens s s' out.
Proof.
  induction gens as [|[target i ifs a] gens IH]; intros s acc s' r; cbn [eval_generators runs].
  - unfold append_element. rewrite bind_ok. split.
    + intros (s1 & v & E & [= -> <-]). eauto 10.
    + intros (out & -> & v & E & ->). eauto.
  - match goal with |- context [visit_iterable ?f] => match goal with |- context [loops ?rd] =>
      assert (forall s item acc s' r, f s item acc = (s', Ok r) <-> exists out, r = acc ++ out /\ rd s item s' out) as V end end.
    + intros s1 item acc1 s2 r1. cbv beta. rewrite bind_ok. split.
      * intros (s3 & [] & E3 & (s4 & kept & C%filters_conditions & E4)%bind_ok). destruct kept.
        -- apply IH in E4 as (out & -> & R). exists out. split; [done|]. by exists s3, s4, true.
        -- injection E4 as <- <-. exists []. rewrite app_nil_r. split; [done|]. by exists s3, s4, false.
      * intros (out & -> & s3 & s4 & kept & E3 & C & R). exists s3, (). split; [done|]. apply bind_ok. exists s4, kept.
        split; [by apply filters_conditions|]. destruct kept; [apply IH; eauto|]. destruct R as [-> ->]. by rewrite app_nil_r.
    + rewrite bind_ok. split.
      * intros (s1 & v & E & (s2 & src & out & O & -> & L)%(iterable_loop _ _ V)). exists out. split; [done|]. by exists s1, v, s2, src.
      * intros (out & -> & s1 & v & s2 & src & E & O & L). exists s1, v. split; [done|]. apply (iterable_loop _ _ V). by exists s2, src, out.
Qed.

(** C16: a list comprehension is its nested loops, whatever effects the parts have:
    it returns a value exactly when the loops run to their end ([runs]: every iterable
    evaluated and walked, every item assigned to its targets, the conditions tested in
    order up to the first that fails, and for the items that pass the inner loops and
    then the element), and it returns a new list of exactly the elements in the order
    of the loops, with the target names put back. An iterator is stepped at most
    [iterator_bound] times, more than the operation limit allows. *)
Theorem list_comp_maps_and_filters s elt gens s' v :
  check_walrus_rebind gens [elt] = Ok () ->
  eval_list_comp eval s elt gens = (s', Ok v) <->
  exists s1 out l h, runs elt gens s s1 out /\ shared_list (heap s1) out = (l, h) /\ v = VList l /\
    s' = set_heap h (restore (capture s (collect_generator_target_names gens)) s1).
Proof.
  intros C. unfold eval_list_comp. rewrite C. cbn [done and_then]. rewrite bind_ok. unfold in_own_scope.
  destruct (eval_generators _ _ _ _ _ _) as [s1 r] eqn:E. split.
  - intros (s2 & out & [= <- ->] & H'). apply generators_run in E as (out' & -> & R). cbn [app] in *.
    unfold in_heap, new_list in H'. change (heap (restore ?c s1)) with (heap s1) in H'.
    destruct (shared_list (heap s1) out') as [l h] eqn:L. injection H' as <- <-. eauto 10.
  - intros (s2 & out & l & h & R & L & -> & ->).
    assert (eval_generators eval true (append_element eval elt) gens s [] = (s2, Ok out)) as E'
      by (apply generators_run; by exists out).
    rewrite E' in E. injection E as <- <-. eexists _, _. split; [done|]. unfold in_heap, new_list.
    change (heap (restore ?c s2)) with (heap s2). by rewrite L.
Qed.
End Comprehensions.

(** ** Witnesses *)

(** [[x for x in (1, 2, 3) if x > 1]], by the evaluator itself. *)
Definition sample_comprehension : list Comprehension :=
  [mkComprehension (EName "x") (ETuple (map (fun n => EConstant (CInt n)) [1; 2; 3]))
     [ECompare (EName "x") [Rich OpGt] [EConstant (CInt 1)]] false].

Definition small_int (v : Value) : option Z := match v with VInt n => Some n | _ => None end.

Lemma small_ints vs : forall ns, map small_int vs = map Some ns -> vs = map VInt ns.
Proof.
  induction vs as [|v vs IH]; intros [|n ns] E; try done. cbn in *. injection E as Ev Es. f_equal; [|by apply IH].
  destruct v; by inversion Ev.
Qed.

Lemma list_comp_maps_and_filters_witness :
  exists s' v s1, eval_list_comp eval_expr fresh_state (EName "x") sample_comprehension = (s', Ok v) /\
    runs eval_expr (EName "x") sample_comprehension fresh_state s1 [VInt 2; VInt 3].
Proof.
  assert (match eval_list_comp eval_expr fresh_state (EName "x") sample_comprehension with
          | (s', Ok (VList l)) => map small_int (list_at (heap s') l)
          | _ => []
          end = [Some 2; Some 3]) as O by (vm_compute; reflexivity).
  destruct (eval_list_comp eval_expr fresh_state (EName "x") sample_comprehension) as [s' r] eqn:E.
  destruct r as [v|e|]; [|discriminate..].
  destruct (proj1 (list_comp_maps_and_filters eval_expr fresh_state (EName "x") sample_comprehension s' v eq_refl) E)
    as (s1 & out & l & h & R & L & -> & ->).
  unfold shared_list in L. injection L as <- <-. unfold list_at in O. cbn in O. rewrite lookup_insert_eq in O.
  apply (small_ints out [2; 3]) in O. rewrite O in R. eexists _, _, s1. split; [reflexivity|exact R].
Defined.

Lemma comprehension_targets_restored_witness :
  let s := set_variables {["x"%string := VInt 7]} fresh_state in
  let gens := [mkComprehension (EName "x") (EYield None) [] false] in
  variables (eval_list_comp eval_expr s (EName "x") gens).1 !! "x"%string = variables s !! "x"%string /\
  variables (eval_dict_comp eval_expr s (EName "x") (EName "y") gens).1 !! "x"%string = variables s !! "x"%string.
Proof.
  cbv zeta. apply (comprehension_targets_restored eval_expr). left.
Defined.
