(* ===== verification/Serialize.v ===== *)
(** Checkpoints ([serialize.rs]): exporting the interpreter's variables and
    classes to a versioned blob, and the import that validates one before it
    replaces the state. The JSON codec ([serde_json] with the derived
    serializers), the parser and the byte estimate are parameters. *)
From Stdlib Require Import ZArith Lia Ascii String Sorting.
From stdpp Require Import base tactics list numbers option strings pretty gmap sorting.
From S2P Require Import Prelude PySet Values Errors F64 Keys Arith Classes ValueEq State Exceptions.

Definition STATE_FORMAT_VERSION : Z := 16.
Definition VERSION_PREFIX_SIZE : nat := 4.
Definition MAX_IMPORT_SIZE : Z := 16 * 1024 * 1024.

(** [u32::to_le_bytes] and [u32::from_le_bytes]. *)
Definition to_le_bytes (v : Z) : list Z := [v mod 256; v / 256 mod 256; v / 65536 mod 256; v / 16777216 mod 256].
Definition from_le_bytes (b : list Z) : Z := foldr (fun c v => c + 256 * v) 0 b.

(** Iteration over a [BTreeMap]: in the order of its keys. *)
Definition key_le {A} (x y : string * A) : Prop := String.leb x.1 y.1 = true.
#[export] Instance key_le_dec {A} : RelDecision (@key_le A) :=
  fun x y => bool_eq_dec (String.leb x.1 y.1) true.
Definition btree_iter {A} (m : gmap string A) : list (string * A) := merge_sort key_le (map_to_list m).

Section Serialize.
Context `{External} `{!Trees}.

(** What a decoded blob consists of: the two maps, and the objects decoding
    allocates for the shared containers and functions among them. *)
Record SerializedState : Type := mkSerialized {
  ss_variables : gmap string Value;
  ss_classes : gmap string ClassValue;
  ss_heap : Heap;
  ss_functions : gmap loc FunctionDef;
  ss_lambdas : gmap loc LambdaDef
}.

Variable to_vec : SerializedState -> string + list Z.
Variable from_slice : list Z -> InterpreterState -> string + SerializedState.
Variable parse : string -> InterpreterError + list Stmt.
Variable size : Heap -> Value -> Z.

Definition starts_with_underscore (key : string) : bool :=
  match key with String c _ => Ascii.eqb c "_" | EmptyString => false end.

Definition is_lazy_proxy (v : Value) : bool := match v with VLazyProxy _ => true | _ => false end.

(** The variables a checkpoint keeps. *)
Definition exported (kv : string * Value) : bool :=
  negb (starts_with_underscore kv.1) && negb (is_lazy_proxy kv.2).

Definition checkpoint (s : InterpreterState) : SerializedState :=
  mkSerialized (filter (fun kv => exported kv = true) (variables s)) (classes s) (heap s) (functions s) (lambdas s).

Definition export_state (s : InterpreterState) : InterpreterError + list Z :=
  match to_vec (checkpoint s) with
  | inl e => inl (Runtime ("failed to serialize state: " ++ e))
  | inr body => inr (to_le_bytes STATE_FORMAT_VERSION ++ body)
  end.

(** ** Import *)

Fixpoint check_names (keys : list string) : option InterpreterError :=
  match keys with
  | [] => None
  | key :: keys =>
      if is_name_allowed key then check_names keys
      else Some (Security ("imported state contains dangerous variable name '" ++ key ++ "'"))
  end.

(** The checks of one restored function, giving its body. *)
Definition restore_function (name : string) (func : FunctionDef) : InterpreterError + list Stmt :=
  match parse (source func) with
  | inl e => inl (Runtime ("failed to re-parse function '" ++ name ++ "': " ++ display_error e))
  | inr stmts =>
      if negb (length stmts =? 1)%nat then
        inl (Security ("imported function '" ++ name ++ "' source contains " ++
               pretty (Z.of_nat (length stmts)) ++ " statements (expected 1)"))
      else
        match head stmts ≫= as_function_def with
        | Some (declared, body) =>
            if negb (String.eqb declared name) then
              inl (Security ("imported function source declares '" ++ declared ++ "' but key is '" ++ name ++ "'"))
            else if negb (String.eqb (f_name func) name) then
              inl (Security ("imported function '" ++ name ++ "' carries a mismatched inner name '" ++
                     f_name func ++ "'"))
            else inr body
        | None => inl (Security ("imported function '" ++ name ++ "' source is not a function definition"))
        end
  end.

(** (Every function value has its record; a location without one does not occur.) *)
Fixpoint restore_functions (fs : gmap loc FunctionDef) (vars : list (string * Value)) :
    InterpreterError + list (string * list Stmt) :=
  match vars with
  | [] => inr []
  | (name, VFunction l) :: vars =>
      match fs !! l with
      | None => restore_functions fs vars
      | Some func =>
          match restore_function name func with
          | inl e => inl e
          | inr body =>
              match restore_functions fs vars with
              | inl e => inl e
              | inr bodies => inr ((name, body) :: bodies)
              end
          end
      end
  | _ :: vars => restore_functions fs vars
  end.

Definition restore_method (method : FunctionDef) : InterpreterError + (string * list Stmt) :=
  match parse (source method) with
  | inl e => inl (Runtime ("failed to re-parse method '" ++ f_name method ++ "': " ++ display_error e))
  | inr stmts =>
      match head stmts ≫= as_function_def with
      | Some (_, body) => inr (f_name method, body)
      | None => inl (Security ("imported method '" ++ f_name method ++ "' source is not a function definition"))
      end
  end.

(** The methods of the classes, in key order on both levels. *)
Definition all_methods (cs : gmap string ClassValue) : list FunctionDef :=
  flat_map (fun c => (btree_iter (methods c.2)).*2) (btree_iter cs).

Fixpoint restore_methods (ms : list FunctionDef) : InterpreterError + list (string * list Stmt) :=
  match ms with
  | [] => inr []
  | m :: ms =>
      match restore_method m with
      | inl e => inl e
      | inr body =>
          match restore_methods ms with
          | inl e => inl e
          | inr bodies => inr (body :: bodies)
          end
      end
  end.

Definition restore_lambda (d : LambdaDef) : InterpreterError + Expr :=
  match parse (lambda_source d) with
  | inl e => inl (Runtime ("failed to re-parse lambda '" ++ lambda_id d ++ "': " ++ display_error e))
  | inr parsed =>
      match head parsed ≫= as_expression with
      | None => inl (Security ("imported lambda '" ++ lambda_id d ++ "' source is not an expression statement"))
      | Some e =>
          match as_lambda_body e with
          | None => inl (Security ("imported lambda '" ++ lambda_id d ++ "' source does not parse as a lambda"))
          | Some body => inr body
          end
      end
  end.

(** Filling the lambda cache until one fails; the bodies restored so far stay. *)
Fixpoint restore_lambdas (ds : list LambdaDef) (cache : gmap string Expr) :
    gmap string Expr * option InterpreterError :=
  match ds with
  | [] => (cache, None)
  | d :: ds =>
      match restore_lambda d with
      | inl e => (cache, Some e)
      | inr body => restore_lambdas ds (<[lambda_id d := body]> cache)
      end
  end.

(** The lambdas among the variables' values, in the hash map's order. *)
Definition lambda_imports (s : InterpreterState) : list LambdaDef :=
  omap (fun kv => match kv.2 with VLambda l => lambdas s !! l | _ => None end) (map_to_list (variables s)).

Definition insert_all {A} (m : gmap string A) (l : list (string * A)) : gmap string A :=
  fold_left (fun m kv => <[kv.1 := kv.2]> m) l m.

(** Replacing the state: variables, classes and the function cache. *)
Definition install (st : SerializedState) (bodies : list (string * list Stmt)) (s : InterpreterState) :
    InterpreterState :=
  mkState (ss_variables st) (ss_classes st) (print_buffer s) (stdout_redirects s)
    (insert_all ∅ bodies) ∅ (current_source s) (body_source_stack s) (qualname_stack s) (operations_count s) (memory_used_bytes s)
    (call_depth s) (expr_depth s) (saved_expr_depth s) (yield_stack s) (generators s) (active_generator_stack s)
    (lazy_cursors s) (next_cursor_id s)
    (builtin_iters s) (next_builtin_iter_id s) (nonlocal_cells s) (next_nonlocal_cell_id s) (frame_cell_owners s) (config s)
    (ss_heap st) (ss_functions st) (ss_lambdas st) (active_exception_stack s) (eq_overflow s) (repr_active s) (function_attrs s) (decimal_prec s) (method_frames s).

Definition recompute_memory (s : InterpreterState) : InterpreterState :=
  set_memory (fold_left (fun n kv => saturating_add usize_max n (size (heap s) kv.2))
                (map_to_list (variables s)) 0) s.

(** The checks that precede any change: the decoded state with the bodies of
    its functions and methods. *)
Definition validate (data : list Z) (s : InterpreterState) :
    InterpreterError + (SerializedState * list (string * list Stmt)) :=
  if Z.of_nat (length data) >? MAX_IMPORT_SIZE then
    inl (LimitExceeded ("serialized state (" ++ pretty (Z.of_nat (length data)) ++
           " bytes) exceeds import limit (" ++ pretty MAX_IMPORT_SIZE ++ " bytes)"))
  else if (length data <? VERSION_PREFIX_SIZE)%nat then inl (StateFormatSuperseded 0 STATE_FORMAT_VERSION)
  else
    let found_version := from_le_bytes (take VERSION_PREFIX_SIZE data) in
    if negb (found_version =? STATE_FORMAT_VERSION)
    then inl (StateFormatSuperseded found_version STATE_FORMAT_VERSION)
    else
      match from_slice (drop VERSION_PREFIX_SIZE data) s with
      | inl e => inl (Runtime ("failed to deserialize state: " ++ e))
      | inr st =>
          match check_names (btree_iter (ss_variables st)).*1 with
          | Some e => inl e
          | None =>
              match restore_functions (ss_functions st) (btree_iter (ss_variables st)) with
              | inl e => inl e
              | inr bodies =>
                  match restore_methods (all_methods (ss_classes st)) with
                  | inl e => inl e
                  | inr method_bodies => inr (st, bodies ++ method_bodies)
                  end
              end
          end
      end.

Definition import_state (data : list Z) (s : InterpreterState) : InterpreterState * option InterpreterError :=
  match validate data s with
  | inl e => (s, Some e)
  | inr (st, bodies) =>
      let s := install st bodies s in
      let (cache, err) := restore_lambdas (lambda_imports s) ∅ in
      let s := set_program (classes s) (function_bodies s) cache s in
      match err with
      | Some e => (s, Some e)
      | None => check_memory (recompute_memory s)
      end
  end.
End Serialize.
