(* ===== verification/SerializeThms.v ===== *)
(** Theorems on checkpoints: what an accepted blob is, what a refused one leaves
    behind, and that a checkpoint is imported back. *)
From Stdlib Require Import ZArith Lia Ascii String Sorting.
From stdpp Require Import base tactics list numbers option strings pretty gmap sorting.
From S2P Require Import Prelude PySet Values Errors F64 Keys Arith Classes ValueEq State StateThms Exceptions Serialize.

(** * Maps and their iteration *)

Lemma btree_iter_elem {A} (m : gmap string A) x v : (x, v) ∈ btree_iter m <-> m !! x = Some v.
Proof. unfold btree_iter. rewrite merge_sort_Permutation. apply elem_of_map_to_list. Qed.

Lemma btree_iter_keys {A} (m : gmap string A) : NoDup (btree_iter m).*1.
Proof. unfold btree_iter. rewrite merge_sort_Permutation. apply NoDup_fst_map_to_list. Qed.

Lemma insert_all_app {A} (m : gmap string A) l l' : insert_all m (l ++ l') = insert_all (insert_all m l) l'.
Proof. unfold insert_all. by rewrite fold_left_app. Qed.

Lemma insert_all_other {A} (m : gmap string A) l x : x ∉ l.*1 -> insert_all m l !! x = m !! x.
Proof.
  unfold insert_all. revert m. induction l as [|[y v] l IH]; intros m Hx; [done|]. cbn in Hx |- *.
  apply not_elem_of_cons in Hx as [Hxy Hx]. rewrite IH by done. by apply lookup_insert_ne.
Qed.

Lemma insert_all_unique {A} (m : gmap string A) l x v : NoDup l.*1 -> (x, v) ∈ l -> insert_all m l !! x = Some v.
Proof.
  revert m. induction l as [|[y w] l IH]; intros m Hnd Hin; [by apply elem_of_nil in Hin|].
  cbn in Hnd. apply NoDup_cons in Hnd as [Hy Hnd]. apply elem_of_cons in Hin as [[= -> ->]|Hin].
  - change (insert_all (<[y := w]> m) l !! y = Some w). rewrite insert_all_other by done. apply lookup_insert_eq.
  - by apply (IH (<[y := w]> m)).
Qed.

Lemma insert_all_some {A} (m : gmap string A) l x : x ∈ l.*1 -> is_Some (insert_all m l !! x).
Proof.
  revert m. induction l as [|[y w] l IH]; intros m Hin; [by apply elem_of_nil in Hin|].
  cbn in Hin. apply elem_of_cons in Hin as [->|Hin]; [|by apply (IH (<[y := w]> m))].
  destruct (decide (y ∈ l.*1)) as [Hl|Hl]; [by apply (IH (<[y := w]> m))|].
  change (is_Some (insert_all (<[y := w]> m) l !! y)). rewrite insert_all_other by done.
  rewrite lookup_insert_eq. by eexists.
Qed.

Lemma check_names_ok keys : check_names keys = None <-> Forall (fun x => x ∉ DANGEROUS_NAMES) keys.
Proof.
  induction keys as [|x keys IH]; cbn [check_names]; [by split|]. rewrite Forall_cons, <- IH.
  unfold is_name_allowed. destruct (bool_decide_reflect (x ∈ DANGEROUS_NAMES)) as [Hx|Hx]; cbn; [|tauto].
  split; [done|]. by intros [? _].
Qed.

Section Importing.
Context `{External} `{!Trees}.
Variable to_vec : SerializedState -> string + list Z.
Variable from_slice : list Z -> InterpreterState -> string + SerializedState.
Variable parse : string -> InterpreterError + list Stmt.
Variable size : Heap -> Value -> Z.

(** A function record that declares [name] and nothing else. *)
Definition declares (name : string) (f : FunctionDef) (body : list Stmt) : Prop :=
  f_name f = name /\ exists st, parse (source f) = inr [st] /\ as_function_def st = Some (name, body).

Lemma restore_function_ok name f body :
  restore_function parse name f = inr body <-> declares name f body.
Proof.
  unfold restore_function, declares. split.
  - destruct (parse (source f)) as [e|[|st [|st2 stmts]]]; try done. cbn.
    destruct (as_function_def st) as [[declared body']|] eqn:E; [|done].
    destruct (String.eqb_spec declared name); [|done]. destruct (String.eqb_spec (f_name f) name); [|done].
    cbn. intros [= ->]. split; [done|]. exists st. by subst.
  - intros [Hn (st & -> & E)]. cbn. by rewrite E, Hn, String.eqb_refl.
Qed.

Lemma restore_functions_ok fs vars bodies :
  restore_functions parse fs vars = inr bodies ->
  (forall x l f, (x, VFunction l) ∈ vars -> fs !! l = Some f -> exists body, declares x f body /\ (x, body) ∈ bodies) /\
  (NoDup vars.*1 -> NoDup bodies.*1) /\ (forall x, x ∈ bodies.*1 -> x ∈ vars.*1).
Proof.
  revert bodies. induction vars as [|[x v] vars IH]; intros bodies.
  - intros [= <-]. split_and!; [|constructor|done]. intros x l f Hin. by apply elem_of_nil in Hin.
  - assert (Hskip : forall bodies, restore_functions parse fs vars = inr bodies ->
              (forall l f, v = VFunction l -> fs !! l = Some f -> False) ->
              (forall x0 l f, (x0, VFunction l) ∈ (x, v) :: vars -> fs !! l = Some f ->
                 exists body, declares x0 f body /\ (x0, body) ∈ bodies) /\
              (NoDup ((x, v) :: vars).*1 -> NoDup bodies.*1) /\
              (forall x0, x0 ∈ bodies.*1 -> x0 ∈ ((x, v) :: vars).*1)).
    { intros bodies' E Hno. destruct (IH _ E) as (Hf & Hnd & Hk). split_and!.
      - intros x0 l f Hin Hl. apply elem_of_cons in Hin as [[= -> <-]|Hin]; [|by eapply Hf].
        by destruct (Hno l f).
      - cbn. intros [_ Hd]%NoDup_cons. auto.
      - intros x0 Hx. cbn. apply elem_of_cons. auto. }
    cbn [restore_functions]. destruct v; try (intros E; apply Hskip; [done|]; by intros).
    destruct (fs !! f) as [func|] eqn:Ef.
    2: { intros E. apply Hskip; [done|]. intros l g [= <-]. congruence. }
    destruct (restore_function parse x func) as [e|body] eqn:Er; [done|].
    destruct (restore_functions parse fs vars) as [e|bodies'] eqn:Ev; [done|]. intros [= <-].
    destruct (IH _ eq_refl) as (Hf & Hnd & Hk). apply restore_function_ok in Er. split_and!.
    + intros x0 l g Hin Hl. apply elem_of_cons in Hin as [[= -> ->]|Hin].
      * rewrite Ef in Hl. injection Hl as <-. exists body. split; [done|]. left.
      * destruct (Hf _ _ _ Hin Hl) as (b & Hd & Hb). exists b. split; [done|]. by right.
    + cbn. intros [Hx Hd]%NoDup_cons. apply NoDup_cons. split; [|auto]. contradict Hx. auto.
    + cbn. intros x0 Hx. apply elem_of_cons in Hx as [->|Hx]; [left|right; auto].
Qed.

(** A method whose source is a definition. *)
Definition parses_as_definition (m : FunctionDef) : Prop :=
  exists st stmts d, parse (source m) = inr (st :: stmts) /\ as_function_def st = Some d.

Lemma restore_method_ok m :
  (exists body, restore_method parse m = inr (f_name m, body)) <-> parses_as_definition m.
Proof.
  unfold restore_method, parses_as_definition. split.
  - intros [body E]. destruct (parse (source m)) as [e|[|st stmts]]; try done. cbn in E.
    destruct (as_function_def st) as [d|] eqn:Ed; [|done]. by exists st, stmts, d.
  - intros (st & stmts & [n body] & -> & E). cbn. rewrite E. by eexists.
Qed.

Lemma restore_method_name m r : restore_method parse m = inr r -> r.1 = f_name m.
Proof. unfold restore_method. repeat case_match; try done. by intros [= <-]. Qed.

Lemma restore_methods_ok ms bodies :
  restore_methods parse ms = inr bodies -> bodies.*1 = f_name <$> ms /\ Forall parses_as_definition ms.
Proof.
  revert bodies. induction ms as [|m ms IH]; intros bodies; cbn [restore_methods]; [by intros [= <-]|].
  destruct (restore_method parse m) as [e|r] eqn:Em; [done|].
  destruct (restore_methods parse ms) as [e|bs]; [done|]. intros [= <-].
  destruct (IH _ eq_refl) as [E F]. pose proof (restore_method_name _ _ Em) as En. split.
  - cbn. by rewrite E, En.
  - constructor; [|done]. apply restore_method_ok. destruct r as [n b]. cbn in En. subst n. by exists b.
Qed.

Lemma restore_methods_total ms :
  Forall parses_as_definition ms -> exists bodies, restore_methods parse ms = inr bodies.
Proof.
  induction 1 as [|m ms Hm _ [bs IH]]; [by eexists|]. cbn. apply restore_method_ok in Hm as [body ->].
  rewrite IH. by eexists.
Qed.

Definition parses_as_lambda (d : LambdaDef) : Prop := exists body, restore_lambda parse d = inr body.

Lemma restore_lambdas_ok ds cache r :
  restore_lambdas parse ds cache = (r, None) ->
  Forall parses_as_lambda ds /\ (forall id, is_Some (cache !! id) -> is_Some (r !! id)) /\
  (forall d, d ∈ ds -> is_Some (r !! lambda_id d)).
Proof.
  revert cache. induction ds as [|d ds IH]; intros cache; cbn [restore_lambdas].
  - intros [= <-]. split_and!; [done|done|]. intros d Hd. by apply elem_of_nil in Hd.
  - destruct (restore_lambda parse d) as [e|body] eqn:Ed; [done|]. intros E.
    destruct (IH _ E) as (Hp & Hk & Hd). split_and!.
    + constructor; [by exists body|done].
    + intros id Hid. apply Hk. destruct (decide (lambda_id d = id)) as [<-|]; [|by rewrite lookup_insert_ne].
      rewrite lookup_insert_eq. by eexists.
    + intros d' [->|Hin]%elem_of_cons; [|auto]. apply Hk. rewrite lookup_insert_eq. by eexists.
Qed.

Lemma restore_lambdas_total ds cache :
  Forall parses_as_lambda ds -> exists r, restore_lambdas parse ds cache = (r, None).
Proof.
  intros Hd. revert cache. induction Hd as [|d ds [body E] _ IH]; intros cache; cbn; [by eexists|].
  rewrite E. apply IH.
Qed.

(** ** The gate *)

Definition method_names (cs : gmap string ClassValue) : list string := f_name <$> all_methods cs.

Lemma all_methods_elem cs c cv m :
  cs !! c = Some cv -> (exists x, methods cv !! x = Some m) -> m ∈ all_methods cs.
Proof.
  intros Hc [x Hx]. unfold all_methods. apply list_elem_of_In, in_flat_map.
  exists (c, cv). split; [by apply list_elem_of_In, btree_iter_elem|].
  apply list_elem_of_In, list_elem_of_fmap. exists (x, m). split; [done|]. by apply btree_iter_elem.
Qed.

Lemma all_methods_inv cs m :
  m ∈ all_methods cs -> exists c cv x, cs !! c = Some cv /\ methods cv !! x = Some m.
Proof.
  unfold all_methods. rewrite list_elem_of_In, in_flat_map. intros ([c cv] & Hc & Hm).
  apply list_elem_of_In, btree_iter_elem in Hc.
  apply list_elem_of_In, list_elem_of_fmap in Hm as ([x m'] & -> & Hm). apply btree_iter_elem in Hm.
  by exists c, cv, x.
Qed.

(** What the checks made before any change establish of a decoded blob. *)
Record valid_blob (st : SerializedState) (bodies : list (string * list Stmt)) : Prop := mkValid {
  vb_names : forall x v, ss_variables st !! x = Some v -> x ∉ DANGEROUS_NAMES;
  vb_functions : forall x l f, ss_variables st !! x = Some (VFunction l) -> ss_functions st !! l = Some f ->
    exists body, declares x f body /\
      (x ∉ method_names (ss_classes st) -> insert_all ∅ bodies !! x = Some body);
  vb_methods : forall c cv x m, ss_classes st !! c = Some cv -> methods cv !! x = Some m ->
    parses_as_definition m /\ is_Some (insert_all ∅ bodies !! f_name m)
}.

Lemma validate_ok data s st bodies :
  validate from_slice parse data s = inr (st, bodies) ->
  Z.of_nat (length data) <= MAX_IMPORT_SIZE /\ (VERSION_PREFIX_SIZE <= length data)%nat /\
  from_le_bytes (take VERSION_PREFIX_SIZE data) = STATE_FORMAT_VERSION /\
  from_slice (drop VERSION_PREFIX_SIZE data) s = inr st /\ valid_blob st bodies.
Proof.
  unfold validate. destruct (_ >? _) eqn:El; [done|]. destruct (_ <? _)%nat eqn:Ep; [done|].
  destruct (negb _) eqn:Ev; [done|].
  destruct (from_slice _ s) as [e|st'] eqn:Es; [done|].
  destruct (check_names _) eqn:En; [done|].
  destruct (restore_functions _ _ _) as [e|fbodies] eqn:Ef; [done|].
  destruct (restore_methods _ _) as [e|mbodies] eqn:Em; [done|]. intros [= <- <-].
  reflect El. apply Nat.ltb_ge in Ep. apply negb_false_iff, Z.eqb_eq in Ev.
  split_and!; try done.
  apply check_names_ok in En. destruct (restore_functions_ok _ _ _ Ef) as (Hf & Hnd & Hk).
  destruct (restore_methods_ok _ _ Em) as [Emn Hm]. constructor.
  - intros x v Hx. rewrite Forall_forall in En. apply En. apply list_elem_of_fmap.
    exists (x, v). split; [done|]. by apply btree_iter_elem.
  - intros x l f Hx Hl. apply btree_iter_elem in Hx. destruct (Hf _ _ _ Hx Hl) as (body & Hd & Hb).
    exists body. split; [done|]. intros Hn. rewrite insert_all_app, insert_all_other by by rewrite Emn.
    apply insert_all_unique; [|done]. apply Hnd, btree_iter_keys.
  - intros c cv x m Hc Hx. assert (Hin : m ∈ all_methods (ss_classes st')) by (eapply all_methods_elem; eauto).
    split; [by eapply Forall_forall in Hin; [|exact Hm]|].
    rewrite insert_all_app. apply insert_all_some. rewrite Emn. by apply list_elem_of_fmap_2.
Qed.

(** C29: A blob is imported only if it passes the whole gate: it is at most 16 MB, carries
    format version 16 and decodes; no variable has a dangerous name; every function
    variable's source parses to one definition of exactly the variable's name, which
    is also the record's; every method's source parses to a definition and every
    lambda's to a lambda; and the bytes accounted for are within the memory limit.
    The state then holds exactly the blob's variables and classes, and the parse
    caches hold a body for every function (its own, unless a method record bears
    its name), every method and every lambda. *)
Theorem import_gate (data : list Z) (s s' : InterpreterState) :
  import_state from_slice parse size data s = (s', None) ->
  exists st,
    Z.of_nat (length data) <= MAX_IMPORT_SIZE /\
    from_le_bytes (take VERSION_PREFIX_SIZE data) = STATE_FORMAT_VERSION /\
    from_slice (drop VERSION_PREFIX_SIZE data) s = inr st /\
    variables s' = ss_variables st /\ classes s' = ss_classes st /\
    valid_blob st (map_to_list (function_bodies s')) /\
    (forall x l d, variables s' !! x = Some (VLambda l) -> lambdas s' !! l = Some d ->
       parses_as_lambda d /\ is_Some (lambda_bodies s' !! lambda_id d)) /\
    memory_used_bytes s' <= max_memory_bytes (config s').
Proof.
  unfold import_state. destruct (validate _ _ _ _) as [e|[st bodies]] eqn:Ev; [done|].
  apply validate_ok in Ev as (Hl & Hp & Hver & Hs & [Vn Vf Vm]).
  set (s1 := install st bodies s). destruct (restore_lambdas _ _ _) as [cache err] eqn:El.
  destruct err as [e|]; [done|].
  set (s2 := recompute_memory _ _). unfold check_memory. destruct (over_memory s2) eqn:Eo; [done|]. intros [= <-].
  apply restore_lambdas_ok in El as (Hlp & _ & Hlk).
  assert (Eb : forall x, insert_all ∅ (map_to_list (insert_all ∅ bodies)) !! x = insert_all (∅ : gmap string (list Stmt)) bodies !! x).
  { intros x. destruct (insert_all ∅ bodies !! x) as [b|] eqn:E.
    - apply insert_all_unique; [apply NoDup_fst_map_to_list|]. by apply elem_of_map_to_list.
    - rewrite insert_all_other; [done|]. intros ([y b] & -> & Hy)%list_elem_of_fmap.
      apply elem_of_map_to_list in Hy. cbn in E. congruence. }
  exists st. split_and!; try done.
  - constructor; [done| |]; change (function_bodies s2) with (insert_all (∅ : gmap string (list Stmt)) bodies); setoid_rewrite Eb; [exact Vf|exact Vm].
  - intros x l d Hx Hd. assert (Hin : d ∈ lambda_imports s1).
    { unfold lambda_imports. apply list_elem_of_omap. exists (x, VLambda l).
      split; [by apply elem_of_map_to_list|done]. }
    split; [|by apply Hlk]. rewrite Forall_forall in Hlp. by apply Hlp.
  - unfold over_memory in Eo. destruct (_ >? _) eqn:E; [done|]. by reflect E.
Qed.

(** A refused import leaves the interpreter as it was, unless the refusal comes
    from one of the two checks made after the state has been replaced: a lambda of
    the blob that does not parse, or the memory limit. In those two cases the
    variables and classes are already the blob's. *)
Theorem refused_import (data : list Z) (s s' : InterpreterState) (e : InterpreterError) :
  import_state from_slice parse size data s = (s', Some e) ->
  s' = s \/
  exists st, from_slice (drop VERSION_PREFIX_SIZE data) s = inr st /\
    variables s' = ss_variables st /\ classes s' = ss_classes st /\
    ((exists x l d, ss_variables st !! x = Some (VLambda l) /\ ss_lambdas st !! l = Some d /\
        restore_lambda parse d = inl e) \/
     max_memory_bytes (config s) < memory_used_bytes s').
Proof.
  unfold import_state. destruct (validate _ _ _ _) as [e'|[st bodies]] eqn:Ev; [intros [= <- <-]; by left|].
  apply validate_ok in Ev as (_ & _ & _ & Hs & _).
  set (s1 := install st bodies s). destruct (restore_lambdas _ _ _) as [cache err] eqn:El.
  destruct err as [e'|].
  - intros [= <- <-]. right. exists st. split_and!; try done. left.
    assert (Hin : exists d, d ∈ lambda_imports s1 /\ restore_lambda parse d = inl e').
    { clear -El. revert El. generalize (∅ : gmap string Expr). induction (lambda_imports s1) as [|d ds IH]; intros c El; [done|].
      cbn in El. destruct (restore_lambda parse d) as [e|b] eqn:Ed.
      - injection El as -> ->. exists d. split; [left|done].
      - destruct (IH _ El) as (d' & Hd & E). exists d'. split; [by right|done]. }
    destruct Hin as (d & Hin & Ed). unfold lambda_imports in Hin.
    apply list_elem_of_omap in Hin as ([x v] & Hx & Hv). apply elem_of_map_to_list in Hx.
    cbn in Hv. destruct v; try done. by exists x, f, d.
  - set (s2 := recompute_memory _ _). unfold check_memory, over_memory. destruct (_ >? _) eqn:E; [|done].
    intros [= <- <-]. right. exists st. split_and!; try done. right.
    by reflect E.
Qed.

(** ** What the cache lacks after an import *)

Lemma restore_functions_keys fs vars bodies x :
  restore_functions parse fs vars = inr bodies -> x ∈ bodies.*1 -> exists l, (x, VFunction l) ∈ vars.
Proof.
  revert bodies. induction vars as [|[y v] vars IH]; intros bodies; cbn [restore_functions].
  - intros [= <-] Hx. by apply elem_of_nil in Hx.
  - assert (Hskip : forall bodies, restore_functions parse fs vars = inr bodies -> x ∈ bodies.*1 ->
              exists l, (x, VFunction l) ∈ (y, v) :: vars).
    { intros bs E Hx. destruct (IH _ E Hx) as [l Hl]. exists l. by right. }
    destruct v; try apply Hskip. destruct (fs !! f); [|apply Hskip].
    destruct (restore_function _ _ _) as [e|body]; [done|].
    destruct (restore_functions _ _ _) as [e|bs]; [done|]. intros [= <-] Hx.
    cbn in Hx. apply elem_of_cons in Hx as [->|Hx]; [exists f; left|by eapply Hskip].
Qed.

(** Only function variables and the methods of the classes get a body back.
    Static methods, class methods, property accessors, and functions held in
    containers do not, and calling one of those returns [None]. *)
Lemma import_cache_domain (data : list Z) (s s' : InterpreterState) k :
  import_state from_slice parse size data s = (s', None) -> is_Some (function_bodies s' !! k) ->
  (exists l, variables s' !! k = Some (VFunction l)) \/ k ∈ method_names (classes s').
Proof.
  unfold import_state, validate. destruct (_ >? _); [done|]. destruct (_ <? _)%nat; [done|].
  destruct (negb _); [done|]. destruct (from_slice _ s) as [e|st]; [done|]. destruct (check_names _); [done|].
  destruct (restore_functions _ _ _) as [e|fbodies] eqn:Ef; [done|].
  destruct (restore_methods _ _) as [e|mbodies] eqn:Em; [done|].
  destruct (restore_lambdas _ _ _) as [cache [e|]]; [done|].
  set (s2 := recompute_memory _ _). unfold check_memory. destruct (over_memory s2); [done|]. intros [= <-].
  change (function_bodies s2) with (insert_all (∅ : gmap string (list Stmt)) (fbodies ++ mbodies)).
  intros [b Hb]. assert (Hin : k ∈ (fbodies ++ mbodies).*1).
  { destruct (decide (k ∈ (fbodies ++ mbodies).*1)) as [|Hn]; [done|]. by rewrite insert_all_other in Hb. }
  rewrite fmap_app in Hin. apply elem_of_app in Hin as [Hin|Hin].
  - left. destruct (restore_functions_keys _ _ _ _ Ef Hin) as [l Hl]. exists l. by apply btree_iter_elem in Hl.
  - right. destruct (restore_methods_ok _ _ Em) as [E _]. by rewrite E in Hin.
Qed.

(** ** The round trip *)

Definition key_facts (f : FunctionDef) : string * string := (f_name f, source f).

(** What decoding keeps of a value: whether it is a function or a lambda, and
    the name and source of its record. *)
Definition same_value (a b : SerializedState) (v v' : Value) : Prop :=
  match v, v' with
  | VFunction l, VFunction l' => key_facts <$> ss_functions a !! l = key_facts <$> ss_functions b !! l'
  | VLambda l, VLambda l' => ss_lambdas a !! l = ss_lambdas b !! l'
  | VFunction _, _ | VLambda _, _ | _, VFunction _ | _, VLambda _ => False
  | _, _ => True
  end.

Record decodes_to (a b : SerializedState) : Prop := mkDecodes {
  dt_names : forall x, is_Some (ss_variables a !! x) <-> is_Some (ss_variables b !! x);
  dt_values : forall x v v', ss_variables a !! x = Some v -> ss_variables b !! x = Some v' -> same_value a b v v';
  dt_classes : (fun cv => key_facts <$> methods cv) <$> ss_classes a = (fun cv => key_facts <$> methods cv) <$> ss_classes b
}.

(** A state whose checkpoint its own import accepts. *)
Record importable (a : SerializedState) : Prop := mkImportable {
  im_names : forall x v, ss_variables a !! x = Some v -> x ∉ DANGEROUS_NAMES;
  im_functions : forall x l f, ss_variables a !! x = Some (VFunction l) -> ss_functions a !! l = Some f ->
    exists body, declares x f body;
  im_methods : forall c cv x m, ss_classes a !! c = Some cv -> methods cv !! x = Some m -> parses_as_definition m;
  im_lambdas : forall x l d, ss_variables a !! x = Some (VLambda l) -> ss_lambdas a !! l = Some d -> parses_as_lambda d
}.

Lemma declares_facts x f f' body : key_facts f = key_facts f' -> declares x f body -> declares x f' body.
Proof. unfold key_facts, declares. by intros [= -> ->]. Qed.

Lemma decoded_function a b x l' f' :
  decodes_to a b -> ss_variables b !! x = Some (VFunction l') -> ss_functions b !! l' = Some f' ->
  exists l f, ss_variables a !! x = Some (VFunction l) /\ ss_functions a !! l = Some f /\ key_facts f = key_facts f'.
Proof.
  intros [Hn Hv _] Hx Hf. destruct (proj2 (Hn x)) as [v Hvx]; [by eexists|].
  specialize (Hv _ _ _ Hvx Hx). destruct v; try done. cbn in Hv. rewrite Hf in Hv.
  destruct (ss_functions a !! f) as [g|] eqn:Eg; [|done]. exists f, g. cbn in Hv. split_and!; [done..|]. congruence.
Qed.

Lemma importable_decoded a b : decodes_to a b -> importable a -> importable b.
Proof.
  intros D [In If Im Il]. constructor.
  - intros x v Hx. destruct (proj2 (dt_names _ _ D x)) as [w Hw]; [by eexists|]. by eapply In.
  - intros x l f Hx Hf. destruct (decoded_function _ _ _ _ _ D Hx Hf) as (l0 & f0 & Hx0 & Hf0 & E).
    destruct (If _ _ _ Hx0 Hf0) as [body Hd]. exists body. by eapply declares_facts.
  - intros c cv x m Hc Hm. pose proof (dt_classes _ _ D) as E. apply (f_equal (.!! c)) in E.
    rewrite !lookup_fmap, Hc in E. destruct (ss_classes a !! c) as [cv0|] eqn:Ec; [|done].
    cbn in E. injection E as E. apply (f_equal (.!! x)) in E. rewrite !lookup_fmap, Hm in E.
    destruct (methods cv0 !! x) as [m0|] eqn:Em; [|done]. cbn in E. unfold key_facts in E. injection E as En Es.
    destruct (Im _ _ _ _ Ec Em) as (st & stmts & d & Hp & Hd). exists st, stmts, d. by rewrite <- Es.
  - intros x l d Hx Hd. destruct (proj2 (dt_names _ _ D x)) as [v Hvx]; [by eexists|].
    pose proof (dt_values _ _ D _ _ _ Hvx Hx) as Hv. destruct v; try done. cbn in Hv. rewrite Hd in Hv. by eapply Il.
Qed.

Lemma restore_functions_total fs vars :
  (forall x l f, (x, VFunction l) ∈ vars -> fs !! l = Some f -> exists body, declares x f body) ->
  exists bodies, restore_functions parse fs vars = inr bodies.
Proof.
  induction vars as [|[x v] vars IH]; intros Hd; [by eexists|].
  destruct IH as [bs IH]. { intros x0 l f Hin. apply Hd. by right. }
  cbn [restore_functions]. destruct v; try by eexists. destruct (fs !! f) as [func|] eqn:Ef; [|by eexists].
  destruct (Hd x f func) as [body Hb]; [left|done|]. apply restore_function_ok in Hb. rewrite Hb, IH. by eexists.
Qed.

Lemma importable_validates data s st :
  Z.of_nat (length data) <= MAX_IMPORT_SIZE -> (VERSION_PREFIX_SIZE <= length data)%nat ->
  from_le_bytes (take VERSION_PREFIX_SIZE data) = STATE_FORMAT_VERSION ->
  from_slice (drop VERSION_PREFIX_SIZE data) s = inr st -> importable st ->
  exists bodies, validate from_slice parse data s = inr (st, bodies).
Proof.
  intros Hl Hp Hv Hs [In If Im Il]. unfold validate.
  destruct (_ >? _) eqn:El; [reflect El; lia|].
  destruct (_ <? _)%nat eqn:Ep; [apply Nat.ltb_lt in Ep; lia|].
  rewrite Hv, Z.eqb_refl, Hs. cbn [negb].
  assert (check_names (btree_iter (ss_variables st)).*1 = None) as ->.
  { apply check_names_ok, Forall_forall. intros x ([y v] & -> & Hin)%list_elem_of_fmap.
    apply btree_iter_elem in Hin. by eapply In. }
  destruct (restore_functions_total (ss_functions st) (btree_iter (ss_variables st))) as [bs ->].
  { intros x l f Hin. apply btree_iter_elem in Hin. eauto. }
  destruct (restore_methods_total (all_methods (ss_classes st))) as [ms ->]; [|by eexists].
  apply Forall_forall. intros m (c & cv & x & Hc & Hx)%all_methods_inv. by eapply Im.
Qed.

(** C35: The checkpoint of a state can be imported back, into any interpreter, when no
    variable has a dangerous name, every function is held by the variable it was
    defined as, the sources parse, and the blob and the restored values fit the
    limits - given that the codec reads back the names, and the names and sources of
    the functions, that it wrote. The variables restored are exactly those whose name
    does not start with an underscore and that are not pending tool calls, and each
    function has its body back in the parse cache unless a method bears its name. *)
Theorem checkpoint_roundtrip (s s0 : InterpreterState) (json : list Z) (st : SerializedState) :
  to_vec (checkpoint s) = inr json -> from_slice json s0 = inr st -> decodes_to (checkpoint s) st ->
  importable (checkpoint s) -> Z.of_nat (length json) + 4 <= MAX_IMPORT_SIZE ->
  memory_used_bytes (recompute_memory size (install st [] s0)) <= max_memory_bytes (config s0) ->
  exists data s1, export_state to_vec s = inr data /\
    import_state from_slice parse size data s0 = (s1, None) /\
    (forall x, is_Some (variables s1 !! x) <-> exists v, variables s !! x = Some v /\ exported (x, v) = true) /\
    (forall x l f body, variables s !! x = Some (VFunction l) -> exported (x, VFunction l) = true ->
       functions s !! l = Some f -> declares x f body -> x ∉ method_names (ss_classes st) ->
       function_bodies s1 !! x = Some body).
Proof.
  intros Ht Hf D I Hlen Hmem. unfold export_state. rewrite Ht.
  set (data := to_le_bytes STATE_FORMAT_VERSION ++ json). exists data.
  assert (I' := importable_decoded _ _ D I).
  assert (Hdata : length data = (4 + length json)%nat) by (by unfold data; rewrite length_app).
  destruct (importable_validates data s0 st) as [bodies Ev]; [lia|unfold VERSION_PREFIX_SIZE; lia|done|done|done|].
  pose proof (validate_ok _ _ _ _ Ev) as (_ & _ & _ & _ & V).
  unfold import_state. rewrite Ev. set (s1 := install st bodies s0).
  destruct (restore_lambdas_total (lambda_imports s1) ∅) as [cache ->].
  { apply Forall_forall. intros d ([x v] & Hx & Hv)%list_elem_of_omap. apply elem_of_map_to_list in Hx.
    cbn in Hv. destruct v; try done. by eapply (im_lambdas _ I'). }
  eexists. split; [done|]. unfold check_memory. split.
  { f_equal. unfold over_memory. destruct (_ >? _) eqn:E; [|done]. reflect E. cbn in E, Hmem. lia. }
  cbn. split.
  - intros x. rewrite <- (dt_names _ _ D x). cbn. split.
    + intros [v Hv]. apply map_lookup_filter_Some in Hv. by exists v.
    + intros (v & Hv & He). exists v. by apply map_lookup_filter_Some.
  - intros x l f body Hx He Hl Hd Hm.
    assert (Hx' : ss_variables (checkpoint s) !! x = Some (VFunction l)) by by apply map_lookup_filter_Some.
    destruct (proj1 (dt_names _ _ D x)) as [v' Hv']; [by eexists|].
    pose proof (dt_values _ _ D _ _ _ Hx' Hv') as Hv. destruct v'; try done. cbn in Hv. rewrite Hl in Hv. cbn in Hv.
    destruct (ss_functions st !! f0) as [f'|] eqn:Ef; [|done]. apply (inj Some) in Hv.
    destruct (vb_functions _ _ V _ _ _ Hv' Ef) as (body' & Hd' & Hb). rewrite (Hb Hm). f_equal.
    apply (declares_facts _ _ _ _ Hv) in Hd. destruct Hd as (_ & st1 & E1 & E2), Hd' as (_ & st2 & E3 & E4). congruence.
Qed.

(** A second name for a function ([g = f]) makes the checkpoint refuse to come
    back, although it was exported without an error. *)
Lemma alias_blocks_import (s s0 : InterpreterState) (data : list Z) (st : SerializedState) x l f :
  from_slice (drop VERSION_PREFIX_SIZE data) s0 = inr st -> decodes_to (checkpoint s) st ->
  variables s !! x = Some (VFunction l) -> exported (x, VFunction l) = true ->
  functions s !! l = Some f -> f_name f <> x ->
  exists s1 e, import_state from_slice parse size data s0 = (s1, Some e).
Proof.
  intros Hf D Hx He Hl Hne.
  destruct (import_state from_slice parse size data s0) as [s1 [e|]] eqn:E;
    [by exists s1, e|]. exfalso.
  unfold import_state in E. destruct (validate _ _ _ _) as [e|[st' bodies]] eqn:Ev; [done|].
  apply validate_ok in Ev as (_ & _ & _ & Hs & V). rewrite Hf in Hs. injection Hs as <-.
  assert (Hx' : ss_variables (checkpoint s) !! x = Some (VFunction l)) by by apply map_lookup_filter_Some.
  destruct (proj1 (dt_names _ _ D x)) as [v' Hv']; [by eexists|].
  pose proof (dt_values _ _ D _ _ _ Hx' Hv') as Hv. destruct v'; try done. cbn in Hv. rewrite Hl in Hv. cbn in Hv.
  destruct (ss_functions st !! f0) as [f'|] eqn:Ef; [|done]. apply (inj Some) in Hv.
  destruct (vb_functions _ _ V _ _ _ Hv' Ef) as (body & [Hn _] & _). unfold key_facts in Hv. congruence.
Qed.
End Importing.

(** * A concrete session *)

Definition sample_function (name : string) : @FunctionDef sample_external :=
  @mkFunctionDef sample_external name name (@mkParams sample_external [] [] [] None [] [] [] None 0) [] name [] false None
    None [] [] true None [] name [] false.

(** [def f(): ...], [x = 5] and a private name. *)
Definition sample_session : @InterpreterState sample_external sample_trees :=
  let s := sample_state in
  @mkState sample_external sample_trees
    (<["f"%string := VFunction 0%nat]> (<["x"%string := VInt 5]> {["_p"%string := VInt 1]})) ∅ [] []
    ∅ ∅ "" [] [] 0 0 0 0 [] [] ∅ [] ∅ 0 ∅ 0 ∅ 0 [] default_config empty_heap {[0%nat := sample_function "f"]} ∅ [] false ∅ ∅ 28 [].

Definition sample_parse (src : string) : InterpreterError + list (@Stmt sample_trees) := inr [SDef src []].
Definition sample_to_vec (_ : @SerializedState sample_external) : string + list Z := inr [123; 125].
Definition sample_from_slice (json : list Z) (_ : @InterpreterState sample_external sample_trees) :
    string + @SerializedState sample_external :=
  if bool_decide (json = [123; 125]) then inr (checkpoint sample_session) else inl "expected value"%string.

Lemma decodes_to_refl `{External} (a : SerializedState) : decodes_to a a.
Proof.
  constructor; [done| |done]. intros x v v' Hv Hv'. rewrite Hv in Hv'. injection Hv' as <-. by destruct v.
Qed.

Lemma sample_variables x v :
  ss_variables (checkpoint sample_session) !! x = Some v <-> (x, v) = ("f"%string, VFunction 0%nat) \/ (x, v) = ("x"%string, VInt 5).
Proof.
  cbn. rewrite map_lookup_filter_Some, !lookup_insert_Some, lookup_singleton_Some. split.
  - intros [[[<- <-]|[_ [[<- <-]|[_ [<- <-]]]]] He]; [by left|by right|discriminate He].
  - intros [[= -> ->]|[= -> ->]]; (split; [|reflexivity]); [by left|right]. split; [done|by left].
Qed.

Lemma sample_importable : importable sample_parse (checkpoint sample_session).
Proof.
  constructor.
  - intros x v [[= -> _]|[= -> _]]%sample_variables; apply (bool_decide_eq_false_1 _); reflexivity.
  - intros x l f [[= -> ->]|[= ]]%sample_variables Hf.
    apply (lookup_singleton_Some 0%nat 0%nat (sample_function "f") f) in Hf as [_ <-]. exists []. split; [done|]. by exists (SDef "f" []).
  - intros c cv x m Hc. discriminate Hc.
  - intros x l d [[= ]|[= ]]%sample_variables.
Qed.

Lemma checkpoint_roundtrip_witness :
  exists data s1, export_state sample_to_vec sample_session = inr data /\
    import_state sample_from_slice sample_parse (fun _ _ => 8) data sample_state = (s1, None) /\
    function_bodies s1 !! "f"%string = Some [] /\ ~ is_Some (variables s1 !! "_p"%string).
Proof.
  destruct (checkpoint_roundtrip sample_to_vec sample_from_slice sample_parse (fun _ _ => 8) sample_session sample_state
              [123; 125] (checkpoint sample_session)) as (data & s1 & E1 & E2 & Hn & Hb);
    [reflexivity|reflexivity|apply decodes_to_refl|exact sample_importable|discriminate|discriminate|].
  exists data, s1. split; [exact E1|split; [exact E2|split]].
  - apply (Hb "f"%string 0%nat (sample_function "f")); [reflexivity|reflexivity|reflexivity| |].
    + split; [reflexivity|]. exists (SDef "f" []). split; reflexivity.
    + intros Hin. apply list_elem_of_fmap in Hin as (m & _ & (c & cv & y & Hc & _)%all_methods_inv). discriminate Hc.
  - intros Hp. apply Hn in Hp as (v & _ & He). discriminate He.
Defined.

Definition sample_blob : list Z := [16; 0; 0; 0; 123; 125].

Lemma import_gate_witness :
  exists s', import_state sample_from_slice sample_parse (fun _ _ => 8) sample_blob sample_state = (s', None) /\
    variables s' = ss_variables (checkpoint sample_session).
Proof.
  set (r := import_state sample_from_slice sample_parse (fun _ _ => 8) sample_blob sample_state).
  assert (E : r.2 = None) by reflexivity. exists r.1. split; [by rewrite <- E; destruct r|].
  destruct (import_gate sample_from_slice sample_parse (fun _ _ => 8) sample_blob sample_state r.1) as (st & _ & _ & Hs & Hv & _).
  { rewrite <- E. apply surjective_pairing. }
  cbn in Hs. injection Hs as <-. exact Hv.
Defined.

Lemma refused_import_witness :
  exists s' e, import_state sample_from_slice sample_parse (fun _ _ => 8) [15; 0; 0; 0] sample_state = (s', Some e) /\
    s' = sample_state.
Proof.
  set (r := import_state sample_from_slice sample_parse (fun _ _ => 8) [15; 0; 0; 0] sample_state).
  exists r.1, (StateFormatSuperseded 15 16). split; [reflexivity|].
  destruct (refused_import sample_from_slice sample_parse (fun _ _ => 8) [15; 0; 0; 0] sample_state r.1
              (StateFormatSuperseded 15 16)) as [E|(st & Hs & _)]; [reflexivity|exact E|].
  exfalso. cbn in Hs. discriminate Hs.
Defined.
