(* ===== verification/StructThms.v ===== *)
(** What [struct] packs, it unpacks: bytes of integers and floats, the layout of the
    fields, and the values carried through. *)
From Stdlib Require Import ZArith Lia Ascii String SpecFloat.
From stdpp Require Import base tactics list numbers option strings pretty gmap.
From S2P Require Import Prelude PySet Values Errors F64 State Exceptions Op Syntax Struct Samples.

(** ** Integers *)

Lemma be_bytes_length n z : length (be_bytes n z) = n.
Proof. induction n; cbn; auto. Qed.

Lemma of_be_bytes_app xs ys : of_be_bytes (xs ++ ys) = of_be_bytes xs * 256 ^ Z.of_nat (length ys) + of_be_bytes ys.
Proof.
  unfold of_be_bytes. rewrite fold_left_app. generalize (fold_left (fun acc b => 256 * acc + b) xs 0). intros a. revert a.
  induction ys as [|y ys IH] using rev_ind; intros a; [cbn; lia|].
  rewrite !fold_left_app, length_app. cbn [fold_left length]. rewrite IH.
  replace (Z.of_nat (length ys + 1)) with (Z.of_nat (length ys) + 1) by lia. rewrite Z.pow_add_r by lia. lia.
Qed.

Lemma pow256 n : 2 ^ (8 * Z.of_nat n) = 256 ^ Z.of_nat n.
Proof. rewrite Z.pow_mul_r by lia. reflexivity. Qed.

Lemma of_be_bytes_mod n z : of_be_bytes (be_bytes n z) = z mod 2 ^ (8 * Z.of_nat n).
Proof.
  induction n as [|n IH]; [cbn; by rewrite Z.mod_1_r|]. cbn [be_bytes].
  change (_ :: be_bytes n z) with ([z / 2 ^ (8 * Z.of_nat n) mod 256] ++ be_bytes n z).
  rewrite of_be_bytes_app, IH, be_bytes_length, <- pow256. unfold of_be_bytes. cbn [fold_left].
  replace (8 * Z.of_nat (S n)) with (8 * Z.of_nat n + 8) by lia. rewrite Z.pow_add_r by lia.
  rewrite Z.rem_mul_r by lia. change (2 ^ 8) with 256. lia.
Qed.

Lemma unsigned_bytes n z : 0 <= z < 2 ^ (8 * Z.of_nat n) -> of_be_bytes (be_bytes n z) = z.
Proof. intros R. rewrite of_be_bytes_mod. by apply Z.mod_small. Qed.

Lemma signed_bytes n z : (0 < n)%nat -> - 2 ^ (8 * Z.of_nat n - 1) <= z < 2 ^ (8 * Z.of_nat n - 1) ->
  of_be_bytes_signed (be_bytes n z) = z.
Proof.
  intros P R. unfold of_be_bytes_signed. rewrite be_bytes_length, of_be_bytes_mod.
  assert (2 ^ (8 * Z.of_nat n) = 2 * 2 ^ (8 * Z.of_nat n - 1)) as E by (rewrite <- Z.pow_succ_r by lia; f_equal; lia).
  destruct (Z.leb_spec 0 z).
  - rewrite Z.mod_small by lia. by destruct (Z.ltb_spec z (2 ^ (8 * Z.of_nat n - 1))); [|lia].
  - rewrite <- (Z.mod_add z 1), Z.mod_small by lia. destruct (Z.ltb_spec (z + 1 * 2 ^ (8 * Z.of_nat n)) (2 ^ (8 * Z.of_nat n - 1))); lia.
Qed.

(** ** Floats *)

(** The encoding of a finite float, by the fields of the format. *)
Lemma bits_float_fields p emax (s : bool) e m : 1 < p -> 0 < emax -> 0 <= m < 2 ^ (p - 1) -> 0 <= e < 2 * emax ->
  bits_float p emax ((if s then 2 * emax * 2 ^ (p - 1) else 0) + e * 2 ^ (p - 1) + m) =
    (if e =? 2 * emax - 1 then if m =? 0 then S754_infinity s else S754_nan
     else match (if e =? 0 then m else m + 2 ^ (p - 1)) with
          | Zpos q => S754_finite s q (Z.max e 1 - emax - p + 2)
          | _ => S754_zero s
          end).
Proof.
  intros P E M X. unfold bits_float. set (k := 2 ^ (p - 1)) in *. assert (0 < k) by (apply Z.pow_pos_nonneg; lia).
  set (b := if s then 2 * emax else 0).
  replace ((if s then 2 * emax * k else 0) + e * k + m) with ((b + e) * k + m) by (unfold b; destruct s; lia).
  rewrite Z.div_add_l, Z.div_small, Z.add_0_r by lia.
  replace (((b + e) * k + m) mod k) with m
    by (rewrite Z.add_comm, Z.mod_add, Z.mod_small by lia; reflexivity).
  replace ((b + e) mod (2 * emax)) with e.
  2: { unfold b. destruct s; [|by rewrite Z.mod_small by lia].
       replace (2 * emax + e) with (e + 1 * (2 * emax)) by lia. rewrite Z.mod_add, Z.mod_small by lia. done. }
  replace (2 * emax * k <=? (b + e) * k + m) with s; [done|]. unfold b. destruct s; symmetry; [apply Z.leb_le|apply Z.leb_gt]; nia.
Qed.

Lemma digits2_bound q k : 0 <= k -> Zpos (digits2_pos q) <= k <-> Zpos q < 2 ^ k.
Proof.
  intros K. revert k K. induction q as [q IH|q IH|]; intros k K; cbn [digits2_pos].
  1,2: rewrite Pos2Z.inj_succ; destruct (Z.eq_dec k 0) as [->|N]; [cbn; lia|];
    replace k with (Z.succ (k - 1)) by lia; rewrite Z.pow_succ_r by lia; rewrite <- Z.succ_le_mono, IH by lia; lia.
  split; intros L; [|destruct (Z.eq_dec k 0) as [->|]; cbn in *; lia].
  apply Z.pow_gt_1; lia.
Qed.

Section Format.
Variables p emax : Z.
Hypothesis format : 1 < p < emax.

(** A float that fits the format is encoded in its bits and read back. *)
Lemma float_bits_split f : valid_binary p emax f = true ->
  exists (s : bool) e m, float_bits p emax f = (if s then 2 * emax * 2 ^ (p - 1) else 0) + e * 2 ^ (p - 1) + m /\
    0 <= m < 2 ^ (p - 1) /\ 0 <= e < 2 * emax /\
    f = (if e =? 2 * emax - 1 then if m =? 0 then S754_infinity s else S754_nan
         else match (if e =? 0 then m else m + 2 ^ (p - 1)) with
              | Zpos q => S754_finite s q (Z.max e 1 - emax - p + 2)
              | _ => S754_zero s
              end).
Proof.
  assert (0 < 2 ^ (p - 1)) as K by (apply Z.pow_pos_nonneg; lia).
  assert (0 < 2 ^ (p - 2) < 2 ^ (p - 1)) as K' by (split; [apply Z.pow_pos_nonneg; lia|apply Z.pow_lt_mono_r; lia]).
  unfold float_bits. destruct f as [s|s| |s q e]; cbn [valid_binary]; intros V; rewrite ?Z.shiftl_mul_pow2 by lia.
  - exists s, 0, 0. rewrite Z.eqb_refl. replace (0 =? 2 * emax - 1) with false by lia. repeat split; lia.
  - exists s, (2 * emax - 1), 0. rewrite !Z.eqb_refl. repeat split; lia.
  - exists false, (2 * emax - 1), (2 ^ (p - 2)). rewrite Z.eqb_refl. replace (2 ^ (p - 2) =? 0) with false by lia. repeat split; lia.
  - unfold bounded in V. apply andb_prop in V as [C B]. apply Z.eqb_eq in C. apply Z.leb_le in B.
    unfold fexp, emin in C. pose proof (digits2_bound q (p - 1)) as D1. pose proof (digits2_bound q p) as D2.
    replace (2 ^ p) with (2 * 2 ^ (p - 1)) in D2 by (rewrite <- Z.pow_succ_r by lia; f_equal; lia).
    destruct (Z.ltb_spec (Zpos q) (2 ^ (p - 1))) as [L|L].
    + exists s, 0, (Zpos q). replace (0 =? 2 * emax - 1) with false by lia. cbn [Z.eqb]. repeat split; try lia.
      f_equal. lia.
    + exists s, (e + emax + p - 2), (Zpos q - 2 ^ (p - 1)).
      replace (e + emax + p - 2 =? 2 * emax - 1) with false by lia.
      replace (e + emax + p - 2 =? 0) with false by lia. rewrite Z.sub_add. repeat split; try lia. f_equal. lia.
Qed.

Lemma float_bits_roundtrip f : valid_binary p emax f = true ->
  bits_float p emax (float_bits p emax f) = f /\ 0 <= float_bits p emax f < 4 * emax * 2 ^ (p - 1).
Proof.
  intros V. destruct (float_bits_split f V) as (s & e & m & E & M & X & F). rewrite E. split.
  - rewrite bits_float_fields by lia. by rewrite <- F.
  - destruct s; nia.
Qed.
End Format.

(** ** The values a format carries *)

Section Carried.
Context `{External}.

(** What [unpack] returns for a value: integers of any type come back as integers,
    truth values as booleans, floats in the precision of the field. *)
Definition carried_value (h : Heap) (c : Code) (v : Value) : Value :=
  match c with
  | code_c => v
  | code_bool => VBool match v with VInstance _ _ => true | _ => is_truthy h v end
  | code_f => match as_f64 v with Ok f => VFloat (f64_of_f32 (f32_of_f64 f)) | _ => v end
  | code_d => match as_f64 v with Ok f => VFloat f | _ => v end
  | _ => match as_i128 v with Ok i => int_from_bigint i | _ => v end
  end.

Definition carried_bytes (h : Heap) (v : Value) : list Z :=
  match v with VBytes b => b | VByteArray l => bytes_at h l | _ => [] end.

Fixpoint carried (h : Heap) (fields : list Field) (values : list Value) : list Value :=
  match fields with
  | [] => []
  | f :: fields =>
      let n := Z.to_nat (count f) in
      match code f with
      | code_x => carried h fields values
      | code_s =>
          match values with
          | v :: values => VBytes (resize n (carried_bytes h v)) :: carried h fields values
          | [] => []
          end
      | c => map (carried_value h c) (take n values) ++ carried h fields (drop n values)
      end
  end.

(** Floats in the canonical form of the machine's. *)
Definition canonical_float (v : Value) : Prop :=
  forall f, as_f64 v = Ok f -> valid_binary 53 1024 f = true /\ valid_binary 24 128 (f32_of_f64 f) = true.

Lemma put_put m bs : put m (put m bs) = bs.
Proof. unfold put. destruct (big_endian m); [done|apply rev_involutive]. Qed.

Lemma put_length m bs : length (put m bs) = length bs.
Proof. unfold put. destruct (big_endian m); [done|apply length_rev]. Qed.

Lemma code_size_range c m : 1 <= code_size c m <= 8.
Proof. destruct c, m; cbn; lia. Qed.

Lemma code_align_range c m : 1 <= code_align c m <= 8.
Proof. unfold code_align. destruct (_ && _); [apply code_size_range|lia]. Qed.

Lemma pack_int_ok m c v bs : pack_int m c v = Ok bs ->
  length bs = Z.to_nat (code_size c m) /\
  exists i, as_i128 v = Ok i /\ (if signed_code c then of_be_bytes_signed else of_be_bytes) bs = i.
Proof.
  unfold pack_int. destruct (as_i128 v) as [i|e|]; [|discriminate..]. cbn [mbind Outcome_bind]. unfold in_bits.
  pose proof (code_size_range c m) as R.
  destruct (signed_code c); destruct (_ && _) eqn:B; try discriminate; intros [= <-];
    apply andb_prop in B as [B1 B2]; apply Z.leb_le in B1; apply Z.ltb_lt in B2;
    (split; [apply be_bytes_length|]); exists i; (split; [done|]).
  - apply signed_bytes; [lia|]. by rewrite Z2Nat.id by lia.
  - apply unsigned_bytes. by rewrite Z2Nat.id by lia.
Qed.

(** One value: the bytes it takes, and what they are read as. *)
Lemma pack_value_ok h m c v bs : canonical_float v -> pack_value h m c v = Ok bs ->
  length bs = Z.to_nat (code_size c m) /\ unpack_value c (put m bs) = carried_value h c v.
Proof.
  intros Cf P. destruct c; cbn [pack_value] in P; try discriminate;
    try (destruct (pack_int m _ v) as [xs|e|] eqn:I; [|discriminate..]; injection P as <-;
         apply pack_int_ok in I as (L & i & A & R); split; [by rewrite put_length|];
         rewrite put_put; unfold unpack_value, carried_value; rewrite A; cbn [signed_code] in R; cbn [signed_code]; by rewrite R).
  - destruct v; try discriminate P. match type of P with context [match ?l with _ => _ end] => destruct l as [|x []] end; try discriminate P.
    injection P as <-. split; [by destruct m|]. by destruct m.
  - injection P as <-. split; [by destruct m|]. unfold unpack_value, carried_value, put.
    destruct (match v with VInstance _ _ => true | _ => _ end); by destruct m.
  - destruct (as_f64 v) as [f|e|] eqn:A; [|discriminate..]. injection P as <-. destruct (Cf f A) as [_ V].
    rewrite put_put. split; [by rewrite put_length|]. unfold unpack_value, carried_value. rewrite A. f_equal. f_equal.
    match goal with |- context [of_be_bytes ?l] => change l with (be_bytes 4 (float_bits 24 128 (f32_of_f64 f))) end.
    destruct (float_bits_roundtrip 24 128 ltac:(lia) _ V) as [E R]. rewrite unsigned_bytes; [done|].
    change (4 * 128 * 2 ^ (24 - 1)) with (2 ^ (8 * Z.of_nat 4)) in R. exact R.
  - destruct (as_f64 v) as [f|e|] eqn:A; [|discriminate..]. injection P as <-. destruct (Cf f A) as [V _].
    rewrite put_put. split; [by rewrite put_length|]. unfold unpack_value, carried_value. rewrite A. f_equal.
    match goal with |- context [of_be_bytes ?l] => change l with (be_bytes 8 (float_bits 53 1024 f)) end.
    destruct (float_bits_roundtrip 53 1024 ltac:(lia) _ V) as [E R]. rewrite unsigned_bytes; [done|].
    change (4 * 1024 * 2 ^ (53 - 1)) with (2 ^ (8 * Z.of_nat 8)) in R. exact R.
Qed.

Lemma take_put m (n : Z) xs ys : length xs = Z.to_nat n ->
  take_bytes (xs ++ ys) n m = Ok (put m xs, ys).
Proof.
  intros L. unfold take_bytes. rewrite length_app. destruct (Z.ltb_spec (Z.of_nat (length xs + length ys)) n) as [B|_]; [lia|].
  by rewrite take_app_length', drop_app_length' by done.
Qed.

Lemma pack_values_ok h m c n : forall values bs rest tail, Forall canonical_float values ->
  pack_values h m c n values = Ok (bs, rest) ->
  Z.of_nat (length bs) = Z.of_nat n * code_size c m /\ rest = drop n values /\
  unpack_values m c n (bs ++ tail) = Ok (map (carried_value h c) (take n values), tail).
Proof.
  induction n as [|n IH]; intros values bs rest tail Cf; cbn [pack_values].
  - intros [= <- <-]. by rewrite drop_0, take_0.
  - destruct values as [|v values]; [discriminate|]. apply Forall_cons_1 in Cf as [Cv Cf].
    destruct (pack_value h m c v) as [b|e|] eqn:P; [|discriminate..]. cbn [mbind Outcome_bind].
    destruct (pack_values h m c n values) as [[bs' rest']|e|] eqn:Ps; [|discriminate..]. intros [= <- <-].
    destruct (pack_value_ok h m c v b Cv P) as [L U]. destruct (IH values bs' rest' tail Cf Ps) as (L' & R & U').
    pose proof (code_size_range c m). rewrite length_app. split; [lia|]. split; [done|].
    cbn [unpack_values take map]. rewrite <- app_assoc, take_put by done. cbn [mbind Outcome_bind]. rewrite U'. cbn. by rewrite U.
Qed.

Lemma resize_length n bs : length (resize n bs) = n.
Proof. unfold resize. rewrite length_app, length_take, length_replicate. lia. Qed.

(** One field. *)
Lemma pack_field_ok h m f values bs rest tail : 0 <= count f -> Forall canonical_float values ->
  Z.of_nat (length bs) < 2 ^ 63 -> pack_field h m f values = Ok (bs, rest) ->
  Z.of_nat (length bs) = field_size m f /\
  exists vs, unpack_field m f (bs ++ tail) = Ok (vs, tail) /\
    (forall fields, carried h (f :: fields) values = vs ++ carried h fields rest) /\ Forall canonical_float rest.
Proof.
  destruct f as [c n]. cbn [count]. intros N Cf B P. unfold pack_field, field_size, unpack_field in *. cbn [code count] in *.
  destruct c; try (destruct (pack_values_ok h m _ _ _ _ _ tail Cf P) as (L & R & U); rewrite Z2Nat.id in L by lia;
    pose proof (code_size_range) as Cs; unfold wrap64; rewrite Z.mod_small by (rewrite <- L; lia); split; [done|];
    eexists; split; [exact U|]; subst rest; split; [done|by apply Forall_drop]).
  - injection P as <- <-. rewrite length_replicate in *. cbn [code_size]. unfold wrap64. rewrite Z.mod_small by lia. split; [lia|].
    exists []. rewrite drop_app_length' by (by rewrite length_replicate). auto.
  - destruct values as [|v values]; [discriminate|]. apply Forall_cons_1 in Cf as [_ Cf].
    assert (exists b, match v with VBytes b => Ok b | VByteArray l => Ok (bytes_at h l)
                      | _ => Err (struct_error "argument for 's' must be a bytes object") end = Ok b /\
      b = carried_bytes h v /\ bs = resize (Z.to_nat n) b /\ rest = values) as (b & _ & -> & -> & ->).
    { destruct v; try discriminate P; injection P as <- <-; eauto. }
    rewrite resize_length in *. split; [lia|]. exists [VBytes (resize (Z.to_nat n) (carried_bytes h v))].
    rewrite length_app, resize_length. destruct (Nat.ltb_spec (Z.to_nat n + length tail) (Z.to_nat n)) as [|_]; [lia|].
    by rewrite take_app_length', drop_app_length' by (by rewrite resize_length).
Qed.

Lemma align_up offset a : 1 <= a <= 8 -> 0 <= offset < 2 ^ 63 -> offset <= align_to offset a < offset + 8.
Proof.
  intros A O. unfold align_to. destruct (Z.ltb_spec 1 a); [|lia].
  pose proof (Z.mul_div_le (offset + a - 1) a ltac:(lia)). pose proof (Z.mul_succ_div_gt (offset + a - 1) a ltac:(lia)).
  unfold wrap64. rewrite Z.mod_small; nia.
Qed.

Lemma pack_fields_ok h m fields : forall out values bytes, Forall (fun f => 0 <= count f) fields ->
  Forall canonical_float values -> pack_fields h m out fields values = Ok bytes -> Z.of_nat (length bytes) < 2 ^ 63 ->
  exists tail, bytes = out ++ tail /\ layout_from m (Z.of_nat (length out)) fields = Z.of_nat (length bytes) /\
    unpack_fields m fields (Z.of_nat (length out)) tail = Ok (carried h fields values).
Proof.
  induction fields as [|f fields IH]; intros out values bytes N Cf; cbn [pack_fields].
  - intros [= <-] _. exists []. by rewrite app_nil_r.
  - apply Forall_cons_1 in N as [Nf N]. cbv zeta. set (a := code_align (code f) m).
    set (pad := Z.to_nat (wrap64 (align_to (Z.of_nat (length out)) a - Z.of_nat (length out)))).
    destruct (pack_field h m f values) as [[bs rest]|e|] eqn:P; [|discriminate..]. cbn [mbind Outcome_bind].
    intros Ps Small. assert (exists tail, bytes = (out ++ replicate pad 0 ++ bs) ++ tail) as [tail E].
    { revert Ps. clear. generalize (out ++ replicate pad 0 ++ bs). revert rest. induction fields as [|g fields IH]; intros rest o; cbn [pack_fields].
      - intros [= <-]. exists []. by rewrite app_nil_r.
      - destruct (pack_field h m g rest) as [[b r]|e|]; [|discriminate..]. cbn [mbind Outcome_bind]. intros Q.
        apply IH in Q as [t ->]. rewrite <- app_assoc. eauto. }
    assert (length out + (pad + (length bs + length tail)) = length bytes)%nat as Len
      by (subst bytes; rewrite !length_app, length_replicate; lia).
    destruct (align_up (Z.of_nat (length out)) a (code_align_range _ _) ltac:(lia)) as [A1 A2].
    assert (Z.of_nat pad = align_to (Z.of_nat (length out)) a - Z.of_nat (length out)) as Pad
      by (unfold pad, wrap64; rewrite Z.mod_small, Z2Nat.id by lia; lia).
    destruct (pack_field_ok h m f values bs rest tail Nf Cf ltac:(lia) P) as (L & vs & U & C & Cr).
    destruct (IH _ _ _ N Cr Ps Small) as (tail' & E' & Lay & Un).
    assert (tail' = tail) as -> by (rewrite E in E'; by apply app_inv_head in E').
    exists (replicate pad 0 ++ bs ++ tail). rewrite E, <- !app_assoc. split; [done|]. cbn [layout_from unpack_fields]. cbv zeta. fold a.
    assert (align_to (Z.of_nat (length out)) a + field_size m f = Z.of_nat (length (out ++ replicate pad 0 ++ bs))) as Next
      by (rewrite !length_app, length_replicate; lia).
    rewrite Next. unfold wrap64 at 1 2. rewrite !Z.mod_small by (rewrite !length_app, length_replicate; lia).
    rewrite <- !app_assoc in E. rewrite Lay, E. split; [done|].
    rewrite drop_app_length' by (rewrite length_replicate; lia). rewrite U. cbn [mbind Outcome_bind]. rewrite Un. cbn [mbind Outcome_bind].
    by rewrite C.
Qed.

Lemma parse_fields_counts chars : forall pending fields, (if pending is Some n then 0 <= n else True) ->
  parse_fields pending chars = Ok fields -> Forall (fun f => 0 <= count f) fields.
Proof.
  induction chars as [|c chars IH]; intros pending fields P; cbn [parse_fields]; cbv zeta.
  - destruct pending; [discriminate|]. by intros [= <-].
  - assert (forall n, 0 <= n -> (code ← field_code c; fields ← parse_fields None chars; Ok (mkField code n :: fields)) = Ok fields ->
      Forall (fun f => 0 <= count f) fields) as Field.
    { intros n N. destruct (field_code c); [|discriminate..]. cbn [mbind Outcome_bind].
      destruct (parse_fields None chars) eqn:Q; [|discriminate..]. intros [= <-]. constructor; [done|]. by apply (IH None). }
    destruct pending as [n|].
    + destruct (is_digit c); [|by apply Field]. apply (IH (Some _)). unfold wrap64. apply Z.mod_pos_bound. lia.
    + destruct (is_ascii_whitespace c); [by apply (IH None)|]. destruct (is_digit c) eqn:D; [|by apply Field].
      apply (IH (Some _)). unfold is_digit in D. lia.
Qed.

(** C6: What [struct.pack] packs, [struct.unpack] reads back: for every format, in every
    byte order and with native alignment, the packed bytes have the length
    [calcsize] announces, and unpacking them returns the packed values - integers
    and truth values of any type as integers and booleans, byte strings cut or
    padded to their field, floats in the precision of the field. *)
Theorem pack_then_unpack h fmt m fields values bytes :
  parse_format fmt = Ok (m, fields) -> Forall canonical_float values ->
  pack h m fields values = Ok (VBytes bytes) -> Z.of_nat (length bytes) < 2 ^ 63 ->
  layout_size m fields = Z.of_nat (length bytes) /\
  unpack m fields bytes = Ok (VTuple (carried h fields values)).
Proof.
  intros F Cf P Small. assert (Forall (fun f => 0 <= count f) fields) as N.
  { unfold parse_format in F. destruct (match fmt with [] => _ | _ => _ end) as [m' chars].
    destruct (parse_fields None chars) as [fs|e|] eqn:Q; [|discriminate..]. injection F as <- <-. by apply (parse_fields_counts chars None). }
  unfold pack in P. destruct (_ =? _); [|discriminate].
  destruct (pack_fields h m [] fields values) as [bs|e|] eqn:Q; [|discriminate..]. injection P as <-.
  destruct (pack_fields_ok h m fields [] values bs N Cf Q Small) as (tail & E & L & U). cbn [app length] in E, L, U.
  change (Z.of_nat 0) with 0 in L, U. subst tail.
  split; [exact L|]. unfold unpack, layout_size. rewrite L, Z.eqb_refl.
  by rewrite U.
Qed.
End Carried.

(** ** Witness *)

Lemma pack_then_unpack_witness :
  let fmt := lit "@c i2h?3sd" in
  let values := [VBytes [65]; VInt (-3); VBool true; VInt 7; VNone; VBytes [1; 2; 3; 4]; VInt 2] in
  exists m fields bytes,
    parse_format fmt = Ok (m, fields) /\ Forall canonical_float values /\
    pack empty_heap m fields values = Ok (VBytes bytes) /\ Z.of_nat (length bytes) = 24 /\
    unpack m fields bytes = Ok (VTuple (carried empty_heap fields values)).
Proof.
  intros fmt values.
  assert (Forall canonical_float values) as Cf.
  { unfold values. repeat (apply Forall_cons_2; [intros x E; try discriminate E; injection E as <-; split; vm_compute; reflexivity|]).
    apply Forall_nil_2. }
  assert (match parse_format fmt with
          | Ok (m, fields) => match pack empty_heap m fields values with Ok (VBytes b) => Some (Z.of_nat (length b)) | _ => None end
          | _ => None
          end = Some 24) as C by (vm_compute; reflexivity).
  destruct (parse_format fmt) as [[m fields]| |] eqn:F; [|discriminate C..].
  destruct (pack empty_heap m fields values) as [v| |] eqn:P; [|discriminate C..].
  destruct v; try discriminate C. injection C as L.
  eexists m, fields, _. repeat (split; [done|]).
  exact (proj2 (pack_then_unpack empty_heap fmt m fields values _ F Cf P ltac:(rewrite L; reflexivity))).
Defined.
