(* ===== verification/StrThms.v ===== *)
(** What the text primitives do: the encodings are undone by their decodings, the
    splits by [join], and the searches find the outermost occurrences. *)
From Stdlib Require Import ZArith Lia Ascii String ssreflect.
From stdpp Require Import base tactics list numbers option strings pretty gmap.
From S2P Require Import Prelude PySet Values Errors F64 Keys Arith Classes Slices Compare Operators State Exceptions Op Syntax Methods Text StrMethods BytesMethods Samples.

(** ** Occurrences *)

Lemma starts_with_app pat rest : starts_with pat (pat ++ rest) = true.
Proof. induction pat as [|p pat IH]; simpl; [by destruct rest|]. by rw Z.eqb_refl. Qed.

Lemma starts_with_prefix pat s : starts_with pat s = true ↔ pat `prefix_of` s.
Proof.
  split; [|intros [rest ->]; apply starts_with_app].
  revert s. induction pat as [|p pat IH]; intros s Hs; [apply prefix_nil|].
  destruct s as [|c s]; [done|]. simpl in Hs. apply andb_true_iff in Hs as [->%Z.eqb_eq Hs].
  by apply prefix_cons, IH.
Qed.

Lemma starts_with_weaken pat p s : p `prefix_of` s → starts_with pat s = false → starts_with pat p = false.
Proof.
  intros Hp Hs. apply not_true_iff_false. intros Hpat%starts_with_prefix.
  apply not_true_iff_false in Hs. apply Hs, starts_with_prefix. by etrans.
Qed.

Lemma starts_with_split pat s : starts_with pat s = true → s = pat ++ drop (length pat) s.
Proof. intros [rest ->]%starts_with_prefix. by rw drop_app_length. Qed.

Lemma starts_with_spec pat s :
  reflect (∃ rest, s = pat ++ rest) (starts_with pat s).
Proof.
  apply iff_reflect. rw starts_with_prefix. done.
Qed.

(** An occurrence of [pat] at the position [i]. *)
Definition occurs_at (pat s : list Z) (i : nat) : Prop := (i ≤ length s)%nat ∧ pat `prefix_of` drop i s.

Lemma occurs_at_cons pat c s i : occurs_at pat (c :: s) (S i) ↔ occurs_at pat s i.
Proof. unfold occurs_at. simpl. intuition lia. Qed.

Lemma occurs_at_0 pat s : occurs_at pat s 0 ↔ starts_with pat s = true.
Proof. unfold occurs_at. rw starts_with_prefix drop_0. intuition lia. Qed.

Lemma find_sub_spec pat s :
  match find_sub pat s with
  | Some i => occurs_at pat s i ∧ ∀ j, occurs_at pat s j → (i ≤ j)%nat
  | None => ∀ j, ¬ occurs_at pat s j
  end.
Proof.
  induction s as [|c s IH]; simpl; destruct (starts_with pat _) eqn:Hs.
  1, 3: (split; [by apply occurs_at_0|]); lia.
  - intros [|j] Hj; [apply occurs_at_0 in Hj; congruence|]. destruct Hj as [Hj _]. simpl in Hj. lia.
  - destruct (find_sub pat s) as [i|]; simpl.
    + destruct IH as [IH1 IH2]. split; [by apply occurs_at_cons|].
      intros [|j] Hj; [apply occurs_at_0 in Hj; congruence|]. apply occurs_at_cons, IH2 in Hj. lia.
    + intros [|j] Hj; [apply occurs_at_0 in Hj; congruence|]. by apply occurs_at_cons, IH in Hj.
Qed.

Lemma rfind_sub_spec pat s :
  match rfind_sub pat s with
  | Some i => occurs_at pat s i ∧ ∀ j, occurs_at pat s j → (j ≤ i)%nat
  | None => ∀ j, ¬ occurs_at pat s j
  end.
Proof.
  induction s as [|c s IH].
  - cbn [rfind_sub]. destruct (starts_with pat []) eqn:Hs.
    + split; [by apply occurs_at_0|]. intros j [Hj _]. simpl in Hj. lia.
    + intros j Hj. assert (j = 0%nat) as -> by (destruct Hj as [Hj _]; simpl in Hj; lia).
      apply occurs_at_0 in Hj. congruence.
  - cbn [rfind_sub]. destruct (rfind_sub pat s) as [i|].
    + destruct IH as [IH1 IH2]. split; [by apply occurs_at_cons|].
      intros [|j] Hj; [lia|]. apply occurs_at_cons, IH2 in Hj. lia.
    + destruct (starts_with pat (c :: s)) eqn:Hs.
      * split; [by apply occurs_at_0|]. intros [|j] Hj; [lia|]. by apply occurs_at_cons, IH in Hj.
      * intros [|j] Hj; [apply occurs_at_0 in Hj; congruence|]. by apply occurs_at_cons, IH in Hj.
Qed.

(** ** Splitting *)

Lemma split_from_cons sep limit skip s : ∃ p ps, split_from sep limit skip s = p :: ps.
Proof.
  revert limit skip. induction s as [|c s IH]; intros limit [|skip]; simpl; eauto.
  destruct (spare limit && starts_with sep (c :: s)); [eauto|].
  destruct (IH limit 0%nat) as (p & ps & ->). simpl. eauto.
Qed.

Lemma split_from_nonempty sep limit skip s : split_from sep limit skip s ≠ [].
Proof. by destruct (split_from_cons sep limit skip s) as (p & ps & ->). Qed.

Lemma join_cons sep p q ps : join sep (p :: q :: ps) = p ++ sep ++ join sep (q :: ps).
Proof. done. Qed.

Lemma join_first_piece sep c pieces : pieces ≠ [] → join sep (first_piece c pieces) = c :: join sep pieces.
Proof. by destruct pieces as [|p [|q ps]]. Qed.

Lemma split_from_skip sep limit skip s : split_from sep limit skip s = split_from sep limit 0 (drop skip s).
Proof.
  revert skip. induction s as [|c s IH]; intros [|skip]; try done. cbn [split_from drop]. apply IH.
Qed.

Lemma split_from_0 sep limit s : sep ≠ [] →
  split_from sep limit 0 s =
    match s with
    | [] => [[]]
    | c :: s' =>
        if spare limit && starts_with sep s
        then [] :: split_from sep (Z.pred <$> limit) 0 (drop (length sep) s)
        else first_piece c (split_from sep limit 0 s')
    end.
Proof.
  intros Hsep. destruct s as [|c s]; [done|]. cbn [split_from]. destruct (_ && _); [|done].
  rw split_from_skip. destruct sep as [|d sep]; [done|]. cbn [length]. by rw Nat.sub_succ Nat.sub_0_r.
Qed.

(** Induction along the occurrences a split finds. *)
Lemma split_ind (sep : list Z) (P : option Z → list Z → Prop) : sep ≠ [] →
  (∀ limit, P limit []) →
  (∀ limit c s, spare limit = true → starts_with sep (c :: s) = true →
     P (Z.pred <$> limit) (drop (length sep) (c :: s)) → P limit (c :: s)) →
  (∀ limit c s, spare limit && starts_with sep (c :: s) = false → P limit s → P limit (c :: s)) →
  ∀ limit s, P limit s.
Proof.
  intros Hsep Hnil Hocc Hchar limit s. remember (length s) as n eqn:Hn. revert limit s Hn.
  induction (lt_wf n) as [n _ IH]. intros limit [|c s] ->; [apply Hnil|].
  destruct (spare limit && starts_with sep (c :: s)) eqn:E.
  - apply andb_true_iff in E as [E1 E2]. apply Hocc; [done..|].
    eapply IH; [|done]. destruct sep as [|d sep]; [done|]. rw length_drop. simpl. lia.
  - apply Hchar; [done|]. eapply IH; [|done]. simpl. lia.
Qed.

Lemma join_split_from sep limit s : sep ≠ [] → join sep (split_from sep limit 0 s) = s.
Proof.
  intros Hsep. revert limit s. apply (split_ind sep); cbv beta; [done|done|..].
  - intros limit c s Hl Hs IH. rw split_from_0 // Hl Hs. cbn [andb].
    destruct (split_from_cons sep (Z.pred <$> limit) 0 (drop (length sep) (c :: s))) as (p & ps & E).
    rw E in IH |- *. rw join_cons IH app_nil_l. by rw -starts_with_split.
  - intros limit c s E IH. by rw split_from_0 // E (join_first_piece _ _ _ (split_from_nonempty _ _ _ _)) IH.
Qed.

Lemma replace_from_split old new limit s : old ≠ [] →
  replace_from old new limit 0 s = join new (split_from old limit 0 s).
Proof.
  intros Hold. revert limit s.
  assert (Hskip : ∀ limit skip s, replace_from old new limit skip s = replace_from old new limit 0 (drop skip s)).
  { intros limit skip s. revert skip. induction s as [|c s IH]; intros [|skip]; try done. cbn [replace_from drop]. apply IH. }
  apply (split_ind old); cbv beta; [done|done|..].
  - intros limit c s Hl Hs IH. rw split_from_0 //. cbn [replace_from]. rw Hl Hs Hskip. cbn [andb].
    destruct (split_from_cons old (Z.pred <$> limit) 0 (drop (length old) (c :: s))) as (p & ps & E).
    rw E in IH |- *. rw join_cons app_nil_l -IH. do 2 f_equal.
    destruct old as [|d old]; [done|]. simpl. by rw Nat.sub_0_r.
  - intros limit c s E IH. rw split_from_0 //. cbn [replace_from]. by rw E IH (join_first_piece _ _ _ (split_from_nonempty _ _ _ _)).
Qed.

Lemma count_from_split pat s : pat ≠ [] → Z.of_nat (length (split_from pat None 0 s)) = 1 + count_from pat 0 s.
Proof.
  intros Hpat.
  assert (Hskip : ∀ skip s, count_from pat skip s = count_from pat 0 (drop skip s)).
  { intros skip s'. revert skip. induction s' as [|c s' IH]; intros [|skip]; try done. cbn [count_from drop]. apply IH. }
  enough (∀ limit s, limit = None → Z.of_nat (length (split_from pat limit 0 s)) = 1 + count_from pat 0 s) by auto.
  apply (split_ind pat (λ limit s, limit = None → Z.of_nat (length (split_from pat limit 0 s)) = 1 + count_from pat 0 s)); [done|by intros|..].
  - intros limit c s' _ Hs IH ->. rw split_from_0 //. cbn [count_from]. rw Hs Hskip.
    change (spare None) with true. cbn [andb length fmap option_fmap option_map] in *. rw Nat2Z.inj_succ IH //.
    destruct pat as [|d pat]; [done|]. cbn [length drop]. rw Nat.sub_succ Nat.sub_0_r. lia.
  - intros limit c s' E IH ->. rw split_from_0 //. cbn [count_from]. rw E. cbn [spare andb] in E. rw E -IH //.
    destruct (split_from_cons pat None 0 s') as (p & ps & ->). done.
Qed.

Lemma split_from_length sep n s : sep ≠ [] → 0 ≤ n → Z.of_nat (length (split_from sep (Some n) 0 s)) ≤ n + 1.
Proof.
  intros Hsep. enough (∀ limit s, ∀ n, limit = Some n → 0 ≤ n → Z.of_nat (length (split_from sep limit 0 s)) ≤ n + 1) by eauto.
  clear n s. apply (split_ind sep (λ limit s, ∀ n, limit = Some n → 0 ≤ n → Z.of_nat (length (split_from sep limit 0 s)) ≤ n + 1)); [done|intros; subst; simpl; lia|..].
  - intros limit c s Hl Hs IH n -> Hn. rw split_from_0 // Hl Hs. cbn [spare] in Hl. apply Z.ltb_lt in Hl.
    cbn [andb length]. specialize (IH (Z.pred n) eq_refl). lia.
  - intros limit c s E IH n -> Hn. rw split_from_0 // E. specialize (IH n eq_refl Hn).
    destruct (split_from_cons sep (Some n) 0 s) as (p & ps & E'). rw E' in IH |- *. done.
Qed.

(** A split without limit leaves no occurrence in its pieces. *)
Lemma split_from_free sep limit s : sep ≠ [] → limit = None →
  Forall (λ p, find_sub sep p = None) (split_from sep limit 0 s).
Proof.
  intros Hsep Hl.
  assert (Hnil : find_sub sep [] = None) by (destruct sep; done).
  revert limit s Hl.
  apply (split_ind sep (λ limit s, limit = None → Forall (λ p, find_sub sep p = None) (split_from sep limit 0 s))); [done|..].
  - intros limit _. cbn [split_from]. auto.
  - intros limit c s _ Hs IH ->. rw split_from_0 // Hs. cbn [spare andb]. constructor; [done|]. by apply IH.
  - intros limit c s E IH ->. cbn [spare andb] in E. rw split_from_0 // E. cbn [spare andb]. specialize (IH eq_refl).
    pose proof (join_split_from sep None s Hsep) as Hjoin.
    destruct (split_from_cons sep None 0 s) as (p & ps & E'). rw E' in IH Hjoin |- *.
    apply Forall_cons in IH as [Hp Hps]. constructor; [|done]. cbn [find_sub].
    rw (starts_with_weaken sep (c :: p) (c :: s)) // ?Hp //. apply prefix_cons.
    destruct ps as [|q ps]; [by rw -Hjoin|]. rw -Hjoin join_cons. by apply prefix_app_r.
Qed.

(** ** Encodings *)

Abbreviation scalars := (Forall (λ c, scalar c = true)).

Lemma scalar_range c : scalar c = true ↔ 0 <= c <= 55295 ∨ 57344 <= c <= 1114111.
Proof. unfold scalar, between. lia. Qed.

(** Division by constants, for [lia]. *)
Ltac by_quotients := unfold continuation, between in *; Z.div_mod_to_equations; lia.
Ltac by_second_byte := unfold second_ok; repeat match goal with |- context [?a =? ?b] => destruct (Z.eqb_spec a b) end; by_quotients.

Lemma utf8_next_bytes c rest : scalar c = true →
  ∃ b bs, utf8_bytes c = b :: bs ∧ utf8_next b (bs ++ rest) = inl (c, rest).
Proof.
  intros Hc%scalar_range. unfold utf8_bytes, utf8_next.
  destruct (Z.ltb_spec c 128); [|destruct (Z.ltb_spec c 2048); [|destruct (Z.ltb_spec c 65536)]]; do 2 eexists; (split; [done|]); cbn [app].
  - by destruct (Z.ltb_spec c 128); [|lia].
  - replace (192 + c / 64 <? 128) with false by by_quotients.
    replace (between 194 223 (192 + c / 64)) with true by by_quotients.
    replace (continuation (128 + c mod 64)) with true by by_quotients. do 2 f_equal. by_quotients.
  - replace (224 + c / 4096 <? 128) with false by by_quotients.
    replace (between 194 223 (224 + c / 4096)) with false by by_quotients.
    replace (between 224 239 (224 + c / 4096)) with true by by_quotients.
    replace (second_ok (224 + c / 4096) (128 + c / 64 mod 64)) with true.
    2: { by_second_byte. }
    replace (continuation (128 + c mod 64)) with true by by_quotients. cbn [negb]. do 2 f_equal. by_quotients.
  - replace (240 + c / 262144 <? 128) with false by by_quotients.
    replace (between 194 223 (240 + c / 262144)) with false by by_quotients.
    replace (between 224 239 (240 + c / 262144)) with false by by_quotients.
    replace (between 240 244 (240 + c / 262144)) with true by by_quotients.
    replace (second_ok (240 + c / 262144) (128 + c / 4096 mod 64)) with true.
    2: { by_second_byte. }
    replace (continuation (128 + c / 64 mod 64)) with true by by_quotients.
    replace (continuation (128 + c mod 64)) with true by by_quotients. cbn [negb]. do 2 f_equal. by_quotients.
Qed.

Lemma from_utf8_encode s : scalars s → ∀ fuel pos, (length (utf8_encode s) ≤ fuel)%nat → from_utf8 fuel pos (utf8_encode s) = inl s.
Proof.
  induction 1 as [|c s Hc _ IH]; intros fuel pos Hfuel; [by destruct fuel|].
  cbn [utf8_encode flat_map] in *. destruct (utf8_next_bytes c (utf8_encode s) Hc) as (b & bs & Hb & Hnext).
  rw Hb in Hfuel |- *. cbn [app length] in *. destruct fuel as [|fuel]; [lia|]. cbn [from_utf8].
  change (flat_map utf8_bytes s) with (utf8_encode s) in *. rw Hnext IH //. rw length_app in Hfuel. lia.
Qed.

Lemma utf8_marking_encode mark s : scalars s → ∀ fuel, (length (utf8_encode s) ≤ fuel)%nat → utf8_marking mark fuel (utf8_encode s) = s.
Proof.
  induction 1 as [|c s Hc _ IH]; intros fuel Hfuel; [by destruct fuel|].
  cbn [utf8_encode flat_map] in *. destruct (utf8_next_bytes c (utf8_encode s) Hc) as (b & bs & Hb & Hnext).
  rw Hb in Hfuel |- *. cbn [app length] in *. destruct fuel as [|fuel]; [lia|]. cbn [utf8_marking].
  change (flat_map utf8_bytes s) with (utf8_encode s) in *. rw Hnext IH //. rw length_app in Hfuel. lia.
Qed.

Lemma units2_encode little us : units2 little (flat_map (if little then le2 else be2) us) = us.
Proof.
  induction us as [|u us IH]; [done|].
  destruct little; cbn [flat_map le2 be2 app units2]; rw IH; f_equal; by_quotients.
Qed.

Lemma units4_encode little us : units4 little (flat_map (if little then le4 else be4) us) = us.
Proof.
  induction us as [|u us IH]; [done|].
  destruct little; cbn [flat_map le4 be4 rev app units4]; rw IH; f_equal; by_quotients.
Qed.

Lemma from_utf16_units s : scalars s → from_utf16 (flat_map utf16_units s) = Some s.
Proof.
  induction 1 as [|c s Hc%scalar_range _ IH]; [done|]. cbn [flat_map]. unfold utf16_units at 1.
  destruct (Z.ltb_spec c 65536); cbn [app from_utf16].
  - replace (between 55296 56319 c) with false by by_quotients. replace (between 56320 57343 c) with false by by_quotients.
    by rw IH.
  - replace (between 55296 56319 _) with true by by_quotients. replace (between 56320 57343 _) with true by by_quotients.
    rw IH. cbn. do 2 f_equal. by_quotients.
Qed.

Lemma from_utf32_scalars s : scalars s → from_utf32 s = Some s.
Proof. intros Hs. unfold from_utf32. by rw (proj2 (forallb_forall _ _) (proj1 (List.Forall_forall _ _) Hs)). Qed.

(** *** Escapes *)

Lemma digit_value_char d : 0 <= d < 16 → digit_value (hex_char d) = Some d.
Proof.
  intros Hd. assert (List.In d (map Z.of_nat (seq 0 16))) as Hin.
  { apply in_map_iff. exists (Z.to_nat d). split; [lia|]. apply in_seq. lia. }
  cbn in Hin. repeat (destruct Hin as [<-|Hin]; [done|]). done.
Qed.

Lemma hex_value_digits n acc z : hex_value acc (hex_digits n z) = Some (acc * 16 ^ Z.of_nat n + z mod 16 ^ Z.of_nat n).
Proof.
  revert acc. induction n as [|n IH]; intros acc; cbn [hex_digits hex_value].
  - rw Z.mod_1_r. f_equal. lia.
  - rw digit_value_char; [apply Z.mod_pos_bound; lia|]. rw IH. f_equal.
    rw Nat2Z.inj_succ Z.pow_succ_r; [lia|]. rw (Z.mul_comm 16 (16 ^ _)) Z.rem_mul_r; [apply Z.pow_nonzero; lia|lia|]. ring.
Qed.

Lemma hex_digits_length n z : length (hex_digits n z) = n.
Proof. induction n; cbn; auto. Qed.

Lemma from_hex_digits n z rest : (0 < n)%nat → 0 <= z < 16 ^ Z.of_nat n →
  from_hex (take n (hex_digits n z ++ rest)) = Some z ∧ drop n (hex_digits n z ++ rest) = rest.
Proof.
  intros Hn Hz. rw take_app_length' ?hex_digits_length // drop_app_length' ?hex_digits_length //.
  split; [|done]. pose proof (hex_value_digits n 0 z) as Hv. rw Z.mod_small // in Hv.
  destruct n as [|n]; [lia|]. cbn [hex_digits] in *. set (d := z / 16 ^ Z.of_nat n mod 16) in *.
  assert (hex_char d ≠ 43) as Hsign.
  { unfold hex_char. pose proof (Z.mod_pos_bound (z / 16 ^ Z.of_nat n) 16). destruct (Z.ltb_spec d 10); lia. }
  rw -Hv. unfold from_hex. destruct (hex_char d) as [|p|p] eqn:Hd; [done| |done].
  do 6 (destruct p as [p|p|]; try done).
Qed.

(** One hexadecimal escape. *)
Lemma from_escape n c rest : (0 < n)%nat → 0 <= c < 16 ^ Z.of_nat n → scalar c = true →
  match from_hex (take n (hex_digits n c ++ rest)) with
  | Some v => (if scalar v then [v] else [], drop n (hex_digits n c ++ rest))
  | None => ([], hex_digits n c ++ rest)
  end = ([c], rest).
Proof. intros Hn Hc Hs. destruct (from_hex_digits n c rest) as [-> ->]; [done..|]. by rw Hs. Qed.

Lemma unescape_step fuel mark out rest tail : unescape_one mark tail = ([out], rest) →
  unescape (S fuel) (92 :: mark :: tail) = out :: unescape fuel rest.
Proof. intros Hone. cbn [unescape]. change (92 =? 92) with true. cbn iota. by rw Hone. Qed.

Lemma unescape_char c rest fuel : scalar c = true → unescape (S fuel) (unicode_escape_char c ++ rest) = c :: unescape fuel rest.
Proof.
  intros Hs. pose proof (proj1 (scalar_range c) Hs) as Hc. unfold unicode_escape_char.
  destruct (Z.eqb_spec c 92) as [->|]; [done|]. destruct (Z.eqb_spec c 10) as [->|]; [done|].
  destruct (Z.eqb_spec c 13) as [->|]; [done|]. destruct (Z.eqb_spec c 9) as [->|]; [done|].
  destruct (between 32 126 c).
  - cbn [app unescape]. destruct rest as [|e rest]; [by destruct fuel|]. by destruct (Z.eqb_spec c 92).
  - unfold escape_hex. destruct (Z.leb_spec c 255); [|destruct (Z.leb_spec c 65535)]; rw -app_assoc.
    + apply unescape_step, (from_escape 2); [lia..|done].
    + apply unescape_step, (from_escape 4); [lia..|done].
    + apply unescape_step, (from_escape 8); [lia..|done].
Qed.

Lemma unescape_encode s : scalars s → ∀ fuel, (length s ≤ fuel)%nat → unescape fuel (unicode_escape_encode s) = s.
Proof.
  induction 1 as [|c s Hc _ IH]; intros fuel Hfuel; [by destruct fuel|].
  cbn [length] in Hfuel. destruct fuel as [|fuel]; [lia|]. cbn [unicode_escape_encode flat_map].
  rw unescape_char //. f_equal. apply IH. lia.
Qed.

Lemma unicode_escape_longer s : (length s ≤ length (unicode_escape_encode s))%nat.
Proof.
  induction s as [|c s IH]; [done|]. cbn [unicode_escape_encode flat_map length]. rw length_app.
  change (flat_map unicode_escape_char s) with (unicode_escape_encode s).
  enough (0 < length (unicode_escape_char c))%nat by lia. unfold unicode_escape_char, escape_hex.
  repeat case_match; cbn; lia.
Qed.

(** *** Codecs *)

Lemma one_of_member name names : one_of name names = true → ∃ n, List.In n names ∧ name = lit n.
Proof. unfold one_of. intros (n & Hn & ->%bool_decide_eq_true)%existsb_exists. eauto. Qed.

Section Codecs.
Context `{External} `{!ExternalOrder} `{!Platform} `{!Formats} `{!Calls} `{!Estimates} `{!Unicode}.

Lemma encode_narrow_strict s max codec b : encode_narrow s max codec (lit "strict") = Ok b → b = s ∧ Forall (λ c, c <= max) s.
Proof.
  revert b. induction s as [|c s IH]; intros b; cbn [encode_narrow]; [by intros [= <-]|].
  destruct (Z.leb_spec c max); [|done]. destruct (encode_narrow s max codec (lit "strict")) as [b'|e|]; [|done..].
  destruct (IH b' eq_refl) as [-> Hs]. cbn. intros [= <-]. by split; [|constructor].
Qed.

Lemma decode_utf8_encode s errors : scalars s → decode_utf8_with_errors (utf8_encode s) errors = Ok s.
Proof.
  intros Hs. unfold decode_utf8_with_errors, utf8_lossy_text, utf8_of_bytes.
  rw !utf8_marking_encode // from_utf8_encode //. by repeat case_match.
Qed.

Lemma decode_ascii_encode s errors : Forall (λ c, c <= 127) s → decode_ascii_with_errors s errors = Ok s.
Proof.
  intros Hs. unfold decode_ascii_with_errors, is_ascii.
  rw (proj2 (forallb_forall (λ c, c <? 128) s)) //. intros c Hc. apply Z.ltb_lt.
  pose proof (proj1 (List.Forall_forall _ _) Hs c Hc). simpl in *. lia.
Qed.

Lemma decode_utf16_encode little s : scalars s → from_utf16 (units2 little (utf16_encode little s)) = Some s.
Proof. intros Hs. unfold utf16_encode. rw units2_encode. by apply from_utf16_units. Qed.

Lemma decode_utf32_encode little s : scalars s → from_utf32 (units4 little (utf32_encode little s)) = Some s.
Proof. intros Hs. unfold utf32_encode. rw units4_encode. by apply from_utf32_scalars. Qed.

(** The codec of a name, once the name is one of the known spellings. *)
Ltac decide_names :=
  repeat match goal with
  | |- context [one_of ?a ?names] => let v := eval vm_compute in (one_of a names) in change (one_of a names) with v; cbv iota
  end.
Ltac each_spelling E :=
  let n := fresh "n" in let Hn := fresh in
  apply one_of_member in E as (n & Hn & ->); cbn [List.In] in Hn;
  repeat (destruct Hn as [<-|Hn]; [decide_names|]); [..|destruct Hn].

(** C3: A text of Unicode scalar values that [str.encode] turns into bytes without an
    error handler comes back from [bytes.decode] under the same name of the codec,
    whatever handler of errors is named there: for UTF-8, for UTF-16 and UTF-32 with
    their byte orders and marks, for ASCII, Latin-1 and [unicode_escape], under every
    spelling the two functions know. *)
Theorem encode_then_decode s encoding errors b : scalars s →
  encode s encoding (lit "strict") = Ok b → decode b encoding errors = Ok s.
Proof.
  intros Hs. unfold encode, decode. set (name := map to_ascii_lower encoding). clearbody name.
  repeat lazymatch goal with
  | |- (if one_of name ?names then _ else _) = _ → _ =>
      let E := fresh "E" in destruct (one_of name names) eqn:E; [each_spelling E|clear E]
  end.
  all: lazymatch goal with
  | |- encode_narrow _ 127 _ _ = _ → _ => intros [-> Hn]%encode_narrow_strict; by apply decode_ascii_encode
  | |- encode_narrow _ 255 _ _ = _ → _ => by intros [-> _]%encode_narrow_strict
  | |- exception _ _ = _ → _ => done
  | |- _ => intros [= <-]; cbn [bom16 bom32 app fst snd]
  end.
  all: first [by apply decode_utf8_encode | by rw decode_utf16_encode | by rw decode_utf32_encode | idtac].
  all: unfold unicode_escape_decode; by rw unescape_encode //; apply unicode_escape_longer.
Qed.

End Codecs.

(** ** Windows *)

(** An occurrence of [sub] inside the window [w] of [s]. *)
Definition occurs_within (w : nat * nat) (sub s : list Z) (k : nat) : Prop :=
  (w.1 ≤ k)%nat ∧ (k + length sub ≤ w.2)%nat ∧ sub `prefix_of` drop k s.

Lemma prefix_of_take (p l : list Z) n : p `prefix_of` take n l ↔ (length p ≤ n)%nat ∧ p `prefix_of` l.
Proof.
  split.
  - intros Hp. split; [apply prefix_length in Hp; rw length_take in Hp; lia|]. etrans; [done|]. apply prefix_take.
  - intros [Hn [rest ->]]. rw take_app_ge //. by apply prefix_app_r.
Qed.

Lemma resolve_window_bounds len start stop :
  let w := resolve_window len start stop in (w.1 ≤ w.2 ≤ len)%nat.
Proof. unfold resolve_window. cbn. lia. Qed.

Lemma occurs_within_at (w : nat * nat) sub s k : (w.1 ≤ w.2 ≤ length s)%nat →
  occurs_at sub (within w s) k ↔ occurs_within w sub s (w.1 + k).
Proof.
  intros Hw. unfold occurs_at, within, occurs_within. rw length_take length_drop.
  rw skipn_firstn_comm drop_drop prefix_of_take. split.
  - intros (? & ? & ?). repeat split; [lia..|done].
  - intros (? & ? & ?). repeat split; [lia..|done].
Qed.

(** The outermost occurrences in a window, by the two searches. *)
Lemma search_window (w : nat * nat) sub s : (w.1 ≤ w.2 ≤ length s)%nat →
  (search_result w (find_sub sub (within w s)) = None ∧ search_result w (rfind_sub sub (within w s)) = None ∧
   ∀ k, ¬ occurs_within w sub s k) ∨
  (∃ i j, search_result w (find_sub sub (within w s)) = Some (Z.of_nat i) ∧
     search_result w (rfind_sub sub (within w s)) = Some (Z.of_nat j) ∧
     occurs_within w sub s i ∧ occurs_within w sub s j ∧ ∀ k, occurs_within w sub s k → (i ≤ k ≤ j)%nat).
Proof.
  intros Hw.
  assert (Hshift : ∀ k, occurs_within w sub s k → occurs_at sub (within w s) (k - w.1) ∧ k = (w.1 + (k - w.1))%nat).
  { intros k Hk. destruct (Hk) as [? _]. split; [|lia]. apply occurs_within_at; [done|].
    by replace (w.1 + (k - w.1))%nat with k by lia. }
  pose proof (find_sub_spec sub (within w s)) as Hf. pose proof (rfind_sub_spec sub (within w s)) as Hr.
  destruct (find_sub sub (within w s)) as [i|], (rfind_sub sub (within w s)) as [j|]; cbn.
  - right. exists (w.1 + i)%nat, (w.1 + j)%nat. destruct Hf as [Hf1 Hf2], Hr as [Hr1 Hr2].
    do 2 (split; [done|]). split; [by apply occurs_within_at|]. split; [by apply occurs_within_at|].
    intros k [Hk ->]%Hshift. specialize (Hf2 _ Hk). specialize (Hr2 _ Hk). lia.
  - by destruct (Hr i); destruct Hf.
  - by destruct (Hf j); destruct Hr.
  - left. do 2 (split; [done|]). intros k [Hk _]%Hshift. by destruct (Hf _ Hk).
Qed.

(** ** The methods *)

Section Methods.
Context `{External} `{!ExternalOrder} `{!Platform} `{!Formats} `{!Calls} `{!Estimates} `{!Unicode}.

Lemma shared_list_at h vs l h' : shared_list h vs = (l, h') → list_at h' l = vs.
Proof. unfold shared_list. intros [= <- <-]. unfold list_at. cbn [lists]. by rw lookup_insert_eq. Qed.

Lemma join_parts_texts i pieces : join_parts i (texts pieces) = Ok pieces.
Proof. revert i. induction pieces as [|p ps IH]; intros i; [done|]. cbn [texts map join_parts]. fold (texts ps). by rw IH. Qed.

Lemma iterate_list h l : dispatch_iter structural_eq set_elem h (VList l) = Ok (list_at h l, h).
Proof. done. Qed.

Lemma join_method h l sep pieces : list_at h l = texts pieces →
  dispatch_string_method h sep "join" [VList l] [] = Ok (VString (join sep pieces), h).
Proof.
  intros Hl. change (str_join h sep [VList l] [] = Ok (VString (join sep pieces), h)). unfold str_join.
  rw iterate_list Hl. cbn [mbind Outcome_bind]. by rw join_parts_texts.
Qed.

Lemma split_method h s sep maxsplit : sep ≠ [] → i64_min <= maxsplit < i64_max →
  dispatch_string_method h s "split" [VString sep; VInt maxsplit] [] =
    new_list h (texts (split_on sep s (if maxsplit <? 0 then None else Some maxsplit))).
Proof.
  intros Hsep Hmax.
  change (splitting "split" split_whitespace_max split_on h s [VString sep; VInt maxsplit] [] =
    new_list h (texts (split_on sep s (if maxsplit <? 0 then None else Some maxsplit)))).
  unfold splitting. destruct sep as [|c sep]; [done|].
  change ((limit ← limit_of maxsplit; new_list h (texts (split_on (c :: sep) s limit))) =
    new_list h (texts (split_on (c :: sep) s (if maxsplit <? 0 then None else Some maxsplit)))).
  unfold limit_of. unfold i64_min, i64_max in *; destruct (Z.ltb_spec maxsplit 0); [done|].
  unfold to_index. rw swrap64_id; [unfold i64_min, i64_max; lia|]. destruct (Z.ltb_spec (maxsplit + 1) 0); [lia|].
  cbn [mbind Outcome_bind]. by replace (Z.of_nat (Z.to_nat (maxsplit + 1)) - 1) with maxsplit by lia.
Qed.

Lemma replace_method h s old new count : old ≠ [] →
  dispatch_string_method h s "replace" [VString old; VString new; VInt count] [] =
    Ok (VString (join new (split_on old s (if count <? 0 then None else Some count))), h).
Proof.
  intros Hold. unfold split_on. rw -replace_from_split //. destruct old; done.
Qed.

Lemma count_method h s sub : sub ≠ [] →
  dispatch_string_method h s "count" [VString sub] [] = Ok (VInt (count_from sub 0 s), h).
Proof.
  intros Hsub. set (w := resolve_window (length s) None None).
  assert (within w s = s) as Hw.
  { assert (w = (0%nat, length s)) as -> by (unfold w, resolve_window; cbn; destruct (Z.ltb_spec (Z.of_nat (length s)) 0); f_equal; lia).
    unfold within. cbn [fst snd]. by rw drop_0 Nat.sub_0_r firstn_all. }
  change (dispatch_string_method h s "count" [VString sub] []) with
    (plain h (Ok (VInt (count_sub sub (within w s))))). rw Hw. by destruct sub.
Qed.

(** C4: The methods [split], [join] and [replace] of strings fit together: with a
    separator that is not empty and any limit, [split] makes a list of pieces that
    [join] puts together again to the string it came from; [replace] is [split]
    followed by [join] with the replacement; a limit bounds the number of pieces; and
    without one no piece contains the separator, and there is one piece more than
    [count] counts. *)
Theorem split_join_replace h s sep new maxsplit : sep ≠ [] → i64_min <= maxsplit < i64_max →
  ∃ pieces l h',
    dispatch_string_method h s "split" [VString sep; VInt maxsplit] [] = Ok (VList l, h') ∧
    list_at h' l = texts pieces ∧
    dispatch_string_method h' sep "join" [VList l] [] = Ok (VString s, h') ∧
    dispatch_string_method h s "replace" [VString sep; VString new; VInt maxsplit] [] = Ok (VString (join new pieces), h) ∧
    (0 <= maxsplit → Z.of_nat (length pieces) <= maxsplit + 1) ∧
    (maxsplit < 0 → Forall (λ p, find_sub sep p = None) pieces ∧
       dispatch_string_method h s "count" [VString sep] [] = Ok (VInt (Z.of_nat (length pieces) - 1), h)).
Proof.
  intros Hsep Hmax. set (limit := if maxsplit <? 0 then None else Some maxsplit).
  exists (split_on sep s limit). rw split_method // -/limit. unfold new_list.
  destruct (shared_list h (texts (split_on sep s limit))) as [l h'] eqn:Hl. apply shared_list_at in Hl.
  exists l, h'. do 2 (split; [done|]).
  split; [rw (join_method h' l sep (split_on sep s limit)) //; by rw /split_on join_split_from|].
  split; [by apply replace_method|]. unfold limit. split; intros Hm.
  - destruct (Z.ltb_spec maxsplit 0); [lia|]. by apply split_from_length.
  - destruct (Z.ltb_spec maxsplit 0); [|lia]. split; [by apply split_from_free|].
    rw count_method //.
    replace (count_from sep 0 s) with (Z.of_nat (length (split_on sep s None)) - 1); [done|].
    pose proof (count_from_split sep s Hsep). unfold split_on. lia.
Qed.

(** C5: [find] and [rfind] of a string report the first and the last position at
    which the substring occurs inside the window that the bounds select, or both
    -1 when it occurs nowhere in it; and [index] raises [ValueError] exactly then. *)
Theorem find_outermost h s sub start stop :
  let args := [VString sub; VInt start; VInt stop] in
  let occurs := occurs_within (resolve_window (length s) (Some start) (Some stop)) sub s in
  let answer method := dispatch_string_method h s method args [] in
  (answer "find" = Ok (VInt (-1), h) ∧ answer "rfind" = Ok (VInt (-1), h) ∧
   answer "index" = exception "ValueError" (lit "substring not found") ∧ ∀ k, ¬ occurs k) ∨
  (∃ i j : nat, answer "find" = Ok (VInt (Z.of_nat i), h) ∧ answer "rfind" = Ok (VInt (Z.of_nat j), h) ∧
     answer "index" = Ok (VInt (Z.of_nat i), h) ∧
     occurs i ∧ occurs j ∧ ∀ k, occurs k → (i ≤ k ≤ j)%nat).
Proof.
  intros args occurs answer. set (w := resolve_window (length s) (Some start) (Some stop)) in *.
  assert (answer "find" = plain h match search_result w (find_sub sub (within w s)) with Some i => Ok (VInt i) | None => Ok (VInt (-1)) end) as -> by done.
  assert (answer "rfind" = plain h match search_result w (rfind_sub sub (within w s)) with Some i => Ok (VInt i) | None => Ok (VInt (-1)) end) as -> by done.
  assert (answer "index" = plain h match search_result w (find_sub sub (within w s)) with Some i => Ok (VInt i) | None => substring_missing end) as -> by done.
  destruct (search_window w sub s) as [(-> & -> & Hno)|(i & j & -> & -> & Hi & Hj & Hall)]; [apply resolve_window_bounds|..].
  - by left.
  - right. by exists i, j.
Qed.

End Methods.

(** ** The theorems at concrete strings *)

(** The tables of ASCII. *)
#[export] Instance sample_unicode : Unicode := {|
  to_uppercase := fun c => [to_ascii_upper c];
  to_lowercase := fun c => [to_ascii_lower c];
  str_to_lowercase := map to_ascii_lower;
  is_alphabetic := ascii_alpha;
  is_numeric := ascii_digit;
  is_uppercase := ascii_upper;
  is_lowercase := ascii_lower;
  get_general_category := fun c => if ascii_digit c then DecimalNumber else if between 32 126 c then OtherCategory else Control
|}.

Definition sample_text : text := [104; 233; 8364; 128512].

Lemma encode_then_decode_witness :
  encode sample_text (lit "UTF-16") (lit "strict") = Ok [255; 254; 104; 0; 233; 0; 172; 32; 61; 216; 0; 222] ∧
  decode [255; 254; 104; 0; 233; 0; 172; 32; 61; 216; 0; 222] (lit "UTF-16") (lit "strict") = Ok sample_text.
Proof.
  assert (encode sample_text (lit "UTF-16") (lit "strict") = Ok [255; 254; 104; 0; 233; 0; 172; 32; 61; 216; 0; 222]) as E
    by reflexivity.
  split; [exact E|]. apply (encode_then_decode sample_text (lit "UTF-16")); [|exact E].
  repeat constructor.
Defined.

Lemma split_join_replace_witness : ∃ pieces l h',
    dispatch_string_method empty_heap (lit "a--b--c") "split" [VString (lit "--"); VInt (-1)] [] = Ok (VList l, h') ∧
    list_at h' l = texts pieces ∧
    dispatch_string_method h' (lit "--") "join" [VList l] [] = Ok (VString (lit "a--b--c"), h') ∧
    dispatch_string_method empty_heap (lit "a--b--c") "replace" [VString (lit "--"); VString (lit "+"); VInt (-1)] [] =
      Ok (VString (join (lit "+") pieces), empty_heap) ∧
    (0 <= -1 → Z.of_nat (length pieces) <= -1 + 1) ∧
    (-1 < 0 → Forall (λ p, find_sub (lit "--") p = None) pieces ∧
       dispatch_string_method empty_heap (lit "a--b--c") "count" [VString (lit "--")] [] =
         Ok (VInt (Z.of_nat (length pieces) - 1), empty_heap)).
Proof. apply (split_join_replace empty_heap (lit "a--b--c") (lit "--") (lit "+") (-1)); [done|]. unfold i64_min, i64_max. lia. Defined.

(** Without a limit [rsplit] splits from the left. *)
Example rsplit_from_the_left :
  rsplit_pieces (lit "aa") (lit "aaa") None = [[]; lit "a"] ∧ rsplit_pieces (lit "aa") (lit "aaa") (Some 1) = [lit "a"; []].
Proof. done. Qed.

(** The extra fill of [center] is on the right. *)
Example center_pads_right : center 32 5 (lit "ab") = lit " ab  ".
Proof. done. Qed.
