(* ===== verification/PlacesThms.v ===== *)
(** Places: what a write through a place changes, what a read finds afterwards, and the
    walks that never return. *)
From Stdlib Require Import ZArith Lia Ascii String SpecFloat ssreflect.
From stdpp Require Import base tactics list numbers option strings gmap.
From S2P Require Import Prelude PySet Values Errors F64 Keys Classes Slices Compare Operators State Exceptions Op Methods Containers Places Syntax Samples.

Section Heaps.
Context `{External}.

(** Two heaps that differ at most in the containers of [ls], and two that agree there. *)
Definition same_but (ls : list Lock) (h h' : Heap) : Prop :=
  (∀ l, LList l ∉ ls → list_at h l = list_at h' l) ∧ (∀ l, LDict l ∉ ls → dict_at h l = dict_at h' l) ∧
  (∀ l, LFields l ∉ ls → fields_at h l = fields_at h' l) ∧ sets h = sets h'.
Definition same_in (ls : list Lock) (h h' : Heap) : Prop :=
  (∀ l, LList l ∈ ls → list_at h l = list_at h' l) ∧ (∀ l, LDict l ∈ ls → dict_at h l = dict_at h' l) ∧
  (∀ l, LFields l ∈ ls → fields_at h l = fields_at h' l) ∧ sets h = sets h'.

Lemma list_at_put l x h l' : list_at (put_list l x h) l' = if bool_decide (l = l') then x else list_at h l'.
Proof. unfold list_at, put_list. cbn [lists]. case_bool_decide; by simplify_map_eq. Qed.
Lemma dict_at_put l x h l' : dict_at (put_dict l x h) l' = if bool_decide (l = l') then x else dict_at h l'.
Proof. unfold dict_at, put_dict. cbn [dicts]. case_bool_decide; by simplify_map_eq. Qed.
Lemma fields_at_put l x h l' : fields_at (put_fields l x h) l' = if bool_decide (l = l') then x else fields_at h l'.
Proof. unfold fields_at, put_fields. cbn [instance_fields]. case_bool_decide; by simplify_map_eq. Qed.

Lemma same_but_put_list l x h ls : LList l ∈ ls → same_but ls h (put_list l x h).
Proof. intros Hl. split; [|done]. intros l' Hl'. rw list_at_put. case_bool_decide; by subst. Qed.
Lemma same_but_put_dict l x h ls : LDict l ∈ ls → same_but ls h (put_dict l x h).
Proof. intros Hl. split; [done|]. split; [|done]. intros l' Hl'. rw dict_at_put. case_bool_decide; by subst. Qed.
Lemma same_but_put_fields l x h ls : LFields l ∈ ls → same_but ls h (put_fields l x h).
Proof. intros Hl. split; [done|]. split; [done|]. split; [|done]. intros l' Hl'. rw fields_at_put. case_bool_decide; by subst. Qed.

(** A change of an unlocked container agrees with what is locked. *)
Lemma same_in_put_list l x h h' lk ls : LList l ∉ ls → same_in (lk :: ls) h h' → same_in ls h (put_list l x h').
Proof.
  intros Hl (Ha & Hb & Hc & Hd). split_and!; [|set_solver..|done]. intros l' Hl'. rw list_at_put.
  case_bool_decide; [by subst|]. apply Ha. set_solver.
Qed.
Lemma same_in_put_dict l x h h' lk ls : LDict l ∉ ls → same_in (lk :: ls) h h' → same_in ls h (put_dict l x h').
Proof.
  intros Hl (Ha & Hb & Hc & Hd). split_and!; [set_solver| |set_solver|done]. intros l' Hl'. rw dict_at_put.
  case_bool_decide; [by subst|]. apply Hb. set_solver.
Qed.
Lemma same_in_put_fields l x h h' lk ls : LFields l ∉ ls → same_in (lk :: ls) h h' → same_in ls h (put_fields l x h').
Proof.
  intros Hl (Ha & Hb & Hc & Hd). split_and!; [set_solver..| |done]. intros l' Hl'. rw fields_at_put.
  case_bool_decide; [by subst|]. apply Hc. set_solver.
Qed.

(** What is there put back. *)
Lemma put_list_same l i x h : list_at h l !! i = Some x → put_list l (<[i:=x]> (list_at h l)) h = h.
Proof.
  intros Hx. rw list_insert_id; [done|]. unfold put_list, list_at in *. destruct h as [ls ds ss bs ios fs]. cbn in *.
  rw insert_id; [|done]. by destruct (ls !! l).
Qed.
Lemma put_dict_same l h : dict_at h l ≠ [] → put_dict l (dict_at h l) h = h.
Proof.
  intros Hx. unfold put_dict, dict_at in *. destruct h as [ls ds ss bs ios fs]. cbn in *.
  rw insert_id; [|done]. by destruct (ds !! l).
Qed.
Lemma put_fields_same l h : fields_at h l ≠ [] → put_fields l (fields_at h l) h = h.
Proof.
  intros Hx. unfold put_fields, fields_at in *. destruct h as [ls ds ss bs ios fs]. cbn in *.
  rw insert_id; [|done]. by destruct (fs !! l).
Qed.
End Heaps.

Section Maps.
Context {K V : Type} (eqb : K → K → bool).

Lemma im_get_here (m : list (K * V)) k v : im_get eqb m k = Some v ∨ eqb k k = true →
  ∀ v', im_get eqb (im_insert eqb m k v') k = Some v'.
Proof.
  intros Hk v'. induction m as [|[k0 v0] m IH]; cbn in *.
  - destruct Hk as [Hk | ->]; done.
  - destruct (eqb k0 k) eqn:E; cbn; rw E; [done|]. by apply IH.
Qed.
Lemma im_insert_same (m : list (K * V)) k v : im_get eqb m k = Some v → im_insert eqb m k v = m.
Proof. induction m as [|[k0 v0] m IH]; cbn; [done|]. destruct (eqb k0 k); [congruence|]. intros Hm. by rw IH. Qed.
End Maps.

Lemma field_put_get `{External} fs name v v' : field_get fs name = Some v → field_get (field_put fs name v') name = Some v'.
Proof. induction fs as [|[n w] fs IH]; cbn; [done|]. case_bool_decide; cbn; by case_bool_decide; auto. Qed.
Lemma field_put_same `{External} fs name v : field_get fs name = Some v → field_put fs name v = fs.
Proof. induction fs as [|[n w] fs IH]; cbn; [done|]. case_bool_decide; [congruence|]. intros Hf. by rw IH. Qed.

Lemma value_to_key_sets `{External} address h h' fuel v : sets h = sets h' → value_to_key address h fuel v = value_to_key address h' fuel v.
Proof.
  intros Hs. revert v. induction fuel as [|fuel IH]; intros v; [done|]. destruct v; cbn [value_to_key]; try done.
  - f_equal. f_equal. by apply list_fmap_ext.
  - unfold set_at. rw Hs. f_equal. f_equal. by apply list_fmap_ext.
  - by destruct kind; rw ?IH.
Qed.

Section Places.
Context `{External} `{!ExternalOrder} `{!Platform} `{!Formats} `{!Trees} `{!Calls} `{!Estimates}.
Abbreviation key_eq := (key_eqb structural_eq).

(** The specification of a walk: the slot at the end of the steps from a value holds
    [v], and no container of [held] or of the walk is passed twice. *)
Inductive slot (h : Heap) : list Lock → list PlaceStep → Value → Value → Prop :=
| slot_here held v : slot h held [] v v
| slot_list held l key i x steps v :
    LList l ∉ held → seq_index (length (list_at h l)) key = Ok i → list_at h l !! i = Some x →
    slot h (LList l :: held) steps x v → slot h held (Index key :: steps) (VList l) v
| slot_dict held cur l key k x steps v :
    as_dict cur = Some l → LDict l ∉ held → key_of h key = Ok k → im_get key_eq (dict_at h l) k = Some x →
    slot h (LDict l :: held) steps x v → slot h held (Index key :: steps) cur v
| slot_default held items factory key k x steps v :
    key_of h key = Ok k → im_get key_eq items k = Some x →
    slot h held steps x v → slot h held (Index key :: steps) (VDefaultDict items factory) v
| slot_counter held items key k x steps v :
    key_of h key = Ok k → im_get key_eq items k = Some x →
    slot h held steps x v → slot h held (Index key :: steps) (VCounter items) v
| slot_deque held items maxlen key i x steps v :
    seq_index (length items) key = Ok i → items !! i = Some x →
    slot h held steps x v → slot h held (Index key :: steps) (VDeque items maxlen) v
| slot_name held l name x steps v :
    LDict l ∉ held → im_get key_eq (dict_at h l) (KString (name_text name)) = Some x →
    slot h (LDict l :: held) steps x v → slot h held (Attr name :: steps) (VDict l) v
| slot_field held class_name l name x steps v :
    LFields l ∉ held → field_get (fields_at h l) name = Some x →
    slot h (LFields l :: held) steps x v → slot h held (Attr name :: steps) (VInstance class_name l) v.

Lemma key_of_sets h h' key : sets h = sets h' → key_of h key = key_of h' key.
Proof. apply value_to_key_sets. Qed.

(** What is locked already plays no part. *)
Lemma slot_same_but h h' held steps cur v : slot h held steps cur v → same_but held h h' → slot h' held steps cur v.
Proof.
  induction 1 as [held v|held l key i x steps v Hl Hi Hx Hs IH|held cur l key k x steps v Hcur Hl Hk Hx Hs IH
    |held items factory key k x steps v Hk Hx Hs IH|held items key k x steps v Hk Hx Hs IH
    |held items maxlen key i x steps v Hi Hx Hs IH|held l name x steps v Hl Hx Hs IH
    |held class_name l name x steps v Hl Hx Hs IH];
    intros Hsame; [constructor| | | | | | |]; pose proof Hsame as (Ha & Hb & Hc & Hd).
  - econstructor; [done|by rw -Ha|by rw -Ha|]. apply IH. split_and!; [set_solver..|done].
  - econstructor; [done..|by rw -(key_of_sets _ _ _ Hd)|by rw -Hb|]. apply IH. split_and!; [set_solver..|done].
  - econstructor; [by rw -(key_of_sets _ _ _ Hd)|done|]. by apply IH.
  - econstructor; [by rw -(key_of_sets _ _ _ Hd)|done|]. by apply IH.
  - econstructor; [done..|]. by apply IH.
  - econstructor; [done|by rw -Hb|]. apply IH. split_and!; [set_solver..|done].
  - econstructor; [done|by rw -Hc|]. apply IH. split_and!; [set_solver..|done].
Qed.

Lemma acquired {A} held l (k : EvalResult A) : l ∉ held → acquire held l k = k.
Proof. unfold acquire. by case_bool_decide. Qed.

(** Reading finds the value of the slot and changes nothing. *)
Lemma read_of_slot h held steps cur v : slot h held steps cur v → nav_recurse read_slot steps held h cur = (h, cur, Ok v).
Proof.
  induction 1 as [held v|held l key i x steps v Hl Hi Hx Hs IH|held cur l key k x steps v Hcur Hl Hk Hx Hs IH
    |held items factory key k x steps v Hk Hx Hs IH|held items key k x steps v Hk Hx Hs IH
    |held items maxlen key i x steps v Hi Hx Hs IH|held l name x steps v Hl Hx Hs IH
    |held class_name l name x steps v Hl Hx Hs IH]; [done|..]; cbn [nav_recurse].
  - rw acquired; [done|]. rw Hi /= Hx /= IH. by rw put_list_same.
  - assert (im_insert key_eq (dict_at h l) k x = dict_at h l) as Hsame by by apply im_insert_same.
    assert (dict_at h l ≠ []) by by intros E; rw E in Hx.
    destruct cur; try done; injection Hcur as ->; rw Hk /= acquired //= /entry_of Hx /= IH Hsame; by rw put_dict_same.
  - rw Hk /= /entry_of Hx /= IH. by rw im_insert_same.
  - rw Hk /= Hx /= IH. by rw im_insert_same.
  - rw Hi /= Hx /= IH. by rw list_insert_id.
  - assert (dict_at h l ≠ []) by by intros E; rw E in Hx.
    rw acquired; [done|]. rw Hx /= IH. rw im_insert_same; [done|]. by rw put_dict_same.
  - assert (fields_at h l ≠ []) by by intros E; rw E in Hx.
    rw acquired; [done|]. rw Hx /= IH. rw field_put_same; [done|]. by rw put_fields_same.
Qed.

(** A step that succeeds. *)
Lemma nav_try_ok {A B} h cur (r : EvalResult B) (k : B → Heap * Value * EvalResult A) h' cur' a :
  nav_try h cur r k = (h', cur', Ok a) → ∃ b, (r = Ok b) ∧ (k b = (h', cur', Ok a)).
Proof. destruct r as [b| |]; cbn; [by exists b|done|done]. Qed.
Lemma acquire_ok {A} held l (k : EvalResult A) a : acquire held l k = Ok a → (l ∉ held) ∧ (k = Ok a).
Proof. unfold acquire. by case_bool_decide. Qed.
Lemma or_panic_ok {A} (o : option A) a : @or_panic EvalError A o = Ok a → o = Some a.
Proof. by destruct o; [intros [= ->]|]. Qed.
Lemma entry_of_ok es k v : entry_of es k = Ok v → im_get key_eq es k = Some v.
Proof. unfold entry_of. by destruct (im_get key_eq es k); [intros [= ->]|]. Qed.

(** Which containers a write changed: one, whose holders all see it, or none, and then
    the value of the variable. *)
Definition one_change (held : list Lock) (h h' : Heap) (cur cur' : Value) : Prop :=
  (cur' = cur ∧ ∃ lk, (lk ∉ held) ∧ same_but [lk] h h') ∨ h' = h.

Definition regular_keys (h : Heap) (steps : list PlaceStep) : Prop :=
  ∀ key k, Index key ∈ steps → key_of h key = Ok k → key_eq k k = true.

(** Integer keys are equal to themselves. *)
Lemma regular_ints h steps : Forall (λ st, ∃ i, st = Index (VInt i)) steps → regular_keys h steps.
Proof.
  intros Hs key k Hin Hk. rewrite ->Forall_forall in Hs. apply Hs in Hin as (i & [= ->]). unfold key_of in Hk. destruct nesting; [done|]. injection Hk as <-.
  cbn. apply Z.eqb_refl.
Qed.

Lemma regular_tail h st steps : regular_keys h (st :: steps) → regular_keys h steps.
Proof. intros Hr key k Hin. apply Hr. by right. Qed.

Lemma write_list steps held h l i x v h1 x' :
  LList l ∉ held → list_at h l !! i = Some x → slot h1 (LList l :: held) steps x' v →
  same_in (LList l :: held) h h1 → one_change (LList l :: held) h h1 x x' → ∀ key,
  seq_index (length (list_at h l)) key = Ok i →
  let h' := put_list l (<[i:=x']> (list_at h1 l)) h1 in
  slot h' held (Index key :: steps) (VList l) v ∧ same_in held h h' ∧ one_change held h h' (VList l) (VList l).
Proof.
  intros Hl Hx Hs Hin Hone key Hi. assert (list_at h l = list_at h1 l) as Hsame by (apply Hin; by left). cbv zeta. split_and!.
  - apply (slot_list _ _ _ _ i x'); [done|by rw list_at_put bool_decide_true // length_insert -Hsame| |].
    + rw list_at_put bool_decide_true // list_lookup_insert_eq //. rw -Hsame. by apply lookup_lt_Some in Hx.
    + apply (slot_same_but _ _ _ _ _ _ Hs). apply same_but_put_list. by left.
  - by apply (same_in_put_list _ _ _ _ (LList l)).
  - destruct Hone as [[-> (lk & Hlk & Hbut)] | ->].
    + left. split; [done|]. exists lk. rw put_list_same -?Hsame //. split; [set_solver|done].
    + left. split; [done|]. exists (LList l). split; [done|]. apply same_but_put_list. by left.
Qed.

Lemma write_dict steps held h l k x v h1 x' :
  LDict l ∉ held → im_get key_eq (dict_at h l) k = Some x → slot h1 (LDict l :: held) steps x' v →
  same_in (LDict l :: held) h h1 → one_change (LDict l :: held) h h1 x x' →
  let h' := put_dict l (im_insert key_eq (dict_at h1 l) k x') h1 in
  im_get key_eq (dict_at h' l) k = Some x' ∧ slot h' (LDict l :: held) steps x' v ∧ same_in held h h' ∧
  ∀ cur, one_change held h h' cur cur.
Proof.
  intros Hl Hx Hs Hin Hone. assert (dict_at h l = dict_at h1 l) as Hsame by (apply Hin; by left). cbv zeta. split_and!.
  - rw dict_at_put bool_decide_true //. apply (im_get_here _ _ _ x). rw -Hsame Hx. by left.
  - apply (slot_same_but _ _ _ _ _ _ Hs). apply same_but_put_dict. by left.
  - by apply (same_in_put_dict _ _ _ _ (LDict l)).
  - intros cur. left. split; [done|]. destruct Hone as [[-> (lk & Hlk & Hbut)] | ->].
    + exists lk. split; [set_solver|]. rw -Hsame (im_insert_same _ _ _ _ Hx) Hsame put_dict_same //.
      rw -Hsame. intros E. by rw E in Hx.
    + exists (LDict l). split; [done|]. apply same_but_put_dict. by left.
Qed.

Lemma write_field steps held h l name x v h1 x' :
  LFields l ∉ held → field_get (fields_at h l) name = Some x → slot h1 (LFields l :: held) steps x' v →
  same_in (LFields l :: held) h h1 → one_change (LFields l :: held) h h1 x x' →
  let h' := put_fields l (field_put (fields_at h1 l) name x') h1 in ∀ class_name,
  slot h' held (Attr name :: steps) (VInstance class_name l) v ∧ same_in held h h' ∧
  one_change held h h' (VInstance class_name l) (VInstance class_name l).
Proof.
  intros Hl Hx Hs Hin Hone. assert (fields_at h l = fields_at h1 l) as Hsame by (apply Hin; by left). cbv zeta. intros class_name. split_and!.
  - apply (slot_field _ _ _ _ _ x'); [done| |].
    + rw fields_at_put bool_decide_true //. apply (field_put_get _ _ x). by rw -Hsame.
    + apply (slot_same_but _ _ _ _ _ _ Hs). apply same_but_put_fields. by left.
  - by apply (same_in_put_fields _ _ _ _ (LFields l)).
  - left. split; [done|]. destruct Hone as [[-> (lk & Hlk & Hbut)] | ->].
    + exists lk. split; [set_solver|]. rw -Hsame (field_put_same _ _ _ Hx) Hsame put_fields_same //.
      rw -Hsame. intros E. by rw E in Hx.
    + exists (LFields l). split; [done|]. apply same_but_put_fields. by left.
Qed.

(** Inside a value: the value takes what its part became. *)
Lemma one_change_inline held h h' x x' (mk : Value → Value) :
  one_change held h h' x x' → (x' = x → mk x' = mk x) → one_change held h h' (mk x) (mk x').
Proof. intros [[-> Hlk] | ->] Hmk; [left|by right]. split; [by apply Hmk|done]. Qed.

Lemma write_slot old v steps d : ∀ held h cur h' cur',
  nav_recurse (overwrite old v) steps held h cur = (h', cur', Ok d) → regular_keys h steps →
  slot h' held steps cur' v ∧ same_in held h h' ∧ one_change held h h' cur cur'.
Proof.
  induction steps as [|st steps IH]; intros held h cur h' cur' Hnav Hreg.
  { cbn in Hnav. injection Hnav as <- <- _. split; [constructor|]. split; [done|by right]. }
  pose proof (regular_tail _ _ _ Hreg) as Htail. cbn [nav_recurse] in Hnav. destruct st as [key|spec|name]; [|done|].
  - assert (∀ k, key_of h key = Ok k → key_eq k k = true) as Hrefl by (intros k; apply Hreg; by left).
    assert (∀ l, as_dict cur = Some l →
      nav_try h cur (key_of h key) (λ k, nav_try h cur (acquire held (LDict l) (entry_of (dict_at h l) k)) (λ v0,
        let '(h0, v1, r) := nav_recurse (overwrite old v) steps (LDict l :: held) h v0 in
        (put_dict l (im_insert key_eq (dict_at h0 l) k v1) h0, cur, r))) = (h', cur', Ok d) →
      slot h' held (Index key :: steps) cur' v ∧ same_in held h h' ∧ one_change held h h' cur cur') as Hmap.
    { intros l Hcur (k & Hk & Ht)%nav_try_ok. apply nav_try_ok in Ht as (x & [Hl Hx%entry_of_ok]%acquire_ok & Ht).
      destruct (nav_recurse _ steps _ h x) as [[h1 x'] r] eqn:E. injection Ht as <- <- ->.
      destruct (IH _ _ _ _ _ E Htail) as (Hs & Hin & Hone).
      destruct (write_dict _ _ _ _ _ _ _ _ _ Hl Hx Hs Hin Hone) as (Hg & Hs' & Hin' & Hone').
      split_and!; [|done|done]. apply (slot_dict _ _ _ l _ k x'); try done.
      rw -(key_of_sets h) //. apply Hin'. }
    destruct cur; try done; try by apply (Hmap l).
    + apply nav_try_ok in Hnav as (i & [Hl Hi]%acquire_ok & Hnav). apply nav_try_ok in Hnav as (x & Hx%or_panic_ok & Hnav).
      destruct (nav_recurse _ steps _ h x) as [[h1 x'] r] eqn:E. injection Hnav as <- <- ->.
      destruct (IH _ _ _ _ _ E Htail) as (Hs & Hin & Hone). by apply (write_list _ _ _ _ _ x).
    + apply nav_try_ok in Hnav as (i & Hi & Hnav). apply nav_try_ok in Hnav as (x & Hx%or_panic_ok & Hnav).
      destruct (nav_recurse _ steps _ h x) as [[h1 x'] r] eqn:E. injection Hnav as <- <- ->.
      destruct (IH _ _ _ _ _ E Htail) as (Hs & Hin & Hone). split_and!; [|done|].
      * apply (slot_deque _ _ _ _ _ i x'); [by rw length_insert| |done].
        rw list_lookup_insert_eq //. by apply lookup_lt_Some in Hx.
      * rewrite <- (list_insert_id items i x Hx) at 1. apply (one_change_inline _ _ _ x x' (λ y, VDeque (<[i:=y]> items) maxlen)); [done|by intros ->].
    + apply nav_try_ok in Hnav as (k & Hk & Hnav). apply nav_try_ok in Hnav as (x & Hx%entry_of_ok & Hnav).
      destruct (nav_recurse _ steps _ h x) as [[h1 x'] r] eqn:E. injection Hnav as <- <- ->.
      destruct (IH _ _ _ _ _ E Htail) as (Hs & Hin & Hone). split_and!; [|done|].
      * apply (slot_default _ _ _ _ _ k x'); [rw -(key_of_sets h) //; apply Hin|apply (im_get_here _ _ _ x); by left|done].
      * rewrite <- (im_insert_same key_eq items k x Hx) at 1.
        apply (one_change_inline _ _ _ x x' (λ y, VDefaultDict (im_insert key_eq items k y) cur)); [done|by intros ->].
    + apply nav_try_ok in Hnav as (k & Hk & Hnav).
      destruct (nav_recurse _ steps _ h _) as [[h1 x'] r] eqn:E. injection Hnav as <- <- ->.
      destruct (IH _ _ _ _ _ E Htail) as (Hs & Hin & Hone). split_and!; [|done|].
      * apply (slot_counter _ _ _ _ k x'); [rw -(key_of_sets h) //; apply Hin|apply (im_get_here _ _ _ x'); right; by apply Hrefl|done].
      * destruct (im_get key_eq items k) as [x|] eqn:Hx; cbn in *.
        { rewrite <- (im_insert_same key_eq items k x Hx) at 1.
          apply (one_change_inline _ _ _ x x' (λ y, VCounter (im_insert key_eq items k y))); [done|by intros ->]. }
        right. destruct steps as [|[| |] ?]; [by injection E as <- <-|done..].
  - destruct cur; try done.
    + apply nav_try_ok in Hnav as (x & [Hl Hx]%acquire_ok & Hnav).
      destruct (im_get key_eq (dict_at h l) (KString (name_text name))) as [y|] eqn:Hy; [|done]. injection Hx as ->.
      destruct (nav_recurse _ steps _ h x) as [[h1 x'] r] eqn:E. injection Hnav as <- <- ->.
      destruct (IH _ _ _ _ _ E Htail) as (Hs & Hin & Hone).
      destruct (write_dict _ _ _ _ _ _ _ _ _ Hl Hy Hs Hin Hone) as (Hg & Hs' & Hin' & Hone').
      split_and!; [|done|done]. by apply (slot_name _ _ _ _ x').
    + apply nav_try_ok in Hnav as (x & [Hl Hx]%acquire_ok & Hnav).
      destruct (field_get (fields_at h fields) name) as [y|] eqn:Hy; [|done]. injection Hx as ->.
      destruct (nav_recurse _ steps _ h x) as [[h1 x'] r] eqn:E. injection Hnav as <- <- ->.
      destruct (IH _ _ _ _ _ E Htail) as (Hs & Hin & Hone). by apply (write_field _ _ _ _ _ x).
Qed.

(** C2: a value written through a place (eval/place.rs, `with_navigate_mut`) is what a
    read through the same place finds, whatever containers the steps pass: lists,
    dictionaries, default dictionaries, counters, deques and instance fields, nested
    or shared. The write changes one shared container and no variable, or, when
    the slot is in a value that is not shared, the variable alone; every other
    container, and so what every other name sees of them, is as before. *)
Theorem place_write s name steps old v s' d :
  at_place s name steps (overwrite old v) = (s', Ok d) → regular_keys (heap s) steps →
  at_place s' name steps read_slot = (s', Ok v) ∧
  ((variables s' = variables s ∧ ∃ lk, same_but [lk] (heap s) (heap s')) ∨
   (heap s' = heap s ∧ ∃ cur, variables s' = <[name := cur]> (variables s))).
Proof.
  unfold at_place. destruct (variables s !! name) as [cur|] eqn:Hcur; [|done].
  destruct (nav_recurse _ steps [] (heap s) cur) as [[h' cur'] r] eqn:E. intros [= <- ->] Hreg.
  destruct (write_slot _ _ _ _ _ _ _ _ _ E Hreg) as (Hs & _ & Hone).
  cbn [variables heap set_variables set_heap]. rw lookup_insert_eq (read_of_slot _ _ _ _ _ Hs). split.
  { unfold set_variables, set_heap. cbn. by rw insert_insert_eq. }
  destruct Hone as [[-> (lk & _ & Hbut)] | ->].
  - left. split; [by apply insert_id|by exists lk].
  - right. split; [done|by exists cur'].
Qed.

(** A walk that comes to a list, a dictionary or an instance it is inside of waits for
    a lock it holds. *)
Lemma walk_again_list {A} (f : list Lock → Heap → Value → Heap * Value * EvalResult A) held h l key steps :
  LList l ∈ held → nav_recurse f (Index key :: steps) held h (VList l) = (h, VList l, Panic).
Proof. intros Hl. cbn [nav_recurse]. unfold acquire. by rw bool_decide_true. Qed.

(** So an assignment inside a list that is its own first element never returns. *)
Lemma own_element_never_returns {A} (f : list Lock → Heap → Value → Heap * Value * EvalResult A) s name l key steps :
  variables s !! name = Some (VList l) → list_at (heap s) l !! 0%nat = Some (VList l) →
  (at_place s name (Index (VInt 0) :: Index key :: steps) f).2 = Panic.
Proof.
  intros Hv Hl. unfold at_place. rw Hv. cbn [nav_recurse].
  assert (seq_index (length (list_at (heap s) l)) (VInt 0) = Ok 0%nat) as Hi.
  { unfold seq_index. cbn. apply lookup_lt_Some in Hl. by destruct (length (list_at (heap s) l)); [lia|]. }
  rw acquired; [set_solver|]. rw Hi. cbn [nav_try]. rw Hl. cbn [or_panic nav_try].
  unfold acquire. by rw bool_decide_true; [by left|].
Qed.
End Places.

(** A dictionary inside a list, in a variable. *)
Definition nested_state : InterpreterState :=
  let h := put_list 0 [VInt 1; VDict 0] (put_dict 0 [(KInt 7, VInt 2)] (heap fresh_state)) in
  set_variables {["a" := VList 0; "b" := VDict 0]} (set_heap h fresh_state).
Definition nested_steps : list PlaceStep := [Index (VInt 1); Index (VInt 7)].

Lemma place_write_witness :
  let s' := (at_place nested_state "a" nested_steps (overwrite (λ _ _, 8) (VInt 3))).1 in
  (at_place s' "a" nested_steps read_slot = (s', Ok (VInt 3)) ∧
   ((variables s' = variables nested_state ∧ ∃ lk, same_but [lk] (heap nested_state) (heap s')) ∨
    (heap s' = heap nested_state ∧ ∃ cur, variables s' = <["a" := cur]> (variables nested_state)))) ∧
  match (at_place s' "b" [Index (VInt 7)] read_slot).2 with Ok (VInt n) => n | _ => 0 end = 3.
Proof.
  split; [|vm_compute; reflexivity].
  apply (place_write nested_state "a" nested_steps (λ _ _, 8) (VInt 3) _ 0).
  - apply injective_projections; [reflexivity|]. cbn [snd]. vm_compute. reflexivity.
  - apply regular_ints. repeat constructor; by eexists.
Defined.
